(* ===== verification/_CoqProject ===== *)
-Q . S2P
Prelude.v
Types.v
Events.v
TermSegments.v
BufferedLog.v
LogInv.v
LogSpec.v
LogStore.v
IoThread.v
Durability.v
LogProps.v
Replication.v
ReplicationSpec.v
ReplicationProps.v
Election.v
ReadLease.v
Proc.v
Roles.v
RoleState.v
FollowerRoles.v
LeaderState.v
Leader.v
LeaderEvents.v
RaftLoop.v
ProcLogic.v
HardStateSpec.v
ElectionSpec.v
ElectionSafety.v
Scenarios.v
ElectionProps.v
LeaderProgress.v
ClientFlow.v
LeaderRequests.v
ReadProps.v
LoopProps.v
LeaderProps.v
Codec.v
Commands.v
TtlLease.v
FileStateMachine.v
FsmSpec.v
FsmRecovery.v
FsmProps.v
SmWorker.v
CommitHandler.v
PipelineSpec.v
PipelineRuns.v
WorkerLocks.v
PipelineProps.v
Membership.v
FileStorage.v
FileStorageSpec.v
FileStorageProps.v
Config.v
SnapshotFiles.v
SnapshotTransfer.v
SnapshotTransferSpec.v
SnapshotHandler.v
SnapshotPush.v
SnapshotProps.v
Watch.v
WatchSpec.v
KvMachine.v
WatchProps.v
RocksDb.v
RocksLogSpec.v
RocksLogProps.v
RocksSm.v
RocksSmProps.v
ReplicationWorker.v
ClientWire.v
ClientApi.v
ClientProps.v
ConnectionPool.v
AppendStream.v
Transport.v
TransportProps.v
