(* ===== verification/Prelude.v ===== *)
(** * d-engine: a verification development

    d-engine is a Raft engine: a node replicates a log of commands with its peers, applies
    the committed ones to a key-value state machine, and serves clients inside the process
    or over gRPC. This library models the program under [src/] as executable definitions
    and proves what its parts promise to each other. Paths below are relative to [src/].

    ** The program and its parts

    One task, the raft loop ([d-engine-core/src/raft.rs]), owns the role of the node and handles
    inbound RPCs, client commands, ticks and internal events one at a time. A role appends
    to the log ([storage/buffered_raft_log.rs]), which a thread writes to a log store
    and an fsync task makes durable. A leader hands requests for its peers to one
    replication worker each, which pushes them over a stream that the transport opens; the
    peer's service feeds them to its own raft loop and sends the answers back in order.
    Commit indexes go to the commit handler, which reads the committed entries and hands
    them to the state machine worker; results go back to the loop, which answers the
    clients, and to the watchers. Snapshots are captured by the worker, archived, cut into
    chunks and pushed to peers that lag behind.

    ** Files

    - [Prelude], [Proc], [ProcLogic]: machine integers, errors, record update, ordered
      maps, tactics; the monad of code that threads a state, fails and panics, with
      frame rules ([keeps]).
    - [Types], [Events]: messages of [d-engine-proto], events and replies of [event.rs].
    - The raft log, [d-engine-core/src/storage]: [TermSegments], [BufferedLog] (operations),
      [LogInv] (well-formedness), [LogSpec] (functional behaviour), [LogStore] (the trait,
      as a class with laws), [IoThread] and [Durability] (the IO thread and the fsync
      task, interleaved with the loop), [LogProps].
    - Replication and election: [Replication], [ReplicationSpec], [ReplicationProps]
      ([replication/replication_handler.rs]); [Election] ([election/election_handler.rs]),
      [ReadLease] ([raft_role/read_lease.rs]), [Roles], [RoleState], [FollowerRoles],
      [LeaderState], [Leader], [LeaderEvents] ([raft_role/*.rs]), [RaftLoop] ([raft.rs]).
    - Their correctness: [HardStateSpec], [ElectionSpec] (the one-vote-per-term protocol),
      [ElectionSafety] (a cluster of nodes that run the handlers refines it),
      [Scenarios], [ElectionProps]; [LeaderProgress], [ClientFlow] and
      [LeaderRequests] (reply channels are conserved), [ReadProps], [LoopProps],
      [LeaderProps].
    - [ReplicationWorker] ([run_replication_worker] of [leader_state.rs]) and [AppendStream]
      (the peer's end, [network/grpc/grpc_raft_service.rs]); [Transport], [TransportProps]:
      the calls to peers, connections, failure counts, retries, the start of a node
      ([d-engine-server/src/network], [d-engine-core/src/network/mod.rs],
      [d-engine-server/src/{utils,node/mod.rs}]).
    - The file state machine, [d-engine-server/src/storage]: [Codec], [Commands], [TtlLease],
      [FileStateMachine], [FsmSpec], [FsmRecovery], [FsmProps]; the log and hard-state
      files: [FileStorage], [FileStorageSpec], [FileStorageProps].
    - The RocksDB adaptors: [RocksDb] (the database as an interface with laws),
      [RocksLogSpec], [RocksLogProps], [RocksSm], [RocksSmProps].
    - From commit to apply: [SmWorker], [CommitHandler], [PipelineSpec], [PipelineRuns],
      [PipelineProps], [WorkerLocks]; [KvMachine], the contract of a state machine, which
      both backends implement and the watchers are proved against; [Watch], [WatchSpec],
      [WatchProps].
    - Snapshots: [SnapshotFiles], [SnapshotTransfer], [SnapshotTransferSpec],
      [SnapshotHandler], [SnapshotPush], [SnapshotProps].
    - [Membership] ([d-engine-server/src/membership]), [Config] ([d-engine-core/src/config]).
    - Clients: [ClientWire] (messages and conversions), [ClientApi] (read paths, the
      services, the embedded and the gRPC client), [ClientProps], [ConnectionPool].

    A component is a record with one definition per operation. A [u64] or [u32] is an [N] whose
    overflow is explicit: the release profile checks overflow, so an addition that
    overflows is a panic, as are [unwrap] and [expect]. A panic is [None], an error the
    [Err] or [inr] of a sum. A [HashMap] is a [gmap]; where the code iterates over one, the
    order is that of a class ([MapIter]) that the theorems quantify over. Concurrent
    tasks are step machines: each uninterrupted piece of a task is one step, and theorems
    hold for every list of steps.

    ** What the theorems show

    - Log: every reachable log is well formed; the optimised conflict resolution is the
      rule of the Raft paper; an index that is reported durable survives a power loss,
      over the interface of the store and over the file and the RocksDB store.
    - Election and replication: at most one leader per term, through crashes and restarts,
      by refinement of the abstract protocol; a follower agrees with its leader up to what
      it acknowledges; the search for the point of agreement ends; a commit index has a
      majority behind it; a leader only appends.
    - Clients of the leader: every request is answered once; a linearizable read waits for
      its index or a lease; a lease is over before another leader can be elected.
    - State machines: a chunk has the effect of its entries one after the other, in both
      backends alike; after a crash a prefix of the records is recovered; a snapshot
      installs the state it was taken from, through archive, chunks and transfer.
    - Pipeline: only committed entries reach the state machine, each once and in order when
      the worker keeps up; the worker's queue is never stuck; watchers see every matching
      event in order or are told that they were dropped.
    - Workers and network: no task of a replication worker is lost or sent twice; answers
      on a stream are in order; a peer that is reported failed often enough; a cached
      connection leads to the present address; retries and the search for the leader end.
    - Both clients agree on every write and read; validation accepts exactly the
      configurations that meet its constraints.

    Theorems named after a departure (for example [stale_zombie_is_reported]) are concrete runs in
    which the code does not do what its comments or documentation say; they stand at the
    end of the file of their component.

    ** Assumptions

    Code outside [src/] is a parameter with its documented behaviour as hypotheses, each with
    an instance that satisfies them: the encodings of prost and bincode (decoding inverts
    encoding), RocksDB ([RocksDb.v]: batches are atomic, iterators are ordered, a crash
    leaves the contents of the last flush with some of the writes since), the archive format and
    the checksum of snapshots, SHA-256, the order in which futures complete. Clocks, random
    timeouts, results of file operations and of remote calls are arguments: theorems hold
    for all of them. For the clients the raft loop is a function from a command to the
    outcome of waiting for its reply.

    ** Fuel

    Loops with a bound in the code recurse on it. [ConnectionPool.load_cluster_metadata]
    sleeps 200 ms per round, so [enough_fuel] counts the rounds until its deadline, and
    [leader_search_ends] shows that they are enough. The loaders of files consume at least
    one byte per round and get the length of the file ([recovery_loops_end]).
    A pass of the raft loop over its buffered events takes one per round and gets their
    number ([inbound_pass_empties_buffer]), a turn of the IO thread the length of its queue,
    the search for the point of agreement the index it starts from
    ([probing_finds_agreement]), [Transport.trim_start_matches] the length of the string.

    ** Not modelled

    - The gRPC stubs generated by prost and tonic, the set-up of tonic's server with its
      certificates, TCP and HTTP/2: they belong to libraries, and what the code sees of
      them is an outcome of a call.
    - Building a node from its parts ([node/builder.rs], apart from the tasks that carry
      the health of peers), the engines ([api/{embedded,standalone}.rs]), shutdown, the
      lock of the data directory, the leader and membership notifiers: they start and stop
      tasks and pass tokio's channels on, without a state of their own.
    - Reading configuration files and environment variables, which the config crate does.
    - Metrics, logging, timing guards, the cluster printer: no effect on the state.
    - RocksDB tuning options, compression flags, buffer sizes of channels whose overflow is
      waited for: they change cost, not results.
    - The wrappers of file system calls in [utils/file_io.rs], except for the checks.
    - Examples, benches, mocks and test utilities: programs that use the library. *)

From stdpp Require Import base tactics numbers option list sorting gmap strings.

#[global] Set Default Goal Selector "!".
#[global] Open Scope N_scope.

(** ** Machine integers

    A [u64] (and a [u32] node id) is an [N]. The release profile sets
    [overflow-checks = true], so [+], [-] and [*] of the source either give the
    mathematical result or abort; the atomics' [fetch_add] is the only wrapping
    addition and is written out as [wrapping_add_u64]. *)

Definition u64_max : N := 18446744073709551615.
Definition u32_max : N := 4294967295.

Definition wrapping_add_u64 (a b : N) : N := (a + b) mod (u64_max + 1).

(** [u64::checked_sub], [u64::checked_add], [u64::saturating_add]. *)
Definition checked_sub (a b : N) : option N := if b <=? a then Some (a - b) else None.

Definition checked_add (a b : N) : option N :=
  if a + b <=? u64_max then Some (a + b) else None.

Definition saturating_add (a b : N) : N := N.min (a + b) u64_max.

(** ** Errors *)

(** The error values of the core, at the granularity the modelled code
    distinguishes ([d-engine-core/src/errors.rs]). *)
Inductive error :=
  | Fatal (msg : string)
  | SingalSendFailed (msg : string)
  | HigherTerm (term : N)
  | InconsistentPrevLogTerm (peer_id prev_index first_index last_index : N)
  | IdOverflow (start end_ : N)
  | NoVotingMemberFound (candidate_id : N)
  | LogConflict (index expected_term actual_term : N)
  | QuorumFailure (required succeed : N)
  | InvalidTransition
  | RoleViolation (current_role required_role : string)
  | NotLeaderError
  | NotLearnerError
  | NodeAlreadyExists (node_id : N)
  | JoinClusterError (msg : string)
  | JoinClusterFailed (node_id : N)
  | ResponseChannelClosed
  | Network (msg : string)
  | RetryTimeoutError
  | DataCorruption
  | BoundaryConflict
  | SnapshotFailed (msg : string)
  | StateMachineError (msg : string)
  | SerializationError (msg : string)
  | BincodeError
  | IoError
  | ChecksumMismatch
  | CaptureSkipped
  | CaptureSuperseded
  | WorkerUnavailable
  | NoMetadataFoundForNode (node_id : N)
  | InvalidPromotion (node_id role : N)
  | RemoveNodeIsLeader (node_id : N)
  | InvalidChangeRequest
  | NoLeaderFound
  | ConfigError (msg : string)
  | PathError
  | FileNotFound
  | FileTooSmall (size : N)
  | InvalidExt
  | InvalidGzipHeader
  | InvalidFirstChunk
  | EmptySnapshot
  | Backpressure
  | ReceiverDisconnected
  | RemoteRejection
  | TonicStatusError
  | NetworkTimeout (node_id : N)
  | DbError (msg : string)
  | NotServing (msg : string).

(** [Error::is_fatal]: the errors that shut the node down. *)
Definition is_fatal (e : error) : bool :=
  match e with Fatal _ | DataCorruption | BoundaryConflict => true | _ => false end.

Inductive result (A : Type) :=
  | Ok (a : A)
  | Err (e : error).
Arguments Ok {A} a.
Arguments Err {A} e.

#[global] Instance error_eq_dec : EqDecision error.
Proof. solve_decision. Defined.

#[global] Instance result_eq_dec {A} `{EqDecision A} : EqDecision (result A).
Proof. solve_decision. Defined.

Declare Scope dengine_scope.
Delimit Scope dengine_scope with dengine.

(** The [?] operator on a [result]. *)
Notation "'let?' x ':=' c 'in' k" :=
  (match c with Ok x => k | Err e => Err e end)
  (at level 10, x name, c at level 100, k at level 200)
  : dengine_scope.

(** A computation that may panic: [None] is the panic. *)
Notation "'let!' x ':=' c 'in' k" :=
  (match c with Some x => k | None => None end)
  (at level 10, x name, c at level 100, k at level 200)
  : dengine_scope.

#[global] Open Scope dengine_scope.

(** ** Record update

    [r <| f := v |>] is the record [r] with field [f] set to [v], and
    [r <| f ::= u |>] applies [u] to the field. The setter of a field is derived from
    the eta expansion of its record. *)

Class Settable (R : Type) := eta : R → R.
Class Setter {R E : Type} (f : R → E) := update_field : (E → E) → R → R.
Arguments update_field {_ _} f {_} _ _ /.

Ltac derive_setter R f :=
  let c := constr:(_ : Settable R) in
  let c := eval red in c in
  lazymatch eval pattern f in c with
  | ?g _ => let t := eval cbv beta in (λ u, g (λ r, u (f r))) in exact t
  end.

#[global] Hint Extern 1 (@Setter ?R _ ?f) => derive_setter R f : typeclass_instances.

Notation "r <| f := v |>" := (update_field f (λ _, v) r)
  (at level 1, left associativity, f at level 1, v at level 99).
Notation "r <| f ::= u |>" := (update_field f u r)
  (at level 1, left associativity, f at level 1, u at level 99).

(** ** Tactics *)

Create HintDb dengine discriminated.

(** Turn the boolean comparisons of the code into propositions, by cases. *)
Ltac case_bool :=
  repeat match goal with
  | |- context [?a <=? ?b] => destruct (N.leb_spec a b)
  | |- context [?a <? ?b] => destruct (N.ltb_spec a b)
  | |- context [?a =? ?b] => destruct (N.eqb_spec a b)
  end.

Ltac case_bool_in H :=
  repeat match type of H with
  | context [?a <=? ?b] => destruct (N.leb_spec a b)
  | context [?a <? ?b] => destruct (N.ltb_spec a b)
  | context [?a =? ?b] => destruct (N.eqb_spec a b)
  end.

(** ** Generic list lemmas *)

Lemma last_app_cons {A} (l : list A) (x : A) (l' : list A) :
  last (l ++ x :: l') = last (x :: l').
Proof. rewrite last_app. destruct (last (x :: l')) eqn:E; [done|]. by apply last_None in E. Qed.

Lemma last_is_Some_cons {A} (x : A) (l : list A) : is_Some (last (x :: l)).
Proof. apply last_is_Some. done. Qed.

Lemma StronglySorted_head_le {A} (R : relation A) x l y :
  StronglySorted R (x :: l) → y ∈ l → R x y.
Proof. intros H Hy. inversion H as [|?? ? Hall]; subst. rewrite Forall_forall in Hall. by apply Hall. Qed.

(** Two lists strictly sorted by the same key with the same elements are equal. *)
Lemma strict_sorted_unique {A} (R : relation A) `{!Irreflexive R} `{!Transitive R} (l1 l2 : list A) :
  StronglySorted R l1 → StronglySorted R l2 → (∀ x, x ∈ l1 ↔ x ∈ l2) → l1 = l2.
Proof.
  revert l2. induction l1 as [|x l1 IH]; intros [|y l2] H1 H2 Hel.
  - done.
  - exfalso. apply (not_elem_of_nil y), Hel. left.
  - exfalso. apply (not_elem_of_nil x), Hel. left.
  - assert (x = y) as <-.
    { assert (x ∈ y :: l2) as Hx by (apply Hel; left).
      assert (y ∈ x :: l1) as Hy by (apply Hel; left).
      apply elem_of_cons in Hx as [?|Hx]; [done|].
      apply elem_of_cons in Hy as [?|Hy]; [done|].
      exfalso. apply (irreflexivity R x). trans y; by eapply StronglySorted_head_le. }
    f_equal. apply IH.
    + by inversion H1.
    + by inversion H2.
    + intros z. pose proof (Hel z) as Hz. rewrite !elem_of_cons in Hz.
      pose proof (irreflexivity R x). split; intros Hin.
      * destruct Hz as [Hz _]. destruct (Hz (or_intror Hin)) as [->|]; [|done].
        exfalso. by eapply (StronglySorted_head_le _ _ _ _ H1) in Hin.
      * destruct Hz as [_ Hz]. destruct (Hz (or_intror Hin)) as [->|]; [|done].
        exfalso. by eapply (StronglySorted_head_le _ _ _ _ H2) in Hin.
Qed.

(** ** Runs of consecutive indices *)

(** [contiguous s l]: the [k]-th element of [l] has key [s + k]. *)
Fixpoint contiguous {A} (key : A → N) (s : N) (l : list A) : Prop :=
  match l with
  | [] => True
  | x :: l' => key x = s ∧ contiguous key (s + 1) l'
  end.

Lemma contiguous_app {A} (key : A → N) s l1 l2 :
  contiguous key s (l1 ++ l2) ↔
  contiguous key s l1 ∧ contiguous key (s + N.of_nat (length l1)) l2.
Proof.
  revert s. induction l1 as [|x l1 IH]; intros s; simpl.
  - rewrite N.add_0_r. tauto.
  - rewrite IH. replace (s + 1 + N.of_nat (length l1)) with (s + N.of_nat (S (length l1))) by lia.
    tauto.
Qed.

Lemma contiguous_elem {A} (key : A → N) s l x :
  contiguous key s l → x ∈ l → s <= key x < s + N.of_nat (length l).
Proof.
  revert s. induction l as [|y l IH]; intros s Hc Hx; [by apply not_elem_of_nil in Hx|].
  destruct Hc as [Hy Hc]. simpl. apply elem_of_cons in Hx as [->|Hx]; [lia|].
  specialize (IH _ Hc Hx). lia.
Qed.

Lemma contiguous_last {A} (key : A → N) s l x :
  contiguous key s l → last l = Some x → key x + 1 = s + N.of_nat (length l).
Proof.
  revert s. induction l as [|y l IH]; intros s Hc Hl; [done|].
  destruct Hc as [Hy Hc]. destruct l as [|z l]; simpl in *.
  - injection Hl as ->. lia.
  - specialize (IH _ Hc Hl). lia.
Qed.

(** ** Ordered maps

    [crossbeam_skiplist::SkipMap<u64, V>] and [BTreeMap<u64, V>] are ordered
    maps; a [gmap N V] together with its key-sorted listing. *)

Section ordmap.
Context {V : Type}.
Implicit Types (m : gmap N V) (l : list (N * V)).

Definition key_lt : relation (N * V) := λ p q, p.1 < q.1.
Definition key_le : relation (N * V) := λ p q, p.1 <= q.1.

#[global] Instance key_le_dec : RelDecision key_le.
Proof. intros p q. unfold key_le. apply _. Defined.

#[global] Instance key_le_trans : Transitive key_le.
Proof. intros ???. unfold key_le. lia. Qed.

#[global] Instance key_le_total : Total key_le.
Proof. intros p q. unfold key_le. lia. Qed.

#[global] Instance key_lt_irrefl : Irreflexive key_lt.
Proof. intros p. unfold complement, key_lt. lia. Qed.

#[global] Instance key_lt_trans : Transitive key_lt.
Proof. intros ???. unfold key_lt. lia. Qed.

(** Iteration in key order ([iter()]). *)
Definition om_iter m : list (N * V) := merge_sort key_le (map_to_list m).

(** [front()], [back()]. *)
Definition om_front m : option (N * V) := head (om_iter m).
Definition om_back m : option (N * V) := last (om_iter m).

(** [range(lo..=hi)]. *)
Definition om_range (lo hi : N) m : list (N * V) :=
  filter (λ p, lo <= p.1 ∧ p.1 <= hi) (om_iter m).

Lemma elem_of_om_iter m k v : (k, v) ∈ om_iter m ↔ m !! k = Some v.
Proof. unfold om_iter. rewrite merge_sort_Permutation. apply elem_of_map_to_list. Qed.

Lemma om_iter_NoDup m : NoDup (om_iter m).*1.
Proof. unfold om_iter. rewrite merge_sort_Permutation. apply NoDup_fst_map_to_list. Qed.

Lemma sorted_le_lt l : StronglySorted key_le l → NoDup l.*1 → StronglySorted key_lt l.
Proof.
  induction 1 as [|x l Hs IH Hall]; simpl; [constructor|].
  rewrite NoDup_cons. intros [Hx Hnd]. constructor; [by apply IH|].
  apply Forall_forall. intros y Hy. rewrite Forall_forall in Hall.
  specialize (Hall y Hy). unfold key_le, key_lt in *.
  assert (x.1 ≠ y.1); [|lia]. intros Heq. apply Hx. rewrite Heq. by apply list_elem_of_fmap_2.
Qed.

Lemma om_iter_sorted m : StronglySorted key_lt (om_iter m).
Proof. apply sorted_le_lt; [|apply om_iter_NoDup]. apply (StronglySorted_merge_sort key_le). Qed.

Lemma elem_of_om_range m lo hi k v :
  (k, v) ∈ om_range lo hi m ↔ lo <= k ∧ k <= hi ∧ m !! k = Some v.
Proof. unfold om_range. rewrite list_elem_of_filter, elem_of_om_iter. simpl. tauto. Qed.

Lemma StronglySorted_filter {A} (R : relation A) (P : A → Prop) `{!∀ x, Decision (P x)} (l : list A) :
  StronglySorted R l → StronglySorted R (filter P l).
Proof.
  induction 1 as [|x l Hs IH Hall]; [constructor|].
  rewrite filter_cons. case_decide; [|done]. constructor; [done|].
  rewrite Forall_forall in Hall |- *. intros y [_ Hy]%list_elem_of_filter. by apply Hall.
Qed.

Lemma om_range_sorted m lo hi : StronglySorted key_lt (om_range lo hi m).
Proof. apply StronglySorted_filter, om_iter_sorted. Qed.

Lemma om_iter_unique m l :
  StronglySorted key_lt l → (∀ k v, (k, v) ∈ l ↔ m !! k = Some v) → om_iter m = l.
Proof.
  intros Hs Hl. apply (strict_sorted_unique key_lt); [apply om_iter_sorted|done|].
  intros [k v]. by rewrite elem_of_om_iter, Hl.
Qed.

Lemma om_front_Some m k v :
  om_front m = Some (k, v) ↔ m !! k = Some v ∧ ∀ j, is_Some (m !! j) → k <= j.
Proof.
  unfold om_front. pose proof (om_iter_sorted m) as Hs.
  assert (Hel : ∀ k v, (k, v) ∈ om_iter m ↔ m !! k = Some v) by apply elem_of_om_iter.
  destruct (om_iter m) as [|[k0 v0] l]; simpl; split.
  - done.
  - intros [Hk _]. apply Hel in Hk. by apply not_elem_of_nil in Hk.
  - intros [= -> ->]. split; [apply Hel; left|]. intros j [w Hw].
    apply Hel, elem_of_cons in Hw as [[= -> ->]|Hw]; [lia|].
    eapply StronglySorted_head_le in Hw; [|done]. unfold key_lt in Hw. simpl in Hw. lia.
  - intros [Hk Hmin]. apply Hel, elem_of_cons in Hk as [[= -> ->]|Hk]; [done|].
    eapply StronglySorted_head_le in Hk; [|done]. unfold key_lt in Hk. simpl in Hk.
    assert (k <= k0); [|lia]. apply Hmin. exists v0. apply Hel. left.
Qed.

Lemma om_front_None m : om_front m = None ↔ m = ∅.
Proof.
  unfold om_front. split.
  - intros Hh. apply map_empty. intros k. destruct (m !! k) as [v|] eqn:E; [|done].
    apply elem_of_om_iter in E. destruct (om_iter m); [by apply not_elem_of_nil in E|done].
  - intros ->. unfold om_iter. by rewrite map_to_list_empty.
Qed.

Lemma sorted_last_max l x y :
  StronglySorted key_lt l → last l = Some x → y ∈ l → y.1 <= x.1.
Proof.
  induction l as [|a l IH]; [done|]. intros Hs Hl Hy.
  inversion Hs as [|?? Hs' Hall]; subst.
  destruct l as [|b l]; simpl in Hl.
  - injection Hl as ->. apply list_elem_of_singleton in Hy as ->. lia.
  - apply elem_of_cons in Hy as [->|Hy]; [|by apply IH].
    apply last_Some_elem_of in Hl. rewrite Forall_forall in Hall.
    specialize (Hall x Hl). unfold key_lt in Hall. lia.
Qed.

Lemma om_back_Some m k v :
  om_back m = Some (k, v) ↔ m !! k = Some v ∧ ∀ j, is_Some (m !! j) → j <= k.
Proof.
  unfold om_back. pose proof (om_iter_sorted m) as Hs. split.
  - intros Hl. split; [apply elem_of_om_iter; by apply last_Some_elem_of|].
    intros j [w Hw]. apply elem_of_om_iter in Hw.
    by apply (sorted_last_max _ _ _ Hs Hl) in Hw.
  - intros [Hk Hmax]. destruct (last (om_iter m)) as [[k0 v0]|] eqn:E.
    + pose proof E as E'. apply last_Some_elem_of, elem_of_om_iter in E.
      assert (k0 <= k) by (apply Hmax; eauto).
      apply elem_of_om_iter in Hk as Hk'. apply (sorted_last_max _ _ _ Hs E') in Hk'.
      simpl in Hk'. assert (k0 = k) as -> by lia. congruence.
    + apply last_None in E. apply elem_of_om_iter in Hk. rewrite E in Hk.
      by apply not_elem_of_nil in Hk.
Qed.

Lemma om_back_None m : om_back m = None ↔ m = ∅.
Proof.
  unfold om_back. rewrite last_None, <-om_front_None. unfold om_front.
  destruct (om_iter m); naive_solver.
Qed.

(** The bindings of [lo, lo + n), read one index at a time. *)
Fixpoint om_slice m (lo : N) (n : nat) : list (N * V) :=
  match n with
  | O => []
  | S n' => match m !! lo with
            | Some v => (lo, v) :: om_slice m (lo + 1) n'
            | None => om_slice m (lo + 1) n'
            end
  end.

Lemma elem_of_om_slice m lo n k v :
  (k, v) ∈ om_slice m lo n ↔ lo <= k ∧ k < lo + N.of_nat n ∧ m !! k = Some v.
Proof.
  revert lo. induction n as [|n IH]; intros lo; simpl.
  - rewrite elem_of_nil. lia.
  - destruct (m !! lo) as [w|] eqn:E; rewrite ?elem_of_cons, IH; split.
    + intros [[= -> ->]|?]; [split; [lia|split; [lia|done]]|]. split; [lia|split; [lia|tauto]].
    + intros (? & ? & Hk). destruct (decide (k = lo)) as [->|]; [left; congruence|right].
      split; [lia|split; [lia|done]].
    + intros ?. split; [lia|split; [lia|tauto]].
    + intros (? & ? & Hk). assert (k ≠ lo) by congruence. split; [lia|split; [lia|done]].
Qed.

Lemma om_slice_sorted m lo n : StronglySorted key_lt (om_slice m lo n).
Proof.
  revert lo. induction n as [|n IH]; intros lo; simpl; [constructor|].
  destruct (m !! lo) as [w|]; [|done]. constructor; [done|].
  apply Forall_forall. intros [k v] Hk%elem_of_om_slice. unfold key_lt. simpl. lia.
Qed.

Lemma om_range_slice m lo hi n : hi + 1 = lo + N.of_nat n → om_range lo hi m = om_slice m lo n.
Proof.
  intros Hn. apply (strict_sorted_unique key_lt); [apply om_range_sorted|apply om_slice_sorted|].
  intros [k v]. rewrite elem_of_om_range, elem_of_om_slice. naive_solver lia.
Qed.

Lemma om_slice_full m lo n :
  (∀ i, lo <= i → i < lo + N.of_nat n → is_Some (m !! i)) →
  contiguous fst lo (om_slice m lo n) ∧ length (om_slice m lo n) = n.
Proof.
  revert lo. induction n as [|n IH]; intros lo Hall; simpl; [done|].
  destruct (Hall lo) as [v ->]; [lia|lia|]. simpl.
  destruct (IH (lo + 1)) as [Hc Hl]; [intros; apply Hall; lia|]. auto.
Qed.
End ordmap.

(** ** Per-key folds

    A loop over a [HashMap] whose body touches only the entry of its own key
    does not depend on the iteration order; this is its value at each key. *)

Section fold_per_key.
Context {K V W : Type} `{Countable K}.

Definition fold_per_key (g : K → V → option W → option W) (m : gmap K V) (acc : gmap K W)
    : gmap K W :=
  foldr (λ p acc, partial_alter (g p.1 p.2) p.1 acc) acc (map_to_list m).

Lemma lookup_fold_per_key g m acc k :
  fold_per_key g m acc !! k =
    match m !! k with Some v => g k v (acc !! k) | None => acc !! k end.
Proof.
  unfold fold_per_key.
  assert (Hnd : NoDup (map_to_list m).*1) by apply NoDup_fst_map_to_list.
  assert (Hel : ∀ v, (k, v) ∈ map_to_list m ↔ m !! k = Some v)
    by (intros; apply elem_of_map_to_list).
  destruct (m !! k) as [v|] eqn:E.
  - assert ((k, v) ∈ map_to_list m) as Hin by (by apply Hel). clear Hel E.
    induction (map_to_list m) as [|[k' v'] l IH]; [by apply not_elem_of_nil in Hin|].
    simpl in *. rewrite NoDup_cons in Hnd. destruct Hnd as [Hk' Hnd].
    apply elem_of_cons in Hin as [[= <- <-]|Hin].
    + rewrite lookup_partial_alter_eq. f_equal. clear IH Hnd.
      induction l as [|[k'' v''] l IH]; [done|]. simpl in *.
      rewrite lookup_partial_alter_ne by set_solver. apply IH. set_solver.
    + rewrite lookup_partial_alter_ne; [by apply IH|].
      intros ->. apply Hk'. apply list_elem_of_fmap. by exists (k, v).
  - assert (Hno : ∀ v, (k, v) ∉ map_to_list m) by (intros v Hv; apply Hel in Hv; congruence).
    clear Hel Hnd. induction (map_to_list m) as [|[k' v'] l IH]; [done|].
    simpl. rewrite lookup_partial_alter_ne; [|intros ->; apply (Hno v'); left].
    apply IH. intros v Hv. apply (Hno v). by right.
Qed.
End fold_per_key.

(** ** Hash maps

    Iterating a [HashMap] or a [DashMap] visits each binding once, in an order the
    program cannot rely on: [map_iter] is that order. *)

Class MapIter (K V : Type) `{Countable K} := {
  map_iter : gmap K V → list (K * V);
  map_iter_perm m : map_iter m ≡ₚ map_to_list m;
}.

Section map_iter.
Context {K V : Type} `{Countable K} `{!MapIter K V}.

Lemma elem_of_map_iter (m : gmap K V) k v : (k, v) ∈ map_iter m ↔ m !! k = Some v.
Proof. rewrite map_iter_perm. apply elem_of_map_to_list. Qed.

Lemma map_iter_NoDup (m : gmap K V) : NoDup (map_iter m).*1.
Proof. rewrite map_iter_perm. apply NoDup_fst_map_to_list. Qed.

Lemma list_to_map_iter (m : gmap K V) : list_to_map (map_iter m) = m.
Proof. rewrite (list_to_map_proper _ _ (map_iter_NoDup m) (map_iter_perm m)). apply list_to_map_to_list. Qed.
End map_iter.

(** An order to run the model with. *)
Definition map_to_list_iter (K V : Type) `{Countable K} : MapIter K V :=
  {| map_iter := map_to_list; map_iter_perm := λ m, reflexivity (map_to_list m) |}.
