(* ===== verification/Types.v ===== *)
(** * Wire and log data types

    The protobuf messages the core exchanges and stores
    ([d-engine-proto/src/generated]): log entries and their payloads, the
    replication and election messages, and the constructors and predicates of
    [d-engine-proto/src/exts/replication_ext.rs]. *)

From stdpp Require Import base tactics numbers option list gmap strings.
From S2P Require Import Prelude.

(** [bytes::Bytes]: a sequence of octets. *)
Abbreviation bytes := (list N).

Record LogId := mkLogId { lid_term : N; lid_index : N }.

(** The status of a node inside a [MembershipChange] ([NodeStatus] as [i32]). *)
Inductive Change :=
  | AddNode (node_id : N) (address : string) (status : N)
  | RemoveNode (node_id : N)
  | Promote (node_id : N) (status : N)
  | BatchPromote (node_ids : list N) (new_status : N)
  | BatchRemove (node_ids : list N).

Record MembershipChange := mkMembershipChange { mc_change : option Change }.

Inductive Payload :=
  | Noop
  | Command (data : bytes)
  | Config (c : MembershipChange).

Record EntryPayload := mkEntryPayload { ep_payload : option Payload }.

Record Entry := mkEntry {
  e_index : N;
  e_term : N;
  e_payload : option EntryPayload;
}.

#[global] Instance LogId_eq_dec : EqDecision LogId.
Proof. solve_decision. Defined.
#[global] Instance Change_eq_dec : EqDecision Change.
Proof. solve_decision. Defined.
#[global] Instance MembershipChange_eq_dec : EqDecision MembershipChange.
Proof. solve_decision. Defined.
#[global] Instance Payload_eq_dec : EqDecision Payload.
Proof. solve_decision. Defined.
#[global] Instance EntryPayload_eq_dec : EqDecision EntryPayload.
Proof. solve_decision. Defined.
#[global] Instance Entry_eq_dec : EqDecision Entry.
Proof. solve_decision. Defined.

(** The [LogId] of an entry, as the code writes it in several places. *)
Definition entry_log_id (e : Entry) : LogId := mkLogId (e_term e) (e_index e).

(** ** Replication messages *)

Record AppendEntriesRequest := mkAppendEntriesRequest {
  ar_term : N;
  ar_leader_id : N;
  ar_prev_log_index : N;
  ar_prev_log_term : N;
  ar_entries : list Entry;
  ar_leader_commit_index : N;
}.

Record SuccessResult := mkSuccessResult { last_match : option LogId }.

Record ConflictResult := mkConflictResult {
  conflict_term : option N;
  conflict_index : option N;
}.

Inductive append_result :=
  | Success (s : SuccessResult)
  | Conflict (c : ConflictResult)
  | HigherTermResult (term : N).

Record AppendEntriesResponse := mkAppendEntriesResponse {
  resp_node_id : N;
  resp_term : N;
  resp_result : option append_result;
}.

(** [AppendEntriesResponse::{success, conflict, higher_term}]. *)
Definition response_success (node_id term : N) (lm : option LogId) : AppendEntriesResponse :=
  mkAppendEntriesResponse node_id term (Some (Success (mkSuccessResult lm))).

Definition response_conflict (node_id term : N) (ct ci : option N) : AppendEntriesResponse :=
  mkAppendEntriesResponse node_id term (Some (Conflict (mkConflictResult ct ci))).

Definition response_higher_term (node_id term : N) : AppendEntriesResponse :=
  mkAppendEntriesResponse node_id term (Some (HigherTermResult term)).

Definition is_success (r : AppendEntriesResponse) : bool :=
  match resp_result r with Some (Success _) => true | _ => false end.

Definition is_conflict (r : AppendEntriesResponse) : bool :=
  match resp_result r with Some (Conflict _) => true | _ => false end.

Definition is_higher_term (r : AppendEntriesResponse) : bool :=
  match resp_result r with Some (HigherTermResult _) => true | _ => false end.

(** ** Election messages *)

Record VoteRequest := mkVoteRequest {
  vr_term : N;
  vr_candidate_id : N;
  vr_last_log_index : N;
  vr_last_log_term : N;
}.

Record VoteResponse := mkVoteResponse {
  vresp_term : N;
  vresp_vote_granted : bool;
  vresp_last_log_index : N;
  vresp_last_log_term : N;
}.

Record VotedFor := mkVotedFor {
  voted_for_id : N;
  voted_for_term : N;
  vf_committed : bool;
}.

#[global] Instance VotedFor_eq_dec : EqDecision VotedFor.
Proof. solve_decision. Defined.

(** ** Cluster metadata *)

(** [NodeRole] and [NodeStatus], with the [i32] codes of the wire format. *)
Inductive NodeRole := NR_Unspecified | NR_Follower | NR_Candidate | NR_Leader | NR_Learner.

Definition role_i32 (r : NodeRole) : N :=
  match r with
  | NR_Unspecified => 0 | NR_Follower => 1 | NR_Candidate => 2 | NR_Leader => 3 | NR_Learner => 4
  end.

Inductive NodeStatus := NS_Unspecified | NS_Promotable | NS_ReadOnly | NS_Active.

Definition status_i32 (s : NodeStatus) : N :=
  match s with NS_Unspecified => 0 | NS_Promotable => 1 | NS_ReadOnly => 2 | NS_Active => 3 end.

Record NodeMeta := mkNodeMeta {
  nm_id : N;
  nm_address : string;
  nm_role : N;
  nm_status : N;
}.

#[global] Instance NodeMeta_eq_dec : EqDecision NodeMeta.
Proof. solve_decision. Defined.

(** [EntryPayload::{noop, config, command}]. *)
Definition payload_noop : EntryPayload := mkEntryPayload (Some Noop).
Definition payload_config (c : Change) : EntryPayload :=
  mkEntryPayload (Some (Config (mkMembershipChange (Some c)))).
Definition payload_command (b : bytes) : EntryPayload := mkEntryPayload (Some (Command b)).
