(* ===== verification/Events.v ===== *)
(** * Events, commands and replies

    The messages that flow through the raft loop
    ([d-engine-core/src/event.rs], [d-engine-core/src/client/types.rs]): inbound RPCs
    and client commands with the channel that takes the reply, and the internal events
    the loop sends to itself. A reply channel is a number; what is sent on it is
    recorded by the component that sends. *)

From stdpp Require Import base tactics numbers option list gmap strings.
From S2P Require Import Prelude Types.

(** ** Client data *)

Inductive ReadConsistencyPolicy := LeaseRead | LinearizableRead | EventualConsistency.

Record ClientWriteRequest := mkClientWriteRequest {
  cw_client_id : N;
  cw_command : option bytes;
}.

Record ClientReadRequest := mkClientReadRequest {
  cr_client_id : N;
  cr_keys : list bytes;
  consistency_policy : option ReadConsistencyPolicy;
}.

Inductive ErrorCode :=
  | EC_Success
  | EC_ConnectionTimeout | EC_InvalidAddress | EC_LeaderChanged | EC_JoinError
  | EC_InvalidResponse | EC_VersionMismatch
  | EC_DiskFull | EC_DataCorruption | EC_StorageIoError | EC_StoragePermissionDenied | EC_KeyNotExist
  | EC_NotLeader | EC_StaleOperation | EC_InvalidRequest | EC_RateLimited | EC_ClusterUnavailable
  | EC_ProposeFailed | EC_TermOutdated | EC_RetryRequired
  | EC_WatchBufferOverflow
  | EC_General | EC_Uncategorized.

#[global] Instance ErrorCode_eq_dec : EqDecision ErrorCode.
Proof. solve_decision. Defined.

Record LeaderHint := mkLeaderHint { lh_leader_id : N; lh_address : string }.

Inductive ClientResponsePayload :=
  | WriteResult (succeeded : bool)
  | ReadResults (kvs : list (bytes * bytes))
  | ScanResults (kvs : list (bytes * bytes)) (revision : N).

Record ClientResponse := mkClientResponse {
  cresp_error : ErrorCode;
  cresp_leader_hint : option LeaderHint;
  cresp_retry_after_ms : option N;
  cresp_result : option ClientResponsePayload;
}.

Definition write_success : ClientResponse :=
  mkClientResponse EC_Success None None (Some (WriteResult true)).
Definition cas_failure : ClientResponse :=
  mkClientResponse EC_Success None None (Some (WriteResult false)).
Definition read_results (kvs : list (bytes * bytes)) : ClientResponse :=
  mkClientResponse EC_Success None None (Some (ReadResults kvs)).
Definition scan_results (kvs : list (bytes * bytes)) (rev : N) : ClientResponse :=
  mkClientResponse EC_Success None None (Some (ScanResults kvs rev)).
Definition client_error (e : ErrorCode) : ClientResponse := mkClientResponse e None None None.
Definition not_leader (hint : option LeaderHint) : ClientResponse :=
  mkClientResponse EC_NotLeader hint None None.

Definition is_write_success (r : ClientResponse) : bool :=
  bool_decide (cresp_error r = EC_Success)
  && match cresp_result r with Some (WriteResult true) => true | _ => false end.
Definition is_term_outdated (r : ClientResponse) : bool := bool_decide (cresp_error r = EC_TermOutdated).
Definition is_propose_failure (r : ClientResponse) : bool := bool_decide (cresp_error r = EC_ProposeFailed).

(** [tonic::Status]. *)
Inductive Status :=
  | Unavailable (msg : string)
  | Cancelled (msg : string)
  | FailedPrecondition (msg : string)
  | DeadlineExceeded (msg : string)
  | ResourceExhausted (msg : string)
  | InvalidArgument (msg : string)
  | PermissionDenied (msg : string)
  | NotFound (msg : string)
  | Internal (msg : string).

Inductive ClientCmd :=
  | Propose (req : ClientWriteRequest) (sender : N)
  | Read (req : ClientReadRequest) (sender : N)
  | Scan (prefix : bytes) (sender : N).

(** [ApplyResult]. *)
Record ApplyResult := mkApplyResult { apr_index : N; apr_succeeded : bool }.

(** ** Cluster and snapshot messages *)

(** [SnapshotApplyResult]: what installing a snapshot did. *)
Inductive SnapshotApplyResult :=
  | Applied (last_included : LogId)
  | IgnoredStale (current : LogId)
  | IgnoredDuplicate (current : LogId).

Record ClusterConfChangeRequest := mkClusterConfChangeRequest {
  ccr_id : N;
  ccr_term : N;
  ccr_version : N;
  ccr_change : option MembershipChange;
}.

Inductive ConfErrorCode :=
  | CE_Unspecified | CE_NotLeader | CE_VersionConflict | CE_TermOutdated | CE_InvalidChange
  | CE_InternalError.

Record ClusterConfUpdateResponse := mkClusterConfUpdateResponse {
  cur_id : N;
  cur_term : N;
  cur_version : N;
  cur_success : bool;
  cur_error_code : ConfErrorCode;
}.

Definition conf_success (id term version : N) : ClusterConfUpdateResponse :=
  mkClusterConfUpdateResponse id term version true CE_Unspecified.
Definition conf_higher_term (id term version : N) : ClusterConfUpdateResponse :=
  mkClusterConfUpdateResponse id term version false CE_TermOutdated.
Definition conf_not_leader (id term version : N) : ClusterConfUpdateResponse :=
  mkClusterConfUpdateResponse id term version false CE_NotLeader.
Definition conf_version_conflict (id term version : N) : ClusterConfUpdateResponse :=
  mkClusterConfUpdateResponse id term version false CE_VersionConflict.
Definition conf_internal_error (id term version : N) : ClusterConfUpdateResponse :=
  mkClusterConfUpdateResponse id term version false CE_InternalError.

Record ClusterMembership := mkClusterMembership {
  cms_version : N;
  cms_nodes : list NodeMeta;
  cms_current_leader_id : option N;
}.

Record JoinRequest := mkJoinRequest {
  jr_node_id : N;
  jr_node_role : N;
  jr_address : string;
  jr_status : N;
}.

Record SnapshotMetadata := mkSnapshotMetadata { last_included : option LogId; checksum : bytes }.

Record JoinResponse := mkJoinResponse {
  jresp_success : bool;
  jresp_config : option ClusterMembership;
  jresp_config_version : N;
  jresp_snapshot_metadata : option SnapshotMetadata;
  jresp_leader_id : N;
}.

Record LeaderDiscoveryResponse := mkLeaderDiscoveryResponse {
  ldr_leader_id : N;
  ldr_leader_address : string;
  ldr_term : N;
}.

Record SnapshotChunk := mkSnapshotChunk {
  sc_leader_term : N;
  sc_leader_id : N;
  sc_seq : N;
  sc_total_chunks : N;
  sc_chunk_checksum : bytes;
  sc_metadata : option SnapshotMetadata;
  sc_data : bytes;
}.

Record SnapshotResponse := mkSnapshotResponse {
  snr_term : N;
  snr_success : bool;
  snr_next_chunk : N;
}.

(** ** Events *)

Record NewCommitData := mkNewCommitData {
  new_commit_index : N;
  ncd_role : N;
  ncd_current_term : N;
}.

(** A snapshot stream is the list of chunks its receiver will yield. *)
Inductive InboundEvent :=
  | ReceiveVoteRequest (req : VoteRequest) (sender : N)
  | ClusterConf (sender : N)
  | ClusterConfUpdate (req : ClusterConfChangeRequest) (sender : N)
  | AppendEntries (req : AppendEntriesRequest) (senders : list N)
  | InstallSnapshotChunk (stream : list SnapshotChunk) (sender : N)
  | JoinCluster (req : JoinRequest) (sender : N)
  | DiscoverLeader (sender : N)
  | InboundFatalError (source error : string).

Inductive InternalEvent :=
  | BecomeFollower (leader_id : option N)
  | BecomeCandidate
  | BecomeLeader
  | BecomeLearner
  | NotifyNewCommitIndex (d : NewCommitData)
  | LeaderDiscovered (leader_id term : N)
  | ReprocessEvent (ev : InboundEvent)
  | LogFlushed (durable : N)
  | AppendResult (follower_id : N) (r : result AppendEntriesResponse)
  | SnapshotPushCompleted (peer_id : N) (success : bool) (term : N) (last_included_index : option N)
  | NoopCommitted (term : N)
  | ApplyCompleted (last_index : N) (results : list ApplyResult)
  | CreateSnapshotEvent
  | SnapshotCreated (r : result SnapshotMetadata)
  | StepDownSelfRemoved
  | MembershipApplied
  | PromoteReadyLearners
  | LogPurgeCompleted (id : LogId)
  | PeerStreamError (peer_id : N)
  | ZombieDetected (node_id : N)
  | FatalError (source : string).

(** What is sent on a reply channel. *)
Inductive Reply :=
  | RVote (r : VoteResponse)
  | RAppend (r : AppendEntriesResponse)
  | RConf (r : ClusterMembership)
  | RConfUpdate (r : ClusterConfUpdateResponse)
  | RJoin (r : JoinResponse)
  | RDiscover (r : LeaderDiscoveryResponse)
  | RSnapshot (r : SnapshotResponse)
  | RClient (r : ClientResponse)
  | RStatus (s : Status).
