(* ===== verification/TermSegments.v ===== *)
(** * The term segment index of the raft log

    [TermSegments] of [d-engine-core/src/storage/buffered_raft_log.rs]: the
    compact index that answers "which term is at index [i]" without touching the
    log. Atomics are read and written by one thread at a time here; the two
    fixed arrays are lists of [MAX_TERM_SEGMENTS] slots, and reading a slot
    outside them panics. *)

From stdpp Require Import base tactics numbers option list gmap.
From S2P Require Import Prelude Types.

Definition MAX_TERM_SEGMENTS : nat := 1024.

Record TermSegments := mkTermSegments {
  last_term : N;
  last_term_start : N;
  seg_count : nat;
  seg_starts : list N;
  seg_terms : list N;
}.

(** [TermSegments::new]. *)
Definition ts_new : TermSegments :=
  mkTermSegments 0 0 0 (replicate MAX_TERM_SEGMENTS 0) (replicate MAX_TERM_SEGMENTS 0).

(** [(0..count).rev().find_map(..)]: [None] is an out-of-bounds panic. *)
Fixpoint ts_scan (starts terms : list N) (index : N) (count : nat) : option (option N) :=
  match count with
  | O => Some None
  | S i =>
      let! start := starts !! i in
      if start <=? index then let! t := terms !! i in Some (Some t)
      else ts_scan starts terms index i
  end.

(** [TermSegments::get]. *)
Definition ts_get (ts : TermSegments) (index : N) : option (option N) :=
  if last_term ts =? 0 then Some None
  else if last_term_start ts <=? index then Some (Some (last_term ts))
  else ts_scan (seg_starts ts) (seg_terms ts) index (seg_count ts).

(** One iteration of the loop of [TermSegments::on_append]. *)
Definition ts_on_append1 (ts : TermSegments) (e : Entry) : TermSegments :=
  let lt := last_term ts in
  let ls := last_term_start ts in
  if e_term e =? lt then
    if e_index e <? ls
    then mkTermSegments lt (e_index e) (seg_count ts) (seg_starts ts) (seg_terms ts)
    else ts
  else if lt =? 0 then
    mkTermSegments (e_term e) (e_index e) (seg_count ts) (seg_starts ts) (seg_terms ts)
  else
    let i := seg_count ts in
    let '(starts, terms) :=
      if (i <? MAX_TERM_SEGMENTS)%nat
      then (<[i := ls]> (seg_starts ts), <[i := lt]> (seg_terms ts))
      else (seg_starts ts, seg_terms ts) in
    mkTermSegments (e_term e) (e_index e) (S i) starts terms.

(** [TermSegments::on_append]. *)
Definition ts_on_append (ts : TermSegments) (es : list Entry) : TermSegments :=
  foldl ts_on_append1 ts es.

(** [TermSegments::clear]. *)
Definition ts_clear (ts : TermSegments) : TermSegments :=
  mkTermSegments 0 0 0 (seg_starts ts) (seg_terms ts).

(** ** Lemmas *)

(** The arrays keep their length. *)
Definition ts_wf (ts : TermSegments) : Prop :=
  length (seg_starts ts) = MAX_TERM_SEGMENTS ∧ length (seg_terms ts) = MAX_TERM_SEGMENTS.

Lemma ts_wf_new : ts_wf ts_new.
Proof. split; apply length_replicate. Qed.

Lemma ts_wf_on_append1 ts e : ts_wf ts → ts_wf (ts_on_append1 ts e).
Proof.
  intros [H1 H2]. unfold ts_on_append1, ts_wf.
  repeat (case_match; simpl; simplify_eq; rewrite ?length_insert; try done).
Qed.

Lemma ts_wf_on_append ts es : ts_wf ts → ts_wf (ts_on_append ts es).
Proof.
  unfold ts_on_append. revert ts. induction es as [|e es IH]; intros ts H; [done|].
  simpl. by apply IH, ts_wf_on_append1.
Qed.

Lemma ts_wf_clear ts : ts_wf ts → ts_wf (ts_clear ts).
Proof. done. Qed.

#[export] Hint Resolve ts_wf_new ts_wf_on_append ts_wf_on_append1 ts_wf_clear : dengine.

(** Every append archives at most one segment. *)
Lemma ts_count_on_append ts es :
  (seg_count (ts_on_append ts es) <= seg_count ts + length es)%nat.
Proof.
  unfold ts_on_append. revert ts. induction es as [|e es IH]; intros ts; simpl; [lia|].
  etrans; [apply IH|]. unfold ts_on_append1.
  repeat (case_match; simpl; simplify_eq); lia.
Qed.

Lemma ts_count_mono ts es : (seg_count ts <= seg_count (ts_on_append ts es))%nat.
Proof.
  unfold ts_on_append. revert ts. induction es as [|e es IH]; intros ts; simpl; [lia|].
  etrans; [|apply IH]. unfold ts_on_append1.
  repeat (case_match; simpl; simplify_eq); lia.
Qed.

(** A write at or above [count] is invisible to the scan of the first [count] slots. *)
Lemma ts_scan_insert starts terms i s t index count :
  (count <= i)%nat →
  ts_scan (<[i:=s]> starts) (<[i:=t]> terms) index count = ts_scan starts terms index count.
Proof.
  induction count as [|c IH]; intros Hi; [done|]. simpl.
  rewrite !list_lookup_insert_ne by lia. rewrite IH by lia. done.
Qed.

(** Appending entry [e] over a log whose live indices are below [e_index e]
    keeps every answer below [e_index e] and answers [e_term e] at it, as long as
    the array still has a free slot. *)
Lemma ts_on_append1_get ts e j :
  ts_wf ts → e_term e ≠ 0 → (seg_count (ts_on_append1 ts e) <= MAX_TERM_SEGMENTS)%nat →
  (j < e_index e → last_term ts ≠ 0 → ts_get (ts_on_append1 ts e) j = ts_get ts j) ∧
  ts_get (ts_on_append1 ts e) (e_index e) = Some (Some (e_term e)).
Proof.
  intros [Hl1 Hl2] Ht Hcount. unfold ts_on_append1 in *.
  destruct (N.eqb_spec (e_term e) (last_term ts)) as [Heq|Hne].
  { destruct (N.ltb_spec (e_index e) (last_term_start ts)) as [Hlt|Hge]; unfold ts_get; simpl;
      split; intros; case_bool; simpl; congruence || lia. }
  destruct (N.eqb_spec (last_term ts) 0) as [H0|H0].
  { unfold ts_get; simpl. split; intros; case_bool; simpl; congruence || lia. }
  destruct (Nat.ltb_spec (seg_count ts) MAX_TERM_SEGMENTS) as [Hc|Hc]; simpl in Hcount; [|lia].
  unfold ts_get; simpl.
  rewrite !list_lookup_insert_eq by lia. rewrite ts_scan_insert by lia.
  split; intros; case_bool; simpl; congruence || lia.
Qed.

(** ** Agreement with a log

    The index is right about every entry of the map. Entries that were removed
    from the map (purged or truncated) are not constrained. *)
Definition ts_agrees (ts : TermSegments) (m : gmap N Entry) : Prop :=
  ∀ i e, m !! i = Some e → ts_get ts i = Some (Some (e_term e)).

Lemma ts_agrees_empty ts : ts_agrees ts ∅.
Proof. intros i e H. by rewrite lookup_empty in H. Qed.

Lemma ts_agrees_subseteq ts m m' : m' ⊆ m → ts_agrees ts m → ts_agrees ts m'.
Proof. intros Hsub Hm i e He. apply Hm. by eapply lookup_weaken. Qed.

Lemma ts_agrees_last_term ts m i e : ts_agrees ts m → m !! i = Some e → last_term ts ≠ 0.
Proof. intros Hm He H0. apply Hm in He. unfold ts_get in He. by rewrite H0 in He. Qed.

(** Inside the current segment every entry carries [last_term]. *)
Lemma ts_agrees_last_segment ts m i e :
  ts_agrees ts m → m !! i = Some e → last_term_start ts <= i → e_term e = last_term ts.
Proof.
  intros Hm He Hi. pose proof (ts_agrees_last_term _ _ _ _ Hm He).
  apply Hm in He. unfold ts_get in He. case_bool_in He; naive_solver lia.
Qed.

Lemma ts_agrees_append1 ts m e :
  ts_wf ts → e_term e ≠ 0 → (seg_count (ts_on_append1 ts e) <= MAX_TERM_SEGMENTS)%nat →
  (∀ i, is_Some (m !! i) → i < e_index e) →
  ts_agrees ts m → ts_agrees (ts_on_append1 ts e) (<[e_index e := e]> m).
Proof.
  intros Hwf Ht Hc Hbelow Hm i e' [[<- <-]|[Hne He']]%lookup_insert_Some.
  - by apply (ts_on_append1_get ts e 0).
  - rewrite (proj1 (ts_on_append1_get ts e i Hwf Ht Hc)); [by apply Hm|apply Hbelow; eauto|].
    by eapply ts_agrees_last_term.
Qed.

(** The map after inserting a batch, in order ([SkipMap::insert] per entry). *)
Definition insert_entries (m : gmap N Entry) (es : list Entry) : gmap N Entry :=
  foldl (λ m e, <[e_index e := e]> m) m es.

Lemma ts_agrees_append ts m es s :
  ts_wf ts → Forall (λ e, e_term e ≠ 0) es →
  (seg_count (ts_on_append ts es) <= MAX_TERM_SEGMENTS)%nat →
  contiguous e_index s es → (∀ i, is_Some (m !! i) → i < s) →
  ts_agrees ts m → ts_agrees (ts_on_append ts es) (insert_entries m es).
Proof.
  unfold insert_entries, ts_on_append.
  revert ts m s. induction es as [|e es IH]; intros ts m s Hwf Hts Hc Hcont Hbelow Hm; [done|].
  simpl in *. destruct Hcont as [<- Hcont]. inversion Hts; subst.
  apply (IH _ _ (e_index e + 1)); auto with dengine.
  - intros i [x [[<- _]|[_ Hi]]%lookup_insert_Some]; [lia|].
    enough (i < e_index e) by lia. apply Hbelow. eauto.
  - apply ts_agrees_append1; auto.
    etrans; [|exact Hc]. apply ts_count_mono.
Qed.


(** Entries of one term open at most one new segment. *)
Lemma ts_count_same_term ts es t :
  Forall (λ e, e_term e = t) es → (seg_count (ts_on_append ts es) <= S (seg_count ts))%nat.
Proof.
  assert (Hrun : ∀ es ts, Forall (λ e, e_term e = t) es → last_term ts = t →
    seg_count (ts_on_append ts es) = seg_count ts).
  { unfold ts_on_append. induction es0 as [|e es0 IH]; intros ts0 Hes Ht; [done|].
    apply Forall_cons in Hes as [He Hes]. simpl. rewrite IH; [|done|];
      unfold ts_on_append1; rewrite He, Ht, N.eqb_refl; by case_bool. }
  destruct es as [|e es]; intros Hes; [simpl; lia|]. apply Forall_cons in Hes as [He Hes].
  change (ts_on_append ts (e :: es)) with (ts_on_append (ts_on_append1 ts e) es).
  assert (last_term (ts_on_append1 ts e) = t ∧ (seg_count (ts_on_append1 ts e) <= S (seg_count ts))%nat)
    as [Hlt Hsc].
  { unfold ts_on_append1. rewrite He. destruct (N.eqb_spec t (last_term ts)) as [Ht|];
      [destruct (e_index e <? last_term_start ts)|destruct (last_term ts =? 0); [|case_match]];
      simpl; split; (done || lia). }
  by rewrite Hrun.
Qed.
