(* ===== verification/BufferedLog.v ===== *)
(** * The buffered raft log: state and operations

    [BufferedRaftLog] of [d-engine-core/src/storage/buffered_raft_log.rs]. The
    in-memory part ([LogMem]) holds the entries, the boundaries and the lookup
    accelerators; around it are the channel to the raft-io thread, the fsync
    coordinator and the poison flag. Operations run to completion one after the
    other (the raft loop is single threaded and awaits each of them); the reply
    an operation awaits from the raft-io thread is an argument of it. *)

From stdpp Require Import base tactics numbers option list sorting gmap strings.
From S2P Require Import Prelude Types Events TermSegments.

(** ** State *)

Record LogMem := mkLogMem {
  entries : gmap N Entry;
  durable_index : N;
  next_id : N;
  min_index : N;
  max_index : N;
  last_purged_index : N;
  last_purged_term : N;
  term_first_index : gmap N N;
  term_last_index : gmap N N;
  term_segments : TermSegments;
}.

Inductive IOTask :=
  | ReplaceRange (truncate_from : N) (new_entries : list Entry) (done : N)
  | Purge (cutoff : LogId) (done : N)
  | Reset_ (done : N)
  | Flush (reply : N)
  | Shutdown.

Record FsyncCoordinator := mkFsyncCoordinator {
  inflight : bool;
  pending_max : N;
  pending_replies : list N;
  generation : N;
}.

Record BufferedRaftLog := mkBufferedRaftLog {
  mem : LogMem;
  write_notify : bool;
  command_queue : list IOTask;
  io_open : bool;
  log_flush_tx : list InternalEvent;
  replies : list (N * result unit);
  fsync_coordinator : FsyncCoordinator;
  poisoned : bool;
}.

Definition set_mem (m : LogMem) (l : BufferedRaftLog) : BufferedRaftLog :=
  mkBufferedRaftLog m (write_notify l) (command_queue l) (io_open l) (log_flush_tx l)
    (replies l) (fsync_coordinator l) (poisoned l).

Definition set_coordinator (c : FsyncCoordinator) (l : BufferedRaftLog) : BufferedRaftLog :=
  mkBufferedRaftLog (mem l) (write_notify l) (command_queue l) (io_open l) (log_flush_tx l)
    (replies l) c (poisoned l).

Definition send_event (ev : InternalEvent) (l : BufferedRaftLog) : BufferedRaftLog :=
  mkBufferedRaftLog (mem l) (write_notify l) (command_queue l) (io_open l)
    (log_flush_tx l ++ [ev]) (replies l) (fsync_coordinator l) (poisoned l).

(** [let _ = reply.send(r)] on each sender of [ids]. *)
Definition send_replies (ids : list N) (r : result unit) (l : BufferedRaftLog) : BufferedRaftLog :=
  mkBufferedRaftLog (mem l) (write_notify l) (command_queue l) (io_open l) (log_flush_tx l)
    (replies l ++ map (λ id, (id, r)) ids) (fsync_coordinator l) (poisoned l).

(** [write_notify.notify_one()]. *)
Definition notify_one (l : BufferedRaftLog) : BufferedRaftLog :=
  mkBufferedRaftLog (mem l) true (command_queue l) (io_open l) (log_flush_tx l)
    (replies l) (fsync_coordinator l) (poisoned l).

(** [command_sender.send(task)]: fails once the receiver is gone. *)
Definition send_command (t : IOTask) (l : BufferedRaftLog) : option BufferedRaftLog :=
  if io_open l then
    Some (mkBufferedRaftLog (mem l) (write_notify l) (command_queue l ++ [t]) (io_open l)
            (log_flush_tx l) (replies l) (fsync_coordinator l) (poisoned l))
  else None.

(** ** Reads *)

Definition entry (m : LogMem) (index : N) : option Entry := entries m !! index.

Definition first_entry_id (m : LogMem) : N := min_index m.

Definition last_entry_id (m : LogMem) : N := max_index m.

Definition last_entry (m : LogMem) : option Entry :=
  let last_index := last_entry_id m in
  if 0 <? last_index then entry m last_index else None.

Definition last_log_id (m : LogMem) : option LogId :=
  let last_index := last_entry_id m in
  if 0 <? last_index then entry_log_id <$> entry m last_index
  else
    let purged_index := last_purged_index m in
    if 0 <? purged_index then Some (mkLogId (last_purged_term m) purged_index) else None.

(** [is_empty] of the [RaftLog] implementation. *)
Definition log_is_empty (m : LogMem) : bool := bool_decide (entries m = ∅).

(** [entry_term]: the outer [None] is the panic of [ts_get]. *)
Definition entry_term (m : LogMem) (entry_id : N) : option (option N) :=
  let max := max_index m in
  let min := min_index m in
  if (max =? 0) || (entry_id <? min) || (max <? entry_id) then
    let purged_index := last_purged_index m in
    if (0 <? purged_index) && (entry_id =? purged_index) then Some (Some (last_purged_term m))
    else Some None
  else
    let! r := ts_get (term_segments m) entry_id in
    match r with
    | Some t => Some (Some t)
    | None => Some (e_term <$> entries m !! entry_id)
    end.

Definition first_index_for_term (m : LogMem) (t : N) : option N := term_first_index m !! t.

Definition last_index_for_term (m : LogMem) (t : N) : option N := term_last_index m !! t.

(** [get_entries_range(lo..=hi)]. *)
Definition get_entries_range (m : LogMem) (lo hi : N) : list Entry :=
  (om_range lo hi (entries m)).*2.

(** ** Index allocation *)

Definition set_next_id (n : N) (m : LogMem) : LogMem :=
  mkLogMem (entries m) (durable_index m) n (min_index m) (max_index m) (last_purged_index m)
    (last_purged_term m) (term_first_index m) (term_last_index m) (term_segments m).

Definition pre_allocate_raft_logs_next_index (m : LogMem) : N * LogMem :=
  (next_id m, set_next_id (wrapping_add_u64 (next_id m) 1) m).

(** The allocated range [(start, end)] inclusive; [None] is the failed
    [assert!(cur <= u64::MAX - count)]. *)
Definition pre_allocate_id_range (m : LogMem) (count : N) : option ((N * N) * LogMem) :=
  if count =? 0 then Some ((u64_max, u64_max), m)
  else
    let cur := next_id m in
    if cur <=? u64_max - count
    then Some ((cur, cur + count - 1), set_next_id (wrapping_add_u64 cur count) m)
    else None.

(** ** Insertion *)

(** [update_term_indexes]: [get_or_insert(term, MAX)] then [fetch_min], and
    [get_or_insert(term, 0)] then [fetch_max]. *)
Definition update_term_first (tf : gmap N N) (e : Entry) : gmap N N :=
  <[e_term e := N.min (default u64_max (tf !! e_term e)) (e_index e)]> tf.

Definition update_term_last (tl : gmap N N) (e : Entry) : gmap N N :=
  <[e_term e := N.max (default 0 (tl !! e_term e)) (e_index e)]> tl.

Definition update_term_indexes (tf tl : gmap N N) (es : list Entry) : gmap N N * gmap N N :=
  (foldl update_term_first tf es, foldl update_term_last tl es).

(** [entries.iter().map(|e| e.index).max().unwrap_or(0)]. *)
Definition max_entry_index (es : list Entry) : N := foldr (λ e acc, N.max (e_index e) acc) 0 es.

Definition insert_to_memory (m : LogMem) (es : list Entry) : LogMem :=
  let '(tf, tl) := update_term_indexes (term_first_index m) (term_last_index m) es in
  let max_idx := max_entry_index es in
  let nid := if next_id m <=? max_idx then max_idx + 1 else next_id m in
  let mn := match head es with
            | Some f => if (e_index f <? min_index m) || (min_index m =? 0)
                        then e_index f else min_index m
            | None => min_index m
            end in
  let mx := match last es with
            | Some la => if max_index m <? e_index la then e_index la else max_index m
            | None => max_index m
            end in
  mkLogMem (insert_entries (entries m) es) (durable_index m) nid mn mx (last_purged_index m)
    (last_purged_term m) tf tl (ts_on_append (term_segments m) es).

Definition poisoned_error : error := Fatal "raft log storage is poisoned".

Definition append_entries (l : BufferedRaftLog) (es : list Entry) : BufferedRaftLog * result unit :=
  if poisoned l then (l, Err poisoned_error)
  else match es with
       | [] => (l, Ok tt)
       | _ => (notify_one (set_mem (insert_to_memory (mem l) es) l), Ok tt)
       end.

Definition insert_batch (l : BufferedRaftLog) (logs : list Entry) : BufferedRaftLog * result unit :=
  append_entries l logs.

(** ** Removal *)

(** The [affected_terms] map of [remove_range_locked]: least and greatest removed
    index per term, in removal order. *)
Definition note_removed (acc : gmap N (option N * option N)) (p : N * Entry)
    : gmap N (option N * option N) :=
  let key := p.1 in
  let t := e_term p.2 in
  let '(mn, mx) := default (None, None) (acc !! t) in
  let mn' := match mn with Some a => if key <? a then Some key else mn | None => Some key end in
  let mx' := match mx with Some a => if a <? key then Some key else mx | None => Some key end in
  <[t := (mn', mx')]> acc.

Definition affected_terms (removed : list (N * Entry)) : gmap N (option N * option N) :=
  foldl note_removed ∅ removed.

Definition remove_keys (m : gmap N Entry) (removed : list (N * Entry)) : gmap N Entry :=
  foldl (λ m p, delete p.1 m) m removed.

(** [entries.iter().find(|e| e.term == term)], and the same from the back. *)
Definition find_first_of_term (m : gmap N Entry) (t : N) : option N :=
  fst <$> head (filter (λ p, e_term p.2 = t) (om_iter m)).

Definition find_last_of_term (m : gmap N Entry) (t : N) : option N :=
  fst <$> last (filter (λ p, e_term p.2 = t) (om_iter m)).

(** The per-term repair of [term_first_index] and [term_last_index]. *)
Definition repair_first (m : gmap N Entry) (t : N) (r : option N * option N) (cur : option N)
    : option N :=
  match cur with
  | None => None
  | Some cur_first =>
      match r.1 with
      | Some rmin => if rmin <=? cur_first then find_first_of_term m t else cur
      | None => cur
      end
  end.

Definition repair_last (m : gmap N Entry) (t : N) (r : option N * option N) (cur : option N)
    : option N :=
  match cur with
  | None => None
  | Some cur_last =>
      match r.2 with
      | Some rmax => if cur_last <=? rmax then find_last_of_term m t else cur
      | None => cur
      end
  end.

Definition key_or_zero (o : option (N * Entry)) : N := default 0 (fst <$> o).

(** [remove_range_locked]: the state with entries and term indexes updated, and
    the new [(min, max)] for the caller to store. *)
Definition remove_range_locked (m : LogMem) (start end_ : N) : LogMem * (N * N) :=
  let removed := om_range start end_ (entries m) in
  let es := remove_keys (entries m) removed in
  let aff := affected_terms removed in
  (mkLogMem es (durable_index m) (next_id m) (min_index m) (max_index m) (last_purged_index m)
     (last_purged_term m)
     (fold_per_key (repair_first es) aff (term_first_index m))
     (fold_per_key (repair_last es) aff (term_last_index m))
     (term_segments m),
   (key_or_zero (om_front es), key_or_zero (om_back es))).

Definition set_bounds (mn mx : N) (m : LogMem) : LogMem :=
  mkLogMem (entries m) (durable_index m) (next_id m) mn mx (last_purged_index m)
    (last_purged_term m) (term_first_index m) (term_last_index m) (term_segments m).

Definition set_purged (lid : LogId) (m : LogMem) : LogMem :=
  mkLogMem (entries m) (durable_index m) (next_id m) (min_index m) (max_index m) (lid_index lid)
    (lid_term lid) (term_first_index m) (term_last_index m) (term_segments m).

Definition remove_range (m : LogMem) (start end_ : N) : LogMem :=
  let '(m', (mn, mx)) := remove_range_locked m start end_ in set_bounds mn mx m'.

Definition purge_prefix (m : LogMem) (cutoff : LogId) : LogMem :=
  let '(m', (mn, mx)) := remove_range_locked m 0 (lid_index cutoff) in
  set_purged cutoff (set_bounds mn mx m').

(** ** Durability watermark *)

Definition set_durable (d : N) (m : LogMem) : LogMem :=
  mkLogMem (entries m) d (next_id m) (min_index m) (max_index m) (last_purged_index m)
    (last_purged_term m) (term_first_index m) (term_last_index m) (term_segments m).

Definition advance_durable_and_notify (l : BufferedRaftLog) (new_durable : N) : BufferedRaftLog :=
  let prev := durable_index (mem l) in
  let l' := set_mem (set_durable (N.max prev new_durable) (mem l)) l in
  if prev <? new_durable then send_event (LogFlushed new_durable) l' else l'.

Definition mark_poisoned_and_notify (l : BufferedRaftLog) : BufferedRaftLog :=
  send_event (FatalError "RaftLog")
    (mkBufferedRaftLog (mem l) (write_notify l) (command_queue l) (io_open l) (log_flush_tx l)
       (replies l) (fsync_coordinator l) true).

(** ** Reset *)

Definition stale_generation_error : error :=
  Fatal "stale fsync generation, superseded by reset".

(** [FsyncCoordinator::fence_reset]. *)
Definition fence_reset (l : BufferedRaftLog) : BufferedRaftLog :=
  let c := fsync_coordinator l in
  send_replies (pending_replies c) (Err stale_generation_error)
    (set_coordinator
       (mkFsyncCoordinator (inflight c) 0 [] (wrapping_add_u64 (generation c) 1)) l).

(** The stores of [reset_internal] to the in-memory state. *)
Definition reset_mem (m : LogMem) : LogMem :=
  mkLogMem ∅ 0 1 0 0 (last_purged_index m) (last_purged_term m) ∅ ∅ (ts_clear (term_segments m)).

(** What [done_rx.await] gives: [None] when the sender was dropped. *)
Definition await_done (reply : option (result unit)) (closed : error) : result unit :=
  match reply with
  | None => Err closed
  | Some r => r
  end.

Definition reset_internal (l : BufferedRaftLog) (done : N) (reply : option (result unit))
    : BufferedRaftLog * result unit :=
  let l1 := fence_reset l in
  let l2 := set_mem (reset_mem (mem l1)) l1 in
  match send_command (Reset_ done) l2 with
  | None => (l2, Err (Fatal "IOTask::Reset send failed"))
  | Some l3 => (l3, await_done reply (Fatal "IOTask::Reset recv failed"))
  end.

(** ** Conflict resolution *)

(** [new_entries.partition_point(|e| e.index <= last)] of an index-sorted batch. *)
Fixpoint partition_point (last : N) (es : list Entry) : nat :=
  match es with
  | [] => 0
  | e :: es' => if e_index e <=? last then S (partition_point last es') else 0
  end.

(** [overlap_safe]. *)
Definition overlap_safe (ts : TermSegments) (overlap : list Entry) : bool :=
  match overlap with
  | [] => true
  | first :: _ =>
      (last_term_start ts <=? e_index first) && (e_term first =? last_term ts)
      && match last overlap with Some la => e_term la =? last_term ts | None => true end
  end.

(** [new_entries.iter().position(|e| e.index > last || entry_term(e.index) != Some(e.term))]. *)
Fixpoint diverge_pos (m : LogMem) (last : N) (es : list Entry) : option (option nat) :=
  match es with
  | [] => Some None
  | e :: es' =>
      if last <? e_index e then Some (Some 0%nat)
      else
        let! t := entry_term m (e_index e) in
        if bool_decide (t = Some (e_term e))
        then let! p := diverge_pos m last es' in Some (S <$> p)
        else Some (Some 0%nat)
  end.

Definition last_id_of (es : list Entry) : option LogId := entry_log_id <$> last es.

(** The conflict branch: truncate, insert the tail, and hand both to the IO thread. *)
Definition replace_tail (l : BufferedRaftLog) (diverge_index : N) (tail : list Entry)
    (done : N) (reply : option (result unit)) : BufferedRaftLog * result unit :=
  let m1 := remove_range (mem l) diverge_index u64_max in
  let l1 := set_mem (insert_to_memory m1 tail) l in
  match send_command (ReplaceRange diverge_index tail done) l1 with
  | None => (l1, Err (SingalSendFailed "Failed to send ReplaceRange"))
  | Some l2 => (l2, await_done reply (SingalSendFailed "ReplaceRange done channel closed"))
  end.

Definition and_then_id (r : BufferedRaftLog * result unit) (id : option LogId)
    : BufferedRaftLog * result (option LogId) :=
  (r.1, match r.2 with Ok _ => Ok id | Err e => Err e end).

(** [filter_out_conflicts_and_append]; the outer [None] is a panic. *)
Definition filter_out_conflicts_and_append (l : BufferedRaftLog) (prev_log_index prev_log_term : N)
    (new_entries : list Entry) (done : N) (reply : option (result unit))
    : option (BufferedRaftLog * result (option LogId)) :=
  if (prev_log_index =? 0) && (prev_log_term =? 0) then
    match reset_internal l done reply with
    | (l1, Err e) => Some (l1, Err e)
    | (l1, Ok _) => Some (and_then_id (append_entries l1 new_entries) (last_id_of new_entries))
    end
  else
    let! t := entry_term (mem l) prev_log_index in
    if negb (bool_decide (t = Some prev_log_term)) then Some (l, Ok (last_log_id (mem l)))
    else
      let last_current_index := last_entry_id (mem l) in
      let skip := partition_point last_current_index new_entries in
      let overlap := take skip new_entries in
      let tail := drop skip new_entries in
      if overlap_safe (term_segments (mem l)) overlap then
        match tail with
        | [] => Some (l, Ok (last_id_of new_entries))
        | _ => Some (and_then_id (append_entries l tail) (last_id_of tail))
        end
      else
        let! pos := diverge_pos (mem l) last_current_index new_entries in
        match pos with
        | None => Some (l, Ok (last_id_of new_entries))
        | Some p =>
            let tail := drop p new_entries in
            match tail with
            | [] => None
            | d :: _ =>
                if e_index d <=? last_current_index
                then Some (and_then_id (replace_tail l (e_index d) tail done reply) (last_id_of tail))
                else Some (and_then_id (append_entries l tail) (last_id_of tail))
            end
        end.

(** ** Commit calculation *)

(** [sort_unstable_by(|a, b| b.cmp(a))]. *)
Definition sort_desc (l : list N) : list N := merge_sort (flip N.le) l.

(** The outer [None] is the out-of-bounds index (never taken: the list holds at
    least the leader's own index). *)
Definition calculate_majority_matched_index (m : LogMem) (current_term commit_index : N)
    (peer_matched_ids : list N) : option (option N) :=
  let ids := sort_desc (peer_matched_ids ++ [last_entry_id m]) in
  let! majority_index := ids !! Nat.div (length ids) 2 in
  if majority_index <? commit_index then Some None
  else match entry m majority_index with
       | Some e => if e_term e =? current_term then Some (Some majority_index) else Some None
       | None => Some None
       end.

(** ** Purge and flush *)

Definition purge_logs_up_to (l : BufferedRaftLog) (cutoff : LogId) (done : N)
    (reply : option unit) : BufferedRaftLog * result unit :=
  let l1 := set_mem (purge_prefix (mem l) cutoff) l in
  let l2 := advance_durable_and_notify l1 (lid_index cutoff) in
  match send_command (Purge cutoff done) l2 with
  | None => (l2, Err (SingalSendFailed "Failed to send Purge"))
  | Some l3 =>
      (l3, match reply with Some _ => Ok tt | None => Err (SingalSendFailed "Purge channel closed") end)
  end.

Definition flush (l : BufferedRaftLog) (tx : N) (reply : option (result unit))
    : BufferedRaftLog * result unit :=
  if max_index (mem l) =? 0 then (l, Ok tt)
  else if max_index (mem l) <=? durable_index (mem l) then (l, Ok tt)
  else match send_command (Flush tx) l with
       | None => (l, Err (SingalSendFailed "flush send failed"))
       | Some l1 => (l1, await_done reply (SingalSendFailed "flush channel closed"))
       end.

(** ** Recovery *)

(** [BufferedRaftLog::new] from what the log store reports: its last index, the
    entries of [1..=last_index] ([None] for a read error) and the purge boundary
    ([None] for a read error). *)
Definition new_mem (disk_len : N) (loaded : option (list Entry))
    (boundary : option (option LogId)) : LogMem :=
  let all_entries := if 0 <? disk_len then default [] loaded else [] in
  let '(tf, tl) := update_term_indexes ∅ ∅ all_entries in
  let es := insert_entries ∅ all_entries in
  let '(pi, pt) := match boundary with
                   | Some (Some lid) => (lid_index lid, lid_term lid)
                   | _ => (0, 0)
                   end in
  mkLogMem es disk_len (disk_len + 1) (key_or_zero (om_front es)) (key_or_zero (om_back es))
    pi pt tf tl (ts_on_append ts_new all_entries).

Definition log_new (disk_len : N) (loaded : option (list Entry))
    (boundary : option (option LogId)) : BufferedRaftLog :=
  mkBufferedRaftLog (new_mem disk_len loaded boundary) false [] true [] []
    (mkFsyncCoordinator false 0 [] 0) false.
