(* ===== verification/LogInv.v ===== *)
(** * The buffered raft log: invariant

    The well-formedness invariant [log_inv] of [LogMem] and its preservation by
    every operation that changes the in-memory log: entries occupy exactly the
    indices [min_index..=max_index], each under its own index; the two per-term
    indexes give the first and last live index of each term; the term segments
    agree with the entries while the segment array has room. *)

From stdpp Require Import base tactics numbers option list sorting gmap.
From S2P Require Import Prelude Types TermSegments BufferedLog.

(** ** Batches of consecutive entries *)

Lemma lookup_insert_entries m es s i :
  contiguous e_index s es →
  insert_entries m es !! i =
    if decide (s <= i ∧ i < s + N.of_nat (length es))
    then es !! N.to_nat (i - s) else m !! i.
Proof.
  unfold insert_entries. revert m s. induction es as [|e es IH]; intros m s Hc; simpl.
  - case_decide; [lia|done].
  - destruct Hc as [<- Hc]. rewrite (IH _ _ Hc). clear IH.
    repeat case_decide; try lia.
    + replace (N.to_nat (i - e_index e)) with (S (N.to_nat (i - (e_index e + 1)))) by lia. done.
    + assert (i = e_index e) as -> by lia. rewrite lookup_insert_eq.
      by replace (N.to_nat (e_index e - e_index e)) with 0%nat by lia.
    + apply lookup_insert_ne. lia.
Qed.

Lemma insert_entries_is_Some m es s i :
  contiguous e_index s es →
  is_Some (insert_entries m es !! i) ↔
    is_Some (m !! i) ∨ s <= i < s + N.of_nat (length es).
Proof.
  intros Hc. rewrite (lookup_insert_entries _ _ _ _ Hc). case_decide as Hi.
  - rewrite lookup_lt_is_Some. split; [lia|]. intros _. lia.
  - naive_solver lia.
Qed.

Lemma insert_entries_app m es1 es2 :
  insert_entries m (es1 ++ es2) = insert_entries (insert_entries m es1) es2.
Proof. apply foldl_app. Qed.

Lemma max_entry_index_contiguous es s :
  contiguous e_index s es → es ≠ [] → max_entry_index es + 1 = s + N.of_nat (length es).
Proof.
  unfold max_entry_index. revert s. induction es as [|e es IH]; intros s Hc Hne; [done|].
  destruct Hc as [<- Hc]. destruct es as [|e' es]; simpl in *; [lia|].
  specialize (IH _ Hc ltac:(done)). lia.
Qed.

(** ** First and last index of a term *)

Definition is_first_of_term (m : gmap N Entry) (t i : N) : Prop :=
  (∃ e, m !! i = Some e ∧ e_term e = t) ∧ ∀ j e, m !! j = Some e → e_term e = t → i <= j.

Definition is_last_of_term (m : gmap N Entry) (t i : N) : Prop :=
  (∃ e, m !! i = Some e ∧ e_term e = t) ∧ ∀ j e, m !! j = Some e → e_term e = t → j <= i.

Definition no_entry_of_term (m : gmap N Entry) (t : N) : Prop :=
  ∀ j e, m !! j = Some e → e_term e ≠ t.

Lemma filter_om_iter (P : N * Entry → Prop) `{!∀ x, Decision (P x)} (m : gmap N Entry) :
  filter P (om_iter m) = om_iter (filter P m).
Proof.
  symmetry. apply om_iter_unique; [apply StronglySorted_filter, om_iter_sorted|].
  intros k v. rewrite list_elem_of_filter, elem_of_om_iter, map_lookup_filter_Some. tauto.
Qed.

Lemma find_first_of_term_Some m t i :
  find_first_of_term m t = Some i ↔ is_first_of_term m t i.
Proof.
  unfold find_first_of_term. rewrite filter_om_iter.
  fold (om_front (filter (λ p, e_term p.2 = t) m)). rewrite fmap_Some. split.
  - intros ([k e] & [[Hm Ht]%map_lookup_filter_Some Hmin]%om_front_Some & ->). split; [by exists e|].
    intros j e' Hj Ht'. apply Hmin. exists e'. by apply map_lookup_filter_Some.
  - intros [(e & He & Ht) Hmin]. exists (i, e). split; [|done]. apply om_front_Some.
    split; [by apply map_lookup_filter_Some|].
    intros j [e' [Hj Ht']%map_lookup_filter_Some]. by eapply Hmin.
Qed.

Lemma find_last_of_term_Some m t i :
  find_last_of_term m t = Some i ↔ is_last_of_term m t i.
Proof.
  unfold find_last_of_term. rewrite filter_om_iter.
  fold (om_back (filter (λ p, e_term p.2 = t) m)). rewrite fmap_Some. split.
  - intros ([k e] & [[Hm Ht]%map_lookup_filter_Some Hmin]%om_back_Some & ->). split; [by exists e|].
    intros j e' Hj Ht'. apply Hmin. exists e'. by apply map_lookup_filter_Some.
  - intros [(e & He & Ht) Hmin]. exists (i, e). split; [|done]. apply om_back_Some.
    split; [by apply map_lookup_filter_Some|].
    intros j [e' [Hj Ht']%map_lookup_filter_Some]. by eapply Hmin.
Qed.

Lemma filter_term_empty m t :
  filter (λ p : N * Entry, e_term p.2 = t) m = ∅ ↔ no_entry_of_term m t.
Proof.
  rewrite map_empty. split.
  - intros H j e Hj Ht. specialize (H j). apply map_lookup_filter_None in H. naive_solver.
  - intros H j. apply map_lookup_filter_None. right. intros e Hj. by eapply H.
Qed.

Lemma find_first_of_term_None m t : find_first_of_term m t = None ↔ no_entry_of_term m t.
Proof.
  unfold find_first_of_term. rewrite filter_om_iter, fmap_None.
  change (om_front (filter (λ p, e_term p.2 = t) m) = None ↔ no_entry_of_term m t).
  rewrite om_front_None. apply filter_term_empty.
Qed.

Lemma find_last_of_term_None m t : find_last_of_term m t = None ↔ no_entry_of_term m t.
Proof.
  unfold find_last_of_term. rewrite filter_om_iter, fmap_None.
  change (om_back (filter (λ p, e_term p.2 = t) m) = None ↔ no_entry_of_term m t).
  rewrite om_back_None. apply filter_term_empty.
Qed.

Lemma is_first_of_term_insert m e i :
  (∀ j, is_Some (m !! j) → j < e_index e) → is_first_of_term m (e_term e) i →
  is_first_of_term (<[e_index e:=e]> m) (e_term e) i.
Proof.
  intros Hb [(e0 & He0 & Ht0) Hmin]. assert (i < e_index e) by (apply Hb; eauto). split.
  - exists e0. rewrite lookup_insert_ne by lia. done.
  - intros j e' [[<- <-]|[? Hj]]%lookup_insert_Some Ht; [lia|]. by eapply Hmin.
Qed.

(** Two maps that agree on the entries of term [t]. *)
Definition agree_on_term (t : N) (m m' : gmap N Entry) : Prop :=
  ∀ j e, e_term e = t → m' !! j = Some e ↔ m !! j = Some e.

Lemma is_first_of_term_agree m m' t i :
  agree_on_term t m m' → is_first_of_term m' t i ↔ is_first_of_term m t i.
Proof.
  intros Hl. split; intros [(e0 & He0 & Ht0) Hmin];
    (split; [exists e0; split; [by apply Hl|done]|]);
    intros j e' Hj Ht; eapply Hmin; (done || by apply Hl).
Qed.

Lemma is_last_of_term_agree m m' t i :
  agree_on_term t m m' → is_last_of_term m' t i ↔ is_last_of_term m t i.
Proof.
  intros Hl. split; intros [(e0 & He0 & Ht0) Hmin];
    (split; [exists e0; split; [by apply Hl|done]|]);
    intros j e' Hj Ht; eapply Hmin; (done || by apply Hl).
Qed.

Lemma agree_on_term_insert m e t :
  (∀ j, is_Some (m !! j) → j < e_index e) → t ≠ e_term e →
  agree_on_term t m (<[e_index e:=e]> m).
Proof.
  intros Hb Hne j e' Ht. rewrite lookup_insert_Some. split; [naive_solver|]. intros Hj. right.
  split; [|done]. enough (j < e_index e) by lia. apply Hb. eauto.
Qed.

Lemma option_eq_iff {A} (x y : option A) : (∀ a, x = Some a ↔ y = Some a) → x = y.
Proof.
  intros H. destruct x as [a|]; [symmetry; by apply H|].
  destruct y as [b|]; [|done]. by apply H.
Qed.

Lemma find_first_of_term_agree m m' t :
  agree_on_term t m m' → find_first_of_term m t = find_first_of_term m' t.
Proof.
  intros H. apply option_eq_iff. intros i.
  by rewrite !find_first_of_term_Some, (is_first_of_term_agree m m').
Qed.

Lemma find_last_of_term_agree m m' t :
  agree_on_term t m m' → find_last_of_term m t = find_last_of_term m' t.
Proof.
  intros H. apply option_eq_iff. intros i.
  by rewrite !find_last_of_term_Some, (is_last_of_term_agree m m').
Qed.

(** The index maps report exactly what a scan of the log would. *)
Definition term_index_ok (tf tl : gmap N N) (m : gmap N Entry) : Prop :=
  (∀ t, tf !! t = find_first_of_term m t) ∧ (∀ t, tl !! t = find_last_of_term m t).

Lemma update_term_indexes_ok tf tl m e :
  e_index e <= u64_max → (∀ i, is_Some (m !! i) → i < e_index e) →
  term_index_ok tf tl m →
  term_index_ok (update_term_first tf e) (update_term_last tl e) (<[e_index e:=e]> m).
Proof.
  intros Hmax Hb [Hf Hl]. unfold update_term_first, update_term_last. split; intros t;
    (destruct (decide (t = e_term e)) as [->|Hne];
     [rewrite lookup_insert_eq; symmetry|rewrite lookup_insert_ne by done]).
  - apply find_first_of_term_Some. rewrite Hf.
    destruct (find_first_of_term m (e_term e)) as [f|] eqn:Ef; simpl.
    + apply find_first_of_term_Some in Ef. pose proof Ef as [(e0 & He0 & _) _].
      assert (f < e_index e) by (apply Hb; eauto). rewrite N.min_l by lia.
      by apply is_first_of_term_insert.
    + apply find_first_of_term_None in Ef. rewrite N.min_r by done.
      split; [exists e; by rewrite lookup_insert_eq|].
      intros j e' [[<- <-]|[? Hj]]%lookup_insert_Some Ht; [lia|]. by apply Ef in Hj.
  - rewrite Hf. by apply find_first_of_term_agree, agree_on_term_insert.
  - apply find_last_of_term_Some.
    assert (default 0 (tl !! e_term e) <= e_index e).
    { rewrite Hl. destruct (find_last_of_term m (e_term e)) as [f|] eqn:Ef; simpl; [|lia].
      apply find_last_of_term_Some in Ef as [(e0 & He0 & _) _].
      enough (f < e_index e) by lia. apply Hb; eauto. }
    rewrite N.max_r by done. split; [exists e; by rewrite lookup_insert_eq|].
    intros j e' [[<- <-]|[? Hj]]%lookup_insert_Some Ht; [lia|].
    enough (j < e_index e) by lia. apply Hb; eauto.
  - rewrite Hl. by apply find_last_of_term_agree, agree_on_term_insert.
Qed.

Lemma update_term_indexes_batch tf tl m es s :
  contiguous e_index s es → s + N.of_nat (length es) <= u64_max + 1 →
  (∀ i, is_Some (m !! i) → i < s) → term_index_ok tf tl m →
  term_index_ok (update_term_indexes tf tl es).1 (update_term_indexes tf tl es).2
    (insert_entries m es).
Proof.
  unfold update_term_indexes, insert_entries. simpl. revert tf tl m s.
  induction es as [|e es IH]; intros tf tl m s Hc Hmax Hb Hok; [done|]. simpl in *.
  destruct Hc as [<- Hc]. apply (IH _ _ _ (e_index e + 1)); [done|lia| |].
  - intros i [x [[<- _]|[_ Hi]]%lookup_insert_Some]; [lia|].
    enough (i < e_index e) by lia. apply Hb. eauto.
  - apply update_term_indexes_ok; [lia|done|done].
Qed.

(** ** Removing a range *)

Lemma lookup_remove_keys m l i :
  remove_keys m l !! i = if decide (i ∈ l.*1) then None else m !! i.
Proof.
  unfold remove_keys. revert m. induction l as [|[k e] l IH]; intros m; [done|].
  - cbn [foldl fmap list_fmap fst]. rewrite IH. destruct (decide (i = k)) as [->|Hne].
    + rewrite lookup_delete_eq. destruct (decide (k ∈ l.*1)), (decide (k ∈ k :: l.*1)); set_solver.
    + rewrite lookup_delete_ne by done.
      destruct (decide (i ∈ l.*1)), (decide (i ∈ k :: l.*1)); set_solver.
Qed.

Lemma lookup_remove_range m start end_ i :
  remove_keys m (om_range start end_ m) !! i =
    if decide (start <= i ∧ i <= end_) then None else m !! i.
Proof.
  rewrite lookup_remove_keys.
  destruct (m !! i) as [e|] eqn:E; [|by repeat case_decide].
  assert (i ∈ (om_range start end_ m).*1 ↔ start <= i ∧ i <= end_).
  { rewrite list_elem_of_fmap. split.
    - intros ([k e'] & -> & H%elem_of_om_range). simpl. tauto.
    - intros [? ?]. exists (i, e). split; [done|]. by apply elem_of_om_range. }
  by repeat case_decide; try tauto.
Qed.

(** What [affected_terms] records about a list of removed entries. *)
Definition affected_ok (l : list (N * Entry)) (t : N) (o : option (option N * option N)) : Prop :=
  match o with
  | None => ∀ p, p ∈ l → e_term p.2 ≠ t
  | Some (Some a, Some b) =>
      (∃ p, p ∈ l ∧ e_term p.2 = t ∧ p.1 = a) ∧ (∃ p, p ∈ l ∧ e_term p.2 = t ∧ p.1 = b) ∧
      ∀ p, p ∈ l → e_term p.2 = t → a <= p.1 ∧ p.1 <= b
  | _ => False
  end.

#[local] Ltac pick q :=
  exists q; (split; [apply elem_of_app; first [by left | right; by apply list_elem_of_singleton]|done]).

Lemma affected_terms_ok l t : affected_ok l t (affected_terms l !! t).
Proof.
  unfold affected_terms. induction l as [|p l IH] using rev_ind.
  { simpl. rewrite lookup_empty. intros p Hp. by apply not_elem_of_nil in Hp. }
  rewrite foldl_app. simpl. set (acc := foldl note_removed ∅ l) in *. unfold note_removed.
  destruct (decide (e_term p.2 = t)) as [<-|Hne].
  - destruct (acc !! e_term p.2) as [[[a|] [b|]]|] eqn:E; simpl in *; try done; rewrite lookup_insert_eq.
    + destruct IH as ((pa & Hpa & Hta & <-) & (pb & Hpb & Htb & <-) & Hall). unfold affected_ok.
      assert (Hall' : ∀ q, q ∈ l ++ [p] → e_term q.2 = e_term p.2 →
        N.min p.1 pa.1 <= q.1 ∧ q.1 <= N.max p.1 pb.1).
      { intros q [Hq| ->%list_elem_of_singleton]%elem_of_app Ht; [specialize (Hall q Hq Ht)|]; lia. }
      destruct (N.ltb_spec p.1 pa.1), (N.ltb_spec pb.1 p.1); (split; [|split]);
        try (intros q Hq Ht; specialize (Hall' q Hq Ht); lia);
        first [pick p | pick pa | pick pb].
    + unfold affected_ok. split; [pick p|]. split; [pick p|].
      intros q [Hq| ->%list_elem_of_singleton]%elem_of_app Ht; [by apply IH in Hq|lia].
  - destruct (default (None, None) (acc !! e_term p.2)) as [mn mx].
    rewrite lookup_insert_ne by done. destruct (acc !! t) as [[[a|] [b|]]|]; simpl in *; try done.
    + destruct IH as ((pa & ? & ?) & (pb & ? & ?) & Hall). split; [pick pa|]. split; [pick pb|].
      intros q [Hq| ->%list_elem_of_singleton]%elem_of_app Ht; [by apply Hall|done].
    + intros q [Hq| ->%list_elem_of_singleton]%elem_of_app; [by apply IH|done].
Qed.

Section removal.
Context (m : gmap N Entry) (start end_ : N).
Let removed := om_range start end_ m.
Let es := remove_keys m removed.

Lemma remove_survives i e : es !! i = Some e ↔ m !! i = Some e ∧ ¬ (start <= i ∧ i <= end_).
Proof. unfold es, removed. rewrite lookup_remove_range. case_decide; naive_solver. Qed.

Lemma remove_elem_removed i e : (i, e) ∈ removed ↔ m !! i = Some e ∧ start <= i ∧ i <= end_.
Proof. unfold removed. rewrite elem_of_om_range. tauto. Qed.

Lemma remove_agree t : (∀ p, p ∈ removed → e_term p.2 ≠ t) → agree_on_term t m es.
Proof.
  intros Ha j e Ht. rewrite remove_survives. split; [tauto|]. intros Hj. split; [done|].
  intros Hr. apply (Ha (j, e)); [|done]. by apply remove_elem_removed.
Qed.

Lemma repair_first_ok t a b :
  affected_ok removed t (Some (a, b)) →
  repair_first es t (a, b) (find_first_of_term m t) = find_first_of_term es t.
Proof.
  destruct a as [a|], b as [b|]; try done.
  intros (([k e] & [Hk _]%remove_elem_removed & Hte & _) & _ & Hall). simpl in *.
  destruct (find_first_of_term m t) as [f|] eqn:Ef; simpl.
  - destruct (N.leb_spec a f) as [|Hlt]; [done|]. symmetry. apply find_first_of_term_Some.
    apply find_first_of_term_Some in Ef as [(e' & He & Ht) Hmin]. split.
    + exists e'. split; [|done]. apply remove_survives. split; [done|]. intros Hr.
      assert (a <= f); [|lia]. apply (Hall (f, e')); [|done]. by apply remove_elem_removed.
    + intros j e'' [Hj _]%remove_survives. by apply Hmin.
  - apply find_first_of_term_None in Ef. by apply Ef in Hk.
Qed.

Lemma repair_last_ok t a b :
  affected_ok removed t (Some (a, b)) →
  repair_last es t (a, b) (find_last_of_term m t) = find_last_of_term es t.
Proof.
  destruct a as [a|], b as [b|]; try done.
  intros (([k e] & [Hk _]%remove_elem_removed & Hte & _) & _ & Hall). simpl in *.
  destruct (find_last_of_term m t) as [f|] eqn:Ef; simpl.
  - destruct (N.leb_spec f b) as [|Hlt]; [done|]. symmetry. apply find_last_of_term_Some.
    apply find_last_of_term_Some in Ef as [(e' & He & Ht) Hmax]. split.
    + exists e'. split; [|done]. apply remove_survives. split; [done|]. intros Hr.
      assert (f <= b); [|lia]. apply (Hall (f, e')); [|done]. by apply remove_elem_removed.
    + intros j e'' [Hj _]%remove_survives. by apply Hmax.
  - apply find_last_of_term_None in Ef. by apply Ef in Hk.
Qed.

Lemma remove_term_index_ok tf tl :
  term_index_ok tf tl m →
  term_index_ok (fold_per_key (repair_first es) (affected_terms removed) tf)
    (fold_per_key (repair_last es) (affected_terms removed) tl) es.
Proof.
  intros [Hf Hl]. split; intros t; rewrite lookup_fold_per_key, ?Hf, ?Hl;
    pose proof (affected_terms_ok removed t) as Ha;
    destruct (affected_terms removed !! t) as [[a b]|];
    eauto using repair_first_ok, repair_last_ok,
      find_first_of_term_agree, find_last_of_term_agree, remove_agree.
Qed.
End removal.

(** ** The invariant *)

Record log_inv (m : LogMem) : Prop := mk_log_inv {
  inv_dom : ∀ i, is_Some (entries m !! i) ↔
    0 < min_index m ∧ min_index m <= i ∧ i <= max_index m;
  inv_order : min_index m <= max_index m;
  inv_zero : min_index m = 0 → max_index m = 0;
  inv_entry : ∀ i e, entries m !! i = Some e → e_index e = i ∧ e_term e ≠ 0;
  inv_terms : term_index_ok (term_first_index m) (term_last_index m) (entries m);
  inv_ts_wf : ts_wf (term_segments m);
  inv_ts : (seg_count (term_segments m) <= MAX_TERM_SEGMENTS)%nat →
    ts_agrees (term_segments m) (entries m);
  inv_next : max_index m < next_id m;
  inv_u64 : max_index m <= u64_max;
}.

(** A batch that extends the log: consecutive indices from the one after the
    last entry (or from any positive index when the log is empty), valid terms. *)
Definition extends (m : LogMem) (es : list Entry) : Prop :=
  es ≠ [] ∧ Forall (λ e, e_term e ≠ 0) es ∧
  ∃ s, 0 < s ∧ (0 < max_index m → s = max_index m + 1) ∧
       contiguous e_index s es ∧ s + N.of_nat (length es) <= u64_max + 1.

Lemma inv_below m i s :
  log_inv m → (0 < max_index m → s = max_index m + 1) → is_Some (entries m !! i) → i < s.
Proof. intros Hinv Hs Hi. apply (inv_dom m Hinv) in Hi. lia. Qed.

Lemma insert_entries_Some m es i e :
  insert_entries m es !! i = Some e → m !! i = Some e ∨ (e_index e = i ∧ e ∈ es).
Proof.
  unfold insert_entries. revert m. induction es as [|e0 es IH]; intros m; simpl; [auto|].
  intros [[[<- <-]|[_ Hi]]%lookup_insert_Some|[? ?]]%IH; [right|by left|right].
  - split; [done|left].
  - split; [done|by right].
Qed.

Theorem insert_to_memory_inv m es : log_inv m → extends m es → log_inv (insert_to_memory m es).
Proof.
  intros Hinv (Hne & Hts & s & Hs0 & Hs & Hc & Hmax).
  destruct (last es) as [la|] eqn:Hlast; [|by apply last_None in Hlast].
  destruct es as [|f es]; [done|]. pose proof (contiguous_last _ _ _ _ Hc Hlast) as Hla.
  pose proof (max_entry_index_contiguous _ _ Hc Hne) as Hme. pose proof Hc as [Hf _].
  pose proof (inv_order m Hinv). pose proof (inv_zero m Hinv). pose proof (inv_next m Hinv).
  assert (Hb : ∀ i, is_Some (entries m !! i) → i < s) by eauto using inv_below.
  pose proof (update_term_indexes_batch _ _ _ _ _ Hc Hmax Hb (inv_terms m Hinv)) as Hti.
  unfold insert_to_memory. destruct (update_term_indexes _ _ _) as [tf tl].
  rewrite Hlast. cbn [head length] in *.
  assert (Hnl : max_index m < e_index la) by (simpl in Hla; lia).
  assert (Hmn : (e_index f <? min_index m) || (min_index m =? 0) = bool_decide (min_index m = 0)).
  { destruct (N.ltb_spec (e_index f) (min_index m)), (N.eqb_spec (min_index m) 0);
      rewrite ?bool_decide_eq_true_2, ?bool_decide_eq_false_2 by done; simpl; (done || lia). }
  rewrite Hmn. rewrite (proj2 (N.ltb_lt _ _) Hnl).
  split; cbn [entries min_index max_index next_id term_segments term_first_index term_last_index].
  - intros i. rewrite (insert_entries_is_Some _ _ _ _ Hc), (inv_dom m Hinv).
    cbn [length]. case_bool_decide; lia.
  - case_bool_decide; lia.
  - case_bool_decide; lia.
  - intros i e [He|[<- He]]%insert_entries_Some; [by apply (inv_entry m Hinv)|].
    rewrite Forall_forall in Hts. auto.
  - done.
  - apply ts_wf_on_append, (inv_ts_wf m Hinv).
  - intros Hcount. apply (ts_agrees_append _ _ _ s); try done; [apply (inv_ts_wf m Hinv)|].
    apply (inv_ts m Hinv). etrans; [apply ts_count_mono|done].
  - case_bool; lia.
  - lia.
Qed.

(** The bounds stored after a removal, when the survivors form an interval. *)
Lemma interval_bounds (es : gmap N Entry) lo hi :
  (∀ i, is_Some (es !! i) ↔ 0 < lo ∧ lo <= i ∧ i <= hi) →
  (0 < lo ∧ lo <= hi ∧ key_or_zero (om_front es) = lo ∧ key_or_zero (om_back es) = hi) ∨
  (¬ (0 < lo ∧ lo <= hi) ∧ es = ∅ ∧ key_or_zero (om_front es) = 0 ∧ key_or_zero (om_back es) = 0).
Proof.
  intros Hd. destruct (decide (0 < lo ∧ lo <= hi)) as [[Hlo Hhi]|Hn].
  - left. destruct (proj2 (Hd lo)) as [e1 He1]; [lia|]. destruct (proj2 (Hd hi)) as [e2 He2]; [lia|].
    assert (om_front es = Some (lo, e1)) as ->.
    { apply om_front_Some. split; [done|]. intros j Hj%Hd. lia. }
    assert (om_back es = Some (hi, e2)) as ->.
    { apply om_back_Some. split; [done|]. intros j Hj%Hd. lia. }
    done.
  - right. split; [done|]. assert (es = ∅) as Hes.
    { apply map_empty. intros i. destruct (es !! i) eqn:E; [|done].
      exfalso. assert (is_Some (es !! i)) as Hi%Hd by eauto. lia. }
    by rewrite (proj2 (om_front_None es) Hes), (proj2 (om_back_None es) Hes).
Qed.

Lemma remove_range_inv m a b :
  log_inv m → a <= min_index m ∨ max_index m <= b → log_inv (remove_range m a b).
Proof.
  intros Hinv Hside. unfold remove_range, remove_range_locked.
  set (es := remove_keys (entries m) (om_range a b (entries m))).
  assert (Hes : ∀ i e, es !! i = Some e ↔ entries m !! i = Some e ∧ ¬ (a <= i ∧ i <= b))
    by (intros; apply remove_survives).
  assert (Hsub : es ⊆ entries m) by (apply map_subseteq_spec; intros i e Hi; by apply Hes).
  assert (Hd : ∃ lo hi, hi <= max_index m ∧
    ∀ i, is_Some (es !! i) ↔ 0 < lo ∧ lo <= i ∧ i <= hi).
  { pose proof (inv_dom m Hinv) as Hdom. pose proof (inv_zero m Hinv).
    exists (if decide (a <= min_index m) then if decide (min_index m = 0) then 0
            else N.max (b + 1) (min_index m) else min_index m),
           (if decide (a <= min_index m) then max_index m else N.min (a - 1) (max_index m)).
    split; [case_decide; lia|]. intros i. transitivity (is_Some (entries m !! i) ∧ ¬ (a <= i ∧ i <= b)).
    - split; [intros [e [? ?]%Hes]; eauto|intros [[e He] Hn]; exists e; by apply Hes].
    - rewrite Hdom. repeat case_decide; lia. }
  destruct Hd as (lo & hi & Hhi & Hd). pose proof (interval_bounds _ _ _ Hd) as Hbnd.
  pose proof (inv_next m Hinv). pose proof (inv_u64 m Hinv).
  split; cbn [set_bounds entries min_index max_index next_id term_segments term_first_index term_last_index].
  - intros i. destruct Hbnd as [(? & ? & -> & ->)|(_ & Hemp & -> & ->)]; [apply Hd|]. rewrite Hemp.
    rewrite lookup_empty, is_Some_alt. lia.
  - lia.
  - lia.
  - intros i e [He _]%Hes. by apply (inv_entry m Hinv).
  - apply remove_term_index_ok, (inv_terms m Hinv).
  - apply (inv_ts_wf m Hinv).
  - intros Hc. eapply ts_agrees_subseteq; [done|]. by apply (inv_ts m Hinv).
  - lia.
  - lia.
Qed.

Lemma purge_prefix_inv m cutoff : log_inv m → log_inv (purge_prefix m cutoff).
Proof.
  intros Hinv. destruct (remove_range_inv m 0 (lid_index cutoff) Hinv) as []; [left; lia|].
  by constructor.
Qed.

Lemma term_index_ok_empty : term_index_ok ∅ ∅ ∅.
Proof.
  split; intros t; rewrite lookup_empty; symmetry;
    [apply find_first_of_term_None|apply find_last_of_term_None]; intros j e Hj; by rewrite lookup_empty in Hj.
Qed.

Lemma reset_mem_inv m : log_inv m → log_inv (reset_mem m).
Proof.
  intros Hinv. split; cbn [reset_mem entries min_index max_index next_id term_segments term_first_index term_last_index]; try lia.
  - intros i. rewrite lookup_empty, is_Some_alt. lia.
  - intros i e Hi. by rewrite lookup_empty in Hi.
  - apply term_index_ok_empty.
  - apply ts_wf_clear, (inv_ts_wf m Hinv).
  - intros _. apply ts_agrees_empty.
Qed.

(** Recovery from consecutive entries on disk establishes the invariant. *)
Lemma new_mem_inv disk_len s es boundary :
  0 < s → contiguous e_index s es → Forall (λ e, e_term e ≠ 0) es →
  s + N.of_nat (length es) = disk_len + 1 → disk_len <= u64_max →
  log_inv (new_mem disk_len (Some es) boundary).
Proof.
  intros Hs Hc Hts Hlen Hmax. unfold new_mem.
  assert ((if 0 <? disk_len then default [] (Some es) else []) = es) as ->.
  { simpl. case_bool; [done|]. destruct es; [done|]. simpl in Hlen. lia. }
  pose proof (update_term_indexes_batch ∅ ∅ ∅ _ _ Hc ltac:(lia)
    (λ i H, ltac:(rewrite lookup_empty in H; by destruct H)) term_index_ok_empty) as Hti.
  destruct (update_term_indexes ∅ ∅ es) as [tf tl].
  assert (Hd : ∀ i, is_Some (insert_entries ∅ es !! i) ↔ 0 < s ∧ s <= i ∧ i <= disk_len).
  { intros i. rewrite (insert_entries_is_Some _ _ _ _ Hc), lookup_empty, is_Some_alt. lia. }
  pose proof (interval_bounds _ _ _ Hd) as Hbnd.
  destruct (match boundary with Some (Some _) => _ | _ => _ end) as [pi pt].
  split; cbn [entries min_index max_index next_id term_segments term_first_index term_last_index].
  - intros i. destruct Hbnd as [(? & ? & -> & ->)|(_ & Hemp & -> & ->)]; [apply Hd|]. rewrite Hemp.
    rewrite lookup_empty, is_Some_alt. lia.
  - lia.
  - lia.
  - intros i e [He|[<- He]]%insert_entries_Some; [by rewrite lookup_empty in He|].
    rewrite Forall_forall in Hts. auto.
  - done.
  - auto with dengine.
  - intros Hcount. apply (ts_agrees_append _ _ _ s); auto using ts_agrees_empty with dengine.
    intros i Hi. rewrite lookup_empty in Hi. by destruct Hi.
  - lia.
  - lia.
Qed.
