(* ===== verification/LogSpec.v ===== *)
(** * The buffered raft log: functional correctness

    What the operations of [BufferedLog] compute on a log that satisfies
    [log_inv]: term lookups agree with the entries, range reads are gap free, the
    optimised conflict resolution is the one of the Raft paper, and the commit
    index is backed by a majority. *)

From stdpp Require Import base tactics numbers option list sorting gmap.
From S2P Require Import Prelude Types TermSegments BufferedLog LogInv.

(** ** Reference definitions *)

(** Raft §5.3: skip the entries already present with the same term; at the first
    one that conflicts or is missing, delete it and everything after, and append
    the rest. *)
Definition truncate_from (m : gmap N Entry) (i : N) : gmap N Entry := filter (λ p, p.1 < i) m.

Fixpoint raft_append (m : gmap N Entry) (es : list Entry) : gmap N Entry :=
  match es with
  | [] => m
  | e :: es' =>
      match m !! e_index e with
      | Some e' => if e_term e' =? e_term e then raft_append m es'
                   else insert_entries (truncate_from m (e_index e)) es
      | None => insert_entries m es
      end
  end.

(** The term the log knows for an index: the live entry's, or the purge boundary's. *)
Definition known_term (m : LogMem) (i : N) : option N :=
  match entries m !! i with
  | Some e => Some (e_term e)
  | None => if (0 <? last_purged_index m) && (i =? last_purged_index m)
            then Some (last_purged_term m) else None
  end.

(** The segment array has not overflowed. *)
Definition segments_fit (m : LogMem) : Prop :=
  (seg_count (term_segments m) <= MAX_TERM_SEGMENTS)%nat.

(** ** Term lookup *)

Lemma entry_term_known m i :
  log_inv m → segments_fit m → entry_term m i = Some (known_term m i).
Proof.
  intros Hinv Hfit. unfold entry_term, known_term.
  pose proof (inv_dom m Hinv i) as Hd. pose proof (inv_zero m Hinv). pose proof (inv_order m Hinv).
  destruct (entries m !! i) as [e|] eqn:E.
  - assert (0 < min_index m ∧ min_index m <= i ∧ i <= max_index m) by (apply Hd; eauto).
    rewrite (inv_ts m Hinv Hfit i e E).
    case_bool; simpl; (done || lia).
  - assert (¬ (0 < min_index m ∧ min_index m <= i ∧ i <= max_index m)) as Hn.
    { intros [? He]%Hd. done. }
    case_bool; simpl; (done || lia).
Qed.

(** ** Range reads *)

Lemma get_entries_range_elem m lo hi e :
  log_inv m → e ∈ get_entries_range m lo hi ↔ entries m !! e_index e = Some e ∧ lo <= e_index e ∧ e_index e <= hi.
Proof.
  intros Hinv. unfold get_entries_range. rewrite list_elem_of_fmap. split.
  - intros ([k e'] & -> & (? & ? & Hk)%elem_of_om_range). simpl.
    destruct (inv_entry m Hinv _ _ Hk) as [-> _]. done.
  - intros (He & ? & ?). exists (e_index e, e). split; [done|]. by apply elem_of_om_range.
Qed.

Lemma contiguous_snd lo (l : list (N * Entry)) :
  (∀ k e, (k, e) ∈ l → e_index e = k) → contiguous fst lo l → contiguous e_index lo l.*2.
Proof.
  revert lo. induction l as [|[k e] l IH]; intros lo Hk Hc; [done|]. simpl in *.
  destruct Hc as [-> Hc]. split; [apply Hk; left|]. apply IH; [|done]. intros; apply Hk; by right.
Qed.

(** Inside the log a range read is the run of consecutive entries asked for. *)
Lemma get_entries_range_run m lo hi n :
  log_inv m → 0 < min_index m → min_index m <= lo → hi <= max_index m → hi + 1 = lo + N.of_nat n →
  contiguous e_index lo (get_entries_range m lo hi) ∧ length (get_entries_range m lo hi) = n.
Proof.
  intros Hinv H0 Hlo Hhi Hn. unfold get_entries_range. rewrite (om_range_slice _ _ _ _ Hn).
  destruct (om_slice_full (entries m) lo n) as [Hc Hl].
  { intros i ? ?. apply (inv_dom m Hinv). lia. }
  rewrite length_fmap. split; [|done]. apply contiguous_snd; [|done].
  intros k e (_ & _ & Hk)%elem_of_om_slice. by apply (inv_entry m Hinv) in Hk as [? _].
Qed.

(** ** Lemmas on the reference append *)

(** The entries of [es] are all in [m] with the same term. *)
Definition present (m : gmap N Entry) (es : list Entry) : Prop :=
  Forall (λ e, ∃ e', m !! e_index e = Some e' ∧ e_term e' = e_term e) es.

Lemma raft_append_present m pre suf : present m pre → raft_append m (pre ++ suf) = raft_append m suf.
Proof.
  induction 1 as [|e pre (e' & He & Ht) _ IH]; [done|]. simpl. rewrite He, Ht, N.eqb_refl. done.
Qed.

Lemma raft_append_present_all m es : present m es → raft_append m es = m.
Proof. intros H. rewrite <-(app_nil_r es), raft_append_present by done. done. Qed.

Lemma partition_point_spec es s lst :
  contiguous e_index s es →
  let k := partition_point lst es in
  contiguous e_index s (take k es) ∧ Forall (λ e, e_index e <= lst) (take k es) ∧
  contiguous e_index (s + N.of_nat k) (drop k es) ∧
  Forall (λ e, lst < e_index e) (drop k es) ∧ (k <= length es)%nat.
Proof.
  revert s. induction es as [|e es IH]; intros s Hc; simpl.
  { repeat split; try done. }
  destruct Hc as [<- Hc]. destruct (N.leb_spec (e_index e) lst); simpl.
  - destruct (IH _ Hc) as (? & ? & Hd & ? & ?). repeat split; auto; [|lia].
    replace (e_index e + N.of_nat (S (partition_point lst es)))
      with (e_index e + 1 + N.of_nat (partition_point lst es)) by lia. done.
  - rewrite N.add_0_r. repeat split; auto; [|lia]. constructor; [lia|].
    apply Forall_forall. intros x Hx. pose proof (contiguous_elem _ _ _ _ Hc Hx). lia.
Qed.

(** ** Conflict resolution *)

(** A batch a leader may send after [prev]: consecutive, non-decreasing valid
    terms; [prev] is adjacent to or inside the log. *)
Record valid_batch (m : LogMem) (prev : N) (es : list Entry) : Prop := mk_valid_batch {
  vb_contig : contiguous e_index (prev + 1) es;
  vb_terms : Forall (λ e, e_term e ≠ 0) es;
  vb_mono : StronglySorted (λ a b, e_term a <= e_term b) es;
  vb_room : prev + N.of_nat (length es) <= u64_max;
  vb_prev : max_index m = 0 ∨ (min_index m <= prev + 1 ∧ prev <= max_index m);
}.

Section conflict.
Context (m : LogMem) (prev : N) (es : list Entry).
Hypothesis Hinv : log_inv m.
Hypothesis Hfit : segments_fit m.
Hypothesis Hvb : valid_batch m prev es.

(** An index of the batch that the log reaches is a live entry. *)
Lemma batch_index_live e :
  e ∈ es → e_index e <= max_index m → ∃ e', entries m !! e_index e = Some e'.
Proof.
  intros He Hle. pose proof (contiguous_elem _ _ _ _ (vb_contig _ _ _ Hvb) He).
  apply (inv_dom m Hinv). pose proof (vb_prev _ _ _ Hvb). pose proof (inv_zero m Hinv). lia.
Qed.

Lemma sorted_between (l : list Entry) x y z :
  StronglySorted (λ a b, e_term a <= e_term b) l → head l = Some x → last l = Some y → z ∈ l →
  e_term x <= e_term z ∧ e_term z <= e_term y.
Proof.
  destruct l as [|x' l]; [done|]. intros Hs [= ->] Hl Hz. split.
  - apply elem_of_cons in Hz as [->|Hz]; [lia|]. by eapply StronglySorted_head_le in Hz; [|done].
  - revert x Hs Hl Hz. induction l as [|b l IH]; intros x Hs Hl Hz; simpl in Hl.
    + injection Hl as ->. apply list_elem_of_singleton in Hz as ->. lia.
    + inversion Hs; subst. apply elem_of_cons in Hz as [->|Hz]; [|by eapply IH].
      eapply (StronglySorted_head_le _ _ _ _ Hs). by eapply last_Some_elem_of.
Qed.

Let skip := partition_point (max_index m) es.

Lemma overlap_safe_present :
  overlap_safe (term_segments m) (take skip es) = true → present (entries m) (take skip es).
Proof.
  intros Hsafe.
  destruct (partition_point_spec es _ (max_index m) (vb_contig _ _ _ Hvb)) as (Hc & Hle & _).
  fold skip in Hc, Hle.
  assert (Hs : StronglySorted (λ a b, e_term a <= e_term b) (take skip es)).
  { pose proof (vb_mono _ _ _ Hvb) as Hm. rewrite <-(take_drop skip es) in Hm.
    by apply StronglySorted_app in Hm as (_ & ? & _). }
  apply Forall_forall. intros z Hz. rewrite Forall_forall in Hle.
  destruct (batch_index_live z) as [e' He']; [|by apply Hle|].
  { rewrite <-(take_drop skip es). apply elem_of_app. by left. }
  exists e'. split; [done|]. destruct (take skip es) as [|f ov] eqn:Hov; [by apply not_elem_of_nil in Hz|].
  unfold overlap_safe in Hsafe. destruct (last_is_Some_cons f ov) as [la Hla]. rewrite Hla in Hsafe.
  apply andb_prop in Hsafe as [[Hfs%N.leb_le Hft%N.eqb_eq]%andb_prop Hlt%N.eqb_eq].
  destruct (sorted_between _ _ _ _ Hs eq_refl Hla Hz).
  rewrite (ts_agrees_last_segment _ _ _ _ (inv_ts m Hinv Hfit) He'); [lia|].
  destruct Hc as [Hf Hc]. apply elem_of_cons in Hz as [->|Hz]; [done|].
  pose proof (contiguous_elem _ _ _ _ Hc Hz). lia.
Qed.

(** The slow path finds the first entry that conflicts or is missing. *)
Lemma diverge_pos_spec (suf : list Entry) :
  (∀ e, e ∈ suf → e ∈ es) →
  (diverge_pos m (max_index m) suf = Some None ∧ present (entries m) suf) ∨
  (∃ p d, diverge_pos m (max_index m) suf = Some (Some p) ∧ suf !! p = Some d ∧
     present (entries m) (take p suf) ∧
     (max_index m < e_index d ∨
      ∃ e', entries m !! e_index d = Some e' ∧ e_index d <= max_index m ∧ e_term e' ≠ e_term d)).
Proof.
  induction suf as [|e suf IH]; intros Hsub; [left; split; [done|constructor]|]. simpl.
  destruct (N.ltb_spec (max_index m) (e_index e)) as [Hlt|Hge].
  { right. exists 0%nat, e. split_and!; [done|done|constructor|by left]. }
  rewrite entry_term_known by done.
  destruct (batch_index_live e) as [e' He']; [apply Hsub; left|done|].
  unfold known_term. rewrite He'. case_bool_decide as Ht.
  - injection Ht as Ht. destruct IH as [[-> Hp]|(p & d & -> & Hd & Hp & Hc)].
    { intros x Hx. apply Hsub. by right. }
    + left. split; [done|]. constructor; eauto.
    + right. exists (S p), d. split_and!; [done|done|constructor; eauto|done].
  - right. exists 0%nat, e. split_and!; [done|done|constructor|].
    right. exists e'. split_and!; [done|done|congruence].
Qed.

Lemma raft_append_missing (suf : list Entry) d suf' :
  suf = d :: suf' → max_index m < e_index d → raft_append (entries m) suf = insert_entries (entries m) suf.
Proof.
  intros -> Hd. simpl. destruct (entries m !! e_index d) as [e'|] eqn:E; [|done].
  exfalso. assert (is_Some (entries m !! e_index d)) as Hi%(inv_dom m Hinv) by eauto. lia.
Qed.
End conflict.

Lemma tail_extends m prev es p d suf :
  contiguous e_index (prev + 1) es → Forall (λ e, e_term e ≠ 0) es →
  prev + N.of_nat (length es) <= u64_max → drop p es = d :: suf →
  max_index m < e_index d → e_index d <= max_index m + 1 ∨ max_index m = 0 →
  extends m (d :: suf).
Proof.
  intros Hc Ht Hr Hdrop Hlt Hle.
  assert (Hlen : (length (d :: suf) + p = length es)%nat).
  { rewrite <-Hdrop, length_drop. assert (p < length es)%nat; [|lia].
    destruct (decide (p < length es)%nat); [done|]. rewrite drop_ge in Hdrop by lia. done. }
  rewrite <-(take_drop p es), Hdrop in Hc, Ht. apply contiguous_app in Hc as [_ Hc].
  apply Forall_app in Ht as [_ Ht]. pose proof Hc as [Hd _].
  split; [done|]. split; [done|]. exists (e_index d).
  rewrite length_take in Hd, Hc. rewrite <-Hd in Hc.
  split_and!; [lia|lia|apply Hc|]. simpl in *. lia.
Qed.

(** ** Truncating a suffix *)

Lemma remove_suffix_entries m d :
  log_inv m → entries (remove_range m d u64_max) = truncate_from (entries m) d.
Proof.
  intros Hinv. apply map_eq. intros i. unfold truncate_from. simpl.
  rewrite lookup_remove_range. apply option_eq_iff. intros e.
  rewrite map_lookup_filter_Some. simpl. case_decide.
  - split; [done|]. lia.
  - split; [|tauto]. intros He. split; [done|].
    assert (is_Some (entries m !! i)) as Hi%(inv_dom m Hinv) by eauto.
    pose proof (inv_u64 m Hinv). lia.
Qed.

Lemma remove_suffix_max m d :
  log_inv m → max_index (remove_range m d u64_max) < d ∨ max_index (remove_range m d u64_max) = 0.
Proof.
  intros Hinv. pose proof (remove_range_inv m d u64_max Hinv (or_intror (inv_u64 m Hinv))) as Hinv'.
  pose proof (remove_suffix_entries m d Hinv) as Hent.
  set (m' := remove_range m d u64_max) in *.
  pose proof (inv_order m' Hinv'). pose proof (inv_zero m' Hinv').
  destruct (decide (max_index m' = 0)) as [|Hne]; [by right|left].
  assert (is_Some (entries m' !! max_index m')) as Hi by (apply (inv_dom m' Hinv'); lia).
  rewrite Hent in Hi.
  destruct Hi as [e [_ Hlt]%map_lookup_filter_Some]. done.
Qed.

Lemma remove_suffix_extends m prev es p d suf :
  log_inv m → valid_batch m prev es → drop p es = d :: suf →
  is_Some (entries m !! e_index d) → extends (remove_range m (e_index d) u64_max) (d :: suf).
Proof.
  intros Hinv Hvb Hdrop Hd.
  pose proof (remove_range_inv m (e_index d) u64_max Hinv (or_intror (inv_u64 m Hinv))) as Hinv'.
  pose proof (remove_suffix_max m (e_index d) Hinv) as Hmax.
  pose proof (remove_suffix_entries m (e_index d) Hinv) as Hent.
  set (m' := remove_range m (e_index d) u64_max) in *.
  apply (inv_dom m Hinv) in Hd.
  assert (Hd1 : max_index m' = 0 ∨ e_index d <= max_index m' + 1).
  { destruct (decide (e_index d = min_index m)) as [Heq|Hne].
    - left. pose proof (inv_zero m' Hinv'). pose proof (inv_order m' Hinv').
      destruct (decide (min_index m' = 0)); [auto|]. exfalso.
      assert (is_Some (entries m' !! max_index m')) as Hi by (apply (inv_dom m' Hinv'); lia).
      rewrite Hent in Hi. destruct Hi as [e [He Hlt]%map_lookup_filter_Some]. simpl in Hlt.
      assert (is_Some (entries m !! max_index m')) as Hi%(inv_dom m Hinv) by eauto. lia.
    - right. assert (is_Some (entries m' !! (e_index d - 1))) as Hi%(inv_dom m' Hinv'); [|lia].
      destruct (proj2 (inv_dom m Hinv (e_index d - 1))) as [e He]; [lia|].
      exists e. rewrite Hent. apply map_lookup_filter_Some. split; [done|]. simpl. lia. }
  destruct Hvb. eapply tail_extends; [done..|lia|lia].
Qed.

(** ** The conflict resolution of the paper *)

Lemma last_id_of_drop p es d suf : drop p es = d :: suf → last_id_of (drop p es) = last_id_of es.
Proof.
  intros Hd. unfold last_id_of. rewrite <-(take_drop p es) at 2. rewrite Hd. by rewrite last_app_cons.
Qed.

Lemma append_entries_ok l es :
  poisoned l = false → es ≠ [] →
  append_entries l es = (notify_one (set_mem (insert_to_memory (mem l) es) l), Ok tt).
Proof. intros Hp Hes. unfold append_entries. rewrite Hp. by destruct es. Qed.

Lemma replace_tail_ok l d tail done reply :
  ∃ l' r, replace_tail l d tail done reply = (l', r) ∧
    mem l' = insert_to_memory (remove_range (mem l) d u64_max) tail ∧
    (io_open l = true → reply = Some (Ok tt) → r = Ok tt).
Proof.
  unfold replace_tail, send_command. simpl.
  destruct (io_open l); simpl; eexists _, _; (split; [done|]); (split; [done|]); [|done].
  intros _ ->. done.
Qed.

Section refinement.
Context (l : BufferedRaftLog) (prev pt : N) (es : list Entry) (done : N) (reply : option (result unit)).
Hypothesis Hinv : log_inv (mem l).
Hypothesis Hfit : segments_fit (mem l).
Hypothesis Hvb : valid_batch (mem l) prev es.

(** What the operation delivers: a well-formed log always; on a healthy log the
    reference result, and success when the raft-io thread reports success. *)
Definition delivers (o : option (BufferedRaftLog * result (option LogId))) : Prop :=
  ∃ l' r, o = Some (l', r) ∧ log_inv (mem l') ∧
    (poisoned l = false → entries (mem l') = raft_append (entries (mem l)) es ∧
      (io_open l = true → reply = Some (Ok tt) → r = Ok (last_id_of es))).

(** After the part already present, the batch continues right at the end of the log. *)
Lemma batch_adjacent p d suf :
  drop p es = d :: suf → present (entries (mem l)) (take p es) →
  e_index d <= max_index (mem l) + 1 ∨ max_index (mem l) = 0.
Proof.
  intros Hd Hp. pose proof (vb_contig _ _ _ Hvb) as Hc. pose proof (vb_prev _ _ _ Hvb).
  rewrite <-(take_drop p es), Hd in Hc. apply contiguous_app in Hc as [Hc [Hdi _]].
  destruct (last (take p es)) as [la|] eqn:Hla.
  - left. pose proof (contiguous_last _ _ _ _ Hc Hla). apply last_Some_elem_of in Hla.
    unfold present in Hp. rewrite Forall_forall in Hp. destruct (Hp _ Hla) as (e' & He' & _).
    assert (is_Some (entries (mem l) !! e_index la)) as Hi%(inv_dom _ Hinv) by eauto. lia.
  - apply last_None in Hla. rewrite Hla in Hdi. simpl in Hdi. lia.
Qed.

Lemma delivers_append p d suf :
  drop p es = d :: suf → present (entries (mem l)) (take p es) → max_index (mem l) < e_index d →
  delivers (Some (and_then_id (append_entries l (drop p es)) (last_id_of (drop p es)))).
Proof.
  intros Hd Hp Hlt. pose proof (batch_adjacent _ _ _ Hd Hp).
  rewrite (last_id_of_drop _ _ _ _ Hd). destruct (poisoned l) eqn:Hpois.
  { unfold append_entries. rewrite Hpois. eexists _, _. split; [done|]. by rewrite Hpois. }
  rewrite append_entries_ok; [|done|by rewrite Hd].
  eexists _, _. split; [done|]. split.
  - rewrite Hd. apply insert_to_memory_inv; [done|]. destruct Hvb.
    eapply tail_extends; [done..|lia|lia].
  - intros _. split; [|done]. simpl. rewrite <-(take_drop p es) at 2.
    rewrite raft_append_present by done. erewrite raft_append_missing by done. done.
Qed.

Lemma delivers_same r : present (entries (mem l)) es → r = Ok (last_id_of es) → delivers (Some (l, r)).
Proof.
  intros Hp ->. eexists _, _. split; [done|]. split; [done|].
  by rewrite raft_append_present_all.
Qed.

Lemma delivers_replace p d suf e' :
  drop p es = d :: suf → present (entries (mem l)) (take p es) →
  entries (mem l) !! e_index d = Some e' → e_term e' ≠ e_term d →
  delivers (Some (and_then_id (replace_tail l (e_index d) (drop p es) done reply) (last_id_of (drop p es)))).
Proof.
  intros Hd Hp He' Hne. rewrite (last_id_of_drop _ _ _ _ Hd).
  destruct (replace_tail_ok l (e_index d) (drop p es) done reply) as (l' & r & -> & Hm & Hr).
  eexists _, _. split; [done|]. simpl. rewrite Hm. split; [|intros _; split].
  - rewrite Hd. apply insert_to_memory_inv.
    + apply remove_range_inv; [done|]. right. apply (inv_u64 _ Hinv).
    + eapply remove_suffix_extends; eauto.
  - rewrite <-(take_drop p es) at 2. rewrite raft_append_present by done. rewrite Hd. simpl.
    rewrite He'. destruct (N.eqb_spec (e_term e') (e_term d)); [done|].
    rewrite <-remove_suffix_entries by done. done.
  - intros Hio Hrep. by rewrite Hr.
Qed.

Lemma filter_out_delivers :
  ¬ (prev = 0 ∧ pt = 0) → known_term (mem l) prev = Some pt →
  delivers (filter_out_conflicts_and_append l prev pt es done reply).
Proof.
  intros Hnz Hknown. unfold filter_out_conflicts_and_append.
  assert ((prev =? 0) && (pt =? 0) = false) as -> by (case_bool; simpl; (done || lia)).
  rewrite entry_term_known by done. rewrite Hknown, bool_decide_eq_true_2 by done. simpl.
  unfold last_entry_id. set (mx := max_index (mem l)). set (skip := partition_point mx es).
  destruct (partition_point_spec es _ mx (vb_contig _ _ _ Hvb)) as (_ & _ & _ & Hdl & _).
  fold skip in Hdl.
  destruct (overlap_safe (term_segments (mem l)) (take skip es)) eqn:Hsafe.
  - eapply overlap_safe_present in Hsafe as Hp; [|done..].
    destruct (drop skip es) as [|d suf] eqn:Hd.
    + apply delivers_same; [|done]. rewrite <-(take_drop skip es), Hd, app_nil_r. done.
    + rewrite <-Hd. apply (delivers_append _ _ _ Hd Hp). by inversion Hdl.
  - unfold mx. destruct (diverge_pos_spec _ _ _ Hinv Hfit Hvb es) as [[-> Hp]|(p & d & -> & Hd & Hp & Hc)]; [done| |].
    + by apply delivers_same.
    + apply drop_S in Hd as Hdrop. rewrite Hdrop. rewrite <-Hdrop.
      destruct Hc as [Hlt|(e' & He' & Hle & Hne)].
      * rewrite (proj2 (N.leb_gt _ _) Hlt). by eapply delivers_append.
      * rewrite (proj2 (N.leb_le _ _) Hle). by eapply delivers_replace.
Qed.
End refinement.

(** ** Commit calculation *)

(** How many of the reported match indices reach [k]. *)
Definition supporters (k : N) (ids : list N) : nat := length (filter (λ x, k <= x) ids).

Lemma supporters_cons k a l :
  supporters k (a :: l) = if decide (k <= a) then S (supporters k l) else supporters k l.
Proof. unfold supporters. rewrite filter_cons. by case_decide. Qed.

Lemma supporters_perm k l1 l2 : l1 ≡ₚ l2 → supporters k l1 = supporters k l2.
Proof. intros H. unfold supporters. by rewrite H. Qed.

Lemma supporters_none k l : Forall (λ x, x < k) l → supporters k l = 0%nat.
Proof.
  induction 1 as [|x l Hx _ IH]; [done|]. rewrite supporters_cons. case_decide; [lia|done].
Qed.

Lemma sorted_desc_count l i x :
  StronglySorted (flip N.le) l → l !! i = Some x →
  (S i <= supporters x l)%nat ∧ ∀ k, x < k → (supporters k l <= i)%nat.
Proof.
  revert i. induction l as [|a l IH]; intros [|i] Hs Hi; simplify_eq/=; inversion Hs as [|?? Hs' Hall]; subst.
  - rewrite supporters_cons. case_decide; [|lia]. split; [lia|]. intros k Hk.
    rewrite supporters_cons. case_decide; [lia|]. rewrite supporters_none; [lia|].
    eapply Forall_impl; [exact Hall|]. unfold flip. simpl. lia.
  - destruct (IH _ Hs' Hi) as [H1 H2]. split.
    + rewrite supporters_cons. case_decide as Ha; [lia|]. exfalso. apply Ha.
      rewrite Forall_forall in Hall. apply (Hall x). by eapply list_elem_of_lookup_2.
    + intros k Hk. rewrite supporters_cons. specialize (H2 k Hk). case_decide; lia.
Qed.

Lemma flip_le_total : Total (flip N.le).
Proof. intros x y. unfold flip. lia. Qed.

Lemma flip_le_trans : Transitive (flip N.le).
Proof. intros x y z. unfold flip. lia. Qed.

Lemma sort_desc_sorted l : StronglySorted (flip N.le) (sort_desc l).
Proof. unfold sort_desc. apply StronglySorted_merge_sort; [apply flip_le_trans|apply flip_le_total]. Qed.

Lemma sort_desc_perm l : sort_desc l ≡ₚ l.
Proof. apply merge_sort_Permutation. Qed.

(** The median the code takes is the greatest index a strict majority reaches. *)
Lemma majority_index_spec ids :
  ids ≠ [] → ∃ k, sort_desc ids !! Nat.div (length (sort_desc ids)) 2 = Some k ∧
    (length ids < 2 * supporters k ids)%nat ∧
    ∀ k', (length ids < 2 * supporters k' ids)%nat → k' <= k.
Proof.
  intros Hne. pose proof (sort_desc_perm ids) as Hp. pose proof (sort_desc_sorted ids) as Hs.
  assert (Hlen : length (sort_desc ids) = length ids) by (by apply Permutation_length).
  pose proof (Nat.div_mod_eq (length ids) 2) as Hdm. pose proof (Nat.mod_upper_bound (length ids) 2).
  assert (length ids ≠ 0)%nat by (by destruct ids).
  destruct (lookup_lt_is_Some_2 (sort_desc ids) (Nat.div (length (sort_desc ids)) 2)) as [k Hk].
  { rewrite Hlen. apply Nat.div_lt; lia. }
  exists k. destruct (sorted_desc_count _ _ _ Hs Hk) as [H1 H2]. rewrite Hlen in H1, H2.
  rewrite (supporters_perm _ _ _ Hp) in H1. split; [done|]. split; [lia|].
  intros k' Hk'. destruct (decide (k' <= k)); [done|]. exfalso.
  specialize (H2 k' ltac:(lia)). rewrite (supporters_perm _ _ _ Hp) in H2. lia.
Qed.
