(* ===== verification/LogStore.v ===== *)
(** * The storage engine interface

    The [LogStore] trait of [d-engine-core/src/storage/storage_engine.rs] as a
    class of operations, and the laws the raft log relies on: what a reader of the
    store sees after each successful write ([ls_view]) and which entries survive a
    power loss ([ls_survives]). *)

From stdpp Require Import base tactics numbers option list gmap.
From S2P Require Import Prelude Types TermSegments BufferedLog LogInv LogSpec.

Class LogStore (S : Type) := {
  persist_entries : S → list Entry → S * result unit;
  store_entry : S → N → option Entry;
  get_entries : S → N → N → list Entry;
  store_purge : S → LogId → S * result unit;
  store_truncate : S → N → S * result unit;
  replace_range : S → N → list Entry → S * result unit;
  is_write_durable : S → bool;
  store_flush : S → S * result unit;
  store_reset : S → S * result unit;
  store_last_index : S → N;
  load_purge_boundary : S → result (option LogId);
}.

(** The trait's default [replace_range]: [truncate] then [persist_entries]. *)
Definition default_replace_range {S} (truncate : S → N → S * result unit)
    (persist : S → list Entry → S * result unit) (s : S) (from_index : N) (new_entries : list Entry)
    : S * result unit :=
  match truncate s from_index with
  | (s1, Err e) => (s1, Err e)
  | (s1, Ok _) => match new_entries with
                  | [] => (s1, Ok tt)
                  | _ => persist s1 new_entries
                  end
  end.

(** [BufferedRaftLog::new]: the log recovered from what the store reports. *)
Definition log_open {S} `{LogStore S} (s : S) : BufferedRaftLog :=
  log_new (store_last_index s) (Some (get_entries s 1 (store_last_index s)))
    (match load_purge_boundary s with Ok b => Some b | Err _ => None end).

(** What the raft log relies on, as long as no operation has failed ([ls_ok]):
    [ls_view] is the contents a reader sees, and [ls_survives s i e] says that every
    power loss in state [s] leaves the entry [e] at index [i]. *)
Class LogStoreLaws (S : Type) `{LogStore S} := {
  ls_ok : S → Prop;
  ls_view : S → gmap N Entry;
  ls_survives : S → N → Entry → Prop;
  (** a successful write is visible *)
  persist_ok s es s' : ls_ok s → persist_entries s es = (s', Ok tt) → ls_ok s';
  persist_view s es s' :
    ls_ok s → persist_entries s es = (s', Ok tt) → ls_view s' = insert_entries (ls_view s) es;
  (** a write never revokes a durable entry it does not change *)
  persist_survives s es s' i e :
    ls_ok s → persist_entries s es = (s', Ok tt) → ls_survives s i e →
    (∀ e', e' ∈ es → e_index e' = i → e' = e) → ls_survives s' i e;
  (** a successful purge only drops entries up to the cutoff *)
  purge_ok s cutoff s' : ls_ok s → store_purge s cutoff = (s', Ok tt) → ls_ok s';
  purge_view s cutoff s' i :
    ls_ok s → store_purge s cutoff = (s', Ok tt) → lid_index cutoff < i →
    ls_view s' !! i = ls_view s !! i;
  purge_survives s cutoff s' i e :
    ls_ok s → store_purge s cutoff = (s', Ok tt) → lid_index cutoff < i →
    ls_view s !! i = Some e → ls_survives s i e → ls_survives s' i e;
  (** a successful flush makes the visible contents durable *)
  flush_ok s s' : ls_ok s → store_flush s = (s', Ok tt) → ls_ok s';
  flush_view s s' : ls_ok s → store_flush s = (s', Ok tt) → ls_view s' = ls_view s;
  flush_survives s s' i e :
    ls_ok s → store_flush s = (s', Ok tt) → ls_view s !! i = Some e → ls_survives s' i e;
  (** a write-through store needs no flush *)
  write_durable_survives s i e :
    ls_ok s → is_write_durable s = true → ls_view s !! i = Some e → ls_survives s i e;
}.

(** ** A reference store

    Two maps: what was written, and what was written at the last flush. *)
Record MemStore := mkMemStore { ms_view : gmap N Entry; ms_stable : gmap N Entry }.

Definition mem_store_purge (s : MemStore) (c : LogId) : MemStore :=
  mkMemStore (filter (λ p, lid_index c < p.1) (ms_view s)) (filter (λ p, lid_index c < p.1) (ms_stable s)).

Definition mem_store_truncate (s : MemStore) (i : N) : MemStore :=
  mkMemStore (truncate_from (ms_view s) i) (truncate_from (ms_stable s) i).

#[global] Instance MemStore_LogStore : LogStore MemStore := {
  persist_entries s es := (mkMemStore (insert_entries (ms_view s) es)
    (filter (λ p, ms_stable s !! p.1 = Some p.2) (insert_entries (ms_stable s) es)), Ok tt);
  store_entry s i := ms_view s !! i;
  get_entries s lo hi := (om_range lo hi (ms_view s)).*2;
  store_purge s c := (mem_store_purge s c, Ok tt);
  store_truncate s i := (mem_store_truncate s i, Ok tt);
  replace_range := default_replace_range (λ s i, (mem_store_truncate s i, Ok tt))
    (λ s es, (mkMemStore (insert_entries (ms_view s) es) (ms_stable s), Ok tt));
  is_write_durable _ := false;
  store_flush s := (mkMemStore (ms_view s) (ms_view s), Ok tt);
  store_reset _ := (mkMemStore ∅ ∅, Ok tt);
  store_last_index s := default 0 (fst <$> om_back (ms_view s));
  load_purge_boundary _ := Ok None;
}.

Lemma insert_entries_keep (m : gmap N Entry) es i e :
  m !! i = Some e → (∀ e', e' ∈ es → e_index e' = i → e' = e) → insert_entries m es !! i = Some e.
Proof.
  unfold insert_entries. revert m. induction es as [|a es IH]; intros m Hm Hall; [done|]. simpl.
  apply IH; [|intros e' He'; apply Hall; by right].
  destruct (decide (e_index a = i)) as [Heq|Hne].
  - rewrite (Hall a) by (by left || done). rewrite <-(Hall a) by (by left || done).
    rewrite Heq. apply lookup_insert_eq.
  - by rewrite lookup_insert_ne.
Qed.

Lemma insert_entries_in (m : gmap N Entry) es i e :
  e ∈ es → e_index e = i → (∀ e', e' ∈ es → e_index e' = i → e' = e) → insert_entries m es !! i = Some e.
Proof.
  unfold insert_entries. revert m. induction es as [|a es IH]; intros m He Hi Hall; [by apply not_elem_of_nil in He|].
  simpl. destruct (decide (e ∈ es)) as [Hin|Hin].
  - apply IH; [done|done|]. intros e' He'. apply Hall. by right.
  - apply elem_of_cons in He as [<-|]; [|done].
    apply insert_entries_keep; [rewrite Hi; apply lookup_insert_eq|].
    intros e' He'. apply Hall. by right.
Qed.

#[global] Instance MemStore_LogStoreLaws : LogStoreLaws MemStore.
Proof.
  refine {| ls_ok _ := True; ls_view := ms_view; ls_survives s i e := ms_stable s !! i = Some e |}; simpl.
  - done.
  - by intros s es s' _ [= <-].
  - intros s es s' i e _ [= <-] Hi Hall. simpl. apply map_lookup_filter_Some.
    split; [by apply insert_entries_keep|done].
  - done.
  - intros s c s' i _ [= <-] Hi. simpl. apply option_eq_iff. intros e.
    rewrite map_lookup_filter_Some. simpl. tauto.
  - intros s c s' i e _ [= <-] Hi _ He. simpl. apply map_lookup_filter_Some. done.
  - done.
  - by intros s s' _ [= <-].
  - by intros s s' i e _ [= <-].
  - done.
Defined.
