(* ===== verification/IoThread.v ===== *)
(** * The raft-io thread and the fsync coordinator

    [batch_processor] and its helpers in
    [d-engine-core/src/storage/buffered_raft_log.rs], and [FsyncCoordinator] of
    [d-engine-core/src/storage/fsync_coordinator.rs]. The IO thread and the
    blocking fsync task are two sequential processes; each uninterrupted piece of
    them (between two await points or two accesses to state another thread writes)
    is one function, and [sys_step] interleaves them with the operations of the
    raft loop. *)

From stdpp Require Import base tactics numbers option list gmap strings.
From S2P Require Import Prelude Types TermSegments BufferedLog LogInv LogSpec LogStore.

(** Where the blocking fsync task is: not running, about to start a round, in the
    physical flush of a round it picked up, or between the flush and the fence
    check. *)
Inductive FsyncTask :=
  | TaskIdle
  | TaskRound
  | TaskFlushing (gen_at_start max_index : N) (task_replies : list N)
  | TaskFlushed (gen_at_start max_index : N) (task_replies : list N) (outcome : result unit).

(** Where the IO thread is: waiting in [select!]; in the drain loop of a batch turn
    (flush replies collected so far, shutdown seen, persist failed); past it, about
    to submit; or out of its loop. *)
Inductive IoPc :=
  | PcSelect
  | PcDrain (turn_replies : list N) (seen_shutdown persist_failed : bool)
  | PcSubmit (turn_replies : list N) (seen_shutdown persist_failed : bool)
  | PcExit.

Section io.
Context {S : Type} `{LogStore S}.

(** The system: the shared log, the store, the IO thread's local [pending_max]
    and program point, and the fsync task. *)
Record Sys := mkSys {
  sys_log : BufferedRaftLog;
  sys_store : S;
  sys_pending : N;
  sys_pc : IoPc;
  sys_task : FsyncTask;
}.

Definition set_log (l : BufferedRaftLog) (y : Sys) : Sys :=
  mkSys l (sys_store y) (sys_pending y) (sys_pc y) (sys_task y).
Definition set_pending (p : N) (y : Sys) : Sys :=
  mkSys (sys_log y) (sys_store y) p (sys_pc y) (sys_task y).
Definition set_store (s : S) (y : Sys) : Sys :=
  mkSys (sys_log y) s (sys_pending y) (sys_pc y) (sys_task y).
Definition set_pc (pc : IoPc) (y : Sys) : Sys :=
  mkSys (sys_log y) (sys_store y) (sys_pending y) pc (sys_task y).
Definition set_task (t : FsyncTask) (y : Sys) : Sys :=
  mkSys (sys_log y) (sys_store y) (sys_pending y) (sys_pc y) t.
Definition set_queue (q : list IOTask) (l : BufferedRaftLog) : BufferedRaftLog :=
  mkBufferedRaftLog (mem l) (write_notify l) q (io_open l) (log_flush_tx l) (replies l)
    (fsync_coordinator l) (poisoned l).

(** [persist_pending_range]. *)
Definition persist_pending_range (y : Sys) (from to : N) : Sys * result unit :=
  let l := sys_log y in
  if poisoned l then (y, Err poisoned_error)
  else if to <? from then (y, Ok tt)
  else match get_entries_range (mem l) from to with
       | [] => (y, Ok tt)
       | es =>
           match persist_entries (sys_store y) es with
           | (s', Ok _) => (set_pending (N.max (sys_pending y) to) (set_store s' y), Ok tt)
           | (s', Err e) => (set_log (mark_poisoned_and_notify l) (set_store s' y), Err e)
           end
       end.

(** [FsyncCoordinator::submit]. *)
Definition submit (y : Sys) (max_index : N) (new_replies : list N) : Sys :=
  let l := sys_log y in
  let c := fsync_coordinator l in
  let pm := if 0 <? max_index then N.max (pending_max c) max_index else pending_max c in
  let rs := pending_replies c ++ new_replies in
  if inflight c
  then set_log (set_coordinator (mkFsyncCoordinator true pm rs (generation c)) l) y
  else set_task TaskRound
         (set_log (set_coordinator (mkFsyncCoordinator true pm rs (generation c)) l) y).

(** [handle_non_write_cmd]: the flag is "exit the loop". [Flush] and [Shutdown]
    never reach it ([unreachable!] in the source: [None]). *)
Definition handle_non_write_cmd (cmd : IOTask) (y : Sys) : option (Sys * bool) :=
  let l := sys_log y in
  match cmd with
  | Flush _ | Shutdown => None
  | ReplaceRange truncate_from new_entries done =>
      if poisoned l then Some (set_log (send_replies [done] (Err poisoned_error) l) y, true)
      else
        let max_idx := match last new_entries with Some e => e_index e | None => 0 end in
        match replace_range (sys_store y) truncate_from new_entries with
        | (s', Err e) =>
            Some (set_log (send_replies [done] (Err e) (mark_poisoned_and_notify l)) (set_store s' y), true)
        | (s', Ok _) =>
            let p := if 0 <? max_idx then N.max (sys_pending y) max_idx else sys_pending y in
            Some (set_log (send_replies [done] (Ok tt) l) (set_pending p (set_store s' y)), false)
        end
  | Purge cutoff done =>
      if poisoned l then Some (set_log (send_replies [done] (Ok tt) l) y, true)
      else match store_purge (sys_store y) cutoff with
           | (s', Err _) =>
               Some (set_log (send_replies [done] (Ok tt) (mark_poisoned_and_notify l)) (set_store s' y), true)
           | (s', Ok _) => Some (set_log (send_replies [done] (Ok tt) l) (set_store s' y), false)
           end
  | Reset_ done =>
      match store_reset (sys_store y) with
      | (s', Err e) =>
          Some (set_log (send_replies [done] (Err e) (mark_poisoned_and_notify l)) (set_store s' y), true)
      | (s', Ok _) => Some (set_log (send_replies [done] (Ok tt) l) (set_pending 0 (set_store s' y)), false)
      end
  end.

Definition batch_aborted_error : error := Fatal "fatal IO error, batch aborted".
Definition persist_failed_error : error := Fatal "persist_entries failed".

(** [break] out of [batch_processor]: the receiver is dropped. *)
Definition close_io (y : Sys) : Sys :=
  let l := sys_log y in
  set_pc PcExit
    (set_log (mkBufferedRaftLog (mem l) (write_notify l) (command_queue l) false (log_flush_tx l)
                (replies l) (fsync_coordinator l) (poisoned l)) y).

(** [run_batch_turn], first part: persist everything past [durable_index]. *)
Definition turn_begin (y : Sys) (rs : list N) (seen_shutdown : bool) : Sys :=
  let m := mem (sys_log y) in
  let '(y1, r1) := persist_pending_range y (durable_index m + 1) (max_index m) in
  match r1 with
  | Ok _ => set_pc (PcDrain rs seen_shutdown false) y1
  | Err _ =>
      set_pc (PcDrain [] seen_shutdown true)
        (set_log (send_replies rs (Err persist_failed_error) (sys_log y1)) y1)
  end.

(** One iteration of [while let Ok(cmd) = receiver.try_recv()]. *)
Definition turn_recv (y : Sys) : option Sys :=
  match sys_pc y, command_queue (sys_log y) with
  | PcDrain rs seen failed, [] => Some (set_pc (PcSubmit rs seen failed) y)
  | PcDrain rs seen failed, cmd :: q =>
      let y' := set_log (set_queue q (sys_log y)) y in
      match cmd with
      | Shutdown => Some (set_pc (PcDrain rs true failed) y')
      | Flush reply => Some (set_pc (PcDrain (rs ++ [reply]) seen failed) y')
      | cmd =>
          let! r := handle_non_write_cmd cmd y' in
          if snd r
          then Some (close_io (set_log (send_replies rs (Err batch_aborted_error) (sys_log (fst r))) (fst r)))
          else Some (fst r)
      end
  | _, _ => Some y
  end.

(** The rest of [run_batch_turn]: catch up for the collected flush callers, then
    hand the batch to the coordinator. *)
Definition turn_submit (y : Sys) : Sys :=
  match sys_pc y with
  | PcSubmit rs seen failed =>
      let y4 := if negb (bool_decide (rs = [])) && negb failed
                then (persist_pending_range y (sys_pending y + 1) (max_index (mem (sys_log y)))).1
                else y in
      let y5 := set_pending 0 (submit y4 (sys_pending y4) rs) in
      if seen then close_io y5 else set_pc PcSelect y5
  | _ => y
  end.

(** [run_batch_turn] with nothing interleaved: the queue drains in [fuel] steps. *)
Fixpoint turn_drain (fuel : nat) (y : Sys) : option Sys :=
  match fuel with
  | O => Some y
  | Datatypes.S fuel' =>
      let! y' := turn_recv y in
      match sys_pc y' with PcDrain _ _ _ => turn_drain fuel' y' | _ => Some y' end
  end.

Definition run_batch_turn (y : Sys) (rs : list N) (seen_shutdown : bool) : option Sys :=
  let y1 := turn_begin y rs seen_shutdown in
  let! y2 := turn_drain (Datatypes.S (length (command_queue (sys_log y1)))) y1 in
  Some (turn_submit y2).

(** The branches of the [select!] of [batch_processor], up to the drain loop. *)
Definition on_notified (y : Sys) : Sys :=
  let l := sys_log y in
  let l' := mkBufferedRaftLog (mem l) false (command_queue l) (io_open l) (log_flush_tx l)
              (replies l) (fsync_coordinator l) (poisoned l) in
  turn_begin (set_log l' y) [] false.

Definition on_command (y : Sys) : option Sys :=
  match command_queue (sys_log y) with
  | [] => Some y
  | cmd :: q =>
      let y' := set_log (set_queue q (sys_log y)) y in
      match cmd with
      | Shutdown => Some (turn_begin y' [] true)
      | Flush reply => Some (turn_begin y' [reply] false)
      | cmd =>
          let! r := handle_non_write_cmd cmd y' in
          Some (if snd r then close_io (fst r) else fst r)
      end
  end.

Definition on_safety_tick (y : Sys) : Sys :=
  let m := mem (sys_log y) in
  let y1 := (persist_pending_range y (durable_index m + 1) (max_index m)).1 in
  if 0 <? sys_pending y1 then set_pending 0 (submit y1 (sys_pending y1) []) else y1.

(** ** The fsync task *)

Definition set_inflight (b : bool) (l : BufferedRaftLog) : BufferedRaftLog :=
  let c := fsync_coordinator l in
  set_coordinator (mkFsyncCoordinator b (pending_max c) (pending_replies c) (generation c)) l.

(** The head of one round of [run_until_caught_up]: take the pending work; stop
    on a poisoned log or when there is none (and nothing slipped in meanwhile). *)
Definition fsync_pickup (y : Sys) : Sys :=
  let l := sys_log y in
  let c := fsync_coordinator l in
  let l1 := set_coordinator (mkFsyncCoordinator (inflight c) 0 [] (generation c)) l in
  if poisoned l then
    set_task TaskIdle
      (set_log (set_inflight false (send_replies (pending_replies c) (Err poisoned_error) l1)) y)
  else if (pending_max c =? 0) && bool_decide (pending_replies c = []) then
    set_task TaskIdle (set_log (set_inflight false l1) y)
  else set_task (TaskFlushing (generation c) (pending_max c) (pending_replies c)) (set_log l1 y).

(** The re-check after clearing [inflight]: work that slipped in re-arms the task. *)
Definition fsync_recheck (y : Sys) : Sys :=
  let c := fsync_coordinator (sys_log y) in
  if ((0 <? pending_max c) || negb (bool_decide (pending_replies c = []))) && negb (inflight c)
  then set_task TaskRound (set_log (set_inflight true (sys_log y)) y)
  else y.

(** The physical flush. *)
Definition fsync_flush (y : Sys) : Sys :=
  match sys_task y with
  | TaskFlushing g mx rs =>
      if is_write_durable (sys_store y) then set_task (TaskFlushed g mx rs (Ok tt)) y
      else let '(s', r) := store_flush (sys_store y) in
           set_task (TaskFlushed g mx rs r) (set_store s' y)
  | _ => y
  end.

Definition fsync_failed_error : error := Fatal "WAL fsync failed".

(** The fence check and the publication of the result. *)
Definition fsync_complete (y : Sys) : Sys :=
  match sys_task y with
  | TaskFlushed g mx rs r =>
      let l := sys_log y in
      set_task TaskRound
        (set_log
           (if negb (generation (fsync_coordinator l) =? g)
            then send_replies rs (Err stale_generation_error) l
            else match r with
                 | Ok _ => send_replies rs (Ok tt) (advance_durable_and_notify l mx)
                 | Err _ => send_replies rs (Err fsync_failed_error) (mark_poisoned_and_notify l)
                 end) y)
  | _ => y
  end.
End io.
Arguments Sys : clear implicits.
