(* ===== verification/Durability.v ===== *)
(** * Soundness of the durability watermark

    [durable_index] is what the leader counts as its own acknowledgement, so every
    live entry at or below it must survive a power loss. [sys_step] interleaves the
    raft loop's operations with the IO thread's turns and the fsync task's rounds;
    without the conflict truncations and resets of a follower ([sys_step false])
    [dur_inv] is inductive over any store that satisfies [LogStoreLaws]. With them it
    is not: [LogProps] shows a truncation after which the watermark is too high. *)

From stdpp Require Import base tactics numbers option list gmap.
From S2P Require Import Prelude Types TermSegments BufferedLog LogInv LogSpec LogStore IoThread.

(** The batch continues the log, or the durable prefix when the log is empty
    (first entries, or the entries after a snapshot boundary). *)
Definition appendable (m : LogMem) (es : list Entry) : Prop :=
  extends m es ∧ (max_index m = 0 → contiguous e_index (durable_index m + 1) es).

(** ** The invariant on the data *)

Record dur_core (m : LogMem) (view : gmap N Entry) (stable : N → Entry → Prop) (mark : N) (ok : Prop)
    (flushed : option N) : Prop := mk_dur_core {
  dc_log : log_inv m;
  dc_stable : ok → ∀ i e, entries m !! i = Some e → i <= durable_index m → stable i e;
  dc_view : ok → ∀ i e, entries m !! i = Some e → i <= N.max (durable_index m) mark → view !! i = Some e;
  dc_flushed : ok → ∀ mx i e, flushed = Some mx → entries m !! i = Some e → i <= mx → stable i e;
  dc_fmark : ∀ mx, flushed = Some mx → mx <= mark;
  dc_mark : mark <= N.max (durable_index m) (max_index m);
  dc_empty : durable_index m <= max_index m ∨ max_index m = 0;
}.

Lemma dur_core_weaken m view stable mark mark' (ok ok' : Prop) fl fl' :
  dur_core m view stable mark ok fl → mark' <= mark → (ok' → ok) →
  (∀ mx, fl' = Some mx → fl = Some mx ∧ mx <= mark') →
  dur_core m view stable mark' ok' fl'.
Proof.
  intros [? ? Hv Hf Hm ? ?] Hmark Hok Hfl. split; [done|by auto| | | |lia|done].
  - intros Hok' i e He Hi. apply (Hv (Hok Hok')); [done|lia].
  - intros Hok' mx i e [Hmx _]%Hfl. by apply (Hf (Hok Hok')).
  - intros mx [_ Hmx]%Hfl. done.
Qed.

Lemma dur_core_append m view stable mark ok fl es :
  dur_core m view stable mark ok fl → appendable m es →
  dur_core (insert_to_memory m es) view stable mark ok fl.
Proof.
  intros [Hinv Hs Hv Hf Hfm Hm He] [Hext Hstart]. pose proof Hext as (Hne & _ & s & Hs0 & Hs1 & Hc & _).
  assert (Hc' : ∃ s', contiguous e_index s' es ∧ N.max (durable_index m) (max_index m) < s').
  { destruct (decide (max_index m = 0)) as [H0|H0].
    - exists (durable_index m + 1). split; [auto|lia].
    - exists s. split; [done|lia]. }
  clear s Hs0 Hs1 Hc. destruct Hc' as (s & Hc & Hlt).
  assert (Hold : ∀ i e, i <= N.max (durable_index m) (max_index m) →
    insert_entries (entries m) es !! i = Some e → entries m !! i = Some e).
  { intros i e Hi. rewrite (lookup_insert_entries _ _ _ _ Hc). case_decide; [lia|done]. }
  assert (Hmx : max_index m <= max_index (insert_to_memory m es) ∧
                durable_index m <= max_index (insert_to_memory m es)).
  { destruct (last es) as [la|] eqn:Hla; [|by apply last_None in Hla].
    pose proof (contiguous_last _ _ _ _ Hc Hla). destruct es as [|f es']; [done|]. simpl in Hla |- *.
    rewrite Hla. simpl in *. case_bool; lia. }
  split; [by apply insert_to_memory_inv| | | |done| |].
  - intros Hok i e Hi Hd. apply (Hs Hok); [|done]. apply Hold; [simpl in Hd; lia|done].
  - intros Hok i e Hi Hd. apply (Hv Hok); [|done]. apply Hold; [simpl in Hd; lia|done].
  - intros Hok mx i e Hmxe Hi Hd. apply (Hf Hok mx); [done| |done]. specialize (Hfm mx Hmxe).
    apply Hold; [lia|done].
  - change (durable_index (insert_to_memory m es)) with (durable_index m). lia.
  - left. apply Hmx.
Qed.

Lemma purge_prefix_dom m cutoff i e :
  entries (purge_prefix m cutoff) !! i = Some e ↔ entries m !! i = Some e ∧ lid_index cutoff < i.
Proof. simpl. rewrite lookup_remove_range. case_decide; naive_solver lia. Qed.

Lemma purge_prefix_max m cutoff :
  log_inv m →
  (max_index (purge_prefix m cutoff) = 0 ∧ max_index m <= lid_index cutoff) ∨
  (max_index (purge_prefix m cutoff) = max_index m ∧ lid_index cutoff < max_index m).
Proof.
  intros Hinv. pose proof (purge_prefix_inv m cutoff Hinv) as Hinv'.
  pose proof (purge_prefix_dom m cutoff) as Hd. set (m' := purge_prefix m cutoff) in *.
  pose proof (inv_zero m' Hinv'). pose proof (inv_order m' Hinv').
  pose proof (inv_zero m Hinv). pose proof (inv_order m Hinv).
  assert (Hlive : 0 < max_index m' → max_index m' <= max_index m ∧ lid_index cutoff < max_index m').
  { intros Hpos. destruct (proj2 (inv_dom m' Hinv' (max_index m'))) as [e He]; [lia|].
    apply Hd in He as [He ?]. split; [|done]. apply (inv_dom m Hinv (max_index m')). eauto. }
  destruct (decide (lid_index cutoff < max_index m)) as [Hlt|Hge]; [right|left].
  - split; [|done]. destruct (proj2 (inv_dom m Hinv (max_index m))) as [e He]; [lia|].
    assert (is_Some (entries m' !! max_index m)) as Hi%(inv_dom m' Hinv').
    { exists e. by apply Hd. }
    lia.
  - lia.
Qed.

Lemma dur_core_purge m view stable mark ok fl cutoff :
  dur_core m view stable mark ok fl →
  dur_core (set_durable (N.max (durable_index m) (lid_index cutoff)) (purge_prefix m cutoff))
    view stable mark ok fl.
Proof.
  intros [Hinv Hs Hv Hf Hfm Hm He]. pose proof (purge_prefix_max m cutoff Hinv) as Hmax.
  pose proof (purge_prefix_dom m cutoff) as Hdom.
  split; [by destruct (purge_prefix_inv m cutoff Hinv)| | | |done| |];
    cbn [set_durable durable_index entries max_index].
  - intros Hok i e [Hi ?]%Hdom ?. apply (Hs Hok); [done|lia].
  - intros Hok i e [Hi ?]%Hdom ?. apply (Hv Hok); [done|lia].
  - intros Hok mx i e Hmx [Hi ?]%Hdom ?. by apply (Hf Hok mx).
  - lia.
  - lia.
Qed.

Lemma dur_core_advance m view stable mark ok mx :
  dur_core m view stable mark ok (Some mx) →
  dur_core (set_durable (N.max (durable_index m) mx) m) view stable mark ok None.
Proof.
  intros [Hinv Hs Hv Hf Hfm Hm He]. specialize (Hfm mx eq_refl).
  split; [by destruct Hinv| | |done|done| |]; cbn [set_durable durable_index entries max_index].
  - intros Hok i e Hi Hle. destruct (decide (i <= durable_index m)); [by apply Hs|].
    apply (Hf Hok mx); [done|done|lia].
  - intros Hok i e Hi Hle. apply (Hv Hok); [done|lia].
  - lia.
  - lia.
Qed.

Lemma dur_core_bad m view view' stable stable' mark mark' ok (ok' : Prop) fl fl' :
  dur_core m view stable mark ok fl → ¬ ok' → mark' <= mark →
  (∀ mx, fl' = Some mx → mx <= mark') → dur_core m view' stable' mark' ok' fl'.
Proof. intros [] Hok Hm Hfl. split; (done || naive_solver lia). Qed.

Section laws.
Context {S : Type} `{LogStoreLaws S}.

Lemma dur_core_persist m (s s' : S) mark ok fl from :
  dur_core m (ls_view s) (ls_survives s) mark ok fl → (ok → ls_ok s) →
  persist_entries s (get_entries_range m from (max_index m)) = (s', Ok tt) →
  from <= N.max (durable_index m) mark + 1 →
  dur_core m (ls_view s') (ls_survives s') (N.max mark (max_index m)) ok fl.
Proof.
  intros [Hinv Hs Hv Hf Hfm Hm He] Hsok Hp Hfrom.
  assert (Hin : ∀ i e, entries m !! i = Some e → from <= i → i <= max_index m →
    e ∈ get_entries_range m from (max_index m)).
  { intros i e Hi ? ?. destruct (inv_entry m Hinv _ _ Hi) as [<- _].
    by apply get_entries_range_elem. }
  assert (Huniq : ∀ i e, entries m !! i = Some e → ∀ e', e' ∈ get_entries_range m from (max_index m) →
    e_index e' = i → e' = e).
  { intros i e Hi e' (He' & _)%get_entries_range_elem Hidx; [|done]. congruence. }
  assert (Hst : ok → ∀ i e, entries m !! i = Some e → ls_survives s i e → ls_survives s' i e).
  { intros Hok i e Hi Hst. eapply persist_survives; eauto. }
  split; [done| | | | | |done].
  - intros Hok i e Hi Hd. auto.
  - intros Hok i e Hi Hd. rewrite (persist_view _ _ _ (Hsok Hok) Hp).
    assert (Hle : i <= max_index m) by (apply (inv_dom m Hinv i); eauto).
    destruct (decide (i <= N.max (durable_index m) mark)) as [Hw|Hw].
    + apply insert_entries_keep; [by apply Hv|by eauto].
    + specialize (Hin i e Hi ltac:(lia) Hle). destruct (inv_entry m Hinv _ _ Hi) as [Hidx _].
      eapply insert_entries_in; eauto.
  - intros Hok mx i e Hmx Hi Hle. apply Hst; [done|done|]. by eapply Hf.
  - intros mx Hmx. specialize (Hfm mx Hmx). lia.
  - lia.
Qed.

Lemma dur_core_flush m (s s' : S) mark ok mx :
  dur_core m (ls_view s) (ls_survives s) mark ok None → mx <= mark →
  (ok → ls_view s' = ls_view s) → (ok → ∀ i e, ls_view s !! i = Some e → ls_survives s' i e) →
  dur_core m (ls_view s') (ls_survives s') mark ok (Some mx).
Proof.
  intros [Hinv Hs Hv Hf Hfm Hm He] Hmx Hview Hsv. split; [done| | | | |done|done].
  - intros Hok i e Hi Hd. apply (Hsv Hok), Hv; [done|done|lia].
  - intros Hok i e Hi Hd. rewrite (Hview Hok). by apply Hv.
  - intros Hok mx' i e [= <-] Hi Hle. apply (Hsv Hok), Hv; [done|done|lia].
  - intros mx' [= <-]. done.
Qed.

Lemma dur_core_store_purge m (s s' : S) mark ok fl cutoff :
  dur_core m (ls_view s) (ls_survives s) mark ok fl → (ok → ls_ok s) →
  (∀ i, is_Some (entries m !! i) → lid_index cutoff < i) →
  store_purge s cutoff = (s', Ok tt) →
  dur_core m (ls_view s') (ls_survives s') mark ok fl.
Proof.
  intros [Hinv Hs Hv Hf Hfm Hm He] Hsok Hlive Hp. split; [done| | | |done|done|done].
  - intros Hok i e Hi Hd. eapply purge_survives; [by auto|done|apply Hlive; eauto| |by apply Hs].
    apply Hv; [done|done|lia].
  - intros Hok i e Hi Hd. rewrite (purge_view _ _ _ _ (Hsok Hok) Hp); [by apply Hv|]. apply Hlive; eauto.
  - intros Hok mx i e Hmx Hi Hle. specialize (Hfm mx Hmx).
    eapply purge_survives; [by auto|done|apply Hlive; eauto| |by eapply Hf]. apply Hv; [done|done|lia].
Qed.
End laws.

(** ** The system *)

Section system.
Context {S : Type} `{LogStoreLaws S}.
Implicit Types y : Sys S.

Definition task_mark (t : FsyncTask) : N :=
  match t with TaskFlushing _ mx _ | TaskFlushed _ mx _ _ => mx | _ => 0 end.

(** The highest index in the page cache that an fsync is still owed for. *)
Definition sys_mark y : N :=
  N.max (sys_pending y)
    (N.max (pending_max (fsync_coordinator (sys_log y))) (task_mark (sys_task y))).

Definition task_failed (t : FsyncTask) : Prop :=
  match t with TaskFlushed _ _ _ (Err _) => True | _ => False end.

(** No storage operation has failed. *)
Definition healthy y : Prop := poisoned (sys_log y) = false ∧ ¬ task_failed (sys_task y).

Definition task_flushed (t : FsyncTask) : option N :=
  match t with TaskFlushed _ mx _ (Ok _) => Some mx | _ => None end.

Definition task_gen_ok (g : N) (t : FsyncTask) : Prop :=
  match t with TaskFlushing g' _ _ | TaskFlushed g' _ _ _ => g' = g | _ => True end.

(** Queued commands: purges whose in-memory part is done, flushes, shutdown. *)
Definition command_ok (m : LogMem) (c : IOTask) : Prop :=
  match c with
  | Purge cutoff _ =>
      lid_index cutoff <= durable_index m ∧ ∀ i, is_Some (entries m !! i) → lid_index cutoff < i
  | Flush _ | Shutdown => True
  | _ => False
  end.

Record dur_inv y : Prop := mk_dur_inv {
  di_core : dur_core (mem (sys_log y)) (ls_view (sys_store y)) (ls_survives (sys_store y))
              (sys_mark y) (healthy y) (task_flushed (sys_task y));
  di_ok : healthy y → ls_ok (sys_store y);
  di_gen : task_gen_ok (generation (fsync_coordinator (sys_log y))) (sys_task y);
  di_queue : Forall (command_ok (mem (sys_log y))) (command_queue (sys_log y));
  di_inflight : inflight (fsync_coordinator (sys_log y)) = false → sys_task y = TaskIdle;
}.

(** One step: an operation of the raft loop, of the IO thread, or of the fsync task.
    [cuts] tells whether the log may be cut: a replicated batch that removes a
    conflicting suffix or replaces the log, and a reset. *)
Inductive sys_step (cuts : bool) : Sys S → Sys S → Prop :=
  | step_replicate y prev pt es done reply l' r :
      cuts = true → filter_out_conflicts_and_append (sys_log y) prev pt es done reply = Some (l', r) →
      sys_step cuts y (set_log l' y)
  | step_reset y done reply :
      cuts = true → sys_step cuts y (set_log (reset_internal (sys_log y) done reply).1 y)
  | step_append y es :
      appendable (mem (sys_log y)) es →
      sys_step cuts y (set_log (append_entries (sys_log y) es).1 y)
  | step_purge y cutoff done reply :
      sys_step cuts y (set_log (purge_logs_up_to (sys_log y) cutoff done reply).1 y)
  | step_flush y tx reply :
      sys_step cuts y (set_log (flush (sys_log y) tx reply).1 y)
  | step_notified y :
      sys_pc y = PcSelect → write_notify (sys_log y) = true → sys_step cuts y (on_notified y)
  | step_command y y' :
      sys_pc y = PcSelect → on_command y = Some y' → sys_step cuts y y'
  | step_tick y : sys_pc y = PcSelect → sys_step cuts y (on_safety_tick y)
  | step_recv y y' : turn_recv y = Some y' → sys_step cuts y y'
  | step_submit y : sys_step cuts y (turn_submit y)
  | step_pickup y : sys_task y = TaskRound → sys_step cuts y (fsync_pickup y)
  | step_recheck y : sys_task y = TaskIdle → sys_step cuts y (fsync_recheck y)
  | step_fsync y : sys_step cuts y (fsync_flush y)
  | step_complete y : sys_step cuts y (fsync_complete y).

(** Steps that touch none of the data: reply channels, events, program points. *)
Lemma dur_inv_frame y y' :
  dur_inv y → mem (sys_log y') = mem (sys_log y) →
  fsync_coordinator (sys_log y') = fsync_coordinator (sys_log y) →
  poisoned (sys_log y') = poisoned (sys_log y) → sys_store y' = sys_store y →
  sys_pending y' = sys_pending y → sys_task y' = sys_task y →
  Forall (command_ok (mem (sys_log y))) (command_queue (sys_log y')) → dur_inv y'.
Proof.
  intros [Hc Hok Hg Hq Hi] Hm Hco Hp Hs Hpe Ht Hq'.
  split; unfold sys_mark, healthy in *; rewrite ?Hm, ?Hco, ?Hp, ?Hs, ?Hpe, ?Ht; done.
Qed.

#[local] Ltac frame Hinv := eapply dur_inv_frame; [exact Hinv|done..|].

Lemma dur_inv_queue y : dur_inv y → Forall (command_ok (mem (sys_log y))) (command_queue (sys_log y)).
Proof. by intros []. Qed.

Lemma dur_inv_set_pc y pc : dur_inv y → dur_inv (set_pc pc y).
Proof. intros Hinv. frame Hinv. by apply (dur_inv_queue y). Qed.

Lemma dur_inv_replies y rs r : dur_inv y → dur_inv (set_log (send_replies rs r (sys_log y)) y).
Proof. intros Hinv. frame Hinv. by apply (dur_inv_queue y). Qed.

Lemma dur_inv_close y : dur_inv y → dur_inv (close_io y).
Proof. intros Hinv. frame Hinv. by apply (dur_inv_queue y). Qed.

Lemma dur_inv_pop y c q :
  dur_inv y → command_queue (sys_log y) = c :: q →
  dur_inv (set_log (set_queue q (sys_log y)) y) ∧ command_ok (mem (sys_log y)) c.
Proof.
  intros Hinv Hq. pose proof (dur_inv_queue y Hinv) as Hall. rewrite Hq in Hall.
  inversion Hall; subst. split; [|done]. by frame Hinv.
Qed.

Lemma dur_inv_poison y s' :
  dur_inv y → dur_inv (set_log (mark_poisoned_and_notify (sys_log y)) (set_store s' y)).
Proof.
  intros [Hc Hok Hg Hq Hi]. split; simpl; [|by intros [? _]|done..].
  eapply dur_core_bad; [exact Hc|by intros [? _]|done|].
  intros mx Hmx. by apply (dc_fmark _ _ _ _ _ _ Hc).
Qed.

Lemma dur_inv_persist y from :
  dur_inv y → from <= N.max (durable_index (mem (sys_log y))) (sys_mark y) + 1 →
  dur_inv (persist_pending_range y from (max_index (mem (sys_log y)))).1.
Proof.
  intros Hinv Hfrom. unfold persist_pending_range.
  destruct (poisoned (sys_log y)) eqn:Hp; [done|]. case_bool; [done|].
  destruct (get_entries_range _ _ _) as [|e es] eqn:Hes; [done|]. rewrite <-Hes.
  destruct (persist_entries _ _) as [s' [[]|err]] eqn:Hpe; simpl; [|by apply dur_inv_poison].
  destruct Hinv as [Hc Hok Hg Hq Hi]. split; simpl; [|by eauto using persist_ok|done..].
  pose proof (dur_core_persist _ _ _ _ _ _ _ Hc Hok Hpe Hfrom) as Hc'.
  eapply dur_core_weaken; [exact Hc'| |done|].
  - unfold sys_mark. simpl. lia.
  - intros mx Hmx. split; [done|]. apply (dc_fmark _ _ _ _ _ _ Hc') in Hmx as Hle.
    pose proof (dc_fmark _ _ _ _ _ _ Hc _ Hmx). unfold sys_mark in *. simpl in *. lia.
Qed.

Lemma dur_inv_submit y rs : dur_inv y → dur_inv (set_pending 0 (submit y (sys_pending y) rs)).
Proof.
  intros [Hc Hok Hg Hq Hi]. unfold submit.
  assert (Hpm : (if 0 <? sys_pending y
    then N.max (pending_max (fsync_coordinator (sys_log y))) (sys_pending y)
    else pending_max (fsync_coordinator (sys_log y))) =
    N.max (pending_max (fsync_coordinator (sys_log y))) (sys_pending y)) by (case_bool; lia).
  rewrite Hpm. destruct (inflight (fsync_coordinator (sys_log y))) eqn:Hfl.
  - split; simpl; [|done..]. eapply dur_core_weaken; [exact Hc| |done|].
    + unfold sys_mark. simpl. lia.
    + intros mx Hmx. split; [done|]. apply (dc_fmark _ _ _ _ _ _ Hc) in Hmx.
      unfold sys_mark in *. simpl in *. lia.
  - specialize (Hi eq_refl).
    assert (Hh : ∀ y', poisoned (sys_log y') = poisoned (sys_log y) → healthy y' → healthy y).
    { unfold healthy. rewrite Hi. intros y' ->. naive_solver. }
    split; simpl; [|by intros ?%Hh; auto|done..].
    eapply dur_core_weaken; [exact Hc| |by apply Hh|done].
    unfold sys_mark. simpl. rewrite Hi. simpl. lia.
Qed.

Lemma dur_inv_command c y y' b :
  dur_inv y → command_ok (mem (sys_log y)) c → handle_non_write_cmd c y = Some (y', b) → dur_inv y'.
Proof.
  intros Hinv Hc. destruct c as [|cutoff dn|?|?|]; simpl in Hc |- *; try done.
  destruct Hc as [_ Hlive]. destruct (poisoned (sys_log y)); [intros [= <- _]; by apply dur_inv_replies|].
  destruct (store_purge (sys_store y) cutoff) as [s' [[]|err]] eqn:Hp; intros [= <- _].
  - destruct Hinv as [Hco Hok Hg Hq Hi]. split; simpl; [|by eauto using purge_ok|done..].
    eapply dur_core_store_purge; eauto.
  - apply (dur_inv_poison _ s') in Hinv. frame Hinv. by apply (dur_inv_queue _ Hinv).
Qed.

Lemma dur_inv_turn_begin y rs seen : dur_inv y → dur_inv (turn_begin y rs seen).
Proof.
  intros Hinv. unfold turn_begin.
  pose proof (dur_inv_persist y (durable_index (mem (sys_log y)) + 1) Hinv ltac:(lia)) as Hp.
  destruct (persist_pending_range _ _ _) as [y1 [?|?]]; simpl in Hp.
  - by apply dur_inv_set_pc.
  - by apply dur_inv_set_pc, dur_inv_replies.
Qed.

Lemma command_ok_mono m m' c :
  (∀ i, is_Some (entries m' !! i) → is_Some (entries m !! i) ∨ durable_index m < i) →
  durable_index m <= durable_index m' → command_ok m c → command_ok m' c.
Proof.
  intros Hl Hd. destruct c as [|cutoff ?|?|?|]; simpl; try done.
  intros [Hle Hlive]. split; [lia|]. intros i [Hi|Hi]%Hl; [auto|lia].
Qed.

Lemma dur_inv_append y es :
  dur_inv y → appendable (mem (sys_log y)) es → dur_inv (set_log (append_entries (sys_log y) es).1 y).
Proof.
  intros [Hc Hok Hg Hq Hi] Happ. unfold append_entries.
  destruct (poisoned (sys_log y)) eqn:Hp; [by constructor|].
  destruct es as [|e es']; [by constructor|]. set (es := e :: es') in *.
  split; cbn [fst set_log sys_log sys_task notify_one set_mem mem command_queue fsync_coordinator];
    [|intros [_ Ht]; apply Hok; by split|done| |done].
  - pose proof (dur_core_append _ _ _ _ _ _ _ Hc Happ) as Hc'.
    eapply dur_core_weaken; [exact Hc'|done| |].
    + unfold healthy. simpl. by rewrite Hp.
    + intros mx Hmx. split; [done|]. by apply (dc_fmark _ _ _ _ _ _ Hc).
  - eapply Forall_impl; [exact Hq|]. intros c. apply command_ok_mono; [|done].
    intros i [e1 [He1|[<- He1]]%insert_entries_Some]; [left; eauto|right].
    destruct Happ as [(_ & _ & s & _ & Hs & Hcs & _) Hz0].
    pose proof (dc_empty _ _ _ _ _ _ Hc).
    destruct (decide (max_index (mem (sys_log y)) = 0)) as [Hz|Hz].
    + specialize (Hz0 Hz). pose proof (contiguous_elem _ _ _ _ Hz0 He1). lia.
    + pose proof (contiguous_elem _ _ _ _ Hcs He1). lia.
Qed.

Lemma send_command_app t l l' :
  send_command t l = Some l' →
  mem l' = mem l ∧ fsync_coordinator l' = fsync_coordinator l ∧ poisoned l' = poisoned l ∧
  command_queue l' = command_queue l ++ [t].
Proof. unfold send_command. destruct (io_open l); [|done]. by intros [= <-]. Qed.

Lemma dur_inv_send y t l' :
  dur_inv y → command_ok (mem (sys_log y)) t → send_command t (sys_log y) = Some l' →
  dur_inv (set_log l' y).
Proof.
  intros Hinv Ht (Hm & Hco & Hp & Hq)%send_command_app.
  eapply dur_inv_frame; [exact Hinv|done..|]. simpl. rewrite Hq.
  apply Forall_app. split; [by apply dur_inv_queue|by repeat constructor].
Qed.

Lemma dur_inv_purge y cutoff done reply :
  dur_inv y → dur_inv (set_log (purge_logs_up_to (sys_log y) cutoff done reply).1 y).
Proof.
  intros Hinv. unfold purge_logs_up_to.
  set (l2 := advance_durable_and_notify _ _).
  assert (Hm2 : mem l2 = set_durable (N.max (durable_index (mem (sys_log y))) (lid_index cutoff))
    (purge_prefix (mem (sys_log y)) cutoff)).
  { unfold l2, advance_durable_and_notify. simpl. case_bool; done. }
  assert (Hinv2 : dur_inv (set_log l2 y)).
  { destruct Hinv as [Hc Hok Hg Hq Hi].
    assert (Hco2 : fsync_coordinator l2 = fsync_coordinator (sys_log y) ∧
      poisoned l2 = poisoned (sys_log y) ∧ command_queue l2 = command_queue (sys_log y)).
    { unfold l2, advance_durable_and_notify. case_bool; done. }
    destruct Hco2 as (Hco2 & Hp2 & Hq2).
    split; unfold sys_mark, healthy; simpl; rewrite ?Hm2, ?Hco2, ?Hp2, ?Hq2; [|done|done| |done].
    - by apply dur_core_purge.
    - eapply Forall_impl; [exact Hq|]. intros c. apply command_ok_mono; [|simpl; lia].
      intros i [e [He _]%purge_prefix_dom]. left. eauto. }
  assert (Hok : command_ok (mem l2) (Purge cutoff done)).
  { simpl. rewrite Hm2. split; [simpl; lia|]. by intros i [e [_ Hlt]%purge_prefix_dom]. }
  destruct (send_command (Purge cutoff done) l2) as [l3|] eqn:Hsend; [|done].
  eapply (dur_inv_send (set_log l2 y)) in Hinv2; eauto.
Qed.

Lemma dur_inv_on_command y y' : dur_inv y → on_command y = Some y' → dur_inv y'.
Proof.
  intros Hinv. unfold on_command. destruct (command_queue (sys_log y)) as [|c q] eqn:Hq; [by intros [= <-]|].
  destruct (dur_inv_pop y c q Hinv Hq) as [Hpop Hok].
  destruct c as [| | | |]; try done.
  - destruct (handle_non_write_cmd _ _) as [[y1 b]|] eqn:Hh; [|done]. intros [= <-].
    eapply dur_inv_command in Hh; [|done..]. destruct b; [by apply dur_inv_close|done].
  - intros [= <-]. by apply dur_inv_turn_begin.
  - intros [= <-]. by apply dur_inv_turn_begin.
Qed.

Lemma dur_inv_recv y y' : dur_inv y → turn_recv y = Some y' → dur_inv y'.
Proof.
  intros Hinv. unfold turn_recv.
  destruct (sys_pc y) as [|rs seen failed|rs seen failed|]; try by intros [= <-].
  destruct (command_queue (sys_log y)) as [|c q] eqn:Hq; [intros [= <-]; by apply dur_inv_set_pc|].
  destruct (dur_inv_pop y c q Hinv Hq) as [Hpop Hok].
  destruct c as [| | | |]; try done; try (intros [= <-]; by apply dur_inv_set_pc).
  destruct (handle_non_write_cmd _ _) as [[y1 b]|] eqn:Hh; [|done].
  eapply dur_inv_command in Hh; [|done..].
  destruct b; intros [= <-]; [by apply dur_inv_close, dur_inv_replies|done].
Qed.

Lemma dur_inv_tick y : dur_inv y → dur_inv (on_safety_tick y).
Proof.
  intros Hinv. unfold on_safety_tick.
  pose proof (dur_inv_persist y (durable_index (mem (sys_log y)) + 1) Hinv ltac:(lia)) as Hp.
  case_bool; [by apply dur_inv_submit|done].
Qed.

Lemma dur_inv_turn_submit y : dur_inv y → dur_inv (turn_submit y).
Proof.
  intros Hinv. unfold turn_submit. destruct (sys_pc y) as [|rs seen failed|rs seen failed|]; try done.
  set (y4 := if negb (bool_decide (rs = [])) && negb failed
    then (persist_pending_range y (sys_pending y + 1) (max_index (mem (sys_log y)))).1 else y).
  assert (dur_inv y4) as Hy4%(dur_inv_submit y4 rs).
  { unfold y4. case_match; [|done]. apply dur_inv_persist; [done|]. unfold sys_mark. lia. }
  destruct seen; [by apply dur_inv_close|by apply dur_inv_set_pc].
Qed.

Lemma dur_inv_pickup y : dur_inv y → sys_task y = TaskRound → dur_inv (fsync_pickup y).
Proof.
  intros [Hc Hok Hg Hq Hi] Ht. unfold fsync_pickup. rewrite Ht in Hc, Hi. simpl in Hc.
  assert (Hw : ∀ (mark : N) (ok : Prop), mark <= sys_mark y → (ok → healthy y) →
    dur_core (mem (sys_log y)) (ls_view (sys_store y)) (ls_survives (sys_store y)) mark ok None).
  { intros mark ok Hm Hh. by eapply dur_core_weaken. }
  assert (Hh : poisoned (sys_log y) = false → healthy y).
  { intros Hp. split; [done|]. rewrite Ht. by intros []. }
  destruct (poisoned (sys_log y)) eqn:Hp; [|case_match];
    (split; [|intros [Hp1 _]; simpl in Hp1; first [congruence|by auto]|done|done|first [done|by intros ?%Hi]]); apply Hw; simpl; unfold sys_mark, healthy; simpl; rewrite ?Ht; simpl; try lia;
    naive_solver.
Qed.

Lemma dur_inv_recheck y : dur_inv y → sys_task y = TaskIdle → dur_inv (fsync_recheck y).
Proof.
  intros Hinv Ht. unfold fsync_recheck. case_match; [|done].
  destruct Hinv as [Hc Hok Hg Hq Hi].
  split; simpl; [|intros [? _]; apply Hok; split; [done|by rewrite Ht; intros []]|done..].
  rewrite Ht in Hc. eapply dur_core_weaken; [exact Hc| | |done].
  - unfold sys_mark. simpl. rewrite Ht. simpl. lia.
  - unfold healthy. simpl. rewrite Ht. naive_solver.
Qed.

Lemma dur_inv_fsync y : dur_inv y → dur_inv (fsync_flush y).
Proof.
  intros Hinv. unfold fsync_flush. destruct (sys_task y) as [| |g mx rs|] eqn:Ht; try done.
  destruct Hinv as [Hc Hok Hg Hq Hi]. rewrite Ht in Hc, Hg, Hi. simpl in Hc.
  assert (Hmx : mx <= sys_mark y) by (unfold sys_mark; rewrite Ht; simpl; lia).
  assert (Hh : poisoned (sys_log y) = false → healthy y).
  { intros Hp. split; [done|]. rewrite Ht. by intros []. }
  destruct (is_write_durable (sys_store y)) eqn:Hwd.
  - split; simpl; [|intros [? _]; by auto|done|done|by intros ?%Hi].
    eapply dur_core_weaken;
      [eapply dur_core_flush; [exact Hc|exact Hmx|done|intros ?; by eauto using write_durable_survives]| | |].
    + unfold sys_mark. simpl. by rewrite Ht.
    + unfold healthy at 1. simpl. naive_solver.
    + intros mx' [= <-]. split; [done|]. unfold sys_mark. simpl. lia.
  - destruct (store_flush (sys_store y)) as [s' [[]|err]] eqn:Hf;
      (split; simpl; [|intros [? Hnf]|done|done|by intros ?%Hi]).
    + eapply dur_core_weaken;
        [eapply (dur_core_flush _ _ s'); [exact Hc|exact Hmx|by eauto using flush_view|by eauto using flush_survives]| | |].
      * unfold sys_mark. simpl. by rewrite Ht.
      * unfold healthy at 1. simpl. naive_solver.
      * intros mx' [= <-]. split; [done|]. unfold sys_mark. simpl. lia.
    + eapply flush_ok; [|exact Hf]. by auto.
    + eapply dur_core_bad; [exact Hc|unfold healthy; simpl; tauto| |done].
      unfold sys_mark. simpl. by rewrite Ht.
    + by destruct Hnf.
Qed.

Lemma dur_inv_complete y : dur_inv y → dur_inv (fsync_complete y).
Proof.
  intros Hinv. unfold fsync_complete. destruct (sys_task y) as [| | |g mx rs r] eqn:Ht; try done.
  destruct Hinv as [Hc Hok Hg Hq Hi]. rewrite Ht in Hc, Hg, Hi. simpl in Hc, Hg. subst g.
  rewrite N.eqb_refl. simpl. destruct r as [[]|err].
  - set (l' := advance_durable_and_notify (sys_log y) mx).
    assert (Hl : mem l' = set_durable (N.max (durable_index (mem (sys_log y))) mx) (mem (sys_log y)) ∧
      fsync_coordinator l' = fsync_coordinator (sys_log y) ∧ poisoned l' = poisoned (sys_log y) ∧
      command_queue l' = command_queue (sys_log y)).
    { unfold l', advance_durable_and_notify. case_bool; done. }
    destruct Hl as (Hm & Hco & Hp & Hqe).
    split; unfold sys_mark, healthy; simpl; rewrite ?Hm, ?Hco, ?Hp, ?Hqe;
      [|intros [? _]; apply Hok; split; [done|by rewrite Ht; intros []]|done| |by intros ?%Hi].
    + eapply dur_core_weaken; [eapply dur_core_advance; exact Hc| | |done].
      * unfold sys_mark. rewrite Ht. simpl. lia.
      * unfold healthy. rewrite Ht. simpl. naive_solver.
    + eapply Forall_impl; [exact Hq|]. intros c. apply command_ok_mono; [|simpl; lia]. intros i ?. by left.
  - split; simpl; [|by intros [? _]|done|done|by intros ?%Hi].
    eapply dur_core_bad; [exact Hc|unfold healthy; simpl; naive_solver| |done].
    unfold sys_mark. simpl. rewrite Ht. simpl. lia.
Qed.

Lemma dur_inv_step y y' : dur_inv y → sys_step false y y' → dur_inv y'.
Proof.
  intros Hinv Hstep.
  destruct Hstep as [|y dn reply|y es Happ|y cutoff dn reply|y tx reply|y Hpc Hn|y y' Hpc Hcmd|y Hpc
                    |y y' Hrecv|y|y Ht|y Ht|y|y]; [done|done|..].
  - by apply dur_inv_append.
  - by apply dur_inv_purge.
  - unfold flush. case_match; [by destruct Hinv|]. case_match; [by destruct Hinv|].
    destruct (send_command _ _) as [l1|] eqn:Hs; [|by destruct Hinv]. eapply dur_inv_send; [done| |done]. done.
  - apply dur_inv_turn_begin. eapply dur_inv_frame; [exact Hinv|done..|]. by apply (dur_inv_queue y).
  - by eapply dur_inv_on_command.
  - by apply dur_inv_tick.
  - by eapply dur_inv_recv.
  - by apply dur_inv_turn_submit.
  - by apply dur_inv_pickup.
  - by apply dur_inv_recheck.
  - by apply dur_inv_fsync.
  - by apply dur_inv_complete.
Qed.

Lemma dur_inv_reach y y' : dur_inv y → rtc (sys_step false) y y' → dur_inv y'.
Proof. intros Hinv Hr. induction Hr; eauto using dur_inv_step. Qed.
End system.
