(* ===== verification/LogProps.v ===== *)
(** * Properties of the buffered raft log

    The contract of the [RaftLog] trait ([d-engine-core/src/storage/raft_log.rs])
    for [BufferedRaftLog]: reachable logs are well formed, lookups and range reads
    answer from the entries, conflict resolution is the paper's, commit indices
    have a majority behind them, purging keeps the boundary, [durable_index] is
    sound. The last section holds the executions in which the implementation does
    not keep a promise of the trait. *)

From stdpp Require Import base tactics numbers option list sorting gmap strings.
From S2P Require Import Prelude Types TermSegments BufferedLog LogInv LogSpec LogStore IoThread Durability.

(** ** Reachable logs *)

(** What a replicated batch must satisfy for the log to take it: after index 0 it
    starts at 1; after any other [prev] it is a [valid_batch]. *)
Definition follower_batch (l : BufferedRaftLog) (prev pt : N) (es : list Entry) : Prop :=
  if (prev =? 0) && (pt =? 0)
  then contiguous e_index 1 es ∧ Forall (λ e, e_term e ≠ 0) es ∧ N.of_nat (length es) <= u64_max
  else segments_fit (mem l) ∧ valid_batch (mem l) prev es.

Inductive log_step : BufferedRaftLog → BufferedRaftLog → Prop :=
  | log_append l es : extends (mem l) es → log_step l (append_entries l es).1
  | log_replicate l prev pt es done reply l' r :
      follower_batch l prev pt es →
      filter_out_conflicts_and_append l prev pt es done reply = Some (l', r) → log_step l l'
  | log_purge l cutoff done reply : log_step l (purge_logs_up_to l cutoff done reply).1
  | log_reset l done reply : log_step l (reset_internal l done reply).1
  | log_flush l tx reply : log_step l (flush l tx reply).1
  | log_allocate l count range m' :
      count <= u64_max → pre_allocate_id_range (mem l) count = Some (range, m') → log_step l (set_mem m' l)
  | log_synced l d : log_step l (advance_durable_and_notify l d).

Lemma advance_durable_inv l d : log_inv (mem l) → log_inv (mem (advance_durable_and_notify l d)).
Proof. intros []. unfold advance_durable_and_notify. case_bool; by constructor. Qed.

Lemma send_command_mem t l l' : send_command t l = Some l' → mem l' = mem l.
Proof. unfold send_command. destruct (io_open l); [|done]. by intros [= <-]. Qed.

Lemma reset_internal_mem l done reply :
  mem (reset_internal l done reply).1 = reset_mem (mem l) ∧
  poisoned (reset_internal l done reply).1 = poisoned l.
Proof. unfold reset_internal, send_command. simpl. by destruct (io_open l). Qed.

Lemma reset_append_inv l es :
  log_inv (mem l) → mem l = reset_mem (mem l) → contiguous e_index 1 es →
  Forall (λ e, e_term e ≠ 0) es → N.of_nat (length es) <= u64_max →
  log_inv (mem (append_entries l es).1).
Proof.
  intros Hinv Hm Hc Ht Hl. unfold append_entries. destruct (poisoned l); [done|].
  destruct es as [|e es']; [done|]. simpl. apply (insert_to_memory_inv _ (e :: es')); [done|].
  split; [done|]. split; [done|]. exists 1. split_and!; [lia| |done|lia]. rewrite Hm. simpl. lia.
Qed.

Lemma filter_out_inv l prev pt es done reply l' r :
  log_inv (mem l) → follower_batch l prev pt es →
  filter_out_conflicts_and_append l prev pt es done reply = Some (l', r) → log_inv (mem l').
Proof.
  intros Hinv Hb Heq. unfold follower_batch in Hb.
  destruct ((prev =? 0) && (pt =? 0)) eqn:Hz.
  - destruct Hb as (Hc & Ht & Hl). unfold filter_out_conflicts_and_append in Heq. rewrite Hz in Heq.
    destruct (reset_internal_mem l done reply) as [Hm Hp].
    destruct (reset_internal l done reply) as [l1 [[]|err]]; simpl in Hm, Hp.
    + injection Heq as <- _. simpl. apply reset_append_inv; try done; rewrite Hm; [by apply reset_mem_inv|done].
    + injection Heq as <- _. rewrite Hm. by apply reset_mem_inv.
  - destruct Hb as [Hfit Hvb].
    destruct (decide (known_term (mem l) prev = Some pt)) as [Hk|Hk].
    + destruct (filter_out_delivers l prev pt es done reply Hinv Hfit Hvb) as (l2 & r2 & He & Hi & _); [|done|].
      * intros [-> ->]. done.
      * rewrite Heq in He. by injection He as -> ->.
    + unfold filter_out_conflicts_and_append in Heq. rewrite Hz, entry_term_known in Heq by done.
      rewrite bool_decide_eq_false_2 in Heq by done. simpl in Heq. by injection Heq as <- _.
Qed.

Lemma log_step_inv l l' : log_inv (mem l) → log_step l l' → log_inv (mem l').
Proof.
  intros Hinv Hstep.
  destruct Hstep as [l es He|l prev pt es dn reply l' r Hb Heq|l c dn reply|l dn reply|l tx reply|l count rg m' Hcnt Ha|l d].
  - unfold append_entries. destruct (poisoned l); [done|]. destruct es; [done|].
    simpl. by apply insert_to_memory_inv.
  - by eapply filter_out_inv.
  - unfold purge_logs_up_to.
    assert (log_inv (mem (advance_durable_and_notify (set_mem (purge_prefix (mem l) c) l) (lid_index c)))) as Hi.
    { apply advance_durable_inv. by apply purge_prefix_inv. }
    destruct (send_command _ _) as [l3|] eqn:Hs; [|done]. simpl. by rewrite (send_command_mem _ _ _ Hs).
  - destruct (reset_internal_mem l dn reply) as [-> _]. by apply reset_mem_inv.
  - unfold flush. repeat case_match; try done. simpl. by erewrite send_command_mem.
  - unfold pre_allocate_id_range in Ha. simpl. destruct (count =? 0); [by injection Ha as _ <-|].
    case_bool_in Ha; [|done]. injection Ha as _ <-.
    assert (wrapping_add_u64 (next_id (mem l)) count = next_id (mem l) + count) as Hw.
    { unfold wrapping_add_u64. apply N.mod_small. unfold u64_max in *. lia. }
    destruct Hinv. constructor; try done. simpl. rewrite Hw. lia.
  - by apply advance_durable_inv.
Qed.

Lemma log_reach_inv l l' : log_inv (mem l) → rtc log_step l l' → log_inv (mem l').
Proof. intros Hinv Hr. induction Hr; eauto using log_step_inv. Qed.

(** What the store holds at start-up: consecutive entries [s..=disk_len] (none when
    [s = disk_len + 1]) with valid terms. *)
Record recovered (disk_len s : N) (es : list Entry) : Prop := mk_recovered {
  rc_pos : 0 < s;
  rc_contig : contiguous e_index s es;
  rc_terms : Forall (λ e, e_term e ≠ 0) es;
  rc_len : s + N.of_nat (length es) = disk_len + 1;
  rc_u64 : disk_len <= u64_max;
}.

Lemma recovered_inv d s es b : recovered d s es → log_inv (mem (log_new d (Some es) b)).
Proof. intros []. by eapply new_mem_inv. Qed.

(** A small log used by the witnesses. *)
Definition ent (i t : N) : Entry := mkEntry i t (Some (mkEntryPayload (Some (Command [i])))).
Definition log5 : BufferedRaftLog :=
  log_new 5 (Some [ent 1 1; ent 2 1; ent 3 2; ent 4 2; ent 5 2]) (Some None).

Lemma log5_recovered : recovered 5 1 [ent 1 1; ent 2 1; ent 3 2; ent 4 2; ent 5 2].
Proof. split; [done|done| |done|done]. by repeat constructor. Qed.



(** On every reachable log whose segment array has not overflowed, [entry_term] —
    two atomic loads in the common case — answers exactly what the trait asks for:
    the term of the live entry, the recorded term at the purge boundary, [None]
    elsewhere; and it does not panic. *)
Theorem entry_term_correct d s es b l i :
  recovered d s es → rtc log_step (log_new d (Some es) b) l → segments_fit (mem l) →
  entry_term (mem l) i = Some (known_term (mem l) i).
Proof.
  intros Hr Hl Hf. apply entry_term_known; [|done]. eapply log_reach_inv; [|done]. by eapply recovered_inv.
Qed.

Lemma entry_term_correct_witness : entry_term (mem log5) 3 = Some (Some 2).
Proof.
  apply (entry_term_correct 5 1 [ent 1 1; ent 2 1; ent 3 2; ent 4 2; ent 5 2] (Some None) log5 3);
    [apply log5_recovered|apply rtc_refl|vm_compute; lia].
Defined.

(** On every reachable log, [first_index_for_term] and [last_index_for_term] give the
    least and greatest live index carrying the term, and [None] exactly when no live
    entry carries it. *)
Theorem term_indexes_correct d s es b l t :
  recovered d s es → rtc log_step (log_new d (Some es) b) l →
  (∀ i, first_index_for_term (mem l) t = Some i ↔ is_first_of_term (entries (mem l)) t i) ∧
  (∀ i, last_index_for_term (mem l) t = Some i ↔ is_last_of_term (entries (mem l)) t i) ∧
  (first_index_for_term (mem l) t = None ↔ no_entry_of_term (entries (mem l)) t) ∧
  (last_index_for_term (mem l) t = None ↔ no_entry_of_term (entries (mem l)) t).
Proof.
  intros Hr Hl. destruct (inv_terms (mem l)) as [Hf Hla].
  { eapply log_reach_inv; [|done]. by eapply recovered_inv. }
  unfold first_index_for_term, last_index_for_term. rewrite Hf, Hla. split_and!.
  - apply find_first_of_term_Some.
  - apply find_last_of_term_Some.
  - apply find_first_of_term_None.
  - apply find_last_of_term_None.
Qed.

Lemma term_indexes_correct_witness :
  first_index_for_term (mem log5) 2 = Some 3 ∧ is_first_of_term (entries (mem log5)) 2 3.
Proof.
  split; [done|].
  apply (term_indexes_correct 5 1 [ent 1 1; ent 2 1; ent 3 2; ent 4 2; ent 5 2] (Some None) log5 2);
    [apply log5_recovered|apply rtc_refl|done].
Defined.

(** ** Conflict resolution *)

(** A batch after index 0 of term 0 replaces the log, whatever it holds. *)
Lemma reset_delivers l es done reply :
  log_inv (mem l) → poisoned l = false → contiguous e_index 1 es → Forall (λ e, e_term e ≠ 0) es →
  N.of_nat (length es) <= u64_max →
  ∃ l' r, filter_out_conflicts_and_append l 0 0 es done reply = Some (l', r) ∧ log_inv (mem l') ∧
    (io_open l = true → reply = Some (Ok tt) →
     entries (mem l') = insert_entries ∅ es ∧ r = Ok (last_id_of es)).
Proof.
  intros Hinv Hp Hc Ht Hl. unfold filter_out_conflicts_and_append. simpl.
  destruct (reset_internal_mem l done reply) as [Hm Hpr].
  assert (io_open l = true → reply = Some (Ok tt) → (reset_internal l done reply).2 = Ok tt) as Hok.
  { intros Hio ->. unfold reset_internal, send_command. simpl. by rewrite Hio. }
  destruct (reset_internal l done reply) as [l1 [[]|err]]; simpl in *.
  - eexists _, _. split; [reflexivity|]. simpl. split.
    + apply reset_append_inv; try done; rewrite Hm; [by apply reset_mem_inv|done].
    + intros _ _. unfold append_entries. rewrite Hpr, Hp. destruct es as [|e es']; simpl; [by rewrite Hm|].
      split; [|done]. rewrite Hm. unfold insert_to_memory.
      by destruct (update_term_indexes (term_first_index (reset_mem (mem l)))
        (term_last_index (reset_mem (mem l))) (e :: es')).
  - eexists _, _. split; [reflexivity|]. rewrite Hm. split; [by apply reset_mem_inv|].
    intros Hio Hr. by specialize (Hok Hio Hr).
Qed.

(** What a batch must satisfy: after index 0 of term 0 it starts at 1; when the
    consistency check on another [prev] passes it is a [valid_batch]. *)
Definition sent_batch (m : LogMem) (prev pt : N) (es : list Entry) : Prop :=
  if (prev =? 0) && (pt =? 0)
  then contiguous e_index 1 es ∧ Forall (λ e, e_term e ≠ 0) es ∧ N.of_nat (length es) <= u64_max
  else known_term m prev = Some pt → valid_batch m prev es.

(** The entries and the reply a follower's append should leave. *)
Definition appended (l : BufferedRaftLog) (prev pt : N) (es : list Entry) : gmap N Entry * option LogId :=
  if (prev =? 0) && (pt =? 0) then (insert_entries ∅ es, last_id_of es)
  else if decide (known_term (mem l) prev = Some pt)
       then (raft_append (entries (mem l)) es, last_id_of es)
       else (entries (mem l), last_log_id (mem l)).


Lemma log5_inv : log_inv (mem log5).
Proof. apply (recovered_inv _ _ _ _ log5_recovered). Qed.


(** A batch whose consistency check fails changes nothing: the log is returned as it
    was, with its current last id as the reply. *)
Theorem failed_consistency_check_keeps_log l prev pt es done reply :
  log_inv (mem l) → segments_fit (mem l) → ¬ (prev = 0 ∧ pt = 0) → known_term (mem l) prev ≠ Some pt →
  filter_out_conflicts_and_append l prev pt es done reply = Some (l, Ok (last_log_id (mem l))).
Proof.
  intros Hinv Hfit Hnz Hk. unfold filter_out_conflicts_and_append.
  assert ((prev =? 0) && (pt =? 0) = false) as -> by (case_bool; simpl; (done || lia)).
  rewrite entry_term_known, bool_decide_eq_false_2 by done. done.
Qed.

Lemma failed_consistency_check_keeps_log_witness :
  filter_out_conflicts_and_append log5 4 3 [ent 5 3] 7 (Some (Ok tt)) = Some (log5, Ok (Some (mkLogId 2 5))).
Proof.
  apply (failed_consistency_check_keeps_log log5 4 3 [ent 5 3] 7 (Some (Ok tt)));
    [apply log5_inv|vm_compute; lia|naive_solver|done].
Defined.

(** ** Range reads and commit *)

(** On a well-formed log, [get_entries_range] of a range inside the log returns the
    run of consecutive entries asked for: no gap, no repetition, ascending. *)
Theorem range_read_is_gap_free m lo hi n :
  log_inv m → 0 < min_index m → min_index m <= lo → hi <= max_index m → hi + 1 = lo + N.of_nat n →
  contiguous e_index lo (get_entries_range m lo hi) ∧ length (get_entries_range m lo hi) = n ∧
  ∀ e, e ∈ get_entries_range m lo hi → entry m (e_index e) = Some e.
Proof.
  intros Hinv H0 Hlo Hhi Hn. destruct (get_entries_range_run m lo hi n Hinv H0 Hlo Hhi Hn) as [Hc Hl].
  split_and!; [done|done|]. intros e He. by apply get_entries_range_elem in He as [? _].
Qed.

Lemma range_read_is_gap_free_witness :
  contiguous e_index 2 (get_entries_range (mem log5) 2 4) ∧ length (get_entries_range (mem log5) 2 4) = 3%nat ∧
  ∀ e, e ∈ get_entries_range (mem log5) 2 4 → entry (mem log5) (e_index e) = Some e.
Proof.
  apply (range_read_is_gap_free (mem log5) 2 4 3); [apply log5_inv|by vm_compute..].
Defined.

(** [calculate_majority_matched_index] never panics, and returns [k] exactly when [k] is
    the greatest index that a strict majority of the voters (the peers' match indices
    and the leader's own last index) has reached, [k] is not below the current commit
    index, and the entry at [k] is of the leader's current term (Raft §5.4.2). *)
Theorem majority_commit_is_safe m term commit peers :
  ∃ r, calculate_majority_matched_index m term commit peers = Some r ∧
    let ids := peers ++ [last_entry_id m] in
    ∀ k, r = Some k ↔
      (length ids < 2 * supporters k ids)%nat ∧
      (∀ k', (length ids < 2 * supporters k' ids)%nat → k' <= k) ∧
      commit <= k ∧ ∃ e, entry m k = Some e ∧ e_term e = term.
Proof.
  unfold calculate_majority_matched_index. set (ids := peers ++ [last_entry_id m]).
  destruct (majority_index_spec ids) as (k & -> & Hmaj & Hmax); [by destruct peers|]. cbv zeta.
  assert (Hk : ∀ k', (length ids < 2 * supporters k' ids)%nat →
    (∀ k'', (length ids < 2 * supporters k'' ids)%nat → k'' <= k') → k' = k).
  { intros k' H1 H2. specialize (Hmax k' H1). specialize (H2 k Hmaj). lia. }
  destruct (N.ltb_spec k commit).
  { exists None. split; [done|]. intros k'. split; [done|]. intros (H1 & H2 & ? & _).
    rewrite (Hk k' H1 H2) in *. lia. }
  destruct (entry m k) as [e|] eqn:He.
  - destruct (N.eqb_spec (e_term e) term) as [Ht|Ht]; eexists; (split; [done|]); intros k'; split.
    + intros [= <-]. split_and!; [done|done|done|eauto].
    + intros (H1 & H2 & _). by rewrite (Hk k' H1 H2).
    + done.
    + intros (H1 & H2 & _ & e' & He' & Ht'). rewrite (Hk k' H1 H2) in He'. congruence.
  - exists None. split; [done|]. intros k'. split; [done|]. intros (H1 & H2 & _ & e' & He' & _).
    rewrite (Hk k' H1 H2) in He'. congruence.
Qed.

(** ** Purging *)

(** Purging removes exactly the entries up to the cutoff, keeps every later entry, moves
    [first_entry_id] past the cutoff, and keeps the boundary's term answerable; when the
    log becomes empty [last_log_id] reports the boundary. *)
Theorem purge_keeps_boundary m cutoff :
  log_inv m → segments_fit m → 0 < lid_index cutoff →
  let m' := purge_prefix m cutoff in
  log_inv m' ∧
  (∀ i, entries m' !! i = if i <=? lid_index cutoff then None else entries m !! i) ∧
  (max_index m' ≠ 0 → lid_index cutoff < first_entry_id m') ∧
  entry_term m' (lid_index cutoff) = Some (Some (lid_term cutoff)) ∧
  (max_index m' = 0 → last_log_id m' = Some cutoff).
Proof.
  intros Hinv Hfit Hpos m'. pose proof (purge_prefix_inv m cutoff Hinv) as Hinv'. fold m' in Hinv'.
  assert (Hent : ∀ i, entries m' !! i = if i <=? lid_index cutoff then None else entries m !! i).
  { intros i. apply option_eq_iff. intros e. unfold m'. rewrite purge_prefix_dom.
    case_bool; naive_solver lia. }
  split_and!; [done|done| | |].
  - intros Hne. pose proof (inv_zero m' Hinv'). pose proof (inv_order m' Hinv').
    destruct (proj2 (inv_dom m' Hinv' (min_index m'))) as [e He]; [lia|].
    rewrite Hent in He. unfold first_entry_id. case_bool_in He; [done|lia].
  - rewrite entry_term_known; [|done|done]. unfold known_term. rewrite Hent, N.leb_refl. simpl.
    rewrite (proj2 (N.ltb_lt _ _) Hpos), N.eqb_refl. done.
  - intros H0. unfold last_log_id, last_entry_id. rewrite H0. simpl.
    rewrite (proj2 (N.ltb_lt _ _) Hpos). by destruct cutoff.
Qed.

Lemma purge_keeps_boundary_witness :
  let m' := purge_prefix (mem log5) (mkLogId 2 3) in
  log_inv m' ∧ (∀ i, entries m' !! i = if i <=? 3 then None else entries (mem log5) !! i) ∧
  (max_index m' ≠ 0 → 3 < first_entry_id m') ∧ entry_term m' 3 = Some (Some 2) ∧
  (max_index m' = 0 → last_log_id m' = Some (mkLogId 2 3)).
Proof. apply (purge_keeps_boundary (mem log5) (mkLogId 2 3)); [apply log5_inv|vm_compute; lia|done]. Defined.

(** ** Durability *)

(** The state after [BufferedRaftLog::new] and [start]: the log recovered from a store
    whose visible and durable contents are the same consecutive entries. *)
Definition started {S} `{LogStoreLaws S} (y : Sys S) (d s : N) (es : list Entry) : Prop :=
  recovered d s es ∧ (∃ b, sys_log y = log_new d (Some es) b) ∧
  ls_ok (sys_store y) ∧ ls_view (sys_store y) = insert_entries ∅ es ∧
  (∀ i e, ls_view (sys_store y) !! i = Some e → ls_survives (sys_store y) i e) ∧
  sys_pending y = 0 ∧ sys_task y = TaskIdle.

Lemma started_inv {S} `{LogStoreLaws S} (y : Sys S) d s es : started y d s es → dur_inv y.
Proof.
  intros (Hr & [b Hl] & Hok & Hv & Hs & Hp & Ht).
  pose proof (recovered_inv d s es b Hr) as Hinv.
  assert (Hent : entries (mem (log_new d (Some es) b)) = insert_entries ∅ es).
  { unfold log_new, new_mem. destruct Hr as [? ? ? Hlen ?].
    destruct b as [[]|], (N.ltb_spec 0 d), es; (done || (simpl in Hlen; lia)). }
  assert (Hdur : durable_index (mem (log_new d (Some es) b)) = d) by (by destruct b as [[]|]).
  assert (Hmax : max_index (mem (log_new d (Some es) b)) = d ∨ max_index (mem (log_new d (Some es) b)) = 0).
  { pose proof (inv_order _ Hinv). pose proof (inv_zero _ Hinv). pose proof (inv_dom _ Hinv) as Hd.
    rewrite Hent in Hd. set (m := mem (log_new d (Some es) b)) in *. destruct Hr as [? Hc ? Hlen ?].
    assert (Hd' : ∀ i, (0 < min_index m ∧ min_index m <= i ∧ i <= max_index m) ↔ s <= i < s + N.of_nat (length es)).
    { intros i. rewrite <-Hd, (insert_entries_is_Some _ _ _ _ Hc), lookup_empty, is_Some_alt. tauto. }
    pose proof (Hd' d). pose proof (Hd' (max_index m)). lia. }
  split; unfold sys_mark, healthy; rewrite ?Hl, ?Hv, ?Hp, ?Ht; [|done|done|constructor|done].
  split; [done| | |done|done| |].
  - intros _ i e Hi _. apply Hs. rewrite Hv. by rewrite Hent in Hi.
  - intros _ i e Hi _. by rewrite Hent in Hi.
  - simpl. lia.
  - rewrite Hdur. lia.
Qed.

(** C19: Under every interleaving of the raft loop's appends, purges and flush requests with
    the IO thread's turns and the fsync task's rounds, and for every store that keeps
    the [LogStore] contract, a live entry at or below [durable_index] survives
    a power loss, as long as no storage operation has failed. *)
Theorem durable_index_is_sound {S} `{LogStoreLaws S} (y0 y : Sys S) d s es :
  started y0 d s es → rtc (sys_step false) y0 y → healthy y →
  ∀ i e, entry (mem (sys_log y)) i = Some e → i <= durable_index (mem (sys_log y)) →
  ls_survives (sys_store y) i e.
Proof.
  intros Hst Hr Hh i e. apply (dc_stable _ _ _ _ _ _ (di_core _ (dur_inv_reach _ _ (started_inv _ _ _ _ Hst) Hr)) Hh).
Qed.

(** Three appended entries, persisted and synced, one definition per step. *)
Definition sys_a : Sys MemStore := mkSys (log_new 0 (Some []) (Some None)) (mkMemStore ∅ ∅) 0 PcSelect TaskIdle.
Definition sys_b : Sys MemStore := set_log (append_entries (sys_log sys_a) [ent 1 1; ent 2 1; ent 3 1]).1 sys_a.
Definition sys_c : Sys MemStore := on_notified sys_b.
Definition sys_d : Sys MemStore := set_pc (PcSubmit [] false false) sys_c.
Definition sys_e : Sys MemStore := turn_submit sys_d.
Definition sys_f : Sys MemStore := fsync_pickup sys_e.
Definition sys_g : Sys MemStore := fsync_flush sys_f.
Definition sys_h : Sys MemStore := fsync_complete sys_g.

Lemma sys_a_started : started sys_a 0 1 [].
Proof. split; [split; by repeat constructor|]. split; [by exists (Some None)|]. by repeat split. Qed.

Lemma sys_a_h : rtc (sys_step false) sys_a sys_h.
Proof.
  apply (rtc_l _ _ sys_b); [apply (step_append false sys_a)|].
  { split; [split; [done|split; [by repeat constructor|exists 1; by vm_compute]]|]. intros _. by vm_compute. }
  apply (rtc_l _ _ sys_c); [apply (step_notified false sys_b); by vm_compute|].
  apply (rtc_l _ _ sys_d); [apply (step_recv false sys_c); by vm_compute|].
  apply (rtc_l _ _ sys_e); [apply (step_submit false sys_d)|].
  apply (rtc_l _ _ sys_f); [apply (step_pickup false sys_e); by vm_compute|].
  apply (rtc_l _ _ sys_g); [apply (step_fsync false sys_f)|].
  apply (rtc_l _ _ sys_h); [apply (step_complete false sys_g)|]. apply rtc_refl.
Qed.

Lemma durable_index_is_sound_witness : ls_survives (sys_store sys_h) 3 (ent 3 1).
Proof.
  apply (durable_index_is_sound sys_a sys_h 0 1 [] sys_a_started sys_a_h).
  - split; [by vm_compute|]. vm_compute. tauto.
  - by vm_compute.
  - by vm_compute.
Defined.

(** ** Where the implementation leaves its contract *)

(** [n] entries, each of its own term: [n - 1] term changes. *)
Definition term_ladder (n : nat) : list Entry := map (λ k, ent (N.of_nat k) (N.of_nat k)) (seq 1 n).

Definition empty_log : BufferedRaftLog := log_new 0 (Some []) (Some None).

(** The segment array holds 1024 archived segments. The 1025th term change is counted in
    [seg_count] but not stored, and the next cold lookup indexes slot 1024 of the
    array: [entry_term] of a live entry panics instead of falling back to the map, as
    the comment on [TermSegments] promises. With 1024 term changes it still answers. *)
Theorem term_segments_overflow_panics :
  let fits := (append_entries empty_log (term_ladder 1025)).1 in
  let full := (append_entries empty_log (term_ladder 1026)).1 in
  entry_term (mem fits) 5 = Some (Some 5) ∧
  entry (mem full) 5 = Some (ent 5 5) ∧ entry_term (mem full) 5 = None.
Proof. vm_compute. auto. Qed.

(** A follower with five durable entries whose tail from index 2 is replaced by one entry
    of a newer term; the raft-io thread performs the replacement, two more entries
    arrive, and every process runs until there is nothing left to do. *)
Definition cut_start : Sys MemStore :=
  let es := [ent 1 1; ent 2 1; ent 3 2; ent 4 2; ent 5 2] in
  mkSys log5 (mkMemStore (insert_entries ∅ es) (insert_entries ∅ es)) 0 PcSelect TaskIdle.

Definition sys_replicate {S} (prev pt : N) (es : list Entry) (y : Sys S) : Sys S :=
  match filter_out_conflicts_and_append (sys_log y) prev pt es 7 (Some (Ok tt)) with
  | Some (l, _) => set_log l y
  | None => y
  end.

Definition on_command' {S} `{LogStore S} (y : Sys S) : Sys S := default y (on_command y).

Definition turn_recv' {S} `{LogStore S} (y : Sys S) : Sys S := default y (turn_recv y).

Definition cut_end : Sys MemStore :=
  let y1 := on_command' (sys_replicate 1 1 [ent 2 3] cut_start) in
  let y2 := sys_replicate 2 3 [ent 3 3; ent 4 3] y1 in
  let y3 := turn_submit (turn_recv' (on_notified y2)) in
  fsync_recheck (fsync_pickup (fsync_complete (fsync_flush (fsync_pickup y3)))).

Lemma sys_replicate_step {S} `{LogStore S} prev pt es (y : Sys S) :
  rtc (sys_step true) y (sys_replicate prev pt es y).
Proof.
  unfold sys_replicate. destruct (filter_out_conflicts_and_append _ _ _ _ _ _) as [[l r]|] eqn:E; [|done].
  apply rtc_once. by eapply step_replicate.
Qed.

Lemma on_command_step {S} `{LogStore S} (y : Sys S) :
  sys_pc y = PcSelect → rtc (sys_step true) y (on_command' y).
Proof.
  intros Hpc. unfold on_command'. destruct (on_command y) as [y'|] eqn:E; [|done].
  apply rtc_once. by apply step_command.
Qed.

Lemma turn_recv_step {S} `{LogStore S} (y : Sys S) : rtc (sys_step true) y (turn_recv' y).
Proof.
  unfold turn_recv'. destruct (turn_recv y) as [y'|] eqn:E; [|done]. apply rtc_once. by apply step_recv.
Qed.

Definition cut_mid : Sys MemStore :=
  sys_replicate 2 3 [ent 3 3; ent 4 3] (on_command' (sys_replicate 1 1 [ent 2 3] cut_start)).

Lemma cut_mid_reached : rtc (sys_step true) cut_start cut_mid.
Proof.
  etrans; [apply (sys_replicate_step 1 1 [ent 2 3])|]. etrans; [|apply sys_replicate_step].
  apply on_command_step. by vm_compute.
Qed.

Lemma cut_end_reached : rtc (sys_step true) cut_start cut_end.
Proof.
  etrans; [apply cut_mid_reached|]. unfold cut_end. cbv zeta. fold cut_mid.
  etrans; [|apply rtc_once, step_recheck; by vm_compute].
  etrans; [|apply rtc_once, step_pickup; by vm_compute].
  etrans; [|apply rtc_once, step_complete]. etrans; [|apply rtc_once, step_fsync].
  etrans; [|apply rtc_once, step_pickup; by vm_compute]. etrans; [|apply rtc_once, step_submit].
  etrans; [|apply turn_recv_step]. apply rtc_once, step_notified; by vm_compute.
Qed.

(** Conflict resolution lowers [max_index] but not [durable_index]. Entries appended
    after a truncation below the old watermark count as durable at once, are skipped by
    every persist turn (it starts at [durable_index + 1]) and by [flush], and never
    reach the store: here entries 3 and 4 are live and "durable", everything is idle,
    [flush] succeeds, and the store holds only entries 1 and 2. *)
Theorem truncation_loses_durability :
  let y := cut_end in let l := sys_log y in
  rtc (sys_step true) cut_start y ∧ healthy y ∧ sys_task y = TaskIdle ∧ sys_pc y = PcSelect ∧ command_queue l = [] ∧ write_notify l = false ∧
  entry (mem l) 4 = Some (ent 4 3) ∧ last_entry_id (mem l) = 4 ∧ durable_index (mem l) = 5 ∧
  (flush l 9 None).2 = Ok tt ∧
  ls_view (sys_store y) !! 3 = None ∧ ms_stable (sys_store y) !! 4 = None ∧
  store_last_index (sys_store y) = 2.
Proof. split; [apply cut_end_reached|]. vm_compute. intuition. Qed.

(** Truncation does not take back [next_id]. After a follower with entries 1..5 has its
    log cut to 1..2 and becomes leader, the next allocated index is 6, so the entry it
    proposes leaves the gap 3..5: the log is no longer consecutive. *)
Theorem truncation_leaves_id_gap :
  match filter_out_conflicts_and_append log5 1 1 [ent 2 3] 7 (Some (Ok tt)) with
  | Some (l1, Ok _) =>
      last_entry_id (mem l1) = 2 ∧
      match pre_allocate_id_range (mem l1) 1 with
      | Some ((start, _), m2) =>
          start = 6 ∧
          let l3 := (append_entries (set_mem m2 l1) [ent start 4]).1 in
          last_entry_id (mem l3) = 6 ∧ entry (mem l3) 4 = None ∧ ¬ log_inv (mem l3)
      | None => False
      end
  | _ => False
  end.
Proof.
  vm_compute filter_out_conflicts_and_append. split; [done|].
  set (o := pre_allocate_id_range _ _). vm_compute in o. subst o. cbv iota. split; [done|].
  cbv zeta. split_and!; [by vm_compute|by vm_compute|].
  intros Hinv. assert (is_Some (@None Entry)) as []; [|done].
  apply (inv_dom _ Hinv 4). by vm_compute.
Qed.

(** A batch with [prev_log_index = 0] replaces the whole log even when every entry of it
    is already there: re-delivery of the first batch of a leader cuts a follower that
    has acknowledged five entries back to two, where the paper's rule keeps all five. *)
Theorem first_batch_redelivery_truncates :
  match filter_out_conflicts_and_append log5 0 0 [ent 1 1; ent 2 1] 7 (Some (Ok tt)) with
  | Some (l1, r) =>
      r = Ok (Some (mkLogId 1 2)) ∧ last_entry_id (mem l1) = 2 ∧ entry (mem l1) 5 = None ∧
      raft_append (entries (mem log5)) [ent 1 1; ent 2 1] = entries (mem log5)
  | None => False
  end.
Proof. vm_compute. intuition. Qed.

(** The reset operation does not clear the purge boundary, although the trait asks it to clear all
    metadata. After a purge up to 4 and a restart of the log from index 1, index 4 still
    answers with the old boundary's term, so a batch that follows index 4 passes the
    consistency check and leaves the gap 3..4. *)
Theorem reset_keeps_purge_boundary :
  let l1 := (purge_logs_up_to log5 (mkLogId 2 4) 7 (Some tt)).1 in
  match filter_out_conflicts_and_append l1 0 0 [ent 1 1; ent 2 1] 7 (Some (Ok tt)) with
  | Some (l2, Ok _) =>
      entry (mem l2) 4 = None ∧ entry_term (mem l2) 4 = Some (Some 2) ∧
      match filter_out_conflicts_and_append l2 4 2 [ent 5 3] 7 (Some (Ok tt)) with
      | Some (l3, r) =>
          r = Ok (Some (mkLogId 3 5)) ∧ entry (mem l3) 5 = Some (ent 5 3) ∧ entry (mem l3) 3 = None
      | None => False
      end
  | _ => False
  end.
Proof. vm_compute. intuition. Qed.

(** The IO thread has persisted three entries and found its queue empty; before it submits
    the batch, the raft loop resets the log. *)
Definition reset_race_end : Sys MemStore :=
  let y1 := turn_recv' (on_notified (set_log (append_entries (sys_log sys_a) [ent 1 1; ent 2 1; ent 3 1]).1 sys_a)) in
  let y2 := set_log (reset_internal (sys_log y1) 7 (Some (Ok tt))).1 y1 in
  let y3 := on_command' (turn_submit y2) in
  let y4 := set_log (append_entries (sys_log y3) [ent 1 4; ent 2 4]).1 y3 in
  let y5 := fsync_complete (fsync_flush (fsync_pickup y4)) in
  fsync_recheck (fsync_pickup (fsync_complete (fsync_flush (fsync_pickup (turn_submit (turn_recv' (on_notified y5))))))).

(** The generation fence of [reset] does not cover a batch the IO thread has persisted but
    not yet submitted: the submission after the fence carries the old watermark 3 into
    the new generation. The two entries appended after the reset then count as durable
    (watermark 3) and are never written to the store. *)
Theorem reset_race_loses_durability :
  let y := reset_race_end in let l := sys_log y in
  healthy y ∧ sys_task y = TaskIdle ∧ sys_pc y = PcSelect ∧ command_queue l = [] ∧ write_notify l = false ∧
  entry (mem l) 2 = Some (ent 2 4) ∧ last_entry_id (mem l) = 2 ∧ durable_index (mem l) = 3 ∧
  ls_view (sys_store y) !! 1 = None ∧ ms_stable (sys_store y) !! 2 = None.
Proof. vm_compute. intuition. Qed.
