(* ===== verification/Replication.v ===== *)
(** * Log replication

    [ReplicationHandler] of [d-engine-core/src/replication/replication_handler.rs]:
    the leader side (index allocation, per-peer retrieval of the backlog,
    construction of AppendEntries requests, interpretation of the responses) and
    the follower side (consistency check, conflict resolution, commit index).
    A [HashMap] keyed by peer is a [gmap]; where the code iterates over one, the
    order of the produced list is that of [map_to_list]. *)

From stdpp Require Import base tactics numbers option list sorting gmap strings.
From S2P Require Import Prelude Types TermSegments BufferedLog.

(** ** Data *)

Record StateSnapshot := mkStateSnapshot {
  ss_role : N;
  ss_current_term : N;
  ss_voted_for : option VotedFor;
  ss_commit_index : N;
}.

Record LeaderStateSnapshot := mkLeaderStateSnapshot {
  lss_next_index : gmap N N;
  lss_match_index : gmap N N;
  lss_noop_log_id : option N;
}.

Record ClusterMetadata := mkClusterMetadata {
  single_voter : bool;
  total_voters : N;
  replication_targets : list NodeMeta;
}.

Record PeerUpdate := mkPeerUpdate {
  pu_match_index : option N;
  pu_next_index : N;
  pu_success : bool;
}.

Record AppendResponseWithUpdates := mkAppendResponseWithUpdates {
  aru_response : AppendEntriesResponse;
  commit_index_update : option N;
}.

Record PrepareResult := mkPrepareResult {
  append_requests : list (N * AppendEntriesRequest * N);
  snapshot_targets : list N;
}.

Inductive BuildAppendOutcome :=
  | BAppend (request : AppendEntriesRequest) (effective_next_index : N)
  | BNeedSnapshot.

Inductive PeerEntriesResult :=
  | Ready (es : list Entry)
  | NeedSnapshot
  | CorruptGap (start end_ : N) (first_seen last_seen : option N) (count : N).

Record ReplicationData := mkReplicationData {
  leader_last_index_before : N;
  rd_current_term : N;
  rd_commit_index : N;
  peer_next_indices : gmap N N;
}.

(** ** Leader side *)

(** The entries of [generate_new_entries]'s loop: consecutive from [next_index]. *)
Fixpoint number_entries (next_index end_ term : N) (ps : list EntryPayload) : result (list Entry) :=
  match ps with
  | [] => Ok []
  | p :: ps' =>
      if end_ <? next_index then Err (IdOverflow next_index end_)
      else let? es := number_entries (next_index + 1) end_ term ps' in
           Ok (mkEntry next_index term (Some p) :: es)
  end.

(** The outer [None] is a failed assertion of the allocator. *)
Definition generate_new_entries (l : BufferedRaftLog) (ps : list EntryPayload) (current_term : N)
    : option (BufferedRaftLog * result (list Entry)) :=
  match ps with
  | [] => Some (l, Ok [])
  | _ =>
      let! a := pre_allocate_id_range (mem l) (N.of_nat (length ps)) in
      let '((start, end_), m1) := a in
      let l1 := set_mem m1 l in
      if end_ <? start then None
      else match number_entries start end_ current_term ps with
           | Err e => Some (l1, Err e)
           | Ok [] => Some (l1, Ok [])
           | Ok es => let '(l2, r) := insert_batch l1 es in
                      Some (l2, let? _u := r in Ok es)
           end
  end.

Fixpoint contiguous_from (start : N) (es : list Entry) : bool :=
  match es with
  | [] => true
  | e :: es' => (e_index e =? start) && contiguous_from (start + 1) es'
  end.

Definition entries_are_contiguous_in_range (es : list Entry) (expected_start expected_end : N)
    : bool :=
  match checked_sub expected_end expected_start ≫= λ n, checked_add n 1 with
  | None => false
  | Some expected_len =>
      (N.of_nat (length es) =? expected_len) && contiguous_from expected_start es
  end.

(** The end of the backlog sent to a peer this round. *)
Definition until_index (leader_last peer_next max_legacy : N) : N :=
  if max_legacy <=? leader_last - peer_next then peer_next + max_legacy - 1 else leader_last.

(** One iteration of [retrieve_to_be_synced_logs_for_peers]; [None] inserts nothing. *)
Definition retrieve_for_peer (m : LogMem) (new_entries : list Entry)
    (leader_last max_legacy first_index peer_next : N) : option PeerEntriesResult :=
  let finish (legacy : list Entry) :=
    match legacy ++ new_entries with [] => None | es => Some (Ready es) end in
  if peer_next <=? leader_last then
    if peer_next <? first_index then Some NeedSnapshot
    else if 0 <? max_legacy then
      let until := until_index leader_last peer_next max_legacy in
      let legacy := get_entries_range m peer_next until in
      if entries_are_contiguous_in_range legacy peer_next until then finish legacy
      else Some (CorruptGap peer_next until (e_index <$> head legacy) (e_index <$> last legacy)
                   (N.of_nat (length legacy)))
    else finish []
  else finish [].

Definition retrieve_to_be_synced_logs_for_peers (my_id : N) (m : LogMem) (new_entries : list Entry)
    (leader_last max_legacy : N) (peer_next : gmap N N) (first_index : N)
    : gmap N PeerEntriesResult :=
  map_imap (λ id next, if id =? my_id then None
                       else retrieve_for_peer m new_entries leader_last max_legacy first_index next)
    peer_next.

(** [build_append_request], with the entries removed from [entries_per_peer] for
    this peer; the outer [None] is the panic of [entry_term]. *)
Definition build_append_request (my_id : N) (m : LogMem) (peer_id : N)
    (entries_per_peer : gmap N (list Entry)) (data : ReplicationData)
    : option (result (N * BuildAppendOutcome) * gmap N (list Entry)) :=
  let recorded_next_index := default 1 (peer_next_indices data !! peer_id) in
  let first_index := first_entry_id m in
  let last_index := last_entry_id m in
  let next_index := N.min recorded_next_index (last_index + 1) in
  let prev_index := next_index - 1 in
  let append prev_log_term :=
    Some (Ok (peer_id,
              BAppend (mkAppendEntriesRequest (rd_current_term data) my_id prev_index prev_log_term
                         (default [] (entries_per_peer !! peer_id)) (rd_commit_index data))
                next_index),
          delete peer_id entries_per_peer) in
  let! t := entry_term m prev_index in
  match t with
  | Some term => append term
  | None =>
      if (prev_index =? 0) && (first_index <=? 1) then append 0
      else if prev_index <? first_index
      then Some (Ok (peer_id, BNeedSnapshot), entries_per_peer)
      else Some (Err (InconsistentPrevLogTerm peer_id prev_index first_index last_index),
                 entries_per_peer)
  end.

(** The loop over [peer_entries_result]: what is ready, who needs a snapshot, and
    who is skipped this round. *)
Definition sort_peers (res : gmap N PeerEntriesResult)
    : gmap N (list Entry) * list N * gset N :=
  (omap (λ r, match r with Ready es => Some es | _ => None end) res,
   omap (λ p, match p.2 with NeedSnapshot => Some p.1 | _ => None end) (map_to_list res),
   dom (omap (λ r, match r with Ready _ => None | _ => Some tt end) res)).

(** The loop over the replication targets; a failed build is logged and skipped. *)
Fixpoint build_requests (my_id : N) (m : LogMem) (data : ReplicationData) (skip_peers : gset N)
    (targets : list NodeMeta) (entries_per_peer : gmap N (list Entry))
    (reqs : list (N * AppendEntriesRequest * N)) (snaps : list N) : option PrepareResult :=
  match targets with
  | [] => Some (mkPrepareResult reqs snaps)
  | peer :: targets' =>
      if bool_decide (nm_id peer ∈ skip_peers)
      then build_requests my_id m data skip_peers targets' entries_per_peer reqs snaps
      else
        let! b := build_append_request my_id m (nm_id peer) entries_per_peer data in
        let '(r, epp) := b in
        match r with
        | Ok (id, BAppend request eff) =>
            build_requests my_id m data skip_peers targets' epp (reqs ++ [(id, request, eff)]) snaps
        | Ok (_, BNeedSnapshot) =>
            build_requests my_id m data skip_peers targets' epp reqs (snaps ++ [nm_id peer])
        | Err _ => build_requests my_id m data skip_peers targets' epp reqs snaps
        end
  end.

Definition prepare_batch_requests (my_id max_legacy : N) (l : BufferedRaftLog)
    (ps : list EntryPayload) (ss : StateSnapshot) (lss : LeaderStateSnapshot) (cm : ClusterMetadata)
    : option (BufferedRaftLog * result PrepareResult) :=
  let last_before := last_entry_id (mem l) in
  let! g := generate_new_entries l ps (ss_current_term ss) in
  let '(l1, r) := g in
  match r with
  | Err e => Some (l1, Err e)
  | Ok new_entries =>
      match replication_targets cm with
      | [] => Some (l1, Ok (mkPrepareResult [] []))
      | targets =>
          let data := mkReplicationData last_before (ss_current_term ss) (ss_commit_index ss)
                        (lss_next_index lss) in
          let res := retrieve_to_be_synced_logs_for_peers my_id (mem l1) new_entries last_before
                       max_legacy (peer_next_indices data) (first_entry_id (mem l1)) in
          let '(epp, snaps, skip) := sort_peers res in
          let! p := build_requests my_id (mem l1) data skip targets epp [] snaps in
          Some (l1, Ok p)
      end
  end.

Definition handle_success_response (peer_term : N) (s : SuccessResult) (leader_term : N)
    : result PeerUpdate :=
  let match_log := default (mkLogId 0 0) (last_match s) in
  if leader_term <? peer_term then Err (HigherTerm peer_term)
  else Ok (mkPeerUpdate (Some (lid_index match_log)) (lid_index match_log + 1) true).

Definition handle_conflict_response (c : ConflictResult) (m : LogMem) (current_next_index : N)
    : result PeerUpdate :=
  let next_index :=
    match conflict_term c, conflict_index c with
    | Some term, Some index =>
        match last_index_for_term m term with Some i => i + 1 | None => index end
    | None, Some index => index
    | _, None => current_next_index - 1
    end in
  Ok (mkPeerUpdate None (N.max next_index 1) false).

(** ** Follower side *)

Definition if_update_commit_index_as_follower (my_commit_index last_raft_log_id leader_commit_index : N)
    : option N :=
  if my_commit_index <? leader_commit_index
  then Some (N.min leader_commit_index last_raft_log_id) else None.

(** The outer [None] is the panic of [entry_term]. *)
Definition check_append_entries_request_is_legal (my_id my_term : N) (request : AppendEntriesRequest)
    (m : LogMem) : option AppendEntriesResponse :=
  if ar_term request <? my_term then Some (response_higher_term my_id my_term)
  else
    let last_log_id_option := last_log_id m in
    let last := lid_index (default (mkLogId 0 0) last_log_id_option) in
    if (ar_prev_log_index request =? 0) && (ar_prev_log_term request =? 0)
    then Some (response_success my_id my_term last_log_id_option)
    else
      let! t := entry_term m (ar_prev_log_index request) in
      match t with
      | Some term =>
          if term =? ar_prev_log_term request
          then Some (response_success my_id my_term
                       (Some (mkLogId (ar_prev_log_term request) (ar_prev_log_index request))))
          else
            let ci := match first_index_for_term m term with
                      | Some i => i
                      | None => ar_prev_log_index request - 1
                      end in
            Some (response_conflict my_id my_term (Some term) (Some ci))
      | None => Some (response_conflict my_id my_term None (Some (last + 1)))
      end.

Definition handle_append_entries (my_id : N) (request : AppendEntriesRequest) (ss : StateSnapshot)
    (l : BufferedRaftLog) (done : N) (reply : option (result unit))
    : option (BufferedRaftLog * result AppendResponseWithUpdates) :=
  let current_term := ss_current_term ss in
  let! response := check_append_entries_request_is_legal my_id current_term request (mem l) in
  if is_conflict response || is_higher_term response
  then Some (l, Ok (mkAppendResponseWithUpdates response None))
  else
    let finish (l1 : BufferedRaftLog) (last : option LogId) :=
      Some (l1, Ok (mkAppendResponseWithUpdates (response_success my_id current_term last)
                      (if_update_commit_index_as_follower (ss_commit_index ss)
                         (last_entry_id (mem l1)) (ar_leader_commit_index request)))) in
    match ar_entries request with
    | [] => finish l (last_log_id (mem l))
    | es =>
        let! a := filter_out_conflicts_and_append l (ar_prev_log_index request)
                    (ar_prev_log_term request) es done reply in
        let '(l1, r) := a in
        match r with
        | Err e => Some (l1, Err e)
        | Ok last => finish l1 last
        end
    end.

(** [client_command_to_entry_payloads]; the protobuf encoder is the argument. *)
Definition client_command_to_entry_payloads {W : Type} (encode : W → bytes) (commands : list W)
    : list EntryPayload :=
  (λ cmd, payload_command (encode cmd)) <$> commands.
