(* ===== verification/ReplicationSpec.v ===== *)
(** * Replication: agreement between a leader's and a follower's log

    The lemmas behind the replication theorems: what a well-formed request is,
    how conflict resolution spreads the leader's entries, and why a rejected probe
    moves the leader backwards. *)

From stdpp Require Import base tactics numbers option list sorting gmap strings.
From S2P Require Import Prelude Types TermSegments BufferedLog LogInv LogSpec Replication.

(** ** Vocabulary *)

(** The Log Matching property of two logs, on the entries both still hold. *)
Definition logs_match (a b : gmap N Entry) : Prop :=
  ∀ i ea eb, a !! i = Some ea → b !! i = Some eb → e_term ea = e_term eb →
  ∀ j x y, j <= i → a !! j = Some x → b !! j = Some y → x = y.

Definition agree_upto (a b : gmap N Entry) (n : N) : Prop :=
  ∀ j x y, j <= n → a !! j = Some x → b !! j = Some y → x = y.

(** The purge boundary, when there is one, is right below the live entries. *)
Definition boundary_adjacent (m : LogMem) : Prop :=
  max_index m = 0 ∨ last_purged_index m = 0 ∨ last_purged_index m + 1 = min_index m.

Definition terms_sorted (m : gmap N Entry) : Prop :=
  ∀ i j x y, i <= j → m !! i = Some x → m !! j = Some y → e_term x <= e_term y.

(** A request a leader with log [m] may send: its [prev] is known to the leader
    (or is the virtual entry 0) and its entries are the leader's own, right after. *)
Record leader_request (m : LogMem) (req : AppendEntriesRequest) : Prop := mk_leader_request {
  lr_prev : (ar_prev_log_index req = 0 ∧ ar_prev_log_term req = 0) ∨
    (0 < ar_prev_log_index req ∧ known_term m (ar_prev_log_index req) = Some (ar_prev_log_term req));
  lr_contig : contiguous e_index (ar_prev_log_index req + 1) (ar_entries req);
  lr_entries : Forall (λ e, entries m !! e_index e = Some e) (ar_entries req);
}.

(** ** The reference append spreads the leader's entries *)

Lemma agree_upto_mono a b n n' : n <= n' → agree_upto a b n' → agree_upto a b n.
Proof. intros Hn H j x y Hj. apply H. lia. Qed.

Lemma contiguous_index_inj s es e e' :
  contiguous e_index s es → e ∈ es → e' ∈ es → e_index e = e_index e' → e = e'.
Proof.
  revert s. induction es as [|x es IH]; intros s Hc He He' Heq; [by apply not_elem_of_nil in He|].
  destruct Hc as [Hx Hc]. apply elem_of_cons in He as [->|He]; apply elem_of_cons in He' as [->|He']; eauto.
  - pose proof (contiguous_elem _ _ _ _ Hc He'). lia.
  - pose proof (contiguous_elem _ _ _ _ Hc He). lia.
Qed.

Lemma contiguous_covers s es i :
  contiguous e_index s es → s <= i < s + N.of_nat (length es) → ∃ e, e ∈ es ∧ e_index e = i.
Proof.
  revert s. induction es as [|x es IH]; intros s Hc Hi; simpl in *; [lia|].
  destruct Hc as [Hx Hc]. destruct (decide (i = s)) as [->|].
  - exists x. split; [left|done].
  - destruct (IH (s + 1) Hc) as (e & ? & ?); [lia|]. exists e. split; [by right|done].
Qed.

Lemma insert_entries_elem m s es e :
  contiguous e_index s es → e ∈ es → insert_entries m es !! e_index e = Some e.
Proof.
  intros Hc He. rewrite (lookup_insert_entries _ _ _ _ Hc).
  pose proof (contiguous_elem _ _ _ _ Hc He). rewrite decide_True by lia.
  revert s Hc H. induction es as [|x es IH]; intros s Hc Hb; [by apply not_elem_of_nil in He|].
  destruct Hc as [Hx Hc]. apply elem_of_cons in He as [->|He].
  - by replace (N.to_nat (e_index x - s)) with 0%nat by lia.
  - pose proof (contiguous_elem _ _ _ _ Hc He).
    replace (N.to_nat (e_index e - s)) with (S (N.to_nat (e_index e - (s + 1)))) by lia.
    simpl. apply IH; [done|done|lia].
Qed.

Lemma raft_append_lookup b s es j y :
  contiguous e_index s es → raft_append b es !! j = Some y →
  (∃ e, e ∈ es ∧ e_index e = j) ∨ b !! j = Some y.
Proof.
  revert s. induction es as [|e es IH]; intros s Hc Hj; [by right|].
  destruct Hc as [He Hc]. simpl in Hj.
  assert (Hins : ∀ m', (∀ z, m' !! j = Some z → b !! j = Some z) →
    insert_entries m' (e :: es) !! j = Some y → (∃ e0, e0 ∈ e :: es ∧ e_index e0 = j) ∨ b !! j = Some y).
  { intros m' Hm' [Hm|[? ?]]%insert_entries_Some; [right; auto|left; eauto]. }
  destruct (b !! e_index e) as [e'|] eqn:E; [|by apply (Hins b)].
  destruct (e_term e' =? e_term e).
  - destruct (IH _ Hc Hj) as [(x & ? & ?)|?]; [left; exists x; split; [by right|done]|by right].
  - apply (Hins (truncate_from b (e_index e))); [|done].
    intros z [? _]%map_lookup_filter_Some. done.
Qed.

Section spread.
Context (a b : gmap N Entry) (s : N) (es : list Entry).
Hypothesis Hmatch : logs_match a b.
Hypothesis Hc : contiguous e_index s es.
Hypothesis Hes : Forall (λ e, a !! e_index e = Some e) es.

Lemma raft_append_has e : e ∈ es → raft_append b es !! e_index e = Some e.
Proof.
  revert s Hc Hes. induction es as [|x l IH]; intros s' Hc' Hes' He; [by apply not_elem_of_nil in He|].
  pose proof Hc' as [Hx Hc'']. pose proof Hes' as Hes0. apply Forall_cons in Hes' as [Hax Hes''].
  cbn [raft_append]. destruct (b !! e_index x) as [x'|] eqn:E; [destruct (N.eqb_spec (e_term x') (e_term x)) as [Ht|]|].
  - apply elem_of_cons in He as [->|He]; [|by eapply IH].
    assert (x = x') as <-.
    { idtac. apply (Hmatch (e_index x) x x' Hax E (eq_sym Ht) (e_index x)); [lia|done|done]. }
    assert (∀ l' s2, contiguous e_index s2 l' → e_index x < s2 → raft_append b l' !! e_index x = Some x) as Hkeep.
    { induction l' as [|z l' IHl]; intros s2 Hz Hlt; [done|]. pose proof Hz as [Hz1 Hz2]. cbn [raft_append].
      destruct (b !! e_index z) as [z'|]; [destruct (e_term z' =? e_term z)|].
      - apply (IHl (s2 + 1)); [done|lia].
      - rewrite (lookup_insert_entries _ (z :: l') s2 _ Hz). rewrite decide_False by lia.
        apply map_lookup_filter_Some. split; [done|simpl; lia].
      - rewrite (lookup_insert_entries _ (z :: l') s2 _ Hz). by rewrite decide_False by lia. }
    apply (Hkeep _ _ Hc''). lia.
  - by eapply insert_entries_elem.
  - by eapply insert_entries_elem.
Qed.

Lemma raft_append_agree n :
  agree_upto a b n → s <= n + 1 →
  agree_upto a (raft_append b es) (N.max n (s + N.of_nat (length es) - 1)) ∧
  logs_match a (raft_append b es).
Proof.
  intros Hn Hs.
  assert (Hag : agree_upto a (raft_append b es) (N.max n (s + N.of_nat (length es) - 1))).
  { intros j x y Hj Hx Hy. destruct (raft_append_lookup _ _ _ _ _ Hc Hy) as [(e & He & <-)|Hb].
    - rewrite (raft_append_has e He) in Hy. rewrite Forall_forall in Hes.
      rewrite (Hes e He) in Hx. congruence.
    - destruct (decide (j <= n)); [by eapply Hn|].
      destruct (contiguous_covers _ _ j Hc) as (e & He & <-); [lia|].
      rewrite (raft_append_has e He) in Hy. rewrite Forall_forall in Hes.
      rewrite (Hes e He) in Hx. congruence. }
  split; [done|]. intros i ea eb Ha Hb Ht j x y Hj Hx Hy.
  destruct (decide (i <= N.max n (s + N.of_nat (length es) - 1))); [apply (Hag j); [lia|done|done]|].
  destruct (raft_append_lookup _ _ _ _ _ Hc Hb) as [(e & He & <-)|Hb'].
  { pose proof (contiguous_elem _ _ _ _ Hc He). lia. }
  destruct (raft_append_lookup _ _ _ _ _ Hc Hy) as [(e & He & <-)|Hy'].
  - rewrite (raft_append_has e He) in Hy. rewrite Forall_forall in Hes.
    rewrite (Hes e He) in Hx. congruence.
  - by eapply (Hmatch i).
Qed.
End spread.

(** ** One AppendEntries exchange *)

Lemma known_term_agree ml mf p t :
  log_inv ml → boundary_adjacent ml → log_inv mf → boundary_adjacent mf →
  logs_match (entries ml) (entries mf) →
  known_term ml p = Some t → known_term mf p = Some t → agree_upto (entries ml) (entries mf) p.
Proof.
  intros Hl Hbl Hf Hbf Hm Hkl Hkf j x y Hj Hx Hy.
  assert (Hlive : ∀ m k z, log_inv m → entries m !! k = Some z →
    0 < min_index m ∧ min_index m <= k ∧ k <= max_index m).
  { intros m k z Hm' Hz. apply (inv_dom m Hm'). eauto. }
  pose proof (Hlive _ _ _ Hl Hx). pose proof (Hlive _ _ _ Hf Hy).
  unfold known_term in Hkl, Hkf. unfold boundary_adjacent in *.
  destruct (entries ml !! p) as [ep|] eqn:El.
  2:{ case_bool_in Hkl; simpl in Hkl; (done || lia). }
  destruct (entries mf !! p) as [fp|] eqn:Ef.
  2:{ case_bool_in Hkf; simpl in Hkf; (done || lia). }
  apply (Hm p ep fp El Ef) with j; [congruence|done|done|done].
Qed.

Lemma leader_entries_sorted m s es :
  terms_sorted (entries m) → contiguous e_index s es →
  Forall (λ e, entries m !! e_index e = Some e) es →
  StronglySorted (λ x y, e_term x <= e_term y) es.
Proof.
  intros Hs. revert s. induction es as [|e es IH]; intros s Hc Hes; [constructor|].
  destruct Hc as [He Hc]. apply Forall_cons in Hes as [Hae Hes]. constructor; [by eapply IH|].
  apply Forall_forall. intros x Hx. pose proof (contiguous_elem _ _ _ _ Hc Hx).
  rewrite Forall_forall in Hes. apply (Hs (e_index e) (e_index x)); [lia|done|by apply Hes].
Qed.

Lemma leader_entries_room m s es :
  log_inv m → es ≠ [] → contiguous e_index s es →
  Forall (λ e, entries m !! e_index e = Some e) es → s + N.of_nat (length es) <= u64_max + 1.
Proof.
  intros Hinv Hne Hc Hes. destruct (last es) as [la|] eqn:Hla; [|by apply last_None in Hla].
  rewrite <-(contiguous_last _ _ _ _ Hc Hla).
  rewrite Forall_forall in Hes. pose proof (Hes la (last_Some_elem_of _ _ Hla)) as Hin.
  assert (is_Some (entries m !! e_index la)) as Hd by eauto. apply (inv_dom m Hinv) in Hd.
  pose proof (inv_u64 m Hinv). lia.
Qed.

Lemma leader_entries_terms m es :
  log_inv m → Forall (λ e, entries m !! e_index e = Some e) es → Forall (λ e, e_term e ≠ 0) es.
Proof.
  intros Hinv H. eapply Forall_impl; [exact H|]. intros e He. by apply (inv_entry m Hinv) in He as [_ ?].
Qed.

(** The batch of a leader's request is valid for a follower that knows its [prev]. *)
Lemma leader_request_valid ml mf req :
  log_inv ml → terms_sorted (entries ml) → log_inv mf → boundary_adjacent mf →
  leader_request ml req → ar_entries req ≠ [] →
  is_Some (known_term mf (ar_prev_log_index req)) →
  valid_batch mf (ar_prev_log_index req) (ar_entries req).
Proof.
  intros Hl Hs Hf Hbf [_ Hc He] Hne [t Hk]. split; [done| | | |].
  - by apply (leader_entries_terms ml).
  - by apply (leader_entries_sorted ml (ar_prev_log_index req + 1)).
  - pose proof (leader_entries_room _ _ _ Hl Hne Hc He). lia.
  - unfold known_term in Hk. unfold boundary_adjacent in Hbf. pose proof (inv_order mf Hf).
    destruct (entries mf !! ar_prev_log_index req) as [e|] eqn:E.
    + assert (is_Some (entries mf !! ar_prev_log_index req)) as Hd by eauto.
      apply (inv_dom mf Hf) in Hd. lia.
    + case_bool_in Hk; simpl in Hk; (done || lia).
Qed.

(** A leader's log and a follower that may take entries from it. *)
Record replica_pair (ml : LogMem) (lf : BufferedRaftLog) : Prop := mk_replica_pair {
  rp_leader : log_inv ml;
  rp_leader_boundary : boundary_adjacent ml;
  rp_leader_terms : terms_sorted (entries ml);
  rp_follower : log_inv (mem lf);
  rp_follower_boundary : boundary_adjacent (mem lf);
  rp_follower_fit : segments_fit (mem lf);
  rp_match : logs_match (entries ml) (entries (mem lf));
  rp_healthy : poisoned lf = false ∧ io_open lf = true;
}.

(** The follower's consistency check on a request. *)
Definition accepts (my_term : N) (req : AppendEntriesRequest) (m : LogMem) : Prop :=
  my_term <= ar_term req ∧
  ((ar_prev_log_index req = 0 ∧ ar_prev_log_term req = 0) ∨
   known_term m (ar_prev_log_index req) = Some (ar_prev_log_term req)).

Lemma check_legal_spec my_id my_term req m :
  log_inv m → segments_fit m →
  ∃ r, check_append_entries_request_is_legal my_id my_term req m = Some r ∧
    (accepts my_term req m → is_conflict r = false ∧ is_higher_term r = false) ∧
    (¬ accepts my_term req m → is_conflict r || is_higher_term r = true ∧ is_success r = false).
Proof.
  intros Hinv Hfit. unfold check_append_entries_request_is_legal, accepts.
  destruct (N.ltb_spec (ar_term req) my_term).
  { eexists. split; [done|]. split; [lia|done]. }
  destruct (decide (ar_prev_log_index req = 0 ∧ ar_prev_log_term req = 0)) as [[H1 H2]|Hz].
  { rewrite H1, H2. simpl. eexists. split; [done|]. split; [done|]. intros []. auto. }
  assert ((ar_prev_log_index req =? 0) && (ar_prev_log_term req =? 0) = false) as ->
    by (case_bool; simpl; (done || lia)).
  rewrite entry_term_known by done.
  destruct (known_term m (ar_prev_log_index req)) as [t|].
  - destruct (N.eqb_spec t (ar_prev_log_term req)) as [->|Hne]; eexists; (split; [done|]).
    + split; [done|]. intros []. auto.
    + split; [|done]. intros [_ [?|[= ->]]]; done.
  - eexists. split; [done|]. split; [|done]. intros [_ [?|?]]; done.
Qed.

Section exchange.
Context (ml : LogMem) (lf : BufferedRaftLog) (my_id dn : N) (req : AppendEntriesRequest)
  (ss : StateSnapshot).
Hypothesis Hpair : replica_pair ml lf.
Hypothesis Hreq : leader_request ml req.

(** What an accepted request leaves behind. *)
Definition adopted (l' : BufferedRaftLog) (lid : option LogId) : Prop :=
  log_inv (mem l') ∧ logs_match (entries ml) (entries (mem l')) ∧
  (∀ e, e ∈ ar_entries req → entries (mem l') !! e_index e = Some e) ∧
  agree_upto (entries ml) (entries (mem l')) (ar_prev_log_index req + N.of_nat (length (ar_entries req))) ∧
  (ar_entries req ≠ [] → lid = last_id_of (ar_entries req)) ∧
  (ar_entries req = [] → l' = lf ∧ lid = last_log_id (mem lf)).

Lemma adopted_raft_append l' b :
  ar_entries req ≠ [] → log_inv (mem l') → logs_match (entries ml) b → agree_upto (entries ml) b (ar_prev_log_index req) →
  entries (mem l') = raft_append b (ar_entries req) → adopted l' (last_id_of (ar_entries req)).
Proof.
  intros Hne Hinv Hm Hag He. destruct Hreq as [_ Hc Hes].
  destruct (raft_append_agree _ _ _ _ Hm Hc Hes _ Hag) as [Hag' Hm']; [lia|].
  split; [done|]. rewrite He. split; [done|]. split; [|split; [|by split]].
  - intros e. by apply (raft_append_has _ _ _ _ Hm Hc Hes).
  - eapply agree_upto_mono; [|done]. lia.
Qed.

Lemma adopt_first_batch :
  ar_prev_log_index req = 0 → ar_prev_log_term req = 0 → ar_entries req ≠ [] →
  ∃ l', filter_out_conflicts_and_append lf (ar_prev_log_index req) (ar_prev_log_term req)
          (ar_entries req) dn (Some (Ok tt)) = Some (l', Ok (last_id_of (ar_entries req))) ∧
        adopted l' (last_id_of (ar_entries req)).
Proof.
  intros H1 H2 Hne. destruct Hpair as [Hl _ _ Hf _ _ _ [Hp Hio]].
  unfold filter_out_conflicts_and_append, reset_internal, send_command. simpl.
  rewrite H1, H2, Hio. simpl. rewrite append_entries_ok by done.
  eexists. split; [done|]. apply (adopted_raft_append _ ∅); [done| | | |].
  - simpl. pose proof (lr_contig _ _ Hreq) as Hc. rewrite H1 in Hc.
    apply insert_to_memory_inv; [by apply reset_mem_inv|].
    split; [done|]. split; [by apply (leader_entries_terms ml), lr_entries|].
    exists 1. split; [lia|]. split; [simpl; lia|]. split; [done|].
    apply (leader_entries_room ml); [done|done|done|by apply lr_entries].
  - intros i ea eb _ Hi. by rewrite lookup_empty in Hi.
  - intros j x y _ _ Hy. by rewrite lookup_empty in Hy.
  - simpl. by destruct (ar_entries req).
Qed.

Lemma adopt_batch :
  ¬ (ar_prev_log_index req = 0 ∧ ar_prev_log_term req = 0) →
  known_term (mem lf) (ar_prev_log_index req) = Some (ar_prev_log_term req) →
  ar_entries req ≠ [] →
  ∃ l', filter_out_conflicts_and_append lf (ar_prev_log_index req) (ar_prev_log_term req)
          (ar_entries req) dn (Some (Ok tt)) = Some (l', Ok (last_id_of (ar_entries req))) ∧
        adopted l' (last_id_of (ar_entries req)).
Proof.
  intros Hnz Hk Hne. destruct Hpair as [Hl Hbl Hs Hf Hbf Hfit Hm [Hp Hio]].
  assert (Hvb : valid_batch (mem lf) (ar_prev_log_index req) (ar_entries req)).
  { by apply (leader_request_valid ml). }
  destruct (filter_out_delivers lf _ (ar_prev_log_term req) _ dn (Some (Ok tt)) Hf Hfit Hvb Hnz Hk)
    as (l' & r & -> & Hinv & Hok).
  destruct (Hok Hp) as [Hent Hr]. exists l'. rewrite (Hr Hio eq_refl). split; [done|].
  apply (adopted_raft_append _ (entries (mem lf))); try done.
  destruct (lr_prev _ _ Hreq) as [?|[_ Hkl]]; [done|]. by eapply known_term_agree.
Qed.

Lemma accepts_agree :
  accepts (ss_current_term ss) req (mem lf) →
  agree_upto (entries ml) (entries (mem lf)) (ar_prev_log_index req).
Proof.
  intros [_ Hk]. destruct Hpair as [Hl Hbl Hs Hf Hbf Hfit Hm _]. pose proof (lr_prev _ _ Hreq) as Hpr.
  destruct (decide (ar_prev_log_index req = 0)) as [->|Hnz].
  - intros j x y Hj Hx _. assert (is_Some (entries ml !! j)) as Hd by eauto.
    apply (inv_dom ml Hl) in Hd. lia.
  - destruct Hk as [[? _]|Hk]; [done|]. destruct Hpr as [[? _]|[_ Hkl]]; [done|].
    by eapply known_term_agree.
Qed.

(** The whole handler on an accepted request. *)
Lemma handle_append_entries_adopts :
  accepts (ss_current_term ss) req (mem lf) →
  ∃ l' lid, handle_append_entries my_id req ss lf dn (Some (Ok tt)) =
    Some (l', Ok (mkAppendResponseWithUpdates (response_success my_id (ss_current_term ss) lid)
      (if_update_commit_index_as_follower (ss_commit_index ss) (last_entry_id (mem l'))
         (ar_leader_commit_index req)))) ∧ adopted l' lid.
Proof.
  intros Hacc. pose proof (accepts_agree Hacc) as Hag. destruct Hpair as [Hl Hbl Hs Hf Hbf Hfit Hm Hh].
  destruct (check_legal_spec my_id (ss_current_term ss) req _ Hf Hfit) as (r & Hr & Hyes & _).
  unfold handle_append_entries. rewrite Hr. destruct (Hyes Hacc) as [-> ->]. simpl.
  destruct (decide (ar_entries req = [])) as [He|Hne].
  { rewrite He. eexists lf, _. split; [done|]. unfold adopted. rewrite He. split; [done|].
    split; [done|]. split; [intros e Hin; by apply not_elem_of_nil in Hin|].
    split; [|by split]. simpl. by rewrite N.add_0_r. }
  assert (∃ l', filter_out_conflicts_and_append lf (ar_prev_log_index req) (ar_prev_log_term req)
    (ar_entries req) dn (Some (Ok tt)) = Some (l', Ok (last_id_of (ar_entries req))) ∧
    adopted l' (last_id_of (ar_entries req))) as (l' & Hfo & Had).
  { destruct (decide (ar_prev_log_index req = 0 ∧ ar_prev_log_term req = 0)) as [[? ?]|Hnz];
      [by apply adopt_first_batch|].
    destruct Hacc as [_ [?|Hk]]; [done|]. by apply adopt_batch. }
  destruct (ar_entries req) as [|e0 es0] eqn:He; [done|]. rewrite <-He in *.
  rewrite Hfo. eauto.
Qed.
End exchange.

(** ** Requests built by the leader *)

(** A log that allocates the index right after its last (or last purged) entry. *)
Definition ids_fresh (m : LogMem) : Prop :=
  next_id m = N.max (max_index m) (last_purged_index m) + 1.

Lemma number_entries_spec s e t ps :
  s + N.of_nat (length ps) <= e + 1 →
  ∃ es, number_entries s e t ps = Ok es ∧ contiguous e_index s es ∧ length es = length ps ∧
    Forall (λ x, e_term x = t) es ∧ e_payload <$> es = Some <$> ps.
Proof.
  revert s. induction ps as [|p ps IH]; intros s Hs; simpl in *.
  { exists []. split_and!; done. }
  destruct (N.ltb_spec e s); [lia|]. destruct (IH (s + 1)) as (es & -> & ? & ? & ? & Hp); [lia|].
  eexists. split_and!; [done|done|simpl; congruence|by constructor|by rewrite !fmap_cons, Hp].
Qed.

(** The entries a leader adds: consecutive from [next_id], of its term, in order. *)
Record proposed (m : LogMem) (term : N) (ps : list EntryPayload) (es : list Entry) : Prop := mk_proposed {
  pr_contig : contiguous e_index (next_id m) es;
  pr_term : Forall (λ e, e_term e = term) es;
  pr_payloads : e_payload <$> es = Some <$> ps;
}.

Lemma proposed_length m t ps es : proposed m t ps es → length es = length ps.
Proof. intros [_ _ H]. apply (f_equal length) in H. by rewrite !length_fmap in H. Qed.

Lemma generate_new_entries_unfold l ps term m1 s e es :
  ps ≠ [] → pre_allocate_id_range (mem l) (N.of_nat (length ps)) = Some ((s, e), m1) → s <= e →
  number_entries s e term ps = Ok es → es ≠ [] → poisoned l = false →
  generate_new_entries l ps term = Some (notify_one (set_mem (insert_to_memory m1 es) l), Ok es).
Proof.
  intros Hps Ha Hle Hn Hes Hp. unfold generate_new_entries. destruct ps as [|p ps]; [done|].
  rewrite Ha. rewrite (proj2 (N.ltb_ge _ _)) by lia. rewrite Hn. destruct es as [|e0 es]; [done|].
  unfold insert_batch. by rewrite append_entries_ok.
Qed.

Lemma pre_allocate_fresh m n :
  0 < n → next_id m + n <= u64_max →
  pre_allocate_id_range m n = Some ((next_id m, next_id m + n - 1), set_next_id (next_id m + n) m).
Proof.
  intros Hn Hr. unfold pre_allocate_id_range.
  rewrite (proj2 (N.eqb_neq _ _)) by lia. rewrite (proj2 (N.leb_le _ _)) by lia.
  assert (wrapping_add_u64 (next_id m) n = next_id m + n) as ->; [|done].
  unfold wrapping_add_u64. apply N.mod_small. unfold u64_max in *. lia.
Qed.

Lemma proposed_extends m term ps es n :
  log_inv m → boundary_adjacent m → ids_fresh m → term ≠ 0 → ps ≠ [] →
  next_id m + N.of_nat (length ps) <= u64_max →
  proposed m term ps es → extends (set_next_id n m) es.
Proof.
  intros Hinv Hb Hf Ht Hne Hr Hpr. pose proof (proposed_length _ _ _ _ Hpr) as Hl.
  destruct Hpr as [Hc Hte _]. unfold ids_fresh in Hf. split; [by destruct es, ps|].
  split; [eapply Forall_impl; [exact Hte|]; simpl; congruence|].
  exists (next_id m). simpl. split; [lia|]. split; [|split; [done|lia]]. intros Hmax.
  pose proof (inv_order m Hinv). unfold boundary_adjacent in Hb. lia.
Qed.

(** The boundaries after appending a run [s..] past the end of the log. *)
Lemma insert_to_memory_fields m s es :
  contiguous e_index s es → es ≠ [] → max_index m < s → min_index m <= max_index m →
  next_id m <= s + N.of_nat (length es) →
  entries (insert_to_memory m es) = insert_entries (entries m) es ∧
  max_index (insert_to_memory m es) = s + N.of_nat (length es) - 1 ∧
  min_index (insert_to_memory m es) = (if min_index m =? 0 then s else min_index m) ∧
  next_id (insert_to_memory m es) = s + N.of_nat (length es) ∧
  last_purged_index (insert_to_memory m es) = last_purged_index m ∧
  last_purged_term (insert_to_memory m es) = last_purged_term m.
Proof.
  intros Hc Hne Hmax Hord Hnext. pose proof (max_entry_index_contiguous _ _ Hc Hne) as Hme.
  destruct (last es) as [la|] eqn:Hla; [|by apply last_None in Hla].
  pose proof (contiguous_last _ _ _ _ Hc Hla). destruct es as [|f es]; [done|].
  pose proof Hc as [Hf _]. unfold insert_to_memory. rewrite Hla.
  destruct (update_term_indexes _ _ _) as [tf tl].
  cbn [head entries max_index min_index next_id last_purged_index last_purged_term].
  rewrite Hf. split; [done|]. split; [case_bool; lia|]. split; [|split; [case_bool; lia|done]].
  case_bool; simpl; lia.
Qed.

Record appended_leader (m m' : LogMem) (term : N) (ps : list EntryPayload) (es : list Entry) : Prop :=
  mk_appended_leader {
  al_proposed : proposed m term ps es;
  al_inv : log_inv m';
  al_entries : entries m' = insert_entries (entries m) es;
  al_max : max_index m' = if decide (ps = []) then max_index m else next_id m + N.of_nat (length ps) - 1;
  al_min : min_index m' = if decide (min_index m = 0 ∧ ps ≠ []) then next_id m else min_index m;
  al_next : next_id m' = next_id m + N.of_nat (length ps);
  al_purged : last_purged_index m' = last_purged_index m ∧ last_purged_term m' = last_purged_term m;
}.

Lemma generate_new_entries_ok l ps term :
  log_inv (mem l) → boundary_adjacent (mem l) → ids_fresh (mem l) → poisoned l = false → term ≠ 0 →
  next_id (mem l) + N.of_nat (length ps) <= u64_max →
  ∃ l' es, generate_new_entries l ps term = Some (l', Ok es) ∧
    appended_leader (mem l) (mem l') term ps es.
Proof.
  intros Hinv Hb Hfresh Hp Ht Hroom. destruct (decide (ps = [])) as [->|Hne].
  { exists l, []. split; [done|]. split; try done; simpl; [by rewrite decide_False by tauto|lia]. }
  assert (0 < N.of_nat (length ps)) by (destruct ps; [done|simpl; lia]).
  destruct (number_entries_spec (next_id (mem l)) (next_id (mem l) + N.of_nat (length ps) - 1) term ps)
    as (es & Hes & Hc & Hl & Hte & Hpay); [lia|].
  assert (Hpr : proposed (mem l) term ps es) by done.
  assert (es ≠ []) as Hesne by (by destruct es, ps).
  eexists _, es. split.
  { eapply generate_new_entries_unfold; [done|by apply pre_allocate_fresh|lia|done|done|done]. }
  set (m1 := set_next_id _ (mem l)).
  pose proof (inv_next _ Hinv). pose proof (inv_order _ Hinv). pose proof (inv_zero _ Hinv).
  destruct (insert_to_memory_fields m1 (next_id (mem l)) es) as (He & Hmx & Hmn & Hnx & Hpi & Hpt);
    [done|done|done|done|simpl; lia|].
  simpl in *. split; simpl.
  - done.
  - apply insert_to_memory_inv; [|by eapply proposed_extends].
    destruct Hinv. constructor; try done. simpl. lia.
  - done.
  - rewrite Hmx, decide_False, Hl by done. done.
  - rewrite Hmn. destruct (N.eqb_spec (min_index (mem l)) 0); [by rewrite decide_True|].
    by rewrite decide_False by tauto.
  - by rewrite Hnx, Hl.
  - done.
Qed.

Lemma contiguous_from_spec s es : contiguous_from s es = true ↔ contiguous e_index s es.
Proof.
  revert s. induction es as [|e es IH]; intros s; simpl; [done|].
  by rewrite andb_true_iff, N.eqb_eq, IH.
Qed.

Lemma contiguous_in_range es lo hi :
  contiguous e_index lo es → hi + 1 = lo + N.of_nat (length es) → 0 < lo → lo <= hi → hi <= u64_max →
  entries_are_contiguous_in_range es lo hi = true.
Proof.
  intros Hc Hl Hlo Hle Hmax. unfold entries_are_contiguous_in_range, checked_sub, checked_add.
  rewrite (proj2 (N.leb_le _ _)) by lia. simpl. rewrite (proj2 (N.leb_le _ _)) by lia.
  rewrite (proj2 (contiguous_from_spec _ _) Hc), andb_true_r. apply N.eqb_eq. lia.
Qed.

(** A range read inside a well-formed log passes the gap check. *)
Lemma legacy_read m lo hi :
  log_inv m → 0 < min_index m → min_index m <= lo → lo <= hi → hi <= max_index m →
  contiguous e_index lo (get_entries_range m lo hi) ∧
  lo + N.of_nat (length (get_entries_range m lo hi)) = hi + 1 ∧
  entries_are_contiguous_in_range (get_entries_range m lo hi) lo hi = true ∧
  Forall (λ e, entries m !! e_index e = Some e) (get_entries_range m lo hi).
Proof.
  intros Hinv H0 Hlo Hle Hhi.
  destruct (get_entries_range_run m lo hi (N.to_nat (hi + 1 - lo))) as [Hc Hl]; [done|done|done|done|lia|].
  pose proof (inv_u64 m Hinv). split; [done|]. split; [lia|]. split.
  - apply contiguous_in_range; [done|lia|lia|lia|lia].
  - apply Forall_forall. by intros e [? _]%(get_entries_range_elem m lo hi e Hinv).
Qed.

(** The leader that has just appended [new_entries] for [ps] to [m], giving [m']. *)
Section leader.
Context (m m' : LogMem) (term max_legacy : N) (ps : list EntryPayload) (new_entries : list Entry).
Hypothesis Hinv : log_inv m.
Hypothesis Hb : boundary_adjacent m.
Hypothesis Hfresh : ids_fresh m.
Hypothesis Happ : appended_leader m m' term ps new_entries.
Hypothesis Hlegacy : 0 < max_legacy.

(** The next index recorded for a peer does not overshoot the log, and its
    backlog fits into one request when new entries are appended after it. *)
Definition peer_in_reach (n : N) : Prop :=
  1 <= n ∧ n <= next_id m ∧ (ps = [] ∨ next_id m <= n + max_legacy).

Lemma new_entries_live : Forall (λ e, entries m' !! e_index e = Some e) new_entries.
Proof.
  apply Forall_forall. intros e He. rewrite (al_entries _ _ _ _ _ Happ).
  by eapply insert_entries_elem; [apply (al_proposed _ _ _ _ _ Happ)|].
Qed.

Lemma until_bounds n :
  n <= max_index m → peer_in_reach n →
  n <= until_index (max_index m) n max_legacy ∧ until_index (max_index m) n max_legacy <= max_index m ∧
  (ps = [] ∨ until_index (max_index m) n max_legacy = max_index m).
Proof.
  intros Hn (? & ? & Hfit). unfold until_index.
  assert (next_id m = max_index m + 1) as Hnext.
  { unfold ids_fresh, boundary_adjacent in *. pose proof (inv_order m Hinv). lia. }
  case_bool; destruct Hfit; (split; [lia|]); (split; [lia|]); auto. right. lia.
Qed.

Lemma retrieve_ready n xs :
  peer_in_reach n →
  retrieve_for_peer m' new_entries (max_index m) max_legacy (min_index m') n = Some (Ready xs) →
  Forall (λ e, entries m' !! e_index e = Some e) xs ∧
  (contiguous e_index n xs ∨ (max_index m = 0 ∧ n < next_id m)).
Proof.
  intros Hn. unfold retrieve_for_peer. rewrite (proj2 (N.ltb_lt _ _) Hlegacy).
  pose proof new_entries_live as Hlive.
  pose proof (al_proposed _ _ _ _ _ Happ) as [Hc _ _].
  assert (Hmaxm' : max_index m <= max_index m').
  { rewrite (al_max _ _ _ _ _ Happ). pose proof (inv_next m Hinv). case_decide; lia. }
  destruct (N.leb_spec n (max_index m)) as [Hle|Hlt].
  - destruct (N.ltb_spec n (min_index m')) as [|Hge]; [done|].
    destruct (until_bounds n Hle Hn) as (Hu1 & Hu2 & Hu3).
    assert (0 < min_index m').
    { destruct Hn as [? _]. rewrite (al_min _ _ _ _ _ Happ). pose proof (inv_zero m Hinv). case_decide; lia. }
    destruct (legacy_read m' n (until_index (max_index m) n max_legacy)) as (Hlc & Hll & -> & Hlf);
      [apply (al_inv _ _ _ _ _ Happ)|done|done|done|lia|].
    destruct (_ ++ new_entries) as [|x xs0] eqn:Hxs; [done|]. intros [= <-]. rewrite <-Hxs.
    split; [apply Forall_app; split; done|].
    left. apply contiguous_app. split; [done|]. rewrite Hll.
    destruct Hu3 as [->|Hu3].
    + pose proof (proposed_length _ _ _ _ (al_proposed _ _ _ _ _ Happ)). by destruct new_entries.
    + rewrite Hu3. unfold ids_fresh, boundary_adjacent in *. pose proof (inv_order m Hinv).
      replace (max_index m + 1) with (next_id m) by (destruct Hn; lia). done.
  - rewrite app_nil_l. intros Hr. assert (xs = new_entries) as -> by (destruct new_entries; congruence).
    split; [done|].
    destruct Hn as (? & Hn & _). unfold ids_fresh, boundary_adjacent in *. pose proof (inv_order m Hinv).
    destruct (decide (n = next_id m)) as [->|]; [by left|right; lia].
Qed.
End leader.

Lemma known_term_zero m : log_inv m → known_term m 0 = None.
Proof.
  intros Hinv. unfold known_term. destruct (entries m !! 0) eqn:E.
  - assert (is_Some (entries m !! 0)) as Hd by eauto. apply (inv_dom m Hinv) in Hd. lia.
  - case_bool; simpl; (done || lia).
Qed.

(** On a well-formed log a request can always be classified. *)
Lemma build_append_request_spec my_id m id epp data :
  log_inv m → segments_fit m →
  let next := N.min (default 1 (peer_next_indices data !! id)) (max_index m + 1) in
  ∃ o epp', build_append_request my_id m id epp data = Some (Ok (id, o), epp') ∧
    ((o = BNeedSnapshot ∧ epp' = epp ∧ next - 1 < min_index m ∧ 1 < min_index m) ∨
     ∃ t, o = BAppend (mkAppendEntriesRequest (rd_current_term data) my_id (next - 1) t
                         (default [] (epp !! id)) (rd_commit_index data)) next ∧
       epp' = delete id epp ∧
       ((next - 1 = 0 ∧ t = 0 ∧ min_index m <= 1) ∨
        (0 < next - 1 ∧ known_term m (next - 1) = Some t))).
Proof.
  intros Hinv Hfit next. unfold build_append_request, first_entry_id, last_entry_id. fold next.
  rewrite entry_term_known by done. destruct (known_term m (next - 1)) as [t|] eqn:Hk.
  - eexists _, _. split; [done|]. right. exists t. split; [done|]. split; [done|]. right.
    split; [|done]. destruct (decide (next - 1 = 0)) as [H0|]; [|lia].
    rewrite H0, known_term_zero in Hk by done. done.
  - destruct ((next - 1 =? 0) && (min_index m <=? 1)) eqn:E.
    { apply andb_prop in E as [E%N.eqb_eq ?%N.leb_le]. eexists _, _. split; [done|]. right. exists 0. auto 6. }
    destruct (N.ltb_spec (next - 1) (min_index m)) as [Hlt|Hge].
    { eexists _, _. split; [done|]. left. split_and!; try done.
      destruct (N.eqb_spec (next - 1) 0), (N.leb_spec (min_index m) 1); simpl in E; (done || lia). }
    exfalso. assert (next - 1 <= max_index m) by lia.
    pose proof (inv_zero m Hinv). unfold known_term in Hk.
    destruct (decide (0 < min_index m)) as [Hpos|].
    + destruct (proj2 (inv_dom m Hinv (next - 1))) as [e He]; [lia|]. by rewrite He in Hk.
    + assert (next - 1 = 0 ∧ min_index m <= 1) as [E0 ?] by lia.
      rewrite E0 in E. rewrite (proj2 (N.leb_le _ _)) in E by lia. done.
Qed.

Definition target_served (pr : PrepareResult) (id : N) : Prop :=
  (∃ req eff, (id, req, eff) ∈ append_requests pr) ∨ id ∈ snapshot_targets pr.

Lemma build_requests_spec my_id m data skip (epp0 : gmap N (list Entry))
    (P : N * AppendEntriesRequest * N → Prop) :
  log_inv m → segments_fit m →
  (∀ id epp epp' req eff, epp ⊆ epp0 →
    build_append_request my_id m id epp data = Some (Ok (id, BAppend req eff), epp') → P (id, req, eff)) →
  ∀ targets epp reqs snaps, epp ⊆ epp0 → Forall P reqs →
  ∃ pr, build_requests my_id m data skip targets epp reqs snaps = Some pr ∧
    Forall P (append_requests pr) ∧
    (∀ x, x ∈ reqs → x ∈ append_requests pr) ∧ (∀ x, x ∈ snaps → x ∈ snapshot_targets pr) ∧
    (∀ peer, peer ∈ targets → nm_id peer ∈ skip ∨ target_served pr (nm_id peer)).
Proof.
  intros Hinv Hfit HP targets. induction targets as [|peer targets IH]; intros epp reqs snaps Hsub Hreqs.
  { eexists. split; [done|]. split_and!; try done. intros p Hp. by apply not_elem_of_nil in Hp. }
  simpl. case_bool_decide as Hskip.
  { destruct (IH epp reqs snaps Hsub Hreqs) as (pr & -> & ? & ? & ? & Hs). exists pr. split_and!; try done.
    intros p [->|Hp]%elem_of_cons; [by left|auto]. }
  destruct (build_append_request_spec my_id m (nm_id peer) epp data Hinv Hfit)
    as (o & epp' & Hbuild & [(-> & -> & _)|(t & -> & -> & _)]); rewrite Hbuild.
  - destruct (IH epp reqs (snaps ++ [nm_id peer]) Hsub Hreqs) as (pr & -> & ? & ? & Hsn & Hs).
    exists pr. split_and!; try done; [intros x Hx; apply Hsn, elem_of_app; by left|].
    intros p [->|Hp]%elem_of_cons; [|auto]. right. right. apply Hsn, elem_of_app. right. by left.
  - destruct (IH (delete (nm_id peer) epp)
      (reqs ++ [(nm_id peer, mkAppendEntriesRequest (rd_current_term data) my_id
         (N.min (default 1 (peer_next_indices data !! nm_id peer)) (max_index m + 1) - 1) t
         (default [] (epp !! nm_id peer)) (rd_commit_index data),
         N.min (default 1 (peer_next_indices data !! nm_id peer)) (max_index m + 1))]) snaps)
      as (pr & -> & ? & Hin & Hsn & Hs).
    + etrans; [apply delete_subseteq|done].
    + apply Forall_app. split; [done|]. apply Forall_singleton. eapply HP; [exact Hsub|exact Hbuild].
    + exists pr. split_and!; try done; [intros x Hx; apply Hin, elem_of_app; by left|].
      intros p [->|Hp]%elem_of_cons; [|auto]. right. left. eexists _, _. apply Hin, elem_of_app.
      right. by left.
Qed.

(** ** The whole preparation *)

(** A leader that can take [ps] as new entries. *)
Record leader_ready (l : BufferedRaftLog) (term : N) (ps : list EntryPayload) : Prop := mk_leader_ready {
  ld_inv : log_inv (mem l);
  ld_boundary : boundary_adjacent (mem l);
  ld_fresh : ids_fresh (mem l);
  ld_fit : (seg_count (term_segments (mem l)) < MAX_TERM_SEGMENTS)%nat;
  ld_healthy : poisoned l = false;
  ld_term : term ≠ 0;
  ld_room : next_id (mem l) + N.of_nat (length ps) <= u64_max;
}.

Lemma generate_new_entries_fit l ps term l' es :
  Forall (λ e, e_term e = term) es → generate_new_entries l ps term = Some (l', Ok es) →
  (seg_count (term_segments (mem l)) < MAX_TERM_SEGMENTS)%nat → segments_fit (mem l').
Proof.
  intros Hes Hg Hfit. unfold segments_fit. unfold generate_new_entries in Hg.
  destruct ps as [|p ps]; [injection Hg as <- _; lia|].
  destruct (pre_allocate_id_range _ _) as [[[s e] m1]|] eqn:Ha; [|done].
  assert (term_segments m1 = term_segments (mem l)) as Hm1.
  { unfold pre_allocate_id_range in Ha. repeat case_match; simplify_eq; done. }
  destruct (e <? s); [done|]. destruct (number_entries _ _ _ _) as [[|x xs]|]; [by injection Hg as <- _; simpl; rewrite Hm1; lia| |done].
  unfold insert_batch, append_entries in Hg. simpl poisoned in Hg.
  destruct (poisoned l); [done|]. simpl in Hg. injection Hg as <- <-.
  change (seg_count (ts_on_append (term_segments m1) (x :: xs)) <= MAX_TERM_SEGMENTS)%nat.
  pose proof (ts_count_same_term (term_segments m1) _ _ Hes) as Hc. rewrite Hm1 in *. lia.
Qed.

Lemma retrieve_not_corrupt m m' term max_legacy ps es n s e f la c :
  log_inv m → boundary_adjacent m → ids_fresh m → appended_leader m m' term ps es → 0 < max_legacy →
  peer_in_reach m max_legacy ps n →
  retrieve_for_peer m' es (max_index m) max_legacy (min_index m') n ≠ Some (CorruptGap s e f la c).
Proof.
  intros Hinv Hb Hf Happ Hleg Hn. unfold retrieve_for_peer. rewrite (proj2 (N.ltb_lt _ _) Hleg).
  destruct (N.leb_spec n (max_index m)) as [Hle|]; [|by destruct (_ ++ _)].
  destruct (N.ltb_spec n (min_index m')); [done|].
  destruct (until_bounds m max_legacy ps Hinv Hb Hf Hleg n Hle Hn) as (Hu1 & Hu2 & _).
  assert (0 < min_index m').
  { destruct Hn as [? _]. rewrite (al_min _ _ _ _ _ Happ). pose proof (inv_zero m Hinv). case_decide; lia. }
  destruct (legacy_read m' n (until_index (max_index m) n max_legacy)) as (_ & _ & -> & _);
    [apply (al_inv _ _ _ _ _ Happ)|done|done|done| |by destruct (_ ++ _)].
  rewrite (al_max _ _ _ _ _ Happ). pose proof (inv_next m Hinv). case_decide; lia.
Qed.

(** A request as the leader of [ss] builds it from its log [m], with the next index
    that goes back to the ledger. *)
Definition sound_request (my_id : N) (m : LogMem) (ss : StateSnapshot)
    (x : N * AppendEntriesRequest * N) : Prop :=
  let '(_, req, eff) := x in
  leader_request m req ∧ eff = ar_prev_log_index req + 1 ∧ ar_term req = ss_current_term ss ∧
  ar_leader_id req = my_id ∧ ar_leader_commit_index req = ss_commit_index ss.

Section prepare.
Context (my_id max_legacy : N) (l l' : BufferedRaftLog) (ps : list EntryPayload) (es : list Entry)
  (ss : StateSnapshot) (nexts : gmap N N).
Hypothesis Hready : leader_ready l (ss_current_term ss) ps.
Hypothesis Hlegacy : 0 < max_legacy.
Hypothesis Hreach : ∀ id n, nexts !! id = Some n → peer_in_reach (mem l) max_legacy ps n.
Hypothesis Happ : appended_leader (mem l) (mem l') (ss_current_term ss) ps es.
Hypothesis Hfit : segments_fit (mem l').

Let data := mkReplicationData (last_entry_id (mem l)) (ss_current_term ss) (ss_commit_index ss) nexts.
Let res := retrieve_to_be_synced_logs_for_peers my_id (mem l') es (last_entry_id (mem l)) max_legacy
             nexts (first_entry_id (mem l')).

Lemma retrieved id r :
  res !! id = Some r → ∃ n, nexts !! id = Some n ∧ peer_in_reach (mem l) max_legacy ps n ∧
    retrieve_for_peer (mem l') es (max_index (mem l)) max_legacy (min_index (mem l')) n = Some r.
Proof.
  unfold res, retrieve_to_be_synced_logs_for_peers. rewrite map_lookup_imap.
  destruct (nexts !! id) as [n|] eqn:Hn; [|done]. simpl. destruct (id =? my_id); [done|]. eauto.
Qed.

Lemma ready_nonempty m new last ml fi n xs : retrieve_for_peer m new last ml fi n = Some (Ready xs) → xs ≠ [].
Proof. unfold retrieve_for_peer. intros H ->. repeat case_match; simplify_eq. Qed.

(** The next index used for a peer with entries to send is the recorded one. *)
Lemma ready_next n xs :
  peer_in_reach (mem l) max_legacy ps n →
  retrieve_for_peer (mem l') es (max_index (mem l)) max_legacy (min_index (mem l')) n = Some (Ready xs) →
  n <= max_index (mem l') + 1 ∧ (ps = [] → n <= max_index (mem l)).
Proof.
  intros (? & Hn & _) Hr. rewrite (al_max _ _ _ _ _ Happ).
  pose proof (inv_next _ (ld_inv _ _ _ Hready)). case_decide as Hps.
  - assert (es = []) as ->.
    { pose proof (proposed_length _ _ _ _ (al_proposed _ _ _ _ _ Happ)) as Hl. rewrite Hps in Hl.
      by apply nil_length_inv. }
    unfold retrieve_for_peer in Hr. destruct (N.leb_spec n (max_index (mem l))); [split; lia|done].
  - split; [|done]. destruct ps; [done|]. simpl length. lia.
Qed.

Lemma built_request_sound id epp epp' req eff :
  epp ⊆ (sort_peers res).1.1 →
  build_append_request my_id (mem l') id epp data = Some (Ok (id, BAppend req eff), epp') →
  sound_request my_id (mem l') ss (id, req, eff).
Proof.
  intros Hsub Hb. destruct Hready as [Hinv Hba Hfr _ _ _ _]. pose proof (al_inv _ _ _ _ _ Happ) as Hinv'.
  destruct (build_append_request_spec my_id (mem l') id epp data Hinv' Hfit)
    as (o & epp2 & Hb' & Ho). rewrite Hb in Hb'. injection Hb' as <- <-.
  destruct Ho as [[? _]|(t & [= -> ->] & _ & Hprev)]; [done|]. simpl. simpl in Hprev.
  set (next := N.min (default 1 (nexts !! id)) (max_index (mem l') + 1)) in *.
  assert (Hnext : 1 <= next).
  { unfold next. destruct (nexts !! id) as [n|] eqn:Hn; simpl; [destruct (Hreach _ _ Hn)|]; lia. }
  split; [|split_and!; (done || lia)].
  destruct (epp !! id) as [xs|] eqn:Hx; simpl.
  2:{ split; simpl; [naive_solver|done|done]. }
  assert (Hxs : res !! id = Some (Ready xs)).
  { eapply lookup_weaken in Hx; [|exact Hsub]. simpl in Hx. rewrite lookup_omap in Hx.
    destruct (res !! id) as [[]|]; simplify_eq/=; done. }
  destruct (retrieved _ _ Hxs) as (n & Hn & Hin & Hret). destruct (ready_next n xs Hin Hret) as [Hn1 Hn2].
  assert (next = n) as Hnn by (unfold next; rewrite Hn; simpl; lia).
  destruct (retrieve_ready _ _ _ _ _ _ Hinv Hba Hfr Happ Hlegacy n xs Hin Hret) as [Hlive Hc].
  rewrite Hnn in *. split; simpl; [naive_solver| |done].
  replace (n - 1 + 1) with n by lia. destruct Hc as [Hc|[H0 Hlt]]; [done|]. exfalso.
  assert (ps ≠ []) by (intros Hps; specialize (Hn2 Hps); lia).
  pose proof (inv_order _ Hinv). pose proof (al_min _ _ _ _ _ Happ) as Hmin. rewrite decide_True in Hmin by (split; [lia|done]).
  destruct Hprev as [(? & _ & ?)|[Hpos Hk]]; [lia|]. unfold known_term in Hk.
  destruct (entries (mem l') !! (n - 1)) as [e|] eqn:E.
  - assert (is_Some (entries (mem l') !! (n - 1))) as Hd by eauto. apply (inv_dom _ Hinv') in Hd. lia.
  - destruct (al_purged _ _ _ _ _ Happ) as [Hpi _]. unfold ids_fresh in Hfr. rewrite Hpi in Hk.
    case_bool_in Hk; simpl in Hk; (done || lia).
Qed.

Lemma skipped_served id :
  id ∈ (sort_peers res).2 → id ∈ (sort_peers res).1.2.
Proof.
  simpl. rewrite elem_of_dom, lookup_omap. intros [u Hu].
  destruct (res !! id) as [r|] eqn:Hr; [|done]. simpl in Hu. apply list_elem_of_omap.
  exists (id, r). split; [by apply elem_of_map_to_list|]. destruct r as [xs| |s e f la c]; [done|done|].
  destruct (retrieved _ _ Hr) as (n & _ & Hin & Hret). exfalso.
  destruct Hready as [Hinv Hba Hfr _ _ _ _].
  by eapply (retrieve_not_corrupt _ _ _ _ _ _ _ _ _ _ _ _ Hinv Hba Hfr Happ Hlegacy Hin).
Qed.
End prepare.

Lemma prepare_spec my_id max_legacy l ps ss lss cm :
  leader_ready l (ss_current_term ss) ps → 0 < max_legacy →
  (∀ id n, lss_next_index lss !! id = Some n → peer_in_reach (mem l) max_legacy ps n) →
  ∃ l' pr es, prepare_batch_requests my_id max_legacy l ps ss lss cm = Some (l', Ok pr) ∧
    appended_leader (mem l) (mem l') (ss_current_term ss) ps es ∧ segments_fit (mem l') ∧
    Forall (sound_request my_id (mem l') ss) (append_requests pr) ∧
    ∀ peer, peer ∈ replication_targets cm → target_served pr (nm_id peer).
Proof.
  intros Hready Hleg Hreach. pose proof Hready as [Hinv Hb Hf Hseg Hp Ht Hroom].
  destruct (generate_new_entries_ok l ps _ Hinv Hb Hf Hp Ht Hroom) as (l' & es & Hg & Happ).
  assert (Hfit : segments_fit (mem l')).
  { eapply generate_new_entries_fit; [apply (al_proposed _ _ _ _ _ Happ)|done|done]. }
  unfold prepare_batch_requests. rewrite Hg. destruct (replication_targets cm) as [|t0 ts].
  { eexists l', _, es. split; [done|]. split_and!; try done.
    intros peer Hin. by apply not_elem_of_nil in Hin. }
  cbv zeta. destruct (sort_peers _) as [[epp snaps] skip] eqn:Hsort.
  destruct (build_requests_spec my_id (mem l')
    (mkReplicationData (last_entry_id (mem l)) (ss_current_term ss) (ss_commit_index ss) (lss_next_index lss))
    skip epp (sound_request my_id (mem l') ss) (al_inv _ _ _ _ _ Happ) Hfit) with (targets := t0 :: ts)
    (epp := epp) (reqs := @nil (N * AppendEntriesRequest * N)) (snaps := snaps)
    as (pr & -> & Hall & _ & Hsn & Hserved); [|done|constructor|].
  { intros id epp1 epp2 req eff Hsub Hbuild.
    eapply (built_request_sound my_id max_legacy l l' ps es ss (lss_next_index lss) Hready Hleg Hreach Happ Hfit);
      [|exact Hbuild]. simpl in Hsort. simpl. injection Hsort as Hepp _ _. by rewrite Hepp. }
  exists l', pr, es. split; [done|]. split_and!; try done.
  intros peer Hin. destruct (Hserved peer Hin) as [Hsk|]; [|done]. right. apply Hsn.
  pose proof (skipped_served my_id max_legacy l l' ps es ss (lss_next_index lss) Hready Hleg Hreach Happ (nm_id peer)) as Hss.
  simpl peer_next_indices in Hsort. rewrite Hsort in Hss. by apply Hss.
Qed.

(** ** Probing for the point of agreement *)

(** One round of probing peer [f]: the leader builds a request without entries at
    [next], the follower checks it, and the leader digests a conflict. [inl] is the
    next index to try, [inr] acceptance. *)
Definition probe_round (leader_id f term : N) (ml mf : LogMem) (next : N) : option (N + N) :=
  match build_append_request leader_id ml f ∅
          (mkReplicationData (last_entry_id ml) term 0 {[ f := next ]}) with
  | Some (Ok (_, BAppend req eff), _) =>
      let! resp := check_append_entries_request_is_legal f term req mf in
      match resp_result resp with
      | Some (Conflict c) =>
          match handle_conflict_response c ml eff with
          | Ok u => Some (inl (pu_next_index u))
          | Err _ => None
          end
      | Some (Success _) => Some (inr eff)
      | _ => None
      end
  | _ => None
  end.

Fixpoint probe (fuel : nat) (leader_id f term : N) (ml mf : LogMem) (next : N) : option N :=
  match fuel with
  | O => None
  | S fuel' =>
      match probe_round leader_id f term ml mf next with
      | Some (inl n) => probe fuel' leader_id f term ml mf n
      | Some (inr eff) => Some eff
      | None => None
      end
  end.

(** A log that still starts at index 1. *)
Definition unpurged (m : LogMem) : Prop := min_index m <= 1 ∧ last_purged_index m = 0.

(** The entries of one term come from one leader, which wrote them in index order: a
    log that holds a later one of them holds the earlier ones too. *)
Definition term_runs_agree (a b : gmap N Entry) : Prop :=
  ∀ i j x y, i <= j → a !! j = Some x → b !! i = Some y → e_term x = e_term y →
  ∃ z, a !! i = Some z ∧ e_term z = e_term y.

Section probing.
Context (leader_id f term : N) (ml mf : LogMem).
Hypothesis Hl : log_inv ml.
Hypothesis Hlfit : segments_fit ml.
Hypothesis Hlu : unpurged ml.
Hypothesis Hf : log_inv mf.
Hypothesis Hffit : segments_fit mf.
Hypothesis Hfu : unpurged mf.
Hypothesis Hruns : term_runs_agree (entries ml) (entries mf).

Lemma unpurged_known m i : log_inv m → unpurged m → known_term m i = e_term <$> entries m !! i.
Proof.
  intros _ [_ Hp]. unfold known_term. destruct (entries m !! i); [done|]. by rewrite Hp.
Qed.

(** A mismatch at [prev] sends the leader to a strictly smaller next index. *)
Lemma conflict_moves_back prev t u :
  0 < prev → e_term <$> entries ml !! prev = Some t → e_term <$> entries mf !! prev = Some u → t ≠ u →
  ∃ p, handle_conflict_response
         (mkConflictResult (Some u) (Some (match first_index_for_term mf u with
                                           | Some i => i | None => prev - 1 end))) ml (prev + 1) = Ok p ∧
       1 <= pu_next_index p ∧ pu_next_index p <= prev.
Proof.
  intros Hpos Ht Hu Hne. unfold handle_conflict_response. simpl. eexists. split; [done|]. simpl.
  split; [lia|]. apply N.max_lub; [|lia].
  destruct (entries ml !! prev) as [e|] eqn:Ee; [|done]. destruct (entries mf !! prev) as [g|] eqn:Eg; [|done].
  simpl in *. simplify_eq.
  destruct (last_index_for_term ml (e_term g)) as [k|] eqn:Hk.
  - unfold last_index_for_term in Hk. rewrite (proj2 (inv_terms ml Hl)) in Hk.
    apply find_last_of_term_Some in Hk as [(x & Hx & Hxt) _].
    destruct (decide (prev <= k)) as [Hle|]; [|lia].
    destruct (Hruns prev k x g Hle Hx Eg Hxt) as (z & Hz & Hzt). congruence.
  - destruct (first_index_for_term mf (e_term g)) as [i|] eqn:Hi; [|lia].
    unfold first_index_for_term in Hi. rewrite (proj1 (inv_terms mf Hf)) in Hi.
    apply find_first_of_term_Some in Hi as [_ Hmin]. by apply (Hmin prev g).
Qed.

(** The two logs hold an entry of the same term right before [next]. *)
Definition meet_before (next : N) : Prop :=
  next = 1 ∨ ∃ t, e_term <$> entries ml !! (next - 1) = Some t ∧ e_term <$> entries mf !! (next - 1) = Some t.

Lemma probe_round_progress next :
  1 <= next →
  (∃ eff, probe_round leader_id f term ml mf next = Some (inr eff) ∧ 1 <= eff <= next ∧ meet_before eff) ∨
  (∃ n, probe_round leader_id f term ml mf next = Some (inl n) ∧ 1 <= n < next).
Proof.
  intros Hn. unfold probe_round.
  destruct (build_append_request_spec leader_id ml f ∅
    (mkReplicationData (last_entry_id ml) term 0 {[ f := next ]}) Hl Hlfit) as (o & epp & -> & Ho).
  simpl in Ho. rewrite lookup_singleton_eq in Ho. simpl in Ho.
  set (nx := N.min next (max_index ml + 1)) in *. assert (1 <= nx <= next) by lia.
  destruct Ho as [(_ & _ & _ & ?)|(t & -> & _ & Hprev)]; [destruct Hlu; lia|].
  unfold check_append_entries_request_is_legal. simpl. rewrite N.ltb_irrefl.
  destruct Hprev as [(H0 & -> & _)|[Hpos Hk]].
  { rewrite H0. simpl. left. eexists. split; [done|]. split; [lia|]. left. lia. }
  rewrite (proj2 (N.eqb_neq (nx - 1) 0)) by lia. simpl.
  rewrite entry_term_known by done. rewrite unpurged_known in * by done.
  destruct (e_term <$> entries mf !! (nx - 1)) as [u|] eqn:Hu.
  - destruct (N.eqb_spec u t) as [->|Hne].
    { left. eexists. simpl. split; [done|]. split; [lia|]. right. eauto. }
    right.
    destruct (conflict_moves_back (nx - 1) t u) as (p & Hp & ? & ?); [done|done|done|congruence|].
    injection Hp as <-. simpl in *. eexists. split; [done|lia].
  - right. eexists. split; [done|]. unfold pu_next_index.
    assert (max_index mf < nx - 1) as Hmax.
    { destruct (entries mf !! (nx - 1)) eqn:E; [done|]. destruct Hfu as [Hmin _].
      pose proof (inv_zero mf Hf). destruct (decide (nx - 1 <= max_index mf)); [|lia].
      destruct (proj2 (inv_dom mf Hf (nx - 1))) as [? ?]; [lia|congruence]. }
    unfold last_log_id, last_entry_id. destruct (N.ltb_spec 0 (max_index mf)) as [Hp|Hz].
    + destruct (proj2 (inv_dom mf Hf (max_index mf))) as [e He];
        [pose proof (inv_order mf Hf); pose proof (inv_zero mf Hf); lia|].
      unfold entry. rewrite He. simpl. destruct (inv_entry mf Hf _ _ He) as [-> _]. lia.
    + destruct Hfu as [_ ->]. simpl. lia.
Qed.

Lemma probe_terminates fuel next :
  1 <= next → (N.to_nat next <= fuel)%nat →
  ∃ n, probe fuel leader_id f term ml mf next = Some n ∧ 1 <= n <= next ∧ meet_before n.
Proof.
  revert next. induction fuel as [|fuel IH]; intros next Hn Hfuel; [lia|]. simpl.
  destruct (probe_round_progress next Hn) as [(eff & -> & ?)|(n & -> & Hlt)]; [eauto|].
  destruct (IH n) as (k & -> & ? & ?); [lia|lia|]. eexists. split; [done|]. split; [lia|done].
Qed.
End probing.
