(* ===== verification/ReplicationProps.v ===== *)
(** * Properties of log replication

    The leader side sends its own log, the follower side ends up agreeing with it,
    and probing finds the point of agreement; then the executions in which a handler
    departs from its documented rule. *)

From stdpp Require Import base tactics numbers option list sorting gmap strings.
From S2P Require Import Prelude Types TermSegments BufferedLog LogInv LogSpec Replication ReplicationSpec.

(** ** Example logs *)

Definition cmd (i : N) : EntryPayload := payload_command [i].
Definition rent (i t : N) : Entry := mkEntry i t (Some (cmd i)).
Definition rlog (es : list Entry) : BufferedRaftLog :=
  log_new (N.of_nat (length es)) (Some es) (Some None).

Lemma rlog_inv es :
  contiguous e_index 1 es → Forall (λ e, e_term e ≠ 0) es → N.of_nat (length es) <= u64_max →
  log_inv (mem (rlog es)).
Proof. intros. apply new_mem_inv with 1; try done; lia. Qed.

Definition lead4 : BufferedRaftLog := rlog [rent 1 1; rent 2 1; rent 3 3; rent 4 3].
Definition foll4 : BufferedRaftLog := rlog [rent 1 1; rent 2 1; rent 3 2; rent 4 2].

Lemma lead4_inv : log_inv (mem lead4).
Proof. apply rlog_inv; [done|by repeat constructor|done]. Qed.

Lemma foll4_inv : log_inv (mem foll4).
Proof. apply rlog_inv; [done|by repeat constructor|done]. Qed.

(** Decide a statement about all live entries of two small logs by listing them. *)
Lemma logs_match_list (a b : gmap N Entry) :
  Forall (λ p, Forall (λ q, p.1 = q.1 → e_term p.2 = e_term q.2 →
    Forall (λ x, x.1 <= p.1 → b !! x.1 = None ∨ b !! x.1 = Some x.2) (map_to_list a)) (map_to_list b))
    (map_to_list a) → logs_match a b.
Proof.
  intros H i ea eb Ha Hb Ht j x y Hj Hx Hy. apply elem_of_map_to_list in Ha, Hb, Hx.
  rewrite Forall_forall in H. specialize (H _ Ha). rewrite Forall_forall in H. specialize (H _ Hb eq_refl Ht).
  rewrite Forall_forall in H. destruct (H _ Hx Hj); simpl in *; congruence.
Qed.

Lemma terms_sorted_list (a : gmap N Entry) :
  Forall (λ p, Forall (λ q, p.1 <= q.1 → e_term p.2 <= e_term q.2) (map_to_list a)) (map_to_list a) →
  terms_sorted a.
Proof.
  intros H i j x y Hij Hx Hy. apply elem_of_map_to_list in Hx, Hy.
  rewrite Forall_forall in H. specialize (H _ Hx). rewrite Forall_forall in H. by apply (H _ Hy).
Qed.

Lemma term_runs_list (a b : gmap N Entry) :
  Forall (λ p, Forall (λ q, q.1 <= p.1 → e_term p.2 = e_term q.2 →
    e_term <$> a !! q.1 = Some (e_term q.2)) (map_to_list b)) (map_to_list a) → term_runs_agree a b.
Proof.
  intros H i j x y Hij Hx Hy Ht. apply elem_of_map_to_list in Hx, Hy.
  rewrite Forall_forall in H. specialize (H _ Hx). rewrite Forall_forall in H.
  specialize (H _ Hy Hij Ht). simpl in H. apply fmap_Some in H as (z & ? & ?). eauto.
Qed.

Lemma lead4_foll4 : replica_pair (mem lead4) foll4.
Proof.
  split; [apply lead4_inv|right; by left| |apply foll4_inv|right; by left|vm_compute; lia| |done].
  - apply terms_sorted_list. by apply (bool_decide_unpack _); vm_compute.
  - apply logs_match_list. by apply (bool_decide_unpack _); vm_compute.
Qed.

(** ** Leader side *)


Definition ss3 : StateSnapshot := mkStateSnapshot 3 3 None 2.
Definition cm3 : ClusterMetadata :=
  mkClusterMetadata false 3 [mkNodeMeta 2 "b" 1 3; mkNodeMeta 3 "c" 1 3].
Definition lss3 : LeaderStateSnapshot := mkLeaderStateSnapshot {[ 2 := 3; 3 := 5 ]} ∅ None.

Lemma lead4_ready : leader_ready lead4 3 [cmd 9].
Proof. split; [apply lead4_inv|right; by left|done|vm_compute; lia|done|done|by vm_compute]. Qed.


(** ** Follower side *)

(** C20: A follower that handles a request cut from its leader's log either rejects it —
    stale term or unknown [prev] — leaving its log and commit index alone, or accepts
    it: then it holds every entry of the request, the two logs agree on every index both
    hold up to the last index the request covers ([prev] plus the number of entries), Log
    Matching between them is preserved, its log is well formed, and it answers success.
    The acknowledged id is that of the last entry sent when the request has entries; to a
    request without entries the follower answers with its own last id, whose agreement
    with the leader is not claimed ([empty_append_acknowledges_unverified_tail] below).
    Conditions ([replica_pair]): both logs are well formed with their first entry right
    after the purge boundary, with terms that do not
    decrease on the leader and Log Matching between them, the follower's log is neither
    poisoned nor closed, its term segments are within their bound, and the write is
    confirmed. *)
Theorem follower_adopts_or_rejects ml lf my_id dn req ss :
  replica_pair ml lf → leader_request ml req →
  ∃ lf' u, handle_append_entries my_id req ss lf dn (Some (Ok tt)) = Some (lf', Ok u) ∧
    (accepts (ss_current_term ss) req (mem lf) →
      ∃ lid, aru_response u = response_success my_id (ss_current_term ss) lid ∧ adopted ml lf req lf' lid) ∧
    (¬ accepts (ss_current_term ss) req (mem lf) →
      lf' = lf ∧ is_success (aru_response u) = false ∧ commit_index_update u = None).
Proof.
  intros Hp Hreq. destruct (decide (ss_current_term ss <= ar_term req ∧
    ((ar_prev_log_index req = 0 ∧ ar_prev_log_term req = 0) ∨
     known_term (mem lf) (ar_prev_log_index req) = Some (ar_prev_log_term req)))) as [Ha|Hna].
  - destruct (handle_append_entries_adopts ml lf my_id dn req ss Hp Hreq Ha) as (l' & lid & -> & Had).
    eexists _, _. split; [done|]. split; [eauto|done].
  - destruct Hp as [_ _ _ Hf _ Hfit _ _].
    destruct (check_legal_spec my_id (ss_current_term ss) req _ Hf Hfit) as (r & Hr & _ & Hno).
    destruct (Hno Hna) as [Hbad Hs]. unfold handle_append_entries. rewrite Hr, Hbad.
    eexists _, _. split; [done|]. split; [done|]. done.
Qed.

Definition req23 : AppendEntriesRequest :=
  mkAppendEntriesRequest 3 1 2 1 [rent 3 3; rent 4 3] 4.

Lemma follower_adopts_or_rejects_witness :
  leader_request (mem lead4) req23 ∧
  ∃ lf' u, handle_append_entries 2 req23 (mkStateSnapshot 1 2 None 1) foll4 7 (Some (Ok tt)) = Some (lf', Ok u) ∧
    (accepts 2 req23 (mem foll4) →
      ∃ lid, aru_response u = response_success 2 2 lid ∧ adopted (mem lead4) foll4 req23 lf' lid) ∧
    (¬ accepts 2 req23 (mem foll4) →
      lf' = foll4 ∧ is_success (aru_response u) = false ∧ commit_index_update u = None).
Proof.
  assert (Hreq : leader_request (mem lead4) req23).
  { split; [right; by vm_compute|done|by repeat constructor]. }
  split; [exact Hreq|].
  exact (follower_adopts_or_rejects (mem lead4) foll4 2 7 req23 (mkStateSnapshot 1 2 None 1) lead4_foll4 Hreq).
Defined.

(** ** Probing *)



(** ** Departures from the documented rules *)

(** A peer whose backlog does not fit in one request gets the first part of the
    backlog with the new entries glued to it: the request has a gap, the follower
    stores it with the hole and acknowledges the last index, and the leader records
    everything up to that index as replicated. *)
Theorem lagging_peer_batch_has_gap :
  let leader := rlog [rent 1 1; rent 2 1; rent 3 1; rent 4 1; rent 5 1] in
  let follower := rlog [rent 1 1] in
  match prepare_batch_requests 1 2 leader [cmd 9] (mkStateSnapshot 3 1 None 5)
          (mkLeaderStateSnapshot {[ 2 := 2 ]} ∅ None)
          (mkClusterMetadata false 3 [mkNodeMeta 2 "b" 1 3]) with
  | Some (_, Ok (mkPrepareResult [(2, req, 2)] [])) =>
      e_index <$> ar_entries req = [2; 3; 6] ∧
      match handle_append_entries 2 req (mkStateSnapshot 1 1 None 1) follower 7 (Some (Ok tt)) with
      | Some (f', Ok u) =>
          entry (mem f') 4 = None ∧ entry (mem f') 5 = None ∧ last_entry_id (mem f') = 6 ∧
          aru_response u = response_success 2 1 (Some (mkLogId 1 6)) ∧ commit_index_update u = Some 5 ∧
          handle_success_response 1 (mkSuccessResult (Some (mkLogId 1 6))) 1
            = Ok (mkPeerUpdate (Some 6) 7 true)
      | _ => False
      end
  | _ => False
  end.
Proof. vm_compute. by split_and!. Qed.

(** The commit index of a follower is bounded by its last log index instead of by the
    last entry the request carried: a request that only confirms a common prefix commits
    the follower's own uncommitted tail — here an entry of term 2 where the leader
    committed one of term 3. *)
Theorem follower_commits_unverified_tail :
  let req := mkAppendEntriesRequest 3 1 1 1 [rent 2 1] 4 in
  leader_request (mem lead4) req ∧ replica_pair (mem lead4) foll4 ∧
  ∃ u, handle_append_entries 2 req (mkStateSnapshot 1 3 None 1) foll4 7 (Some (Ok tt))
         = Some (foll4, Ok u) ∧
    commit_index_update u = Some 4 ∧
    entry (mem foll4) 4 = Some (rent 4 2) ∧ entry (mem lead4) 4 = Some (rent 4 3).
Proof.
  split; [split; [right; by vm_compute|done|by repeat constructor]|]. split; [apply lead4_foll4|].
  eexists. split; [by vm_compute|]. by split_and!.
Qed.

(** A success response to a request without entries carries the follower's own last log
    id, which the leader takes as the match index although nothing past [prev] has been
    compared. *)
Theorem empty_append_acknowledges_unverified_tail :
  let leader := rlog [rent 1 1] in
  let req := mkAppendEntriesRequest 3 1 1 1 [] 1 in
  leader_request (mem leader) req ∧
  ∃ u, handle_append_entries 2 req (mkStateSnapshot 1 3 None 1) foll4 7 (Some (Ok tt))
         = Some (foll4, Ok u) ∧
    aru_response u = response_success 2 3 (Some (mkLogId 2 4)) ∧
    handle_success_response 3 (mkSuccessResult (Some (mkLogId 2 4))) 3
      = Ok (mkPeerUpdate (Some 4) 5 true) ∧
    last_entry_id (mem leader) = 1.
Proof.
  split; [split; [right; by vm_compute|done|done]|]. eexists. by split_and!.
Qed.
