(* ===== verification/Election.v ===== *)
(** * Leader election

    [ElectionHandler] of [d-engine-core/src/election/election_handler.rs] with the
    term and log comparisons of [d-engine-core/src/lib.rs] and the majority test of
    [d-engine-core/src/utils/cluster.rs]. The transport is outside: the responses of
    the peers are an argument, in the order they complete ([None] for a failed call
    or task). *)

From stdpp Require Import base tactics numbers option list gmap strings.
From S2P Require Import Prelude Types.

Definition if_higher_term_found (my_current_term term : N) (is_learner : bool) : bool :=
  negb is_learner && (my_current_term <? term).

Definition is_target_log_more_recent
    (my_last_log_index my_last_log_term target_last_log_index target_last_log_term : N) : bool :=
  (my_last_log_term <? target_last_log_term)
  || ((target_last_log_term =? my_last_log_term) && (my_last_log_index <=? target_last_log_index)).

Definition is_majority (num total : N) : bool := total / 2 <? num.

Definition majority_count (total_nodes : N) : N := total_nodes / 2 + 1.

Definition is_follower (role : N) : bool := role =? role_i32 NR_Follower.
Definition is_candidate (role : N) : bool := role =? role_i32 NR_Candidate.
Definition is_leader (role : N) : bool := role =? role_i32 NR_Leader.
Definition is_learner (role : N) : bool := role =? role_i32 NR_Learner.

Record StateUpdate := mkStateUpdate {
  term_update : option N;
  new_voted_for : option VotedFor;
}.

(** ** Candidate side *)

(** The peers a vote request is sent to: self and duplicates are skipped. *)
Fixpoint vote_peers (my_id : N) (members : list NodeMeta) (peer_ids : list N) : list N :=
  match members with
  | [] => peer_ids
  | peer :: members' =>
      if (nm_id peer =? my_id) || bool_decide (nm_id peer ∈ peer_ids)
      then vote_peers my_id members' peer_ids
      else vote_peers my_id members' (peer_ids ++ [nm_id peer])
  end.

(** The loop over the responses: the votes counted, or the error that ends it. *)
Fixpoint count_votes (term last_log_index last_log_term succeed : N)
    (responses : list (option VoteResponse)) : result N :=
  match responses with
  | [] => Ok succeed
  | None :: rs => count_votes term last_log_index last_log_term succeed rs
  | Some r :: rs =>
      if vresp_vote_granted r then count_votes term last_log_index last_log_term (succeed + 1) rs
      else if if_higher_term_found term (vresp_term r) false then Err (HigherTerm (vresp_term r))
      else if is_target_log_more_recent last_log_index last_log_term (vresp_last_log_index r)
                (vresp_last_log_term r)
      then Err (LogConflict last_log_index last_log_term (vresp_last_log_term r))
      else count_votes term last_log_index last_log_term succeed rs
  end.

(** The request a candidate sends. *)
Definition vote_request (my_id term : N) (last : option LogId) : VoteRequest :=
  let lid := default (mkLogId 0 0) last in
  mkVoteRequest term my_id (lid_index lid) (lid_term lid).

Definition broadcast_vote_requests (my_id term : N) (is_single_node_cluster : bool)
    (members : list NodeMeta) (last : option LogId) (responses : list (option VoteResponse))
    : result unit :=
  if is_single_node_cluster then Ok tt
  else match members with
       | [] => Err (NoVotingMemberFound my_id)
       | _ =>
           let lid := default (mkLogId 0 0) last in
           let peer_ids := vote_peers my_id members [] in
           let? succeed := count_votes term (lid_index lid) (lid_term lid) 1 responses in
           let required := N.of_nat (length peer_ids) + 1 in
           if negb (bool_decide (peer_ids = [])) && is_majority succeed required then Ok tt
           else Err (QuorumFailure required succeed)
       end.

(** ** Voter side *)

Definition handle_vote_request (request : VoteRequest) (current_term : N)
    (voted_for_option : option VotedFor) (last : option LogId) : StateUpdate :=
  let last_logid := default (mkLogId 0 0) last in
  let '(term_update, new_voted_for_option) :=
    if current_term <? vr_term request then (Some (vr_term request), None)
    else (None, voted_for_option) in
  let grant_vote :=
    if vr_term request <? current_term then false
    else if negb (is_target_log_more_recent (lid_index last_logid) (lid_term last_logid)
                    (vr_last_log_index request) (vr_last_log_term request))
    then false
    else match new_voted_for_option with
         | Some vf => (voted_for_term vf =? vr_term request)
                      && (voted_for_id vf =? vr_candidate_id request)
         | None => true
         end in
  mkStateUpdate term_update
    (if grant_vote then Some (mkVotedFor (vr_candidate_id request) (vr_term request) false)
     else None).

Definition if_node_could_grant_the_vote_request (request : VoteRequest)
    (voted_for_option : option VotedFor) : bool :=
  match voted_for_option with
  | Some vf => (voted_for_id vf =? 0) || (voted_for_term vf <? vr_term request)
  | None => true
  end.

Definition check_vote_request_is_legal (request : VoteRequest)
    (current_term last_log_index last_log_term : N) (voted_for_option : option VotedFor) : bool :=
  if vr_term request <? current_term then false
  else if negb (is_target_log_more_recent last_log_index last_log_term
                  (vr_last_log_index request) (vr_last_log_term request))
  then false
  else if bool_decide (is_Some voted_for_option)
          && negb (if_node_could_grant_the_vote_request request voted_for_option)
  then false
  else true.
