(* ===== verification/ReadLease.v ===== *)
(** * The read lease

    [ReadLease] of [d-engine-core/src/raft_role/read_lease.rs]: term and deadline
    packed into one 64-bit word, so that a reader sees a consistent pair from a single
    load. The value of the atomic is the model; [now_ms] is an argument. *)

From stdpp Require Import base tactics numbers option.
From S2P Require Import Prelude.

Module ReadLease.

Definition DEADLINE_MASK : N := N.shiftl 1 48 - 1.
Definition TERM_SHIFT : N := 48.
Definition TERM_MASK : N := 0xFFFF.

(** The packed word. *)
Definition t : Type := N.

Definition new : t := 0.

(** [None] is the failed assertion on the deadline. *)
Definition pack (term deadline_ms : N) : option N :=
  if deadline_ms <=? DEADLINE_MASK
  then Some (N.lor (N.shiftl (N.land term TERM_MASK) TERM_SHIFT) (N.land deadline_ms DEADLINE_MASK))
  else None.

Definition unpack (v : N) : N * N := (N.shiftr v TERM_SHIFT, N.land v DEADLINE_MASK).

Definition renew (term deadline_ms : N) : option t := pack term deadline_ms.

Definition invalidate (new_term : N) : option t := pack new_term 0.

Definition revoke : t := 0.

Definition is_valid (l : t) (now_ms : N) : bool := now_ms <? N.land l DEADLINE_MASK.

Definition is_valid_for_leader (l : t) (current_term now_ms : N) : bool :=
  let '(term, deadline) := unpack l in
  (term =? N.land current_term TERM_MASK) && (now_ms <? deadline).

(** ** Lemmas *)

Lemma land_deadline n : N.land n DEADLINE_MASK = n mod 2 ^ 48.
Proof. change DEADLINE_MASK with (N.ones 48). apply N.land_ones. Qed.

Lemma land_term n : N.land n TERM_MASK = n mod 2 ^ 16.
Proof. change TERM_MASK with (N.ones 16). apply N.land_ones. Qed.

Lemma pack_value term d :
  d <= DEADLINE_MASK → pack term d = Some (term mod 2 ^ 16 * 2 ^ 48 + d).
Proof.
  intros Hd. unfold pack. rewrite (proj2 (N.leb_le _ _) Hd), land_term, land_deadline.
  assert (d < 2 ^ 48) as Hlt by (change DEADLINE_MASK with 281474976710655 in Hd; lia).
  rewrite (N.mod_small d) by done. unfold TERM_SHIFT. rewrite N.shiftl_mul_pow2. f_equal.
  assert (N.land (term mod 2 ^ 16 * 2 ^ 48) d = 0) as Hdisj.
  { apply N.bits_inj. intros i. rewrite N.land_spec, N.bits_0.
    destruct (N.lt_ge_cases i 48) as [Hi|Hi]; [by rewrite N.mul_pow2_bits_low|].
    assert (N.testbit d i = false) as ->; [|by rewrite andb_false_r].
    apply N.testbit_false. rewrite N.div_small; [done|].
    eapply N.lt_le_trans; [exact Hlt|apply N.pow_le_mono_r; lia]. }
  by rewrite <-N.lxor_lor, <-N.add_nocarry_lxor.
Qed.

Lemma unpack_pack term d :
  d <= DEADLINE_MASK → unpack <$> pack term d = Some (term mod 2 ^ 16, d).
Proof.
  intros Hd. rewrite pack_value by done. simpl. unfold unpack. f_equal.
  assert (d < 2 ^ 48) as Hlt by (change DEADLINE_MASK with 281474976710655 in Hd; lia).
  rewrite land_deadline. unfold TERM_SHIFT. rewrite N.shiftr_div_pow2. f_equal.
  - rewrite N.div_add_l by done. rewrite N.div_small by done. lia.
  - rewrite N.add_comm, N.Div0.mod_add. by apply N.mod_small.
Qed.

(** A packed word is valid for the packed term (modulo its 16 bits) until the deadline. *)
Lemma pack_valid term d w :
  pack term d = Some w →
  d <= DEADLINE_MASK
  ∧ ∀ t now_ms, is_valid_for_leader w t now_ms = true ↔ term mod 2 ^ 16 = t mod 2 ^ 16 ∧ now_ms < d.
Proof.
  intros Hw. assert (d <= DEADLINE_MASK) as Hd.
  { unfold pack in Hw. destruct (N.leb_spec d DEADLINE_MASK); [done|discriminate]. }
  split; [done|]. intros t now_ms. pose proof (unpack_pack term d Hd) as Hu. rewrite Hw in Hu.
  apply (inj Some) in Hu. unfold is_valid_for_leader.
  rewrite Hu, land_term, andb_true_iff, N.eqb_eq, N.ltb_lt. done.
Qed.

Lemma revoke_invalid t now_ms : is_valid_for_leader revoke t now_ms = false.
Proof.
  unfold is_valid_for_leader, unpack, revoke. rewrite N.land_0_l, andb_false_iff. right. apply N.ltb_ge. lia.
Qed.

Lemma deadline_small d : d <= DEADLINE_MASK → d < u64_max.
Proof. change DEADLINE_MASK with 281474976710655. unfold u64_max. lia. Qed.

End ReadLease.
