(* ===== verification/Proc.v ===== *)
(** * Procedures

    The effect of the code that threads a state, may fail with an error that [?]
    propagates, and may panic: [proc], its operations, and the rules to reason about
    it. [keeps P p]: every run of [p], successful or not, relates its first and last
    states by [P]. The rules take a preorder through the control structure of a
    procedure; the [keeps] hint database and the tactic [solve_keeps] apply them. *)

From stdpp Require Import base tactics numbers option list.
From S2P Require Import Prelude.

(** ** Operations *)

Definition proc (S A : Type) : Type := S → option (S * result A).

#[global] Instance proc_ret {S} : MRet (proc S) := λ A a s, Some (s, Ok a).
#[global] Instance proc_bind {S} : MBind (proc S) := λ A B k m s,
  match m s with
  | None => None
  | Some (s', Err e) => Some (s', Err e)
  | Some (s', Ok a) => k a s'
  end.

Definition get {S} : proc S S := λ s, Some (s, Ok s).
Definition gets {S A} (f : S → A) : proc S A := λ s, Some (s, Ok (f s)).
Definition modify {S} (f : S → S) : proc S unit := λ s, Some (f s, Ok tt).
Definition fail {S A} (e : error) : proc S A := λ s, Some (s, Err e).
Definition panic {S A} : proc S A := λ _, None.

(** [match m { Ok(a) => .., Err(e) => .. }]: run [m] and look at its result. *)
Definition attempt {S A} (m : proc S A) : proc S (result A) := λ s,
  match m s with None => None | Some (s', r) => Some (s', Ok r) end.

(** [for x in xs { f(x)?; }]. *)
Fixpoint for_each {S A} (f : A → proc S unit) (xs : list A) : proc S unit :=
  match xs with
  | [] => mret tt
  | x :: xs' => f x;; for_each f xs'
  end.

(** ** Invariants of runs *)

Create HintDb keeps discriminated.

Definition keeps {S A} (P : S → S → Prop) (p : proc S A) : Prop :=
  ∀ s s' r, p s = Some (s', r) → P s s'.

Lemma bind_inv {S A B} (m : proc S A) (k : A → proc S B) s s' r :
  (m ≫= k) s = Some (s', r) →
  ∃ s1 r1, m s = Some (s1, r1)
           ∧ match r1 with Ok a => k a s1 = Some (s', r) | Err e => s' = s1 ∧ r = Err e end.
Proof.
  unfold mbind, proc_bind. destruct (m s) as [[s1 [a|e]]|]; [| |done].
  - intros ?. by exists s1, (Ok a).
  - intros [= <- <-]. by exists s1, (Err e).
Qed.

(** A successful sequence ran both parts successfully. *)
Lemma bind_ok_inv {S A B} (m : proc S A) (k : A → proc S B) s s' b :
  (m ≫= k) s = Some (s', Ok b) → ∃ s1 a, m s = Some (s1, Ok a) ∧ k a s1 = Some (s', Ok b).
Proof. intros (s1 & [a|e] & H1 & H2)%bind_inv; [by exists s1, a|]. by destruct H2. Qed.

(** A sequence continues from where its first part succeeded. *)
Lemma bind_run {S A B} (m : proc S A) (k : A → proc S B) s s1 a :
  m s = Some (s1, Ok a) → (m ≫= k) s = k a s1.
Proof. unfold mbind, proc_bind. by intros ->. Qed.

Section keeps_rules.
Context {S : Type} (P : S → S → Prop) `{!PreOrder P}.

Lemma keeps_run {A} (p : proc S A) s s' r : keeps P p → p s = Some (s', r) → P s s'.
Proof. intros Hp. apply Hp. Qed.

Lemma keeps_ret {A} (a : A) : keeps P (mret a).
Proof. intros s s' r [= <- <-]. reflexivity. Qed.

Lemma keeps_bind {A B} (m : proc S A) (k : A → proc S B) :
  keeps P m → (∀ a, keeps P (k a)) → keeps P (m ≫= k).
Proof.
  intros Hm Hk s s' r H. apply bind_inv in H as (s1 & [a|e] & H1 & H2).
  - trans s1; [exact (Hm _ _ _ H1)|exact (Hk _ _ _ _ H2)].
  - destruct H2 as [-> ->]. exact (Hm _ _ _ H1).
Qed.

Lemma keeps_get_bind {B} (k : S → proc S B) : (∀ s, keeps P (k s)) → keeps P (get ≫= k).
Proof. intros Hk s s' r H. exact (Hk _ _ _ _ H). Qed.

Lemma keeps_gets {A} (f : S → A) : keeps P (gets f).
Proof. intros s s' r [= <- <-]. reflexivity. Qed.

Lemma keeps_fail {A} e : keeps P (fail (A := A) e).
Proof. intros s s' r [= <- <-]. reflexivity. Qed.

Lemma keeps_panic {A} : keeps P (panic (A := A)).
Proof. done. Qed.

Lemma keeps_modify f : (∀ s, P s (f s)) → keeps P (modify f).
Proof. intros Hf s s' r [= <- <-]. apply Hf. Qed.

Lemma keeps_attempt {A} (p : proc S A) : keeps P p → keeps P (attempt p).
Proof.
  intros Hp s s' r. unfold attempt. destruct (p s) as [[s1 r1]|] eqn:E; [|done].
  intros [= <- <-]. exact (Hp _ _ _ E).
Qed.

Lemma keeps_for_each {A} (f : A → proc S unit) xs : (∀ x, keeps P (f x)) → keeps P (for_each f xs).
Proof.
  intros Hf. induction xs as [|x xs IH]; [apply keeps_ret|]. apply keeps_bind; [apply Hf|done].
Qed.

End keeps_rules.


(** Split a handler along its control structure. *)
Ltac keeps_step :=
  lazymatch goal with
  | |- keeps _ (mbind _ _) => apply keeps_bind; [try apply _|..|intros ?]
  | |- keeps _ (attempt _) => apply keeps_attempt
  | |- keeps _ (for_each _ _) => apply keeps_for_each; [try apply _|intros ?]
  | |- keeps _ (modify _) => apply keeps_modify; intros ?
  | |- keeps _ (mret _) => apply keeps_ret; apply _
  | |- keeps _ (fail _) => apply keeps_fail; apply _
  | |- keeps _ panic => apply keeps_panic
  | |- keeps _ (gets _) => apply keeps_gets; apply _
  | |- keeps _ get => apply (keeps_gets _ (λ s, s)); apply _
  | |- keeps _ (let '(_, _) := ?x in _) => destruct x
  | |- keeps _ (if ?b then _ else _) => destruct b
  | |- keeps _ (match ?x with _ => _ end) => destruct x
  end.

Ltac solve_keeps :=
  intros; cbv beta; repeat first [ solve [eauto with keeps] | keeps_step ]; try done.
