(* ===== verification/Roles.v ===== *)
(** * Role state and hard state

    The data every role shares and the role-specific state
    ([d-engine-core/src/raft_role/mod.rs], [leader_state.rs], [follower_state.rs],
    [candidate_state.rs], [learner_state.rs]), the node they act on, and the operations
    on the hard state ([set_hard_state], [commit_hard_state], [commit_vote_reset]).

    A handler is a procedure ([Proc]) on the node: it may panic ([None]), fail with an error
    that propagates through [?], or return. What it awaits from outside (the clock, the
    random election timeout, the result of a write to the meta store, the replies of
    the raft-io thread, the membership and state machine views) comes in an [Env].
    Reply channels and the internal event queue are open, so sends do not fail. *)

From stdpp Require Import base tactics numbers option list gmap strings.
From S2P Require Import Prelude Proc Types Events ReadLease TermSegments BufferedLog Replication Election.

(** ** Hard state and shared state *)

Record HardState := mkHardState { current_term : N; voted_for : option VotedFor }.

Record HardStateChange := mkHardStateChange {
  changed : bool;
  is_new_leader_commitment : bool;
}.

Record SharedState := mkSharedState {
  node_id : N;
  hard_state : HardState;
  commit_index : N;
  current_leader_id : N;
  lease : ReadLease.t;
}.

#[global] Instance SharedState_settable : Settable SharedState := λ r,
  mkSharedState (node_id r) (hard_state r) (commit_index r) (current_leader_id r) (lease r).

Definition shared_new (id : N) (from_db : option HardState) (last_applied : option N) : SharedState :=
  mkSharedState id (default (mkHardState 1 None) from_db) (default 0 last_applied) 0 ReadLease.new.

Definition current_leader (s : SharedState) : option N :=
  if current_leader_id s =? 0 then None else Some (current_leader_id s).

Definition set_current_leader (id : N) (s : SharedState) : SharedState :=
  s <| current_leader_id := id |>.

Definition set_hard_state (s : SharedState) (term : option N) (vote : option VotedFor)
    : SharedState * HardStateChange :=
  let '(t, ch) := match term with
                  | Some t => if negb (t =? current_term (hard_state s)) then (t, true)
                              else (current_term (hard_state s), false)
                  | None => (current_term (hard_state s), false)
                  end in
  match vote with
  | None => (s <| hard_state := mkHardState t (voted_for (hard_state s)) |>, mkHardStateChange ch false)
  | Some new_vote =>
      let ch' := if negb (bool_decide (voted_for (hard_state s) = Some new_vote)) then true else ch in
      let newc := match voted_for (hard_state s) with
                  | Some old =>
                      vf_committed new_vote
                      && (negb (voted_for_id old =? voted_for_id new_vote)
                          || negb (voted_for_term old =? voted_for_term new_vote)
                          || negb (vf_committed old)
                          || bool_decide (current_leader s = None))
                  | None => vf_committed new_vote
                  end in
      (s <| hard_state := mkHardState t (Some new_vote) |>, mkHardStateChange ch' newc)
  end.

Definition clear_voted_for (s : SharedState) : SharedState :=
  s <| hard_state := mkHardState (current_term (hard_state s)) None |>.

(** ** Configuration and environment *)

Record RaftConfig := mkRaftConfig {
  max_entries_per_replication : N;
  rpc_append_entries_clock_in_ms : N;
  lease_duration_ms : N;
  general_raft_timeout_ms : N;
  verify_leadership_timeout_ms : N;
  retained_log_entries : N;
  snapshot_enable : bool;
  allow_client_override : bool;
  default_policy : ReadConsistencyPolicy;
  max_pending_writes : N;
  max_pending_reads : N;
  learner_check_throttle_ms : N;
  learner_catchup_threshold : N;
  stale_learner_threshold_ms : N;
  max_batch_size : N;
  max_merge_entries : N;
  push_base_delay_ms : N;
  push_backoff_max_delay_ms : N;
}.

(** The [Membership] trait as the roles query it. *)
Record MembershipView := mkMembershipView {
  mv_voters : list NodeMeta;
  mv_replication_peers : list NodeMeta;
  mv_peer_ids : list N;
  mv_single_node : bool;
  mv_contains_node : N → bool;
  mv_node_status : N → option NodeStatus;
  mv_node_meta : N → option NodeMeta;
  mv_address : N → option string;
  mv_can_rejoin : N → N → bool;
  mv_conf_version : N;
  mv_config : option N → ClusterMembership;
  mv_update_conf : N → N → N → option N → ClusterConfChangeRequest → result ClusterConfUpdateResponse;
}.

(** The state machine and its handler as the roles query them. *)
Record StateMachineView := mkStateMachineView {
  last_applied : N;
  read_from_state_machine : list bytes → option (list (bytes * bytes));
  scan_prefix : bytes → result (list (bytes * bytes) * N);
  snapshot_metadata : option SnapshotMetadata;
  should_snapshot : NewCommitData → bool;
  capture_busy : bool;
  prepare_snapshot_stream : list SnapshotChunk → result unit;
  install_snapshot : list SnapshotChunk → result SnapshotApplyResult;
}.

(** What a handler meets outside while it runs. [now] is both [Instant::now()] and
    [now_ms()]; [fresh_deadline] is the deadline a reset election timer draws;
    [vote_responses] are the answers to a broadcast in the order they complete;
    [worker_dead] says that the channel of a replication worker is closed. *)
Record Env := mkEnv {
  now : N;
  fresh_deadline : N;
  save_reply : HardState → result unit;
  io_done : N;
  io_reply : option (result unit);
  purge_reply : option unit;
  vote_responses : list (option VoteResponse);
  worker_dead : N → bool;
  config : RaftConfig;
  membership : MembershipView;
  sm : StateMachineView;
}.

(** ** Role state *)

Record FollowerState := mkFollowerState {
  f_timer : N;
  f_pending_purge_upto : option LogId;
  f_last_purged_index : option LogId;
  f_snapshot_in_progress : bool;
}.

Record CandidateState := mkCandidateState {
  c_timer : N;
  c_last_purged_index : option LogId;
}.

Record LearnerState := mkLearnerState {
  ln_pending_purge_upto : option LogId;
  ln_last_purged_index : option LogId;
  ln_snapshot_in_progress : bool;
}.

#[global] Instance FollowerState_settable : Settable FollowerState := λ r,
  mkFollowerState (f_timer r) (f_pending_purge_upto r) (f_last_purged_index r)
    (f_snapshot_in_progress r).
#[global] Instance CandidateState_settable : Settable CandidateState := λ r,
  mkCandidateState (c_timer r) (c_last_purged_index r).
#[global] Instance LearnerState_settable : Settable LearnerState := λ r,
  mkLearnerState (ln_pending_purge_upto r) (ln_last_purged_index r) (ln_snapshot_in_progress r).

(** A node whose role-specific state is an [R]. The parts that survive a role change are
    fields of the node: the shared state (cloned from role to role in the code), the
    log, the hard state on disk, the queue of internal events, the replies sent. *)
Record Node (R : Type) := mkNode {
  shared : SharedState;
  state : R;
  raft_log : BufferedRaftLog;
  saved : option HardState;
  events : list InternalEvent;
  sent : list (N * Reply);
}.
Arguments mkNode {R}.
Arguments shared {R}.
Arguments state {R}.
Arguments raft_log {R}.
Arguments saved {R}.
Arguments events {R}.
Arguments sent {R}.

#[global] Instance Node_settable {R} : Settable (Node R) := λ n,
  mkNode (shared n) (state n) (raft_log n) (saved n) (events n) (sent n).

(** The part of the [RaftRoleState] trait that the shared handlers call. *)
Class RaftRoleState (R : Type) := {
  as_i32 : N;
  update_commit_index : N → SharedState → SharedState;
  reset_timer : Env → R → R;
  pending_purge_upto : R → option (option LogId);
  set_pending_purge_upto : option LogId → R → R;
  snapshot_in_progress : R → option bool;
  set_snapshot_in_progress : bool → R → R;
}.

(** The default [update_commit_index]. *)
Definition default_update_commit_index (c : N) (s : SharedState) : SharedState :=
  if negb (commit_index s =? c) then s <| commit_index := c |> else s.
