(* ===== verification/RoleState.v ===== *)
(** * Handlers shared by the roles

    The default methods of the [RaftRoleState] trait and the helper functions of
    [d-engine-core/src/raft_role/role_state.rs]: the hard-state protocol, the
    AppendEntries and InstallSnapshot workflows of followers and learners, purge
    scheduling, snapshot triggering, and the handling of client commands by a node
    that does not lead. *)

From stdpp Require Import base tactics numbers option list gmap strings.
From S2P Require Import Prelude Types Events ReadLease TermSegments BufferedLog Replication Election.
From S2P Require Import Proc Roles.

Section role_state.
Context {R : Type} `{!RaftRoleState R} (env : Env).
#[local] Abbreviation handler := (proc (Node R)).

(** [internal_event_tx.send(ev)] and [sender.send(r)]. *)
Definition emit (ev : InternalEvent) : handler unit :=
  modify (λ n, n <| events ::= (.++ [ev]) |>).

Definition reply (ch : N) (r : Reply) : handler unit :=
  modify (λ n, n <| sent ::= (.++ [(ch, r)]) |>).

Definition reply_all (chs : list N) (r : Reply) : handler unit :=
  modify (λ n, n <| sent ::= (.++ ((λ ch, (ch, r)) <$> chs)) |>).

Definition my_term : handler N := gets (λ n, current_term (hard_state (shared n))).

Definition set_state (f : R → R) : handler unit := modify (λ n, n <| state ::= f |>).

Definition set_shared (f : SharedState → SharedState) : handler unit :=
  modify (λ n, n <| shared ::= f |>).

(** ** Hard state *)

(** [ctx.raft_log().save_hard_state(..)]: a poisoned log refuses; otherwise the meta store
    writes, or fails and poisons the log. *)
Definition save_hard_state : handler unit := λ n,
  if poisoned (raft_log n) then Some (n, Err poisoned_error)
  else match save_reply env (hard_state (shared n)) with
       | Ok _ => Some (n <| saved := Some (hard_state (shared n)) |>, Ok tt)
       | Err e => Some (n <| raft_log ::= mark_poisoned_and_notify |>, Err e)
       end.

Definition commit_hard_state (term : option N) (vote : option VotedFor) : handler bool :=
  if bool_decide (term = None) && bool_decide (vote = None) then mret false
  else
    n ← get;
    let '(s, r) := set_hard_state (shared n) term vote in
    set_shared (λ _, s);;
    (if changed r then save_hard_state else mret tt);;
    mret (is_new_leader_commitment r).

Definition commit_vote_reset : handler unit := set_shared clear_voted_for;; save_hard_state.

Definition update_commit_index_with_signal (role current_term new_commit_index : N) : handler unit :=
  set_shared (update_commit_index new_commit_index);;
  emit (NotifyNewCommitIndex (mkNewCommitData new_commit_index role current_term)).

(** ** Term check *)

Inductive TermDecision :=
  | RejectStale
  | Accept
  | AcceptAndUpdateTerm (t : N).

Definition check_incoming_term (my_term incoming_term : N) : TermDecision :=
  match incoming_term ?= my_term with
  | Lt => RejectStale
  | Eq => Accept
  | Gt => AcceptAndUpdateTerm incoming_term
  end.

(** ** AppendEntries *)

(** The part of the workflow after the leader is accepted. *)
Definition append_entries_accepted (request : AppendEntriesRequest) (senders : list N)
    (ss : StateSnapshot) (raft_log_last_index : N) : handler unit :=
  my_term ← my_term;
  n ← get;
  match handle_append_entries (node_id (shared n)) request ss (raft_log n)
          (io_done env) (io_reply env) with
  | None => panic
  | Some (l, Ok aru) =>
      modify (λ n, n <| raft_log := l |>);;
      (match commit_index_update aru with
       | Some commit =>
           update_commit_index_with_signal (ss_role ss) (ss_current_term ss) commit
       | None => mret tt
       end);;
      reply_all senders (RAppend (aru_response aru))
  | Some (l, Err e) =>
      modify (λ n, n <| raft_log := l |>);;
      reply_all senders
        (RAppend (response_conflict (node_id (shared n)) my_term None
                    (Some (raft_log_last_index + 1))));;
      fail e
  end.

(** The sender is a legitimate leader: adopt its term, record it, replicate. *)
Definition append_entries_from_leader (request : AppendEntriesRequest) (senders : list N)
    (ss : StateSnapshot) (raft_log_last_index : N) (term_update : option N) : handler unit :=
  set_state (reset_timer env);;
  is_new_leader ← commit_hard_state term_update
                    (Some (mkVotedFor (ar_leader_id request) (ar_term request) true));
  set_shared (set_current_leader (ar_leader_id request));;
  (if (is_new_leader : bool)
   then emit (LeaderDiscovered (ar_leader_id request) (ar_term request)) else mret tt);;
  append_entries_accepted request senders ss raft_log_last_index.

Definition handle_append_entries_request_workflow (request : AppendEntriesRequest)
    (senders : list N) (ss : StateSnapshot) : handler unit :=
  n ← get;
  let raft_log_last_index := last_entry_id (mem (raft_log n)) in
  let my_term := current_term (hard_state (shared n)) in
  match check_incoming_term my_term (ar_term request) with
  | RejectStale =>
      reply_all senders (RAppend (response_higher_term (node_id (shared n)) my_term))
  | Accept => append_entries_from_leader request senders ss raft_log_last_index None
  | AcceptAndUpdateTerm new_term =>
      append_entries_from_leader request senders ss raft_log_last_index (Some new_term)
  end.

(** ** Purge *)

(** [execute_pending_purge]: the purge executor purges the log. *)
Definition execute_pending_purge : handler unit :=
  n ← get;
  match pending_purge_upto (state n) with
  | Some (Some scheduled) =>
      let '(l, r) := purge_logs_up_to (raft_log n) scheduled (io_done env) (purge_reply env) in
      modify (λ n, n <| raft_log := l |>);;
      match r with
      | Ok _ => emit (LogPurgeCompleted scheduled)
      | Err _ => mret tt
      end
  | _ => mret tt
  end.

(** [o.map(|l| l.index < idx).unwrap_or(true)]. *)
Definition index_below (o : option LogId) (idx : N) : bool :=
  match o with Some l => lid_index l <? idx | None => true end.

Definition schedule_and_execute_purge (last_included : LogId) (last_purged : option LogId)
    : handler unit :=
  n ← get;
  let purge_upto_index := lid_index last_included - retained_log_entries (config env) in
  if purge_upto_index =? 0 then mret tt
  else
    match entry_term (mem (raft_log n)) purge_upto_index with
    | None => panic
    | Some t =>
        (match t with
         | Some term =>
             if (0 <? purge_upto_index) && (purge_upto_index <? commit_index (shared n))
                && index_below last_purged purge_upto_index
                && index_below (default None (pending_purge_upto (state n))) purge_upto_index
             then set_state (set_pending_purge_upto (Some (mkLogId term purge_upto_index)))
             else mret tt
         | None => mret tt
         end);;
        execute_pending_purge
    end.

Definition schedule_installed_snapshot_purge (target : LogId) : handler unit :=
  n ← get;
  (if index_below (default None (pending_purge_upto (state n))) (lid_index target)
   then set_state (set_pending_purge_upto (Some target)) else mret tt);;
  execute_pending_purge.

(** ** InstallSnapshot *)

(** What happens to the node once the state machine worker answered. *)
Definition snapshot_installed (ss : StateSnapshot) (my_term : N) (r : SnapshotApplyResult)
    : handler unit :=
  n ← get;
  boundary ← (match r with
              | Applied last_included =>
                  (if commit_index (shared n) <? lid_index last_included
                   then update_commit_index_with_signal (ss_role ss) my_term
                          (lid_index last_included)
                   else mret tt);;
                  mret last_included
              | IgnoredStale current | IgnoredDuplicate current => mret current
              end);
  match pending_purge_upto (state n) with
  | None => fail (RoleViolation "unknown" "Follower or Learner")
  | Some _ => schedule_installed_snapshot_purge boundary
  end.

(** The stream after its leader is accepted: receive, install, reply, purge. *)
Definition snapshot_accepted (stream : list SnapshotChunk) (sender : N) (ss : StateSnapshot)
    (my_term : N) : handler unit :=
  match prepare_snapshot_stream (sm env) stream with
  | Err _ => reply sender (RSnapshot (mkSnapshotResponse my_term false 0))
  | Ok _ =>
      match install_snapshot (sm env) stream with
      | Err e =>
          reply sender (RSnapshot (mkSnapshotResponse my_term false 0));;
          if is_fatal e then fail e else mret tt
      | Ok r =>
          reply sender (RSnapshot (mkSnapshotResponse my_term true 0));;
          snapshot_installed ss my_term r
      end
  end.

(** The first chunk comes from a legitimate leader. *)
Definition snapshot_from_leader (stream : list SnapshotChunk) (first_chunk : SnapshotChunk)
    (sender : N) (ss : StateSnapshot) (my_term : N) (term_update : option N) : handler unit :=
  set_state (reset_timer env);;
  commit_hard_state term_update
    (Some (mkVotedFor (sc_leader_id first_chunk) (sc_leader_term first_chunk) true));;
  set_shared (set_current_leader (sc_leader_id first_chunk));;
  snapshot_accepted stream sender ss (N.max (sc_leader_term first_chunk) my_term).

Definition handle_install_snapshot_chunk_workflow (stream : list SnapshotChunk) (sender : N)
    (ss : StateSnapshot) : handler unit :=
  my_term ← my_term;
  let reject : handler unit := reply sender (RSnapshot (mkSnapshotResponse my_term false 0)) in
  match stream with
  | [] => reject
  | first_chunk :: _ =>
      match check_incoming_term my_term (sc_leader_term first_chunk) with
      | RejectStale => reject
      | Accept => snapshot_from_leader stream first_chunk sender ss my_term None
      | AcceptAndUpdateTerm new_term =>
          snapshot_from_leader stream first_chunk sender ss my_term (Some new_term)
      end
  end.

(** ** Snapshot creation *)

Definition check_and_trigger_snapshot (last_index role current_term : N) : handler unit :=
  if snapshot_enable (config env)
     && should_snapshot (sm env) (mkNewCommitData last_index role current_term)
  then emit CreateSnapshotEvent else mret tt.

(** The capture runs in the background and ends with a [SnapshotCreated] event. *)
Definition handle_create_snapshot : handler unit :=
  n ← get;
  match snapshot_in_progress (state n) with
  | None => fail (RoleViolation "Candidate" "Follower/Leader/Learner")
  | Some true => mret tt
  | Some false =>
      if capture_busy (sm env) then mret tt else set_state (set_snapshot_in_progress true)
  end.

(** ** Client commands on a node that does not lead *)

Definition create_not_leader_response (s : SharedState) : ClientResponse :=
  match current_leader s with
  | Some lid =>
      match mv_address (membership env) lid with
      | Some address => not_leader (Some (mkLeaderHint lid address))
      | None => not_leader None
      end
  | None => not_leader None
  end.

Definition process_eventual_read_local (req : ClientReadRequest) (sender : N) : handler unit :=
  reply sender (RClient (read_results (default [] (read_from_state_machine (sm env) (cr_keys req))))).

Definition push_client_cmd (cmd : ClientCmd) : handler unit :=
  n ← get;
  let redirect sender : handler unit :=
    reply sender (RClient (create_not_leader_response (shared n))) in
  match cmd with
  | Propose _ sender => redirect sender
  | Scan _ sender => redirect sender
  | Read req sender =>
      let effective_policy :=
        match consistency_policy req with
        | Some policy =>
            if allow_client_override (config env)
            then match policy with
                 | EventualConsistency => Some EventualConsistency
                 | _ => None
                 end
            else Some (default_policy (config env))
        | None => Some (default_policy (config env))
        end in
      match effective_policy with
      | Some EventualConsistency => process_eventual_read_local req sender
      | _ => redirect sender
      end
  end.

(** ** Configuration updates from the leader

    Follower, candidate and learner answer [ClusterConfUpdate] alike. *)
Definition handle_cluster_conf_update (req : ClusterConfChangeRequest) (sender : N) : handler unit :=
  n ← get;
  let current_conf_version := mv_conf_version (membership env) in
  let my_id := node_id (shared n) in
  let my_term := current_term (hard_state (shared n)) in
  reply sender
    (RConfUpdate
       match mv_update_conf (membership env) my_id my_term current_conf_version
               (current_leader (shared n)) req with
       | Ok res => res
       | Err _ => conf_internal_error my_id my_term current_conf_version
       end).

(** [FatalError] of an inbound event. *)
Definition fatal_inbound (source error : string) : handler unit :=
  fail (Fatal ("Fatal error from " +:+ source +:+ ": " +:+ error)).

End role_state.
