(* ===== verification/FollowerRoles.v ===== *)
(** * The follower, the candidate and the learner

    The three roles that do not lead, one module each: [Follower], [Candidate] and
    [Learner] ([d-engine-core/src/raft_role/{follower,candidate,learner}_state.rs]). *)

From stdpp Require Import base tactics numbers option list sorting gmap strings.
From S2P Require Import Prelude Types Events ReadLease TermSegments BufferedLog Replication.
From S2P Require Import Election Proc Roles RoleState.

(** * The follower

    [FollowerState] of [d-engine-core/src/raft_role/follower_state.rs]: the election
    timeout, the inbound events, snapshot and purge bookkeeping, and the conversions
    from the other roles. *)

Module Follower.

#[global] Instance follower_role : RaftRoleState FollowerState := {
  as_i32 := role_i32 NR_Follower;
  update_commit_index := default_update_commit_index;
  reset_timer env s := s <| f_timer := fresh_deadline env |>;
  pending_purge_upto s := Some (f_pending_purge_upto s);
  set_pending_purge_upto p s := s <| f_pending_purge_upto := p |>;
  snapshot_in_progress s := Some (f_snapshot_in_progress s);
  set_snapshot_in_progress b s := s <| f_snapshot_in_progress := b |>;
}.

#[local] Abbreviation handler := (proc (Node FollowerState)).

Section follower.
Context (env : Env).

Definition new (fresh : N) : FollowerState := mkFollowerState fresh None None false.

Definition state_snapshot (s : SharedState) : StateSnapshot :=
  mkStateSnapshot (role_i32 NR_Follower) (current_term (hard_state s)) None (commit_index s).

Definition tick : handler unit :=
  n ← get;
  if now env <? f_timer (state n) then mret tt
  else set_state (reset_timer env);; emit BecomeCandidate.

Definition receive_vote_request (req : VoteRequest) (sender : N) : handler unit :=
  n ← get;
  let my_term := current_term (hard_state (shared n)) in
  let last := last_log_id (mem (raft_log n)) in
  let lid := default (mkLogId 0 0) last in
  let su := handle_vote_request req my_term (voted_for (hard_state (shared n))) last in
  let granted := bool_decide (is_Some (new_voted_for su)) in
  (if granted then set_state (reset_timer env) else mret tt);;
  commit_hard_state env (term_update su) (new_voted_for su);;
  reply sender (RVote (mkVoteResponse my_term granted (lid_index lid) (lid_term lid))).

Definition discover_leader (sender : N) : handler unit :=
  n ← get;
  reply sender
    match current_leader (shared n) with
    | Some leader_id =>
        match mv_node_meta (membership env) leader_id with
        | Some meta => RDiscover (mkLeaderDiscoveryResponse leader_id (nm_address meta)
                                    (current_term (hard_state (shared n))))
        | None => RStatus (NotFound "Leader metadata not found")
        end
    | None => RStatus (Unavailable "Leader not discovered")
    end.

Definition handle_inbound_event (ev : InboundEvent) : handler unit :=
  n ← get;
  let ss := state_snapshot (shared n) in
  match ev with
  | ReceiveVoteRequest req sender => receive_vote_request req sender
  | ClusterConf sender =>
      reply sender (RConf (mv_config (membership env) (current_leader (shared n))))
  | ClusterConfUpdate req sender => handle_cluster_conf_update env req sender
  | AppendEntries req senders => handle_append_entries_request_workflow env req senders ss
  | InstallSnapshotChunk stream sender =>
      handle_install_snapshot_chunk_workflow env stream sender ss
  | JoinCluster _ sender =>
      reply sender (RStatus (PermissionDenied "Follower should not receive JoinCluster event."));;
      fail (RoleViolation "Follower" "Leader")
  | DiscoverLeader sender => discover_leader sender
  | InboundFatalError source error => fatal_inbound source error
  end.

Definition handle_apply_completed (last_index : N) : handler unit :=
  t ← my_term; check_and_trigger_snapshot env last_index (role_i32 NR_Follower) t.

Definition handle_snapshot_created (r : result SnapshotMetadata) : handler unit :=
  set_state (set_snapshot_in_progress false);;
  match r with
  | Ok (mkSnapshotMetadata (Some last_included) _) =>
      n ← get; schedule_and_execute_purge env last_included (f_last_purged_index (state n))
  | _ => mret tt
  end.

Definition handle_log_purge_completed (purged_id : LogId) : handler unit :=
  n ← get;
  if index_below (f_last_purged_index (state n)) (lid_index purged_id)
  then set_state (λ s, s <| f_last_purged_index := Some purged_id |> <| f_pending_purge_upto := None |>)
  else mret tt.

(** [From<&CandidateState>] and [From<&LearnerState>]; the leader's conversion is in
    the leader's file. *)
Definition from_candidate (c : CandidateState) : FollowerState :=
  mkFollowerState (fresh_deadline env) None (c_last_purged_index c) false.

Definition from_learner (l : LearnerState) : FollowerState :=
  mkFollowerState (fresh_deadline env) (ln_pending_purge_upto l) (ln_last_purged_index l) false.

End follower.
End Follower.

(** * The candidate

    [CandidateState] of [d-engine-core/src/raft_role/candidate_state.rs]: the election
    round run by a tick and the inbound events. A candidate steps down by queueing
    [BecomeFollower] and replaying the event that made it step down. *)

Module Candidate.

#[global] Instance candidate_role : RaftRoleState CandidateState := {
  as_i32 := role_i32 NR_Candidate;
  update_commit_index := default_update_commit_index;
  reset_timer env s := s <| c_timer := fresh_deadline env |>;
  pending_purge_upto _ := None;
  set_pending_purge_upto _ s := s;
  snapshot_in_progress _ := None;
  set_snapshot_in_progress _ s := s;
}.

#[local] Abbreviation handler := (proc (Node CandidateState)).

Section candidate.
Context (env : Env).

Definition send_become_follower_event : handler unit := emit (BecomeFollower None).

Definition send_replay_inbound_event (ev : InboundEvent) : handler unit := emit (ReprocessEvent ev).

(** An election round: raise the term, vote for oneself, ask the others. *)
Definition tick : handler unit :=
  n ← get;
  if now env <? c_timer (state n) then mret tt
  else
    set_state (reset_timer env);;
    let new_term := current_term (hard_state (shared n)) + 1 in
    commit_hard_state env (Some new_term)
      (Some (mkVotedFor (node_id (shared n)) new_term false));;
    t ← my_term;
    match broadcast_vote_requests (node_id (shared n)) t (mv_single_node (membership env))
            (mv_voters (membership env)) (last_log_id (mem (raft_log n)))
            (vote_responses env) with
    | Ok _ => emit BecomeLeader
    | Err (HigherTerm higher_term) =>
        commit_hard_state env (Some higher_term) None;; send_become_follower_event
    | Err _ => mret tt
    end.

Definition receive_vote_request (req : VoteRequest) (sender : N) : handler unit :=
  n ← get;
  let my_term := current_term (hard_state (shared n)) in
  let lid := default (mkLogId 0 0) (last_log_id (mem (raft_log n))) in
  if check_vote_request_is_legal req my_term (lid_index lid) (lid_term lid)
       (voted_for (hard_state (shared n)))
  then
    commit_hard_state env (Some (vr_term req)) None;;
    send_become_follower_event;;
    send_replay_inbound_event (ReceiveVoteRequest req sender)
  else reply sender (RVote (mkVoteResponse my_term false (lid_index lid) (lid_term lid))).

Definition receive_append_entries (req : AppendEntriesRequest) (senders : list N) : handler unit :=
  n ← get;
  let my_term := current_term (hard_state (shared n)) in
  if my_term <=? ar_term req then
    set_state (reset_timer env);;
    set_shared (set_current_leader (ar_leader_id req));;
    (if my_term <? ar_term req then commit_hard_state env (Some (ar_term req)) None;; mret tt
     else mret tt);;
    send_become_follower_event;;
    send_replay_inbound_event (AppendEntries req senders)
  else
    match check_append_entries_request_is_legal (node_id (shared n)) my_term req
            (mem (raft_log n)) with
    | None => panic
    | Some response => reply_all senders (RAppend response)
    end.

Definition handle_inbound_event (ev : InboundEvent) : handler unit :=
  n ← get;
  match ev with
  | ReceiveVoteRequest req sender => receive_vote_request req sender
  | ClusterConf sender =>
      reply sender (RConf (mv_config (membership env) (current_leader (shared n))))
  | ClusterConfUpdate req sender => handle_cluster_conf_update env req sender
  | AppendEntries req senders => receive_append_entries req senders
  | InstallSnapshotChunk _ sender =>
      reply sender (RStatus (PermissionDenied "Not Follower or Learner."));;
      fail (RoleViolation "Candidate" "Follower or Learner")
  | JoinCluster _ sender =>
      reply sender (RStatus (PermissionDenied "Candidate should not receive JoinCluster event."));;
      fail (RoleViolation "Candidate" "Leader")
  | DiscoverLeader sender =>
      reply sender
        (RStatus (PermissionDenied "Candidate should not response DiscoverLeader event."))
  | InboundFatalError source error => fatal_inbound source error
  end.

(** [From<&FollowerState>]. *)
Definition from_follower (f : FollowerState) : CandidateState :=
  mkCandidateState (fresh_deadline env) (f_last_purged_index f).

End candidate.
End Candidate.

(** * The learner

    [LearnerState] of [d-engine-core/src/raft_role/learner_state.rs]: a non-voting
    replica. It has no timer, never grants a vote, and becomes a follower when the
    applied configuration says it was promoted. *)

Module Learner.

#[global] Instance learner_role : RaftRoleState LearnerState := {
  as_i32 := role_i32 NR_Learner;
  update_commit_index := default_update_commit_index;
  reset_timer _ s := s;
  pending_purge_upto s := Some (ln_pending_purge_upto s);
  set_pending_purge_upto p s := s <| ln_pending_purge_upto := p |>;
  snapshot_in_progress s := Some (ln_snapshot_in_progress s);
  set_snapshot_in_progress b s := s <| ln_snapshot_in_progress := b |>;
}.

#[local] Abbreviation handler := (proc (Node LearnerState)).

Section learner.
Context (env : Env).

Definition new : LearnerState := mkLearnerState None None false.

Definition state_snapshot (s : SharedState) : StateSnapshot :=
  mkStateSnapshot (role_i32 NR_Learner) (current_term (hard_state s)) None (commit_index s).

Definition receive_vote_request (req : VoteRequest) (sender : N) : handler unit :=
  n ← get;
  let my_term := current_term (hard_state (shared n)) in
  (if my_term <? vr_term req then commit_hard_state env (Some (vr_term req)) None;; mret tt
   else mret tt);;
  let lid := default (mkLogId 0 0) (last_log_id (mem (raft_log n))) in
  reply sender (RVote (mkVoteResponse my_term false (lid_index lid) (lid_term lid))).

Definition handle_inbound_event (ev : InboundEvent) : handler unit :=
  n ← get;
  let ss := state_snapshot (shared n) in
  match ev with
  | ReceiveVoteRequest req sender => receive_vote_request req sender
  | ClusterConf sender =>
      reply sender (RStatus (PermissionDenied
        "Not able to respond to cluster conf request as node is Learner"))
  | ClusterConfUpdate req sender => handle_cluster_conf_update env req sender
  | AppendEntries req senders => handle_append_entries_request_workflow env req senders ss
  | InstallSnapshotChunk stream sender =>
      handle_install_snapshot_chunk_workflow env stream sender ss
  | JoinCluster _ sender =>
      reply sender (RStatus (PermissionDenied "Learner should not receive JoinCluster event."));;
      fail (RoleViolation "Learner" "Leader")
  | DiscoverLeader sender =>
      reply sender
        (RStatus (PermissionDenied "Learner should not response DiscoverLeader event."))
  | InboundFatalError source error => fatal_inbound source error
  end.

Definition handle_apply_completed (last_index : N) : handler unit :=
  t ← my_term; check_and_trigger_snapshot env last_index (role_i32 NR_Learner) t.

Definition handle_snapshot_created (r : result SnapshotMetadata) : handler unit :=
  set_state (set_snapshot_in_progress false);;
  match r with
  | Ok (mkSnapshotMetadata (Some last_included) _) =>
      n ← get; schedule_and_execute_purge env last_included (ln_last_purged_index (state n))
  | _ => mret tt
  end.

Definition handle_log_purge_completed (purged_id : LogId) : handler unit :=
  n ← get;
  if index_below (ln_last_purged_index (state n)) (lid_index purged_id)
  then set_state (λ s, s <| ln_last_purged_index := Some purged_id |> <| ln_pending_purge_upto := None |>)
  else mret tt.

(** A promoted learner asks the loop for the follower role. *)
Definition handle_membership_applied : handler unit :=
  n ← get;
  match mv_node_meta (membership env) (node_id (shared n)) with
  | Some meta =>
      if negb (nm_role meta =? role_i32 NR_Learner) then emit (BecomeFollower None) else mret tt
  | None => mret tt
  end.

(** ** Joining *)

(** [sort_by] on decreasing term, then decreasing leader id. *)
Definition discovery_order (a b : LeaderDiscoveryResponse) : Prop :=
  ldr_term b < ldr_term a ∨ (ldr_term b = ldr_term a ∧ ldr_leader_id b <= ldr_leader_id a).

#[global] Instance discovery_order_dec : RelDecision discovery_order.
Proof. intros a b. unfold discovery_order. apply _. Defined.

Definition select_valid_leader (responses : list LeaderDiscoveryResponse) : option N :=
  let valid_responses :=
    filter (λ r, ldr_leader_id r ≠ 0 ∧ 0 < ldr_term r) responses in
  ldr_leader_id <$> head (merge_sort discovery_order valid_responses).

(** The retry loop of [broadcast_discovery]: [attempts] are the results of the rounds
    ([None] for a timeout) until the retry limit; what is left of them is not asked.
    [None] is a round that is still awaited. *)
Fixpoint broadcast_discovery (max_retries retry_count : N)
    (attempts : list (option (result (list LeaderDiscoveryResponse)))) : option (result N) :=
  match attempts with
  | [] => None
  | attempt :: rest =>
      let retry :=
        if (0 <? max_retries) && (max_retries <=? retry_count + 1)
        then Some (Err RetryTimeoutError)
        else broadcast_discovery max_retries (retry_count + 1) rest in
      match attempt with
      | Some (Err e) => Some (Err e)
      | Some (Ok responses) =>
          match select_valid_leader responses with
          | Some leader_id => Some (Ok leader_id)
          | None => retry
          end
      | None => retry
      end
  end.

(** [join_cluster]: the leader that is known or discovered, the status this node has in
    its initial configuration, and the answer of the leader. *)
Definition join_cluster (self_id : N) (initial_cluster : list NodeMeta)
    (discovered : result N) (response : N → result JoinResponse) : handler unit :=
  n ← get;
  let leader := match current_leader (shared n) with
                | None => discovered
                | Some leader_id => Ok leader_id
                end in
  match leader with
  | Err e => fail e
  | Ok leader_id =>
      match list_find (λ m, nm_id m = self_id) initial_cluster with
      | None => fail (JoinClusterFailed self_id)
      | Some _ =>
          match response leader_id with
          | Err e => fail e
          | Ok r => if jresp_success r then set_shared (set_current_leader leader_id)
                    else fail (JoinClusterFailed (node_id (shared n)))
          end
      end
  end.

(** [From<&FollowerState>] and [From<&CandidateState>]. *)
Definition from_follower (f : FollowerState) : LearnerState :=
  mkLearnerState (f_pending_purge_upto f) (f_last_purged_index f) false.

Definition from_candidate (c : CandidateState) : LearnerState :=
  mkLearnerState None (c_last_purged_index c) false.

End learner.
End Learner.
