(* ===== verification/LeaderState.v ===== *)
(** * Leader state

    The data of [LeaderState] ([d-engine-core/src/raft_role/leader_state.rs]) with its
    buffers ([raft_role/buffers]) and the operations on it that touch nothing else:
    the progress of the peers, the commit and read indexes, the lease, and the
    bookkeeping of learner promotions. The maps keyed by log index ([BTreeMap]) and by
    node ([HashMap]) are [gmap]s; where the code iterates in key order the model uses
    [om_iter]. Timestamps kept for metrics only are left out. *)

From stdpp Require Import base tactics numbers option list sorting gmap strings.
From S2P Require Import Prelude Types Events ReadLease TermSegments BufferedLog Replication Election.
From S2P Require Import Proc Roles RoleState.

(** ** Data *)

Inductive PeerReplicationState := Probe | Replicate | Snapshot.

#[global] Instance PeerReplicationState_eq_dec : EqDecision PeerReplicationState.
Proof. solve_decision. Defined.

Abbreviation LinearizableReadRequest := (ClientReadRequest * N)%type.

Record WriteMetadata := mkWriteMetadata {
  start_idx : N;
  wm_senders : list N;
  wait_for_apply : bool;
  wm_deadline : N;
}.

Record PendingLeaseRead := mkPendingLeaseRead {
  plr_request : ClientReadRequest;
  plr_sender : N;
  plr_deadline : N;
}.

Record PendingReadBatch := mkPendingReadBatch {
  prb_deadline : N;
  prb_requests : list LinearizableReadRequest;
}.

Inductive PostCommitAction :=
  | LeaderNoop (term : N)
  | NodeJoin (node_id : N) (addr : string) (sender : N).

Record PostCommitEntry := mkPostCommitEntry { pce_deadline : N; pce_action : PostCommitAction }.

Record PendingPromotion := mkPendingPromotion { pp_node_id : N; ready_since : N }.

Inductive ReplicationTask :=
  | TAppend (req : AppendEntriesRequest)
  | TSnapshot (metadata : SnapshotMetadata) (leader_term : N).

(** The sending end of a worker's channel (what was sent on it) with the backoff state. *)
Record ReplicationWorkerHandle := mkReplicationWorkerHandle {
  task_tx : list ReplicationTask;
  snapshot_failure_count : N;
  snapshot_next_retry_at : option N;
}.

(** [ProposeBatchBuffer]: payloads and senders in separate vectors, index-aligned. *)
Record ProposeBatchBuffer := mkProposeBatchBuffer {
  pb_payloads : list EntryPayload;
  pb_senders : list N;
}.

Record RaftRequestWithSignal := mkRaftRequestWithSignal {
  rr_payloads : list EntryPayload;
  rr_senders : list N;
  wait_for_apply_event : bool;
}.

Record LeaderState := mkLeaderState {
  next_index : gmap N N;
  match_index : gmap N N;
  peer_replication_state : gmap N PeerReplicationState;
  noop_log_id : option N;
  scheduled_purge_upto : option LogId;
  l_last_purged_index : option LogId;
  l_snapshot_in_progress : bool;
  propose_buffer : ProposeBatchBuffer;
  replication_deadline : N;
  last_learner_check : N;
  last_heartbeat_send_ts : N;
  stale_check_deadline : option N;
  pending_promotions : list PendingPromotion;
  cluster_metadata : ClusterMetadata;
  linearizable_read_buffer : list LinearizableReadRequest;
  lease_read_queue : list LinearizableReadRequest;
  eventual_read_queue : list LinearizableReadRequest;
  pending_write_apply : gmap N N;
  pending_reads : gmap N PendingReadBatch;
  pending_lease_reads : list PendingLeaseRead;
  pending_client_writes : gmap N WriteMetadata;
  pending_commit_actions : gmap N PostCommitEntry;
  replication_workers : gmap N ReplicationWorkerHandle;
}.

#[global] Instance LeaderState_settable : Settable LeaderState := λ r,
  mkLeaderState (next_index r) (match_index r) (peer_replication_state r) (noop_log_id r)
    (scheduled_purge_upto r) (l_last_purged_index r) (l_snapshot_in_progress r)
    (propose_buffer r) (replication_deadline r) (last_learner_check r)
    (last_heartbeat_send_ts r) (stale_check_deadline r) (pending_promotions r)
    (cluster_metadata r) (linearizable_read_buffer r) (lease_read_queue r)
    (eventual_read_queue r) (pending_write_apply r) (pending_reads r) (pending_lease_reads r)
    (pending_client_writes r) (pending_commit_actions r) (replication_workers r).

(** [From<&CandidateState> for LeaderState], without the shared state. *)
Definition leader_from_candidate (now replication_timeout : N) (c : CandidateState) : LeaderState :=
  mkLeaderState ∅ ∅ ∅ None None (c_last_purged_index c) false (mkProposeBatchBuffer [] [])
    (now + replication_timeout) now 0 None [] (mkClusterMetadata false 0 []) [] [] [] ∅ ∅ [] ∅ ∅ ∅.

(** [From<&LeaderState> for FollowerState], without the shared state. *)
Definition follower_from_leader (fresh : N) (l : LeaderState) : FollowerState :=
  mkFollowerState fresh (scheduled_purge_upto l) (l_last_purged_index l) (l_snapshot_in_progress l).

(** ** The propose buffer *)

Definition propose_push (p : EntryPayload) (sender : N) (b : ProposeBatchBuffer) : ProposeBatchBuffer :=
  mkProposeBatchBuffer (pb_payloads b ++ [p]) (pb_senders b ++ [sender]).

Definition propose_flush (b : ProposeBatchBuffer) : option RaftRequestWithSignal * ProposeBatchBuffer :=
  match pb_payloads b with
  | [] => (None, b)
  | _ => (Some (mkRaftRequestWithSignal (pb_payloads b) (pb_senders b) true),
          mkProposeBatchBuffer [] [])
  end.

(** ** Peer progress *)

(** The floor [match_index + 1] keeps a stale conflict from undoing an acknowledgement. *)
Definition update_next_index (id new_next_id : N) (l : LeaderState) : LeaderState :=
  let floor := default 0 (match_index l !! id) + 1 in
  l <| next_index ::= <[id := N.max new_next_id floor]> |>.

Definition update_match_index (id new_match_id : N) (l : LeaderState) : LeaderState :=
  if default 0 (match_index l !! id) <? new_match_id
  then l <| match_index ::= <[id := new_match_id]> |> else l.

Definition init_peers_next_index_and_match_index (last_entry_id : N) (peer_ids : list N)
    (l : LeaderState) : LeaderState :=
  foldl (λ l id, update_match_index id 0 (update_next_index id (last_entry_id + 1) l)) l peer_ids.

Definition peer_state (l : LeaderState) (id : N) : PeerReplicationState :=
  default Probe (peer_replication_state l !! id).

Definition set_peer_replication_state (id : N) (st : PeerReplicationState) (l : LeaderState)
    : LeaderState :=
  l <| peer_replication_state ::= <[id := st]> |>.

Definition update_peer_index (id : N) (u : PeerUpdate) (l : LeaderState) : LeaderState :=
  let l1 :=
    if pu_success u then
      let current := default 1 (next_index l !! id) in
      set_peer_replication_state id Replicate
        (update_next_index id (N.max (pu_next_index u) current) l)
    else set_peer_replication_state id Probe (update_next_index id (pu_next_index u) l) in
  match pu_match_index u with
  | Some m => update_match_index id m l1
  | None => l1
  end.

(** [RaftRole::handle_peer_stream_error] on a leader. *)
Definition handle_peer_stream_error (id : N) (l : LeaderState) : LeaderState :=
  if decide (peer_state l id = Snapshot) then l
  else set_peer_replication_state id Probe
         (update_next_index id (default 0 (match_index l !! id) + 1) l).

(** ** Cluster metadata, commit index, read index *)

Definition update_cluster_metadata (v : MembershipView) (l : LeaderState) : LeaderState :=
  let total_voters := N.of_nat (length (mv_voters v)) + 1 in
  l <| cluster_metadata := mkClusterMetadata (total_voters =? 1) total_voters (mv_replication_peers v) |>.

(** [replication_targets.iter().any(|n| n.id == id && n.role != Learner)]. *)
Definition is_voter_target (cm : ClusterMetadata) (id : N) : bool :=
  existsb (λ m, (nm_id m =? id) && negb (nm_role m =? role_i32 NR_Learner)) (replication_targets cm).

Definition is_learner_target (cm : ClusterMetadata) (id : N) : bool :=
  existsb (λ m, (nm_id m =? id) && (nm_role m =? role_i32 NR_Learner)) (replication_targets cm).

(** The match indexes of the voters that have one. *)
Definition matched_ids (l : LeaderState) : list N :=
  (filter (λ p, is_voter_target (cluster_metadata l) p.1) (map_to_list (match_index l))).*2.

(** The outer [None] is the panic of [calculate_majority_matched_index]. *)
Definition calculate_new_commit_index (l : LeaderState) (s : SharedState) (m : LogMem)
    : option (option N) :=
  let old_commit_index := commit_index s in
  let! new := calculate_majority_matched_index m (current_term (hard_state s)) old_commit_index
                (matched_ids l) in
  match new with
  | Some c => Some (if old_commit_index <? c then Some c else None)
  | None => Some None
  end.

Definition calculate_read_index (l : LeaderState) (s : SharedState) : N :=
  N.max (commit_index s) (default 0 (noop_log_id l)).

(** ** Lease *)

Definition is_lease_valid (s : SharedState) (now_ms : N) : bool :=
  ReadLease.is_valid_for_leader (lease s) (current_term (hard_state s)) now_ms.

(** [None] is the panic of [ReadLease::pack]. *)
Definition update_lease_timestamp (send_ts lease_duration : N) (s : SharedState)
    : option SharedState :=
  let! l := ReadLease.renew (current_term (hard_state s)) (saturating_add send_ts lease_duration) in
  Some (s <| lease := l |>).

(** ** Read policy and backpressure *)

Definition determine_read_policy (c : RaftConfig) (req : ClientReadRequest) : ReadConsistencyPolicy :=
  match consistency_policy req with
  | Some policy => if allow_client_override c then policy else default_policy c
  | None => default_policy c
  end.

Definition should_reject_write (c : RaftConfig) (current_pending : N) : bool :=
  (0 <? max_pending_writes c) && (max_pending_writes c <=? current_pending).

Definition should_reject_read (c : RaftConfig) (current_pending : N) : bool :=
  (0 <? max_pending_reads c) && (max_pending_reads c <=? current_pending).

(** ** Learner promotion *)

Definition is_promotable (s : NodeStatus) : bool :=
  match s with NS_Promotable => true | _ => false end.

Definition is_learner_caught_up (match_idx : option N) (leader_commit threshold : N) : bool :=
  leader_commit - default 0 match_idx <=? threshold.

(** The progress of the learners among the replication targets. *)
Definition learner_progress (l : LeaderState) : list (N * option N) :=
  (λ p, (p.1, Some p.2)) <$>
    filter (λ p, is_learner_target (cluster_metadata l) p.1) (map_to_list (match_index l)).

Definition find_promotable_learners (c : RaftConfig) (v : MembershipView) (leader_commit : N)
    (progress : list (N * option N)) : list N :=
  (filter (λ p, mv_contains_node v p.1
                && is_learner_caught_up p.2 leader_commit (learner_catchup_threshold c)
                && is_promotable (default NS_ReadOnly (mv_node_status v p.1))) progress).*1.

Definition deduplicate_promotions (l : LeaderState) (ready : list N) : list N :=
  filter (λ id, id ∉ pp_node_id <$> pending_promotions l) ready.

Definition refresh_stale_deadline (threshold : N) (l : LeaderState) : LeaderState :=
  l <| stale_check_deadline := (λ p, ready_since p + threshold) <$> head (pending_promotions l) |>.

(** [drain_batch]: the first [count] entries of the queue, removed from it. *)
Definition drain_batch (count : nat) (l : LeaderState) : list PendingPromotion * LeaderState :=
  (take count (pending_promotions l), l <| pending_promotions ::= drop count |>).

(** The largest number of learners that keeps the number of voters odd. *)
Definition calculate_safe_batch_size (current available : N) : N :=
  if (current + available) mod 2 =? 1 then available else available - 1.

(** The entries at the front of the queue that are stale, and the rest. *)
Fixpoint split_stale (now threshold : N) (q : list PendingPromotion) : list N * list PendingPromotion :=
  match q with
  | [] => ([], [])
  | p :: q' => if ready_since p + threshold <=? now
               then let '(ids, rest) := split_stale now threshold q' in (pp_node_id p :: ids, rest)
               else ([], q)
  end.

(** ** Snapshot push backoff *)

Definition snapshot_push_backoff_duration (failure_count base_delay max_delay : N) : N :=
  N.min (N.min (base_delay * N.shiftl 1 (N.min failure_count 20)) u64_max) max_delay.

Definition handle_snapshot_push_completed (id : N) (success : bool) (c : RaftConfig) (now : N)
    (l : LeaderState) : LeaderState :=
  if negb (bool_decide (peer_state l id = Snapshot)) then l
  else match replication_workers l !! id with
       | None => l
       | Some h =>
           let h' :=
             if success then mkReplicationWorkerHandle (task_tx h) 0 None
             else let count := snapshot_failure_count h + 1 in
                  mkReplicationWorkerHandle (task_tx h) count
                    (Some (now + snapshot_push_backoff_duration count (push_base_delay_ms c)
                                   (push_backoff_max_delay_ms c))) in
           set_peer_replication_state id Probe (l <| replication_workers ::= <[id := h']> |>)
       end.

(** [send_to_worker_or_spawn]: a missing or dead worker is replaced by a new one. *)
Definition send_to_worker_or_spawn (dead : N → bool) (id : N) (t : ReplicationTask) (l : LeaderState)
    : LeaderState :=
  let h := match replication_workers l !! id with
           | Some h => if dead id then mkReplicationWorkerHandle [t] 0 None
                       else mkReplicationWorkerHandle (task_tx h ++ [t]) (snapshot_failure_count h)
                              (snapshot_next_retry_at h)
           | None => mkReplicationWorkerHandle [t] 0 None
           end in
  l <| replication_workers ::= <[id := h]> |>.
