(* ===== verification/Leader.v ===== *)
(** * The leader

    The handlers of [LeaderState] ([d-engine-core/src/raft_role/leader_state.rs]): the
    replication round, commit and its follow-ups (client writes, noop, join), reads and
    the lease, heartbeats and deadlines, inbound events, promotion and removal of
    learners. Replication workers are outside: what is sent to them is recorded in
    their handles and their results come back as [AppendResult] events. *)

From stdpp Require Import base tactics numbers option list sorting gmap strings.
From S2P Require Import Prelude Types Events ReadLease TermSegments BufferedLog Replication Election.
From S2P Require Import Proc Roles RoleState LeaderState.

Module Leader.

#[global] Instance leader_role : RaftRoleState LeaderState := {
  as_i32 := role_i32 NR_Leader;
  update_commit_index c s := if commit_index s <? c then s <| commit_index := c |> else s;
  reset_timer env s :=
    s <| replication_deadline := now env + rpc_append_entries_clock_in_ms (config env) |>;
  pending_purge_upto s := Some (scheduled_purge_upto s);
  set_pending_purge_upto p s := s <| scheduled_purge_upto := p |>;
  snapshot_in_progress s := Some (l_snapshot_in_progress s);
  set_snapshot_in_progress b s := s <| l_snapshot_in_progress := b |>;
}.

#[local] Abbreviation handler := (proc (Node LeaderState)).

Section leader.
Context (env : Env).

Definition state_snapshot (s : SharedState) : StateSnapshot :=
  mkStateSnapshot (role_i32 NR_Leader) (current_term (hard_state s)) None (commit_index s).

Definition leader_state_snapshot (l : LeaderState) : LeaderStateSnapshot :=
  mkLeaderStateSnapshot (next_index l) (match_index l) (noop_log_id l).

(** ** Reads *)

Definition read_keys (keys : list bytes) : Reply :=
  RClient (read_results (default [] (read_from_state_machine (sm env) keys))).

Definition execute_pending_reads (reads : list LinearizableReadRequest) : handler unit :=
  for_each (λ r, reply r.2 (read_keys (cr_keys r.1))) reads.

Definition drain_pending_lease_reads : handler unit :=
  n ← get;
  set_state (λ l, l <| pending_lease_reads := [] |>);;
  for_each (λ e, reply (plr_sender e) (read_keys (cr_keys (plr_request e))))
    (pending_lease_reads (state n)).

Definition renew_lease (send_ts : N) : handler unit := λ n,
  match update_lease_timestamp send_ts (lease_duration_ms (config env)) (shared n) with
  | None => None
  | Some s => Some (n <| shared := s |>, Ok tt)
  end.

(** Serve the linearizable reads whose index is at most [upto]. *)
Definition serve_pending_reads (upto : N) : handler unit :=
  n ← get;
  for_each (λ p, set_state (λ l, l <| pending_reads ::= delete p.1 |>);;
                 execute_pending_reads (prb_requests p.2))
    (om_range 0 upto (pending_reads (state n))).

(** ** Client writes and post-commit actions *)

Definition drain_pending_writes_with_error (code : ErrorCode) : handler unit :=
  n ← get;
  set_state (λ l, l <| pending_client_writes := ∅ |>);;
  for_each (λ p, reply_all (wm_senders p.2) (RClient (client_error code)))
    (om_iter (pending_client_writes (state n))).

(** The senders of a batch by log index, from its first index. *)
Fixpoint index_senders (idx : N) (senders : list N) : list (N * N) :=
  match senders with [] => [] | s :: ss => (idx, s) :: index_senders (idx + 1) ss end.

Definition drain_pending_client_writes (new_commit : N) : handler unit :=
  n ← get;
  set_state (λ l, l <| pending_client_writes ::= filter (λ p, new_commit < p.1) |>);;
  for_each (λ p : N * WriteMetadata,
      if wait_for_apply p.2
      then for_each (λ q : N * N, set_state (λ l, l <| pending_write_apply ::= <[q.1 := q.2]> |>))
             (index_senders (start_idx p.2) (wm_senders p.2))
      else reply_all (wm_senders p.2) (RClient write_success))
    (om_range 0 new_commit (pending_client_writes (state n))).

Definition on_noop_committed : handler unit :=
  n ← get;
  set_state (λ l, l <| noop_log_id := Some (last_entry_id (mem (raft_log n))) |>).

Definition send_join_success (sender : N) : handler unit :=
  n ← get;
  reply sender
    (RJoin (mkJoinResponse true (Some (mv_config (membership env) (current_leader (shared n))))
              (mv_conf_version (membership env)) (snapshot_metadata (sm env))
              (node_id (shared n)))).

Definition fire_commit_action (a : PostCommitAction) : handler unit :=
  match a with
  | LeaderNoop term => on_noop_committed;; emit (NoopCommitted term)
  | NodeJoin _ _ sender => send_join_success sender
  end.

Definition drain_commit_actions (new_commit : N) : handler unit :=
  n ← get;
  set_state (λ l, l <| pending_commit_actions ::= filter (λ p, new_commit < p.1) |>);;
  for_each (λ p : N * PostCommitEntry, fire_commit_action (pce_action p.2))
    (om_range 0 new_commit (pending_commit_actions (state n))).

(** ** The replication round *)

Definition merge_batch_to_write_metadata (batch : list RaftRequestWithSignal) (start : N)
    : list EntryPayload * option WriteMetadata :=
  let payloads := rr_payloads <$> batch in
  let all_payloads := concat payloads in
  let all_senders := concat (rr_senders <$> batch) in
  if bool_decide (all_payloads = []) && bool_decide (all_senders = []) then (all_payloads, None)
  else (all_payloads,
        Some (mkWriteMetadata start all_senders (existsb wait_for_apply_event batch) (now env))).

(** Phase 1 failed: the writes and reads of the batch are answered. *)
Definition reject_batch (writes : option WriteMetadata)
    (reads : option (list LinearizableReadRequest)) : handler unit :=
  (match writes with
   | Some meta => reply_all (wm_senders meta) (RClient (client_error EC_ProposeFailed))
   | None => mret tt
   end);;
  match reads with
  | Some rs => reply_all rs.*2 (RStatus (FailedPrecondition "Prepare failed"))
  | None => mret tt
  end.

(** Phase 2. *)
Definition register_writes (writes : option WriteMetadata) : handler unit :=
  match writes with
  | Some meta =>
      match wm_senders meta with
      | [] => mret tt
      | _ =>
          let end_log_index := start_idx meta + N.of_nat (length (wm_senders meta)) - 1 in
          let meta' := mkWriteMetadata (start_idx meta) (wm_senders meta) (wait_for_apply meta)
                         (now env + general_raft_timeout_ms (config env)) in
          set_state (λ l, l <| pending_client_writes ::= <[end_log_index := meta']> |>)
      end
  | None => mret tt
  end.

Definition enqueue_reads (read_index deadline : N) (rs : list LinearizableReadRequest)
    (l : LeaderState) : LeaderState :=
  let b := default (mkPendingReadBatch deadline []) (pending_reads l !! read_index) in
  l <| pending_reads ::= <[read_index := mkPendingReadBatch (prb_deadline b) (prb_requests b ++ rs)]> |>.

(** The noop guard and phase 3. *)
Definition route_reads (reads : option (list LinearizableReadRequest)) : handler unit :=
  n ← get;
  match reads with
  | None => mret tt
  | Some rs =>
      match noop_log_id (state n) with
      | None => reply_all rs.*2 (RStatus (Unavailable "LeaderNotReady: noop not committed"))
      | Some _ =>
          let read_index := calculate_read_index (state n) (shared n) in
          if (single_voter (cluster_metadata (state n)) || is_lease_valid (shared n) (now env))
             && (read_index <=? last_applied (sm env))
          then execute_pending_reads rs
          else set_state (enqueue_reads read_index (now env + general_raft_timeout_ms (config env)) rs)
      end
  end.

(** Phase 5: one request to the worker of its peer. *)
Definition dispatch_append (r : N * AppendEntriesRequest * N) : handler unit :=
  let '(peer_id, request, effective_next_index) := r in
  n ← get;
  if decide (peer_state (state n) peer_id = Snapshot) then mret tt
  else
    let next := if decide (peer_state (state n) peer_id = Replicate)
                then effective_next_index + N.of_nat (length (ar_entries request))
                else effective_next_index in
    set_state (λ l, send_to_worker_or_spawn (worker_dead env) peer_id (TAppend request)
                      (update_next_index peer_id next l)).

(** Phase 6: a snapshot push, unless backing off or in flight. *)
Definition dispatch_snapshot (metadata : SnapshotMetadata) (peer_id : N) : handler unit :=
  n ← get;
  let backing_off := match replication_workers (state n) !! peer_id ≫= snapshot_next_retry_at with
                     | Some retry_at => now env <? retry_at
                     | None => false
                     end in
  if backing_off then mret tt
  else if decide (peer_state (state n) peer_id = Snapshot) then mret tt
  else set_state (λ l, set_peer_replication_state peer_id Snapshot
                         (send_to_worker_or_spawn (worker_dead env) peer_id
                            (TSnapshot metadata (current_term (hard_state (shared n)))) l)).

Definition execute_and_process_raft_rpc (payloads : list EntryPayload)
    (writes : option WriteMetadata) (reads : option (list LinearizableReadRequest)) : handler unit :=
  set_state (λ l, l <| last_heartbeat_send_ts := now env |>);;
  n ← get;
  match prepare_batch_requests (node_id (shared n)) (max_entries_per_replication (config env))
          (raft_log n) payloads (state_snapshot (shared n)) (leader_state_snapshot (state n))
          (cluster_metadata (state n)) with
  | None => panic
  | Some (lg, Err e) =>
      modify (λ n, n <| raft_log := lg |>);; reject_batch writes reads;; fail e
  | Some (lg, Ok requests) =>
      modify (λ n, n <| raft_log := lg |>);;
      register_writes writes;;
      route_reads reads;;
      for_each dispatch_append (append_requests requests);;
      match snapshot_metadata (sm env) with
      | Some metadata => for_each (dispatch_snapshot metadata) (snapshot_targets requests)
      | None => mret tt
      end
  end.

Definition process_batch (batch : list RaftRequestWithSignal) : handler unit :=
  set_state (reset_timer env);;
  n ← get;
  let '(payloads, writes) :=
    merge_batch_to_write_metadata batch (last_entry_id (mem (raft_log n)) + 1) in
  execute_and_process_raft_rpc payloads writes None.

Definition execute_request_immediately (r : RaftRequestWithSignal) : handler unit :=
  process_batch [r].

(** A request for one entry of the protocol itself: no sender, no apply. *)
Definition internal_request (p : EntryPayload) : RaftRequestWithSignal :=
  mkRaftRequestWithSignal [p] [] false.

Definition send_heartbeat_or_batch (request : option RaftRequestWithSignal) : handler unit :=
  set_state (reset_timer env);;
  match request with
  | Some req =>
      n ← get;
      let '(payloads, writes) :=
        merge_batch_to_write_metadata [req] (last_entry_id (mem (raft_log n)) + 1) in
      execute_and_process_raft_rpc payloads writes None
  | None => execute_and_process_raft_rpc [] None None
  end.

Definition initiate_noop_commit : handler unit :=
  n ← get;
  let deadline := now env + verify_leadership_timeout_ms (config env) in
  let noop_index := last_entry_id (mem (raft_log n)) + 1 in
  set_state (λ l, l <| pending_commit_actions ::=
    <[noop_index := mkPostCommitEntry deadline
                      (LeaderNoop (current_term (hard_state (shared n))))]> |>);;
  r ← attempt (execute_request_immediately (internal_request payload_noop));
  match r with
  | Ok _ => mret tt
  | Err e => set_state (λ l, l <| pending_commit_actions ::= delete noop_index |>);; fail e
  end.

(** ** Client commands *)

Definition push_client_cmd (cmd : ClientCmd) : handler unit :=
  n ← get;
  let l := state n in
  let too_many sender : handler unit :=
    reply sender (RStatus (ResourceExhausted "Too many pending read requests")) in
  match cmd with
  | Propose req sender =>
      if should_reject_write (config env) (N.of_nat (length (pb_payloads (propose_buffer l))))
      then reply sender (RStatus (ResourceExhausted "Too many pending write requests"))
      else match cw_command req with
           | Some c => set_state (λ l, l <| propose_buffer ::= propose_push (payload_command c) sender |>)
           | None => reply sender (RStatus (InvalidArgument "Command is empty"))
           end
  | Read req sender =>
      match determine_read_policy (config env) req with
      | LinearizableRead =>
          if should_reject_read (config env) (N.of_nat (length (linearizable_read_buffer l)))
          then too_many sender
          else set_state (λ l, l <| linearizable_read_buffer ::= (.++ [(req, sender)]) |>)
      | LeaseRead =>
          if should_reject_read (config env) (N.of_nat (length (lease_read_queue l)))
          then too_many sender
          else set_state (λ l, l <| lease_read_queue ::= (.++ [(req, sender)]) |>)
      | EventualConsistency =>
          if should_reject_read (config env) (N.of_nat (length (eventual_read_queue l)))
          then too_many sender
          else set_state (λ l, l <| eventual_read_queue ::= (.++ [(req, sender)]) |>)
      end
  | Scan prefix sender =>
      reply sender
        match scan_prefix (sm env) prefix with
        | Ok (es, rev) => RClient (scan_results es rev)
        | Err _ => RStatus (Internal "scan failed")
        end
  end.

Definition take_proposals : handler (option RaftRequestWithSignal) :=
  n ← get;
  let '(r, b) := propose_flush (propose_buffer (state n)) in
  set_state (λ l, l <| propose_buffer := b |>);;
  mret r.

Definition unified_write_and_linear_read : handler unit :=
  n ← get;
  req ← take_proposals;
  let '(payloads, writes) :=
    match req with
    | Some r => (rr_payloads r,
                 Some (mkWriteMetadata (last_entry_id (mem (raft_log n)) + 1) (rr_senders r)
                         (wait_for_apply_event r) (now env)))
    | None => ([], None)
    end in
  match linearizable_read_buffer (state n) with
  | [] => execute_and_process_raft_rpc payloads writes None
  | rs => set_state (λ l, l <| linearizable_read_buffer := [] |>);;
          execute_and_process_raft_rpc payloads writes (Some rs)
  end.

Definition process_lease_read (req : ClientReadRequest) (sender : N) : handler unit :=
  n ← get;
  if is_lease_valid (shared n) (now env) then reply sender (read_keys (cr_keys req))
  else if single_voter (cluster_metadata (state n)) then
    renew_lease (now env);; reply sender (read_keys (cr_keys req))
  else
    set_state (λ l, l <| pending_lease_reads ::=
      (.++ [mkPendingLeaseRead req sender (now env + general_raft_timeout_ms (config env))]) |>);;
    execute_and_process_raft_rpc [] None None.

(** [while let Some((req, sender)) = self.lease_read_queue.pop_front()]; the errors are
    logged. *)
Fixpoint process_lease_queue (q : list LinearizableReadRequest) : handler unit :=
  match q with
  | [] => mret tt
  | (req, sender) :: q' =>
      set_state (λ l, l <| lease_read_queue := q' |>);;
      attempt (process_lease_read req sender);;
      process_lease_queue q'
  end.

Definition flush_cmd_buffers : handler unit :=
  n ← get;
  let has_writes := negb (bool_decide (pb_payloads (propose_buffer (state n)) = [])) in
  let has_reads := match linearizable_read_buffer (state n) with [] => false | _ => true end in
  (if has_writes && negb has_reads
   then req ← take_proposals;
        match req with Some r => process_batch [r] | None => mret tt end
   else if has_writes || has_reads then unified_write_and_linear_read else mret tt);;
  n ← get;
  process_lease_queue (lease_read_queue (state n));;
  n ← get;
  set_state (λ l, l <| eventual_read_queue := [] |>);;
  for_each (λ r, reply r.2 (read_keys (cr_keys r.1))) (eventual_read_queue (state n)).

(** Every buffered or pending request is answered before the role is left. *)
Definition drain_read_buffer : handler unit :=
  n ← get;
  let l := state n in
  let gone : Reply := RStatus (Unavailable "Leader stepped down") in
  reply_all (linearizable_read_buffer l).*2 gone;;
  reply_all (lease_read_queue l).*2 gone;;
  reply_all (eventual_read_queue l).*2 gone;;
  for_each (λ p : N * PendingReadBatch, reply_all (prb_requests p.2).*2 gone)
    (om_iter (pending_reads l));;
  reply_all (plr_sender <$> pending_lease_reads l) gone;;
  set_state (λ l, l <| linearizable_read_buffer := [] |> <| lease_read_queue := [] |>
                    <| eventual_read_queue := [] |> <| pending_reads := ∅ |>
                    <| pending_lease_reads := [] |>);;
  req ← take_proposals;
  (match req with
   | Some r => reply_all (rr_senders r) (RStatus (FailedPrecondition "Not leader"))
   | None => mret tt
   end);;
  drain_pending_writes_with_error EC_ProposeFailed.

End leader.
End Leader.
