(* ===== verification/LeaderEvents.v ===== *)
(** * The leader's event handlers

    The second half of [d-engine-core/src/raft_role/leader_state.rs]: what the leader
    does on an acknowledgement, a local flush, an apply, a tick, an inbound event, a
    snapshot or purge notification and a membership change. *)

From stdpp Require Import base tactics numbers option list sorting gmap strings.
From S2P Require Import Prelude Types Events ReadLease TermSegments BufferedLog Replication Election.
From S2P Require Import Proc Roles RoleState LeaderState Leader.

Module LeaderEvents.
Import Leader.

#[local] Abbreviation handler := (proc (Node LeaderState)).

Section leader_events.
Context (env : Env).

(** ** Commit *)

(** A new commit index: announce it, then answer what waited for it. *)
Definition advance_commit (new_commit : N) : handler unit :=
  t ← my_term;
  update_commit_index_with_signal (role_i32 NR_Leader) t new_commit;;
  drain_pending_client_writes new_commit;;
  drain_commit_actions env new_commit.

Definition new_commit_index : handler (option N) := λ n,
  match calculate_new_commit_index (state n) (shared n) (mem (raft_log n)) with
  | None => None
  | Some c => Some (n, Ok c)
  end.

Definition handle_log_flushed (durable : N) : handler unit :=
  n ← get;
  let single := single_voter (cluster_metadata (state n)) in
  c ← (if single then
         let last_log_index := last_entry_id (mem (raft_log n)) in
         mret (if commit_index (shared n) <? last_log_index then Some last_log_index else None)
       else new_commit_index);
  match c with
  | Some new_commit =>
      advance_commit new_commit;;
      if single then renew_lease env (now env);; drain_pending_lease_reads env else mret tt
  | None => mret tt
  end.

(** ** Acknowledgements *)

Definition step_down_for_term (term : N) : handler unit :=
  commit_hard_state env (Some term) None;;
  drain_pending_writes_with_error EC_TermOutdated;;
  set_shared (λ s, s <| lease := ReadLease.revoke |>);;
  emit (BecomeFollower None);;
  fail (HigherTerm term).

Definition enqueue_and_notify_promotions (new_promotions : list N) : handler unit :=
  set_state (λ l, l <| pending_promotions ::=
    (.++ ((λ id, mkPendingPromotion id (now env)) <$> new_promotions)) |>);;
  n ← get;
  (match stale_check_deadline (state n) with
   | None => set_state (refresh_stale_deadline (stale_learner_threshold_ms (config env)))
   | Some _ => mret tt
   end);;
  emit PromoteReadyLearners.

Definition check_learner_progress (progress : list (N * option N)) : handler unit :=
  n ← get;
  if now env - last_learner_check (state n) <? learner_check_throttle_ms (config env) then mret tt
  else
    set_state (λ l, l <| last_learner_check := now env |>);;
    match progress with
    | [] => mret tt
    | _ =>
        let ready := find_promotable_learners (config env) (membership env)
                       (commit_index (shared n)) progress in
        match deduplicate_promotions (state n) ready with
        | [] => mret tt
        | ps => enqueue_and_notify_promotions ps
        end
    end.

(** After a voter's acknowledgement: advance the commit index, then refresh the lease
    and serve the waiting reads when the recorded match indexes still form a majority
    at the commit index. *)
Definition voter_acknowledged : handler unit :=
  c ← new_commit_index;
  (match c with Some new_commit => advance_commit new_commit | None => mret tt end);;
  n ← get;
  match calculate_majority_matched_index (mem (raft_log n)) (current_term (hard_state (shared n)))
          (commit_index (shared n)) (matched_ids (state n)) with
  | None => panic
  | Some None => mret tt
  | Some (Some _) =>
      let send_ts := if 0 <? last_heartbeat_send_ts (state n)
                     then last_heartbeat_send_ts (state n) else now env in
      renew_lease env send_ts;;
      drain_pending_lease_reads env;;
      serve_pending_reads env (last_applied (sm env))
  end.

(** What the answer says about the peer: an update of its progress, a higher term to
    step down for ([inr]), or nothing. *)
Definition interpret_response (id : N) (response : AppendEntriesResponse) (leader_term : N)
    (l : LeaderState) (m : LogMem) : result (option (PeerUpdate + N)) :=
  match resp_result response with
  | Some (Success success) =>
      let? u := handle_success_response (resp_term response) success leader_term in Ok (Some (inl u))
  | Some (Conflict conflict) =>
      let? u := handle_conflict_response conflict m (default 1 (next_index l !! id)) in
      Ok (Some (inl u))
  | Some (HigherTermResult term) => Ok (if leader_term <? term then Some (inr term) else None)
  | None => Ok None
  end.

Definition handle_append_result (follower_id : N) (r : result AppendEntriesResponse) : handler unit :=
  n ← get;
  let leader_term := current_term (hard_state (shared n)) in
  match r with
  | Err _ => mret tt
  | Ok response =>
      if resp_term response <? leader_term then mret tt
      else if leader_term <? resp_term response then step_down_for_term (resp_term response)
      else
        match interpret_response follower_id response leader_term (state n) (mem (raft_log n)) with
        | Err e => fail e
        | Ok None => mret tt
        | Ok (Some (inr term)) => step_down_for_term term
        | Ok (Some (inl u)) =>
            let is_voter := is_voter_target (cluster_metadata (state n)) follower_id in
            set_state (update_peer_index follower_id u);;
            n ← get;
            (if is_voter then mret tt
             else match learner_progress (state n) with
                  | [] => mret tt
                  | progress => attempt (check_learner_progress progress);; mret tt
                  end);;
            if pu_success u && is_voter then voter_acknowledged else mret tt
        end
  end.

(** ** Apply *)

(** The results matched to the waiting clients; each index answers once. *)
Fixpoint take_responses (results : list ApplyResult) (waiting : gmap N N)
    : list (ApplyResult * N) * gmap N N :=
  match results with
  | [] => ([], waiting)
  | r :: rs =>
      match waiting !! apr_index r with
      | Some sender =>
          let '(out, w) := take_responses rs (delete (apr_index r) waiting) in ((r, sender) :: out, w)
      | None => take_responses rs waiting
      end
  end.

Definition handle_apply_completed (last_index : N) (results : list ApplyResult) : handler unit :=
  n ← get;
  let '(responses, waiting) := take_responses results (pending_write_apply (state n)) in
  set_state (λ l, l <| pending_write_apply := waiting |>);;
  for_each (λ p : ApplyResult * N,
      reply p.2 (RClient (if apr_succeeded p.1 then write_success else cas_failure))) responses;;
  serve_pending_reads env last_index;;
  t ← my_term;
  check_and_trigger_snapshot env last_index (role_i32 NR_Leader) t.

(** ** Purge and snapshots *)

Definition handle_log_purge_completed (purged_id : LogId) : handler unit :=
  n ← get;
  if index_below (l_last_purged_index (state n)) (lid_index purged_id)
  then set_state (λ l, l <| l_last_purged_index := Some purged_id |> <| scheduled_purge_upto := None |>)
  else mret tt.

Definition handle_snapshot_created (r : result SnapshotMetadata) : handler unit :=
  set_state (set_snapshot_in_progress false);;
  match r with
  | Ok (mkSnapshotMetadata (Some last_included) _) =>
      n ← get; schedule_and_execute_purge env last_included (l_last_purged_index (state n))
  | _ => mret tt
  end.

(** ** Membership *)

Definition handle_join_cluster (req : JoinRequest) (sender : N) : handler unit :=
  let refuse (e : error) : handler unit :=
    reply sender (RStatus (FailedPrecondition "join refused"));; fail e in
  if mv_contains_node (membership env) (jr_node_id req) then refuse (NodeAlreadyExists (jr_node_id req))
  else if negb (mv_can_rejoin (membership env) (jr_node_id req) (jr_node_role req))
  then refuse (JoinClusterError "cannot rejoin")
  else
    let change := AddNode (jr_node_id req) (jr_address req) (jr_status req) in
    let deadline := now env + verify_leadership_timeout_ms (config env) in
    r ← attempt (execute_request_immediately env (internal_request (payload_config change)));
    match r with
    | Err e =>
        reply sender (RStatus (FailedPrecondition "Join request submission failed"));; fail e
    | Ok _ =>
        n ← get;
        set_state (λ l, l <| pending_commit_actions ::=
          <[last_entry_id (mem (raft_log n)) :=
              mkPostCommitEntry deadline (NodeJoin (jr_node_id req) (jr_address req) sender)]> |>)
    end.

Definition handle_membership_applied : handler unit :=
  n ← get;
  let old := nm_id <$> replication_targets (cluster_metadata (state n)) in
  set_state (update_cluster_metadata (membership env));;
  n ← get;
  let cur := nm_id <$> replication_targets (cluster_metadata (state n)) in
  let newly_added := filter (λ id, id ∉ old) cur in
  let removed := filter (λ id, id ∉ cur) old in
  set_state (init_peers_next_index_and_match_index (last_entry_id (mem (raft_log n))) newly_added);;
  set_state (λ l, l <| replication_workers ::= (λ w, foldr delete w removed) |>).

Definition handle_self_removed : handler unit := emit (BecomeFollower None).

Definition safe_batch_promote (batch : list N) : handler unit :=
  execute_request_immediately env
    (internal_request (payload_config (BatchPromote batch (status_i32 NS_Active)))).

Definition handle_promote_ready_learners : handler unit :=
  let threshold := stale_learner_threshold_ms (config env) in
  set_state (λ l, l <| pending_promotions ::= filter (λ p, now env - ready_since p <= threshold) |>);;
  set_state (refresh_stale_deadline threshold);;
  n ← get;
  match pending_promotions (state n) with
  | [] => mret tt
  | pending =>
      let current_voters := N.of_nat (length (mv_voters (membership env))) + 1 in
      let max_batch_size := calculate_safe_batch_size current_voters (N.of_nat (length pending)) in
      if max_batch_size =? 0 then mret tt
      else
        let entries := (drain_batch (N.to_nat max_batch_size) (state n)).1 in
        set_state (λ l, (drain_batch (N.to_nat max_batch_size) l).2);;
        r ← attempt (safe_batch_promote (pp_node_id <$> entries));
        (match r with
         | Err e =>
             set_state (λ l, refresh_stale_deadline threshold
                               (l <| pending_promotions ::= (entries ++.) |>));;
             fail e
         | Ok _ => set_state (refresh_stale_deadline threshold)
         end);;
        n ← get;
        match pending_promotions (state n) with
        | [] => mret tt
        | _ => emit PromoteReadyLearners
        end
  end.

Definition handle_stale_learner (id : N) : handler unit :=
  execute_request_immediately env (internal_request (payload_config (BatchRemove [id]))).

Definition check_and_purge_stale_front : handler unit :=
  let threshold := stale_learner_threshold_ms (config env) in
  n ← get;
  let '(stale_ids, rest) := split_stale (now env) threshold (pending_promotions (state n)) in
  set_state (λ l, refresh_stale_deadline threshold (l <| pending_promotions := rest |>));;
  for_each (λ id, attempt (handle_stale_learner id);; mret tt) stale_ids.

(** ** Tick *)

Definition expire_writes : handler unit :=
  n ← get;
  let expired := filter (λ p : N * WriteMetadata, wm_deadline p.2 <= now env)
                   (om_iter (pending_client_writes (state n))) in
  set_state (λ l, l <| pending_client_writes ::=
    filter (λ p : N * WriteMetadata, ¬ wm_deadline p.2 <= now env) |>);;
  for_each (λ p, reply_all (wm_senders p.2) (RStatus (DeadlineExceeded "write request timeout"))) expired.

Definition expire_reads : handler unit :=
  n ← get;
  let expired := filter (λ p : N * PendingReadBatch, prb_deadline p.2 <= now env)
                   (om_iter (pending_reads (state n))) in
  set_state (λ l, l <| pending_reads ::=
    filter (λ p : N * PendingReadBatch, ¬ prb_deadline p.2 <= now env) |>);;
  for_each (λ p, reply_all (prb_requests p.2).*2 (RStatus (DeadlineExceeded "read request timeout")))
    expired.

Definition expire_lease_reads : handler unit :=
  n ← get;
  let expired := filter (λ e, plr_deadline e <= now env) (pending_lease_reads (state n)) in
  set_state (λ l, l <| pending_lease_reads ::= filter (λ e, ¬ plr_deadline e <= now env) |>);;
  reply_all (plr_sender <$> expired) (RStatus (DeadlineExceeded "lease read timeout")).

Definition expire_commit_actions : handler unit :=
  n ← get;
  let expired := filter (λ p : N * PostCommitEntry, pce_deadline p.2 <= now env)
                   (om_iter (pending_commit_actions (state n))) in
  set_state (λ l, l <| pending_commit_actions ::=
    filter (λ p : N * PostCommitEntry, ¬ pce_deadline p.2 <= now env) |>);;
  for_each (λ p : N * PostCommitEntry,
      match pce_action p.2 with
      | LeaderNoop _ => mret tt
      | NodeJoin _ _ sender => reply sender (RStatus (DeadlineExceeded "join commit timeout"))
      end) expired;;
  if existsb (λ p : N * PostCommitEntry,
       match pce_action p.2 with LeaderNoop _ => true | _ => false end) expired
  then emit (BecomeFollower None) else mret tt.

Definition tick : handler unit :=
  n ← get;
  set_shared (set_current_leader (node_id (shared n)));;
  (match stale_check_deadline (state n) with
   | Some d => if d <=? now env then attempt check_and_purge_stale_front;; mret tt else mret tt
   | None => mret tt
   end);;
  n ← get;
  (if replication_deadline (state n) <=? now env
   then req ← take_proposals; send_heartbeat_or_batch env req
   else mret tt);;
  expire_writes;;
  expire_reads;;
  expire_lease_reads;;
  expire_commit_actions.

(** ** Inbound events *)

Definition receive_vote_request (req : VoteRequest) (sender : N) : handler unit :=
  n ← get;
  let my_term := current_term (hard_state (shared n)) in
  if my_term <? vr_term req then
    commit_hard_state env (Some (vr_term req)) None;;
    set_shared (λ s, s <| lease := ReadLease.revoke |>);;
    emit (BecomeFollower None);;
    emit (ReprocessEvent (ReceiveVoteRequest req sender))
  else
    let lid := default (mkLogId 0 0) (last_log_id (mem (raft_log n))) in
    reply sender (RVote (mkVoteResponse my_term false (lid_index lid) (lid_term lid))).

Definition receive_append_entries (req : AppendEntriesRequest) (senders : list N) : handler unit :=
  n ← get;
  let my_term := current_term (hard_state (shared n)) in
  if ar_term req <=? my_term
  then reply_all senders (RAppend (response_higher_term (node_id (shared n)) my_term))
  else
    set_shared (λ s, s <| lease := ReadLease.revoke |>);;
    emit (BecomeFollower (Some (ar_leader_id req)));;
    emit (ReprocessEvent (AppendEntries req senders)).

Definition receive_conf_update (req : ClusterConfChangeRequest) (sender : N) : handler unit :=
  n ← get;
  let my_term := current_term (hard_state (shared n)) in
  if ccr_term req <=? my_term
  then reply sender (RConfUpdate (conf_higher_term (node_id (shared n)) my_term
                                    (mv_conf_version (membership env))))
  else
    emit (BecomeFollower (Some (ccr_id req)));;
    emit (ReprocessEvent (ClusterConfUpdate req sender)).

(** A fatal error answers every waiting request and ends the node. *)
Definition fatal_error (source error : string) : handler unit :=
  n ← get;
  let l := state n in
  let st : Reply := RStatus (Internal ("Node fatal error: " +:+ error)) in
  reply_all (map_to_list (pending_write_apply l)).*2 st;;
  reply_all (linearizable_read_buffer l).*2 st;;
  for_each (λ p : N * PendingReadBatch, reply_all (prb_requests p.2).*2 st) (om_iter (pending_reads l));;
  reply_all (lease_read_queue l).*2 st;;
  reply_all (eventual_read_queue l).*2 st;;
  set_state (λ l, l <| pending_write_apply := ∅ |> <| linearizable_read_buffer := [] |>
                    <| pending_reads := ∅ |> <| lease_read_queue := [] |>
                    <| eventual_read_queue := [] |>);;
  fatal_inbound source error.

Definition handle_inbound_event (ev : InboundEvent) : handler unit :=
  n ← get;
  match ev with
  | ReceiveVoteRequest req sender => receive_vote_request req sender
  | ClusterConf sender =>
      let leader := match noop_log_id (state n) with
                    | Some _ => current_leader (shared n)
                    | None => None
                    end in
      reply sender (RConf (mv_config (membership env) leader))
  | ClusterConfUpdate req sender => receive_conf_update req sender
  | AppendEntries req senders => receive_append_entries req senders
  | InstallSnapshotChunk _ sender =>
      reply sender (RStatus (PermissionDenied "Not Follower or Learner. "));;
      fail (RoleViolation "Leader" "Follower or Learner")
  | JoinCluster req sender => handle_join_cluster req sender
  | DiscoverLeader sender =>
      match mv_node_meta (membership env) (node_id (shared n)) with
      | Some meta =>
          reply sender (RDiscover (mkLeaderDiscoveryResponse (node_id (shared n)) (nm_address meta)
                                     (current_term (hard_state (shared n)))))
      | None => panic
      end
  | InboundFatalError source error => fatal_error source error
  end.

End leader_events.
End LeaderEvents.
