(* ===== verification/RaftLoop.v ===== *)
(** * The raft loop

    [Raft] of [d-engine-core/src/raft.rs] with the dispatch of
    [d-engine-core/src/raft_role/mod.rs]: role transitions, internal events, merging of
    queued AppendEntries, draining of the channels, and one iteration of the loop. The
    internal event channel is the [events] queue of the node; what other tasks send on
    it is appended there between iterations. *)

From stdpp Require Import base tactics numbers option list sorting gmap strings.
From S2P Require Import Prelude Types Events ReadLease TermSegments BufferedLog Replication Election.
From S2P Require Import Proc Roles RoleState FollowerRoles LeaderState Leader LeaderEvents.

(** ** Roles *)

Inductive RaftRole :=
  | RFollower (s : FollowerState)
  | RCandidate (s : CandidateState)
  | RLeader (s : LeaderState)
  | RLearner (s : LearnerState).

(** The node with another role-specific state. *)
Definition retype {R R'} (s : R') (n : Node R) : Node R' :=
  mkNode (shared n) s (raft_log n) (saved n) (events n) (sent n).

Definition at_role {R A} (inj : R → RaftRole) (s : R) (p : proc (Node R) A)
    : proc (Node RaftRole) A := λ n,
  match p (retype s n) with
  | None => None
  | Some (n', r) => Some (retype (inj (state n')) n', r)
  end.

(** [self.state_mut().method(..)]. *)
Definition dispatch {A} (pf : proc (Node FollowerState) A) (pc : proc (Node CandidateState) A)
    (pl : proc (Node LeaderState) A) (pn : proc (Node LearnerState) A)
    : proc (Node RaftRole) A := λ n,
  match state n with
  | RFollower s => at_role RFollower s pf n
  | RCandidate s => at_role RCandidate s pc n
  | RLeader s => at_role RLeader s pl n
  | RLearner s => at_role RLearner s pn n
  end.

#[local] Abbreviation handler := (proc (Node RaftRole)).

Section transitions.
Context (env : Env).

Definition next_deadline (n : Node RaftRole) : N :=
  match state n with
  | RFollower s => f_timer s
  | RCandidate s => c_timer s
  | RLeader s => replication_deadline s
  | RLearner _ => now env + 86400000
  end.

Definition become_follower : handler unit := λ n,
  match state n with
  | RFollower _ => Some (n, Err InvalidTransition)
  | RCandidate c => Some (retype (RFollower (Follower.from_candidate env c)) n, Ok tt)
  | RLeader l =>
      Some (retype (RFollower (follower_from_leader (fresh_deadline env) l))
              (n <| shared ::= (λ s, s <| lease := ReadLease.revoke |>) |>), Ok tt)
  | RLearner l => Some (retype (RFollower (Follower.from_learner env l)) n, Ok tt)
  end.

Definition become_candidate : handler unit := λ n,
  match state n with
  | RFollower f => Some (retype (RCandidate (Candidate.from_follower env f)) n, Ok tt)
  | _ => Some (n, Err InvalidTransition)
  end.

Definition become_leader : handler unit := λ n,
  match state n with
  | RCandidate c =>
      Some (retype (RLeader (leader_from_candidate (now env)
                               (rpc_append_entries_clock_in_ms (config env)) c))
              (n <| shared ::= (λ s, set_current_leader (node_id s) s) |>), Ok tt)
  | _ => Some (n, Err InvalidTransition)
  end.

Definition become_learner : handler unit := λ n,
  match state n with
  | RFollower f => Some (retype (RLearner (Learner.from_follower f)) n, Ok tt)
  | RCandidate c => Some (retype (RLearner (Learner.from_candidate c)) n, Ok tt)
  | _ => Some (n, Err InvalidTransition)
  end.

(** Only a leader has requests to drain; elsewhere the error is ignored by the caller. *)
Definition drain_read_buffer : handler unit :=
  dispatch (fail NotLeaderError) (fail NotLeaderError) Leader.drain_read_buffer
    (fail NotLeaderError).

Definition role_tick : handler unit :=
  dispatch (Follower.tick env) (Candidate.tick env) (LeaderEvents.tick env) (mret tt).

Definition role_handle_inbound_event (ev : InboundEvent) : handler unit :=
  dispatch (Follower.handle_inbound_event env ev) (Candidate.handle_inbound_event env ev)
    (LeaderEvents.handle_inbound_event env ev) (Learner.handle_inbound_event env ev).

Definition role_push_client_cmd (cmd : ClientCmd) : handler unit :=
  dispatch (RoleState.push_client_cmd env cmd) (RoleState.push_client_cmd env cmd)
    (Leader.push_client_cmd env cmd) (RoleState.push_client_cmd env cmd).

Definition role_flush_cmd_buffers : handler unit :=
  dispatch (mret tt) (mret tt) (Leader.flush_cmd_buffers env) (mret tt).

(** [commit_hard_state] and [commit_vote_reset] at whatever role the node has. *)
Definition role_commit_hard_state (term : option N) (vote : option VotedFor) : handler bool :=
  dispatch (commit_hard_state env term vote) (commit_hard_state env term vote)
    (commit_hard_state env term vote) (commit_hard_state env term vote).

Definition role_commit_vote_reset : handler unit :=
  dispatch (commit_vote_reset env) (commit_vote_reset env) (commit_vote_reset env)
    (commit_vote_reset env).

Definition not_a_leader : error := RoleViolation "None Leader" "Leader".

Definition role_handle_membership_applied : handler unit :=
  dispatch (mret tt) (fail (RoleViolation "None Leader/Learner" "Leader/Learner"))
    (LeaderEvents.handle_membership_applied env) (Learner.handle_membership_applied env).

Definition role_handle_snapshot_created (r : result SnapshotMetadata) : handler unit :=
  dispatch (Follower.handle_snapshot_created env r)
    (fail (RoleViolation "Candidate" "Follower/Leader/Learner"))
    (LeaderEvents.handle_snapshot_created env r) (Learner.handle_snapshot_created env r).

End transitions.

(** ** The loop's state *)

Record Raft := mkRaft {
  node : Node RaftRole;
  event_rx : list InboundEvent;
  buffered_inbound_event : list InboundEvent;
  cmd_rx : list ClientCmd;
  buffered_internal_event : list InternalEvent;
  new_commit_listener : list NewCommitData;
  leader_change : option (N * N);
}.

#[global] Instance Raft_settable : Settable Raft := λ r,
  mkRaft (node r) (event_rx r) (buffered_inbound_event r) (cmd_rx r) (buffered_internal_event r)
    (new_commit_listener r) (leader_change r).

#[local] Abbreviation loop := (proc Raft).

(** Run a procedure of the node inside the loop. *)
Definition on_node {A} (p : proc (Node RaftRole) A) : loop A := λ r,
  match p (node r) with
  | None => None
  | Some (n, a) => Some (r <| node := n |>, a)
  end.

Definition notify_leader_change (leader_id : option N) (term : N) : loop unit :=
  modify (λ r, r <| leader_change := (λ id, (id, term)) <$> leader_id |>).

Definition notify_new_commit (d : NewCommitData) : loop unit :=
  modify (λ r, r <| new_commit_listener ::= (.++ [d]) |>).

Definition loop_term : loop N := gets (λ r, current_term (hard_state (shared (node r)))).

(** ** Merging queued AppendEntries *)

(** The requests of the queue that continue the first one: same term, and each starts
    where the previous ended, up to [max] entries. *)
Fixpoint absorb (max next_prev term : N) (merged : list Entry) (senders : list N) (commit : N)
    (q : list InboundEvent) : list Entry * list N * N * list InboundEvent :=
  match q with
  | AppendEntries req ss :: q' =>
      if (next_prev =? ar_prev_log_index req) && (term =? ar_term req) then
        if max <? N.of_nat (length merged + length (ar_entries req))
        then (merged, senders, commit, q)
        else absorb max (next_prev + N.of_nat (length (ar_entries req))) term
               (merged ++ ar_entries req) (senders ++ ss)
               (N.max commit (ar_leader_commit_index req)) q'
      else (merged, senders, commit, q)
  | _ => (merged, senders, commit, q)
  end.

Definition merge_append_entries (max : N) (q : list InboundEvent) : list InboundEvent :=
  match q with
  | AppendEntries first_req first_senders :: q' =>
      let '(merged, senders, commit, rest) :=
        absorb max (ar_prev_log_index first_req + N.of_nat (length (ar_entries first_req)))
          (ar_term first_req) (ar_entries first_req) first_senders
          (ar_leader_commit_index first_req) q' in
      AppendEntries (mkAppendEntriesRequest (ar_term first_req) (ar_leader_id first_req)
                       (ar_prev_log_index first_req) (ar_prev_log_term first_req) merged commit)
        senders :: rest
  | _ => q
  end.

(** ** Internal events *)

(** The drain of [NotifyNewCommitIndex]: the largest commit index among the leading
    notifications of the channel; the first other event goes to the back of it. *)
Fixpoint drain_commit_notifications (budget : nat) (d : NewCommitData) (q : list InternalEvent)
    : NewCommitData * list InternalEvent :=
  match budget with
  | O => (d, q)
  | S b =>
      match q with
      | NotifyNewCommitIndex next :: q' =>
          drain_commit_notifications b
            (if new_commit_index d <? new_commit_index next then next else d) q'
      | other :: q' => (d, q' ++ [other])
      | [] => (d, [])
      end
  end.

Section internal_events.
Context (env : Env).

Definition on_become_follower (leader_id : option N) : loop unit :=
  attempt (on_node drain_read_buffer);;
  on_node (become_follower env);;
  on_node (role_commit_vote_reset env);;
  t ← loop_term;
  notify_leader_change leader_id t.

Definition on_become_candidate : loop unit :=
  attempt (on_node drain_read_buffer);;
  on_node (become_candidate env);;
  t ← loop_term;
  notify_leader_change None t.

Definition on_become_leader : loop unit :=
  on_node (become_leader env);;
  r ← get;
  on_node (role_commit_hard_state env None
             (Some (mkVotedFor (node_id (shared (node r)))
                      (current_term (hard_state (shared (node r)))) true)));;
  on_node (dispatch (fail NotLeaderError) (fail NotLeaderError)
    (n ← get;
     set_state (init_peers_next_index_and_match_index (last_entry_id (mem (raft_log n)))
                  (mv_peer_ids (membership env)));;
     set_state (update_cluster_metadata (membership env))) (fail NotLeaderError));;
  res ← attempt (on_node (dispatch (mret tt) (mret tt) (Leader.initiate_noop_commit env) (mret tt)));
  match res with
  | Ok _ => mret tt
  | Err _ => modify (λ r, r <| node ::= (λ n, n <| events ::= (.++ [BecomeFollower None]) |>) |>)
  end.

Definition on_become_learner : loop unit :=
  attempt (on_node drain_read_buffer);;
  on_node (become_learner);;
  t ← loop_term;
  notify_leader_change None t.

Definition on_new_commit (d : NewCommitData) : loop unit :=
  r ← get;
  let '(d', q) := drain_commit_notifications (N.to_nat (max_batch_size (config env)) - 1) d
                    (events (node r)) in
  modify (λ r, r <| node ::= (λ n, n <| events := q |>) |>);;
  notify_new_commit d'.

(** A completed snapshot push on a leader: only of the attempt in flight. *)
Definition finish_snapshot_push (peer_id : N) (success : bool) (last_included_index : option N)
    : proc (Node LeaderState) unit :=
  n ← get;
  if negb (bool_decide (peer_state (state n) peer_id = Snapshot)) then mret tt
  else
    (match success, last_included_index with
     | true, Some i => set_state (init_peers_next_index_and_match_index i [peer_id])
     | _, _ => mret tt
     end);;
    set_state (handle_snapshot_push_completed peer_id success (config env) (now env)).

Definition on_snapshot_push_completed (peer_id : N) (success : bool) (term : N)
    (last_included_index : option N) : loop unit :=
  t ← loop_term;
  if negb (term =? t) then mret tt
  else on_node (dispatch (mret tt) (mret tt)
                  (finish_snapshot_push peer_id success last_included_index) (mret tt)).

(** Errors that only get logged unless they are fatal. *)
Definition unless_fatal (p : loop unit) : loop unit :=
  r ← attempt p;
  match r with
  | Ok _ => mret tt
  | Err e => if is_fatal e then fail e else mret tt
  end.

Definition handle_internal_event (ev : InternalEvent) : loop unit :=
  match ev with
  | BecomeFollower leader_id => on_become_follower leader_id
  | BecomeCandidate => on_become_candidate
  | BecomeLeader => on_become_leader
  | BecomeLearner => on_become_learner
  | NotifyNewCommitIndex d => on_new_commit d
  | LeaderDiscovered leader_id term => notify_leader_change (Some leader_id) term
  | ReprocessEvent e => modify (λ r, r <| buffered_inbound_event ::= (e ::.) |>)
  | LogFlushed durable =>
      on_node (dispatch (mret tt) (mret tt) (LeaderEvents.handle_log_flushed env durable) (mret tt))
  | AppendResult follower_id res =>
      attempt (on_node (dispatch (mret tt) (mret tt)
        (LeaderEvents.handle_append_result env follower_id res) (mret tt)));; mret tt
  | NoopCommitted term =>
      r ← get; notify_leader_change (Some (node_id (shared (node r)))) term
  | FatalError source => fail (Fatal source)
  | ApplyCompleted last_index results =>
      unless_fatal (on_node (dispatch (Follower.handle_apply_completed env last_index) (mret tt)
        (LeaderEvents.handle_apply_completed env last_index results)
        (Learner.handle_apply_completed env last_index)))
  | PeerStreamError peer_id =>
      on_node (dispatch (mret tt) (mret tt) (set_state (handle_peer_stream_error peer_id)) (mret tt))
  | ZombieDetected _ => mret tt
  | SnapshotPushCompleted peer_id success term last_included_index =>
      on_snapshot_push_completed peer_id success term last_included_index
  | CreateSnapshotEvent =>
      unless_fatal (on_node (dispatch (handle_create_snapshot env) (handle_create_snapshot env)
        (handle_create_snapshot env) (handle_create_snapshot env)))
  | SnapshotCreated res => unless_fatal (on_node (role_handle_snapshot_created env res))
  | StepDownSelfRemoved =>
      unless_fatal (on_node (dispatch (mret tt) (mret tt) LeaderEvents.handle_self_removed (mret tt)))
  | MembershipApplied => unless_fatal (on_node (role_handle_membership_applied env))
  | PromoteReadyLearners =>
      unless_fatal (on_node (dispatch (mret tt) (fail not_a_leader)
        (LeaderEvents.handle_promote_ready_learners env) (mret tt)))
  | LogPurgeCompleted id =>
      unless_fatal (on_node (dispatch (Follower.handle_log_purge_completed id)
        (fail (RoleViolation "non-Leader" "Leader")) (LeaderEvents.handle_log_purge_completed id)
        (Learner.handle_log_purge_completed id)))
  end.

End internal_events.

(** ** One iteration

    Every handler call has its own environment; [envs] supplies them in order. *)

Definition later (envs : nat → Env) (k : nat) : nat → Env := λ i, envs (i + k)%nat.

Definition process_internal_events_step (env : Env) (ev : InternalEvent) (q : list InternalEvent)
    : loop unit :=
  modify (λ r, r <| buffered_internal_event := q |>);;
  unless_fatal (handle_internal_event env ev).

Fixpoint process_internal_events (envs : nat → Env) (q : list InternalEvent) : loop unit :=
  match q with
  | [] => mret tt
  | ev :: q' => process_internal_events_step (envs 0%nat) ev q';;
                process_internal_events (later envs 1) q'
  end.

(** The buffer only shrinks while it is processed: its length is enough fuel. *)
Fixpoint process_inbound_events (fuel : nat) (envs : nat → Env) : loop unit :=
  match fuel with
  | O => mret tt
  | S k =>
      r ← get;
      match merge_append_entries (max_merge_entries (config (envs 0%nat))) (buffered_inbound_event r) with
      | [] => mret tt
      | ev :: q =>
          modify (λ r, r <| buffered_inbound_event := q |>);;
          unless_fatal (on_node (role_handle_inbound_event (envs 0%nat) ev));;
          process_inbound_events k (later envs 1)
      end
  end.

(** [drain_*]: up to [max] items of a channel. *)
Definition drain_internal_events (max : nat) : loop unit :=
  modify (λ r, r <| buffered_internal_event ::= (.++ take max (events (node r))) |>
                 <| node ::= (λ n, n <| events ::= drop max |>) |>).

Definition drain_inbound_events (max : nat) : loop unit :=
  modify (λ r, r <| buffered_inbound_event ::= (.++ take max (event_rx r)) |> <| event_rx ::= drop max |>).

Definition drain_client_cmds (max : nat) (envs : nat → Env) : loop unit :=
  r ← get;
  modify (λ r, r <| cmd_rx ::= drop max |>);;
  for_each (λ c, on_node (role_push_client_cmd (envs 0%nat) c)) (take max (cmd_rx r)).

Inductive Wake := WakeTick | WakeInternal | WakeCommand | WakeInbound.

(** The [select!] arm that fired, then the three processing passes. *)
Definition run_once (envs : nat → Env) (w : Wake) : loop unit :=
  let max := N.to_nat (max_batch_size (config (envs 0%nat))) in
  (match w with
   | WakeTick => attempt (on_node (role_tick (envs 0%nat)));; mret tt
   | WakeInternal => drain_internal_events (S max)
   | WakeCommand => drain_client_cmds (S max) envs
   | WakeInbound => drain_inbound_events (S max)
   end);;
  r ← get;
  let n1 := length (buffered_internal_event r) in
  process_internal_events (later envs 1) (buffered_internal_event r);;
  on_node (role_flush_cmd_buffers (envs (S n1)));;
  r ← get;
  process_inbound_events (length (buffered_inbound_event r)) (later envs (S (S n1))).
