(* ===== verification/ProcLogic.v ===== *)
(** * Frames of the handlers

    [same_hard_state] is the frame of everything that does not vote or change term:
    which handlers of the roles keep it, with the rules of [Proc]. *)

From stdpp Require Import base tactics numbers option list gmap strings.
From S2P Require Import Prelude Types Events ReadLease TermSegments BufferedLog Replication Election.
From S2P Require Import Proc Roles RoleState FollowerRoles LeaderState Leader LeaderEvents.
From S2P Require Import RaftLoop.

(** ** The hard state frame *)

Definition same_hard_state {R} (n n' : Node R) : Prop :=
  hard_state (shared n') = hard_state (shared n) ∧ saved n' = saved n
  ∧ node_id (shared n') = node_id (shared n).

#[global] Instance same_hard_state_preorder {R} : PreOrder (@same_hard_state R).
Proof.
  split; [intros n; by split_and!|]. intros n1 n2 n3 (?&?&?) (?&?&?). split_and!; congruence.
Qed.

#[global] Hint Extern 1 (same_hard_state _ _) => (split_and!; reflexivity) : keeps core.

Section frame.
Context {R : Type} `{!RaftRoleState R} (env : Env).

Lemma emit_frame ev : keeps same_hard_state (emit (R := R) ev).
Proof. apply keeps_modify. intros n. by split_and!. Qed.
Lemma reply_frame ch r : keeps same_hard_state (reply (R := R) ch r).
Proof. apply keeps_modify. intros n. by split_and!. Qed.
Lemma reply_all_frame chs r : keeps same_hard_state (reply_all (R := R) chs r).
Proof. apply keeps_modify. intros n. by split_and!. Qed.
Lemma set_state_frame f : keeps same_hard_state (set_state (R := R) f).
Proof. apply keeps_modify. intros n. by split_and!. Qed.
Lemma set_current_leader_frame id : keeps same_hard_state (set_shared (R := R) (set_current_leader id)).
Proof. apply keeps_modify. intros n. by split_and!. Qed.
Lemma set_lease_frame l :
  keeps same_hard_state (set_shared (R := R) (λ s, s <| lease := l |>)).
Proof. apply keeps_modify. intros n. by split_and!. Qed.
Lemma set_log_frame l : keeps same_hard_state (modify (S := Node R) (λ n, n <| raft_log := l |>)).
Proof. apply keeps_modify. intros n. by split_and!. Qed.

End frame.

#[global] Hint Resolve emit_frame reply_frame reply_all_frame set_state_frame
  set_current_leader_frame set_lease_frame set_log_frame : keeps.

Lemma send_become_follower_event_frame : keeps same_hard_state Candidate.send_become_follower_event.
Proof. apply emit_frame. Qed.
Lemma send_replay_inbound_event_frame ev :
  keeps same_hard_state (Candidate.send_replay_inbound_event ev).
Proof. apply emit_frame. Qed.
#[global] Hint Resolve send_become_follower_event_frame send_replay_inbound_event_frame : keeps.

(** Everything the leader does apart from adopting a higher term. *)
Section leader_frame.
Context (env : Env).

Lemma renew_lease_frame ts : keeps same_hard_state (Leader.renew_lease env ts).
Proof.
  intros n n' r. unfold Leader.renew_lease, update_lease_timestamp.
  destruct (ReadLease.renew _ _); [|done]. intros [= <- <-]. by split_and!.
Qed.
Hint Resolve renew_lease_frame : keeps.

Lemma execute_pending_reads_frame rs : keeps same_hard_state (Leader.execute_pending_reads env rs).
Proof. unfold Leader.execute_pending_reads. solve_keeps. Qed.
Hint Resolve execute_pending_reads_frame : keeps.

Lemma drain_pending_lease_reads_frame : keeps same_hard_state (Leader.drain_pending_lease_reads env).
Proof. unfold Leader.drain_pending_lease_reads. solve_keeps. Qed.
Hint Resolve drain_pending_lease_reads_frame : keeps.

Lemma serve_pending_reads_frame u : keeps same_hard_state (Leader.serve_pending_reads env u).
Proof. unfold Leader.serve_pending_reads. solve_keeps. Qed.
Hint Resolve serve_pending_reads_frame : keeps.

Lemma execute_frame ps w rs : keeps same_hard_state (Leader.execute_and_process_raft_rpc env ps w rs).
Proof.
  unfold Leader.execute_and_process_raft_rpc, Leader.reject_batch, Leader.register_writes,
    Leader.route_reads, Leader.dispatch_append, Leader.dispatch_snapshot.
  solve_keeps.
Qed.
Hint Resolve execute_frame : keeps.

Lemma process_batch_frame b : keeps same_hard_state (Leader.process_batch env b).
Proof. unfold Leader.process_batch. solve_keeps. Qed.
Hint Resolve process_batch_frame : keeps.

Lemma execute_request_immediately_frame r :
  keeps same_hard_state (Leader.execute_request_immediately env r).
Proof. apply process_batch_frame. Qed.
Hint Resolve execute_request_immediately_frame : keeps.

Lemma initiate_noop_commit_frame : keeps same_hard_state (Leader.initiate_noop_commit env).
Proof. unfold Leader.initiate_noop_commit. solve_keeps. Qed.
Hint Resolve initiate_noop_commit_frame : keeps.

Lemma take_proposals_frame : keeps same_hard_state Leader.take_proposals.
Proof. unfold Leader.take_proposals. solve_keeps. Qed.
Hint Resolve take_proposals_frame : keeps.

Lemma send_heartbeat_or_batch_frame r : keeps same_hard_state (Leader.send_heartbeat_or_batch env r).
Proof. unfold Leader.send_heartbeat_or_batch. solve_keeps. Qed.
Hint Resolve send_heartbeat_or_batch_frame : keeps.

Lemma process_lease_queue_frame q : keeps same_hard_state (Leader.process_lease_queue env q).
Proof.
  induction q as [|[req sender] q IH]; simpl; [solve_keeps|].
  apply keeps_bind; [apply _|solve_keeps|intros _]. apply keeps_bind; [apply _| |done].
  unfold Leader.process_lease_read. solve_keeps.
Qed.
Hint Resolve process_lease_queue_frame : keeps.

Lemma flush_cmd_buffers_frame : keeps same_hard_state (Leader.flush_cmd_buffers env).
Proof. unfold Leader.flush_cmd_buffers, Leader.unified_write_and_linear_read. solve_keeps. Qed.

Lemma push_client_cmd_frame c : keeps same_hard_state (Leader.push_client_cmd env c).
Proof. unfold Leader.push_client_cmd. solve_keeps. Qed.

Lemma drain_pending_writes_frame c : keeps same_hard_state (Leader.drain_pending_writes_with_error c).
Proof. unfold Leader.drain_pending_writes_with_error. solve_keeps. Qed.
Hint Resolve drain_pending_writes_frame : keeps.

Lemma drain_read_buffer_frame : keeps same_hard_state Leader.drain_read_buffer.
Proof. unfold Leader.drain_read_buffer. solve_keeps. Qed.

Lemma update_commit_index_leader_frame c :
  keeps same_hard_state (set_shared (R := LeaderState) (update_commit_index c)).
Proof.
  apply keeps_modify. intros n. unfold same_hard_state. simpl. by destruct (_ <? _).
Qed.
Hint Resolve update_commit_index_leader_frame : keeps.

Lemma advance_commit_frame c : keeps same_hard_state (LeaderEvents.advance_commit env c).
Proof.
  unfold LeaderEvents.advance_commit, update_commit_index_with_signal, my_term,
    Leader.drain_pending_client_writes, Leader.drain_commit_actions, Leader.fire_commit_action,
    Leader.on_noop_committed, Leader.send_join_success.
  solve_keeps.
Qed.
Hint Resolve advance_commit_frame : keeps.

Lemma new_commit_index_frame : keeps same_hard_state LeaderEvents.new_commit_index.
Proof.
  intros n n' r. unfold LeaderEvents.new_commit_index.
  destruct (calculate_new_commit_index _ _ _); [|done]. intros [= <- <-]. by split_and!.
Qed.
Hint Resolve new_commit_index_frame : keeps.

Lemma handle_log_flushed_frame d : keeps same_hard_state (LeaderEvents.handle_log_flushed env d).
Proof. unfold LeaderEvents.handle_log_flushed. solve_keeps. Qed.

Lemma voter_acknowledged_frame : keeps same_hard_state (LeaderEvents.voter_acknowledged env).
Proof. unfold LeaderEvents.voter_acknowledged. solve_keeps. Qed.
Hint Resolve voter_acknowledged_frame : keeps.

Lemma check_learner_progress_frame p :
  keeps same_hard_state (LeaderEvents.check_learner_progress env p).
Proof.
  unfold LeaderEvents.check_learner_progress, LeaderEvents.enqueue_and_notify_promotions.
  solve_keeps.
Qed.
Hint Resolve check_learner_progress_frame : keeps.

Lemma handle_apply_completed_frame i rs :
  keeps same_hard_state (LeaderEvents.handle_apply_completed env i rs).
Proof.
  unfold LeaderEvents.handle_apply_completed, check_and_trigger_snapshot, my_term. solve_keeps.
Qed.

Lemma leader_tick_frame : keeps same_hard_state (LeaderEvents.tick env).
Proof.
  unfold LeaderEvents.tick, LeaderEvents.check_and_purge_stale_front,
    LeaderEvents.handle_stale_learner, LeaderEvents.expire_writes, LeaderEvents.expire_reads,
    LeaderEvents.expire_lease_reads, LeaderEvents.expire_commit_actions.
  solve_keeps.
Qed.

Lemma handle_promote_ready_learners_frame :
  keeps same_hard_state (LeaderEvents.handle_promote_ready_learners env).
Proof.
  unfold LeaderEvents.handle_promote_ready_learners, LeaderEvents.safe_batch_promote. solve_keeps.
Qed.

Lemma handle_join_cluster_frame req ch :
  keeps same_hard_state (LeaderEvents.handle_join_cluster env req ch).
Proof. unfold LeaderEvents.handle_join_cluster. solve_keeps. Qed.

Lemma handle_membership_applied_frame :
  keeps same_hard_state (LeaderEvents.handle_membership_applied env).
Proof. unfold LeaderEvents.handle_membership_applied. solve_keeps. Qed.

Lemma fatal_error_frame a b : keeps same_hard_state (LeaderEvents.fatal_error a b).
Proof. unfold LeaderEvents.fatal_error, fatal_inbound. solve_keeps. Qed.

End leader_frame.

(** ** The other roles and the loop *)

Section role_frame.
Context {R : Type} `{!RaftRoleState R} (env : Env).

Lemma handle_create_snapshot_frame : keeps same_hard_state (handle_create_snapshot (R := R) env).
Proof. unfold handle_create_snapshot. solve_keeps. Qed.

Lemma check_and_trigger_snapshot_frame i role t :
  keeps same_hard_state (check_and_trigger_snapshot (R := R) env i role t).
Proof. unfold check_and_trigger_snapshot. solve_keeps. Qed.

Lemma schedule_and_execute_purge_frame id p :
  keeps same_hard_state (schedule_and_execute_purge (R := R) env id p).
Proof. unfold schedule_and_execute_purge, execute_pending_purge. solve_keeps. Qed.

Lemma handle_cluster_conf_update_frame req ch :
  keeps same_hard_state (handle_cluster_conf_update (R := R) env req ch).
Proof. unfold handle_cluster_conf_update. solve_keeps. Qed.

Lemma fatal_inbound_frame a b : keeps same_hard_state (fatal_inbound (R := R) a b).
Proof. unfold fatal_inbound. solve_keeps. Qed.

End role_frame.

#[global] Hint Resolve handle_create_snapshot_frame check_and_trigger_snapshot_frame
  schedule_and_execute_purge_frame handle_cluster_conf_update_frame fatal_inbound_frame : keeps.

Lemma at_role_frame {R A} (inj : R → RaftRole) s (p : proc (Node R) A) n n' r :
  keeps same_hard_state p → at_role inj s p n = Some (n', r) → same_hard_state n n'.
Proof.
  intros Hk. unfold at_role. destruct (p (retype s n)) as [[m a]|] eqn:E; [|done].
  intros [= <- <-]. by apply Hk in E.
Qed.

Lemma dispatch_frame {A} pf pc pl pn :
  keeps same_hard_state pf → keeps same_hard_state pc → keeps same_hard_state pl →
  keeps same_hard_state pn → keeps same_hard_state (dispatch (A := A) pf pc pl pn).
Proof.
  intros ? ? ? ? n n' r. unfold dispatch. destruct (state n); by apply at_role_frame.
Qed.

(** The frame of the loop: that of its node. *)
Definition same_loop_state (r r' : Raft) : Prop := same_hard_state (node r) (node r').

#[global] Instance same_loop_state_preorder : PreOrder same_loop_state.
Proof. unfold same_loop_state. split; [by intros r|]. intros r1 r2 r3 H1 H2. by etrans. Qed.

Lemma on_node_frame {A} (p : proc (Node RaftRole) A) :
  keeps same_hard_state p → keeps same_loop_state (on_node p).
Proof.
  intros Hk r r' a. unfold on_node. destruct (p (node r)) as [[n x]|] eqn:E; [|done].
  intros [= <- <-]. by apply Hk in E.
Qed.

Lemma role_tick_frame env n n' r :
  (∀ s, state n ≠ RCandidate s) → role_tick env n = Some (n', r) → same_hard_state n n'.
Proof.
  intros Hc. unfold role_tick, dispatch. destruct (state n) as [s|s|s|s]; [|by destruct (Hc s)|..].
  - apply at_role_frame. unfold Follower.tick. solve_keeps.
  - apply at_role_frame, leader_tick_frame.
  - apply at_role_frame. solve_keeps.
Qed.

(** Which internal events may change the hard state. *)
Definition touches_hard_state (ev : InternalEvent) : bool :=
  match ev with BecomeFollower _ | BecomeLeader | AppendResult _ _ => true | _ => false end.

Lemma keeps_unless_fatal (p : proc Raft unit) :
  keeps same_loop_state p → keeps same_loop_state (unless_fatal p).
Proof. intros H. unfold unless_fatal. solve_keeps. Qed.

Lemma set_loop_frame (f : Raft → Raft) :
  (∀ r, same_hard_state (node r) (node (f r))) → keeps same_loop_state (modify f).
Proof. intros H. by apply keeps_modify. Qed.

Lemma role_drain_frame : keeps same_hard_state drain_read_buffer.
Proof. apply dispatch_frame; try apply drain_read_buffer_frame; solve_keeps. Qed.

Lemma role_change_frame env :
  keeps same_hard_state (become_candidate env) ∧ keeps same_hard_state become_learner.
Proof.
  split; intros n n' r; [unfold become_candidate|unfold become_learner];
    destruct (state n); by intros [= <- <-].
Qed.

Lemma internal_event_frame env ev :
  touches_hard_state ev = false → keeps same_loop_state (handle_internal_event env ev).
Proof.
  pose proof (role_change_frame env) as (Hc & Hl). pose proof role_drain_frame as Hd.
  apply on_node_frame in Hc, Hl, Hd.
  destruct ev; simpl; intros Ht; try done.
  all: unfold on_become_candidate, on_become_learner, on_new_commit, on_snapshot_push_completed,
    notify_leader_change, notify_new_commit, loop_term.
  all: try (apply keeps_unless_fatal).
  all: try (apply on_node_frame, dispatch_frame).
  all: try (unfold Follower.handle_apply_completed, Learner.handle_apply_completed,
    Follower.handle_snapshot_created, Learner.handle_snapshot_created,
    LeaderEvents.handle_snapshot_created, Learner.handle_membership_applied,
    Follower.handle_log_purge_completed, Learner.handle_log_purge_completed,
    LeaderEvents.handle_log_purge_completed, LeaderEvents.handle_self_removed, my_term; solve_keeps; fail).
  - apply handle_log_flushed_frame.
  - apply keeps_bind; [apply _|solve_keeps|]. intros t. destruct (negb _); [solve_keeps|].
    apply on_node_frame, dispatch_frame; unfold finish_snapshot_push; solve_keeps.
  - apply handle_apply_completed_frame.
  - apply handle_membership_applied_frame.
  - apply handle_promote_ready_learners_frame.
Qed.

(** The inbound events that touch the hard state are those of elections and leaders. *)
Definition is_rpc_of_term (ev : InboundEvent) : bool :=
  match ev with
  | ReceiveVoteRequest _ _ | AppendEntries _ _ | InstallSnapshotChunk _ _ => true
  | _ => false
  end.

Lemma inbound_event_frame env ev :
  is_rpc_of_term ev = false → keeps same_hard_state (role_handle_inbound_event env ev).
Proof.
  pose proof (handle_join_cluster_frame env) as Hj. pose proof fatal_error_frame as Hf.
  intros Ht. apply dispatch_frame; destruct ev; try done;
    unfold Follower.handle_inbound_event, Candidate.handle_inbound_event,
      LeaderEvents.handle_inbound_event, Learner.handle_inbound_event,
      LeaderEvents.receive_conf_update, Follower.discover_leader; solve_keeps.
Qed.
