(* ===== verification/HardStateSpec.v ===== *)
(** * What the handlers do to the hard state

    For every handler that touches term or vote: the hard state it leaves, that the
    copy on disk follows it, and the votes it answers. The meta store is assumed to
    accept writes ([saves_ok]); the roles' other handlers are framed in [ProcLogic]. *)

From stdpp Require Import base tactics numbers option list gmap strings.
From S2P Require Import Prelude Types Events ReadLease TermSegments BufferedLog Replication Election.
From S2P Require Import Proc Roles RoleState FollowerRoles LeaderState Leader LeaderEvents.
From S2P Require Import RaftLoop ProcLogic.

(** No storage operation has failed, and the meta store accepts what it is given. *)
Definition saves_ok {R} (env : Env) (n : Node R) : Prop :=
  poisoned (raft_log n) = false ∧ ∀ h, save_reply env h = Ok tt.

(** The hard state in memory is the one a restart would load. *)
Definition persisted {R} (n : Node R) : Prop :=
  hard_state (shared n) = default (mkHardState 1 None) (saved n).

Definition next_hs (h : HardState) (term : option N) (vote : option VotedFor) : HardState :=
  mkHardState (default (current_term h) term) (match vote with Some v => Some v | None => voted_for h end).

(** From [n] to [n'] the hard state became [h], on disk as in memory. *)
Definition moves {R R'} (h : HardState) (n : Node R) (n' : Node R') : Prop :=
  hard_state (shared n') = h ∧ (persisted n → persisted n')
  ∧ node_id (shared n') = node_id (shared n).

Lemma moves_same {R} (n n' : Node R) : same_hard_state n n' → moves (hard_state (shared n)) n n'.
Proof. intros (Hh & Hs & Hi). split_and!; [done| |done]. unfold persisted. by rewrite Hh, Hs. Qed.

Lemma moves_then_same {R R'} h (n : Node R) (n1 n2 : Node R') :
  moves h n n1 → same_hard_state n1 n2 → moves h n n2.
Proof.
  intros (Hh & Hp & Hi) (Hh2 & Hs2 & Hi2). split_and!; [congruence| |congruence].
  intros Hn. specialize (Hp Hn). unfold persisted in *. by rewrite Hh2, Hs2.
Qed.

Lemma same_then_moves {R R'} h (n n1 : Node R) (n2 : Node R') :
  same_hard_state n n1 → moves h n1 n2 → moves h n n2.
Proof.
  intros (Hh & Hs & Hi) (Hh2 & Hp & Hi2). split_and!; [done| |congruence].
  intros Hn. apply Hp. unfold persisted in *. by rewrite Hh, Hs.
Qed.

Lemma moves_trans {R R' R''} h h' (n : Node R) (n1 : Node R') (n2 : Node R'') :
  moves h n n1 → moves h' n1 n2 → moves h' n n2.
Proof. intros (? & ? & ?) (? & ? & ?). split_and!; [done|auto|congruence]. Qed.

Section specs.
Context {R : Type} `{!RaftRoleState R} (env : Env).

Lemma set_hard_state_hs s term vote :
  hard_state (set_hard_state s term vote).1 = next_hs (hard_state s) term vote
  ∧ node_id (set_hard_state s term vote).1 = node_id s.
Proof.
  unfold set_hard_state, next_hs. destruct term as [t|]; simpl.
  - destruct (t =? current_term (hard_state s)) eqn:E; simpl.
    + apply N.eqb_eq in E as ->. by destruct vote.
    + by destruct vote.
  - by destruct vote.
Qed.

(** Without a change there is nothing to save. *)
Lemma set_hard_state_unchanged s term vote :
  changed (set_hard_state s term vote).2 = false → hard_state (set_hard_state s term vote).1 = hard_state s.
Proof.
  destruct s as [id [ct v] ci ld ls]. unfold set_hard_state. simpl.
  destruct term as [t|]; simpl; [destruct (N.eqb_spec t ct); simpl|];
    (destruct vote as [nv|]; simpl; [|done]).
  - case_bool_decide; simpl; [by subst|done].
  - by case_bool_decide.
  - case_bool_decide; simpl; [by subst|done].
Qed.

(** The log as it was, or poisoned by a failed write. *)
Definition log_or_poisoned (l l' : BufferedRaftLog) : Prop :=
  l' = l ∨ l' = mark_poisoned_and_notify l.

(** Committing a hard state touches nothing else, but a failed write poisons the log. *)
Lemma commit_hard_state_frame term vote (n n' : Node R) r :
  commit_hard_state env term vote n = Some (n', r) →
  state n' = state n ∧ log_or_poisoned (raft_log n) (raft_log n') ∧ sent n' = sent n
  ∧ commit_index (shared n') = commit_index (shared n) ∧ events n' = events n
  ∧ lease (shared n') = lease (shared n).
Proof.
  unfold commit_hard_state, log_or_poisoned.
  destruct (bool_decide (term = None) && bool_decide (vote = None)).
  { intros [= <- <-]. by split_and!; auto. }
  unfold get, mbind, proc_bind, set_hard_state.
  destruct term as [t|]; [destruct (negb (t =? _))|]; destruct vote as [v|]; simpl;
    unfold mret, proc_ret, save_hard_state; try (destruct (negb _)); simpl;
    try (destruct (poisoned _)); try (destruct (save_reply _ _)); intros [= <- <-];
    split_and!; auto.
Qed.

(** Whatever the meta store answers: a successful commit is on disk as in memory, a
    failed one comes from a failed write, this one or one before it. *)
Lemma commit_hard_state_cases term vote (n n' : Node R) r :
  commit_hard_state env term vote n = Some (n', r) →
  match r with
  | Ok _ => moves (next_hs (hard_state (shared n)) term vote) n n'
  | Err e => ¬ saves_ok env n ∧ poisoned (raft_log n') = true
  end
  ∧ sent n' = sent n ∧ events n' = events n ∧ state n' = state n
  ∧ (saves_ok env n → raft_log n' = raft_log n).
Proof.
  unfold commit_hard_state.
  destruct (bool_decide (term = None) && bool_decide (vote = None)) eqn:Hnone.
  { apply andb_prop in Hnone as [->%bool_decide_eq_true ->%bool_decide_eq_true].
    intros [= <- <-]. split_and!; [|done..].
    unfold next_hs. simpl. split_and!; [by destruct (hard_state (shared n))|done..]. }
  pose proof (set_hard_state_hs (shared n) term vote) as [Hh Hi].
  pose proof (set_hard_state_unchanged (shared n) term vote) as Hu.
  unfold get, mbind, proc_bind. destruct (set_hard_state (shared n) term vote) as [s r0]. simpl in *.
  destruct (changed r0) eqn:Hc; unfold save_hard_state, mret, proc_ret; simpl.
  - destruct (poisoned (raft_log n)) eqn:Hp.
    { intros [= <- <-]. split_and!; [|exact Hp|done..]. intros [Hq _]. by rewrite Hp in Hq. }
    destruct (save_reply env (hard_state s)) as [[]|e] eqn:Hs; intros [= <- <-].
    + split_and!; [|done..]. by split_and!.
    + assert (¬ saves_ok env n) by (intros [_ Hq]; by rewrite Hq in Hs). by split_and!.
  - intros [= <- <-]. split_and!; [|done..]. split_and!; try done.
    unfold persisted. simpl. by rewrite Hu.
Qed.

Lemma commit_hard_state_spec term vote (n n' : Node R) r :
  saves_ok env n → commit_hard_state env term vote n = Some (n', r) →
  (∃ b, r = Ok b) ∧ moves (next_hs (hard_state (shared n)) term vote) n n'
  ∧ sent n' = sent n ∧ events n' = events n ∧ state n' = state n ∧ raft_log n' = raft_log n.
Proof.
  intros Hok H. apply commit_hard_state_cases in H as [Hr ?]. destruct r as [b|e]; [|by destruct Hr].
  split_and!; [by eexists|done|tauto..].
Qed.

Lemma commit_vote_reset_spec (n n' : Node R) r :
  saves_ok env n → commit_vote_reset env n = Some (n', r) →
  r = Ok tt ∧ moves (mkHardState (current_term (hard_state (shared n))) None) n n'.
Proof.
  intros [Hp Hok]. unfold commit_vote_reset, save_hard_state, mbind, proc_bind. simpl.
  rewrite Hp, Hok. intros [= <- <-]. split; [done|]. by split_and!.
Qed.

Lemma check_incoming_term_spec my t :
  match check_incoming_term my t with
  | RejectStale => t < my
  | Accept => t = my
  | AcceptAndUpdateTerm t' => my < t ∧ t' = t
  end.
Proof. unfold check_incoming_term. destruct (N.compare_spec t my); [done|lia|]. split; [lia|done]. Qed.

(** The hard state once [l] is followed in term [t]. *)
Definition following (l t : N) : HardState := mkHardState t (Some (mkVotedFor l t true)).

Context (Hci : ∀ c, keeps same_hard_state (set_shared (R := R) (update_commit_index c))).

Lemma append_entries_accepted_frame req senders ss li :
  keeps same_hard_state (append_entries_accepted (R := R) env req senders ss li).
Proof. unfold append_entries_accepted, my_term, update_commit_index_with_signal. solve_keeps. Qed.

Lemma append_entries_from_leader_spec req senders ss li tu (n n' : Node R) r :
  saves_ok env n → default (current_term (hard_state (shared n))) tu = ar_term req →
  append_entries_from_leader env req senders ss li tu n = Some (n', r) →
  moves (following (ar_leader_id req) (ar_term req)) n n'.
Proof.
  intros Hok Htu H. apply bind_inv in H as (n1 & r1 & [= <- <-] & H).
  apply bind_inv in H as (n2 & r2 & Hc & H).
  apply commit_hard_state_spec in Hc as ([b ->] & Hm & _); [|done].
  unfold next_hs in Hm. simpl in Hm. rewrite Htu in Hm.
  eapply moves_then_same; [exact Hm|]. revert H. apply (keeps_bind _).
  - apply set_current_leader_frame.
  - pose proof (append_entries_accepted_frame req senders ss li). solve_keeps.
Qed.

(** An accepted AppendEntries makes the sender the leader of its term; a stale one
    changes nothing. *)
Lemma append_entries_workflow_spec req senders ss (n n' : Node R) r :
  saves_ok env n → handle_append_entries_request_workflow env req senders ss n = Some (n', r) →
  moves (if ar_term req <? current_term (hard_state (shared n)) then hard_state (shared n)
         else following (ar_leader_id req) (ar_term req)) n n'.
Proof.
  intros Hok H. apply bind_inv in H as (n1 & r1 & [= <- <-] & H). revert H. cbv zeta.
  pose proof (check_incoming_term_spec (current_term (hard_state (shared n))) (ar_term req)) as Hd.
  destruct (check_incoming_term _ _); case_bool; try lia; intros H'.
  - apply moves_same. revert H'. apply reply_all_frame.
  - eapply append_entries_from_leader_spec; [done| |exact H']. by simpl.
  - destruct Hd as [_ ->]. by eapply append_entries_from_leader_spec; [| |exact H'].
Qed.

Lemma snapshot_accepted_frame stream ch ss t :
  keeps same_hard_state (snapshot_accepted (R := R) env stream ch ss t).
Proof.
  unfold snapshot_accepted, snapshot_installed, schedule_installed_snapshot_purge,
    execute_pending_purge, update_commit_index_with_signal.
  solve_keeps.
Qed.

Lemma snapshot_from_leader_spec stream c ch ss t tu (n n' : Node R) r :
  saves_ok env n → default (current_term (hard_state (shared n))) tu = sc_leader_term c →
  snapshot_from_leader env stream c ch ss t tu n = Some (n', r) →
  moves (following (sc_leader_id c) (sc_leader_term c)) n n'.
Proof.
  intros Hok Htu H. apply bind_inv in H as (n1 & r1 & [= <- <-] & H).
  apply bind_inv in H as (n2 & r2 & Hc & H).
  apply commit_hard_state_spec in Hc as ([b ->] & Hm & _); [|done].
  unfold next_hs in Hm. simpl in Hm. rewrite Htu in Hm.
  eapply moves_then_same; [exact Hm|]. revert H. apply (keeps_bind _).
  - apply set_current_leader_frame.
  - intros ?. apply snapshot_accepted_frame.
Qed.

(** The first chunk of a snapshot is treated as an AppendEntries of its leader. *)
Lemma install_snapshot_workflow_spec stream ch ss (n n' : Node R) r :
  saves_ok env n → handle_install_snapshot_chunk_workflow env stream ch ss n = Some (n', r) →
  moves (match stream with
         | [] => hard_state (shared n)
         | c :: _ => if sc_leader_term c <? current_term (hard_state (shared n))
                     then hard_state (shared n)
                     else following (sc_leader_id c) (sc_leader_term c)
         end) n n'.
Proof.
  intros Hok H. apply bind_inv in H as (n1 & r1 & [= <- <-] & H). revert H. cbv zeta.
  destruct stream as [|c cs]; [intros H; apply moves_same; revert H; apply reply_frame|].
  pose proof (check_incoming_term_spec (current_term (hard_state (shared n))) (sc_leader_term c)) as Hd.
  destruct (check_incoming_term _ _); case_bool; try lia; intros H'.
  - apply moves_same. revert H'. apply reply_frame.
  - eapply snapshot_from_leader_spec; [done| |exact H']. by simpl.
  - destruct Hd as [_ ->]. by eapply snapshot_from_leader_spec; [| |exact H'].
Qed.

End specs.

(** ** Voting *)

(** A run that at most raises the term. *)
Definition raises {R} (n n' : Node R) : Prop :=
  ∃ t, current_term (hard_state (shared n)) <= t
       ∧ moves (mkHardState t (voted_for (hard_state (shared n)))) n n'.

Lemma raises_same {R} (n n' : Node R) : same_hard_state n n' → raises n n'.
Proof.
  intros H. exists (current_term (hard_state (shared n))). split; [done|].
  apply moves_same in H. by destruct (hard_state (shared n)).
Qed.

Lemma raises_then_same {R} (n n1 n2 : Node R) : raises n n1 → same_hard_state n1 n2 → raises n n2.
Proof. intros (t & ? & ?) ?. exists t. split; [done|]. by eapply moves_then_same. Qed.

Lemma commit_term_raises {R} `{!RaftRoleState R} env t (n n' : Node R) r :
  saves_ok env n → current_term (hard_state (shared n)) <= t →
  commit_hard_state env (Some t) None n = Some (n', r) → (∃ b, r = Ok b) ∧ raises n n'.
Proof.
  intros Hok Hle H. apply commit_hard_state_spec in H as (Hr & Hm & _); [|done].
  split; [done|]. by exists t.
Qed.

(** Commit a term, then do things that leave the hard state alone. *)
Lemma commit_term_then {R} `{!RaftRoleState R} {B} env t
    (k : bool → proc (Node R) B) (n n' : Node R) r :
  saves_ok env n → current_term (hard_state (shared n)) <= t → (∀ b, keeps same_hard_state (k b)) →
  (commit_hard_state env (Some t) None ≫= k) n = Some (n', r) → raises n n'.
Proof.
  intros Hok Hle Hk H. apply bind_inv in H as (n1 & r1 & Hc & H).
  apply commit_term_raises in Hc as [[b ->] Hr]; [|done..].
  eapply raises_then_same; [done|]. by eapply Hk.
Qed.

Section voting.
Context (env : Env).

Lemma follower_vote_spec req ch (n n' : Node FollowerState) r :
  let su := handle_vote_request req (current_term (hard_state (shared n)))
              (voted_for (hard_state (shared n))) (last_log_id (mem (raft_log n))) in
  saves_ok env n → Follower.receive_vote_request env req ch n = Some (n', r) →
  moves (next_hs (hard_state (shared n)) (term_update su) (new_voted_for su)) n n'
  ∧ ∃ i t, sent n' = sent n ++ [(ch, RVote (mkVoteResponse (current_term (hard_state (shared n)))
                                              (bool_decide (is_Some (new_voted_for su))) i t))].
Proof.
  intros su Hok H. apply bind_inv in H as (n0 & r0 & [= <- <-] & H). cbv zeta in H. fold su in H.
  apply bind_inv in H as (n1 & r1 & H1 & H).
  assert (same_hard_state n n1 ∧ sent n1 = sent n ∧ saves_ok env n1 ∧ r1 = Ok tt)
    as (Hsame & Hs1 & Hok1 & ->).
  { destruct (bool_decide _); by injection H1 as <- <-. }
  apply bind_inv in H as (n2 & r2 & Hc & H).
  apply commit_hard_state_spec in Hc as ([b ->] & Hm & Hs2 & _); [|done].
  injection H as <- <-. destruct Hsame as (Hh & Hsv & Hi). rewrite Hh in Hm. split.
  - eapply same_then_moves; [by split_and!|]. eapply moves_then_same; [exact Hm|by split_and!].
  - eexists _, _. simpl. by rewrite Hs2, Hs1.
Qed.

(** What a granted or refused request means for the hard state. *)
Lemma handle_vote_request_cases req h last :
  let su := handle_vote_request req (current_term h) (voted_for h) last in
  let h' := next_hs h (term_update su) (new_voted_for su) in
  if bool_decide (is_Some (new_voted_for su))
  then h' = mkHardState (vr_term req) (Some (mkVotedFor (vr_candidate_id req) (vr_term req) false))
       ∧ (current_term h < vr_term req
          ∨ (current_term h = vr_term req
             ∧ match voted_for h with
               | None => True
               | Some vf => voted_for_id vf = vr_candidate_id req ∧ voted_for_term vf = vr_term req
               end))
  else ∃ t, current_term h <= t ∧ h' = mkHardState t (voted_for h).
Proof.
  unfold handle_vote_request. case_bool; try lia; simpl;
    try (destruct (negb (is_target_log_more_recent _ _ _ _)); simpl).
  - exists (vr_term req). split; [lia|done].
  - split; [done|by left].
  - by exists (current_term h).
  - by exists (current_term h).
  - destruct (voted_for h) as [vf|] eqn:Hv; simpl; unfold next_hs; simpl.
    + destruct (N.eqb_spec (voted_for_term vf) (vr_term req)); simpl;
        [destruct (N.eqb_spec (voted_for_id vf) (vr_candidate_id req)); simpl|].
      * assert (current_term h = vr_term req) as -> by lia. auto.
      * exists (current_term h). by rewrite Hv.
      * exists (current_term h). by rewrite Hv.
    + assert (current_term h = vr_term req) as -> by lia. auto.
Qed.

Lemma check_vote_request_is_legal_term req t i lt vf :
  check_vote_request_is_legal req t i lt vf = true → t <= vr_term req.
Proof. unfold check_vote_request_is_legal. case_bool; [done|lia]. Qed.

Lemma candidate_vote_spec req ch (n n' : Node CandidateState) r :
  saves_ok env n → Candidate.receive_vote_request env req ch n = Some (n', r) →
  raises n n'
  ∧ (sent n' = sent n ∨ ∃ t i lt, sent n' = sent n ++ [(ch, RVote (mkVoteResponse t false i lt))]).
Proof.
  intros Hok H. apply bind_inv in H as (n0 & r0 & [= <- <-] & H). revert H. cbv zeta.
  destruct (check_vote_request_is_legal _ _ _ _ _) eqn:Hl.
  - apply check_vote_request_is_legal_term in Hl. intros H.
    split; [eapply commit_term_then; [..|exact H]; [done|done|solve_keeps]|left].
    apply bind_inv in H as (n1 & r1 & Hc & H).
    apply commit_hard_state_spec in Hc as ([b ->] & _ & Hs & _); [|done].
    injection H as <- <-. by simpl.
  - intros [= <- <-]. split; [by apply raises_same|right]. by eexists _, _, _.
Qed.

Lemma leader_vote_spec req ch (n n' : Node LeaderState) r :
  saves_ok env n → LeaderEvents.receive_vote_request env req ch n = Some (n', r) →
  raises n n'
  ∧ (sent n' = sent n ∨ ∃ t i lt, sent n' = sent n ++ [(ch, RVote (mkVoteResponse t false i lt))]).
Proof.
  intros Hok H. apply bind_inv in H as (n0 & r0 & [= <- <-] & H). revert H. cbv zeta. case_bool.
  - intros H'. split; [eapply commit_term_then; [..|exact H']; [done|lia|solve_keeps]|left].
    apply bind_inv in H' as (n1 & r1 & Hc & H').
    apply commit_hard_state_spec in Hc as ([b ->] & _ & Hs & _); [|done].
    injection H' as <- <-. by simpl.
  - intros [= <- <-]. split; [by apply raises_same|right]. by eexists _, _, _.
Qed.

Lemma learner_vote_spec req ch (n n' : Node LearnerState) r :
  saves_ok env n → Learner.receive_vote_request env req ch n = Some (n', r) →
  raises n n'
  ∧ (sent n' = sent n ∨ ∃ t i lt, sent n' = sent n ++ [(ch, RVote (mkVoteResponse t false i lt))]).
Proof.
  intros Hok H. apply bind_inv in H as (n0 & r0 & [= <- <-] & H). revert H. cbv zeta. case_bool.
  - intros H'. apply bind_inv in H' as (n1 & r1 & Hc & H'). apply bind_inv in Hc as (n2 & r2 & Hc & Hc').
    pose proof (commit_hard_state_spec _ _ _ _ _ _ Hok Hc) as (_ & _ & Hs & _).
    apply commit_term_raises in Hc as [[b ->] Hr]; [|done|lia]. injection Hc' as <- <-.
    injection H' as <- <-. split; [by eapply raises_then_same; [exact Hr|split_and!]|right].
    simpl. rewrite Hs. by eexists _, _, _.
  - intros [= <- <-]. split; [by apply raises_same|right]. by eexists _, _, _.
Qed.

Lemma step_down_for_term_spec t (n n' : Node LeaderState) r :
  saves_ok env n → current_term (hard_state (shared n)) <= t →
  LeaderEvents.step_down_for_term env t n = Some (n', r) → raises n n'.
Proof.
  intros Hok Hle H. eapply commit_term_then; [..|exact H]; [done..|].
  pose proof drain_pending_writes_frame. solve_keeps.
Qed.

Lemma handle_append_result_spec id res (n n' : Node LeaderState) r :
  saves_ok env n → LeaderEvents.handle_append_result env id res n = Some (n', r) → raises n n'.
Proof.
  intros Hok H. apply bind_inv in H as (n0 & r0 & [= <- <-] & H). revert H. cbv zeta.
  destruct res as [response|e]; [|by intros [= <- <-]; apply raises_same].
  case_bool; try lia.
  - by intros [= <- <-]; apply raises_same.
  - apply step_down_for_term_spec; [done|lia].
  - unfold LeaderEvents.interpret_response.
    destruct (resp_result response) as [[s|c|t]|]; simpl.
    + destruct (handle_success_response _ _ _); [|by intros [= <- <-]; apply raises_same].
      intros H'. apply raises_same. revert H'.
      pose proof (voter_acknowledged_frame env). pose proof (check_learner_progress_frame env).
      apply (keeps_bind _); solve_keeps.
    + intros H'. apply raises_same. revert H'.
      pose proof (voter_acknowledged_frame env). pose proof (check_learner_progress_frame env).
      apply (keeps_bind _); solve_keeps.
    + case_bool; [apply step_down_for_term_spec; [done|lia]|by intros [= <- <-]; apply raises_same].
    + by intros [= <- <-]; apply raises_same.
Qed.

(** ** A round *)

(** The answers a round counts. *)
Fixpoint yes_votes (rs : list (option VoteResponse)) : nat :=
  match rs with
  | [] => 0
  | Some r :: rs' => if vresp_vote_granted r then S (yes_votes rs') else yes_votes rs'
  | None :: rs' => yes_votes rs'
  end.

Lemma count_votes_ok term i t k rs m :
  count_votes term i t k rs = Ok m → m = k + N.of_nat (yes_votes rs).
Proof.
  revert k. induction rs as [|[r|] rs IH]; intros k; simpl; [intros [= <-]; lia| |by apply IH].
  destruct (vresp_vote_granted r); [intros H; apply IH in H; lia|].
  destruct (if_higher_term_found _ _ _); [done|].
  destruct (is_target_log_more_recent _ _ _ _); [done|apply IH].
Qed.

Lemma count_votes_higher term i t k rs h : count_votes term i t k rs = Err (HigherTerm h) → term < h.
Proof.
  revert k. induction rs as [|[r|] rs IH]; intros k; simpl; [done| |apply IH].
  destruct (vresp_vote_granted r); [apply IH|].
  destruct (if_higher_term_found _ _ _) eqn:E.
  - intros [= <-]. unfold if_higher_term_found in E. simpl in E. by apply N.ltb_lt.
  - destruct (is_target_log_more_recent _ _ _ _); [done|apply IH].
Qed.

Lemma broadcast_higher id term single ms last rs h :
  broadcast_vote_requests id term single ms last rs = Err (HigherTerm h) → term < h.
Proof.
  unfold broadcast_vote_requests. destruct single; [done|]. destruct ms as [|x ms]; [done|]. cbv zeta.
  destruct (count_votes _ _ _ _ _) as [k|e] eqn:Hc.
  - destruct (negb _ && _); done.
  - intros [= ->]. by eapply count_votes_higher.
Qed.

(** The round the candidate runs at a tick. *)
Definition round_result (n : Node CandidateState) : result unit :=
  broadcast_vote_requests (node_id (shared n)) (current_term (hard_state (shared n)) + 1)
    (mv_single_node (membership env)) (mv_voters (membership env))
    (last_log_id (mem (raft_log n))) (vote_responses env).

(** The candidate's vote for itself in the next term. *)
Definition own_vote (n : Node CandidateState) (t : N) : HardState :=
  mkHardState t (Some (mkVotedFor (node_id (shared n))
                         (current_term (hard_state (shared n)) + 1) false)).

Lemma candidate_tick_spec (n n' : Node CandidateState) r :
  saves_ok env n → Candidate.tick env n = Some (n', r) →
  (n' = n ∧ now env < c_timer (state n))
  ∨ (c_timer (state n) <= now env
     ∧ match round_result n with
       | Ok _ => moves (own_vote n (current_term (hard_state (shared n)) + 1)) n n'
                 ∧ events n' = events n ++ [BecomeLeader] ∧ r = Ok tt
       | Err (HigherTerm h) => moves (own_vote n h) n n' ∧ events n' = events n ++ [BecomeFollower None]
       | Err _ => moves (own_vote n (current_term (hard_state (shared n)) + 1)) n n'
                  ∧ events n' = events n
       end).
Proof.
  intros Hok H. apply bind_inv in H as (n0 & r0 & [= <- <-] & H). revert H. cbv zeta. case_bool.
  { intros [= <- <-]. by left. }
  intros H'. right. split; [done|].
  apply bind_inv in H' as (n1 & r1 & [= <- <-] & H').
  apply bind_inv in H' as (n2 & r2 & Hc & H').
  apply commit_hard_state_spec in Hc as ([b ->] & Hm & Hs & He & _ & Hl); [|done].
  apply bind_inv in H' as (n3 & r3 & [= <- <-] & H').
  assert (moves (own_vote n (current_term (hard_state (shared n)) + 1)) n n2) as Hm'
    by (eapply same_then_moves; [|exact Hm]; by split_and!).
  assert (current_term (hard_state (shared n2)) = current_term (hard_state (shared n)) + 1) as Ht
    by (destruct Hm as [-> _]; done).
  rewrite Ht in H'. fold (round_result n) in H'. simpl in He.
  destruct (round_result n) as [u|e].
  - injection H' as <- <-. split_and!; [|simpl; by rewrite He|done].
    eapply moves_then_same; [exact Hm'|by split_and!].
  - destruct e; try (injection H' as <- <-; split; [exact Hm'|done]).
    apply bind_inv in H' as (n4 & r4 & Hc & H').
    apply commit_hard_state_spec in Hc as ([b' ->] & Hm2 & _ & He2 & _); [|unfold saves_ok; by rewrite Hl].
    injection H' as <- <-. split; [|simpl; by rewrite He2, He].
    eapply moves_then_same; [eapply moves_trans; [exact Hm'|]|by split_and!].
    destruct Hm' as [Hh _]. rewrite Hh in Hm2. exact Hm2.
Qed.

(** A candidate that meets a leader of its term or a later one adopts the term and
    queues its step-down; a stale request is refused. *)
Lemma candidate_append_spec req senders (n n' : Node CandidateState) r :
  saves_ok env n → Candidate.receive_append_entries env req senders n = Some (n', r) → raises n n'.
Proof.
  intros Hok H. apply bind_inv in H as (n0 & r0 & [= <- <-] & H). revert H. cbv zeta.
  case_bool; try lia; intros H'.
  - apply bind_inv in H' as (n1 & r1 & [= <- <-] & H').
    apply bind_inv in H' as (n2 & r2 & [= <- <-] & H').
    apply bind_inv in H' as (n3 & r3 & Hc & H').
    apply bind_inv in Hc as (n4 & r4 & Hc & Hc').
    apply commit_hard_state_spec in Hc as ([b ->] & Hm & _); [|done].
    injection Hc' as <- <-. injection H' as <- <-.
    exists (ar_term req). split; [lia|].
    eapply moves_then_same; [eapply same_then_moves; [|exact Hm]; by split_and!|by split_and!].
  - apply bind_inv in H' as (n1 & r1 & [= <- <-] & H').
    apply bind_inv in H' as (n2 & r2 & [= <- <-] & H').
    apply bind_inv in H' as (n3 & r3 & [= <- <-] & H'). injection H' as <- <-.
    by apply raises_same.
  - destruct (check_append_entries_request_is_legal _ _ _ _); [|done].
    apply raises_same. revert H'. apply reply_all_frame.
Qed.

End voting.
