(* ===== verification/ElectionSpec.v ===== *)
(** * Election: the protocol

    What the hard states of a fixed set of voters may do, independently of the code:
    grant a vote, learn of a higher term, clear a vote, follow an elected leader, lose or
    win a round, take up the leadership of a term that was won. A voter that clears a vote
    it has given is noted in [cleared] and grants no other vote in that term. Election
    safety, at most one leader per term, is proved here for every sequence of such steps;
    [ElectionSafety] shows that the handlers of the roles take these steps. *)

From stdpp Require Import base tactics numbers option list gmap functions.
From S2P Require Import Prelude Types Election Proc Roles.

Record Elect := mkElect {
  hs : N → HardState;
  granted : gset (N * N * N);
  winners : gset (N * N);
  leaders : gset (N * N);
  cleared : gset (N * N);
  first_vote : gmap (N * N) N;
}.

(** The voter's rule. *)
Definition may_grant (h : HardState) (c T : N) : Prop :=
  current_term h < T
  ∨ (current_term h = T
     ∧ match voted_for h with
       | None => True
       | Some vf => voted_for_id vf = c ∧ voted_for_term vf = T
       end).

(** Record the first vote of a voter in a term. *)
Definition note_first (v T c : N) (f : gmap (N * N) N) : gmap (N * N) N :=
  match f !! (v, T) with Some _ => f | None => <[(v, T) := c]> f end.

Section spec.
Context (V : list N).

Inductive estep (s : Elect) : Elect → Prop :=
  | e_grant v c T :
      c ≠ v → may_grant (hs s v) c T → (v, T) ∉ cleared s →
      estep s (mkElect (<[v := mkHardState T (Some (mkVotedFor c T false))]> (hs s))
                 ({[(v, T, c)]} ∪ granted s) (winners s) (leaders s) (cleared s)
                 (note_first v T c (first_vote s)))
  | e_term v T :
      current_term (hs s v) <= T →
      estep s (mkElect (<[v := mkHardState T (voted_for (hs s v))]> (hs s))
                 (granted s) (winners s) (leaders s) (cleared s) (first_vote s))
  | e_clear v :
      first_vote s !! (v, current_term (hs s v)) = None →
      estep s (mkElect (<[v := mkHardState (current_term (hs s v)) None]> (hs s))
                 (granted s) (winners s) (leaders s) (cleared s) (first_vote s))
  | e_forget v :
      estep s (mkElect (<[v := mkHardState (current_term (hs s v)) None]> (hs s))
                 (granted s) (winners s) (leaders s)
                 ({[(v, current_term (hs s v))]} ∪ cleared s) (first_vote s))
  | e_follow v l T :
      (l, T) ∈ leaders s → current_term (hs s v) <= T →
      estep s (mkElect (<[v := mkHardState T (Some (mkVotedFor l T true))]> (hs s))
                 (granted s) (winners s) (leaders s) (cleared s) (first_vote s))
  | e_lose v :
      let T := current_term (hs s v) + 1 in
      estep s (mkElect (<[v := mkHardState T (Some (mkVotedFor v T false))]> (hs s))
                 (granted s) (winners s) (leaders s) (cleared s) (first_vote s))
  | e_win v S :
      let T := current_term (hs s v) + 1 in
      v ∈ V → NoDup S → S ⊆ V → v ∉ S → (∀ u, u ∈ S → (u, T, v) ∈ granted s) →
      is_majority (N.of_nat (length S) + 1) (N.of_nat (length V)) = true →
      estep s (mkElect (<[v := mkHardState T (Some (mkVotedFor v T false))]> (hs s))
                 (granted s) ({[(v, T)]} ∪ winners s) (leaders s) (cleared s)
                 (note_first v T v (first_vote s)))
  | e_lead v :
      let T := current_term (hs s v) in
      (v, T) ∈ winners s →
      estep s (mkElect (<[v := mkHardState T (Some (mkVotedFor v T true))]> (hs s))
                 (granted s) (winners s) ({[(v, T)]} ∪ leaders s) (cleared s) (first_vote s)).

(** Before anyone voted or led. *)
Definition einit (s : Elect) : Prop :=
  granted s = ∅ ∧ winners s = ∅ ∧ leaders s = ∅ ∧ cleared s = ∅ ∧ first_vote s = ∅
  ∧ ∀ v, voted_for (hs s v) = None.

(** ** The invariant *)

Definition majority_for (f : gmap (N * N) N) (c T : N) : Prop :=
  ∃ S, NoDup S ∧ S ⊆ V ∧ is_majority (N.of_nat (length S)) (N.of_nat (length V)) = true
       ∧ ∀ u, u ∈ S → f !! (u, T) = Some c.

Record einv (s : Elect) : Prop := {
  i_first_term v T c : first_vote s !! (v, T) = Some c → T <= current_term (hs s v);
  i_first_vote v c :
    first_vote s !! (v, current_term (hs s v)) = Some c →
    (v, current_term (hs s v)) ∉ cleared s →
    ∃ vf, voted_for (hs s v) = Some vf ∧ voted_for_term vf = current_term (hs s v)
          ∧ (voted_for_id vf = c ∨ (voted_for_id vf, current_term (hs s v)) ∈ winners s);
  i_noted v T c :
    first_vote s !! (v, T) = Some c → (v, T, c) ∈ granted s ∨ (v, T) ∈ winners s;
  i_granted v T c :
    (v, T, c) ∈ granted s → first_vote s !! (v, T) = Some c ∨ (c, T) ∈ winners s;
  i_winner c T : (c, T) ∈ winners s → majority_for (first_vote s) c T;
  i_leader c T : (c, T) ∈ leaders s → (c, T) ∈ winners s;
}.

Lemma lookup_note_first v T c f u T' d :
  note_first v T c f !! (u, T') = Some d ↔
  f !! (u, T') = Some d ∨ (f !! (v, T) = None ∧ u = v ∧ T' = T ∧ d = c).
Proof.
  unfold note_first. destruct (f !! (v, T)) as [x|] eqn:Hf.
  - split; [by left|]. intros [?|(? & _)]; done.
  - destruct (decide ((u, T') = (v, T))) as [[= -> ->]|Hne].
    + rewrite lookup_insert_eq. split.
      * intros [= <-]. by right.
      * intros [?|(_ & _ & _ & ->)]; [congruence|done].
    + rewrite lookup_insert_ne by done. split; [by left|].
      intros [?|(_ & -> & -> & _)]; [done|]. by destruct Hne.
Qed.

Lemma note_first_mono v T c f k d : f !! k = Some d → note_first v T c f !! k = Some d.
Proof. destruct k as [u T']. intros H. apply lookup_note_first. by left. Qed.

Lemma majority_for_mono f f' c T :
  (∀ k d, f !! k = Some d → f' !! k = Some d) → majority_for f c T → majority_for f' c T.
Proof. intros Hm (S & ? & ? & ? & HS). exists S. split_and!; eauto. Qed.

Lemma einit_inv s : einit s → einv s.
Proof.
  intros (Hg & Hw & Hl & Hc & Hf & Hv). split; intros *; rewrite ?Hf, ?Hg, ?Hw, ?Hl, ?lookup_empty; done.
Qed.

(** The hard state of [u] after [v]'s is replaced. *)
Lemma hs_insert (f : N → HardState) v h u :
  (<[v := h]> f) u = if decide (u = v) then h else f u.
Proof.
  destruct (decide (u = v)) as [->|Hne]; [by rewrite fn_lookup_insert|].
  by rewrite fn_lookup_insert_ne.
Qed.

(** A step that gives no vote and wins no round only has to respect the hard state. *)
Lemma einv_hs s v h L K :
  einv s →
  current_term (hs s v) <= current_term h →
  (∀ c, first_vote s !! (v, current_term h) = Some c → (v, current_term h) ∉ K →
        ∃ vf, voted_for h = Some vf ∧ voted_for_term vf = current_term h
              ∧ (voted_for_id vf = c ∨ (voted_for_id vf, current_term h) ∈ winners s)) →
  (∀ c T, (c, T) ∈ L → (c, T) ∈ winners s) → cleared s ⊆ K →
  einv (mkElect (<[v := h]> (hs s)) (granted s) (winners s) L K (first_vote s)).
Proof.
  intros [H1 H2 H3 H4 H5 H6] Hle Hf HL HK. split; simpl; [| |done..|done].
  - intros u T c Hu. rewrite hs_insert. destruct (decide (u = v)) as [->|?]; [|eauto].
    etrans; [by eapply H1|done].
  - intros u c. rewrite hs_insert. destruct (decide (u = v)) as [->|?]; [eauto|].
    intros Hu Hn. apply H2; [done|set_solver].
Qed.

(** No first vote is recorded in a term above the voter's. *)
Lemma first_above s v T : einv s → current_term (hs s v) < T → first_vote s !! (v, T) = None.
Proof.
  intros I Hlt. destruct (first_vote s !! (v, T)) as [c|] eqn:E; [|done].
  apply (i_first_term s I) in E. lia.
Qed.

(** The candidate a voter may grant to is the one it voted for first, or a winner. *)
Lemma may_grant_first s v c T :
  einv s → may_grant (hs s v) c T → (v, T) ∉ cleared s →
  first_vote s !! (v, T) = None ∨ first_vote s !! (v, T) = Some c ∨ (c, T) ∈ winners s.
Proof.
  intros I [Hlt|[<- Hv]] Hcl; [left; by apply first_above|].
  destruct (first_vote s !! (v, current_term (hs s v))) as [c0|] eqn:E; [right|by left].
  destruct (i_first_vote s I v c0 E Hcl) as (vf & Hvf & Ht & Hid).
  rewrite Hvf in Hv. destruct Hv as [<- _]. destruct Hid as [->|?]; [by left|by right].
Qed.

Lemma grant_inv s v c T :
  einv s → may_grant (hs s v) c T → (v, T) ∉ cleared s →
  einv (mkElect (<[v := mkHardState T (Some (mkVotedFor c T false))]> (hs s))
          ({[(v, T, c)]} ∪ granted s) (winners s) (leaders s) (cleared s)
          (note_first v T c (first_vote s))).
Proof.
  intros I Hg Hcl. pose proof (may_grant_first s v c T I Hg Hcl) as Hfirst.
  assert (current_term (hs s v) <= T) as Hle by (destruct Hg as [?|[? _]]; lia).
  assert (note_first v T c (first_vote s) !! (v, T) = Some c ∨ (c, T) ∈ winners s) as Hnew.
  { destruct Hfirst as [H|[H|H]]; [left|left|by right].
    - apply lookup_note_first. by right.
    - by apply note_first_mono. }
  destruct I as [H1 H2 H3 H4 H5 H6]. split; simpl.
  - intros u T' d Hu. apply lookup_note_first in Hu. rewrite hs_insert.
    destruct Hu as [Hu|(_ & -> & -> & _)].
    + destruct (decide (u = v)) as [->|?]; [|eauto]. simpl. etrans; [by eapply H1|done].
    + by rewrite decide_True.
  - intros u d. rewrite hs_insert. destruct (decide (u = v)) as [->|?]; simpl.
    + intros Hd _. exists (mkVotedFor c T false). split_and!; try done. simpl.
      destruct Hnew as [Hnew|?]; [left; congruence|by right].
    + intros Hd. apply lookup_note_first in Hd as [Hd|(_ & -> & _)]; [eauto|done].
  - intros u T' d Hu. apply lookup_note_first in Hu as [Hu|(_ & -> & -> & ->)]; [|set_solver].
    destruct (H3 u T' d Hu); set_solver.
  - intros u T' d Hu. apply elem_of_union in Hu as [Hu|Hu].
    + apply elem_of_singleton in Hu. injection Hu as -> -> ->. done.
    + destruct (H4 u T' d Hu) as [?|?]; [left; by apply note_first_mono|by right].
  - intros d T' Hd. eapply majority_for_mono; [|by apply H5]. intros. by apply note_first_mono.
  - done.
Qed.

Lemma is_majority_cons n V' : is_majority (N.of_nat n + 1) V' = is_majority (N.of_nat (S n)) V'.
Proof. f_equal. lia. Qed.

Lemma win_inv s v S :
  let T := current_term (hs s v) + 1 in
  einv s → v ∈ V → NoDup S → S ⊆ V → v ∉ S → (∀ u, u ∈ S → (u, T, v) ∈ granted s) →
  is_majority (N.of_nat (length S) + 1) (N.of_nat (length V)) = true →
  einv (mkElect (<[v := mkHardState T (Some (mkVotedFor v T false))]> (hs s))
          (granted s) ({[(v, T)]} ∪ winners s) (leaders s) (cleared s)
          (note_first v T v (first_vote s))).
Proof.
  intros T I HvV HS HSV HvS Hgr Hmaj.
  assert (first_vote s !! (v, T) = None) as Hnone by (apply first_above; [done|unfold T; lia]).
  assert (note_first v T v (first_vote s) !! (v, T) = Some v) as Hnew
    by (apply lookup_note_first; by right).
  assert (majority_for (note_first v T v (first_vote s)) v T) as Hm.
  { destruct (decide ((v, T) ∈ winners s)) as [Hl|Hl].
    - eapply majority_for_mono; [|by apply (i_winner s I)]. intros. by apply note_first_mono.
    - exists (v :: S). split_and!.
      + by constructor.
      + intros u Hu. apply elem_of_cons in Hu as [->|Hu]; [done|by apply HSV].
      + simpl. by rewrite <-is_majority_cons.
      + intros u Hu. apply elem_of_cons in Hu as [->|Hu]; [done|].
        destruct (i_granted s I u T v (Hgr u Hu)) as [?|?]; [by apply note_first_mono|done]. }
  destruct I as [H1 H2 H3 H4 H5 H6]. split; simpl.
  - intros u T' d Hu. apply lookup_note_first in Hu. rewrite hs_insert.
    destruct Hu as [Hu|(_ & -> & -> & _)].
    + destruct (decide (u = v)) as [->|?]; [|eauto]. simpl. etrans; [by eapply H1|lia].
    + by rewrite decide_True.
  - intros u d. rewrite hs_insert. destruct (decide (u = v)) as [->|?]; simpl.
    + intros Hd _. exists (mkVotedFor v T false). split_and!; try done. left. simpl. congruence.
    + intros Hd Hn. apply lookup_note_first in Hd as [Hd|(_ & -> & _)]; [|done].
      destruct (H2 u d Hd Hn) as (vf & ? & ? & [?|?]); exists vf; set_solver.
  - intros u T' d Hu. apply lookup_note_first in Hu as [Hu|(_ & -> & -> & ->)]; [|set_solver].
    destruct (H3 u T' d Hu); set_solver.
  - intros u T' d Hu. destruct (H4 u T' d Hu) as [?|?]; [left; by apply note_first_mono|set_solver].
  - intros d T' Hd. apply elem_of_union in Hd as [Hd|Hd].
    + apply elem_of_singleton in Hd. by injection Hd as -> ->.
    + eapply majority_for_mono; [|by apply H5]. intros. by apply note_first_mono.
  - intros c T' Hc. apply elem_of_union_r. by apply H6.
Qed.

Lemma estep_inv s s' : einv s → estep s s' → einv s'.
Proof.
  intros I Hst. pose proof (i_leader s I) as HL.
  destruct Hst as [v c T _ Hg Hcl|v T Hle|v Hno|v|v l T Hl Hle|v T|v S T Hv HS HSV HvS Hgr Hm|v T Hw].
  - by apply grant_inv.
  - apply einv_hs; simpl; [done..| |done|done].
    intros c Hc Hn. pose proof (i_first_term s I _ _ _ Hc).
    assert (T = current_term (hs s v)) as -> by lia. by apply (i_first_vote s I).
  - apply einv_hs; simpl; [done|done| |done|done]. intros c Hc. congruence.
  - apply einv_hs; simpl; [done|done| |done|set_solver]. set_solver.
  - apply einv_hs; simpl; [done|done| |done|done].
    intros c Hc _. exists (mkVotedFor l T true). simpl. auto.
  - apply einv_hs; simpl; [done|lia| |done|done].
    intros c Hc. rewrite first_above in Hc; [done..|]. subst T. lia.
  - by apply (win_inv s v S).
  - apply einv_hs; simpl; [done|done| |set_solver|done].
    intros c Hc _. exists (mkVotedFor v T true). simpl. auto.
Qed.

Lemma esteps_inv s s' : einv s → rtc estep s s' → einv s'.
Proof. intros I. induction 1; eauto using estep_inv. Qed.

(** ** Quorum intersection and election safety *)

Lemma majorities_meet (S1 S2 : list N) :
  NoDup S1 → NoDup S2 → S1 ⊆ V → S2 ⊆ V →
  is_majority (N.of_nat (length S1)) (N.of_nat (length V)) = true →
  is_majority (N.of_nat (length S2)) (N.of_nat (length V)) = true →
  ∃ u, u ∈ S1 ∧ u ∈ S2.
Proof.
  intros Hn1 Hn2 H1 H2 Hm1 Hm2. unfold is_majority in Hm1, Hm2.
  apply N.ltb_lt in Hm1, Hm2.
  destruct (decide (Exists (λ u, u ∈ S2) S1)) as [He|He].
  { apply list.Exists_exists in He as (u & ? & ?). by exists u. }
  exfalso. assert (NoDup (S1 ++ S2)) as Hnd.
  { apply list.NoDup_app. split_and!; [done| |done]. intros u Hu Hu'. apply He, list.Exists_exists. by exists u. }
  assert (S1 ++ S2 ⊆+ V) as Hsub.
  { apply NoDup_submseteq; [done|]. intros u Hu. apply elem_of_app in Hu as [?|?]; [by apply H1|by apply H2]. }
  apply submseteq_length in Hsub. rewrite length_app in Hsub.
  pose proof (N.div_mod (N.of_nat (length V)) 2 ltac:(done)).
  pose proof (N.mod_lt (N.of_nat (length V)) 2 ltac:(done)). lia.
Qed.

Lemma one_leader s a b T : einv s → (a, T) ∈ leaders s → (b, T) ∈ leaders s → a = b.
Proof.
  intros I Ha%(i_leader s I) Hb%(i_leader s I).
  destruct (i_winner s I a T Ha) as (S1 & ? & ? & ? & Hf1).
  destruct (i_winner s I b T Hb) as (S2 & ? & ? & ? & Hf2).
  destruct (majorities_meet S1 S2) as (u & Hu1 & Hu2); [done..|].
  specialize (Hf1 u Hu1). specialize (Hf2 u Hu2). congruence.
Qed.

End spec.
