(* ===== verification/ElectionSafety.v ===== *)
(** * Election safety of the code

    A cluster of nodes with a fixed set of voters, each step of which runs one piece of
    the raft loop on one node: an inbound event, a tick, the internal event at the head of
    the loop's buffer, any procedure that leaves the hard state alone, a restart from disk.
    Votes granted, rounds won and leaderships taken up are recorded beside the nodes.

    [BecomeLeader] carries no term and [BecomeFollower] clears the vote whatever the term:
    a node may lead a term it did not win and may vote twice in a term. Two records tell
    the runs in which that happens. [orderly] is lost when a node takes up the leadership
    of a term it did not win, or grants a vote in a term in which it has [forgotten] a vote
    or a won round of its own. [ElectionProps] shows runs of the handlers that lose it; a
    run that keeps it is a run of the protocol of [ElectionSpec], so that no term has two
    leaders. *)

From stdpp Require Import base tactics numbers option list gmap strings functions.
From S2P Require Import Prelude Types Events ReadLease TermSegments BufferedLog Replication Election.
From S2P Require Import Proc Roles RoleState FollowerRoles LeaderState Leader LeaderEvents.
From S2P Require Import RaftLoop ProcLogic HardStateSpec ElectionSpec.

Record Cluster := mkCluster {
  nodes : N → Raft;
  votes : gset (N * N * N);
  won : gset (N * N);
  elected : gset (N * N);
  forgotten : gset (N * N);
  orderly : bool;
}.

(** A granted vote among the replies sent on the way from [n] to [n']. *)
Definition answered_yes (n n' : Node RaftRole) : bool :=
  existsb (λ p, match p.2 with RVote r => vresp_vote_granted r | _ => false end)
    (drop (length (sent n)) (sent n')).

(** A node after a restart: a follower with the hard state found on disk. *)
Definition restarted (id fresh : N) (applied : option N) (lg : BufferedRaftLog) (r : Raft) : Raft :=
  mkRaft (mkNode (shared_new id (saved (node r)) applied) (RFollower (Follower.new fresh)) lg
            (saved (node r)) [] []) [] [] [] [] [] None.

(** The hard state and the term of voter [v]. *)
Definition hs_of (C : Cluster) (v : N) : HardState := hard_state (shared (node (nodes C v))).
Definition term_at (C : Cluster) (v : N) : N := current_term (hs_of C v).

(** The vote an inbound event made [v] give. *)
Definition vote_given (v : N) (ev : InboundEvent) (n n' : Node RaftRole) : gset (N * N * N) :=
  match ev with
  | ReceiveVoteRequest req _ =>
      if answered_yes n n' then {[(v, vr_term req, vr_candidate_id req)]} else ∅
  | _ => ∅
  end.

(** The round a candidate's tick won: it queued [BecomeLeader]. *)
Definition queues_lead (n n' : Node RaftRole) : bool :=
  match state n with
  | RCandidate _ => existsb (λ e, match e with BecomeLeader => true | _ => false end)
                      (drop (length (events n)) (events n'))
  | _ => false
  end.

Definition round_won (v : N) (n n' : Node RaftRole) : gset (N * N) :=
  if queues_lead n n' then {[(v, current_term (hard_state (shared n')))]} else ∅.

(** [BecomeLeader] makes a candidate the leader; [BecomeFollower] makes any other node
    than a follower clear its vote. *)
Definition takes_lead (ev : InternalEvent) (n : Node RaftRole) : bool :=
  match ev, state n with BecomeLeader, RCandidate _ => true | _, _ => false end.

Definition clears_vote (ev : InternalEvent) (n : Node RaftRole) : bool :=
  match ev, state n with
  | BecomeFollower _, RFollower _ => false
  | BecomeFollower _, _ => true
  | _, _ => false
  end.

(** [v] has given a vote in term [T] or won it. *)
Definition has_cast (C : Cluster) (v T : N) : bool :=
  bool_decide ((v, T) ∈ won C ∨ set_Exists (λ x, x.1 = (v, T)) (votes C)).

Section cluster.
Context (V : list N) (HV : NoDup V).

(** What the membership tells [v]: the other voters, and whether there are none. *)
Definition election_view (env : Env) (v : N) : Prop :=
  (mv_single_node (membership env) = true → V = [v])
  ∧ (∀ u, u ∈ (nm_id <$> mv_voters (membership env)) ↔ u ∈ V ∧ u ≠ v).

(** The counted answers come from distinct voters that granted their vote. *)
Definition votes_from (C : Cluster) (env : Env) (v T : N) : Prop :=
  ∃ S, NoDup S ∧ S ⊆ V ∧ (v ∉ S) ∧ length S = yes_votes (vote_responses env)
       ∧ ∀ u, u ∈ S → (u, T, v) ∈ votes C.

(** A message [v] may receive: requests for votes come from others, entries and snapshots
    from leaders of the term they name. *)
Definition genuine (C : Cluster) (v : N) (ev : InboundEvent) : Prop :=
  match ev with
  | ReceiveVoteRequest req _ => vr_candidate_id req ≠ v
  | AppendEntries req _ => (ar_leader_id req, ar_term req) ∈ elected C
  | InstallSnapshotChunk (c :: _) _ => (sc_leader_id c, sc_leader_term c) ∈ elected C
  | _ => True
  end.

Inductive cstep (C : Cluster) : Cluster → Prop :=
  | c_inbound v env ev r' a :
      v ∈ V → saves_ok env (node (nodes C v)) → genuine C v ev →
      on_node (role_handle_inbound_event env ev) (nodes C v) = Some (r', a) →
      let given := vote_given v ev (node (nodes C v)) (node r') in
      cstep C (mkCluster (<[v := r']> (nodes C)) (given ∪ votes C) (won C) (elected C) (forgotten C)
                 (orderly C && bool_decide (set_Forall (λ x, x.1 ∉ forgotten C) given)))
  | c_tick v env r' a :
      v ∈ V → saves_ok env (node (nodes C v)) →
      election_view env v → votes_from C env v (term_at C v + 1) →
      on_node (role_tick env) (nodes C v) = Some (r', a) →
      cstep C (mkCluster (<[v := r']> (nodes C)) (votes C)
                 (round_won v (node (nodes C v)) (node r') ∪ won C) (elected C) (forgotten C)
                 (orderly C))
  | c_internal v env ev q r' a :
      v ∈ V → saves_ok env (node (nodes C v)) →
      buffered_internal_event (nodes C v) = ev :: q →
      process_internal_events_step env ev q (nodes C v) = Some (r', a) →
      let n := node (nodes C v) in
      cstep C (mkCluster (<[v := r']> (nodes C)) (votes C) (won C)
                 (if takes_lead ev n then {[(v, term_at C v)]} ∪ elected C else elected C)
                 (if clears_vote ev n && has_cast C v (term_at C v)
                  then {[(v, term_at C v)]} ∪ forgotten C else forgotten C)
                 (orderly C && (negb (takes_lead ev n) || bool_decide ((v, term_at C v) ∈ won C))))
  | c_quiet v (p : proc Raft unit) r' a :
      v ∈ V → keeps same_loop_state p → p (nodes C v) = Some (r', a) →
      cstep C (mkCluster (<[v := r']> (nodes C)) (votes C) (won C) (elected C) (forgotten C) (orderly C))
  | c_restart v fresh applied lg :
      v ∈ V →
      cstep C (mkCluster (<[v := restarted v fresh applied lg (nodes C v)]> (nodes C))
                 (votes C) (won C) (elected C) (forgotten C) (orderly C)).

(** A cluster that starts: no votes, no leaders, hard states as found on disk. *)
Definition cinit (C : Cluster) : Prop :=
  votes C = ∅ ∧ won C = ∅ ∧ elected C = ∅ ∧ forgotten C = ∅
  ∧ ∀ v, persisted (node (nodes C v)) ∧ node_id (shared (node (nodes C v))) = v
         ∧ voted_for (hs_of C v) = None.

(** ** Refinement *)

(** The protocol state of a cluster: hard states, votes, winners, leaders. *)
Definition sim (C : Cluster) (s : Elect) : Prop :=
  (∀ v, hs s v = hs_of C v) ∧ granted s = votes C ∧ winners s = won C ∧ leaders s = elected C
  ∧ cleared s = forgotten C
  ∧ ∀ v, persisted (node (nodes C v)) ∧ node_id (shared (node (nodes C v))) = v.

Lemma at_role_inv {R A} (inj : R → RaftRole) s (p : proc (Node R) A) (n n' : Node RaftRole) r :
  at_role inj s p n = Some (n', r) →
  ∃ m, p (retype s n) = Some (m, r) ∧ n' = retype (inj (state m)) m.
Proof.
  unfold at_role. destruct (p (retype s n)) as [[m r']|]; [|done]. intros [= <- <-]. by exists m.
Qed.

Lemma on_node_inv {A} (p : proc (Node RaftRole) A) r r' a :
  on_node p r = Some (r', a) → p (node r) = Some (node r', a).
Proof. unfold on_node. destruct (p (node r)) as [[n b]|]; [|done]. by intros [= <- <-]. Qed.

(** A node of the cluster moved: the protocol state moves along. *)
Lemma sim_move C s v r' h G W L K b f :
  sim C s → moves h (node (nodes C v)) (node r') →
  sim (mkCluster (<[v := r']> (nodes C)) G W L K b) (mkElect (<[v := h]> (hs s)) G W L K f).
Proof.
  intros (Hh & _ & _ & _ & _ & Hp) (Hn & Hpp & Hi). split_and!; simpl; [|done..|].
  - intros u. unfold hs_of. simpl. rewrite hs_insert. destruct (decide (u = v)) as [->|Hne].
    + by rewrite fn_lookup_insert.
    + by rewrite fn_lookup_insert_ne.
  - intros u. destruct (decide (u = v)) as [->|Hne].
    + rewrite fn_lookup_insert. destruct (Hp v) as [??]. split; [auto|congruence].
    + by rewrite fn_lookup_insert_ne.
Qed.

Definition keeping (C : Cluster) (v : N) (r' : Raft) (b : bool) : Cluster :=
  mkCluster (<[v := r']> (nodes C)) (votes C) (won C) (elected C) (forgotten C) b.

Lemma raises_sim C s v r' b :
  sim C s → raises (node (nodes C v)) (node r') →
  ∃ s', rtc (estep V) s s' ∧ sim (keeping C v r' b) s'.
Proof.
  intros Hsim (t & Hle & Hm). pose proof Hsim as (Hh & Hg & Hw & Hl & Hf & _).
  unfold keeping. rewrite <-Hg, <-Hw, <-Hl, <-Hf. eexists. split; [|by eapply sim_move].
  apply rtc_once. fold (hs_of C v). rewrite <-Hh. apply e_term. by rewrite Hh.
Qed.

Lemma stays_sim C s v r' b :
  sim C s → moves (hs_of C v) (node (nodes C v)) (node r') →
  ∃ s', rtc (estep V) s s' ∧ sim (keeping C v r' b) s'.
Proof.
  intros Hsim Hm. apply raises_sim; [done|]. exists (term_at C v). split; [done|].
  unfold term_at. fold (hs_of C v). by destruct (hs_of C v).
Qed.

Lemma follows_sim C s v r' b l T :
  sim C s → (l, T) ∈ elected C → term_at C v <= T →
  moves (following l T) (node (nodes C v)) (node r') →
  ∃ s', rtc (estep V) s s' ∧ sim (keeping C v r' b) s'.
Proof.
  intros Hsim Hel Hle Hm. pose proof Hsim as (Hh & Hg & Hw & Hl & Hf & _).
  unfold keeping. rewrite <-Hg, <-Hw, <-Hl, <-Hf. eexists. split; [|by eapply sim_move].
  apply rtc_once, e_follow; [by rewrite Hl|by rewrite Hh].
Qed.

(** ** The handlers, role by role *)

Lemma follower_commit_index_frame (R : Type) `{!RaftRoleState R} c :
  (∀ (s : SharedState), hard_state (update_commit_index c s) = hard_state s
                        ∧ node_id (update_commit_index c s) = node_id s) →
  keeps same_hard_state (set_shared (R := R) (update_commit_index c)).
Proof. intros H. apply keeps_modify. intros n. destruct (H (shared n)). by split_and!. Qed.

Lemma default_commit_index_same c s :
  hard_state (default_update_commit_index c s) = hard_state s
  ∧ node_id (default_update_commit_index c s) = node_id s.
Proof. unfold default_update_commit_index. by destruct (negb _). Qed.

(** An AppendEntries: followers and learners follow the sender unless it is stale,
    candidates and leaders at most adopt its term. *)
Lemma role_append_spec env req senders (n n' : Node RaftRole) r :
  saves_ok env n →
  role_handle_inbound_event env (AppendEntries req senders) n = Some (n', r) →
  raises n n'
  ∨ (current_term (hard_state (shared n)) <= ar_term req
     ∧ moves (following (ar_leader_id req) (ar_term req)) n n').
Proof.
  intros Hok. unfold role_handle_inbound_event, dispatch.
  destruct (state n) as [s|s|s|s]; intros H; apply at_role_inv in H as (m & H & ->);
    apply bind_inv in H as (m0 & r0 & [= <- <-] & H).
  1, 4: apply append_entries_workflow_spec in H;
    [|intros; apply follower_commit_index_frame; intros; apply default_commit_index_same|done];
    revert H; simpl; case_bool; intros Hm; [left|by right];
    exists (current_term (hard_state (shared n))); split; [done|];
    by destruct (hard_state (shared n)).
  - left. by apply candidate_append_spec in H.
  - left. apply raises_same. revert H. unfold LeaderEvents.receive_append_entries.
    intros H. cut (same_hard_state (retype s n) m); [done|]. revert H.
    apply (keeps_bind _); solve_keeps.
Qed.

(** The first chunk of a snapshot counts like an AppendEntries. *)
Lemma role_snapshot_spec env stream ch (n n' : Node RaftRole) r :
  saves_ok env n →
  role_handle_inbound_event env (InstallSnapshotChunk stream ch) n = Some (n', r) →
  moves (hard_state (shared n)) n n'
  ∨ ∃ c cs, stream = c :: cs ∧ current_term (hard_state (shared n)) <= sc_leader_term c
            ∧ moves (following (sc_leader_id c) (sc_leader_term c)) n n'.
Proof.
  intros Hok. unfold role_handle_inbound_event, dispatch.
  destruct (state n) as [s|s|s|s]; intros H; apply at_role_inv in H as (m & H & ->);
    apply bind_inv in H as (m0 & r0 & [= <- <-] & H).
  1, 4: apply install_snapshot_workflow_spec in H;
    [|intros; apply follower_commit_index_frame; intros; apply default_commit_index_same|done];
    destruct stream as [|c cs]; [by left|]; revert H; simpl; case_bool; intros Hm; [by left|right];
    by exists c, cs.
  all: left; apply (moves_same (R := RaftRole)); revert H; intros H;
    cut (same_hard_state (retype s n) m); [done|]; revert H; apply (keeps_bind _); solve_keeps.
Qed.

Lemma answered_yes_app (n n' : Node RaftRole) l :
  sent n' = sent n ++ l →
  answered_yes n n' = existsb (λ p, match p.2 with RVote r => vresp_vote_granted r | _ => false end) l.
Proof. intros H. unfold answered_yes. by rewrite H, drop_app_length. Qed.

Lemma answered_no (n n' : Node RaftRole) ch :
  (sent n' = sent n ∨ ∃ t i lt, sent n' = sent n ++ [(ch, RVote (mkVoteResponse t false i lt))]) →
  answered_yes n n' = false.
Proof.
  intros [H|(t & i & lt & H)]; [|by rewrite (answered_yes_app _ _ _ H)].
  by rewrite (answered_yes_app _ _ []) by (by rewrite app_nil_r).
Qed.

(** A vote request: either the protocol's grant, or at most a higher term and no vote. *)
Lemma vote_spec env req ch (n n' : Node RaftRole) r :
  saves_ok env n →
  role_handle_inbound_event env (ReceiveVoteRequest req ch) n = Some (n', r) →
  if answered_yes n n'
  then may_grant (hard_state (shared n)) (vr_candidate_id req) (vr_term req)
       ∧ moves (mkHardState (vr_term req) (Some (mkVotedFor (vr_candidate_id req) (vr_term req) false))) n n'
  else raises n n'.
Proof.
  intros Hok. unfold role_handle_inbound_event, dispatch.
  destruct (state n) as [s|s|s|s]; intros H;
    apply at_role_inv in H as (m & H & ->); apply bind_inv in H as (m0 & r0 & [= <- <-] & H).
  - apply follower_vote_spec in H as (Hm & i & t & Hsent); [|done]. simpl in Hm, Hsent.
    rewrite (answered_yes_app n (retype (RFollower (state m)) m) _ Hsent). simpl. rewrite orb_false_r.
    pose proof (handle_vote_request_cases req (hard_state (shared n)) (last_log_id (mem (raft_log n))))
      as Hcases. cbv zeta in Hcases. revert Hcases. destruct (bool_decide _); intros Hcases.
    + destruct Hcases as [Heq Hmay]. rewrite Heq in Hm. by split.
    + destruct Hcases as (t' & Hle & Heq). rewrite Heq in Hm. by exists t'.
  - apply candidate_vote_spec in H as [Hr Hsent]; [|done].
    rewrite (answered_no n (retype (RCandidate (state m)) m) ch) by exact Hsent. exact Hr.
  - apply leader_vote_spec in H as [Hr Hsent]; [|done].
    rewrite (answered_no n (retype (RLeader (state m)) m) ch) by exact Hsent. exact Hr.
  - apply learner_vote_spec in H as [Hr Hsent]; [|done].
    rewrite (answered_no n (retype (RLearner (state m)) m) ch) by exact Hsent. exact Hr.
Qed.

(** ** A tick *)

(** A tick raises the term and votes for the node itself, and possibly meets a higher
    term; or wins the round; or does nothing to the hard state. *)
Lemma tick_spec env (n n' : Node RaftRole) r :
  saves_ok env n → role_tick env n = Some (n', r) →
  let T := current_term (hard_state (shared n)) + 1 in
  let own t := mkHardState t (Some (mkVotedFor (node_id (shared n)) T false)) in
  (queues_lead n n' = false
   ∧ (moves (hard_state (shared n)) n n' ∨ ∃ t, T <= t ∧ moves (own t) n n'))
  ∨ (queues_lead n n' = true ∧ moves (own T) n n'
     ∧ broadcast_vote_requests (node_id (shared n)) T (mv_single_node (membership env))
         (mv_voters (membership env)) (last_log_id (mem (raft_log n))) (vote_responses env) = Ok tt).
Proof.
  intros Hok H T own. unfold queues_lead. destruct (state n) as [s|s|s|s] eqn:Hs.
  1, 3, 4: left; split; [done|left]; apply moves_same;
    eapply role_tick_frame; [|exact H]; by rewrite Hs.
  unfold role_tick, dispatch in H. rewrite Hs in H.
  apply at_role_inv in H as (m & H & ->). apply candidate_tick_spec in H as [[-> _]|[_ H]]; [| |done].
  { left. simpl. rewrite (drop_all (events n)). split; [done|]. left. by split_and!. }
  destruct (round_result env (retype s n)) as [[]|e] eqn:Hr.
  - right. destruct H as (Hm & He & _). simpl in *. rewrite He, drop_app_length. by split_and!.
  - left. split.
    { simpl. destruct e; destruct H as [_ ->]; simpl; by rewrite ?drop_app_length, ?drop_all. }
    right. destruct e; try (destruct H as [Hm _]; exists T; split; [done|exact Hm]).
    destruct H as [Hm _]. exists term. split; [|exact Hm].
    apply broadcast_higher in Hr. simpl in Hr. unfold T. lia.
Qed.

(** The peers of a broadcast are the other voters, each once. *)
Lemma vote_peers_spec id ms acc :
  NoDup acc →
  NoDup (vote_peers id ms acc)
  ∧ ∀ u, u ∈ vote_peers id ms acc ↔ u ∈ acc ∨ (u ∈ (nm_id <$> ms) ∧ u ≠ id).
Proof.
  revert acc. induction ms as [|m ms IH]; intros acc Hnd; simpl; [set_solver|].
  destruct (N.eqb_spec (nm_id m) id) as [->|Hne]; simpl.
  - destruct (IH acc Hnd) as [? Hel]. split; [done|]. intros u. rewrite Hel. set_solver.
  - case_bool_decide as Hin.
    + destruct (IH acc Hnd) as [? Hel]. split; [done|]. intros u. rewrite Hel. set_solver.
    + destruct (IH (acc ++ [nm_id m])) as [? Hel].
      { apply list.NoDup_app. split_and!; [done|set_solver|apply NoDup_singleton]. }
      split; [done|]. intros u. rewrite Hel. set_solver.
Qed.

Lemma voters_count env v :
  v ∈ V → election_view env v →
  N.of_nat (length (vote_peers v (mv_voters (membership env)) [])) + 1 = N.of_nat (length V).
Proof.
  intros Hv [_ Hview]. destruct (vote_peers_spec v (mv_voters (membership env)) []) as [Hnd Hel];
    [constructor|].
  assert (vote_peers v (mv_voters (membership env)) [] ++ [v] ≡ₚ V) as Hperm.
  { apply NoDup_Permutation; [|done|].
    - apply list.NoDup_app. split_and!; [done| |apply NoDup_singleton].
      intros u Hu. apply Hel in Hu. set_solver.
    - intros u. rewrite elem_of_app, Hel, Hview, list_elem_of_singleton.
      destruct (decide (u = v)); set_solver. }
  apply Permutation_length in Hperm. rewrite length_app in Hperm. simpl in Hperm. lia.
Qed.

(** A won broadcast means a majority of the voters, the candidate included. *)
Lemma broadcast_majority env v last :
  v ∈ V → election_view env v → ∀ term,
  broadcast_vote_requests v term (mv_single_node (membership env)) (mv_voters (membership env))
    last (vote_responses env) = Ok tt →
  V = [v] ∨ is_majority (N.of_nat (yes_votes (vote_responses env)) + 1) (N.of_nat (length V)) = true.
Proof.
  intros Hv Hview term. unfold broadcast_vote_requests.
  destruct (mv_single_node _) eqn:Hs; [left; by apply Hview|right].
  destruct (mv_voters (membership env)) as [|x xs] eqn:Hvs; [done|]. rewrite <-Hvs in *.
  cbv zeta. destruct (count_votes _ _ _ _ _) as [k|] eqn:Hc; [|done].
  apply count_votes_ok in Hc as ->. destruct (negb _ && is_majority _ _) eqn:Hm; [|done].
  apply andb_prop in Hm as [_ Hm]. rewrite voters_count in Hm by done.
  rewrite <-Hm. f_equal. lia.
Qed.

Lemma tick_sim C s v env r' a :
  sim C s → v ∈ V → saves_ok env (node (nodes C v)) →
  election_view env v → votes_from C env v (term_at C v + 1) →
  on_node (role_tick env) (nodes C v) = Some (r', a) →
  ∃ s', rtc (estep V) s s'
        ∧ sim (mkCluster (<[v := r']> (nodes C)) (votes C)
                 (round_won v (node (nodes C v)) (node r') ∪ won C) (elected C) (forgotten C)
                 (orderly C)) s'.
Proof.
  intros Hsim Hv Hok Hview (S & HS & HSV & HvS & Hlen & Hgr) H%on_node_inv.
  pose proof Hsim as (Hh & Hg & Hw & Hl & Hf & Hp). destruct (Hp v) as [_ Hid].
  unfold round_won. apply tick_spec in H as [[-> H]|(-> & Hm & Hb)]; [| |done].
  - rewrite (left_id_L ∅ (∪)). destruct H as [Hm|(t & Hle & Hm)]; [by apply stays_sim|].
    pose proof (sim_move _ _ _ _ _ (votes C) (won C) (elected C) (forgotten C) (orderly C)
      (first_vote s) Hsim Hm) as (Hh' & _ & _ & _ & _ & Hp').
    eexists. split; [eapply rtc_l; [apply (e_lose V s v)|apply rtc_once, (e_term V _ v t)]|].
    + simpl. by rewrite fn_lookup_insert, Hh.
    + split_and!; simpl; [|done..]. intros u. rewrite <-Hh'. simpl.
      rewrite !hs_insert. destruct (decide (u = v)) as [->|?]; [|done].
      by rewrite decide_True, Hh, Hid by done.
  - rewrite Hid in Hm, Hb. eexists. split; [apply rtc_once, (e_win V s v S)|].
    all: rewrite ?Hh, ?Hg; try done.
    + rewrite Hlen. apply broadcast_majority in Hb as [HV1|?]; [|done..].
      assert (S = []) as ->; [|by rewrite <-Hlen, HV1].
      destruct S as [|x S']; [done|]. exfalso. rewrite HV1 in HSV.
      assert (x = v) as -> by (apply list_elem_of_singleton, HSV; by left). apply HvS. by left.
    + rewrite Hw, Hl, Hf. assert (Hm' := Hm). destruct Hm' as [-> _]. by apply sim_move.
Qed.

(** ** Internal events *)

(** Draining the reads of a leader leaves its log alone. *)
Definition same_log {R} (n n' : Node R) : Prop := raft_log n' = raft_log n.

#[local] Instance same_log_preorder {R} : PreOrder (same_log (R := R)).
Proof. unfold same_log. split; [done|]. intros n1 n2 n3 -> ->. done. Qed.

Lemma reply_all_log {R} chs rep : keeps same_log (reply_all (R := R) chs rep).
Proof. by apply keeps_modify. Qed.
Lemma set_state_log {R} f : keeps same_log (set_state (R := R) f).
Proof. by apply keeps_modify. Qed.

#[local] Hint Resolve reply_all_log set_state_log : keeps.

Lemma drain_read_buffer_spec (n n' : Node RaftRole) r :
  drain_read_buffer n = Some (n', r) →
  same_hard_state n n' ∧ raft_log n' = raft_log n
  ∧ match state n, state n' with
    | RFollower _, RFollower _ | RCandidate _, RCandidate _
    | RLeader _, RLeader _ | RLearner _, RLearner _ => True
    | _, _ => False
    end.
Proof.
  intros H. split; [by apply role_drain_frame in H|].
  revert H. unfold drain_read_buffer, dispatch.
  destruct (state n) as [s|s|s|s] eqn:Es; intros H; apply at_role_inv in H as (m & H & ->); simpl.
  1, 2, 4: by injection H as <- <-.
  split; [|done]. change (same_log (retype s n) m). revert H.
  cut (keeps same_log Leader.drain_read_buffer); [eauto|]. unfold Leader.drain_read_buffer,
    Leader.take_proposals, Leader.drain_pending_writes_with_error. solve_keeps.
Qed.

Lemma attempt_drain_inv r r' a :
  attempt (on_node drain_read_buffer) r = Some (r', a) →
  ∃ n' b, drain_read_buffer (node r) = Some (n', b) ∧ node r' = n' ∧ ∃ x, a = Ok x.
Proof.
  unfold attempt. destruct (on_node drain_read_buffer r) as [[r1 b]|] eqn:E; [|done].
  intros [= <- <-]. apply on_node_inv in E. eauto 6.
Qed.

(** Clearing the vote of a node that has just become a follower. *)
Lemma vote_reset_spec env l (r r' : Raft) a f :
  saves_ok env (node r) → state (node r) = RFollower f →
  (on_node (role_commit_vote_reset env);; t ← loop_term; notify_leader_change l t) r = Some (r', a) →
  moves (mkHardState (current_term (hard_state (shared (node r)))) None) (node r) (node r').
Proof.
  intros Hok Hf H. apply bind_inv in H as (r1 & a1 & Hc%on_node_inv & H).
  unfold role_commit_vote_reset, dispatch in Hc. rewrite Hf in Hc.
  apply at_role_inv in Hc as (m & Hc & Hm). apply commit_vote_reset_spec in Hc as [-> Hmv]; [|done].
  injection H as <- <-. simpl. by rewrite Hm.
Qed.

(** [BecomeFollower] clears the vote of every node that is not a follower already. *)
Lemma on_become_follower_spec env l r r' a :
  saves_ok env (node r) → on_become_follower env l r = Some (r', a) →
  moves (match state (node r) with
         | RFollower _ => hard_state (shared (node r))
         | _ => mkHardState (current_term (hard_state (shared (node r)))) None
         end) (node r) (node r').
Proof.
  intros Hok H. apply bind_inv in H as (r1 & a1 & Hd & H).
  apply attempt_drain_inv in Hd as (n1 & b & Hd & Hn1 & x & ->).
  apply drain_read_buffer_spec in Hd as (Hs1 & Hl1 & Hk1).
  apply bind_inv in H as (r2 & a2 & Hb%on_node_inv & H). revert Hb. unfold become_follower. rewrite Hn1.
  destruct (state (node r)) as [s|s|s|s], (state n1) as [s1|s1|s1|s1]; try done;
    intros [= Hr2 <-].
  { destruct H as [-> ->]. rewrite <-Hr2. by apply moves_same. }
  all: eapply vote_reset_spec in H; [|unfold saves_ok; by rewrite <-Hr2; simpl; rewrite Hl1
                                     |by rewrite <-Hr2];
    rewrite <-Hr2 in H; destruct Hs1 as (Hh & Hs & Hi); destruct H as (Hh' & Hp' & Hi'); simpl in *;
    (split_and!; [by rewrite Hh', Hh| |congruence]); intros Hp; apply Hp';
    unfold persisted in *; simpl; by rewrite Hh, Hs.
Qed.

(** What a candidate that became leader does after recording it. *)
Lemma leader_start_frame env :
  keeps same_loop_state
    (on_node (dispatch (fail NotLeaderError) (fail NotLeaderError)
       (n ← get;
        set_state (init_peers_next_index_and_match_index (last_entry_id (mem (raft_log n)))
                     (mv_peer_ids (membership env)));;
        set_state (update_cluster_metadata (membership env))) (fail NotLeaderError));;
     res ← attempt (on_node (dispatch (mret tt) (mret tt) (Leader.initiate_noop_commit env) (mret tt)));
     match res with
     | Ok _ => mret tt
     | Err _ => modify (λ r, r <| node ::= (λ n, n <| events ::= (.++ [BecomeFollower None]) |>) |>)
     end).
Proof.
  apply keeps_bind; [apply _|apply on_node_frame, dispatch_frame; solve_keeps|intros _].
  apply keeps_bind; [apply _| |intros [?|?]; [solve_keeps|apply keeps_modify; intros r0; by split_and!]].
  apply keeps_attempt, on_node_frame, dispatch_frame; try apply initiate_noop_commit_frame; solve_keeps.
Qed.

(** [BecomeLeader] records the leadership of a candidate in its current term. *)
Lemma on_become_leader_spec env r r' a :
  saves_ok env (node r) → on_become_leader env r = Some (r', a) →
  moves (match state (node r) with
         | RCandidate _ => following (node_id (shared (node r))) (current_term (hard_state (shared (node r))))
         | _ => hard_state (shared (node r))
         end) (node r) (node r').
Proof.
  intros Hok H. apply bind_inv in H as (r1 & a1 & Hb%on_node_inv & H). revert Hb. unfold become_leader.
  destruct (state (node r)) as [s|s|s|s]; intros [= Hr1 <-];
    try (destruct H as [-> ->]; rewrite <-Hr1; by split_and!).
  apply bind_inv in H as (r2 & a2 & [= <- <-] & H).
  apply bind_inv in H as (r3 & a3 & Hc%on_node_inv & H).
  unfold role_commit_hard_state, dispatch in Hc. rewrite <-Hr1 in Hc. simpl in Hc.
  apply at_role_inv in Hc as (m & Hc & Hm).
  apply commit_hard_state_spec in Hc as ([b' ->] & Hmv & _); [|done].
  apply leader_start_frame in H. eapply moves_then_same; [|exact H]. rewrite Hm.
  destruct Hmv as (Hh & Hp & Hi). by split_and!.
Qed.

Lemma process_step_inv env ev q r r' a :
  process_internal_events_step env ev q r = Some (r', a) →
  ∃ b, handle_internal_event env ev (r <| buffered_internal_event := q |>) = Some (r', b).
Proof.
  intros H. apply bind_inv in H as (r1 & a1 & [= <- <-] & H). revert H.
  unfold unless_fatal, attempt, mbind, proc_bind.
  destruct (handle_internal_event env ev _) as [[r2 b]|]; [|done].
  destruct b as [[]|e]; [|destruct (is_fatal e)]; intros [= <- <-]; eauto.
Qed.

(** The acknowledgements of peers only matter to a leader. *)
Lemma append_result_spec env id res r r' a :
  saves_ok env (node r) → handle_internal_event env (AppendResult id res) r = Some (r', a) →
  raises (node r) (node r').
Proof.
  intros Hok H. apply bind_inv in H as (r1 & a1 & Ha & H).
  assert (r' = r1) as -> by (destruct a1; [by injection H|by destruct H]).
  unfold attempt in Ha. destruct (on_node _ r) as [[r2 b]|] eqn:E; [|done]. injection Ha as <- <-.
  apply on_node_inv in E. revert E. unfold dispatch.
  destruct (state (node r)) as [s|s|s|s]; intros E; apply at_role_inv in E as (m & E & ->).
  1, 2, 4: injection E as <- <-; by apply raises_same.
  by apply handle_append_result_spec in E.
Qed.

Lemma not_cast C s v T : sim C s → einv V s → has_cast C v T = false → first_vote s !! (v, T) = None.
Proof.
  intros (_ & Hg & Hw & _) I Hc. destruct (first_vote s !! (v, T)) as [c|] eqn:E; [|done].
  apply bool_decide_eq_false in Hc. destruct Hc.
  destruct (i_noted V s I v T c E) as [H|H]; [right|left; by rewrite <-Hw].
  exists (v, T, c). by rewrite <-Hg.
Qed.

Lemma internal_sim C s v env ev q r' a :
  let n := node (nodes C v) in
  let C' := mkCluster (<[v := r']> (nodes C)) (votes C) (won C)
              (if takes_lead ev n then {[(v, term_at C v)]} ∪ elected C else elected C)
              (if clears_vote ev n && has_cast C v (term_at C v)
               then {[(v, term_at C v)]} ∪ forgotten C else forgotten C)
              (orderly C && (negb (takes_lead ev n) || bool_decide ((v, term_at C v) ∈ won C))) in
  sim C s → einv V s → saves_ok env n →
  process_internal_events_step env ev q (nodes C v) = Some (r', a) → orderly C' = true →
  ∃ s', rtc (estep V) s s' ∧ sim C' s'.
Proof.
  intros n C' Hsim I Hok H Ho. apply process_step_inv in H as [b H].
  pose proof Hsim as (Hh & Hg & Hw & Hl & Hf & Hp).
  assert (current_term (hs s v) = term_at C v) as Hcur by by rewrite Hh.
  destruct (touches_hard_state ev) eqn:Ht.
  2: { apply internal_event_frame in H; [|done]. assert (takes_lead ev n = false ∧ clears_vote ev n = false)
         as [E1 E2] by (unfold takes_lead, clears_vote; by destruct ev, (state n)).
       unfold C'. rewrite E1, E2. apply stays_sim; [done|]. by apply moves_same. }
  destruct ev as [l| | | | | | | |id res| | | | | | | | | | | |]; try done; simpl in H.
  - apply on_become_follower_spec in H; [|done]. simpl in H. fold n in H. unfold C'. simpl.
    destruct (state n) as [x|x|x|x] eqn:Es; [by apply stays_sim|..].
    all: destruct (has_cast C v (term_at C v)) eqn:Hc; simpl;
      [pose proof (e_forget V s v) as He
      |apply (not_cast C s) in Hc; [|done..]; rewrite <-Hcur in Hc; pose proof (e_clear V s v Hc) as He];
      rewrite Hcur, Hg, Hw, Hl, Hf in He; eexists; (split; [by apply rtc_once, He|]); by apply sim_move.
  - apply on_become_leader_spec in H; [|done]. simpl in H. fold n in H. unfold C' in *. simpl in *.
    destruct (state n) as [x|x|x|x] eqn:Es; try by apply stays_sim. simpl in *.
    apply andb_prop in Ho as [_ Ho%bool_decide_eq_true].
    destruct (Hp v) as [_ Hid]. fold n in Hid. rewrite Hid in H.
    pose proof (e_lead V s v) as He. cbv zeta in He. rewrite Hcur, Hg, Hw, Hl, Hf in He.
    eexists. split; [by apply rtc_once, He|]. by apply sim_move.
  - apply append_result_spec in H; [|done]. unfold C'. simpl. by apply raises_sim.
Qed.

Lemma inbound_sim C s v env ev r' a :
  let given := vote_given v ev (node (nodes C v)) (node r') in
  let C' := mkCluster (<[v := r']> (nodes C)) (given ∪ votes C) (won C) (elected C) (forgotten C)
              (orderly C && bool_decide (set_Forall (λ x, x.1 ∉ forgotten C) given)) in
  sim C s → saves_ok env (node (nodes C v)) → genuine C v ev →
  on_node (role_handle_inbound_event env ev) (nodes C v) = Some (r', a) → orderly C' = true →
  ∃ s', rtc (estep V) s s' ∧ sim C' s'.
Proof.
  intros given C' Hsim Hok Hgen H%on_node_inv Ho. pose proof Hsim as (Hh & Hg & Hw & Hl & Hf & Hp).
  unfold C' in *. clear C'.
  destruct (is_rpc_of_term ev) eqn:Ht.
  2: { apply inbound_event_frame in H; [|done]. assert (given = ∅) as -> by by destruct ev.
       rewrite (left_id_L ∅ (∪)). apply stays_sim; [done|]. by apply moves_same. }
  destruct ev as [req ch| | |req chs|stream ch| | |]; try done; simpl in *.
  - apply vote_spec in H; [|done]. unfold given in *. simpl in *.
    destruct (answered_yes _ _); [|rewrite (left_id_L ∅ (∪)); by apply raises_sim].
    destruct H as [Hmay Hm]. apply andb_prop in Ho as [_ Ho%bool_decide_eq_true].
    rewrite <-Hg, <-Hw, <-Hl, <-Hf in *. eexists.
    split; [apply rtc_once, (e_grant V s v (vr_candidate_id req) (vr_term req))|by apply sim_move].
    + done.
    + by rewrite Hh.
    + specialize (Ho (v, vr_term req, vr_candidate_id req)). simpl in Ho. apply Ho. set_solver.
  - unfold given. rewrite (left_id_L ∅ (∪)).
    apply role_append_spec in H as [H|[Hle H]]; [by apply raises_sim|by eapply follows_sim|done].
  - unfold given. rewrite (left_id_L ∅ (∪)).
    apply role_snapshot_spec in H as [H|(c & cs & -> & Hle & H)]; [by apply stays_sim| |done].
    by eapply follows_sim.
Qed.

(** Every step that keeps the cluster orderly is a sequence of steps of the protocol. *)
Lemma cstep_refines C C' s :
  sim C s → einv V s → cstep C C' → orderly C' = true → ∃ s', rtc (estep V) s s' ∧ sim C' s'.
Proof.
  intros Hsim I Hst Ho. destruct Hst as
    [v env ev r' a Hv Hok Hgen H|v env r' a Hv Hok Hview Hvf H|v env ev q r' a Hv Hok Hq H
    |v p r' a Hv Hk H|v fresh applied lg Hv].
  - by eapply inbound_sim.
  - by eapply tick_sim.
  - by eapply internal_sim.
  - apply stays_sim; [done|]. apply moves_same. by eapply Hk.
  - apply stays_sim; [done|]. destruct Hsim as (_ & _ & _ & _ & _ & Hp). destruct (Hp v) as [Hper Hid].
    split_and!; simpl; [unfold hs_of; by rewrite Hper|done|done].
Qed.

Lemma cinit_sim C : cinit C → ∃ s, sim C s ∧ einit s.
Proof.
  intros (Hv & Hw & He & Hf & Hn). exists (mkElect (hs_of C) ∅ ∅ ∅ ∅ ∅).
  split; [split_and!; simpl; try done; intros v; by destruct (Hn v) as (?&?&?)|].
  split_and!; try done. intros v. by destruct (Hn v) as (?&?&?).
Qed.

(** A run that ends orderly was orderly all along. *)
Lemma orderly_before C C' : rtc cstep C C' → orderly C' = true → orderly C = true.
Proof.
  induction 1 as [|C C1 C2 H1 _ IH]; [done|]. intros H%IH. destruct H1; simpl in H; try done;
    by apply andb_prop in H as [? _].
Qed.

Lemma rtc_refines C C' s :
  sim C s → einv V s → rtc cstep C C' → orderly C' = true → ∃ s', rtc (estep V) s s' ∧ sim C' s'.
Proof.
  intros Hs I Hr Ho. revert s Hs I. induction Hr as [C|C C1 C2 H1 Hr IH]; intros s Hs I; [by exists s|].
  destruct (cstep_refines C C1 s Hs I H1) as (s1 & Hr1 & Hs1); [by eapply orderly_before|].
  destruct (IH Ho s1 Hs1) as (s2 & Hr2 & Hs2); [by eapply esteps_inv|]. exists s2. split; [by etrans|done].
Qed.

Lemma reachable_sim C C' :
  cinit C → rtc cstep C C' → orderly C' = true → ∃ s, sim C' s ∧ einv V s.
Proof.
  intros Hi Hr Ho. destruct (cinit_sim C Hi) as (s & Hs & Hinit). apply (einit_inv V) in Hinit.
  destruct (rtc_refines C C' s Hs Hinit Hr Ho) as (s' & Hr' & Hs'). exists s'. split; [done|].
  by eapply esteps_inv.
Qed.

(** ** The quiet parts of the loop *)

(** Client commands, the flush of their buffers and the draining of the channels are
    steps of the cluster. *)
Lemma command_quiet env cmd :
  keeps same_loop_state (on_node (role_push_client_cmd env cmd))
  ∧ keeps same_loop_state (on_node (role_flush_cmd_buffers env)).
Proof.
  split; apply on_node_frame, dispatch_frame;
    try apply push_client_cmd_frame; try apply flush_cmd_buffers_frame;
    try unfold RoleState.push_client_cmd; solve_keeps.
Qed.

Lemma drain_quiet max :
  keeps same_loop_state (drain_internal_events max) ∧ keeps same_loop_state (drain_inbound_events max).
Proof. split; apply keeps_modify; intros r; by split_and!. Qed.

End cluster.
