(* ===== verification/Scenarios.v ===== *)
(** * Concrete nodes and environments

    A configuration, a membership, a state machine view and fresh nodes, to evaluate the
    handlers on concrete runs. *)

From stdpp Require Import base tactics numbers option list gmap strings.
From S2P Require Import Prelude Types Events ReadLease TermSegments BufferedLog Replication Election.
From S2P Require Import Proc Roles RoleState FollowerRoles LeaderState Leader LeaderEvents.
From S2P Require Import RaftLoop.

(** ** Running handlers on concrete nodes *)

Definition runs {S A} (p : proc S A) (s : S) : bool :=
  match p s with Some _ => true | None => false end.
Definition after {S A} (p : proc S A) (s : S) : S :=
  match p s with Some (s', _) => s' | None => s end.

Lemma runs_after {S A} (p : proc S A) s : runs p s = true → ∃ r, p s = Some (after p s, r).
Proof. unfold runs, after. destruct (p s) as [[s' r]|]; [|done]. by exists r. Qed.

(** A configuration, a membership of the voters [ids] without [self], and an
    environment at time [t] with given answers to a broadcast. *)
Definition ex_config : RaftConfig :=
  mkRaftConfig 100 50 200 1000 1000 0 false true LinearizableRead 0 0 0 10 1000 16 1000 100 1000.

Definition ex_meta (id : N) : NodeMeta := mkNodeMeta id "addr" (role_i32 NR_Follower) (status_i32 NS_Active).

Definition ex_membership (self : N) (ids : list N) : MembershipView :=
  let others := ex_meta <$> filter (λ id, id ≠ self) ids in
  mkMembershipView others others (nm_id <$> others) false (λ id, bool_decide (id ∈ ids))
    (λ _, Some NS_Active) (λ id, if bool_decide (id ∈ ids) then Some (ex_meta id) else None)
    (λ _, Some "addr") (λ _ _, true) 0 (λ l, mkClusterMembership 0 (ex_meta <$> ids) l)
    (λ id t v _ _, Ok (conf_success id t v)).

Definition ex_sm : StateMachineView :=
  mkStateMachineView 0 (λ _, Some []) (λ _, Ok ([], 0)) None (λ _, false) false (λ _, Ok tt)
    (λ _, Ok (IgnoredStale (mkLogId 0 0))).

Definition ex_env (self : N) (ids : list N) (t : N) (rs : list (option VoteResponse)) : Env :=
  mkEnv t (t + 500) (λ _, Ok tt) 0 (Some (Ok tt)) (Some tt) rs (λ _, false) ex_config
    (ex_membership self ids) ex_sm.

Definition ex_log : BufferedRaftLog := log_new 0 (Some []) None.

Definition ex_node (v : N) : Node RaftRole :=
  mkNode (shared_new v None None) (RFollower (Follower.new 100)) ex_log None [] [].

Definition ex_yes (t : N) : option VoteResponse := Some (mkVoteResponse t true 0 0).

(** Node 1 as the leader of term 2 among voters 1, 2, 3, before its no-op. *)
Definition ex_leader_node : Node LeaderState :=
  let h := mkHardState 2 (Some (mkVotedFor 1 2 true)) in
  mkNode (mkSharedState 1 h 0 1 ReadLease.new)
    (init_peers_next_index_and_match_index 0 [2; 3]
       (update_cluster_metadata (ex_membership 1 [1; 2; 3])
          (leader_from_candidate 100 50 (mkCandidateState 600 None))))
    ex_log (Some h) [] [].

Definition ex_write (k : N) : ClientWriteRequest := mkClientWriteRequest 1 (Some [k]).

(** An acknowledgement of everything up to [i] in term 2. *)
Definition ex_ack (id i : N) : result AppendEntriesResponse :=
  Ok (mkAppendEntriesResponse id 2 (Some (Success (mkSuccessResult (Some (mkLogId 2 i)))))).
