(* ===== verification/ElectionProps.v ===== *)
(** * Election: properties

    Election safety and the durability of votes, with the runs that show what the code
    does where its timing or bookkeeping falls short of its comments. *)

From stdpp Require Import base tactics numbers option list gmap strings functions.
From S2P Require Import Prelude Types Events ReadLease TermSegments BufferedLog Replication Election.
From S2P Require Import Proc Roles RoleState FollowerRoles LeaderState Leader LeaderEvents.
From S2P Require Import RaftLoop ProcLogic HardStateSpec ElectionSpec ElectionSafety Scenarios.



(** The vote responses of candidates, leaders and learners refuse, whatever the disk does. *)
Definition refuses {R} (n n' : Node R) : Prop :=
  ∃ l, sent n' = sent n ++ l
       ∧ existsb (λ p, match p.2 with RVote r => vresp_vote_granted r | _ => false end) l = false.

#[global] Instance refuses_preorder {R} : PreOrder (refuses (R := R)).
Proof.
  split; [intros n; exists []; by rewrite app_nil_r|].
  intros n1 n2 n3 (l1 & H1 & Hl1) (l2 & H2 & Hl2). exists (l1 ++ l2).
  by rewrite H2, H1, <-app_assoc, existsb_app, Hl1, Hl2.
Qed.

Lemma refuses_commit {R} `{!RaftRoleState R} env t v : keeps refuses (commit_hard_state (R := R) env t v).
Proof.
  intros n n' r H. apply commit_hard_state_cases in H as (_ & Hs & _). exists [].
  by rewrite app_nil_r.
Qed.

Lemma refuses_emit {R} ev : keeps refuses (emit (R := R) ev).
Proof. intros n n' r [= <- <-]. exists []. by rewrite app_nil_r. Qed.

Lemma refuses_reply {R} ch t i lt : keeps refuses (reply (R := R) ch (RVote (mkVoteResponse t false i lt))).
Proof. intros n n' r [= <- <-]. by eexists. Qed.

Lemma refuses_shared {R} f : keeps refuses (set_shared (R := R) f).
Proof. intros n n' r [= <- <-]. exists []. by rewrite app_nil_r. Qed.

#[local] Hint Resolve refuses_emit refuses_reply refuses_shared : keeps.
#[local] Hint Extern 1 (keeps refuses (commit_hard_state _ _ _)) => (apply refuses_commit) : keeps.

Lemma candidate_refuses env req ch : keeps refuses (Candidate.receive_vote_request env req ch).
Proof.
  unfold Candidate.receive_vote_request, Candidate.send_become_follower_event,
    Candidate.send_replay_inbound_event. solve_keeps.
Qed.

Lemma leader_refuses env req ch : keeps refuses (LeaderEvents.receive_vote_request env req ch).
Proof. unfold LeaderEvents.receive_vote_request. solve_keeps. Qed.

Lemma learner_refuses env req ch : keeps refuses (Learner.receive_vote_request env req ch).
Proof. unfold Learner.receive_vote_request. solve_keeps. Qed.

(** A recorded vote that a restart would find is on disk. *)
Lemma saved_vote {R} (n : Node R) t vf :
  persisted n → hard_state (shared n) = mkHardState t (Some vf) → saved n = Some (mkHardState t (Some vf)).
Proof. unfold persisted. intros -> H. by destruct (saved n); simpl in H; simplify_eq. Qed.


(** ** Steps that can be evaluated *)

Section steps.
Context (V : list N).

Definition inbound_to (v : N) (env : Env) (ev : InboundEvent) (C : Cluster) : Cluster :=
  let r' := after (on_node (role_handle_inbound_event env ev)) (nodes C v) in
  let given := vote_given v ev (node (nodes C v)) (node r') in
  mkCluster (<[v := r']> (nodes C)) (given ∪ votes C) (won C) (elected C) (forgotten C)
    (orderly C && bool_decide (set_Forall (λ x, x.1 ∉ forgotten C) given)).

Definition tick_at (v : N) (env : Env) (C : Cluster) : Cluster :=
  let r' := after (on_node (role_tick env)) (nodes C v) in
  mkCluster (<[v := r']> (nodes C)) (votes C) (round_won v (node (nodes C v)) (node r') ∪ won C)
    (elected C) (forgotten C) (orderly C).

(** The channel is drained and the event that arrives first is handled. *)
Definition drain_at (v : N) (C : Cluster) : Cluster :=
  keeping C v (after (drain_internal_events 8) (nodes C v)) (orderly C).

Definition internal_at (v : N) (env : Env) (C : Cluster) : Cluster :=
  match buffered_internal_event (nodes C v) with
  | [] => C
  | ev :: q =>
      let n := node (nodes C v) in
      mkCluster (<[v := after (process_internal_events_step env ev q) (nodes C v)]> (nodes C))
        (votes C) (won C)
        (if takes_lead ev n then {[(v, term_at C v)]} ∪ elected C else elected C)
        (if clears_vote ev n && has_cast C v (term_at C v)
         then {[(v, term_at C v)]} ∪ forgotten C else forgotten C)
        (orderly C && (negb (takes_lead ev n) || bool_decide ((v, term_at C v) ∈ won C)))
  end.

Lemma inbound_to_step v env ev C :
  v ∈ V → saves_ok env (node (nodes C v)) → genuine C v ev →
  runs (on_node (role_handle_inbound_event env ev)) (nodes C v) = true →
  cstep V C (inbound_to v env ev C).
Proof. intros ? ? ? [r Hr]%runs_after. by eapply c_inbound. Qed.

Lemma tick_at_step v env C :
  v ∈ V → saves_ok env (node (nodes C v)) → election_view V env v →
  votes_from V C env v (term_at C v + 1) → runs (on_node (role_tick env)) (nodes C v) = true →
  cstep V C (tick_at v env C).
Proof. intros ? ? ? ? [r Hr]%runs_after. by eapply c_tick. Qed.

Lemma drain_at_step v C : v ∈ V → cstep V C (drain_at v C).
Proof.
  intros Hv. eapply (c_quiet V C v (drain_internal_events 8)); [done| |done].
  apply drain_quiet.
Qed.

Definition internal_ready (v : N) (env : Env) (C : Cluster) : bool :=
  match buffered_internal_event (nodes C v) with
  | [] => false
  | ev :: q => runs (process_internal_events_step env ev q) (nodes C v)
  end.

Lemma internal_at_step v env C :
  v ∈ V → saves_ok env (node (nodes C v)) → internal_ready v env C = true →
  cstep V C (internal_at v env C).
Proof.
  intros Hv Hok. unfold internal_ready, internal_at.
  destruct (buffered_internal_event (nodes C v)) as [|ev q] eqn:Hq; [done|].
  intros [r Hr]%runs_after. by eapply c_internal.
Qed.

End steps.

(** ** A concrete election

    Voters 1, 2, 3: node 2 votes for node 1 in term 2; node 1 times out, turns candidate,
    wins its round and takes up the leadership. *)

Definition ex_voters : list N := [1; 2; 3].

Definition ex_raft (n : Node RaftRole) : Raft := mkRaft n [] [] [] [] [] None.

Definition ex_fresh : Cluster := mkCluster (λ v, ex_raft (ex_node v)) ∅ ∅ ∅ ∅ true.

(** Node [u] is asked by [c] for its vote in term [t]. *)
Definition ex_ask (u c t : N) : Cluster → Cluster :=
  inbound_to u (ex_env u ex_voters 50 []) (ReceiveVoteRequest (mkVoteRequest t c 0 0) 7).

(** Node [v] ticks at time [t] with the answers [rs]; it handles the next event. *)
Definition ex_tick (v t : N) (rs : list (option VoteResponse)) : Cluster → Cluster :=
  tick_at v (ex_env v ex_voters t rs).
Definition ex_next (v t : N) (C : Cluster) : Cluster :=
  internal_at v (ex_env v ex_voters t []) (drain_at v C).

Definition ex_asked : Cluster := ex_ask 2 1 2 ex_fresh.
Definition ex_candidate : Cluster := ex_next 1 100 (ex_tick 1 100 [] ex_asked).
Definition ex_won : Cluster := ex_tick 1 700 [ex_yes 1; None] ex_candidate.
Definition ex_led : Cluster := ex_next 1 700 ex_won.

Lemma ex_ask_step u c t C :
  u ∈ ex_voters → c ≠ u → poisoned (raft_log (node (nodes C u))) = false →
  runs (on_node (role_handle_inbound_event (ex_env u ex_voters 50 [])
                   (ReceiveVoteRequest (mkVoteRequest t c 0 0) 7))) (nodes C u) = true →
  rtc (cstep ex_voters) C (ex_ask u c t C).
Proof. intros. apply rtc_once, inbound_to_step; try done. Qed.

Lemma ex_next_step v t C :
  v ∈ ex_voters → poisoned (raft_log (node (nodes (drain_at v C) v))) = false →
  internal_ready v (ex_env v ex_voters t []) (drain_at v C) = true →
  rtc (cstep ex_voters) C (ex_next v t C).
Proof.
  intros. eapply rtc_l; [by apply (drain_at_step ex_voters v)|].
  apply rtc_once, internal_at_step; done.
Qed.

Lemma ex_view v t rs : v ∈ ex_voters → election_view ex_voters (ex_env v ex_voters t rs) v.
Proof.
  intros Hv. split; [done|]. intros u. unfold ex_env, ex_membership. simpl mv_voters.
  rewrite <-list_fmap_compose. change (nm_id ∘ ex_meta) with (id (A := N)).
  rewrite list_fmap_id, list_elem_of_filter. tauto.
Qed.

(** A tick of [v] whose granted answers come from the voters [S]. *)
Lemma ex_tick_step v t rs S C :
  v ∈ ex_voters → poisoned (raft_log (node (nodes C v))) = false →
  bool_decide (NoDup S ∧ S ⊆ ex_voters ∧ (v ∉ S) ∧ length S = yes_votes rs
               ∧ Forall (λ u, (u, term_at C v + 1, v) ∈ votes C) S) = true →
  runs (on_node (role_tick (ex_env v ex_voters t rs))) (nodes C v) = true →
  rtc (cstep ex_voters) C (ex_tick v t rs C).
Proof.
  intros Hv Hp (? & ? & ? & ? & HS)%bool_decide_eq_true Hr.
  apply rtc_once, tick_at_step; [done|done|by apply ex_view| |done].
  exists S. split_and!; try done. by apply list.Forall_forall.
Qed.

Lemma ex_cinit : cinit ex_fresh.
Proof. split_and!; done. Qed.

Lemma ex_run : rtc (cstep ex_voters) ex_fresh ex_led.
Proof.
  etrans; [|apply ex_next_step; [set_solver|by vm_compute|by vm_compute]].
  etrans; [|apply (ex_tick_step 1 700 [ex_yes 1; None] [2]); [set_solver|by vm_compute..]].
  etrans; [|apply ex_next_step; [set_solver|by vm_compute|by vm_compute]].
  etrans; [|apply (ex_tick_step 1 100 [] []); [set_solver|by vm_compute..]].
  apply ex_ask_step; [set_solver|done|by vm_compute|by vm_compute].
Qed.



Definition ex_vote1 : proc (Node RaftRole) unit :=
  role_handle_inbound_event (ex_env 2 ex_voters 100 []) (ReceiveVoteRequest (mkVoteRequest 2 1 0 0) 7).


(** * Election: runs that depart from the comments

    Concrete runs of the handlers, evaluated by computation, in which timing or
    bookkeeping leads to a state the comments exclude. *)

Definition term_of (n : Node RaftRole) : N := current_term (hard_state (shared n)).
Definition is_leader (n : Node RaftRole) : bool :=
  match state n with RLeader _ => true | _ => false end.

Definition ex_cand (v : N) : Node RaftRole := after (become_candidate (ex_env v ex_voters 0 [])) (ex_node v).

(** ** A stale [BecomeLeader]

    The loop prefers the election timer to its event queue and [BecomeLeader] carries no
    term. When the round that won lasted longer than the election timeout, the next tick
    starts (and loses) a round in the following term before the event is handled, and
    the node leads a term in which it got no vote. *)

(** Node 1 wins term 2 with node 2's vote, ticks again without an answer, then handles
    [BecomeLeader]. *)
Definition slow_winner : Cluster :=
  ex_next 1 1200 (ex_tick 1 1200 [None; None] (ex_tick 1 600 [ex_yes 1; None] ex_candidate)).

(** Node 3 raised its term to 2 in a lost round and wins term 3 with node 2's vote. *)
Definition fast_winner : Cluster :=
  ex_next 3 1200 (ex_tick 3 1200 [None; ex_yes 2] (ex_ask 2 3 3
    (ex_tick 3 600 [None; None] (ex_next 3 100 (ex_tick 3 100 [] slow_winner))))).

(** Term 3 has two leaders: a run of the cluster that is not orderly. *)
Theorem stale_become_leader_elects_twice :
  rtc (cstep ex_voters) ex_fresh fast_winner ∧ orderly fast_winner = false
  ∧ (1, 3) ∈ elected fast_winner ∧ (3, 3) ∈ elected fast_winner
  ∧ is_leader (node (nodes fast_winner 1)) = true ∧ term_at fast_winner 1 = 3
  ∧ is_leader (node (nodes fast_winner 3)) = true ∧ term_at fast_winner 3 = 3.
Proof.
  split_and!; try (apply (bool_decide_unpack _); by vm_compute); try by vm_compute.
  etrans; [|apply ex_next_step; [set_solver|by vm_compute..]].
  etrans; [|apply (ex_tick_step 3 1200 [None; ex_yes 2] [2]); [set_solver|by vm_compute..]].
  etrans; [|apply ex_ask_step; [set_solver|done|by vm_compute..]].
  etrans; [|apply (ex_tick_step 3 600 [None; None] []); [set_solver|by vm_compute..]].
  etrans; [|apply ex_next_step; [set_solver|by vm_compute..]].
  etrans; [|apply (ex_tick_step 3 100 [] []); [set_solver|by vm_compute..]].
  etrans; [|apply ex_next_step; [set_solver|by vm_compute..]].
  etrans; [|apply (ex_tick_step 1 1200 [None; None] []); [set_solver|by vm_compute..]].
  etrans; [|apply (ex_tick_step 1 600 [ex_yes 1; None] [2]); [set_solver|by vm_compute..]].
  etrans; [|apply ex_next_step; [set_solver|by vm_compute..]].
  etrans; [|apply (ex_tick_step 1 100 [] []); [set_solver|by vm_compute..]].
  apply ex_ask_step; [set_solver|done|by vm_compute..].
Qed.

(** ** The vote is cleared within a term

    [BecomeFollower] clears the vote, commented as a new term without a vote. A leader
    that gives up because its no-op is not confirmed in time stays in its term. *)

Definition ex_lead (v : N) : Raft :=
  after (on_node (role_tick (ex_env v ex_voters 600 [ex_yes 1; None]));;
         handle_internal_event (ex_env v ex_voters 600 []) BecomeLeader) (ex_raft (ex_cand v)).

Theorem noop_timeout_clears_vote_in_term :
  let stepped := after (on_node (role_tick (ex_env 1 ex_voters 100000 []));;
                        handle_internal_event (ex_env 1 ex_voters 100000 []) (BecomeFollower None))
                   (ex_lead 1) in
  hard_state (shared (node (ex_lead 1))) = mkHardState 2 (Some (mkVotedFor 1 2 true))
  ∧ hard_state (shared (node stepped)) = mkHardState 2 None.
Proof. split; by vm_compute. Qed.

(** ** A denial from an equal log ends a won election

    Node 1 asks nodes 2 to 5. Three grant, the fourth refuses with a log equal to the
    candidate's: the round fails with [LogConflict], although four of five voted for it. *)

Theorem equal_log_denial_ends_won_election :
  let peers := ex_meta <$> [2; 3; 4; 5] in
  is_majority 4 5 = true
  ∧ broadcast_vote_requests 1 7 false peers (Some (mkLogId 4 9))
      [ex_yes 7; ex_yes 7; ex_yes 7; Some (mkVoteResponse 7 false 9 4)]
    = Err (LogConflict 9 4 4).
Proof. by vm_compute. Qed.

(** ** A failed save, then a silent grant

    [commit_hard_state] changes the vote in memory before it is saved. The first request
    fails with the meta store and is not answered. The error is not fatal, so the loop goes
    on with its inbound events before it meets the [FatalError] of the poisoned log: the
    same request again finds nothing to change and is granted, while the disk holds no
    vote. *)

Definition broken_disk (e : Env) : Env :=
  mkEnv (now e) (fresh_deadline e) (λ _, Err IoError) (io_done e) (io_reply e)
    (purge_reply e) (vote_responses e) (worker_dead e) (config e) (membership e) (sm e).

Theorem unsaved_vote_granted_on_retry :
  let req := mkVoteRequest 2 1 0 0 in
  let r := mkRaft (ex_node 2) [] [ReceiveVoteRequest req 7; ReceiveVoteRequest req 8] [] [] [] None in
  let r' := after (process_inbound_events 2 (λ _, broken_disk (ex_env 2 ex_voters 100 []))) r in
  sent (node r') = [(8, RVote (mkVoteResponse 2 true 0 0))] ∧ saved (node r') = None
  ∧ poisoned (raft_log (node r')) = true.
Proof. split_and!; by vm_compute. Qed.

(** ** An old vote blocks a new term

    A request of a higher term that is refused because of its log raises the voter's term
    and leaves its vote of the old term. In the new term every candidate is refused: the
    vote is compared by term and id, not by its age. *)

Theorem old_vote_blocks_new_term :
  let last := Some (mkLogId 2 5) in
  let vf := Some (mkVotedFor 1 2 false) in
  handle_vote_request (mkVoteRequest 3 1 4 2) 2 vf last = mkStateUpdate (Some 3) None
  ∧ ∀ c i t, handle_vote_request (mkVoteRequest 3 c i t) 3 vf last = mkStateUpdate None None.
Proof.
  split; [by vm_compute|]. intros c i t. unfold handle_vote_request. simpl.
  by destruct (negb _).
Qed.
