(* ===== verification/LeaderProgress.v ===== *)
(** * Progress of the peers and the commit index

    What the leader's handlers do to [next_index], [match_index] and the commit index:
    acknowledged progress is never lost, the next index stays above the match index, and
    a commit index taken from acknowledgements of every voter has a majority behind it. *)

From stdpp Require Import base tactics numbers option list gmap strings.
From S2P Require Import Prelude Types Events ReadLease TermSegments BufferedLog LogSpec Replication Election.
From S2P Require Import Proc Roles RoleState LeaderState Leader LeaderEvents RaftLoop ProcLogic HardStateSpec.
Import Leader LeaderEvents.

(** ** Quorums *)

(** The voters among the replication targets. *)
Definition voter_ids (l : LeaderState) : list N :=
  nm_id <$> filter (λ m, negb (nm_role m =? role_i32 NR_Learner))
              (replication_targets (cluster_metadata l)).

Definition matched (l : LeaderState) (id : N) : N := default 0 (match_index l !! id).

(** By the leader's records a majority of the voters has [c]: its own last entry and the
    match indexes it has recorded for the peers. *)
Definition quorum_holds (n : Node LeaderState) (c : N) : bool :=
  is_majority (N.of_nat (supporters c (last_entry_id (mem (raft_log n)) :: (matched (state n) <$> voter_ids (state n)))))
    (N.of_nat (S (length (voter_ids (state n))))).

(** Every voter has acknowledged something. *)
Definition voters_known (l : LeaderState) : Prop :=
  NoDup (voter_ids l) ∧ ∀ id, id ∈ voter_ids l → is_Some (match_index l !! id).

Lemma elem_of_voter_ids l id : id ∈ voter_ids l ↔ is_voter_target (cluster_metadata l) id = true.
Proof.
  unfold voter_ids, is_voter_target. rewrite existsb_exists, list_elem_of_fmap. split.
  - intros (m & -> & [Hr Hm]%list_elem_of_filter). exists m. split; [by apply list_elem_of_In|].
    rewrite N.eqb_refl. by destruct (negb _).
  - intros (m & Hm & [Hid Hr]%andb_prop). exists m. split; [by apply N.eqb_eq in Hid|].
    apply list_elem_of_filter. split; [by rewrite Hr|by apply list_elem_of_In].
Qed.

Lemma matched_ids_voters l : voters_known l → matched_ids l ≡ₚ matched l <$> voter_ids l.
Proof.
  intros [Hnd Hk].
  assert (matched l <$> voter_ids l = ((λ id, (id, matched l id)) <$> voter_ids l).*2) as ->
    by (rewrite <-list_fmap_compose; done).
  apply fmap_Permutation, NoDup_Permutation.
  - apply NoDup_filter, NoDup_map_to_list.
  - apply NoDup_fmap_2; [intros ?? [=]; done|done].
  - intros [id m]. rewrite list_elem_of_filter, elem_of_map_to_list, list_elem_of_fmap. simpl. split.
    + intros [Hv Hm]. exists id. unfold matched. rewrite Hm.
      split; [done|]. apply elem_of_voter_ids. by destruct (is_voter_target _ _).
    + intros (id' & [= -> ->] & Hv). destruct (Hk id' Hv) as [m' Hm'].
      unfold matched. rewrite Hm'. split; [|done]. apply elem_of_voter_ids in Hv. by rewrite Hv.
Qed.

(** A new commit index computed from acknowledgements of every voter. *)
Lemma new_commit_quorum (n : Node LeaderState) c :
  voters_known (state n) →
  calculate_new_commit_index (state n) (shared n) (mem (raft_log n)) = Some (Some c) →
  commit_index (shared n) < c ∧ quorum_holds n c = true.
Proof.
  intros Hk. unfold calculate_new_commit_index, calculate_majority_matched_index.
  set (ids := matched_ids (state n) ++ [last_entry_id (mem (raft_log n))]).
  destruct (majority_index_spec ids) as (k & -> & Hmaj & _); [by destruct (matched_ids (state n))|].
  simpl. case_bool; [done|]. destruct (entry _ k) as [e|]; [|done]. simpl.
  destruct (e_term e =? _); [|done]. simpl. case_bool; [|done]. intros [= <-].
  split; [done|]. unfold quorum_holds, is_majority. apply N.ltb_lt.
  assert (ids ≡ₚ last_entry_id (mem (raft_log n)) :: (matched (state n) <$> voter_ids (state n))) as Hp.
  { unfold ids. rewrite (matched_ids_voters _ Hk). by rewrite Permutation_app_comm. }
  rewrite (supporters_perm _ _ _ Hp), (Permutation_length Hp) in Hmaj. simpl in Hmaj.
  rewrite length_fmap in Hmaj. apply N.Div0.div_lt_upper_bound; lia.
Qed.

(** ** The leader's handlers *)

(** The reply channels a command or event brings. *)
Definition cmd_senders (c : ClientCmd) : list N :=
  match c with Propose _ ch | Read _ ch | Scan _ ch => [ch] end.

Definition inbound_senders (ev : InboundEvent) : list N :=
  match ev with
  | ReceiveVoteRequest _ ch | ClusterConf ch | ClusterConfUpdate _ ch | InstallSnapshotChunk _ ch
  | JoinCluster _ ch | DiscoverLeader ch => [ch]
  | AppendEntries _ chs => chs
  | InboundFatalError _ _ => []
  end.

(** What the loop runs on a leader, with the reply channels it hands over. *)
Inductive leader_handler (env : Env) : list N → proc (Node LeaderState) unit → Prop :=
  | lh_tick : leader_handler env [] (tick env)
  | lh_inbound ev : leader_handler env (inbound_senders ev) (handle_inbound_event env ev)
  | lh_cmd c : leader_handler env (cmd_senders c) (push_client_cmd env c)
  | lh_flush : leader_handler env [] (flush_cmd_buffers env)
  | lh_noop : leader_handler env [] (initiate_noop_commit env)
  | lh_log_flushed d : leader_handler env [] (handle_log_flushed env d)
  | lh_append_result id r : leader_handler env [] (handle_append_result env id r)
  | lh_apply i rs : leader_handler env [] (handle_apply_completed env i rs)
  | lh_stream_error id : leader_handler env [] (set_state (handle_peer_stream_error id))
  | lh_push id b i : leader_handler env [] (finish_snapshot_push env id b i)
  | lh_create_snapshot : leader_handler env [] (handle_create_snapshot env)
  | lh_snapshot_created r : leader_handler env [] (handle_snapshot_created env r)
  | lh_purged id : leader_handler env [] (handle_log_purge_completed id)
  | lh_membership : leader_handler env [] (handle_membership_applied env)
  | lh_promote : leader_handler env [] (handle_promote_ready_learners env)
  | lh_self_removed : leader_handler env [] handle_self_removed.

(** Unfold a handler down to its state updates and split it. *)
Ltac leader_keeps :=
  unfold tick, check_and_purge_stale_front, handle_stale_learner, expire_writes, expire_reads,
    expire_lease_reads, expire_commit_actions, handle_inbound_event, receive_vote_request,
    receive_append_entries, receive_conf_update, fatal_error, fatal_inbound, handle_join_cluster,
    push_client_cmd, flush_cmd_buffers, unified_write_and_linear_read, send_heartbeat_or_batch,
    initiate_noop_commit, handle_log_flushed, handle_append_result, step_down_for_term,
    check_learner_progress, enqueue_and_notify_promotions, voter_acknowledged, advance_commit,
    handle_apply_completed, check_and_trigger_snapshot, finish_snapshot_push, handle_create_snapshot,
    handle_snapshot_created, handle_log_purge_completed, handle_membership_applied,
    handle_promote_ready_learners, safe_batch_promote, handle_self_removed,
    update_commit_index_with_signal, my_term, drain_pending_client_writes, drain_commit_actions,
    fire_commit_action, on_noop_committed, send_join_success, drain_pending_writes_with_error,
    drain_pending_lease_reads, serve_pending_reads, execute_pending_reads, take_proposals,
    execute_request_immediately, process_batch, emit, reply, reply_all, set_state, set_shared;
  solve_keeps.

(** ** Progress *)

Definition next_above (l : LeaderState) : Prop :=
  ∀ id m, match_index l !! id = Some m → ∃ k, next_index l !! id = Some k ∧ m < k.

(** Match indexes only grow, next indexes stay above them. *)
Definition advances (l l' : LeaderState) : Prop :=
  (∀ id, matched l id <= matched l' id) ∧ (next_above l → next_above l').

Definition progress (n n' : Node LeaderState) : Prop :=
  advances (state n) (state n') ∧ commit_index (shared n) <= commit_index (shared n').

#[global] Instance advances_preorder : PreOrder advances.
Proof.
  split; [by intros l; split|]. intros l1 l2 l3 [H1 H2] [H3 H4].
  split; [intros id; etrans; [apply H1|apply H3]|auto].
Qed.

#[global] Instance progress_preorder : PreOrder progress.
Proof.
  split; [by intros n; split|]. intros n1 n2 n3 [H1 H2] [H3 H4]. split; by etrans.
Qed.

Lemma advances_same l l' :
  match_index l' = match_index l → next_index l' = next_index l → advances l l'.
Proof. intros Hm Hn. unfold advances, matched, next_above. by rewrite Hm, Hn. Qed.

Lemma update_next_index_advances id k l : advances l (update_next_index id k l).
Proof.
  split; [done|]. intros H j m Hj. unfold update_next_index. simpl.
  destruct (decide (id = j)) as [->|Hne].
  - rewrite lookup_insert_eq. eexists. split; [done|]. simpl in Hj. rewrite Hj. simpl. lia.
  - rewrite lookup_insert_ne by done. by apply H.
Qed.

(** Raising the match index of a peer below its next index. *)
Lemma update_match_index_advances id m l :
  (∀ k, next_index l !! id = Some k → m < k) → is_Some (next_index l !! id) →
  advances l (update_match_index id m l).
Proof.
  intros Hlt [k Hk]. specialize (Hlt k Hk). unfold update_match_index. case_bool; [|done]. split.
  - intros j. unfold matched. simpl. destruct (decide (id = j)) as [->|Hne].
    + rewrite lookup_insert_eq. simpl. lia.
    + by rewrite lookup_insert_ne.
  - intros Hn j i. simpl. destruct (decide (id = j)) as [->|Hne].
    + rewrite lookup_insert_eq. intros [= <-]. by exists k.
    + rewrite lookup_insert_ne by done. apply Hn.
Qed.

Lemma update_match_index_0 id l : update_match_index id 0 l = l.
Proof. unfold update_match_index. case_bool; [lia|done]. Qed.

Lemma init_peers_advances last ids l : advances l (init_peers_next_index_and_match_index last ids l).
Proof.
  unfold init_peers_next_index_and_match_index. revert l. induction ids as [|id ids IH]; intros l; [done|].
  simpl. rewrite update_match_index_0. etrans; [apply (update_next_index_advances id (last + 1))|apply IH].
Qed.

(** An update that reports a match index reports the next one after it. *)
Definition sound_update (u : PeerUpdate) : Prop :=
  ∀ m, pu_match_index u = Some m → pu_success u = true ∧ pu_next_index u = m + 1.

Lemma update_peer_index_advances id u l : sound_update u → advances l (update_peer_index id u l).
Proof.
  intros Hu. unfold update_peer_index.
  assert (∀ k st, advances l (set_peer_replication_state id st (update_next_index id k l))) as Hnext.
  { intros k st. etrans; [apply (update_next_index_advances id k)|by apply advances_same]. }
  destruct (pu_match_index u) as [m|] eqn:Hm; [|by destruct (pu_success u)].
  destruct (Hu m Hm) as [-> ->]. etrans; [apply Hnext|].
  apply update_match_index_advances; simpl; rewrite lookup_insert_eq; [|by eexists].
  intros k [= <-]. lia.
Qed.

Lemma interpret_response_sound id resp t l m u :
  interpret_response id resp t l m = Ok (Some (inl u)) → sound_update u.
Proof.
  unfold interpret_response, handle_success_response, handle_conflict_response.
  destruct (resp_result resp) as [[s|c|t']|]; [| |simpl; case_bool; done|done].
  - case_bool; [done|]. intros [= <-] m' [= <-]. done.
  - intros [= <-] m' [=].
Qed.

Lemma handle_peer_stream_error_advances id l : advances l (handle_peer_stream_error id l).
Proof.
  unfold handle_peer_stream_error. case_decide; [done|].
  etrans; [apply update_next_index_advances|by apply advances_same].
Qed.

Lemma handle_snapshot_push_completed_advances id b c t l :
  advances l (handle_snapshot_push_completed id b c t l).
Proof.
  unfold handle_snapshot_push_completed. destruct (negb _); [done|].
  destruct (replication_workers l !! id); [|done]. by apply advances_same.
Qed.

Lemma progress_state (n : Node LeaderState) l : advances (state n) l → progress n (n <| state := l |>).
Proof. by split. Qed.

#[global] Hint Extern 1 (progress _ _) => (split; [by apply advances_same|reflexivity]) : keeps.
#[local] Hint Resolve progress_state update_next_index_advances init_peers_advances
  handle_peer_stream_error_advances handle_snapshot_push_completed_advances : keeps.

Section progress.
Context (env : Env).

Lemma renew_lease_progress ts : keeps progress (renew_lease env ts).
Proof.
  intros n n' r. unfold renew_lease, update_lease_timestamp.
  destruct (ReadLease.renew _ _); [|done]. intros [= <- <-]. by split.
Qed.

Lemma new_commit_index_progress : keeps progress new_commit_index.
Proof.
  intros n n' r. unfold new_commit_index. destruct (calculate_new_commit_index _ _ _); [|done].
  by intros [= <- <-].
Qed.

Lemma commit_hard_state_progress t v : keeps progress (commit_hard_state (R := LeaderState) env t v).
Proof.
  intros n n' r H. apply commit_hard_state_frame in H as (Hs & _ & _ & Hc & _).
  unfold progress. by rewrite Hs, Hc.
Qed.

Lemma dispatch_append_progress r : keeps progress (dispatch_append env r).
Proof.
  destruct r as [[id req] k]. unfold dispatch_append. apply keeps_get_bind. intros n.
  destruct (decide _); [solve_keeps|]. apply keeps_modify. intros n'. apply progress_state.
  etrans; [apply update_next_index_advances|by apply advances_same].
Qed.

Lemma dispatch_snapshot_progress m id : keeps progress (dispatch_snapshot env m id).
Proof. unfold dispatch_snapshot, set_state. cbv zeta. solve_keeps. Qed.

#[local] Hint Resolve renew_lease_progress new_commit_index_progress commit_hard_state_progress
  dispatch_append_progress dispatch_snapshot_progress : keeps.

Lemma execute_progress ps w rs : keeps progress (execute_and_process_raft_rpc env ps w rs).
Proof.
  unfold execute_and_process_raft_rpc, reject_batch, register_writes, route_reads, enqueue_reads,
    execute_pending_reads, reply_all, reply, set_state. solve_keeps.
Qed.

#[local] Hint Resolve execute_progress : keeps.

Lemma process_lease_queue_progress q : keeps progress (process_lease_queue env q).
Proof.
  induction q as [|[req sender] q IH]; simpl; [solve_keeps|].
  apply keeps_bind; [apply _|unfold set_state; solve_keeps|intros _]. apply keeps_bind; [apply _| |done].
  unfold process_lease_read, reply, set_state. solve_keeps.
Qed.

#[local] Hint Resolve process_lease_queue_progress : keeps.

Lemma update_commit_progress c : keeps progress (modify (S := Node LeaderState) (λ n, n <| shared ::= update_commit_index (R := LeaderState) c |>)).
Proof.
  apply keeps_modify. intros n. split; [done|]. simpl. case_bool; simpl; lia.
Qed.
#[local] Hint Resolve update_commit_progress : keeps.

Lemma serve_pending_reads_progress u : keeps progress (serve_pending_reads env u).
Proof. unfold serve_pending_reads, execute_pending_reads, reply, set_state. solve_keeps. Qed.

Lemma advance_commit_progress c : keeps progress (advance_commit env c).
Proof. unfold advance_commit. leader_keeps. Qed.

Lemma my_term_progress : keeps progress (my_term (R := LeaderState)).
Proof. unfold my_term. solve_keeps. Qed.

Lemma purge_progress li lp : keeps progress (schedule_and_execute_purge (R := LeaderState) env li lp).
Proof. unfold schedule_and_execute_purge, execute_pending_purge, emit, set_state. solve_keeps. Qed.

#[local] Hint Resolve serve_pending_reads_progress advance_commit_progress my_term_progress
  purge_progress : keeps.
#[local] Hint Extern 2 (progress _ (_ <| state ::= _ |>)) => (apply progress_state) : keeps.

Lemma handle_append_result_progress id res : keeps progress (handle_append_result env id res).
Proof.
  unfold handle_append_result. apply keeps_get_bind. intros n. destruct res as [resp|e]; [|solve_keeps].
  destruct (_ <? _); [solve_keeps|]. destruct (_ <? _); [leader_keeps|].
  destruct (interpret_response _ _ _ _ _) as [[[u|t]|]|e] eqn:Hi; [|leader_keeps|solve_keeps..].
  apply interpret_response_sound in Hi. apply keeps_bind; [apply _| |leader_keeps].
  apply keeps_modify. intros n'. apply progress_state, update_peer_index_advances, Hi.
Qed.

Lemma handle_promote_progress : keeps progress (handle_promote_ready_learners env).
Proof. unfold handle_promote_ready_learners, drain_batch. leader_keeps. Qed.

#[local] Hint Resolve handle_append_result_progress handle_promote_progress : keeps.

Lemma leader_handler_progress chs p : leader_handler env chs p → keeps progress p.
Proof. intros []; try solve [eauto with keeps]; leader_keeps. Qed.

End progress.

(** ** Commits have a quorum *)

(** Nothing a quorum depends on changed. *)
Definition same_quorum (n n' : Node LeaderState) : Prop :=
  match_index (state n') = match_index (state n)
  ∧ cluster_metadata (state n') = cluster_metadata (state n)
  ∧ mem (raft_log n') = mem (raft_log n) ∧ commit_index (shared n') = commit_index (shared n).

#[global] Instance same_quorum_preorder : PreOrder same_quorum.
Proof.
  split; [intros n; by split_and!|]. intros n1 n2 n3 (?&?&?&?) (?&?&?&?). split_and!; congruence.
Qed.

#[global] Hint Extern 1 (same_quorum _ _) => (split_and!; reflexivity) : keeps.

Lemma same_quorum_holds n n' c : same_quorum n n' → quorum_holds n' c = quorum_holds n c.
Proof. intros (Hm & Hc & Hl & _). unfold quorum_holds, voter_ids, matched. by rewrite Hm, Hc, Hl. Qed.

(** Either nothing is committed or what is committed has a quorum. *)
Definition commits_with_quorum (n n' : Node LeaderState) : Prop :=
  commit_index (shared n') = commit_index (shared n)
  ∨ (commit_index (shared n) < commit_index (shared n') ∧ quorum_holds n' (commit_index (shared n')) = true).

Lemma same_quorum_commits n n1 n2 :
  commits_with_quorum n n1 → same_quorum n1 n2 → commits_with_quorum n n2.
Proof.
  intros Hc Hs. pose proof (same_quorum_holds _ _ (commit_index (shared n2)) Hs) as Hq.
  destruct Hs as (_ & _ & _ & Hi). unfold commits_with_quorum. rewrite Hq, Hi. done.
Qed.

Section commits.
Context (env : Env).

Lemma renew_lease_same ts : keeps same_quorum (renew_lease env ts).
Proof.
  intros n n' r. unfold renew_lease, update_lease_timestamp.
  destruct (ReadLease.renew _ _); [|done]. intros [= <- <-]. by split_and!.
Qed.

Lemma commit_hard_state_same t v : keeps same_quorum (commit_hard_state (R := LeaderState) env t v).
Proof.
  intros n n' r H. apply commit_hard_state_frame in H as (Hs & Hl & _ & Hc & _).
  unfold same_quorum. rewrite Hs, Hc. by destruct Hl as [-> | ->].
Qed.

#[local] Hint Resolve renew_lease_same commit_hard_state_same : keeps.

Lemma advance_commit_quorum c (n n' : Node LeaderState) r :
  commit_index (shared n) < c → quorum_holds n c = true →
  advance_commit env c n = Some (n', r) → commits_with_quorum n n'.
Proof.
  intros Hlt Hq H. apply bind_inv in H as (n0 & r0 & [= <- <-] & H).
  apply bind_inv in H as (n1 & r1 & [= <- <-] & H).
  eapply same_quorum_commits; [right|eapply (keeps_bind same_quorum); [| |exact H]; leader_keeps].
  simpl. rewrite (proj2 (N.ltb_lt _ _) Hlt). simpl. by split.
Qed.

(** The tail of an acknowledgement, from the state with the peer's progress recorded. *)
Lemma voter_acknowledged_quorum (n n' : Node LeaderState) r :
  voters_known (state n) → voter_acknowledged env n = Some (n', r) → commits_with_quorum n n'.
Proof.
  intros Hk H. apply bind_inv in H as (n0 & r0 & Hc & H). unfold new_commit_index in Hc.
  destruct (calculate_new_commit_index _ _ _) as [c|] eqn:Hcalc; [|done].
  injection Hc as <- <-. apply bind_inv in H as (n1 & r1 & Ha & H).
  assert (commits_with_quorum n n1) as Hn1.
  { destruct c as [c|]; [|injection Ha as <- <-; by left].
    apply new_commit_quorum in Hcalc as [? ?]; [|done]. by eapply advance_commit_quorum. }
  eapply same_quorum_commits; [done|]. destruct r1 as [a|e]; [|by destruct H as [-> ->]].
  revert H. apply keeps_get_bind. intros n2.
  destruct (calculate_majority_matched_index _ _ _ _) as [[k|]|]; [|solve_keeps..]. leader_keeps.
Qed.

Lemma update_peer_index_known id u l : voters_known l → voters_known (update_peer_index id u l).
Proof.
  assert (∀ k st l', cluster_metadata l' = cluster_metadata l → match_index l' = match_index l →
    let l1 := set_peer_replication_state id st (update_next_index id k l') in
    voter_ids l1 = voter_ids l ∧ match_index l1 = match_index l) as Hl1.
  { intros k st l' Hc Hm. unfold voter_ids. simpl. by rewrite Hc, Hm. }
  intros [Hnd Hk]. unfold update_peer_index.
  set (l1 := if pu_success u then _ else _).
  assert (voter_ids l1 = voter_ids l ∧ match_index l1 = match_index l) as [Hv Hm]
    by (unfold l1; destruct (pu_success u); by apply Hl1).
  assert (voters_known l1) as Hk1 by (split; rewrite Hv; [done|by rewrite Hm]).
  destruct (pu_match_index u) as [m|]; [|done]. unfold update_match_index. destruct (_ <? _); [|done].
  split; [apply Hk1|]. intros j Hj. simpl. destruct (decide (id = j)) as [->|Hne].
  - rewrite lookup_insert_eq. by eexists.
  - rewrite lookup_insert_ne by done. by apply Hk1.
Qed.

Lemma same_quorum_known n n' : same_quorum n n' → voters_known (state n) → voters_known (state n').
Proof. intros (Hm & Hc & _). unfold voters_known, voter_ids. by rewrite Hm, Hc. Qed.

Lemma acknowledged_tail (p : proc (Node LeaderState) unit) (b : bool) n n' r :
  keeps same_quorum p → voters_known (state n) →
  (p;; if b then voter_acknowledged env else mret tt) n = Some (n', r) → commits_with_quorum n n'.
Proof.
  intros Hp Hk H. apply bind_inv in H as (n1 & r1 & H1 & H). apply Hp in H1.
  assert (commits_with_quorum n1 n') as Hc.
  { destruct r1 as [a|e]; [|destruct H as [-> ->]; by left].
    destruct b; [|injection H as <- <-; by left].
    eapply voter_acknowledged_quorum; [by eapply same_quorum_known|done]. }
  destruct H1 as (_ & _ & _ & Heq). unfold commits_with_quorum in *. by rewrite Heq in Hc.
Qed.

Lemma append_result_quorum id res (n n' : Node LeaderState) r :
  voters_known (state n) → handle_append_result env id res n = Some (n', r) → commits_with_quorum n n'.
Proof.
  intros Hk H. apply bind_inv in H as (n0 & r0 & [= <- <-] & H). cbv zeta in H.
  assert (∀ p : proc (Node LeaderState) unit, keeps same_quorum p → p n = Some (n', r) →
    commits_with_quorum n n') as Hquiet.
  { intros p Hp Hr. eapply same_quorum_commits; [by left|by eapply Hp]. }
  destruct res as [resp|e]; [|by eapply Hquiet, H; solve_keeps].
  destruct (_ <? _); [by eapply Hquiet, H; solve_keeps|].
  destruct (_ <? _); [by eapply Hquiet, H; leader_keeps|].
  destruct (interpret_response _ _ _ _ _) as [[[u|t]|]|e]; [|by eapply Hquiet, H; leader_keeps..].
  apply bind_inv in H as (n1 & r1 & [= <- <-] & H). apply bind_inv in H as (n2 & r2 & [= <- <-] & H).
  change (commits_with_quorum (n <| state ::= update_peer_index id u |>) n').
  eapply acknowledged_tail; [..|exact H].
  - destruct (is_voter_target _ _); [solve_keeps|].
    destruct (learner_progress _); [solve_keeps|]. leader_keeps.
  - by apply update_peer_index_known.
Qed.

(** A flush of the leader's own log. A single voter is a quorum by itself. *)
Lemma log_flushed_quorum d (n n' : Node LeaderState) r :
  voters_known (state n) → (single_voter (cluster_metadata (state n)) = true → voter_ids (state n) = []) →
  handle_log_flushed env d n = Some (n', r) → commits_with_quorum n n'.
Proof.
  intros Hk Hsingle H. apply bind_inv in H as (n0 & r0 & [= <- <-] & H). cbv zeta in H.
  apply bind_inv in H as (n1 & r1 & Hc & H).
  assert (n1 = n ∧ ∃ c, r1 = Ok c ∧ ∀ k, c = Some k → commit_index (shared n) < k ∧ quorum_holds n k = true)
    as (-> & c & -> & Hq).
  { destruct (single_voter _) eqn:Hs.
    - injection Hc as <- <-. split; [done|]. eexists. split; [done|]. intros k. case_bool; [|done].
      intros [= <-]. split; [done|]. unfold quorum_holds. rewrite Hsingle by done. simpl.
      rewrite supporters_cons. case_decide; [done|lia].
    - unfold new_commit_index in Hc. destruct (calculate_new_commit_index _ _ _) as [c|] eqn:Hcalc; [|done].
      injection Hc as <- <-. split; [done|]. exists c. split; [done|]. intros k ->.
      by apply new_commit_quorum. }
  destruct c as [c|]; [|injection H as <- <-; by left].
  destruct (Hq c eq_refl) as [Hlt Hc']. apply bind_inv in H as (n2 & r2 & Ha & H).
  eapply same_quorum_commits; [by eapply advance_commit_quorum|].
  destruct r2; [|by destruct H as [-> ->]]. eapply keeps_run; [|exact H].
  destruct (single_voter _); leader_keeps.
Qed.

(** The commit index is raised by acknowledgements and flushes only. *)
Definition same_commit (n n' : Node LeaderState) : Prop :=
  commit_index (shared n') = commit_index (shared n).

#[local] Instance same_commit_preorder : PreOrder same_commit.
Proof. unfold same_commit. split; [done|]. intros n1 n2 n3 H1 H2. congruence. Qed.

#[local] Hint Extern 1 (same_commit _ _) => reflexivity : keeps.

Lemma renew_lease_commit ts : keeps same_commit (renew_lease env ts).
Proof. intros n n' r H. by apply renew_lease_same in H as (_ & _ & _ & ?). Qed.

Lemma commit_hard_state_commit t v : keeps same_commit (commit_hard_state (R := LeaderState) env t v).
Proof. intros n n' r H. by apply commit_hard_state_same in H as (_ & _ & _ & ?). Qed.

#[local] Hint Resolve renew_lease_commit commit_hard_state_commit : keeps.

Lemma execute_commit ps w rs : keeps same_commit (execute_and_process_raft_rpc env ps w rs).
Proof.
  unfold execute_and_process_raft_rpc, reject_batch, register_writes, route_reads, enqueue_reads,
    execute_pending_reads, dispatch_append, dispatch_snapshot, reply_all, reply, set_state.
  solve_keeps.
Qed.
#[local] Hint Resolve execute_commit : keeps.

Lemma process_lease_queue_commit q : keeps same_commit (process_lease_queue env q).
Proof.
  induction q as [|[req sender] q IH]; simpl; [solve_keeps|].
  apply keeps_bind; [apply _|unfold set_state; solve_keeps|intros _]. apply keeps_bind; [apply _| |done].
  unfold process_lease_read, reply, set_state. solve_keeps.
Qed.

Lemma purge_commit li lp : keeps same_commit (schedule_and_execute_purge (R := LeaderState) env li lp).
Proof. unfold schedule_and_execute_purge, execute_pending_purge, emit, set_state. solve_keeps. Qed.

#[local] Hint Resolve process_lease_queue_commit purge_commit : keeps.

Lemma leader_handler_quorum chs p (n n' : Node LeaderState) r :
  leader_handler env chs p → voters_known (state n) →
  (single_voter (cluster_metadata (state n)) = true → voter_ids (state n) = []) →
  p n = Some (n', r) → commits_with_quorum n n'.
Proof.
  intros Hp Hk Hs H. assert (keeps same_commit p → commits_with_quorum n n') as Hkeep.
  { intros Hc. left. by eapply Hc. }
  destruct Hp; try (apply Hkeep; leader_keeps; fail).
  - by eapply log_flushed_quorum.
  - by eapply append_result_quorum.
Qed.

End commits.

(** * The leader's log

    A leader only adds to its log: no handler overwrites or removes an entry, except that
    entries below the commit index may be purged once a snapshot covers them. *)

From S2P Require Import LogInv ReplicationSpec.

Import Leader LeaderEvents.

(** ** Logs that grow at the end *)

(** What appending needs of the log: nothing is stored past the last index, and fresh
    indexes are allocated after it. Unlike [log_inv] it allows holes. *)
Definition sound_ids (m : LogMem) : Prop :=
  (∀ i, is_Some (entries m !! i) → i <= max_index m) ∧ max_index m < next_id m.

Lemma log_inv_sound_ids m : log_inv m → sound_ids m.
Proof. intros I. split; [intros i Hi%(inv_dom m I); lia|apply (inv_next m I)]. Qed.

(** [m'] keeps every entry of [m] and ends no earlier. *)
Definition grows (m m' : LogMem) : Prop :=
  sound_ids m' ∧ entries m ⊆ entries m' ∧ max_index m <= max_index m'.

Lemma insert_to_memory_grows m s es :
  contiguous e_index s es → es ≠ [] → max_index m < s → next_id m = s + N.of_nat (length es) →
  (∀ i, is_Some (entries m !! i) → i <= max_index m) →
  grows m (insert_to_memory m es)
  ∧ max_index (insert_to_memory m es) = s + N.of_nat (length es) - 1.
Proof.
  intros Hc Hne Hmax Hnext Hdom. pose proof (max_entry_index_contiguous _ _ Hc Hne) as Hme.
  destruct (last es) as [la|] eqn:Hla; [|by apply last_None in Hla].
  pose proof (contiguous_last _ _ _ _ Hc Hla) as Hi.
  assert (0 < N.of_nat (length es)) as Hpos by (destruct es; [done|simpl; lia]).
  unfold insert_to_memory, grows, sound_ids. rewrite Hla. destruct (update_term_indexes _ _ _) as [tf tl].
  cbn [entries max_index next_id]. rewrite (proj2 (N.ltb_lt _ _)) by lia.
  rewrite (proj2 (N.leb_gt _ _)) by lia. split_and!; [|lia| |lia|lia].
  - intros i Hs. apply (insert_entries_is_Some _ _ s) in Hs as [Hs|?]; [|lia|done].
    apply Hdom in Hs. lia.
  - apply map_subseteq_spec. intros i e He. erewrite lookup_insert_entries by done.
    destruct (decide _); [|done]. exfalso. assert (i <= max_index m) by eauto. lia.
Qed.

Lemma generate_new_entries_grows l ps t l' r :
  sound_ids (mem l) → generate_new_entries l ps t = Some (l', r) →
  grows (mem l) (mem l')
  ∧ ∀ es, r = Ok es → max_index (mem l) + N.of_nat (length ps) <= max_index (mem l').
Proof.
  intros [Hdom Hnext]. destruct (decide (ps = [])) as [->|Hne].
  { intros [= <- <-]. split; [by repeat split|]. intros es _. simpl. lia. }
  assert (0 < N.of_nat (length ps)) as Hpos by (destruct ps; [done|simpl; lia]).
  unfold generate_new_entries, pre_allocate_id_range. destruct ps as [|p ps']; [done|].
  set (ps := p :: ps') in *. rewrite (proj2 (N.eqb_neq _ _)) by lia.
  destruct (N.leb_spec (next_id (mem l)) (u64_max - N.of_nat (length ps))) as [Hroom|]; [|done].
  assert (wrapping_add_u64 (next_id (mem l)) (N.of_nat (length ps)) = next_id (mem l) + N.of_nat (length ps)) as ->.
  { unfold wrapping_add_u64. apply N.mod_small. unfold u64_max in *. lia. }
  cbv beta iota. rewrite (proj2 (N.ltb_ge _ _)) by lia.
  destruct (number_entries_spec (next_id (mem l)) (next_id (mem l) + N.of_nat (length ps) - 1) t ps)
    as (es & Hes & Hc & Hl & _ & _); [lia|]. rewrite Hes.
  assert (es ≠ []) as Hesne by (by destruct es).
  destruct es as [|e es']; [done|]. unfold insert_batch, append_entries. simpl.
  set (es := e :: es') in *.
  destruct (poisoned l); simpl; intros [= <- <-].
  - split; [|done]. split_and!; simpl; [split; [done|simpl; lia]|done|done].
  - set (m1 := set_next_id _ (mem l)).
    destruct (insert_to_memory_grows m1 (next_id (mem l)) es) as [Hg Hm]; [done|done|done| |done|].
    { unfold m1. cbn [next_id set_next_id]. by rewrite Hl. }
    split; [exact Hg|]. intros es0 _.
    change (max_index (mem l) + N.of_nat (length ps) <= max_index (insert_to_memory m1 es)).
    rewrite Hm, Hl. lia.
Qed.

Lemma prepare_batch_requests_grows my_id ml l ps ss lss cm l' r :
  sound_ids (mem l) → prepare_batch_requests my_id ml l ps ss lss cm = Some (l', r) →
  grows (mem l) (mem l')
  ∧ ∀ pr, r = Ok pr → max_index (mem l) + N.of_nat (length ps) <= max_index (mem l').
Proof.
  intros Hs. unfold prepare_batch_requests.
  destruct (generate_new_entries l ps _) as [[l1 [es|e]]|] eqn:Hg; [| |done];
    apply generate_new_entries_grows in Hg as [Hgr Hlen]; [|done| |done].
  - specialize (Hlen es eq_refl). destruct (replication_targets cm) as [|t0 ts].
    { intros [= <- <-]. by split. }
    cbv zeta. destruct (sort_peers _) as [[epp snaps] skip].
    destruct (build_requests _ _ _ _ _ _ _ _) as [pr|]; [|done]. intros [= <- <-]. by split.
  - intros [= <- <-]. by split.
Qed.

(** Purging keeps what lies above the cutoff. *)
Lemma purge_prefix_sound m cutoff :
  sound_ids m →
  sound_ids (purge_prefix m cutoff)
  ∧ ∀ i e, lid_index cutoff < i → entries m !! i = Some e → entries (purge_prefix m cutoff) !! i = Some e.
Proof.
  intros [Hdom Hnext]. unfold purge_prefix, remove_range_locked, sound_ids.
  set (es := remove_keys (entries m) (om_range 0 (lid_index cutoff) (entries m))).
  assert (Hes : ∀ i e, es !! i = Some e ↔ entries m !! i = Some e ∧ ¬ (0 <= i ∧ i <= lid_index cutoff))
    by (intros; apply remove_survives).
  cbn [entries max_index next_id set_purged set_bounds]. split.
  - unfold key_or_zero. destruct (om_back es) as [[k v]|] eqn:Hb; simpl.
    + apply om_back_Some in Hb as [Hk Hmax]. split; [done|].
      apply Hes in Hk as [Hk _]. assert (k <= max_index m) by eauto. lia.
    + apply om_back_None in Hb. split; [|lia]. intros i [e He]. by rewrite Hb, lookup_empty in He.
  - intros i e Hi He. apply Hes. split; [done|lia].
Qed.

(** ** Append-only *)

(** A purge that is scheduled stays below the commit index. *)
Definition purge_safe (n : Node LeaderState) : Prop :=
  ∀ lid, scheduled_purge_upto (state n) = Some lid → lid_index lid < commit_index (shared n).

Definition sound_leader (n : Node LeaderState) : Prop := sound_ids (mem (raft_log n)) ∧ purge_safe n.

(** Entry [i] is covered by the purge the leader has scheduled. *)
Definition purge_covers (n : Node LeaderState) (i : N) : Prop :=
  ∃ lid, scheduled_purge_upto (state n) = Some lid ∧ i <= lid_index lid.

(** Every entry is kept as it is, or the scheduled purge, which only moves up, covers it. *)
Definition append_only (n n' : Node LeaderState) : Prop :=
  sound_leader n →
  sound_leader n' ∧ commit_index (shared n) <= commit_index (shared n')
  ∧ (∀ i, purge_covers n i → purge_covers n' i)
  ∧ ∀ i e, entry (mem (raft_log n)) i = Some e →
           entry (mem (raft_log n')) i = Some e ∨ purge_covers n' i.

#[global] Instance append_only_preorder : PreOrder append_only.
Proof.
  split; [intros n H; split_and!; [done|lia|done|by left]|].
  intros n1 n2 n3 H12 H23 H1. destruct (H12 H1) as (H2 & Hc & Hp & He).
  destruct (H23 H2) as (H3 & Hc' & Hp' & He').
  split_and!; [done|lia|auto|]. intros i e Hi. destruct (He i e Hi) as [Hi2|]; [by apply He'|auto].
Qed.

(** Steps that touch neither log nor schedule. *)
Lemma append_only_same n n' :
  mem (raft_log n') = mem (raft_log n) →
  scheduled_purge_upto (state n') = scheduled_purge_upto (state n) →
  commit_index (shared n) <= commit_index (shared n') → append_only n n'.
Proof.
  intros Hl Hs Hc [Hi Hp]. unfold sound_leader, purge_safe, purge_covers. rewrite Hl, Hs.
  split_and!; [done|intros lid Hlid; specialize (Hp lid Hlid); lia|done|done|by left].
Qed.

#[global] Hint Extern 1 (append_only _ _) =>
  (apply append_only_same; [reflexivity|reflexivity|reflexivity]) : keeps.

(** What a handler does to the state it read. *)
Lemma keeps_get_same {S B} (P : S → S → Prop) (k : S → proc S B) :
  (∀ s s' r, k s s = Some (s', r) → P s s') → keeps P (get ≫= k).
Proof. intros H s s' r Hk. by eapply H. Qed.

Section append_only.
Context (env : Env).

Lemma renew_lease_append ts : keeps append_only (renew_lease env ts).
Proof.
  intros n n' r. unfold renew_lease, update_lease_timestamp.
  destruct (ReadLease.renew _ _); [|done]. intros [= <- <-]. by apply append_only_same.
Qed.

Lemma new_commit_index_append : keeps append_only new_commit_index.
Proof.
  intros n n' r. unfold new_commit_index. destruct (calculate_new_commit_index _ _ _); [|done].
  by intros [= <- <-].
Qed.

Lemma commit_hard_state_append t v : keeps append_only (commit_hard_state (R := LeaderState) env t v).
Proof.
  intros n n' r H. apply commit_hard_state_frame in H as (Hs & Hl & _ & Hc & _).
  apply append_only_same; [by destruct Hl as [-> | ->]|by rewrite Hs|by rewrite Hc].
Qed.

Lemma dispatch_append_append r : keeps append_only (dispatch_append env r).
Proof. destruct r as [[id req] k]. unfold dispatch_append, set_state. cbv zeta. solve_keeps. Qed.

Lemma dispatch_snapshot_append m id : keeps append_only (dispatch_snapshot env m id).
Proof. unfold dispatch_snapshot, set_state. cbv zeta. solve_keeps. Qed.

#[local] Hint Resolve renew_lease_append new_commit_index_append commit_hard_state_append
  dispatch_append_append dispatch_snapshot_append : keeps.

(** The entries of a round are added; what follows leaves the log alone. *)
Lemma execute_append ps w rs : keeps append_only (execute_and_process_raft_rpc env ps w rs).
Proof.
  unfold execute_and_process_raft_rpc. apply keeps_bind; [apply _|unfold set_state; solve_keeps|intros _].
  apply keeps_get_same. intros n n' r.
  destruct (prepare_batch_requests _ _ _ _ _ _ _) as [[lg res]|] eqn:Hp; [|done].
  assert (append_only n (n <| raft_log := lg |>)) as Happ.
  { intros [Hi Hs]. destruct (prepare_batch_requests_grows _ _ _ _ _ _ _ _ _ Hi Hp) as [(Hi' & Hsub & _) _].
    split_and!; [split; [exact Hi'|exact Hs]|done|done|]. intros i e He. left. by eapply lookup_weaken. }
  assert (∀ k : proc (Node LeaderState) unit, keeps append_only k →
    (modify (λ n, n <| raft_log := lg |>);; k) n = Some (n', r) → append_only n n') as Hrun.
  { intros k Hk H. apply bind_inv in H as (n1 & r1 & [= <- <-] & H). etrans; [exact Happ|exact (Hk _ _ _ H)]. }
  destruct res; apply Hrun.
  - unfold register_writes, route_reads, enqueue_reads, execute_pending_reads, reply_all, reply, set_state.
    solve_keeps.
  - unfold reject_batch, reply_all. solve_keeps.
Qed.

Lemma process_lease_queue_append q : keeps append_only (process_lease_queue env q).
Proof.
  induction q as [|[req sender] q IH]; simpl; [solve_keeps|].
  apply keeps_bind; [apply _|unfold set_state; solve_keeps|intros _]. apply keeps_bind; [apply _| |done].
  pose proof execute_append. unfold process_lease_read, reply, set_state. solve_keeps.
Qed.

Lemma update_commit_append c :
  keeps append_only (modify (S := Node LeaderState) (λ n, n <| shared ::= update_commit_index (R := LeaderState) c |>)).
Proof.
  apply keeps_modify. intros n. apply append_only_same; [done|done|]. simpl. case_bool; simpl; lia.
Qed.

Lemma execute_pending_purge_append : keeps append_only (execute_pending_purge (R := LeaderState) env).
Proof.
  unfold execute_pending_purge. apply keeps_get_same. intros n n' r. simpl.
  destruct (scheduled_purge_upto (state n)) as [lid|] eqn:Hs; [|by intros [= <- <-]].
  destruct (purge_logs_up_to _ _ _ _) as [l res] eqn:Hp. intros H.
  apply bind_inv in H as (n1 & r1 & [= <- <-] & H).
  assert (append_only n (n <| raft_log := l |>)) as Happ.
  { intros [Hi Hps]. specialize (Hps lid Hs) as Hlt. destruct (purge_prefix_sound _ lid Hi) as [Hi' Hkeep].
    assert (sound_ids (mem l) ∧ entries (mem l) = entries (purge_prefix (mem (raft_log n)) lid)) as [Hil Hel].
    { revert Hp. unfold purge_logs_up_to, advance_durable_and_notify. simpl.
      destruct (_ <? _); unfold send_command; simpl; repeat (case_match; simplify_eq/=); intros; simplify_eq/=; done. }
    split_and!; [split; [exact Hil|exact Hps]|done|done|]. intros i e He.
    destruct (decide (lid_index lid < i)); [left|right; exists lid; split; [exact Hs|lia]].
    unfold entry in *. simpl. rewrite Hel. by apply Hkeep. }
  etrans; [exact Happ|]. eapply keeps_run; [|exact H]. unfold emit. solve_keeps.
Qed.

Lemma purge_append li lp : keeps append_only (schedule_and_execute_purge (R := LeaderState) env li lp).
Proof.
  pose proof execute_pending_purge_append as Hexec.
  unfold schedule_and_execute_purge. apply keeps_get_same. intros n n' r. cbv zeta.
  destruct (_ =? 0); [by intros [= <- <-]|]. destruct (entry_term _ _) as [t|]; [|done].
  intros H. apply bind_inv in H as (n1 & r1 & H1 & H).
  assert (append_only n n1) as Happ.
  { destruct t as [term|]; [|by injection H1 as <- <-].
    destruct (_ && _) eqn:Hg; [|by injection H1 as <- <-].
    injection H1 as <- <-. rewrite !andb_true_iff in Hg. destruct Hg as [[[_ Hg] _] Hb].
    intros [Hi Hp]. split_and!; [split; [exact Hi|]|done| |by left].
    - intros lid [= <-]. simpl. by apply N.ltb_lt.
    - intros i (lid & Hlid & Hle). eexists. split; [done|]. simpl in Hb |- *. rewrite Hlid in Hb.
      apply N.ltb_lt in Hb. lia. }
  etrans; [exact Happ|]. destruct r1; [by eapply keeps_run|by destruct H as [-> ->]].
Qed.

#[local] Hint Resolve execute_append process_lease_queue_append update_commit_append purge_append : keeps.

(** The schedule is only touched by the purge handlers. *)
Lemma init_peers_schedule last ids l :
  scheduled_purge_upto (init_peers_next_index_and_match_index last ids l) = scheduled_purge_upto l.
Proof.
  unfold init_peers_next_index_and_match_index. revert l. induction ids as [|id ids IH]; intros l; [done|].
  simpl. by rewrite IH, update_match_index_0.
Qed.

Lemma update_peer_index_schedule id u l :
  scheduled_purge_upto (update_peer_index id u l) = scheduled_purge_upto l.
Proof.
  unfold update_peer_index, update_match_index.
  destruct (pu_match_index u), (pu_success u); simpl; try destruct (_ <? _); done.
Qed.

Lemma handle_snapshot_push_completed_schedule id b c t l :
  scheduled_purge_upto (handle_snapshot_push_completed id b c t l) = scheduled_purge_upto l.
Proof. unfold handle_snapshot_push_completed. destruct (negb _); [done|]. by destruct (_ !! _). Qed.

Lemma handle_peer_stream_error_schedule id l :
  scheduled_purge_upto (handle_peer_stream_error id l) = scheduled_purge_upto l.
Proof. unfold handle_peer_stream_error. by case_decide. Qed.

Lemma append_only_state (f : LeaderState → LeaderState) (n : Node LeaderState) :
  scheduled_purge_upto (f (state n)) = scheduled_purge_upto (state n) →
  append_only n (n <| state ::= f |>).
Proof. intros H. by apply append_only_same. Qed.

#[local] Hint Resolve append_only_state init_peers_schedule update_peer_index_schedule
  handle_snapshot_push_completed_schedule handle_peer_stream_error_schedule : keeps.

(** The handlers of a leader; the end of a purge takes it off the schedule and leaves the
    log alone. *)
Lemma leader_handler_append chs p (n n' : Node LeaderState) r :
  leader_handler env chs p → p n = Some (n', r) → sound_leader n →
  sound_leader n' ∧ commit_index (shared n) <= commit_index (shared n')
  ∧ ∀ i e, entry (mem (raft_log n)) i = Some e →
           entry (mem (raft_log n')) i = Some e ∨ purge_covers n' i.
Proof.
  assert (keeps append_only p → p n = Some (n', r) → sound_leader n →
    sound_leader n' ∧ commit_index (shared n) <= commit_index (shared n')
    ∧ ∀ i e, entry (mem (raft_log n)) i = Some e →
             entry (mem (raft_log n')) i = Some e ∨ purge_covers n' i) as Hkeep.
  { intros Hk H Hs. destruct (Hk _ _ _ H Hs) as (? & ? & _ & ?). by split_and!. }
  intros Hp. destruct Hp as [| | | | | | | | | | | |id| | |]; try (apply Hkeep; leader_keeps; fail).
  unfold handle_log_purge_completed. intros H [Hi Hps]. apply bind_inv in H as (n0 & r0 & [= <- <-] & H).
  destruct (index_below _ _); injection H as <- <-; split_and!; try (by left); try done.
Qed.

End append_only.
