(* ===== verification/ClientFlow.v ===== *)
(** * Accounting for reply channels

    Every request reaches the leader with a channel for its answer. [held z n] counts how
    often channel [z] waits in one of the leader's buffers, travels with a requeued event,
    or has been answered. A procedure that starts with the channels [c] in hand and ends
    with [q] in hand conserves this count ([flow]): no request is dropped and none is
    answered twice. *)

From stdpp Require Import base tactics numbers option list sorting gmap strings.
From S2P Require Import Prelude Types Events ReadLease TermSegments BufferedLog Replication Election.
From S2P Require Import Proc Roles RoleState LeaderState Leader LeaderEvents RaftLoop ProcLogic HardStateSpec.
From S2P Require Import LeaderProgress.
Import Leader LeaderEvents.

(** ** Counting *)

Definition occ (z : N) (l : list N) : nat := length (filter (λ x, x = z) l).

Lemma occ_nil z : occ z [] = 0%nat.
Proof. done. Qed.

Lemma occ_cons z x l : occ z (x :: l) = (occ z [x] + occ z l)%nat.
Proof. unfold occ. rewrite !filter_cons, filter_nil. by case_decide. Qed.

Lemma occ_app z l1 l2 : occ z (l1 ++ l2) = (occ z l1 + occ z l2)%nat.
Proof. unfold occ. by rewrite filter_app, length_app. Qed.

Lemma occ_perm z l1 l2 : l1 ≡ₚ l2 → occ z l1 = occ z l2.
Proof. intros H. unfold occ. by rewrite H. Qed.


(** The channels in the values of a map. *)
Section map_occ.
Context {V : Type} (g : V → list N) (z : N).

Definition mocc (m : gmap N V) : nat := occ z (map_to_list m ≫= λ p, g p.2).

Lemma mocc_empty : mocc ∅ = 0%nat.
Proof. unfold mocc. by rewrite map_to_list_empty. Qed.

Lemma mocc_insert k v m : m !! k = None → mocc (<[k := v]> m) = (occ z (g v) + mocc m)%nat.
Proof.
  intros H. unfold mocc. rewrite <-occ_app. apply occ_perm.
  by rewrite (map_to_list_insert m k v H).
Qed.

Lemma mocc_delete k v m : m !! k = Some v → mocc m = (occ z (g v) + mocc (delete k m))%nat.
Proof.
  intros H. rewrite <-(mocc_insert k v) by apply lookup_delete_eq.
  by rewrite insert_delete_eq, insert_id.
Qed.

Lemma mocc_filter (P : N * V → Prop) `{!∀ x, Decision (P x)} m :
  mocc (filter P m) = occ z (filter P (map_to_list m) ≫= λ p, g p.2).
Proof.
  unfold mocc. apply occ_perm. apply bind_Permutation. apply NoDup_Permutation.
  - apply NoDup_map_to_list.
  - apply NoDup_filter, NoDup_map_to_list.
  - intros [k v]. rewrite list_elem_of_filter, !elem_of_map_to_list, map_lookup_filter_Some. tauto.
Qed.

(** Splitting a map into the values handled in key order and the rest. *)
Lemma mocc_split (P Q : N * V → Prop) `{!∀ x, Decision (P x), !∀ x, Decision (Q x)} m :
  (∀ x, Q x ↔ ¬ P x) →
  (occ z (filter P (om_iter m) ≫= λ p, g p.2) + mocc (filter Q m) = mocc m)%nat.
Proof.
  intros HQ. rewrite mocc_filter, <-occ_app, <-bind_app. unfold mocc. apply occ_perm, bind_Permutation.
  transitivity (filter P (map_to_list m) ++ filter (λ x, ¬ P x) (map_to_list m)).
  - f_equiv; [unfold om_iter; by rewrite merge_sort_Permutation|]. by rewrite (list_filter_iff Q (λ x, ¬ P x)).
  - apply filter_app_complement.
Qed.

Lemma mocc_iter m : occ z (om_iter m ≫= λ p, g p.2) = mocc m.
Proof. apply occ_perm, bind_Permutation, merge_sort_Permutation. Qed.

End map_occ.

(** ** The channels of a node *)

Definition event_channels (ev : InternalEvent) : list N :=
  match ev with ReprocessEvent e => inbound_senders e | _ => [] end.

Definition action_channels (a : PostCommitEntry) : list N :=
  match pce_action a with NodeJoin _ _ ch => [ch] | LeaderNoop _ => [] end.

Definition waiting (z : N) (l : LeaderState) : nat :=
  occ z (pb_senders (propose_buffer l)) + occ z (linearizable_read_buffer l).*2
  + occ z (lease_read_queue l).*2 + occ z (eventual_read_queue l).*2
  + mocc wm_senders z (pending_client_writes l) + mocc (λ ch, [ch]) z (pending_write_apply l)
  + mocc (λ b, (prb_requests b).*2) z (pending_reads l) + occ z (plr_sender <$> pending_lease_reads l)
  + mocc action_channels z (pending_commit_actions l).

Definition held (z : N) (n : Node LeaderState) : nat :=
  waiting z (state n) + occ z (events n ≫= event_channels) + occ z (sent n).*1.

(** ** Indexes of pending writes *)

(** The log indexes a batch of writes waits for. *)
Definition batch_indexes (w : WriteMetadata) : list N := (index_senders (start_idx w) (wm_senders w)).*1.

(** Each pending write has its own index, no index is past the log, and a batch is filed
    under its last index. *)
Record indexes_ok (l : LeaderState) (last : N) : Prop := {
  ix_disjoint k1 k2 w1 w2 i :
    pending_client_writes l !! k1 = Some w1 → pending_client_writes l !! k2 = Some w2 →
    i ∈ batch_indexes w1 → i ∈ batch_indexes w2 → k1 = k2;
  ix_apart k w i :
    pending_client_writes l !! k = Some w → i ∈ batch_indexes w → pending_write_apply l !! i = None;
  ix_writes k w i : pending_client_writes l !! k = Some w → i ∈ batch_indexes w → i <= last;
  ix_apply i ch : pending_write_apply l !! i = Some ch → i <= last;
  ix_key k w : pending_client_writes l !! k = Some w → k ∈ batch_indexes w;
  ix_buffer : length (pb_payloads (propose_buffer l)) = length (pb_senders (propose_buffer l));
}.

Definition requests_ok (n : Node LeaderState) : Prop :=
  indexes_ok (state n) (last_entry_id (mem (raft_log n))) ∧ sound_ids (mem (raft_log n)).

(** Removing pending requests keeps the indexes apart. *)
Lemma indexes_ok_sub l l' last :
  pending_client_writes l' ⊆ pending_client_writes l →
  pending_write_apply l' ⊆ pending_write_apply l →
  length (pb_payloads (propose_buffer l')) = length (pb_senders (propose_buffer l')) →
  indexes_ok l last → indexes_ok l' last.
Proof.
  intros Hc Hw Hb [H1 H2 H3 H4 H5 H6].
  split; eauto using lookup_weaken, lookup_weaken_None.
Qed.

Lemma indexes_ok_same l l' last :
  pending_client_writes l' = pending_client_writes l →
  pending_write_apply l' = pending_write_apply l →
  propose_buffer l' = propose_buffer l →
  indexes_ok l last → indexes_ok l' last.
Proof.
  intros Hc Hw Hb I. eapply indexes_ok_sub; [..|done]; rewrite ?Hc, ?Hw; [done..|].
  rewrite Hb. apply (ix_buffer _ _ I).
Qed.

(** A longer log. *)
Lemma indexes_ok_longer l last last' : last <= last' → indexes_ok l last → indexes_ok l last'.
Proof.
  intros Hle [H1 H2 H3 H4 H5 H6]. split; try done; intros; (etrans; [|exact Hle]); eauto.
Qed.

(** ** Flow *)

(** Run from [n] with the channels [c] in hand. *)
Definition flow_at {A} (n : Node LeaderState) (c : list N) (p : proc (Node LeaderState) A) (q : A → list N)
    : Prop :=
  ∀ n' r, p n = Some (n', r) → requests_ok n →
    requests_ok n' ∧
    ∀ z, (occ z c + held z n = occ z (match r with Ok a => q a | Err _ => [] end) + held z n')%nat.

Definition flow {A} (c : list N) (p : proc (Node LeaderState) A) (q : A → list N) : Prop :=
  ∀ n, flow_at n c p q.

Section rules.
Context {A B : Type}.
Implicit Types (n : Node LeaderState) (c : list N).

Lemma flow_ret n c (a : A) q : (∀ z, occ z c = occ z (q a)) → flow_at n c (mret a) q.
Proof. intros H n' r [= <- <-] Hok. split; [done|]. intros z. by rewrite H. Qed.

Lemma flow_fail n (e : error) (q : A → list N) : flow_at n [] (fail e) q.
Proof. intros n' r [= <- <-] Hok. by split. Qed.

Lemma flow_panic n c (q : A → list N) : flow_at n c panic q.
Proof. done. Qed.

Lemma flow_bind n c (m : proc (Node LeaderState) A) (k : A → proc (Node LeaderState) B) q1 q :
  flow_at n c m q1 → (∀ n1 a, m n = Some (n1, Ok a) → requests_ok n1 → flow_at n1 (q1 a) (k a) q) →
  flow_at n c (m ≫= k) q.
Proof.
  intros Hm Hk n' r H Hok. apply bind_inv in H as (n1 & r1 & H1 & H).
  destruct (Hm n1 r1 H1 Hok) as [Hok1 Hz1]. destruct r1 as [a|e].
  - destruct (Hk n1 a H1 Hok1 n' r H Hok1) as [Hok' Hz]. split; [done|]. intros z.
    specialize (Hz1 z). specialize (Hz z). lia.
  - destruct H as [-> ->]. by split.
Qed.

Lemma flow_ok n c (p : proc (Node LeaderState) A) q : (requests_ok n → flow_at n c p q) → flow_at n c p q.
Proof. intros H n' r Hr Hok. by apply H. Qed.

Lemma flow_get n c (k : Node LeaderState → proc (Node LeaderState) B) q :
  flow_at n c (k n) q → flow_at n c (get ≫= k) q.
Proof. intros H. exact H. Qed.

(** A step that cannot fail, given by what it does to the node. *)
Lemma flow_modify n c f q :
  (requests_ok n → requests_ok (f n)) →
  (∀ z, (occ z c + held z n = occ z (q tt) + held z (f n))%nat) → flow_at n c (modify f) q.
Proof. intros Hok Hz n' r [= <- <-] H. split; [by apply Hok|done]. Qed.

Lemma flow_attempt n c (p : proc (Node LeaderState) A) q :
  flow_at n c p q → flow_at n c (attempt p) (λ r, match r with Ok a => q a | Err _ => [] end).
Proof.
  intros Hp n' r H Hok. unfold attempt in H. destruct (p n) as [[n1 r1]|] eqn:E; [|done].
  injection H as <- <-. by apply Hp.
Qed.

Lemma flow_weaken n c c' (p : proc (Node LeaderState) A) q q' :
  (∀ z, occ z c = occ z c') → (∀ a z, occ z (q a) = occ z (q' a)) →
  flow_at n c p q → flow_at n c' p q'.
Proof.
  intros Hc Hq Hp n' r H Hok. destruct (Hp n' r H Hok) as [? Hz]. split; [done|].
  intros z. rewrite <-Hc. specialize (Hz z). destruct r; [by rewrite <-Hq|done].
Qed.

End rules.

(** Linear arithmetic over counts. *)
Ltac occ_lia :=
  intros; cbn [app fmap list_fmap fst snd] in *; rewrite ?fmap_app, ?bind_app, ?occ_app in *;
  cbn [app fmap list_fmap mbind list_bind fst snd] in *; rewrite ?occ_app, ?occ_nil in *; lia.

Section leaves.
Implicit Types (n : Node LeaderState) (c : list N).

Lemma flow_reply n c ch r : flow_at n (ch :: c) (reply ch r) (λ _, c).
Proof.
  apply flow_modify; [done|]. intros z. unfold held. simpl.
  rewrite fmap_app, occ_app, occ_cons. simpl. lia.
Qed.

Lemma flow_reply_all n c chs r : flow_at n (chs ++ c) (reply_all chs r) (λ _, c).
Proof.
  apply flow_modify; [done|]. intros z. unfold held. simpl.
  rewrite fmap_app, !occ_app, <-list_fmap_compose.
  rewrite (list_fmap_ext (fst ∘ (λ ch, (ch, r))) id chs) by done. rewrite list_fmap_id. lia.
Qed.

Lemma flow_emit n c ev : flow_at n (event_channels ev ++ c) (emit ev) (λ _, c).
Proof.
  apply flow_modify; [done|]. intros z. unfold held. simpl.
  rewrite bind_app, !occ_app. simpl. rewrite app_nil_r. lia.
Qed.

Lemma flow_shared n c f : flow_at n c (set_shared f) (λ _, c).
Proof. by apply flow_modify. Qed.

Lemma flow_state n c f q :
  (indexes_ok (state n) (last_entry_id (mem (raft_log n))) →
   indexes_ok (f (state n)) (last_entry_id (mem (raft_log n)))) →
  (∀ z, (occ z c + waiting z (state n) = occ z (q tt) + waiting z (f (state n)))%nat) →
  flow_at n c (set_state f) q.
Proof.
  intros Hok Hz. apply flow_modify; [intros [? ?]; split; [by apply Hok|done]|].
  intros z. specialize (Hz z). unfold held. simpl. lia.
Qed.

(** The same, followed by a run from the updated node. *)
Lemma flow_state_then {A} n c c1 f (k : unit → proc (Node LeaderState) A) q :
  (indexes_ok (state n) (last_entry_id (mem (raft_log n))) →
   indexes_ok (f (state n)) (last_entry_id (mem (raft_log n)))) →
  (∀ z, (occ z c + waiting z (state n) = occ z c1 + waiting z (f (state n)))%nat) →
  (requests_ok n → flow_at (n <| state ::= f |>) c1 (k tt) q) →
  flow_at n c (set_state f ≫= k) q.
Proof.
  intros Hok Hz Hk n' r H Hn. destruct (flow_state n c f (λ _, c1) Hok Hz _ _ eq_refl Hn) as [Hn1 Hz1].
  destruct (Hk Hn n' r H Hn1) as [Hn' Hz2]. split; [done|]. intros z. by rewrite Hz1, Hz2.
Qed.

Lemma flow_modify_then {A} n c f (k : unit → proc (Node LeaderState) A) q :
  (requests_ok n → requests_ok (f n)) → (∀ z, held z (f n) = held z n) →
  (requests_ok n → flow_at (f n) c (k tt) q) → flow_at n c (modify f ≫= k) q.
Proof.
  intros Hok Hz Hk n' r H Hn. destruct (Hk Hn n' r H (Hok Hn)) as [Hn' Hz2]. split; [done|].
  intros z. by rewrite <-Hz2, Hz.
Qed.

(** Updates outside the channel buffers. *)
Lemma flow_state_same n c f q :
  (∀ l last, indexes_ok l last → indexes_ok (f l) last) → (∀ l z, waiting z (f l) = waiting z l) →
  (∀ z, occ z c = occ z (q tt)) → flow_at n c (set_state f) q.
Proof. intros Hok Hw Hz. apply flow_state; [apply Hok|]. intros z. by rewrite Hw, Hz. Qed.

Lemma flow_for_each {X} (g : X → list N) (f : X → proc (Node LeaderState) unit) xs n c :
  (∀ n x d, flow_at n (g x ++ d) (f x) (λ _, d)) →
  flow_at n ((xs ≫= g) ++ c) (for_each f xs) (λ _, c).
Proof.
  intros Hf. revert n. induction xs as [|x xs IH]; intros n; simpl; [by apply flow_ret|].
  rewrite <-app_assoc. eapply flow_bind; [apply Hf|]. intros. apply IH.
Qed.

End leaves.

(** * Every request is answered once

    The flow of reply channels through each of the leader's handlers: what a handler
    takes over it answers, or keeps in a buffer or pending map of the leader, exactly
    once. *)

Import Leader LeaderEvents.

Lemma bind_singletons {X} (h : X → N) (xs : list X) : (xs ≫= λ x, [h x]) = h <$> xs.
Proof. induction xs as [|x xs IH]; [done|]. simpl. by f_equal. Qed.

(** A state update that removes pending requests into one's hands, or changes other fields. *)
Ltac flow_set :=
  apply flow_state;
  [try (apply indexes_ok_same; reflexivity)
  |intros; unfold waiting; simpl; rewrite ?mocc_empty, ?fmap_app, ?occ_app, ?occ_nil; try lia].

Ltac flow_same := apply flow_state; [apply indexes_ok_same; reflexivity|done].

Section drains.
Context (env : Env).
Implicit Types (n : Node LeaderState) (c : list N).

Lemma execute_pending_reads_flow n c rs : flow_at n (rs.*2 ++ c) (execute_pending_reads env rs) (λ _, c).
Proof.
  rewrite <-(bind_singletons snd). apply flow_for_each. intros n1 [req ch] d. apply flow_reply.
Qed.

Lemma drain_pending_lease_reads_flow n c : flow_at n c (drain_pending_lease_reads env) (λ _, c).
Proof.
  apply flow_get. eapply (flow_bind _ _ _ _ (λ _, (plr_sender <$> pending_lease_reads (state n)) ++ c)).
  - flow_set.
  - intros n1 [] _ _. rewrite <-(bind_singletons plr_sender). apply flow_for_each.
    intros n2 e d. apply flow_reply.
Qed.

Definition same_state (n n' : Node LeaderState) : Prop := state n' = state n.
#[local] Instance same_state_preorder : PreOrder same_state.
Proof. split; [done|]. intros n1 n2 n3. unfold same_state. congruence. Qed.

(** The batches at hand leave [pending_reads] one by one. *)
Lemma serve_batches_flow ps n c :
  NoDup ps.*1 → (∀ k b, (k, b) ∈ ps → pending_reads (state n) !! k = Some b) →
  flow_at n c (for_each (λ p, set_state (λ l, l <| pending_reads ::= delete p.1 |>);;
                              execute_pending_reads env (prb_requests p.2)) ps) (λ _, c).
Proof.
  revert n. induction ps as [|[k b] ps IH]; intros n Hnd Hin; simpl in *; [by apply flow_ret|].
  apply NoDup_cons in Hnd as [Hk Hnd]. assert (pending_reads (state n) !! k = Some b) as Hb by (apply Hin; left).
  eapply (flow_bind _ _ _ _ (λ _, c)).
  - eapply (flow_bind _ _ _ _ (λ _, (prb_requests b).*2 ++ c)).
    + apply flow_state; [apply indexes_ok_same; reflexivity|]. intros z. unfold waiting. simpl.
      rewrite (mocc_delete _ z k b _ Hb), occ_app. lia.
    + intros n1 [] _ _. apply execute_pending_reads_flow.
  - intros n1 [] Hrun _. apply bind_inv in Hrun as (n2 & r2 & [= <- <-] & Hrun).
    assert (same_state (n <| state ::= λ l, l <| pending_reads ::= delete k |> |>) n1) as Hs.
    { eapply keeps_run; [|exact Hrun]. unfold execute_pending_reads, reply. solve_keeps. }
    apply IH; [done|]. intros k' b' Hin'. rewrite Hs. simpl.
    assert (k' ≠ k) by (intros ->; apply Hk; by apply (list_elem_of_fmap_2 fst) in Hin').
    rewrite lookup_delete_ne by done. apply Hin. by right.
Qed.

Lemma serve_pending_reads_flow n c upto : flow_at n c (serve_pending_reads env upto) (λ _, c).
Proof.
  apply flow_get. apply serve_batches_flow.
  - unfold om_range. eapply sublist_NoDup; [apply (om_iter_NoDup (pending_reads (state n)))|].
    apply fmap_sublist, sublist_filter.
  - intros k b [_ [_ H]]%elem_of_om_range. done.
Qed.

Lemma drain_pending_writes_with_error_flow n c code :
  flow_at n c (drain_pending_writes_with_error code) (λ _, c).
Proof.
  apply flow_get.
  eapply (flow_bind _ _ _ _ (λ _, (om_iter (pending_client_writes (state n)) ≫= λ p, wm_senders p.2) ++ c)).
  - apply flow_state.
    + intros I. eapply indexes_ok_sub; [..|exact I]; simpl; [apply map_empty_subseteq|done|apply (ix_buffer _ _ I)].
    + intros z. unfold waiting. simpl. rewrite occ_app, mocc_iter, mocc_empty. lia.
  - intros n1 [] _ _. apply flow_for_each. intros n2 p d. apply flow_reply_all.
Qed.

Lemma drain_commit_actions_flow n c k : flow_at n c (drain_commit_actions env k) (λ _, c).
Proof.
  apply flow_get.
  eapply (flow_bind _ _ _ _ (λ _, (om_range 0 k (pending_commit_actions (state n)) ≫= λ p, action_channels p.2) ++ c)).
  - apply flow_state.
    + intros I. eapply indexes_ok_sub; [..|exact I]; simpl; [done|done|apply (ix_buffer _ _ I)].
    + intros z. unfold waiting, om_range. simpl. rewrite occ_app.
      pose proof (mocc_split action_channels z (λ p, 0 <= p.1 ∧ p.1 <= k) (λ p, k < p.1)
        (pending_commit_actions (state n))) as Hs. rewrite <-Hs; [lia|]. intros x. lia.
  - intros n1 [] _ _. apply flow_for_each. intros n2 [i [dl act]] d. unfold action_channels. simpl.
    destruct act as [term|id addr ch]; simpl.
    + eapply (flow_bind _ _ _ _ (λ _, d)); [apply flow_get; flow_same|]. intros. apply (flow_emit _ d).
    + apply flow_get. apply flow_reply.
Qed.

End drains.

(** ** Committed writes wait for their application *)

Definition note_apply (m : gmap N N) (qs : list (N * N)) : gmap N N :=
  foldl (λ m q, <[q.1 := q.2]> m) m qs.

Lemma note_apply_lookup qs m i ch :
  note_apply m qs !! i = Some ch → m !! i = Some ch ∨ i ∈ qs.*1.
Proof.
  revert m. induction qs as [|[j d] qs IH]; intros m; simpl; [by left|].
  intros H. apply IH in H as [H|H]; [|right; by right].
  destruct (decide (j = i)) as [->|Hne]; [right; left|]. rewrite lookup_insert_ne in H by done. by left.
Qed.

Lemma note_apply_occ qs m z :
  NoDup qs.*1 → (∀ i, i ∈ qs.*1 → m !! i = None) →
  mocc (λ ch, [ch]) z (note_apply m qs) = (occ z qs.*2 + mocc (λ ch, [ch]) z m)%nat.
Proof.
  revert m. induction qs as [|[j d] qs IH]; intros m Hnd Hf; [done|]. csimpl in *.
  apply NoDup_cons in Hnd as [Hj Hnd]. rewrite IH; [|done|].
  - rewrite mocc_insert by (apply Hf; left).
    rewrite (occ_cons z d qs.*2). lia.
  - intros i Hi. rewrite lookup_insert_ne by (intros ->; done). apply Hf. by right.
Qed.

Lemma note_apply_run qs (n : Node LeaderState) :
  for_each (λ q : N * N, set_state (λ l, l <| pending_write_apply ::= <[q.1 := q.2]> |>)) qs n
  = Some (n <| state ::= λ l, l <| pending_write_apply ::= λ m, note_apply m qs |> |>, Ok tt).
Proof.
  revert n. induction qs as [|q qs IH]; intros n; [by destruct n as [? [] ????]|].
  simpl. unfold mbind, proc_bind. simpl. by rewrite IH.
Qed.

Lemma index_senders_snd i chs : (index_senders i chs).*2 = chs.
Proof. revert i. induction chs as [|c chs IH]; intros i; [done|]. simpl. by rewrite IH. Qed.

Lemma elem_of_index_senders i chs j :
  j ∈ (index_senders i chs).*1 ↔ i <= j ∧ j < i + N.of_nat (length chs).
Proof.
  revert i. induction chs as [|c chs IH]; intros i; simpl.
  - rewrite elem_of_nil. lia.
  - rewrite elem_of_cons, IH. lia.
Qed.

Lemma index_senders_NoDup i chs : NoDup (index_senders i chs).*1.
Proof.
  revert i. induction chs as [|c chs IH]; intros i; simpl; constructor; [|apply IH].
  rewrite elem_of_index_senders. lia.
Qed.

Section writes.
Context (env : Env).
Implicit Types (n : Node LeaderState) (c : list N).

(** Batches taken out of the map, still apart from each other and from what is pending. *)
Record batches_ok (ws : list (N * WriteMetadata)) (l : LeaderState) (last : N) : Prop := {
  bo_nodup : NoDup (ws ≫= λ p, batch_indexes p.2);
  bo_apart i : i ∈ (ws ≫= λ p, batch_indexes p.2) → pending_write_apply l !! i = None;
  bo_writes k w i : pending_client_writes l !! k = Some w → i ∈ batch_indexes w →
    i ∉ (ws ≫= λ p, batch_indexes p.2);
  bo_last i : i ∈ (ws ≫= λ p, batch_indexes p.2) → i <= last;
}.

(** Moving a batch to the writes that wait for their application. *)
Definition note_batch (w : WriteMetadata) (n : Node LeaderState) : Node LeaderState :=
  n <| state ::= λ l, l <| pending_write_apply ::=
                        λ m, note_apply m (index_senders (start_idx w) (wm_senders w)) |> |>.

Lemma note_batch_ok w ws n :
  requests_ok n → batches_ok (w :: ws) (state n) (last_entry_id (mem (raft_log n))) →
  requests_ok (note_batch w.2 n)
  ∧ batches_ok ws (state (note_batch w.2 n)) (last_entry_id (mem (raft_log (note_batch w.2 n)))).
Proof.
  destruct n as [sh l lg sv ev se]. unfold requests_ok, note_batch. simpl.
  intros [[H1 H2 H3 H4 H5 H6] Hs] [Hnd Ha Hw Hl]. simpl in *. apply NoDup_app in Hnd as (Hnd1 & Hdis & Hnd2).
  assert (∀ i ch, note_apply (pending_write_apply l) (index_senders (start_idx w.2) (wm_senders w.2)) !! i = Some ch →
    pending_write_apply l !! i = Some ch ∨ i ∈ batch_indexes w.2) as Hlook by (intros i ch; apply note_apply_lookup).
  split; [split; [|done]|]; split; simpl; try done.
  - intros k w' i Hk Hi. apply eq_None_not_Some. intros [ch [Hch|Hch]%Hlook].
    + by rewrite (H2 k w' i Hk Hi) in Hch.
    + apply (Hw k w' i Hk Hi). apply elem_of_app. by left.
  - intros i ch [Hch|Hch]%Hlook; [by eapply H4|]. apply Hl, elem_of_app. by left.
  - intros i Hi. apply eq_None_not_Some. intros [ch [Hch|Hch]%Hlook].
    + rewrite Ha in Hch; [done|]. apply elem_of_app. by right.
    + by apply (Hdis i Hch).
  - intros k w' i Hk Hi Hin. apply (Hw k w' i Hk Hi), elem_of_app. by right.
  - intros i Hi. apply Hl, elem_of_app. by right.
Qed.

Lemma settle_writes_flow ws n c :
  batches_ok ws (state n) (last_entry_id (mem (raft_log n))) →
  flow_at n ((ws ≫= λ p, wm_senders p.2) ++ c)
    (for_each (λ p : N * WriteMetadata,
      if wait_for_apply p.2
      then for_each (λ q : N * N, set_state (λ l, l <| pending_write_apply ::= <[q.1 := q.2]> |>))
             (index_senders (start_idx p.2) (wm_senders p.2))
      else reply_all (wm_senders p.2) (RClient write_success)) ws) (λ _, c).
Proof.
  revert n. induction ws as [|w ws IH]; intros n Hb; [by apply flow_ret|]. csimpl.
  rewrite <-app_assoc. destruct (wait_for_apply w.2).
  - intros n' r H Hok. apply bind_inv in H as (n1 & r1 & H1 & H). rewrite note_apply_run in H1.
    destruct (note_batch_ok w ws n Hok Hb) as [Hok1 Hb'].
    fold (note_batch w.2 n) in H1. injection H1 as <- <-.
    destruct (IH _ Hb' n' r H Hok1) as [Hok' Hz]. split; [done|]. intros z.
    specialize (Hz z). rewrite <-Hz, !occ_app. unfold held, waiting. simpl.
    rewrite note_apply_occ, index_senders_snd; [lia|apply index_senders_NoDup|].
    intros i Hin. apply (bo_apart _ _ _ Hb). simpl. apply elem_of_app. by left.
  - eapply flow_bind; [apply flow_reply_all|]. intros n1 [] [= <-] _. apply IH.
    destruct Hb as [Hnd Ha Hw Hl]. simpl in *. apply NoDup_app in Hnd as (_ & _ & Hnd).
    split; [done|intros i Hi; apply Ha|intros k w' i Hk Hi Hin; apply (Hw k w' i Hk Hi)|intros i Hi; apply Hl];
      simpl; apply elem_of_app; by right.
Qed.

Lemma drained_batches_ok l last k :
  indexes_ok l last →
  batches_ok (om_range 0 k (pending_client_writes l))
    (l <| pending_client_writes ::= filter (λ p, k < p.1) |>) last.
Proof.
  intros I.
  assert (∀ i, i ∈ (om_range 0 k (pending_client_writes l) ≫= λ p, batch_indexes p.2) →
    ∃ j w, pending_client_writes l !! j = Some w ∧ j <= k ∧ i ∈ batch_indexes w) as Hin.
  { intros i ([j w] & Hi & (_ & Hj & Hw)%elem_of_om_range)%list_elem_of_bind. by exists j, w. }
  split; simpl.
  - apply NoDup_bind.
    + intros [j1 w1] [j2 w2] i (_ & _ & H1)%elem_of_om_range (_ & _ & H2)%elem_of_om_range Hi1 Hi2.
      assert (j1 = j2) as -> by (by eapply (ix_disjoint _ _ I)). congruence.
    + intros [j w] _. apply index_senders_NoDup.
    + eapply (NoDup_fmap_1 fst). eapply sublist_NoDup; [apply (om_iter_NoDup (pending_client_writes l))|].
      apply fmap_sublist, sublist_filter.
  - intros i (j & w & Hw & _ & Hi)%Hin. by eapply (ix_apart _ _ I).
  - intros j' w' i [Hw' Hlt]%map_lookup_filter_Some Hi (j & w & Hw & Hle & Hi')%Hin.
    assert (j' = j) as -> by (by eapply (ix_disjoint _ _ I)). simpl in Hlt. lia.
  - intros i (j & w & Hw & _ & Hi)%Hin. by eapply (ix_writes _ _ I).
Qed.

Lemma drain_pending_client_writes_flow n c k : flow_at n c (drain_pending_client_writes k) (λ _, c).
Proof.
  apply flow_get.
  apply (flow_state_then _ _ ((om_range 0 k (pending_client_writes (state n)) ≫= λ p, wm_senders p.2) ++ c)).
  - intros I. eapply indexes_ok_sub; [..|exact I]; simpl;
      [apply map_filter_subseteq|done|apply (ix_buffer _ _ I)].
  - intros z. rewrite occ_app. unfold waiting, om_range. simpl.
    pose proof (mocc_split wm_senders z (λ p, 0 <= p.1 ∧ p.1 <= k) (λ p, k < p.1)
      (pending_client_writes (state n))) as Hsp. rewrite <-Hsp; [lia|]. intros x. lia.
  - intros [I _]. apply settle_writes_flow. exact (drained_batches_ok _ _ k I).
Qed.

Lemma advance_commit_flow n c k : flow_at n c (advance_commit env k) (λ _, c).
Proof.
  unfold advance_commit, update_commit_index_with_signal, my_term.
  eapply (flow_bind _ _ _ _ (λ _, c)); [by intros n' r [= <- <-]|]. intros n1 t _ _.
  eapply (flow_bind _ _ _ _ (λ _, c)).
  { eapply (flow_bind _ _ _ _ (λ _, c)); [apply flow_shared|]. intros. apply (flow_emit _ c). }
  intros n2 [] _ _. eapply (flow_bind _ _ _ _ (λ _, c)); [apply drain_pending_client_writes_flow|].
  intros. apply drain_commit_actions_flow.
Qed.

End writes.

(** ** The replication round *)

Definition write_channels (w : option WriteMetadata) : list N :=
  match w with Some meta => wm_senders meta | None => [] end.

Definition read_channels (rs : option (list LinearizableReadRequest)) : list N :=
  match rs with Some rs => rs.*2 | None => [] end.

(** Writes that are to be appended after index [last], with a payload for each sender. *)
Definition writes_follow (w : option WriteMetadata) (last : N) (payloads : nat) : Prop :=
  ∀ meta, w = Some meta → start_idx meta = last + 1 ∧ (length (wm_senders meta) <= payloads)%nat.

Lemma elem_of_batch_indexes w i :
  i ∈ batch_indexes w ↔ start_idx w <= i ∧ i < start_idx w + N.of_nat (length (wm_senders w)).
Proof. apply elem_of_index_senders. Qed.

Section round.
Context (env : Env).
Implicit Types (n : Node LeaderState) (c : list N).

Lemma reject_batch_flow n w rs c :
  flow_at n (write_channels w ++ read_channels rs ++ c) (reject_batch w rs) (λ _, c).
Proof.
  unfold reject_batch. eapply (flow_bind _ _ _ _ (λ _, read_channels rs ++ c)).
  - destruct w; [apply flow_reply_all|by apply flow_ret].
  - intros n1 [] _ _. destruct rs; [apply flow_reply_all|by apply flow_ret].
Qed.

(** Filing a batch that lies past everything pending. *)
Lemma file_batch_ok l last last' k w :
  indexes_ok l last → start_idx w = last + 1 → wm_senders w ≠ [] →
  k = start_idx w + N.of_nat (length (wm_senders w)) - 1 → k <= last' →
  indexes_ok (l <| pending_client_writes ::= <[k := w]> |>) last'
  ∧ pending_client_writes l !! k = None.
Proof.
  intros I Hst Hne -> Hle.
  assert (0 < N.of_nat (length (wm_senders w))) as Hpos by (destruct (wm_senders w); [done|simpl; lia]).
  set (k := start_idx w + _ - 1) in *.
  assert (pending_client_writes l !! k = None) as Hk.
  { apply eq_None_not_Some. intros [w' Hw']. pose proof (ix_key _ _ I k w' Hw') as Hin.
    apply (ix_writes _ _ I k w' k Hw') in Hin. lia. }
  assert (∀ j w' i, <[k := w]> (pending_client_writes l) !! j = Some w' → i ∈ batch_indexes w' →
    (j = k ∧ w' = w ∧ last < i ∧ i <= last') ∨ (j ≠ k ∧ pending_client_writes l !! j = Some w' ∧ i <= last)) as Hin.
  { intros j w' i [[<- <-]|[Hne' Hj]]%lookup_insert_Some Hi.
    - left. apply elem_of_batch_indexes in Hi. split_and!; [done|done|lia..].
    - right. split_and!; [done|done|]. by eapply (ix_writes _ _ I). }
  split; [|done]. split; simpl.
  - intros k1 k2 w1 w2 i H1 H2 Hi1 Hi2.
    destruct (Hin _ _ _ H1 Hi1) as [(-> & _ & ? & _)|(? & Hw1 & ?)],
      (Hin _ _ _ H2 Hi2) as [(-> & _ & ? & _)|(? & Hw2 & ?)]; [done|lia..|]. by eapply (ix_disjoint _ _ I).
  - intros j w' i Hj Hi. destruct (Hin _ _ _ Hj Hi) as [(_ & _ & ? & _)|(? & Hw & _)].
    + apply eq_None_not_Some. intros [ch Hch%(ix_apply _ _ I)]. lia.
    + by eapply (ix_apart _ _ I).
  - intros j w' i Hj Hi. destruct (Hin _ _ _ Hj Hi) as [(_ & _ & _ & ?)|(_ & _ & ?)]; [done|lia].
  - intros i ch Hch%(ix_apply _ _ I). lia.
  - intros j w' [[<- <-]|[_ Hj]]%lookup_insert_Some; [|by apply (ix_key _ _ I)].
    apply elem_of_batch_indexes. lia.
  - apply (ix_buffer _ _ I).
Qed.

(** Registering the writes of a round whose entries are in the log by now. *)
Lemma register_writes_flow n w last c :
  indexes_ok (state n) last →
  writes_follow w last (N.to_nat (last_entry_id (mem (raft_log n)) - last)) →
  flow_at n (write_channels w ++ c) (register_writes env w) (λ _, c).
Proof.
  intros I Hw. unfold register_writes. destruct w as [meta|]; [|by apply flow_ret].
  destruct (Hw meta eq_refl) as [Hst Hlen]. simpl.
  destruct (wm_senders meta) as [|ch chs] eqn:Hs; [by apply flow_ret|]. rewrite <-Hs.
  set (w := mkWriteMetadata _ _ _ _).
  destruct (file_batch_ok (state n) last (last_entry_id (mem (raft_log n)))
    (start_idx meta + N.of_nat (length (wm_senders meta)) - 1) w) as [Hok Hnone]; try done.
  - simpl. by rewrite Hs.
  - rewrite Hs in *. simpl in *. lia.
  - apply flow_state; [done|]. intros z. unfold waiting. simpl. rewrite mocc_insert by done.
    rewrite occ_app. unfold w. simpl. lia.
Qed.

Lemma route_reads_flow n rs c : flow_at n (read_channels rs ++ c) (route_reads env rs) (λ _, c).
Proof.
  apply flow_get. destruct rs as [rs|]; [|by apply flow_ret]. simpl.
  destruct (noop_log_id (state n)) as [i|]; [|apply flow_reply_all].
  destruct (_ && _); [apply execute_pending_reads_flow|].
  apply flow_state; [apply indexes_ok_same; reflexivity|].
  intros z. unfold waiting, enqueue_reads. simpl. rewrite occ_app.
  set (k := calculate_read_index _ _). destruct (pending_reads (state n) !! k) as [b|] eqn:Hb; simpl.
  - rewrite <-insert_delete_eq, mocc_insert by apply lookup_delete_eq. simpl.
    rewrite (mocc_delete _ z k b (pending_reads _) Hb), fmap_app, occ_app. lia.
  - rewrite mocc_insert by done. simpl. lia.
Qed.

(** Steps that only touch the replication side of the state. *)
Lemma dispatch_append_flow n c r : flow_at n c (dispatch_append env r) (λ _, c).
Proof.
  destruct r as [[id req] k]. apply flow_get. destruct (decide _); [by apply flow_ret|]. flow_same.
Qed.

Lemma dispatch_snapshot_flow n c m id : flow_at n c (dispatch_snapshot env m id) (λ _, c).
Proof.
  apply flow_get. cbv zeta. destruct (match _ with Some _ => _ | None => _ end); [by apply flow_ret|].
  destruct (decide _); [by apply flow_ret|]. flow_same.
Qed.

Lemma flow_for_each_none {X} (f : X → proc (Node LeaderState) unit) xs n c :
  (∀ n x, flow_at n c (f x) (λ _, c)) → flow_at n c (for_each f xs) (λ _, c).
Proof.
  intros Hf. revert n. induction xs as [|x xs IH]; intros n; simpl; [by apply flow_ret|].
  eapply flow_bind; [apply Hf|]. intros. apply IH.
Qed.

Lemma execute_flow n ps w rs :
  writes_follow w (last_entry_id (mem (raft_log n))) (length ps) →
  flow_at n (write_channels w ++ read_channels rs) (execute_and_process_raft_rpc env ps w rs) (λ _, []).
Proof.
  intros Hw. apply (flow_state_then _ _ (write_channels w ++ read_channels rs));
    [apply indexes_ok_same; reflexivity|done|]. intros _. set (n0 := n <| state ::= _ |>).
  apply flow_get. destruct (prepare_batch_requests _ _ _ _ _ _ _) as [[lg res]|] eqn:Hp; [|done].
  assert (requests_ok n0 → grows (mem (raft_log n0)) (mem lg) ∧
    ∀ pr, res = Ok pr → max_index (mem (raft_log n0)) + N.of_nat (length ps) <= max_index (mem lg)) as Hg.
  { intros [_ Hs]. by eapply prepare_batch_requests_grows. }
  assert (requests_ok n0 → requests_ok (n0 <| raft_log := lg |>)) as Hok.
  { intros H0. destruct (Hg H0) as [(Hs & _ & Hle) _]. destruct H0 as [I _].
    split; [by eapply indexes_ok_longer|done]. }
  destruct res as [pr|e]; (apply flow_modify_then; [exact Hok|done|intros H0]); set (n1 := n0 <| raft_log := lg |>).
  - destruct (Hg H0) as [_ Hlen]. specialize (Hlen pr eq_refl).
    eapply (flow_bind _ _ _ _ (λ _, read_channels rs)).
    { eapply register_writes_flow; [apply H0|]. intros meta Hm. destruct (Hw meta Hm) as [Hst Hl].
      split; [exact Hst|]. change (last_entry_id (mem (raft_log n1))) with (max_index (mem lg)).
      change (last_entry_id (mem (raft_log n0))) with (max_index (mem (raft_log n0))). lia. }
    intros n2 [] _ _. eapply (flow_bind _ _ _ _ (λ _, [])).
    { rewrite <-(app_nil_r (read_channels rs)). apply route_reads_flow. }
    intros n3 [] _ _. eapply (flow_bind _ _ _ _ (λ _, [])).
    { apply flow_for_each_none. intros. apply dispatch_append_flow. }
    intros n4 [] _ _. destruct (snapshot_metadata (sm env)); [|by apply flow_ret].
    apply flow_for_each_none. intros. apply dispatch_snapshot_flow.
  - eapply (flow_bind _ _ _ _ (λ _, [])); [|intros; apply flow_fail].
    rewrite <-(app_nil_r (read_channels rs)). apply reject_batch_flow.
Qed.

(** What [merge_batch_to_write_metadata] hands to a round. *)
Lemma merge_batch_channels batch start ps w :
  merge_batch_to_write_metadata env batch start = (ps, w) →
  ps = concat (rr_payloads <$> batch) ∧ write_channels w = concat (rr_senders <$> batch)
  ∧ ∀ meta, w = Some meta → start_idx meta = start ∧ wm_senders meta = concat (rr_senders <$> batch).
Proof.
  unfold merge_batch_to_write_metadata. destruct (_ && _) eqn:E; intros [= <- <-].
  - apply andb_prop in E as [_ E%bool_decide_eq_true]. split_and!; [done|by rewrite E|done].
  - split_and!; [done|done|]. by intros meta [= <-].
Qed.

(** A request with no more senders than payloads. *)
Definition request_ok (r : RaftRequestWithSignal) : Prop :=
  (length (rr_senders r) <= length (rr_payloads r))%nat.

Lemma merged_round_flow n r :
  request_ok r →
  flow_at n (rr_senders r)
    (n ← get;
     let '(payloads, writes) :=
       merge_batch_to_write_metadata env [r] (last_entry_id (mem (raft_log n)) + 1) in
     execute_and_process_raft_rpc env payloads writes None) (λ _, []).
Proof.
  intros Hr. apply flow_get. destruct (merge_batch_to_write_metadata _ _ _) as [ps w] eqn:Hm.
  apply merge_batch_channels in Hm as (-> & Hc & Hw). simpl in *. rewrite app_nil_r in *.
  eapply flow_weaken; [| |apply (execute_flow n _ w None)].
  - intros z. by rewrite app_nil_r, Hc.
  - done.
  - intros meta Hmeta. destruct (Hw meta Hmeta) as [-> ->]. split; [done|exact Hr].
Qed.

Lemma process_batch_flow n r : request_ok r → flow_at n (rr_senders r) (process_batch env [r]) (λ _, []).
Proof.
  intros Hr. apply (flow_state_then _ _ (rr_senders r)); [apply indexes_ok_same; reflexivity|done|].
  intros _. by apply merged_round_flow.
Qed.

Lemma internal_request_flow n p : flow_at n [] (execute_request_immediately env (internal_request p)) (λ _, []).
Proof. apply (process_batch_flow n (internal_request p)). unfold request_ok. simpl. lia. Qed.

Lemma send_heartbeat_or_batch_flow n r :
  (∀ req, r = Some req → request_ok req) →
  flow_at n (match r with Some req => rr_senders req | None => [] end) (send_heartbeat_or_batch env r) (λ _, []).
Proof.
  intros Hr. apply (flow_state_then _ _ (match r with Some req => rr_senders req | None => [] end));
    [apply indexes_ok_same; reflexivity|done|].
  intros _. destruct r as [req|]; [by apply merged_round_flow, Hr|]. by apply (execute_flow _ [] None None).
Qed.

(** Taking the buffered proposals. *)
Lemma take_proposals_flow n c :
  flow_at n c take_proposals (λ r, match r with Some req => rr_senders req | None => [] end ++ c).
Proof.
  apply flow_get. unfold propose_flush.
  destruct (pb_payloads (propose_buffer (state n))) as [|p ps] eqn:Hp.
  - eapply (flow_bind _ _ _ _ (λ _, c)); [|intros; by apply flow_ret].
    apply flow_state; [|done]. intros I. eapply indexes_ok_sub; [..|exact I]; try done. apply (ix_buffer _ _ I).
  - eapply (flow_bind _ _ _ _ (λ _, pb_senders (propose_buffer (state n)) ++ c)); [|intros; by apply flow_ret].
    apply flow_state.
    + intros I. eapply indexes_ok_sub; [..|exact I]; done.
    + intros z. unfold waiting. simpl. rewrite occ_app. lia.
Qed.

Lemma take_proposals_request n n1 r :
  requests_ok n → take_proposals n = Some (n1, Ok (Some r)) → request_ok r.
Proof.
  intros [I _] H. apply bind_inv in H as (n0 & r0 & [= <- <-] & H). pose proof (ix_buffer _ _ I) as Hb.
  unfold propose_flush in H. destruct (pb_payloads (propose_buffer (state n))) as [|p ps] eqn:Hp;
    apply bind_inv in H as (n2 & r2 & [= <- <-] & H); [discriminate H|]. injection H as <- <-.
  unfold request_ok. simpl. rewrite <-Hb. done.
Qed.

End round.
