(* ===== verification/LeaderRequests.v ===== *)
(** * Conservation of requests, handler by handler

    Each of the leader's handlers, with the channels it is given, ends with none in hand:
    they are answered or wait in the leader's state ([ClientFlow]). *)

From stdpp Require Import base tactics numbers option list sorting gmap strings.
From S2P Require Import Prelude Types Events ReadLease TermSegments BufferedLog Replication Election.
From S2P Require Import Proc Roles RoleState LeaderState Leader LeaderEvents RaftLoop ProcLogic HardStateSpec.
From S2P Require Import LeaderProgress ClientFlow.
Import Leader LeaderEvents.

(** One more step with the same channels in hand before and after. *)
Ltac flow_seq c := eapply (flow_bind _ _ _ _ (λ _, c)).

Section commands.
Context (env : Env).
Implicit Types (n : Node LeaderState) (c : list N).

Lemma push_client_cmd_flow n cmd : flow_at n (cmd_senders cmd) (push_client_cmd env cmd) (λ _, []).
Proof.
  apply flow_get. destruct cmd as [req ch|req ch|prefix ch]; simpl.
  - destruct (should_reject_write _ _); [apply flow_reply|]. destruct (cw_command req) as [x|]; [|apply flow_reply].
    apply flow_state.
    + intros I. eapply indexes_ok_sub; [..|exact I]; try done. simpl. rewrite !length_app. simpl.
      by rewrite (ix_buffer _ _ I).
    + intros z. unfold waiting. simpl. rewrite occ_app. lia.
  - destruct (determine_read_policy _ _); (destruct (should_reject_read _ _); [apply flow_reply|]);
      (apply flow_state; [apply indexes_ok_same; reflexivity|]);
      intros z; unfold waiting; simpl; rewrite fmap_app, occ_app; simpl; lia.
  - apply flow_reply.
Qed.

(** What [take_proposals] leaves alone. *)
Lemma take_proposals_keeps_log n n1 r :
  take_proposals n = Some (n1, Ok r) →
  raft_log n1 = raft_log n ∧ linearizable_read_buffer (state n1) = linearizable_read_buffer (state n)
  ∧ lease_read_queue (state n1) = lease_read_queue (state n).
Proof.
  intros H. apply bind_inv in H as (n0 & r0 & [= <- <-] & H). destruct (propose_flush _) as [r' b].
  apply bind_inv in H as (n2 & r2 & [= <- <-] & H). by injection H as <- <-.
Qed.

Lemma unified_flow n : flow_at n [] (unified_write_and_linear_read env) (λ _, []).
Proof.
  apply flow_ok. intros Hok. apply flow_get. eapply flow_bind; [apply take_proposals_flow|].
  intros n1 r Hr _. cbv beta. rewrite app_nil_r.
  pose proof (take_proposals_keeps_log n n1 r Hr) as (Hlog & Hbuf & _).
  assert (∀ req, r = Some req → request_ok req) as Hreq.
  { intros req ->. by eapply take_proposals_request. }
  set (pw := match r with Some req => (rr_payloads req, _) | None => _ end).
  assert (write_channels pw.2 = match r with Some req => rr_senders req | None => [] end
    ∧ ∀ n2, raft_log n2 = raft_log n → writes_follow pw.2 (last_entry_id (mem (raft_log n2))) (length pw.1))
    as [Hc Hw].
  { unfold pw. destruct r as [req|]; simpl; (split; [done|]); intros n2 Hn2 meta [= <-].
    simpl. rewrite Hn2. split; [done|by apply Hreq]. }
  rewrite <-Hc. destruct pw as [ps w]. cbn [fst snd] in *.
  destruct (linearizable_read_buffer (state n)) as [|rd rs] eqn:Hrd.
  - eapply flow_weaken; [| |apply (execute_flow env n1 ps w None), Hw, Hlog]; [|done].
    intros z. by rewrite app_nil_r.
  - apply (flow_state_then _ _ (write_channels w ++ read_channels (Some (rd :: rs)))).
    + apply indexes_ok_same; reflexivity.
    + intros z. unfold waiting. rewrite Hbuf, occ_app. simpl. rewrite occ_nil. lia.
    + intros _. apply execute_flow. apply Hw, Hlog.
Qed.

Definition same_lease_queue (n n' : Node LeaderState) : Prop :=
  lease_read_queue (state n') = lease_read_queue (state n).
#[local] Instance same_lease_queue_preorder : PreOrder same_lease_queue.
Proof. split; [done|]. intros n1 n2 n3. unfold same_lease_queue. congruence. Qed.

Lemma process_lease_read_flow n req ch : flow_at n [ch] (process_lease_read env req ch) (λ _, []).
Proof.
  assert (∀ ts, flow_at n [ch] (renew_lease env ts) (λ _, [ch])) as Hrenew.
  { intros ts n' r H Hok. unfold renew_lease, update_lease_timestamp in H.
    destruct (ReadLease.renew _ _); [|done]. by injection H as <- <-. }
  apply flow_get. destruct (is_lease_valid _ _); [apply flow_reply|].
  destruct (single_voter _); [eapply flow_bind; [apply Hrenew|]; intros; apply flow_reply|].
  flow_seq (@nil N).
  - apply flow_state; [apply indexes_ok_same; reflexivity|]. intros z. unfold waiting. simpl.
    rewrite fmap_app, occ_app. simpl. lia.
  - intros. by apply (execute_flow env _ [] None None).
Qed.

Lemma process_lease_read_queue req ch : keeps same_lease_queue (process_lease_read env req ch).
Proof.
  assert (∀ ts, keeps same_lease_queue (renew_lease env ts)) as Hrenew.
  { intros ts n n' r. unfold renew_lease, update_lease_timestamp.
    destruct (ReadLease.renew _ _); [|done]. by intros [= <- <-]. }
  unfold process_lease_read, execute_and_process_raft_rpc, reject_batch, register_writes, route_reads,
    dispatch_append, dispatch_snapshot, execute_pending_reads, reply_all, reply, set_state. cbv zeta.
  solve_keeps.
Qed.

Lemma process_lease_queue_flow q n :
  lease_read_queue (state n) = q → flow_at n [] (process_lease_queue env q) (λ _, []).
Proof.
  revert n. induction q as [|[req ch] q IH]; intros n Hq; [by apply flow_ret|]. simpl.
  apply (flow_state_then _ _ [ch]).
  - apply indexes_ok_same; reflexivity.
  - intros z. unfold waiting. rewrite Hq. csimpl. rewrite (occ_cons z ch q.*2), ?occ_nil. lia.
  - intros _. eapply flow_bind.
    { eapply flow_attempt, process_lease_read_flow. }
    intros n1 r Hr _. eapply flow_weaken; [intros z; by destruct r|done|apply IH].
    unfold attempt in Hr. destruct (process_lease_read _ _ _ _) as [[n2 r2]|] eqn:E; [|done].
    injection Hr as <- <-. apply process_lease_read_queue in E. rewrite E. done.
Qed.

Lemma flush_cmd_buffers_flow n : flow_at n [] (flush_cmd_buffers env) (λ _, []).
Proof.
  apply flow_get. cbv zeta. flow_seq (@nil N).
  { destruct (_ && _).
    - apply flow_ok. intros Hok. eapply flow_bind; [apply take_proposals_flow|].
      intros n1 r Hr _. cbv beta. rewrite app_nil_r. destruct r as [req|]; [|by apply flow_ret].
      by eapply process_batch_flow, take_proposals_request.
    - destruct (_ || _); [apply unified_flow|by apply flow_ret]. }
  intros n1 [] _ _. apply flow_get. flow_seq (@nil N); [by apply process_lease_queue_flow|].
  intros n2 [] _ _. apply flow_get. eapply (flow_bind _ _ _ _ (λ _, (eventual_read_queue (state n2)).*2 ++ [])).
  - apply flow_state; [apply indexes_ok_same; reflexivity|]. intros z. unfold waiting. simpl.
    rewrite occ_app. rewrite ?occ_nil. lia.
  - intros n3 [] _ _. rewrite <-(bind_singletons snd). apply flow_for_each.
    intros n4 [req ch] d. apply flow_reply.
Qed.

End commands.

(** ** Deadlines *)

Section deadlines.
Context (env : Env).
Implicit Types (n : Node LeaderState) (c : list N).

Lemma expire_writes_flow n c : flow_at n c (expire_writes env) (λ _, c).
Proof.
  apply flow_get. cbv zeta. eapply (flow_bind _ _ _ _ (λ _,
    (filter (λ p : N * WriteMetadata, wm_deadline p.2 <= now env)
       (om_iter (pending_client_writes (state n))) ≫= λ p, wm_senders p.2) ++ c)).
  - apply flow_state.
    + intros I. eapply indexes_ok_sub; [..|exact I]; simpl;
        [apply map_filter_subseteq|done|apply (ix_buffer _ _ I)].
    + intros z. rewrite occ_app. unfold waiting. simpl.
      rewrite <-(mocc_split wm_senders z (λ p : N * WriteMetadata, wm_deadline p.2 <= now env)
        (λ p : N * WriteMetadata, ¬ wm_deadline p.2 <= now env) (pending_client_writes (state n))); [lia|done].
  - intros n1 [] _ _. apply flow_for_each. intros. apply flow_reply_all.
Qed.

Lemma expire_reads_flow n c : flow_at n c (expire_reads env) (λ _, c).
Proof.
  apply flow_get. cbv zeta. eapply (flow_bind _ _ _ _ (λ _,
    (filter (λ p : N * PendingReadBatch, prb_deadline p.2 <= now env)
       (om_iter (pending_reads (state n))) ≫= λ p, (prb_requests p.2).*2) ++ c)).
  - apply flow_state; [apply indexes_ok_same; reflexivity|].
    intros z. rewrite occ_app. unfold waiting. simpl.
    rewrite <-(mocc_split (λ b, (prb_requests b).*2) z (λ p : N * PendingReadBatch, prb_deadline p.2 <= now env)
      (λ p : N * PendingReadBatch, ¬ prb_deadline p.2 <= now env) (pending_reads (state n))); [lia|done].
  - intros n1 [] _ _. apply (flow_for_each (λ p : N * PendingReadBatch, (prb_requests p.2).*2)).
    intros. apply flow_reply_all.
Qed.

Lemma expire_lease_reads_flow n c : flow_at n c (expire_lease_reads env) (λ _, c).
Proof.
  apply flow_get. cbv zeta. eapply (flow_bind _ _ _ _ (λ _,
    (plr_sender <$> filter (λ e, plr_deadline e <= now env) (pending_lease_reads (state n))) ++ c)).
  - apply flow_state; [apply indexes_ok_same; reflexivity|].
    intros z. rewrite occ_app. unfold waiting. simpl.
    rewrite <-(occ_perm z (plr_sender <$> (filter (λ e, plr_deadline e <= now env) (pending_lease_reads (state n))
      ++ filter (λ e, ¬ plr_deadline e <= now env) (pending_lease_reads (state n))))
      (plr_sender <$> pending_lease_reads (state n))).
    + rewrite fmap_app, occ_app. lia.
    + by rewrite filter_app_complement.
  - intros n1 [] _ _. apply flow_reply_all.
Qed.

Lemma expire_commit_actions_flow n c : flow_at n c (expire_commit_actions env) (λ _, c).
Proof.
  apply flow_get. cbv zeta. eapply (flow_bind _ _ _ _ (λ _,
    (filter (λ p : N * PostCommitEntry, pce_deadline p.2 <= now env)
       (om_iter (pending_commit_actions (state n))) ≫= λ p, action_channels p.2) ++ c)).
  - apply flow_state; [apply indexes_ok_same; reflexivity|].
    intros z. rewrite occ_app. unfold waiting. simpl.
    rewrite <-(mocc_split action_channels z (λ p : N * PostCommitEntry, pce_deadline p.2 <= now env)
      (λ p : N * PostCommitEntry, ¬ pce_deadline p.2 <= now env) (pending_commit_actions (state n))); [lia|done].
  - intros n1 [] _ _. flow_seq c.
    + apply (flow_for_each (λ p : N * PostCommitEntry, action_channels p.2)).
      intros n2 [k [dl act]] d. unfold action_channels. simpl.
      destruct act; [by apply flow_ret|apply flow_reply].
    + intros n2 [] _ _. destruct (existsb _ _); [apply (flow_emit _ c)|by apply flow_ret].
Qed.

Lemma stale_front_flow n : flow_at n [] (check_and_purge_stale_front env) (λ _, []).
Proof.
  apply flow_get. destruct (split_stale _ _ _) as [ids rest]. flow_seq (@nil N); [flow_same|].
  intros n1 [] _ _. apply flow_for_each_none. intros n2 id.
  eapply flow_bind; [eapply flow_attempt, internal_request_flow|].
  intros n3 r _ _. apply flow_ret. intros z. by destruct r.
Qed.

Lemma tick_flow n : flow_at n [] (tick env) (λ _, []).
Proof.
  apply flow_get. flow_seq (@nil N); [apply flow_shared|]. intros n1 [] _ _. flow_seq (@nil N).
  { destruct (stale_check_deadline _) as [d|]; [|by apply flow_ret].
    destruct (d <=? _); [|by apply flow_ret].
    eapply flow_bind; [eapply flow_attempt, stale_front_flow|].
    intros n2 r _ _. apply flow_ret. intros z. by destruct r. }
  intros n2 [] _ _. apply flow_get. flow_seq (@nil N).
  { destruct (_ <=? _); [|by apply flow_ret]. apply flow_ok. intros Hok.
    eapply flow_bind; [apply take_proposals_flow|]. intros n3 r Hr _. cbv beta. rewrite app_nil_r.
    apply send_heartbeat_or_batch_flow. intros req ->. by eapply take_proposals_request. }
  intros n3 [] _ _. flow_seq (@nil N); [apply expire_writes_flow|].
  intros n4 [] _ _. flow_seq (@nil N); [apply expire_reads_flow|].
  intros n5 [] _ _. flow_seq (@nil N); [apply expire_lease_reads_flow|].
  intros n6 [] _ _. apply expire_commit_actions_flow.
Qed.

End deadlines.

(** ** Post-commit actions *)

(** Actions wait for indexes of the log. *)
Definition actions_ok (n : Node LeaderState) : Prop :=
  ∀ k a, pending_commit_actions (state n) !! k = Some a → k <= last_entry_id (mem (raft_log n)).

(** The log grows and actions are only removed. *)
Definition shrinks (n n' : Node LeaderState) : Prop :=
  sound_ids (mem (raft_log n)) →
  sound_ids (mem (raft_log n')) ∧ last_entry_id (mem (raft_log n)) <= last_entry_id (mem (raft_log n'))
  ∧ pending_commit_actions (state n') ⊆ pending_commit_actions (state n).

#[global] Instance shrinks_preorder : PreOrder shrinks.
Proof.
  split; [intros n H; by split_and!|]. intros n1 n2 n3 H12 H23 H1.
  destruct (H12 H1) as (H2 & ? & ?). destruct (H23 H2) as (H3 & ? & ?). split_and!; [done|lia|by etrans].
Qed.

Lemma shrinks_same n n' :
  mem (raft_log n') = mem (raft_log n) → pending_commit_actions (state n') ⊆ pending_commit_actions (state n) → shrinks n n'.
Proof. intros Hl Ha Hs. by rewrite Hl. Qed.

Lemma shrinks_actions_ok n n' :
  sound_ids (mem (raft_log n)) → shrinks n n' → actions_ok n → actions_ok n'.
Proof.
  intros Hs H Ha k a Hk. destruct (H Hs) as (_ & Hle & Hsub).
  etrans; [by eapply Ha, lookup_weaken|done].
Qed.

#[local] Hint Extern 1 (shrinks _ _) =>
  (apply shrinks_same; [reflexivity|first [reflexivity | apply map_filter_subseteq]]) : keeps.

Section actions.
Context (env : Env).

Lemma renew_lease_shrinks ts : keeps shrinks (renew_lease env ts).
Proof.
  intros n n' r. unfold renew_lease, update_lease_timestamp.
  destruct (ReadLease.renew _ _); [|done]. intros [= <- <-]. by apply shrinks_same.
Qed.

Lemma new_commit_index_shrinks : keeps shrinks new_commit_index.
Proof.
  intros n n' r. unfold new_commit_index. destruct (calculate_new_commit_index _ _ _); [|done].
  by intros [= <- <-].
Qed.

Lemma commit_hard_state_shrinks t v : keeps shrinks (commit_hard_state (R := LeaderState) env t v).
Proof.
  intros n n' r H. apply commit_hard_state_frame in H as (Hs & Hl & _).
  apply shrinks_same; [by destruct Hl as [-> | ->]|by rewrite Hs].
Qed.

Lemma dispatch_append_shrinks r : keeps shrinks (dispatch_append env r).
Proof. destruct r as [[id req] k]. unfold dispatch_append, set_state. cbv zeta. solve_keeps. Qed.

Lemma dispatch_snapshot_shrinks m id : keeps shrinks (dispatch_snapshot env m id).
Proof. unfold dispatch_snapshot, set_state. cbv zeta. solve_keeps. Qed.

#[local] Hint Resolve renew_lease_shrinks new_commit_index_shrinks commit_hard_state_shrinks
  dispatch_append_shrinks dispatch_snapshot_shrinks : keeps.

(** A round adds its entries to the log, and leaves the actions as they are. *)
Lemma execute_shrinks ps w rs n n' r :
  execute_and_process_raft_rpc env ps w rs n = Some (n', r) →
  shrinks n n'
  ∧ (sound_ids (mem (raft_log n)) → r = Ok tt →
     last_entry_id (mem (raft_log n)) + N.of_nat (length ps) <= last_entry_id (mem (raft_log n'))).
Proof.
  intros H. apply bind_inv in H as (n0 & r0 & [= <- <-] & H). apply bind_inv in H as (n0 & r0 & [= <- <-] & H).
  revert H. cbn [raft_log state shared].
  destruct (prepare_batch_requests _ _ _ _ _ _ _) as [[lg res]|] eqn:Hp; [|done].
  assert (sound_ids (mem (raft_log n)) → grows (mem (raft_log n)) (mem lg) ∧
    ∀ pr, res = Ok pr → max_index (mem (raft_log n)) + N.of_nat (length ps) <= max_index (mem lg)) as Hg.
  { intros Hs. by eapply prepare_batch_requests_grows. }
  assert (∀ k : proc (Node LeaderState) unit, keeps shrinks k → ∀ m, raft_log m = raft_log n →
    pending_commit_actions (state m) = pending_commit_actions (state n) →
    (modify (λ n, n <| raft_log := lg |>);; k) m = Some (n', r) →
    shrinks n n' ∧ (sound_ids (mem (raft_log n)) → max_index (mem lg) <= last_entry_id (mem (raft_log n')))) as Hrun.
  { intros k Hk m Hm Ha H. apply bind_inv in H as (n1 & r1 & H1 & H). unfold modify in H1.
    assert (n1 = m <| raft_log := lg |>) as -> by (by injection H1 as <- <-).
    assert (r1 = Ok tt) as -> by (by injection H1 as <-). apply Hk in H.
    split.
    - intros Hs. destruct (Hg Hs) as [(Hs' & _ & Hle) _]. destruct (H Hs') as (? & Hle' & Hsub).
      split_and!; [done|etrans; [exact Hle|exact Hle']|]. simpl in Hsub. by rewrite Ha in Hsub.
    - intros Hs. destruct (Hg Hs) as [(Hs' & _ & _) _]. by destruct (H Hs') as (_ & ? & _). }
  destruct res as [pr|e]; intros H; pose proof H as Hfull; eapply Hrun in H as [Hsh Hmax]; try done.
  - split; [done|]. intros Hs _. destruct (Hg Hs) as [_ Hlen].
    etrans; [by apply (Hlen pr)|by apply Hmax].
  - unfold register_writes, route_reads, enqueue_reads, execute_pending_reads, reply_all, reply, set_state.
    solve_keeps.
  - split; [done|]. intros _ ->. apply bind_ok_inv in Hfull as (? & ? & _ & Hfull).
    by apply bind_ok_inv in Hfull as (? & ? & _ & [=]).
  - unfold reject_batch, reply_all. solve_keeps.
Qed.

Lemma execute_keeps_shrinks ps w rs : keeps shrinks (execute_and_process_raft_rpc env ps w rs).
Proof. intros n n' r H. by apply execute_shrinks in H as [? _]. Qed.
#[local] Hint Resolve execute_keeps_shrinks : keeps.

Lemma process_lease_queue_shrinks q : keeps shrinks (process_lease_queue env q).
Proof.
  induction q as [|[req sender] q IH]; simpl; [solve_keeps|].
  apply keeps_bind; [apply _|unfold set_state; solve_keeps|intros _]. apply keeps_bind; [apply _| |done].
  unfold process_lease_read, reply, set_state. solve_keeps.
Qed.

(** The updates of the peers leave the actions alone. *)
Lemma init_peers_actions last ids l :
  pending_commit_actions (init_peers_next_index_and_match_index last ids l) = pending_commit_actions l.
Proof.
  unfold init_peers_next_index_and_match_index. revert l. induction ids as [|id ids IH]; intros l; [done|].
  simpl. by rewrite IH, update_match_index_0.
Qed.

Lemma update_peer_index_actions id u l :
  pending_commit_actions (update_peer_index id u l) = pending_commit_actions l.
Proof.
  unfold update_peer_index, update_match_index.
  destruct (pu_match_index u), (pu_success u); simpl; try destruct (_ <? _); done.
Qed.

Lemma handle_snapshot_push_completed_actions id b c t l :
  pending_commit_actions (handle_snapshot_push_completed id b c t l) = pending_commit_actions l.
Proof. unfold handle_snapshot_push_completed. destruct (negb _); [done|]. by destruct (_ !! _). Qed.

Lemma handle_peer_stream_error_actions id l :
  pending_commit_actions (handle_peer_stream_error id l) = pending_commit_actions l.
Proof. unfold handle_peer_stream_error. by case_decide. Qed.

Lemma shrinks_state (f : LeaderState → LeaderState) (n : Node LeaderState) :
  pending_commit_actions (f (state n)) = pending_commit_actions (state n) → shrinks n (n <| state ::= f |>).
Proof. intros H. apply shrinks_same; [done|]. simpl. by rewrite H. Qed.

Lemma update_commit_shrinks c :
  keeps shrinks (modify (S := Node LeaderState) (λ n, n <| shared ::= update_commit_index (R := LeaderState) c |>)).
Proof. apply keeps_modify. intros n. by apply shrinks_same. Qed.

#[local] Hint Resolve process_lease_queue_shrinks shrinks_state init_peers_actions update_peer_index_actions
  handle_snapshot_push_completed_actions handle_peer_stream_error_actions update_commit_shrinks : keeps.

(** The handlers that register actions or purge the log. *)
Definition registers (p : proc (Node LeaderState) unit) : Prop :=
  p = initiate_noop_commit env ∨ (∃ req ch, p = handle_inbound_event env (JoinCluster req ch))
  ∨ ∃ r, p = handle_snapshot_created env r.

Lemma leader_handler_shrinks chs p : leader_handler env chs p → registers p ∨ keeps shrinks p.
Proof.
  unfold registers. intros []; try (destruct ev); try solve [left; eauto 8]; right; leader_keeps.
Qed.

End actions.

(** ** Registering actions *)

Section registration.
Context (env : Env).
Implicit Types (n : Node LeaderState).

Definition same_actions (n n' : Node LeaderState) : Prop :=
  pending_commit_actions (state n') = pending_commit_actions (state n).
#[local] Instance same_actions_preorder : PreOrder same_actions.
Proof. split; [done|]. intros n1 n2 n3. unfold same_actions. congruence. Qed.

Lemma request_actions r : keeps same_actions (execute_request_immediately env r).
Proof.
  unfold execute_request_immediately, process_batch, execute_and_process_raft_rpc, reject_batch, register_writes,
    route_reads, dispatch_append, dispatch_snapshot, execute_pending_reads, reply_all, reply, set_state.
  cbv zeta. solve_keeps.
Qed.

(** An internal request adds one entry. *)
Lemma request_grows n p n' :
  sound_ids (mem (raft_log n)) →
  execute_request_immediately env (internal_request p) n = Some (n', Ok tt) →
  last_entry_id (mem (raft_log n)) + 1 <= last_entry_id (mem (raft_log n')).
Proof.
  intros Hs H. apply bind_ok_inv in H as (n1 & [] & [= <-] & H). apply bind_ok_inv in H as (n2 & ? & [= <- <-] & H).
  destruct (merge_batch_to_write_metadata _ _ _) as [ps w] eqn:Hm.
  apply merge_batch_channels in Hm as (-> & _). apply execute_shrinks in H as [_ H]. by apply H.
Qed.

Lemma initiate_noop_flow n : actions_ok n → flow_at n [] (initiate_noop_commit env) (λ _, []).
Proof.
  intros Ha. apply flow_get. cbv zeta. set (k := _ + 1). set (a := mkPostCommitEntry _ _).
  assert (pending_commit_actions (state n) !! k = None) as Hk.
  { apply eq_None_not_Some. intros [b Hb%Ha]. unfold k in Hb. lia. }
  apply (flow_state_then _ _ []); [apply indexes_ok_same; reflexivity| |].
  { intros z. unfold waiting. simpl. rewrite mocc_insert by done. done. }
  intros _. eapply flow_bind; [eapply flow_attempt, internal_request_flow|].
  intros n1 r Hr _. destruct r as [[]|e]; [by apply flow_ret|].
  unfold attempt in Hr. destruct (execute_request_immediately _ _ _) as [[n2 r2]|] eqn:E; [|done].
  injection Hr as <- ->. apply request_actions in E. unfold same_actions in E. simpl in E.
  eapply (flow_bind _ _ _ _ (λ _, [])); [|intros; apply flow_fail].
  apply flow_state; [apply indexes_ok_same; reflexivity|]. intros z. unfold waiting. simpl.
  rewrite (mocc_delete action_channels z k a (pending_commit_actions (state n2)));
    [|rewrite E; apply lookup_insert_eq]. simpl. lia.
Qed.

Lemma handle_join_cluster_flow n req ch :
  actions_ok n → flow_at n [ch] (handle_join_cluster env req ch) (λ _, []).
Proof.
  intros Ha. unfold handle_join_cluster. cbv zeta.
  assert (∀ m e s, flow_at m [ch] (reply ch (RStatus s);; fail (A := unit) e) (λ _, [])) as Hrefuse.
  { intros m e s. eapply flow_bind; [apply flow_reply|]. intros. apply flow_fail. }
  destruct (mv_contains_node _ _); [apply Hrefuse|]. destruct (negb _); [apply Hrefuse|].
  intros n' r H Hok. apply bind_inv in H as (n1 & r1 & H1 & H). unfold attempt in H1.
  set (q := internal_request _) in H1.
  destruct (execute_request_immediately env q n) as [[n2 r2]|] eqn:E; [|done]. injection H1 as <- <-.
  pose proof (request_actions _ _ _ _ E) as Hact.
  assert (flow_at n [] (execute_request_immediately env q) (λ _, [])) as Hq by apply internal_request_flow.
  destruct (Hq n2 r2 E Hok) as [Hok2 Hz2].
  assert (flow_at n2 [ch] (match r2 with
    | Ok _ => n ← get; set_state (λ l, l <| pending_commit_actions ::=
        <[last_entry_id (mem (raft_log n)) := mkPostCommitEntry (now env + verify_leadership_timeout_ms (config env))
            (NodeJoin (jr_node_id req) (jr_address req) ch)]> |>)
    | Err e => reply ch (RStatus (FailedPrecondition "Join request submission failed"));; fail e end) (λ _, [])) as Hfl.
  { destruct r2 as [[]|e]; [|apply Hrefuse]. apply flow_get.
    apply flow_state; [apply indexes_ok_same; reflexivity|]. intros z. unfold waiting. simpl.
    rewrite mocc_insert; [unfold action_channels at 2; simpl; rewrite ?occ_nil; lia|]. rewrite Hact. apply eq_None_not_Some. intros [b Hb%Ha].
    destruct Hok as [_ Hs]. apply (request_grows n _ n2 Hs) in E. lia. }
  destruct (Hfl n' r) as [Hok' Hz']; [by destruct r2|done|]. split; [done|]. intros z.
  specialize (Hz2 z). specialize (Hz' z). destruct r2; simpl in *; rewrite ?occ_nil in *; lia.
Qed.

End registration.

(** * Conservation over all of the leader's handlers

    The remaining handlers (commit, apply, inbound events, membership), the invariant of
    the pending requests, and the statement for every handler the loop runs on a leader;
    then what stepping down leaves unanswered. *)

Import Leader LeaderEvents.

Section handlers.
Context (env : Env).
Implicit Types (n : Node LeaderState) (c : list N).

Lemma renew_lease_flow n c ts : flow_at n c (renew_lease env ts) (λ _, c).
Proof.
  intros n' r H Hok. unfold renew_lease, update_lease_timestamp in H.
  destruct (ReadLease.renew _ _); [|done]. by injection H as <- <-.
Qed.

Lemma new_commit_index_flow n c : flow_at n c new_commit_index (λ _, c).
Proof.
  intros n' r H Hok. unfold new_commit_index in H.
  destruct (calculate_new_commit_index _ _ _); [|done]. by injection H as <- <-.
Qed.

Lemma handle_log_flushed_flow n d : flow_at n [] (handle_log_flushed env d) (λ _, []).
Proof.
  apply flow_get. cbv zeta. flow_seq (@nil N).
  { destruct (single_voter _); [by apply flow_ret|apply new_commit_index_flow]. }
  intros n1 [k|] _ _; [|by apply flow_ret]. flow_seq (@nil N); [apply advance_commit_flow|].
  intros n2 [] _ _. destruct (single_voter _); [|by apply flow_ret].
  flow_seq (@nil N); [apply renew_lease_flow|]. intros. apply drain_pending_lease_reads_flow.
Qed.

(** Committing a hard state carries no channel; it fails only with the meta store. *)
Lemma commit_hard_state_flow n t v c :
  saves_ok env n ∨ c = [] → flow_at n c (commit_hard_state (R := LeaderState) env t v) (λ _, c).
Proof.
  intros Hc n' r H Hok. pose proof (commit_hard_state_frame env t v n n' r H) as (Hs & Hl & Hse & _ & He & _).
  assert (mem (raft_log n') = mem (raft_log n)) as Hm by (by destruct Hl as [-> | ->]).
  unfold requests_ok, held. rewrite Hs, Hm, Hse, He. split; [exact Hok|]. intros z.
  destruct r as [b|e]; [done|]. destruct Hc as [Hsv| ->]; [|done].
  apply commit_hard_state_spec in H as [[b [=]] _]. done.
Qed.

Lemma step_down_for_term_flow n t : flow_at n [] (step_down_for_term env t) (λ _, []).
Proof.
  flow_seq (@nil N); [apply commit_hard_state_flow; by right|]. intros n1 b _ _.
  flow_seq (@nil N); [apply drain_pending_writes_with_error_flow|]. intros n2 [] _ _.
  flow_seq (@nil N); [apply flow_shared|]. intros n3 [] _ _.
  flow_seq (@nil N); [apply (flow_emit _ [])|]. intros. apply flow_fail.
Qed.

Lemma check_learner_progress_flow n p : flow_at n [] (check_learner_progress env p) (λ _, []).
Proof.
  apply flow_get. destruct (_ <? _); [by apply flow_ret|]. flow_seq (@nil N); [flow_same|].
  intros n1 [] _ _. destruct p as [|x xs]; [by apply flow_ret|]. cbv zeta.
  destruct (deduplicate_promotions _ _); [by apply flow_ret|].
  flow_seq (@nil N); [flow_same|]. intros n2 [] _ _. apply flow_get. flow_seq (@nil N).
  { destruct (stale_check_deadline _); [by apply flow_ret|flow_same]. }
  intros. apply (flow_emit _ []).
Qed.

Lemma voter_acknowledged_flow n : flow_at n [] (voter_acknowledged env) (λ _, []).
Proof.
  flow_seq (@nil N); [apply new_commit_index_flow|]. intros n1 k _ _. flow_seq (@nil N).
  { destruct k; [apply advance_commit_flow|by apply flow_ret]. }
  intros n2 [] _ _. apply flow_get. destruct (calculate_majority_matched_index _ _ _ _) as [[k'|]|];
    [|by apply flow_ret|apply flow_panic].
  cbv zeta. flow_seq (@nil N); [apply renew_lease_flow|]. intros n3 [] _ _.
  flow_seq (@nil N); [apply drain_pending_lease_reads_flow|]. intros. apply serve_pending_reads_flow.
Qed.

(** Updates of the peers' progress leave every request alone. *)
Lemma update_peer_index_flow n id u : flow_at n [] (set_state (update_peer_index id u)) (λ _, []).
Proof.
  apply flow_state_same; [| |done].
  - intros l last. unfold update_peer_index, update_match_index.
    destruct (pu_match_index u), (pu_success u); simpl; try destruct (_ <? _); apply indexes_ok_same; done.
  - intros l z. unfold update_peer_index, update_match_index.
    destruct (pu_match_index u), (pu_success u); simpl; try destruct (_ <? _); done.
Qed.

Lemma handle_append_result_flow n id res : flow_at n [] (handle_append_result env id res) (λ _, []).
Proof.
  apply flow_get. cbv zeta. destruct res as [resp|e]; [|by apply flow_ret].
  destruct (_ <? _); [by apply flow_ret|]. destruct (_ <? _); [apply step_down_for_term_flow|].
  destruct (interpret_response _ _ _ _ _) as [[[u|t]|]|e];
    [|apply step_down_for_term_flow|by apply flow_ret|apply flow_fail].
  flow_seq (@nil N); [apply update_peer_index_flow|]. intros n1 [] _ _. apply flow_get. flow_seq (@nil N).
  { destruct (is_voter_target _ _); [by apply flow_ret|].
    destruct (learner_progress _) as [|x xs]; [by apply flow_ret|].
    eapply flow_bind; [eapply flow_attempt, check_learner_progress_flow|].
    intros n2 r _ _. apply flow_ret. intros z. by destruct r. }
  intros n2 [] _ _. destruct (_ && _); [apply voter_acknowledged_flow|by apply flow_ret].
Qed.

(** ** Apply *)

Lemma take_responses_spec rs m out m' z :
  take_responses rs m = (out, m') →
  m' ⊆ m ∧ (mocc (λ ch, [ch]) z m = occ z out.*2 + mocc (λ ch, [ch]) z m')%nat.
Proof.
  revert m out m'. induction rs as [|r rs IH]; intros m out m'; simpl; [by intros [= <- <-]|].
  destruct (m !! apr_index r) as [ch|] eqn:Hm; [|apply IH].
  destruct (take_responses rs _) as [out1 m1] eqn:E. intros [= <- <-].
  apply IH in E as [Hsub Hocc]. split; [etrans; [exact Hsub|apply delete_subseteq]|].
  rewrite (mocc_delete _ z _ ch m Hm), Hocc. csimpl. rewrite (occ_cons z ch out1.*2). lia.
Qed.

Lemma handle_apply_completed_flow n i rs : flow_at n [] (handle_apply_completed env i rs) (λ _, []).
Proof.
  apply flow_get. destruct (take_responses _ _) as [out w] eqn:E.
  eapply (flow_bind _ _ _ _ (λ _, out.*2 ++ [])).
  { apply flow_state.
    - intros I. eapply indexes_ok_sub; [..|exact I]; simpl; [done| |apply (ix_buffer _ _ I)].
      by destruct (take_responses_spec _ _ _ _ 0 E).
    - intros z. destruct (take_responses_spec _ _ _ _ z E) as [_ Hz]. unfold waiting. simpl.
      rewrite occ_app, Hz. rewrite ?occ_nil. lia. }
  intros n1 [] _ _. flow_seq (@nil N).
  { rewrite <-(bind_singletons snd). apply flow_for_each. intros n2 [r ch] d. apply flow_reply. }
  intros n2 [] _ _. flow_seq (@nil N); [apply serve_pending_reads_flow|]. intros n3 [] _ _.
  unfold my_term. flow_seq (@nil N); [by intros n' r [= <- <-]|]. intros n4 t _ _.
  unfold check_and_trigger_snapshot. destruct (_ && _); [apply (flow_emit _ [])|by apply flow_ret].
Qed.

(** ** Inbound events *)

Lemma replies_run {X} (g : X → list N) st xs n :
  for_each (λ x, reply_all (g x) st) xs n
  = Some (n <| sent ::= (.++ (xs ≫= λ x, (λ ch, (ch, st)) <$> g x)) |>, Ok tt).
Proof.
  revert n. induction xs as [|x xs IH]; intros n.
  - destruct n. simpl. unfold mret, proc_ret. do 3 f_equal. by rewrite app_nil_r.
  - simpl. unfold mbind, proc_bind. simpl. rewrite IH. do 2 f_equal. destruct n. simpl.
    unfold update_field. simpl. f_equal. by rewrite <-app_assoc.
Qed.

Lemma occ_answers {X} (g : X → list N) (st : Reply) xs z :
  occ z ((xs ≫= λ x, (λ ch, (ch, st)) <$> g x).*1) = occ z (xs ≫= g).
Proof.
  induction xs as [|x xs IH]; [done|]. csimpl. rewrite fmap_app, !occ_app, IH, <-list_fmap_compose.
  rewrite (list_fmap_ext (fst ∘ (λ ch, (ch, st))) id (g x)) by done. by rewrite list_fmap_id.
Qed.

Lemma occ_answer (st : Reply) chs z : occ z ((λ ch, (ch, st)) <$> chs).*1 = occ z chs.
Proof.
  rewrite <-list_fmap_compose, (list_fmap_ext (fst ∘ (λ ch, (ch, st))) id chs) by done. by rewrite list_fmap_id.
Qed.

Lemma mocc_values (m : gmap N N) z : occ z (map_to_list m).*2 = mocc (λ ch, [ch]) z m.
Proof. unfold mocc. by rewrite (bind_singletons snd). Qed.

Lemma fatal_error_flow n a b : flow_at n [] (fatal_error a b) (λ _, []).
Proof.
  intros n' r H [I Hs]. unfold fatal_error, fatal_inbound, mbind, proc_bind in H. simpl in H.
  rewrite replies_run in H. injection H as <- <-. split.
  - split; [|exact Hs]. eapply indexes_ok_sub; [..|exact I]; simpl; [done|apply map_empty_subseteq|apply (ix_buffer _ _ I)].
  - intros z. unfold held, waiting. simpl.
    rewrite !fmap_app, !occ_app, !occ_answer, occ_answers, mocc_values, !mocc_empty, ?occ_nil.
    rewrite (mocc_iter (λ b, (prb_requests b).*2)). lia.
Qed.

Lemma handle_inbound_event_flow n ev :
  (∀ req ch, ev = ReceiveVoteRequest req ch → saves_ok env n) → actions_ok n →
  flow_at n (inbound_senders ev) (handle_inbound_event env ev) (λ _, []).
Proof.
  intros Hsv Ha. apply flow_get. destruct ev as [req ch|ch|req ch|req chs|cs ch|req ch|ch|a b]; simpl.
  - apply flow_get. cbv zeta. destruct (_ <? _); [|apply flow_reply].
    flow_seq [ch]; [apply commit_hard_state_flow; left; by eapply Hsv|]. intros n1 ? _ _.
    flow_seq [ch]; [apply flow_shared|]. intros n2 [] _ _.
    flow_seq [ch]; [apply (flow_emit _ [ch])|]. intros. apply (flow_emit _ []).
  - apply flow_reply.
  - apply flow_get. cbv zeta. destruct (_ <=? _); [apply flow_reply|].
    flow_seq [ch]; [apply (flow_emit _ [ch])|]. intros. apply (flow_emit _ []).
  - apply flow_get. cbv zeta. destruct (_ <=? _).
    { rewrite <-(app_nil_r chs) at 1. apply flow_reply_all. }
    flow_seq chs; [apply flow_shared|]. intros n1 [] _ _.
    flow_seq chs; [apply (flow_emit _ chs)|]. intros. rewrite <-(app_nil_r chs) at 1. apply flow_emit.
  - flow_seq (@nil N); [apply flow_reply|]. intros. apply flow_fail.
  - by apply handle_join_cluster_flow.
  - destruct (mv_node_meta _ _); [apply flow_reply|apply flow_panic].
  - apply fatal_error_flow.
Qed.

(** ** Membership, snapshots, purge *)

Lemma init_peers_flow n last ids : flow_at n [] (set_state (init_peers_next_index_and_match_index last ids)) (λ _, []).
Proof.
  unfold init_peers_next_index_and_match_index. apply flow_state_same; [| |done].
  - induction ids as [|id ids IH]; intros l last' I; [done|]. simpl. apply IH. rewrite update_match_index_0.
    revert I. apply indexes_ok_same; reflexivity.
  - induction ids as [|id ids IH]; intros l z; [done|]. simpl. rewrite IH, update_match_index_0. done.
Qed.

Lemma handle_membership_applied_flow n : flow_at n [] (handle_membership_applied env) (λ _, []).
Proof.
  apply flow_get. cbv zeta. flow_seq (@nil N); [flow_same|]. intros n1 [] _ _. apply flow_get. cbv zeta.
  flow_seq (@nil N); [apply init_peers_flow|]. intros. flow_same.
Qed.

Lemma handle_promote_flow n : flow_at n [] (handle_promote_ready_learners env) (λ _, []).
Proof.
  unfold handle_promote_ready_learners. cbv zeta. flow_seq (@nil N); [flow_same|]. intros n1 [] _ _.
  flow_seq (@nil N); [flow_same|]. intros n2 [] _ _. apply flow_get.
  destruct (pending_promotions (state n2)) as [|p ps]; [by apply flow_ret|].
  destruct (_ =? 0); [by apply flow_ret|]. flow_seq (@nil N); [flow_same|]. intros n3 [] _ _.
  eapply flow_bind; [eapply flow_attempt, internal_request_flow|]. intros n4 r _ _.
  apply (flow_weaken n4 []) with (q := λ _, []); [intros z; by destruct r|done|]. flow_seq (@nil N).
  { destruct r; [flow_same|]. flow_seq (@nil N); [flow_same|]. intros. apply flow_fail. }
  intros n5 [] _ _. apply flow_get. destruct (pending_promotions _); [by apply flow_ret|apply (flow_emit _ [])].
Qed.

(** Nothing a request depends on changes, apart from the log. *)
Definition same_requests (n n' : Node LeaderState) : Prop :=
  (∀ z, held z n' = held z n)
  ∧ pending_client_writes (state n') = pending_client_writes (state n)
  ∧ pending_write_apply (state n') = pending_write_apply (state n)
  ∧ pending_commit_actions (state n') = pending_commit_actions (state n)
  ∧ propose_buffer (state n') = propose_buffer (state n)
  ∧ (sound_ids (mem (raft_log n)) → sound_ids (mem (raft_log n'))).

#[local] Instance same_requests_preorder : PreOrder same_requests.
Proof.
  split; [intros n; by split_and!|]. intros n1 n2 n3 (?&?&?&?&?&?) (?&?&?&?&?&?).
  split_and!; [congruence..|auto].
Qed.

#[local] Hint Extern 1 (same_requests _ _) => (split_and!; done) : keeps.

Lemma emit_same_requests id : keeps same_requests (emit (R := LeaderState) (LogPurgeCompleted id)).
Proof.
  apply keeps_modify. intros n. split_and!; try done. intros z. unfold held. simpl.
  rewrite bind_app, occ_app. simpl. rewrite ?occ_nil. lia.
Qed.
#[local] Hint Resolve emit_same_requests : keeps.

Lemma execute_pending_purge_same : keeps same_requests (execute_pending_purge (R := LeaderState) env).
Proof.
  unfold execute_pending_purge. apply keeps_get_same. intros n n' r. simpl.
  destruct (scheduled_purge_upto (state n)) as [lid|]; [|by intros [= <- <-]].
  destruct (purge_logs_up_to _ _ _ _) as [l res] eqn:Hp. intros H.
  apply bind_inv in H as (n1 & r1 & [= <- <-] & H). trans (n <| raft_log := l |>).
  - split_and!; try done. intros Hs. destruct (purge_prefix_sound _ lid Hs) as [Hs' _].
    revert Hp. unfold purge_logs_up_to, advance_durable_and_notify. simpl.
    destruct (_ <? _); unfold send_command; simpl; repeat (case_match; simplify_eq/=); intros; simplify_eq/=; done.
  - eapply keeps_run; [|exact H]. solve_keeps.
Qed.
#[local] Hint Resolve execute_pending_purge_same : keeps.

Lemma handle_snapshot_created_same res : keeps same_requests (handle_snapshot_created env res).
Proof. unfold handle_snapshot_created, schedule_and_execute_purge, set_state. cbv zeta. solve_keeps. Qed.

(** ** All handlers *)

Definition leader_requests_ok (n : Node LeaderState) : Prop := requests_ok n ∧ actions_ok n.

Lemma same_requests_ok n n' :
  same_requests n n' → last_entry_id (mem (raft_log n)) <= last_entry_id (mem (raft_log n')) →
  leader_requests_ok n → leader_requests_ok n'.
Proof.
  intros (_ & Hc & Hw & Ha & Hb & Hs) Hle [[I Hids] Hact]. split; [split|].
  - eapply indexes_ok_longer; [exact Hle|]. by eapply indexes_ok_same.
  - auto.
  - intros k a. rewrite Ha. intros Hk%Hact. lia.
Qed.

(** A request for the leader's vote is lost when its term cannot be saved. *)
Definition vote_saved (p : proc (Node LeaderState) unit) (n : Node LeaderState) : Prop :=
  ∀ req ch, p = handle_inbound_event env (ReceiveVoteRequest req ch) → saves_ok env n.

Lemma leader_handler_flow chs p n :
  vote_saved p n → leader_handler env chs p → actions_ok n →
  (chs = [] ∧ ∃ r, p = handle_snapshot_created env r) ∨ flow_at n chs p (λ _, []).
Proof.
  intros Hsv Hp Ha. destruct Hp; [..|by left; eauto| | | |]; right.
  - apply tick_flow.
  - apply handle_inbound_event_flow; [|done]. intros req ch ->. by eapply Hsv.
  - apply push_client_cmd_flow.
  - apply flush_cmd_buffers_flow.
  - by apply initiate_noop_flow.
  - apply handle_log_flushed_flow.
  - apply handle_append_result_flow.
  - apply handle_apply_completed_flow.
  - unfold handle_peer_stream_error. apply flow_state_same; [| |done].
    + intros l last I. case_decide; [done|]. revert I. apply indexes_ok_same; reflexivity.
    + intros l z. by case_decide.
  - apply flow_get. destruct (negb _); [by apply flow_ret|]. flow_seq (@nil N).
    { destruct b, i; try (by apply flow_ret). apply init_peers_flow. }
    intros n1 [] _ _. unfold handle_snapshot_push_completed. apply flow_state_same; [| |done].
    + intros l last I. destruct (negb _); [done|]. destruct (_ !! _); [|done].
      revert I. apply indexes_ok_same; reflexivity.
    + intros l z. destruct (negb _); [done|]. by destruct (_ !! _).
  - apply flow_get. simpl. destruct (l_snapshot_in_progress _); [by apply flow_ret|].
    destruct (capture_busy _); [by apply flow_ret|flow_same].
  - apply flow_get. destruct (index_below _ _); [flow_same|by apply flow_ret].
  - apply handle_membership_applied_flow.
  - apply handle_promote_flow.
  - apply (flow_emit _ []).
Qed.

(** An internal request grows the log, whatever its outcome. *)
Lemma request_shrinks q n n' r :
  execute_request_immediately env q n = Some (n', r) → shrinks n n'.
Proof.
  intros H. apply bind_inv in H as (n1 & r1 & [= <- <-] & H). apply bind_inv in H as (n2 & r2 & [= <- <-] & H).
  destruct (merge_batch_to_write_metadata _ _ _) as [ps w]. apply execute_shrinks in H as [H _].
  intros Hs. by apply H.
Qed.

Lemma noop_actions_ok n n' r :
  requests_ok n → actions_ok n → initiate_noop_commit env n = Some (n', r) → actions_ok n'.
Proof.
  intros [_ Hs] Ha H. apply bind_inv in H as (n0 & r0 & [= <- <-] & H). cbv zeta in H.
  apply bind_inv in H as (n1 & r1 & H1 & H). unfold set_state, modify in H1.
  assert (r1 = Ok tt) as -> by (by injection H1 as <- <-).
  apply bind_inv in H as (n2 & r2 & H2 & H). unfold attempt in H2. destruct (execute_request_immediately _ _ n1) as [[n3 r3]|] eqn:E; [|done].
  injection H2 as <- <-. pose proof (request_actions _ _ _ _ _ E) as Hact. unfold same_actions in Hact.
  assert (raft_log n1 = raft_log n ∧ pending_commit_actions (state n1) =
    <[last_entry_id (mem (raft_log n)) + 1 := mkPostCommitEntry (now env + verify_leadership_timeout_ms (config env))
       (LeaderNoop (current_term (hard_state (shared n))))]> (pending_commit_actions (state n))) as [Hlog Hn1]
    by (by injection H1 as <-).
  rewrite <-Hlog in Hs. destruct (request_shrinks _ _ _ _ E Hs) as (_ & Hle & _).
  destruct r3 as [[]|e].
  - injection H as <- <-. apply (request_grows env n1 _ n3 Hs) in E. intros k a. rewrite Hact, Hn1.
    intros [[<- _]|[_ Hk%Ha]]%lookup_insert_Some; rewrite Hlog in *; lia.
  - apply bind_inv in H as (n4 & r4 & [= <- <-] & [= <- <-]). intros k a. simpl. rewrite Hact, Hn1.
    intros [Hne [[? _]|[_ Hk%Ha]]%lookup_insert_Some]%lookup_delete_Some; rewrite Hlog in *; [done|lia].
Qed.

Lemma join_actions_ok req ch n n' r :
  requests_ok n → actions_ok n → handle_join_cluster env req ch n = Some (n', r) → actions_ok n'.
Proof.
  intros [_ Hs] Ha H. unfold handle_join_cluster in H. cbv zeta in H.
  destruct (mv_contains_node _ _); [by injection H as <- <-|]. destruct (negb _); [by injection H as <- <-|].
  apply bind_inv in H as (n2 & r2 & H2 & H). unfold attempt in H2.
  destruct (execute_request_immediately _ _ n) as [[n3 r3]|] eqn:E; [|done]. injection H2 as <- <-.
  pose proof (request_actions _ _ _ _ _ E) as Hact. unfold same_actions in Hact.
  destruct (request_shrinks _ _ _ _ E Hs) as (_ & Hle & _). destruct r3 as [[]|e].
  - injection H as <- <-. intros k a. simpl. rewrite Hact.
    intros [[<- _]|[_ Hk%Ha]]%lookup_insert_Some; simpl; lia.
  - apply bind_inv in H as (n4 & r4 & [= <- <-] & [= <- <-]). intros k a. simpl. rewrite Hact. intros Hk%Ha. lia.
Qed.

(** Every handler takes over the channels it is given and keeps the pending requests apart. *)
Lemma leader_handler_conserves chs p n n' r :
  vote_saved p n → leader_requests_ok n → leader_handler env chs p → p n = Some (n', r) →
  (∀ z, held z n' = (occ z chs + held z n)%nat)
  ∧ (last_entry_id (mem (raft_log n)) <= last_entry_id (mem (raft_log n')) → leader_requests_ok n').
Proof.
  intros Hsv [Hok Ha] Hp H.
  destruct (leader_handler_flow chs p n Hsv Hp Ha) as [[-> [res ->]]|Hf].
  { apply handle_snapshot_created_same in H. split; [apply H|]. intros Hle. by eapply same_requests_ok. }
  destruct (Hf n' r H Hok) as [Hok' Hz]. split.
  { intros z. specialize (Hz z). destruct r; simpl in Hz; rewrite ?occ_nil in Hz; lia. }
  intros Hle. split; [done|].
  destruct (leader_handler_shrinks env chs p Hp) as [[->|[(req & ch & ->)|[res ->]]]|Hs].
  - eapply (noop_actions_ok n); [exact Hok|exact Ha|exact H].
  - apply bind_inv in H as (n0 & r0 & [= <- <-] & H). eapply (join_actions_ok req ch n); [exact Hok|exact Ha|exact H].
  - apply handle_snapshot_created_same in H. by eapply same_requests_ok.
  - eapply shrinks_actions_ok; [apply Hok|by eapply Hs|done].
Qed.

(** ** Stepping down *)

(** Leaving the role answers every buffered and pending request, except the committed
    writes that wait for their application and the joins that wait for their commit. *)
Lemma drain_read_buffer_answers n :
  requests_ok n →
  ∃ n', drain_read_buffer n = Some (n', Ok tt) ∧ (∀ z, held z n' = held z n)
        ∧ ∀ z, waiting z (state n') = (mocc (λ ch, [ch]) z (pending_write_apply (state n))
                                       + mocc action_channels z (pending_commit_actions (state n)))%nat.
Proof.
  intros [I _]. unfold drain_read_buffer, take_proposals, propose_flush, drain_pending_writes_with_error,
    mbind, proc_bind. simpl. rewrite replies_run. simpl. pose proof (ix_buffer _ _ I) as Hb.
  destruct (pb_payloads (propose_buffer (state n))) as [|p ps] eqn:Hp; simpl;
    rewrite (replies_run (λ p : N * WriteMetadata, wm_senders p.2)); eexists; (split; [reflexivity|]).
  - assert (pb_senders (propose_buffer (state n)) = []) as Hs by (by apply nil_length_inv).
    split; intros z; unfold held, waiting; simpl;
      rewrite ?Hs, ?fmap_app, ?occ_app, ?occ_answer, ?occ_answers, ?mocc_empty, ?occ_nil.
    + rewrite (mocc_iter (λ b, (prb_requests b).*2)), (mocc_iter wm_senders). lia.
    + lia.
  - split; intros z; unfold held, waiting; simpl;
      rewrite ?fmap_app, ?occ_app, ?occ_answer, ?occ_answers, ?mocc_empty, ?occ_nil.
    + rewrite (mocc_iter (λ b, (prb_requests b).*2)), (mocc_iter wm_senders). lia.
    + lia.
Qed.

End handlers.

(** ** Runs of a leader *)

(** A sequence of handler runs with the channels they are given. *)
Inductive leader_run : Node LeaderState → list N → Node LeaderState → Prop :=
  | lr_nil n : leader_run n [] n
  | lr_step env chs p n n1 r chs' n' :
      vote_saved env p n → leader_handler env chs p → p n = Some (n1, r) →
      last_entry_id (mem (raft_log n)) <= last_entry_id (mem (raft_log n1)) →
      leader_run n1 chs' n' → leader_run n (chs ++ chs') n'.

Lemma leader_run_conserves n chs n' :
  leader_run n chs n' → leader_requests_ok n →
  leader_requests_ok n' ∧ ∀ z, held z n' = (occ z chs + held z n)%nat.
Proof.
  induction 1 as [n|env chs p n n1 r chs' n' Hsv Hp H Hle _ IH]; intros Hok; [by split|].
  destruct (leader_handler_conserves env chs p n n1 r Hsv Hok Hp H) as [Hz Hok1].
  destruct (IH (Hok1 Hle)) as [Hok' Hz']. split; [done|]. intros z. rewrite Hz', Hz, occ_app. lia.
Qed.
