(* ===== verification/ReadProps.v ===== *)
(** * Reads and the lease: properties

    When a linearizable read is answered, what [serve_pending_reads] serves, and what a
    valid lease means. *)

From stdpp Require Import base tactics numbers option list sorting gmap strings.
From S2P Require Import Prelude Types Events ReadLease TermSegments BufferedLog Replication Election.
From S2P Require Import Proc Roles RoleState FollowerRoles LeaderState Leader LeaderEvents.
From S2P Require Import RaftLoop ProcLogic HardStateSpec LeaderProgress ClientFlow LeaderRequests Scenarios.
Import Leader LeaderEvents.

(** ** Linearizable reads *)

Definition answers (env : Env) (rs : list LinearizableReadRequest) : list (N * Reply) :=
  (λ q, (q.2, read_keys env (cr_keys q.1))) <$> rs.

Lemma execute_pending_reads_run env rs n :
  execute_pending_reads env rs n = Some (n <| sent ::= (.++ answers env rs) |>, Ok tt).
Proof.
  unfold execute_pending_reads. revert n. induction rs as [|q rs IH]; intros n.
  - destruct n. unfold mret, proc_ret. simpl. do 3 f_equal. by rewrite app_nil_r.
  - simpl. unfold mbind, proc_bind. simpl. rewrite IH. do 2 f_equal. destruct n. unfold update_field. simpl.
    f_equal. by rewrite <-app_assoc.
Qed.

(** C31: a linearizable read is answered with data only when it is safe to. A leader that
    has not committed its no-op refuses it; it is served at once only by a single voter or
    under a valid lease, from a state machine that has applied everything committed and
    the leader's no-op; otherwise it waits under its read index, which is at least the
    commit index. *)
Theorem linearizable_reads_wait env rs (n n' : Node LeaderState) r :
  route_reads env (Some rs) n = Some (n', r) →
  let index := calculate_read_index (state n) (shared n) in
  commit_index (shared n) <= index ∧
  match noop_log_id (state n) with
  | None => sent n' = sent n ++ ((λ q, (q.2, RStatus (Unavailable "LeaderNotReady: noop not committed"))) <$> rs)
            ∧ state n' = state n
  | Some noop =>
      noop <= index ∧
      ((sent n' = sent n ++ answers env rs ∧ state n' = state n ∧ index <= last_applied (sm env)
        ∧ (single_voter (cluster_metadata (state n)) = true ∨ is_lease_valid (shared n) (now env) = true))
       ∨ (sent n' = sent n
          ∧ ∃ b, pending_reads (state n') !! index = Some b
                 ∧ ∃ old, prb_requests b = old ++ rs
                          ∧ old = from_option prb_requests [] (pending_reads (state n) !! index)))
  end.
Proof.
  intros H. apply bind_inv in H as (n0 & r0 & [= <- <-] & H). cbv zeta. unfold calculate_read_index in *.
  split; [lia|]. destruct (noop_log_id (state n)) as [noop|].
  - split; [simpl; lia|]. simpl in H. destruct (_ && _) eqn:Hg.
    + left. rewrite execute_pending_reads_run in H. injection H as <- <-. simpl.
      apply andb_prop in Hg as [Hv%orb_prop Hi%N.leb_le]. by split_and!.
    + right. injection H as <- <-. split; [done|]. simpl. rewrite lookup_insert_eq.
      eexists. split; [done|]. simpl. eexists. split; [done|]. by destruct (_ !! _).
  - injection H as <- <-. simpl. by rewrite <-list_fmap_compose.
Qed.

Lemma foldr_delete_delete {V} (m : gmap N V) k ks :
  foldr delete (delete k m) ks = delete k (foldr delete m ks).
Proof. induction ks as [|j ks IH]; [done|]. simpl. rewrite IH. apply delete_delete. Qed.

Lemma serve_batches_run env ps n :
  NoDup ps.*1 →
  ∃ n', for_each (λ p, set_state (λ l, l <| pending_reads ::= delete p.1 |>);;
                       execute_pending_reads env (prb_requests p.2)) ps n = Some (n', Ok tt)
        ∧ sent n' = sent n ++ (ps ≫= λ p, answers env (prb_requests p.2))
        ∧ pending_reads (state n') = foldr delete (pending_reads (state n)) ps.*1.
Proof.
  revert n. induction ps as [|[k b] ps IH]; intros n Hnd.
  { exists n. by rewrite app_nil_r. }
  apply NoDup_cons in Hnd as [_ Hnd]. simpl. unfold mbind, proc_bind. simpl. rewrite execute_pending_reads_run.
  destruct (IH (n <| state ::= λ l, l <| pending_reads ::= delete k |> |> <| sent ::= (.++ answers env (prb_requests b)) |>) Hnd)
    as (n' & Hr & Hs & Hp). exists n'. split; [exact Hr|]. split; [rewrite Hs; simpl; by rewrite <-app_assoc|].
  rewrite Hp. apply foldr_delete_delete.
Qed.

Lemma foldr_delete_lookup {V} (m : gmap N V) ks k :
  foldr delete m ks !! k = if decide (k ∈ ks) then None else m !! k.
Proof.
  induction ks as [|j ks IH]; [done|]. simpl. destruct (decide (j = k)) as [->|Hne].
  - rewrite lookup_delete_eq, decide_True; [done|left].
  - rewrite lookup_delete_ne, IH by done. destruct (decide (k ∈ ks)) as [Hin|Hni].
    + rewrite decide_True; [done|by right].
    + rewrite decide_False; [done|]. rewrite elem_of_cons. intros [->|]; done.
Qed.

(** serving reads up to an applied index answers, in index order, exactly the batches
    whose read index is at most that index, and keeps every later batch waiting. *)
Theorem served_reads_are_applied env upto (n : Node LeaderState) :
  ∃ n', serve_pending_reads env upto n = Some (n', Ok tt)
        ∧ sent n' = sent n ++ (om_range 0 upto (pending_reads (state n)) ≫= λ p, answers env (prb_requests p.2))
        ∧ pending_reads (state n') = filter (λ p, upto < p.1) (pending_reads (state n)).
Proof.
  destruct (serve_batches_run env (om_range 0 upto (pending_reads (state n))) n) as (n' & Hr & Hs & Hp).
  { unfold om_range. eapply sublist_NoDup; [apply (om_iter_NoDup (pending_reads (state n)))|].
    apply fmap_sublist, sublist_filter. }
  exists n'. split; [exact Hr|]. split; [done|]. rewrite Hp. apply map_eq. intros k.
  rewrite foldr_delete_lookup, map_lookup_filter.
  destruct (pending_reads (state n) !! k) as [b|] eqn:Hk; simpl; [|by destruct (decide _)].
  destruct (decide (k <= upto)) as [Hle|Hgt].
  - rewrite decide_True.
    + rewrite option_guard_False; [done|simpl; lia].
    + apply list_elem_of_fmap. exists (k, b). split; [done|]. apply elem_of_om_range. split_and!; [lia|done|done].
  - rewrite decide_False.
    + rewrite option_guard_True; [done|simpl; lia].
    + intros ([k' b'] & -> & (_ & ? & _)%elem_of_om_range)%list_elem_of_fmap. simpl in *. lia.
Qed.

(** ** The lease *)

(** C32: what a renewed lease grants. After a renewal from [send_ts] the leader's lease is
    valid exactly until [send_ts] plus the lease duration; the word only passes for a term
    that agrees with the renewing one in its lowest 16 bits; and a revoked lease is never
    valid, for any term and at any time. *)
Theorem lease_is_valid_until_its_deadline send_ts duration (s s' : SharedState) :
  update_lease_timestamp send_ts duration s = Some s' →
  (∀ now_ms, is_lease_valid s' now_ms = true ↔ now_ms < send_ts + duration)
  ∧ (∀ t now_ms, ReadLease.is_valid_for_leader (lease s') t now_ms = true →
       t mod 2 ^ 16 = current_term (hard_state s) mod 2 ^ 16)
  ∧ ∀ t now_ms, ReadLease.is_valid_for_leader ReadLease.revoke t now_ms = false.
Proof.
  unfold update_lease_timestamp, ReadLease.renew.
  destruct (ReadLease.pack _ _) as [w|] eqn:Hw; [|done]. intros [= <-].
  apply ReadLease.pack_valid in Hw as [Hd%ReadLease.deadline_small Hv]. split_and!.
  - intros now_ms. unfold is_lease_valid. simpl. rewrite Hv.
    unfold saturating_add in *. split; [intros [_ ?]|intros ?; split; [done|]]; lia.
  - intros t now_ms [-> _]%Hv. done.
  - apply ReadLease.revoke_invalid.
Qed.

Lemma lease_is_valid_until_its_deadline_witness :
  let s := shared ex_leader_node in
  ∃ s', update_lease_timestamp 1000 500 s = Some s'
        ∧ (is_lease_valid s' 1499 = true ↔ 1499 < 1000 + 500)
        ∧ (is_lease_valid s' 1500 = true ↔ 1500 < 1000 + 500).
Proof.
  intros s. destruct (update_lease_timestamp 1000 500 s) as [s'|] eqn:E; [|by vm_compute in E].
  exists s'. split; [done|].
  destruct (lease_is_valid_until_its_deadline 1000 500 s s' E) as (H & _). split; apply H.
Defined.

(** ** Revocation *)

Lemma purge_hard_state env li lp : keeps same_hard_state (schedule_and_execute_purge (R := LeaderState) env li lp).
Proof. unfold schedule_and_execute_purge, execute_pending_purge. cbv zeta. solve_keeps. Qed.
#[local] Hint Resolve purge_hard_state : keeps.

(** The two handlers that may adopt a higher term. *)
Definition adopts_term (env : Env) (p : proc (Node LeaderState) unit) : Prop :=
  (∃ req ch, p = handle_inbound_event env (ReceiveVoteRequest req ch))
  ∨ ∃ id res, p = handle_append_result env id res.

Lemma leader_handler_hard_state env chs p :
  leader_handler env chs p → adopts_term env p ∨ keeps same_hard_state p.
Proof.
  unfold adopts_term. destruct 1 as [|ev| | | | | | | |id b i| | | | | |].
  - right. apply leader_tick_frame.
  - destruct ev as [req ch|ch|req ch|req chs'|cs ch|req ch|ch|a b]; [left; by eauto|right..];
      apply keeps_get_bind; intros n; [| | | |apply handle_join_cluster_frame| |apply fatal_error_frame];
      unfold receive_append_entries, receive_conf_update; solve_keeps.
  - right. apply push_client_cmd_frame.
  - right. apply flush_cmd_buffers_frame.
  - right. apply initiate_noop_commit_frame.
  - right. apply handle_log_flushed_frame.
  - left. by eauto.
  - right. apply handle_apply_completed_frame.
  - right. apply set_state_frame.
  - right. unfold finish_snapshot_push. solve_keeps.
  - right. unfold handle_create_snapshot. solve_keeps.
  - right. unfold handle_snapshot_created. solve_keeps.
  - right. unfold handle_log_purge_completed. solve_keeps.
  - right. apply handle_membership_applied_frame.
  - right. apply handle_promote_ready_learners_frame.
  - right. apply emit_frame.
Qed.

(** The lease is revoked, unless the term stayed or could not be saved. *)
Definition revoked (env : Env) (n n' : Node LeaderState) (r : result unit) : Prop :=
  same_hard_state n n' ∨ lease (shared n') = ReadLease.revoke
  ∨ (¬ saves_ok env n ∧ poisoned (raft_log n') = true ∧ ∃ e, r = Err e).

Lemma vote_request_revokes env req ch (n n' : Node LeaderState) r :
  receive_vote_request env req ch n = Some (n', r) → revoked env n n' r.
Proof.
  intros H. apply bind_inv in H as (n0 & r0 & [= <- <-] & H). cbv zeta in H. destruct (_ <? _).
  - right. apply bind_inv in H as (n1 & r1 & Hc & H). apply commit_hard_state_cases in Hc as [Hc _].
    destruct r1 as [b|e]; [left; by injection H as <- <-|right].
    destruct H as [-> ->], Hc as [? ?]. eauto.
  - left. by injection H as <- <-.
Qed.

Lemma step_down_revokes env t (n n' : Node LeaderState) r :
  step_down_for_term env t n = Some (n', r) → revoked env n n' r.
Proof.
  intros H. right. apply bind_inv in H as (n1 & r1 & Hc & H). apply commit_hard_state_cases in Hc as [Hc _].
  destruct r1 as [b|e]; [left|right; destruct H as [-> ->], Hc as [? ?]; eauto]. apply bind_inv in H as (n2 & r2 & Hd & H).
  destruct r2 as [[]|e]; [by injection H as <- <-|]. exfalso. revert Hd.
  unfold drain_pending_writes_with_error, mbind, proc_bind. simpl.
  by rewrite (replies_run (λ p : N * WriteMetadata, wm_senders p.2)).
Qed.

Lemma append_result_revokes env id res (n n' : Node LeaderState) r :
  handle_append_result env id res n = Some (n', r) → revoked env n n' r.
Proof.
  intros H. apply bind_inv in H as (n0 & r0 & [= <- <-] & H). cbv zeta in H.
  assert (∀ p : proc (Node LeaderState) unit, keeps same_hard_state p → p n = Some (n', r) →
    revoked env n n' r) as Hq.
  { intros p Hp Hr. left. exact (Hp _ _ _ Hr). }
  destruct res as [resp|e]; [|by eapply Hq, H; solve_keeps].
  destruct (_ <? _); [by eapply Hq, H; solve_keeps|]. destruct (_ <? _); [by eapply step_down_revokes|].
  destruct (interpret_response _ _ _ _ _) as [[[u|t]|]|e];
    [|by eapply step_down_revokes|by eapply Hq, H; solve_keeps..].
  eapply Hq, H. pose proof check_learner_progress_frame. pose proof voter_acknowledged_frame. solve_keeps.
Qed.


(** A vote request of term 5 at a leader of term 2 with a lease. *)
Definition ex_leased : Node LeaderState := after (renew_lease (ex_env 1 [1; 2; 3] 100 []) 100) ex_leader_node.


(** ** A failed save keeps the lease

    The term changes in memory before it is saved, and a failed save returns before the
    lease is revoked: the lease of the old term stays valid in a node that has left it. *)

Definition failing_disk (e : Env) : Env :=
  mkEnv (now e) (fresh_deadline e) (λ _, Err IoError) (io_done e) (io_reply e)
    (purge_reply e) (vote_responses e) (worker_dead e) (config e) (membership e) (sm e).

Theorem failed_save_keeps_the_lease :
  let env := failing_disk (ex_env 1 [1; 2; 3] 200 []) in
  let n := after (handle_inbound_event env (ReceiveVoteRequest (mkVoteRequest 5 3 0 0) 9)) ex_leased in
  current_term (hard_state (shared n)) = 5 ∧ ReadLease.is_valid (lease (shared n)) 200 = true.
Proof. split; by vm_compute. Qed.

(** A read under a valid lease, and one without. *)
Lemma linearizable_reads_wait_witness :
  let env := ex_env 1 [1; 2; 3] 200 [] in
  let n := ex_leader_node <| state ::= λ l, l <| noop_log_id := Some 1 |> |> in
  let rs := [(mkClientReadRequest 1 [[5]] None, 44)] in
  sent (after (route_reads env (Some rs)) n) = []
  ∧ commit_index (shared n) <= calculate_read_index (state n) (shared n).
Proof.
  intros env n rs. split; [by vm_compute|].
  destruct (runs_after (route_reads env (Some rs)) n) as [r H]; [by vm_compute|].
  destruct (linearizable_reads_wait env rs n _ r H) as [Hc _]. exact Hc.
Defined.
