(* ===== verification/LoopProps.v ===== *)
(** * The raft loop: properties

    Merging queued AppendEntries keeps them what the leader sent, processing the inbound
    buffer empties it, and roles change only along the transitions of the protocol. *)

From stdpp Require Import base tactics numbers option list gmap strings.
From S2P Require Import Prelude Types Events ReadLease TermSegments BufferedLog LogInv LogSpec.
From S2P Require Import Replication ReplicationSpec Election.
From S2P Require Import Proc Roles RoleState FollowerRoles LeaderState Leader LeaderEvents.
From S2P Require Import RaftLoop ProcLogic LeaderProgress Scenarios.

(** ** Merging *)

Definition event_entries (ev : InboundEvent) : list Entry :=
  match ev with AppendEntries req _ => ar_entries req | _ => [] end.

(** Every queued AppendEntries is cut from the log of the leader with log [m]. *)
Definition queue_from (m : LogMem) (q : list InboundEvent) : Prop :=
  ∀ req senders, AppendEntries req senders ∈ q → leader_request m req.

Lemma absorb_spec m max prev T merged senders commit q merged' senders' commit' rest :
  absorb max (prev + N.of_nat (length merged)) T merged senders commit q = (merged', senders', commit', rest) →
  queue_from m q → contiguous e_index (prev + 1) merged → Forall (λ e, entries m !! e_index e = Some e) merged →
  contiguous e_index (prev + 1) merged' ∧ Forall (λ e, entries m !! e_index e = Some e) merged'
  ∧ merged' ++ (rest ≫= event_entries) = merged ++ (q ≫= event_entries)
  ∧ senders' ++ (rest ≫= inbound_senders) = senders ++ (q ≫= inbound_senders)
  ∧ (length rest <= length q)%nat ∧ queue_from m rest ∧ commit <= commit'.
Proof.
  revert merged senders commit. induction q as [|ev q IH]; intros merged senders commit; simpl.
  { intros [= <- <- <- <-] Hq Hc Hm. by split_and!. }
  assert (∀ r, (merged, senders, commit, ev :: q) = r → r = (merged', senders', commit', rest) →
    queue_from m (ev :: q) → contiguous e_index (prev + 1) merged →
    Forall (λ e, entries m !! e_index e = Some e) merged →
    contiguous e_index (prev + 1) merged' ∧ Forall (λ e, entries m !! e_index e = Some e) merged'
    ∧ merged' ++ (rest ≫= event_entries) = merged ++ event_entries ev ++ (q ≫= event_entries)
    ∧ senders' ++ (rest ≫= inbound_senders) = senders ++ inbound_senders ev ++ (q ≫= inbound_senders)
    ∧ (length rest <= S (length q))%nat ∧ queue_from m rest ∧ commit <= commit') as Hstop.
  { intros r <- [= <- <- <- <-] Hq Hc Hm. by split_and!. }
  destruct ev as [| | |req ss| | | |]; try by eapply Hstop.
  destruct (_ && _) eqn:Hg; [|by eapply Hstop]. destruct (max <? _); [by eapply Hstop|]. clear Hstop.
  apply andb_prop in Hg as [Hp%N.eqb_eq _]. intros H Hq Hc Hm.
  destruct (Hq req ss) as [_ Hrc Hre]; [left|]. rewrite <-Hp in Hrc.
  rewrite <-N.add_assoc, <-Nat2N.inj_add, <-length_app in H.
  apply IH in H as (? & ? & -> & -> & ? & ? & ?).
  - simpl. rewrite <-!app_assoc. split_and!; try done; lia.
  - intros r s Hin. apply (Hq r s). by right.
  - apply contiguous_app. split; [done|]. by replace (prev + 1 + _) with (prev + N.of_nat (length merged) + 1) by lia.
  - by apply Forall_app.
Qed.

(** C38: merging queued AppendEntries is transparent. If every queued request is cut from
    the leader's log, so is every request of the merged queue; no entry and no reply
    channel is lost, duplicated or reordered, and the merged request commits at least as
    far as the first. *)
Theorem merged_requests_are_the_leaders m max q :
  queue_from m q →
  let q' := merge_append_entries max q in
  queue_from m q' ∧ (q' ≫= event_entries) = (q ≫= event_entries)
  ∧ (q' ≫= inbound_senders) = (q ≫= inbound_senders) ∧ (length q' <= length q)%nat
  ∧ ∀ req senders rest, q = AppendEntries req senders :: rest →
      ∃ req' senders', head q' = Some (AppendEntries req' senders')
        ∧ ar_term req' = ar_term req ∧ ar_leader_commit_index req <= ar_leader_commit_index req'.
Proof.
  intros Hq. destruct q as [|[| | |req ss| | | |] q]; cbv zeta; try by (split_and!; intros; simplify_eq/=).
  simpl. destruct (absorb _ _ _ _ _ _ _) as [[[merged senders] commit] rest] eqn:Ha.
  destruct (Hq req ss) as [Hprev Hc Hm]; [left|].
  eapply (absorb_spec m) in Ha as (Hc' & Hm' & He & Hs & Hl & Hr & Hco); [|intros r s Hin; apply (Hq r s); by right|done..].
  split_and!; [|exact He|exact Hs|simpl; lia|].
  - intros r s [[= -> ->]|Hin]%elem_of_cons; [|by eapply Hr]. by split.
  - intros r s rest' [= -> -> ->]. by eexists _, _.
Qed.

Definition ex_logm : LogMem := insert_to_memory (mem ex_log) [mkEntry 1 2 None; mkEntry 2 2 None].
Definition ex_ae (prev t : N) (es : list Entry) : InboundEvent :=
  AppendEntries (mkAppendEntriesRequest 2 1 prev t es 0) [prev].

(** Two consecutive requests become one. *)
Lemma merged_requests_are_the_leaders_witness :
  let q := [ex_ae 0 0 [mkEntry 1 2 None]; ex_ae 1 2 [mkEntry 2 2 None]] in
  queue_from ex_logm (merge_append_entries 10 q)
  ∧ length (merge_append_entries 10 q) = 1%nat
  ∧ (merge_append_entries 10 q ≫= inbound_senders) = [0; 1].
Proof.
  intros q. assert (queue_from ex_logm q) as Hq.
  { intros req ss [[= -> ->]|[[= -> ->]|[]%elem_of_nil]%elem_of_cons]%elem_of_cons.
    - split; [by left|done|by repeat constructor].
    - split; [right; split; [done|by vm_compute]|done|by repeat constructor]. }
  destruct (merged_requests_are_the_leaders ex_logm 10 q Hq) as (H & _ & Hs & _).
  split; [exact H|]. split; [by vm_compute|]. rewrite Hs. done.
Defined.

(** ** Termination of the inbound pass *)

Definition same_inbound (r r' : Raft) : Prop := buffered_inbound_event r' = buffered_inbound_event r.

Lemma on_node_inbound {A} (p : proc (Node RaftRole) A) r r' a : on_node p r = Some (r', a) → same_inbound r r'.
Proof. unfold on_node. destruct (p (node r)) as [[n x]|]; [|done]. by intros [= <- <-]. Qed.

Lemma unless_fatal_inbound (p : proc Raft unit) r r' a :
  (∀ r r' a, p r = Some (r', a) → same_inbound r r') → unless_fatal p r = Some (r', a) → same_inbound r r'.
Proof.
  intros Hp H. apply bind_inv in H as (r1 & x & H1 & H). unfold attempt in H1.
  destruct (p r) as [[r2 y]|] eqn:E; [|done]. injection H1 as <- <-. apply Hp in E.
  destruct y as [[]|e]; [by injection H as <- <-|]. destruct (is_fatal e); by injection H as <- <-.
Qed.

Lemma merge_length m q : (length (merge_append_entries m q) <= length q)%nat.
Proof.
  assert (∀ np T es ss c q r, (absorb m np T es ss c q).2 = r → (length r <= length q)%nat) as Ha.
  { intros np T es ss c q'. revert np es ss c. induction q' as [|ev q' IH]; intros np es ss c r; simpl; [by intros <-|].
    destruct ev; try (intros <-; done). destruct (_ && _); [|intros <-; done].
    destruct (_ <? _); [intros <-; done|]. intros H. apply IH in H. lia. }
  destruct q as [|[| | |req ss| | | |] q]; try done. simpl.
  destruct (absorb _ _ _ _ _ _ _) as [[[merged senders] commit] rest] eqn:E.
  simpl. apply le_n_S. eapply Ha. by rewrite E.
Qed.

(** processing the inbound buffer ends with an empty buffer. The number of buffered
    events bounds the iterations: merging and handling never add to the buffer, so unless
    a handler fails fatally nothing is left. *)
Theorem inbound_pass_empties_buffer envs (r r' : Raft) :
  process_inbound_events (length (buffered_inbound_event r)) envs r = Some (r', Ok tt) →
  buffered_inbound_event r' = [].
Proof.
  assert (∀ fuel envs r, (length (buffered_inbound_event r) <= fuel)%nat →
    process_inbound_events fuel envs r = Some (r', Ok tt) → buffered_inbound_event r' = []) as H.
  { intros fuel. induction fuel as [|fuel IH]; intros envs0 r0 Hlen; simpl.
    { intros [= <-]. destruct (buffered_inbound_event r0); [done|simpl in Hlen; lia]. }
    intros H. apply bind_inv in H as (r1 & x1 & [= <- <-] & H).
    pose proof (merge_length (max_merge_entries (config (envs0 0%nat))) (buffered_inbound_event r0)) as Hm.
    destruct (merge_append_entries _ _) as [|ev q] eqn:Hq.
    { injection H as <-. destruct (buffered_inbound_event r0) as [|[| | |? ?| | | |] ?]; try done.
      exfalso. revert Hq. simpl. by destruct (absorb _ _ _ _ _ _ _) as [[[? ?] ?] ?]. }
    apply bind_inv in H as (r2 & x2 & [= <- <-] & H). apply bind_inv in H as (r3 & x3 & H3 & H).
    apply unless_fatal_inbound in H3; [|intros; by eapply on_node_inbound].
    destruct x3 as [[]|e]; [|by destruct H]. eapply IH; [|exact H]. rewrite H3. simpl in *. lia. }
  intros Hr. by eapply H.
Qed.

(** A vote request and a leader's heartbeat queued at a follower. *)
Definition ex_busy : Raft :=
  mkRaft (ex_node 2) [] [ReceiveVoteRequest (mkVoteRequest 2 1 0 0) 7; ex_ae 0 0 []] [] [] [] None.

Lemma inbound_pass_empties_buffer_witness :
  buffered_inbound_event (after (process_inbound_events 2 (λ _, ex_env 2 [1; 2; 3] 100 [])) ex_busy) = [].
Proof.
  destruct (runs_after (process_inbound_events 2 (λ _, ex_env 2 [1; 2; 3] 100 [])) ex_busy) as [x H]; [by vm_compute|].
  assert (x = Ok tt) as -> by (revert H; vm_compute; congruence).
  apply (inbound_pass_empties_buffer (λ _, ex_env 2 [1; 2; 3] 100 []) ex_busy). exact H.
Defined.

(** ** Role transitions *)

Inductive Role := Fo | Ca | Le | Ln.

Definition kind (n : Node RaftRole) : Role :=
  match state n with RFollower _ => Fo | RCandidate _ => Ca | RLeader _ => Le | RLearner _ => Ln end.

(** The transitions of the protocol, by the event that causes them. *)
Definition transition (ev : InternalEvent) (a b : Role) : Prop :=
  match ev with
  | BecomeFollower _ => a ≠ Fo ∧ b = Fo
  | BecomeCandidate => a = Fo ∧ b = Ca
  | BecomeLeader => a = Ca ∧ b = Le
  | BecomeLearner => (a = Fo ∨ a = Ca) ∧ b = Ln
  | _ => False
  end.

Lemma at_role_kind {R A} (inj : R → RaftRole) s (p : proc (Node R) A) n n' r k :
  (∀ x m, kind (retype (inj x) (R := R) m) = k) → at_role inj s p n = Some (n', r) → kind n' = k.
Proof.
  intros Hk. unfold at_role. destruct (p (retype s n)) as [[m x]|]; [|done]. intros [= <- <-]. apply Hk.
Qed.

Definition same_kind (n n' : Node RaftRole) : Prop := kind n' = kind n.
#[local] Instance same_kind_preorder : PreOrder same_kind.
Proof. split; [done|]. intros n1 n2 n3. unfold same_kind. congruence. Qed.

Lemma dispatch_kind {A} pf pc pl pn : keeps same_kind (dispatch (A := A) pf pc pl pn).
Proof.
  intros n n' r. unfold dispatch, same_kind. unfold kind at 2.
  destruct (state n); intros H; by eapply at_role_kind in H.
Qed.

Definition same_role (r r' : Raft) : Prop := same_kind (node r) (node r').
#[local] Instance same_role_preorder : PreOrder same_role.
Proof. split; [done|]. intros r1 r2 r3. unfold same_role, same_kind. congruence. Qed.

#[local] Hint Extern 1 (same_role _ _) => reflexivity : keeps.

Lemma on_node_role {A} (p : proc (Node RaftRole) A) : keeps same_kind p → keeps same_role (on_node p).
Proof.
  intros Hp r r' x. unfold on_node. destruct (p (node r)) as [[n y]|] eqn:E; [|done].
  intros [= <- <-]. exact (Hp _ _ _ E).
Qed.

#[local] Hint Resolve on_node_role dispatch_kind : keeps.
#[local] Hint Extern 1 (keeps same_kind (drain_read_buffer)) => (apply dispatch_kind) : keeps.
#[local] Hint Extern 1 (keeps same_kind (role_commit_vote_reset _)) => (apply dispatch_kind) : keeps.
#[local] Hint Extern 1 (keeps same_kind (role_commit_hard_state _ _ _)) => (apply dispatch_kind) : keeps.
#[local] Hint Extern 1 (keeps same_kind (role_handle_membership_applied _)) => (apply dispatch_kind) : keeps.
#[local] Hint Extern 1 (keeps same_kind (role_handle_snapshot_created _ _)) => (apply dispatch_kind) : keeps.

(** A role change in the middle of steps that keep the role. *)
Lemma change_role {A B C} (m1 : proc Raft A) (p : proc (Node RaftRole) B) (m2 : proc Raft C) (T : Role → Role → Prop) r r' x :
  keeps same_role m1 → keeps same_role m2 →
  (∀ n n' y, p n = Some (n', y) → kind n' = kind n ∨ T (kind n) (kind n')) →
  (m1;; on_node p;; m2) r = Some (r', x) →
  kind (node r') = kind (node r) ∨ T (kind (node r)) (kind (node r')).
Proof.
  intros H1 H2 Hp H. apply bind_inv in H as (r1 & y1 & E1 & H). apply H1 in E1. unfold same_role, same_kind in E1.
  destruct y1 as [a|e]; [|destruct H as [-> ->]; by left].
  apply bind_inv in H as (r2 & y2 & E2 & H). unfold on_node in E2.
  destruct (p (node r1)) as [[n y]|] eqn:E; [|done]. injection E2 as <- <-. apply Hp in E.
  assert (kind (node r') = kind n) as ->.
  { destruct y as [b|e]; [|by destruct H as [-> ->]]. by apply H2 in H. }
  rewrite <-E1. done.
Qed.

(** roles change only along the protocol's transitions: a follower or candidate may
    become a learner, a follower a candidate, a candidate the leader, any other role a
    follower, each only on its own event; every other internal event keeps the role. *)
Theorem roles_follow_transitions env ev (r r' : Raft) x :
  handle_internal_event env ev r = Some (r', x) →
  kind (node r') = kind (node r) ∨ transition ev (kind (node r)) (kind (node r')).
Proof.
  destruct ev; simpl; try (intros H; left; eapply (keeps_run same_role); [|exact H];
    unfold on_new_commit, notify_new_commit, notify_leader_change, on_snapshot_push_completed, loop_term,
      unless_fatal; solve_keeps; fail).
  - intros H. eapply (change_role _ _ _ (transition (BecomeFollower leader_id))); [..|exact H];
      [solve_keeps|unfold notify_leader_change, loop_term; solve_keeps|].
    intros n n' y. unfold become_follower, kind. destruct (state n) eqn:Es; intros [= <- <-]; simpl; rewrite ?Es; auto.
  - intros H. eapply (change_role _ _ _ (transition BecomeCandidate)); [..|exact H];
      [solve_keeps|unfold notify_leader_change, loop_term; solve_keeps|].
    intros n n' y. unfold become_candidate, kind. destruct (state n) eqn:Es; intros [= <- <-]; simpl; rewrite ?Es; auto.
  - intros H. eapply (change_role (mret tt) _ _ (transition BecomeLeader)); [..|exact H]; [solve_keeps|solve_keeps|].
    intros n n' y. unfold become_leader, kind. destruct (state n) eqn:Es; intros [= <- <-]; simpl; rewrite ?Es; auto.
  - intros H. eapply (change_role _ _ _ (transition BecomeLearner)); [..|exact H];
      [solve_keeps|unfold notify_leader_change, loop_term; solve_keeps|].
    intros n n' y. unfold become_learner, kind. destruct (state n) eqn:Es; intros [= <- <-]; simpl; rewrite ?Es; auto.
Qed.

Lemma roles_follow_transitions_witness :
  let p := handle_internal_event (ex_env 2 [1; 2; 3] 100 []) BecomeCandidate in
  kind (node (after p ex_busy)) = Ca
  ∧ (kind (node (after p ex_busy)) = kind (node ex_busy)
     ∨ transition BecomeCandidate (kind (node ex_busy)) (kind (node (after p ex_busy)))).
Proof.
  intros p. split; [by vm_compute|]. destruct (runs_after p ex_busy) as [x H]; [by vm_compute|].
  apply (roles_follow_transitions (ex_env 2 [1; 2; 3] 100 []) BecomeCandidate ex_busy (after p ex_busy) x H).
Defined.
