(* ===== verification/LeaderProps.v ===== *)
(** * The leader: properties

    Requests are answered once, the log is append-only, acknowledged progress is kept,
    commits have a quorum, reads wait for their index, and the lease means what it says. *)

From stdpp Require Import base tactics numbers option list gmap strings.
From S2P Require Import Prelude Types Events ReadLease TermSegments BufferedLog LogInv LogSpec.
From S2P Require Import Replication Election.
From S2P Require Import Proc Roles RoleState FollowerRoles LeaderState Leader LeaderEvents.
From S2P Require Import RaftLoop ProcLogic HardStateSpec LeaderProgress.
From S2P Require Import ClientFlow LeaderRequests Scenarios.
Import Leader LeaderEvents.

(** ** Requests *)

(** C2: every request that reaches a leader is answered at most once and never lost. Over
    any run of the leader's handlers the number of times a reply channel waits in the
    leader's state, travels with a requeued event, or has been answered grows exactly by
    the times it was handed in; the indexes of pending writes stay distinct. *)
Theorem requests_are_answered_once n chs n' :
  leader_run n chs n' → leader_requests_ok n →
  leader_requests_ok n' ∧ ∀ z, held z n' = (occ z chs + held z n)%nat.
Proof. intros Hr Hok. by apply leader_run_conserves. Qed.

(** stepping down answers what is buffered or pending: only the committed writes that
    wait for their application and the joins that wait for their commit stay unanswered. *)
Theorem step_down_answers_requests n :
  requests_ok n →
  ∃ n', drain_read_buffer n = Some (n', Ok tt) ∧ (∀ z, held z n' = held z n)
        ∧ ∀ z, waiting z (state n') = (mocc (λ ch, [ch]) z (pending_write_apply (state n))
                                       + mocc action_channels z (pending_commit_actions (state n)))%nat.
Proof. apply drain_read_buffer_answers. Qed.

(** ** Log and progress *)

(** C22: leader append-only. No handler of a leader, started with fresh indexes allocated
    past the log's end and a scheduled purge (if any) below the commit index, overwrites or
    deletes an entry of its log, except the entries up to the purge it has scheduled, which
    stays below the commit index; its commit index never goes back. *)
Theorem leader_is_append_only env chs p (n n' : Node LeaderState) r :
  leader_handler env chs p → p n = Some (n', r) → sound_leader n →
  sound_leader n' ∧ commit_index (shared n) <= commit_index (shared n')
  ∧ ∀ i e, entry (mem (raft_log n)) i = Some e →
           entry (mem (raft_log n')) i = Some e ∨ purge_covers n' i.
Proof. apply leader_handler_append. Qed.

(** Acknowledged progress is never undone. No handler of a leader lowers a peer's match
    index, and the next index of a peer stays above its match index. *)
Theorem acknowledged_progress_is_kept env chs p (n n' : Node LeaderState) r :
  leader_handler env chs p → p n = Some (n', r) →
  (∀ id, matched (state n) id <= matched (state n') id)
  ∧ (next_above (state n) → next_above (state n')).
Proof. intros Hp H. apply (leader_handler_progress env chs p Hp n n' r H). Qed.


(** ** A concrete leader *)

Definition ex_lenv (t : N) : Env := ex_env 1 [1; 2; 3] t [].

Definition ex_l1 : Node LeaderState := after (push_client_cmd (ex_lenv 100) (Propose (ex_write 7) 41)) ex_leader_node.
Definition ex_l2 : Node LeaderState := after (flush_cmd_buffers (ex_lenv 100)) ex_l1.
Definition ex_l3 : Node LeaderState := after (handle_append_result (ex_lenv 110) 2 (ex_ack 2 1)) ex_l2.

Lemma ex_leader_ok : leader_requests_ok ex_leader_node.
Proof.
  assert (pending_client_writes (state ex_leader_node) = ∅) as Hc by reflexivity.
  assert (pending_write_apply (state ex_leader_node) = ∅) as Hw by reflexivity.
  assert (pending_commit_actions (state ex_leader_node) = ∅) as Ha by reflexivity.
  split; [split; [split|split]|intros k a; by rewrite Ha, lookup_empty]; rewrite ?Hc, ?Hw; try done.
  intros i [e He]. by vm_compute in He.
Qed.

Lemma ex_run_step p chs n :
  poisoned (raft_log n) = false → leader_handler (ex_lenv 100) chs p → runs p n = true →
  last_entry_id (mem (raft_log n)) <= last_entry_id (mem (raft_log (after p n))) →
  leader_run n chs (after p n).
Proof.
  intros Hn Hp Hr Hle. destruct (runs_after p n Hr) as [r H]. rewrite <-(app_nil_r chs).
  eapply lr_step; [|exact Hp|exact H|exact Hle|apply lr_nil]. done.
Qed.

Lemma ex_leader_run : leader_run ex_leader_node [41] ex_l2.
Proof.
  destruct (runs_after (push_client_cmd (ex_lenv 100) (Propose (ex_write 7) 41)) ex_leader_node) as [r H];
    [by vm_compute|].
  apply (lr_step (ex_lenv 100) [41] (push_client_cmd (ex_lenv 100) (Propose (ex_write 7) 41))
    ex_leader_node ex_l1 r []); [done|apply (lh_cmd _ (Propose (ex_write 7) 41))|exact H|by vm_compute|].
  apply ex_run_step; [by vm_compute|apply lh_flush|by vm_compute|by vm_compute].
Qed.

Lemma requests_are_answered_once_witness :
  leader_requests_ok ex_l2 ∧ held 41 ex_l2 = 1%nat ∧ waiting 41 (state ex_l2) = 1%nat.
Proof.
  destruct (requests_are_answered_once ex_leader_node [41] ex_l2 ex_leader_run ex_leader_ok) as [Hok Hz].
  split; [exact Hok|]. split; [rewrite Hz; by vm_compute|by vm_compute].
Defined.

Lemma step_down_answers_requests_witness :
  ∃ n', drain_read_buffer ex_l2 = Some (n', Ok tt) ∧ (∀ z, held z n' = held z ex_l2)
        ∧ ∀ z, waiting z (state n') = (mocc (λ ch, [ch]) z (pending_write_apply (state ex_l2))
                                       + mocc action_channels z (pending_commit_actions (state ex_l2)))%nat.
Proof.
  apply (step_down_answers_requests ex_l2).
  exact (proj1 (proj1 (leader_run_conserves _ _ _ ex_leader_run ex_leader_ok))).
Defined.

Lemma ex_l2_sound : sound_leader ex_l2.
Proof.
  split; [exact (proj2 (proj1 (proj1 (leader_run_conserves _ _ _ ex_leader_run ex_leader_ok))))|].
  intros lid Hl. by vm_compute in Hl.
Qed.

(** Node 2 acknowledges the first entry. *)
Lemma leader_is_append_only_witness :
  entry (mem (raft_log ex_l3)) 1 = Some (mkEntry 1 2 (Some (payload_command [7])))
  ∧ sound_leader ex_l3 ∧ commit_index (shared ex_l2) <= commit_index (shared ex_l3).
Proof.
  destruct (runs_after (handle_append_result (ex_lenv 110) 2 (ex_ack 2 1)) ex_l2) as [r H]; [by vm_compute|].
  destruct (leader_is_append_only (ex_lenv 110) [] (handle_append_result (ex_lenv 110) 2 (ex_ack 2 1)) ex_l2 ex_l3 r)
    as (Hs & Hc & He); [apply lh_append_result|exact H|apply ex_l2_sound|].
  split; [|by split]. by vm_compute.
Defined.

Lemma acknowledged_progress_is_kept_witness :
  matched (state ex_l2) 2 = 0 ∧ matched (state ex_l3) 2 = 1
  ∧ (next_above (state ex_l2) → next_above (state ex_l3)).
Proof.
  destruct (runs_after (handle_append_result (ex_lenv 110) 2 (ex_ack 2 1)) ex_l2) as [r H]; [by vm_compute|].
  split; [by vm_compute|]. split; [by vm_compute|].
  apply (acknowledged_progress_is_kept (ex_lenv 110) [] (handle_append_result (ex_lenv 110) 2 (ex_ack 2 1))
    ex_l2 ex_l3 r); [apply lh_append_result|exact H].
Defined.

(** The leader with an acknowledgement of both peers, which then acknowledge a second entry. *)
Definition ex_l4 : Node LeaderState := after (handle_append_result (ex_lenv 111) 3 (ex_ack 3 1)) ex_l3.
Definition ex_l5 : Node LeaderState :=
  after (push_client_cmd (ex_lenv 112) (Propose (ex_write 8) 42);; flush_cmd_buffers (ex_lenv 112)) ex_l4.
Definition ex_l6 : Node LeaderState := after (handle_append_result (ex_lenv 113) 3 (ex_ack 3 2)) ex_l5.


(** * The leader: runs that depart from the comments

    Concrete runs of the leader's handlers, evaluated by computation. They delimit the
    theorems of [LeaderProps] and [ReadProps]: commits have a quorum once every voter has
    acknowledged, requests survive until the leader steps down, and reads that wait for a
    confirmation of leadership may be served without one. *)

Import Leader LeaderEvents.

Definition at_time (t : N) : Env := ex_env 1 [1; 2; 3] t [].

(** ** A commit without a quorum

    [update_match_index] records nothing for a peer that has acknowledged nothing, and the
    commit rule takes the median over the recorded peers only. A new leader of three voters
    that flushes its no-op commits it before anyone has acknowledged it. *)

Definition lone_leader : Node LeaderState :=
  after (initiate_noop_commit (at_time 100);; handle_log_flushed (at_time 110) 1) ex_leader_node.

Theorem commit_without_quorum :
  match_index (state lone_leader) = ∅ ∧ total_voters (cluster_metadata (state lone_leader)) = 3
  ∧ commit_index (shared lone_leader) = 1 ∧ quorum_holds lone_leader 1 = false.
Proof. split_and!; by vm_compute. Qed.

(** Of five voters one acknowledgement is enough for the leader to commit. *)
Definition five : list N := [1; 2; 3; 4; 5].
Definition five_leader : Node LeaderState :=
  ex_leader_node <| state ::= update_cluster_metadata (ex_membership 1 five) |>.
Definition one_ack : Node LeaderState :=
  after (initiate_noop_commit (ex_env 1 five 100 []);;
         handle_append_result (ex_env 1 five 110 []) 2 (ex_ack 2 1)) five_leader.

Theorem one_of_five_commits :
  commit_index (shared one_ack) = 1 ∧ quorum_holds one_ack 1 = false
  ∧ match_index (state one_ack) = {[ 2 := 1 ]}.
Proof. split_and!; by vm_compute. Qed.

(** ** A lease from a single acknowledgement

    The lease is renewed when the recorded match indexes reach the commit index, whoever
    sent the acknowledgement that triggered the check. Once all of five voters have
    acknowledged the log, one of them keeps the lease alive: here the lease has expired,
    node 2 alone answers, and the lease is valid again. *)

Definition all_acked : Node LeaderState :=
  after (handle_append_result (ex_env 1 five 111 []) 3 (ex_ack 3 1);;
         handle_append_result (ex_env 1 five 112 []) 4 (ex_ack 4 1);;
         handle_append_result (ex_env 1 five 113 []) 5 (ex_ack 5 1)) one_ack.

Definition partitioned : Node LeaderState :=
  after (send_heartbeat_or_batch (ex_env 1 five 9000 []) None;;
         handle_append_result (ex_env 1 five 9010 []) 2 (ex_ack 2 1)) all_acked.

Theorem one_of_five_renews_lease :
  is_lease_valid (shared all_acked) 9000 = false ∧ is_lease_valid (shared partitioned) 9010 = true.
Proof. split; by vm_compute. Qed.

(** ** A linearizable read without confirmation

    With an expired lease a read waits under its read index until leadership is confirmed.
    The application of an entry that was committed before the read arrived serves it as
    well: between the read's arrival and its answer no peer is heard. *)

Definition read_5 : ClientReadRequest := mkClientReadRequest 1 [[5]] (Some LinearizableRead).

(** No-op committed, nothing applied yet, lease long expired; the read is queued. *)
Definition queued : Node LeaderState :=
  after (push_client_cmd (ex_env 1 five 9000 []) (Read read_5 77);; flush_cmd_buffers (ex_env 1 five 9000 [])) all_acked.

Theorem read_served_without_confirmation :
  is_lease_valid (shared queued) 9000 = false ∧ waiting 77 (state queued) = 1%nat
  ∧ let served := after (handle_apply_completed (ex_env 1 five 9005 []) 1 []) queued in
    is_lease_valid (shared served) 9005 = false ∧ waiting 77 (state served) = 0%nat
    ∧ last (sent served) = Some (77, read_keys (ex_env 1 five 9005 []) [[5]]).
Proof. split_and!; by vm_compute. Qed.

(** ** Committed writes are forgotten on step-down

    The field's comment says that [pending_write_apply] is cleared with an error when the
    leader steps down. The drain leaves it alone and the follower has no such field: the
    client of a committed write is not answered. *)

Definition write_41 : Node LeaderState :=
  after (push_client_cmd (at_time 100) (Propose (ex_write 7) 41);; flush_cmd_buffers (at_time 100);;
         handle_append_result (at_time 110) 2 (ex_ack 2 1)) ex_leader_node.

Theorem step_down_forgets_committed_writes :
  pending_write_apply (state write_41) = {[ 1 := 41 ]}
  ∧ let r := mkRaft (retype (RLeader (state write_41)) write_41) [] [] [] [] [] None in
    let r' := after (handle_internal_event (at_time 120) (BecomeFollower None)) r in
    (match state (node r') with RFollower _ => true | _ => false end) = true
    ∧ existsb (λ p, p.1 =? 41) (sent (node r')) = false.
Proof. split_and!; by vm_compute. Qed.

(** ** The first acknowledgement of a new term is stale

    A follower takes its snapshot of the state before it adopts the term of a request, so
    the answer to the first request of a new leader carries the old term. The leader drops
    answers of an older term: the entries are acknowledged only by a later request. *)

Definition first_request : AppendEntriesRequest :=
  mkAppendEntriesRequest 2 1 0 0 [mkEntry 1 2 (Some payload_noop)] 0.

Definition first_answer : option (N * Reply) :=
  last (sent (after (role_handle_inbound_event (ex_env 2 [1; 2; 3] 100 []) (AppendEntries first_request [9]))
                (ex_node 2))).

Theorem first_ack_carries_old_term :
  first_answer = Some (9, RAppend (mkAppendEntriesResponse 2 1 (Some (Success (mkSuccessResult (Some (mkLogId 2 1)))))))
  ∧ ∀ n : Node LeaderState, current_term (hard_state (shared n)) = 2 →
      handle_append_result (at_time 110) 2
        (Ok (mkAppendEntriesResponse 2 1 (Some (Success (mkSuccessResult (Some (mkLogId 2 1))))))) n = Some (n, Ok tt).
Proof.
  split; [by vm_compute|]. intros n Hn. unfold handle_append_result, mbind, proc_bind. simpl. by rewrite Hn.
Qed.
