(* ===== verification/Codec.v ===== *)
(** * Byte encodings

    The fixed-width integers and length-prefixed fields that the file adaptors write
    ([u64::to_be_bytes], [u64::from_be_bytes]), and the cursor they read them back with:
    a position in a buffer and the bytes from there on. A read past the end stops the
    loop that asked for it; a position that would exceed [usize] aborts, as every
    addition of the release profile does. Last, what becomes of a write to a file. *)

From stdpp Require Import base tactics numbers option list.
From S2P Require Import Prelude Types.

(** ** Big-endian integers *)

Fixpoint be_encode (k : nat) (n : N) : bytes :=
  match k with
  | O => []
  | S k' => be_encode k' (n / 256) ++ [n mod 256]
  end.

Definition be_decode (l : bytes) : N := foldl (λ acc b, acc * 256 + b) 0 l.

(** [u64::to_be_bytes]. *)
Definition be64 (n : N) : bytes := be_encode 8 n.

(** A field preceded by its length. *)
Definition sized (b : bytes) : bytes := be64 (N.of_nat (length b)) ++ b.

Lemma length_be_encode k n : length (be_encode k n) = k.
Proof. revert n. induction k as [|k IH]; intros n; [done|]. simpl. rewrite length_app, IH. simpl. lia. Qed.

Lemma length_be64 n : length (be64 n) = 8%nat.
Proof. apply length_be_encode. Qed.

Lemma be_decode_snoc l b : be_decode (l ++ [b]) = be_decode l * 256 + b.
Proof. unfold be_decode. by rewrite foldl_app. Qed.

Lemma be_decode_encode k n : n < 256 ^ N.of_nat k → be_decode (be_encode k n) = n.
Proof.
  revert n. induction k as [|k IH]; intros n Hn; simpl be_encode.
  { change (256 ^ N.of_nat 0) with 1 in Hn. unfold be_decode. simpl. lia. }
  rewrite be_decode_snoc, IH.
  - pose proof (N.div_mod n 256). lia.
  - replace (N.of_nat (S k)) with (N.succ (N.of_nat k)) in Hn by lia.
    rewrite N.pow_succ_r' in Hn. apply N.Div0.div_lt_upper_bound; lia.
Qed.

Lemma be_decode_be64 n : n <= u64_max → be_decode (be64 n) = n.
Proof. intros Hn. apply be_decode_encode. unfold u64_max in Hn. change (256 ^ N.of_nat 8) with 18446744073709551616. lia. Qed.

(** ** The read cursor *)

Inductive parsed (A : Type) :=
  | Parsed (a : A) (pos : N) (rest : bytes)
  | Stop
  | Corrupt
  | Overflow.
Arguments Parsed {A} a pos rest.
Arguments Stop {A}.
Arguments Corrupt {A}.
Arguments Overflow {A}.

(** A read at position [pos] of a buffer, given the bytes from there on. *)
Definition parser (A : Type) : Type := N → bytes → parsed A.

#[global] Instance parser_ret : MRet parser := λ A a pos rest, Parsed a pos rest.
#[global] Instance parser_bind : MBind parser := λ A B k p pos rest,
  match p pos rest with
  | Parsed a pos' rest' => k a pos' rest'
  | Stop => Stop
  | Corrupt => Corrupt
  | Overflow => Overflow
  end.

#[global] Instance parser_fmap : FMap parser := λ A B f p, x ← p; mret (f x).

(** [if pos + n > buffer.len() { break }; buffer[pos..pos + n]; pos += n]. *)
Definition p_take (n : N) : parser bytes := λ pos rest,
  if u64_max <? pos + n then Overflow
  else if N.of_nat (length rest) <? n then Stop
  else Parsed (take (N.to_nat n) rest) (pos + n) (drop (N.to_nat n) rest).

Definition p_u64 : parser N := b ← p_take 8; mret (be_decode b).

Definition p_sized : parser bytes := n ← p_u64; p_take n.

#[global] Arguments be64 : simpl never.
#[global] Arguments sized : simpl never.

(** ** Reading back what was written

    [reads p out a]: at any position where [out] follows, [p] yields [a] and continues
    after [out]; where only a part of [out] is left, it stops. The buffer is no longer
    than [usize] allows. *)

Definition strict_prefix {A} (t out : list A) : Prop := ∃ x u, out = t ++ x :: u.

Record reads {A} (p : parser A) (out : bytes) (a : A) : Prop := {
  reads_all pos rest : pos + N.of_nat (length out + length rest) <= u64_max →
    p pos (out ++ rest) = Parsed a (pos + N.of_nat (length out)) rest;
  reads_part pos t : strict_prefix t out → pos + N.of_nat (length out) <= u64_max →
    p pos t = Stop;
}.

Lemma strict_prefix_app {A} (t out1 out2 : list A) :
  strict_prefix t (out1 ++ out2) → strict_prefix t out1 ∨ ∃ t2, t = out1 ++ t2 ∧ strict_prefix t2 out2.
Proof.
  intros (x & u & H). apply app_eq_inv in H as [(k & H1 & H2)|(k & -> & ->)].
  - destruct k as [|y k].
    + rewrite app_nil_r in H1. subst. right. exists []. split; [by rewrite app_nil_r|].
      exists x, u. done.
    + left. exists y, k. done.
  - right. exists k. split; [done|]. by exists x, u.
Qed.

Lemma strict_prefix_length {A} (t out : list A) : strict_prefix t out → (length t < length out)%nat.
Proof. intros (x & u & ->). rewrite length_app. simpl. lia. Qed.

Lemma reads_ret {A} (a : A) : reads (mret a) [] a.
Proof.
  split.
  - intros pos rest _. unfold mret, parser_ret. simpl. by rewrite N.add_0_r.
  - intros pos t Ht%strict_prefix_length. simpl in Ht. lia.
Qed.

Lemma reads_bind {A B} (p : parser A) (k : A → parser B) out1 out2 a b :
  reads p out1 a → reads (k a) out2 b → reads (p ≫= k) (out1 ++ out2) b.
Proof.
  intros Hp Hk. split; unfold mbind, parser_bind.
  - intros pos rest Hlen. rewrite length_app in *.
    rewrite <-app_assoc, (reads_all _ _ _ Hp) by (rewrite length_app; lia).
    rewrite (reads_all _ _ _ Hk) by lia. f_equal. lia.
  - intros pos t [Ht|(t2 & -> & Ht)]%strict_prefix_app Hlen; rewrite length_app in Hlen.
    + by rewrite (reads_part _ _ _ Hp) by (done || lia).
    + pose proof (strict_prefix_length _ _ Ht). rewrite (reads_all _ _ _ Hp) by lia.
      rewrite (reads_part _ _ _ Hk) by (done || lia). done.
Qed.

(** The last read of a sequence. *)
Lemma reads_bind_ret {A B} (p : parser A) (f : A → B) out a :
  reads p out a → reads (x ← p; mret (f x)) out (f a).
Proof. intros Hp. rewrite <-(app_nil_r out). eapply reads_bind; [done|]. apply reads_ret. Qed.

Lemma reads_fmap {A B} (p : parser A) (f : A → B) out a : reads p out a → reads (f <$> p) out (f a).
Proof. apply reads_bind_ret. Qed.

Lemma reads_take b n : n = N.of_nat (length b) → reads (p_take n) b b.
Proof.
  intros ->. unfold p_take. split.
  - intros pos rest Hlen.
    destruct (N.ltb_spec u64_max (pos + N.of_nat (length b))); [lia|].
    rewrite length_app. destruct (N.ltb_spec (N.of_nat (length b + length rest)) (N.of_nat (length b))); [lia|].
    rewrite Nat2N.id, take_app_length, drop_app_length. done.
  - intros pos t Ht%strict_prefix_length Hlen.
    destruct (N.ltb_spec u64_max (pos + N.of_nat (length b))); [lia|].
    by destruct (N.ltb_spec (N.of_nat (length t)) (N.of_nat (length b))); [|lia].
Qed.

Lemma reads_u64 n : n <= u64_max → reads p_u64 (be64 n) n.
Proof.
  intros Hn. unfold p_u64. rewrite <-(be_decode_be64 n) at 2 by done.
  apply reads_bind_ret, reads_take. by rewrite length_be64.
Qed.

Lemma reads_sized b : N.of_nat (length b) <= u64_max → reads p_sized (sized b) b.
Proof. intros Hb. eapply reads_bind; [by apply reads_u64|]. by apply reads_take. Qed.

(** What a successful read consumed. *)
Lemma p_take_inv n pos rest b pos' rest' :
  p_take n pos rest = Parsed b pos' rest' →
  rest = b ++ rest' ∧ N.of_nat (length b) = n ∧ pos' = pos + n.
Proof.
  unfold p_take. destruct (u64_max <? pos + n); [done|].
  destruct (N.ltb_spec (N.of_nat (length rest)) n); [done|]. intros [= <- <- <-].
  rewrite take_drop, length_take. split; [done|split; [lia|done]].
Qed.

(** ** Readers move forward *)

(** A successful read leaves at least [n] bytes less. *)
Definition consumes {A} (n : nat) (p : parser A) : Prop :=
  ∀ pos rest a pos' rest', p pos rest = Parsed a pos' rest' → (length rest' + n <= length rest)%nat.

Lemma consumes_ret {A} (a : A) : consumes 0 (mret a).
Proof. intros pos rest b pos' rest' [= _ _ <-]. lia. Qed.

Lemma consumes_bind {A B} n1 n2 (p : parser A) (k : A → parser B) :
  consumes n1 p → (∀ a, consumes n2 (k a)) → consumes (n1 + n2) (p ≫= k).
Proof.
  intros Hp Hk pos rest b pos' rest'. unfold mbind, parser_bind.
  destruct (p pos rest) as [a pos1 rest1| | |] eqn:E1; [|done..]. intros E2.
  apply Hp in E1. apply Hk in E2. lia.
Qed.

Lemma consumes_weaken {A} n1 n2 (p : parser A) : (n2 <= n1)%nat → consumes n1 p → consumes n2 p.
Proof. intros Hle Hp pos rest a pos' rest' E. apply Hp in E. lia. Qed.

Lemma consumes_take n : consumes (N.to_nat n) (p_take n).
Proof. intros pos rest a pos' rest' (-> & <- & _)%p_take_inv. rewrite length_app, Nat2N.id. lia. Qed.

Lemma consumes_u64 : consumes 8 p_u64.
Proof.
  unfold p_u64. apply (consumes_bind 8 0); [apply (consumes_take 8)|]. intros a. apply consumes_ret.
Qed.

Lemma consumes_sized : consumes 8 p_sized.
Proof.
  unfold p_sized. apply (consumes_bind 8 0); [apply consumes_u64|]. intros n.
  eapply consumes_weaken; [|apply consumes_take]. lia.
Qed.

(** ** Files *)

(** What becomes of a write: the file could not be opened, the write stopped after some
    bytes, or it is complete. *)
Inductive io_outcome := OpenFailed | WriteFailed (written : nat) | IoDone.

#[global] Instance io_outcome_eq_dec : EqDecision io_outcome.
Proof. solve_decision. Defined.

Definition write_file (io : io_outcome) (content : bytes) (old : option bytes)
    : option bytes * result unit :=
  match io with
  | OpenFailed => (old, Err IoError)
  | WriteFailed n => (Some (take n content), Err IoError)
  | IoDone => (Some content, Ok tt)
  end.

Definition append_file (io : io_outcome) (content : bytes) (old : option bytes)
    : option bytes * result unit :=
  match io with
  | OpenFailed => (old, Err IoError)
  | WriteFailed n => (Some (default [] old ++ take n content), Err IoError)
  | IoDone => (Some (default [] old ++ content), Ok tt)
  end.
