(* ===== verification/Commands.v ===== *)
(** * Commands of the state machine

    [d-engine-core/src/command.rs]: the wire form of a write ([WriteCommand], generated
    from the protocol definition), the decoded form a state machine executes
    ([Command], [ApplyEntry]), and the conversion between them that the apply path
    runs once per entry. Decoding the bytes of a [WriteCommand] is prost's generated
    code: a parameter. *)

From stdpp Require Import base tactics numbers option list strings.
From S2P Require Import Prelude Types.

(** ** The wire form *)

Module Wire.
Record Insert := mkInsert { i_key : bytes; i_value : bytes; i_ttl_secs : N }.
Record Delete := mkDelete { d_key : bytes }.
Record CompareAndSwap := mkCompareAndSwap {
  c_key : bytes;
  expected_value : option bytes;
  new_value : bytes;
}.
Inductive Op := OpInsert (i : Insert) | OpDelete (d : Delete).
Record BatchOp := mkBatchOp { op : option Op }.
Record Batch := mkBatch { ops : list BatchOp }.
Inductive Operation :=
  | OInsert (i : Insert)
  | ODelete (d : Delete)
  | OCompareAndSwap (c : CompareAndSwap)
  | OBatch (b : Batch).
Record WriteCommand := mkWriteCommand { operation : option Operation }.
End Wire.

(** ** The decoded form *)

Module Cmd.
Inductive BatchOp :=
  | BInsert (key value : bytes)
  | BDelete (key : bytes).

Inductive Command :=
  | Noop
  | Insert (key value : bytes) (ttl_secs : option N)
  | Delete (key : bytes)
  | CompareAndSwap (key : bytes) (expected : option bytes) (value : bytes)
  | Batch (ops : list BatchOp).
End Cmd.

Record ApplyEntry := mkApplyEntry {
  ae_index : N;
  ae_term : N;
  ae_command : Cmd.Command;
}.

#[global] Instance BatchOp_eq_dec : EqDecision Cmd.BatchOp.
Proof. solve_decision. Defined.
#[global] Instance Command_eq_dec : EqDecision Cmd.Command.
Proof. solve_decision. Defined.
#[global] Instance ApplyEntry_eq_dec : EqDecision ApplyEntry.
Proof. solve_decision. Defined.

(** ** Decoding *)

Definition batch_op_of_wire (o : Wire.BatchOp) : result Cmd.BatchOp :=
  match Wire.op o with
  | Some (Wire.OpInsert i) =>
      if Wire.i_ttl_secs i =? 0 then Ok (Cmd.BInsert (Wire.i_key i) (Wire.i_value i))
      else Err (StateMachineError "BatchOp does not support TTL; use Command::Insert directly for per-key expiration")
  | Some (Wire.OpDelete d) => Ok (Cmd.BDelete (Wire.d_key d))
  | None => Err (StateMachineError "BatchOp has no operation")
  end.

(** [collect::<Result<Vec<_>, _>>()]: the first error wins. *)
Fixpoint collect {A B} (f : A → result B) (l : list A) : result (list B) :=
  match l with
  | [] => Ok []
  | x :: l' => let? y := f x in let? ys := collect f l' in Ok (y :: ys)
  end.

(** [Command::try_from(WriteCommand)]. *)
Definition command_try_from (wc : Wire.WriteCommand) : result Cmd.Command :=
  match Wire.operation wc with
  | Some (Wire.OInsert i) =>
      Ok (Cmd.Insert (Wire.i_key i) (Wire.i_value i)
            (if Wire.i_ttl_secs i =? 0 then None else Some (Wire.i_ttl_secs i)))
  | Some (Wire.ODelete d) => Ok (Cmd.Delete (Wire.d_key d))
  | Some (Wire.OCompareAndSwap c) =>
      Ok (Cmd.CompareAndSwap (Wire.c_key c) (Wire.expected_value c) (Wire.new_value c))
  | Some (Wire.OBatch b) => let? ops := collect batch_op_of_wire (Wire.ops b) in Ok (Cmd.Batch ops)
  | None => Err (StateMachineError "WriteCommand has no operation")
  end.

Section decode.
(** [WriteCommand::decode]. *)
Context (decode_write_command : bytes → option Wire.WriteCommand).

Definition decode_entry (e : Entry) : result ApplyEntry :=
  match e_payload e ≫= ep_payload with
  | None => Err (StateMachineError "Entry has no payload")
  | Some Noop | Some (Config _) => Ok (mkApplyEntry (e_index e) (e_term e) Cmd.Noop)
  | Some (Command data) =>
      match decode_write_command data with
      | None => Err (SerializationError "Failed to decode WriteCommand")
      | Some wc => let? c := command_try_from wc in Ok (mkApplyEntry (e_index e) (e_term e) c)
      end
  end.

Definition decode_entries (entries : list Entry) : result (list ApplyEntry) :=
  collect decode_entry entries.

(** Decoding keeps position and term: one [ApplyEntry] per entry, in order, so the
    indexes the state machine sees are those of the log. *)
Lemma decode_entries_indices entries out :
  decode_entries entries = Ok out →
  ae_index <$> out = e_index <$> entries ∧ ae_term <$> out = e_term <$> entries.
Proof.
  unfold decode_entries. revert out. induction entries as [|e es IH]; intros out; simpl.
  { by intros [= <-]. }
  destruct (decode_entry e) as [a|] eqn:Ea; [|done].
  destruct (collect decode_entry es) as [l|]; [|done]. intros [= <-].
  destruct (IH l eq_refl) as [IH1 IH2]. csimpl. rewrite IH1, IH2.
  revert Ea. unfold decode_entry. destruct (e_payload e ≫= ep_payload) as [[]|]; [| | |done].
  - by intros [= <-].
  - destruct (decode_write_command data); [|done].
    destruct (command_try_from w); [|done]. by intros [= <-].
  - by intros [= <-].
Qed.
End decode.
