(* ===== verification/TtlLease.v ===== *)
(** * Key expiration

    [d-engine-server/src/storage/lease.rs]: the index of keys with a time to live that a
    state machine keeps beside its data. A [SystemTime] is the number of nanoseconds
    since the epoch. The encoding of a lease snapshot is bincode's: a parameter with its
    round-trip law ([LeaseCodec]). *)

From stdpp Require Import base tactics numbers option list gmap strings.
From S2P Require Import Prelude Types.

Definition nanos : N := 1000000000.

Definition i64_max : N := 9223372036854775807.

(** [SystemTime + Duration::from_secs(secs)]: the seconds of a [SystemTime] are an
    [i64], and the addition panics when they overflow. *)
Definition system_time_add (t secs : N) : option N :=
  if t / nanos + secs <=? i64_max then Some (t + secs * nanos) else None.

(** [bincode] on a [LeaseSnapshot]. *)
Class LeaseCodec := {
  bincode_serialize : gmap bytes N → bytes;
  bincode_deserialize : bytes → option (gmap bytes N);
  bincode_round_trip m : bincode_deserialize (bincode_serialize m) = Some m;
}.

(** An encoding to run the model with: the whole map as one number. *)
Definition countable_codec : LeaseCodec.
Proof.
  refine {| bincode_serialize m := [N.pos (encode m)];
            bincode_deserialize b := match b with [N.pos p] => decode p | _ => None end |}.
  intros m. by rewrite decode_encode.
Defined.

Record TtlLease := mkTtlLease {
  apply_counter : N;
  key_to_expiry : gmap bytes N;
  has_keys : bool;
}.

Module TtlLease.
Section lease.
Context `{!LeaseCodec} `{!MapIter bytes N}.

Definition new : TtlLease := mkTtlLease 0 ∅ false.

(** The keys of a snapshot that have not expired. *)
Definition unexpired (now : N) (m : gmap bytes N) : gmap bytes N := filter (λ p, now < p.2) m.

Definition from_snapshot (now : N) (data : bytes) : TtlLease :=
  match bincode_deserialize data with
  | None => new
  | Some m => let live := unexpired now m in mkTtlLease 0 live (bool_decide (live ≠ ∅))
  end.

Definition register (now : N) (key : bytes) (ttl_secs : N) (l : TtlLease) : option TtlLease :=
  let! expire_at := system_time_add now ttl_secs in
  Some (mkTtlLease (apply_counter l) (<[key := expire_at]> (key_to_expiry l)) true).

Definition unregister (key : bytes) (l : TtlLease) : TtlLease :=
  mkTtlLease (apply_counter l) (delete key (key_to_expiry l)) (has_keys l).

Definition is_expired (now : N) (key : bytes) (l : TtlLease) : bool :=
  match key_to_expiry l !! key with
  | Some expire_at => expire_at <=? now
  | None => false
  end.

(** Collect the expired keys, then remove each of them that is still expired. *)
Definition get_expired_keys (now : N) (l : TtlLease) : list bytes * TtlLease :=
  let to_remove := (filter (λ p, p.2 <= now) (map_iter (key_to_expiry l))).*1 in
  (filter (λ k, is_expired now k l = true) to_remove,
   mkTtlLease (apply_counter l) (foldr delete (key_to_expiry l) to_remove) (has_keys l)).

(** A look at the first ten bindings only. *)
Definition may_have_expired_keys (now : N) (l : TtlLease) : bool :=
  if negb (has_keys l) then false
  else existsb (λ p, p.2 <=? now) (take 10 (map_iter (key_to_expiry l))).

Definition to_snapshot (l : TtlLease) : bytes := bincode_serialize (key_to_expiry l).

Definition reload (now : N) (data : bytes) (l : TtlLease) : TtlLease * result unit :=
  match bincode_deserialize data with
  | None => (l, Err (StateMachineError "Failed to deserialize lease snapshot"))
  | Some m =>
      let live := unexpired now m in
      (mkTtlLease 0 live (if bool_decide (live ≠ ∅) then true else has_keys l), Ok tt)
  end.

(** ** Lemmas *)

Lemma lookup_unexpired now m k t : unexpired now m !! k = Some t ↔ m !! k = Some t ∧ now < t.
Proof. unfold unexpired. rewrite map_lookup_filter_Some. simpl. tauto. Qed.

Lemma foldr_delete_lookup_keys {V} (ks : list bytes) (m : gmap bytes V) k :
  foldr delete m ks !! k = if decide (k ∈ ks) then None else m !! k.
Proof.
  induction ks as [|k' ks IH]; simpl; [done|].
  destruct (decide (k = k')) as [->|Hne].
  - rewrite lookup_delete_eq. by rewrite decide_True by (by left).
  - rewrite lookup_delete_ne, IH by done.
    destruct (decide (k ∈ ks)); [by rewrite decide_True by (by right)|].
    rewrite decide_False; [done|]. intros [|]%elem_of_cons; done.
Qed.

Lemma elem_of_expired now l k :
  k ∈ (filter (λ p, p.2 <= now) (map_iter (key_to_expiry l))).*1
  ↔ is_expired now k l = true.
Proof.
  rewrite list_elem_of_fmap. unfold is_expired. split.
  - intros ([k' t] & -> & [Ht Hin]%list_elem_of_filter). apply elem_of_map_iter in Hin. simpl in *.
    rewrite Hin. by apply N.leb_le.
  - destruct (key_to_expiry l !! k) as [t|] eqn:E; [|done]. intros Ht%N.leb_le.
    exists (k, t). split; [done|]. apply list_elem_of_filter. split; [done|]. by apply elem_of_map_iter.
Qed.

(** The scan returns exactly the expired keys and keeps the index of the others. *)
Lemma get_expired_keys_spec now l keys l' :
  get_expired_keys now l = (keys, l') →
  (∀ k, k ∈ keys ↔ is_expired now k l = true)
  ∧ key_to_expiry l' = unexpired now (key_to_expiry l) ∧ has_keys l' = has_keys l.
Proof.
  intros [= <- <-]. split; [|split; [|done]].
  - intros k. rewrite list_elem_of_filter, elem_of_expired. tauto.
  - apply map_eq. intros k. simpl. rewrite foldr_delete_lookup_keys. apply option_eq. intros t.
    rewrite lookup_unexpired. destruct (decide _) as [Hk|Hk].
    + apply elem_of_expired in Hk. unfold is_expired in Hk.
      split; [done|]. intros [E Ht]. rewrite E in Hk. apply N.leb_le in Hk. lia.
    + rewrite elem_of_expired in Hk. unfold is_expired in Hk. split; [|tauto].
      intros E. split; [done|]. rewrite E in Hk. apply not_true_is_false, N.leb_gt in Hk. done.
Qed.

(** A sample without an expired key is not a proof that there is none, but a sample
    with one is a proof that there is one. *)
Lemma may_have_expired_keys_sound now l :
  may_have_expired_keys now l = true → ∃ k, is_expired now k l = true.
Proof.
  unfold may_have_expired_keys. destruct (has_keys l); [|done]. simpl.
  intros ([k t] & Hin & Ht)%existsb_exists. exists k.
  apply list_elem_of_In, elem_of_take in Hin as (i & Hin & _).
  apply list_elem_of_lookup_2, elem_of_map_iter in Hin. unfold is_expired. by rewrite Hin.
Qed.
End lease.
End TtlLease.
