(* ===== verification/FileStateMachine.v ===== *)
(** * The file-based state machine

    [d-engine-server/src/storage/adaptors/file/file_state_machine.rs]: a key-value map in
    memory, a write-ahead log of the outcomes of the applied entries, and checkpoints
    of the whole map. [FileStateMachine] is the memory with the files of its
    directory; every operation that touches a file may fail part way, which [SmEnv]
    decides, together with the clocks the operation reads. The SHA-256 of a directory
    is the library's: a parameter. *)

From stdpp Require Import base tactics numbers option list gmap strings.
From S2P Require Import Prelude Proc Types Events Codec Commands TtlLease.

Module Fsm.

(** ** Files *)

Record Disk := mkDisk {
  state_data : option bytes;
  wal_log : option bytes;
  metadata_bin : option bytes;
  ttl_state : option bytes;
}.

#[global] Instance Disk_settable : Settable Disk := λ d,
  mkDisk (state_data d) (wal_log d) (metadata_bin d) (ttl_state d).

(** [wal_clock i] and [lease_clock i] are read for the [i]-th entry of a chunk (or of a
    replay); [wall_now] is the other use of [SystemTime::now()], [mono_now] is
    [Instant::now()]. *)
Record SmEnv := mkSmEnv {
  wal_clock : nat → N;
  lease_clock : nat → N;
  wall_now : N;
  mono_now : N;
  wal_io : io_outcome;
  data_io : io_outcome;
  meta_io : io_outcome;
  clear_io : io_outcome;
  ttl_io : io_outcome;
}.

(** ** State *)

Abbreviation kv := (gmap bytes (bytes * N)).

Record FileStateMachine := mkFileStateMachine {
  data : kv;
  lease : option TtlLease;
  sm_last_applied : LogId;
  last_snapshot_metadata : option SnapshotMetadata;
  running : bool;
  wal_entries_since_checkpoint : N;
  last_checkpoint : N;
  disk : Disk;
}.

#[global] Instance FileStateMachine_settable : Settable FileStateMachine := λ m,
  mkFileStateMachine (data m) (lease m) (sm_last_applied m) (last_snapshot_metadata m)
    (running m) (wal_entries_since_checkpoint m) (last_checkpoint m) (disk m).

(** ** The write-ahead log *)

Inductive WalOpCode := WNoop | WInsert | WDelete | WConfig | WCompareAndSwap | WCasFailed.

Definition op_code_u8 (c : WalOpCode) : N :=
  match c with
  | WNoop => 0 | WInsert => 1 | WDelete => 2 | WConfig => 3 | WCompareAndSwap => 4 | WCasFailed => 5
  end.

Definition op_code_from_u8 (b : N) : option WalOpCode :=
  match b with
  | 0 => Some WNoop | 1 => Some WInsert | 2 => Some WDelete | 3 => Some WConfig
  | 4 => Some WCompareAndSwap | 5 => Some WCasFailed | _ => None
  end.

(** One record after its index and term: operation code, key, value, expiration. *)
Definition wal_body (c : WalOpCode) (key value : bytes) (expire_at_secs : N) : bytes :=
  [op_code_u8 c] ++ sized key ++ sized value ++ be64 expire_at_secs.

Definition wal_header (e : ApplyEntry) : bytes := be64 (ae_index e) ++ be64 (ae_term e).

Definition encode_batch_op (o : Cmd.BatchOp) : bytes :=
  match o with
  | Cmd.BInsert key value => wal_body WInsert key value 0
  | Cmd.BDelete key => wal_body WDelete key [] 0
  end.

(** The records of a batch: the first one follows the header of the entry, each later
    one has a header of its own. *)
Fixpoint encode_batch (e : ApplyEntry) (first : bool) (ops : list Cmd.BatchOp) : bytes :=
  match ops with
  | [] => []
  | o :: ops' => (if first then [] else wal_header e) ++ encode_batch_op o ++ encode_batch e false ops'
  end.

(** [expire_at] of an insert, in seconds; the addition of the time to live may panic. *)
Definition expire_at_secs (now : N) (ttl : option N) : option N :=
  match ttl with
  | None => Some 0
  | Some secs => let! t := system_time_add now secs in Some (t / nanos)
  end.

Definition encode_wal_entry (now : N) (e : ApplyEntry) (cas_success : bool) : option bytes :=
  match ae_command e with
  | Cmd.Noop => Some (wal_header e ++ wal_body WNoop [] [] 0)
  | Cmd.Insert key value ttl =>
      let! secs := expire_at_secs now ttl in Some (wal_header e ++ wal_body WInsert key value secs)
  | Cmd.Delete key => Some (wal_header e ++ wal_body WDelete key [] 0)
  | Cmd.CompareAndSwap key _ value =>
      Some (wal_header e ++ if cas_success then wal_body WInsert key value 0
                            else wal_body WCasFailed [] [] 0)
  | Cmd.Batch ops => Some (wal_header e ++ encode_batch e true ops)
  end.

(** An operation read back from the log. *)
Record WalOp := mkWalOp {
  w_code : WalOpCode;
  w_key : bytes;
  w_value : option bytes;
  w_term : N;
  w_expire : option N;
}.

Definition p_op_code : parser WalOpCode := λ pos rest,
  match rest with
  | [] => Stop
  | b :: rest' => match op_code_from_u8 b with
                  | Some c => Parsed c (pos + 1) rest'
                  | None => Corrupt
                  end
  end.

(** A value of length zero is read as no value. *)
Definition p_value : parser (option bytes) :=
  n ← p_u64; if n =? 0 then mret None else Some <$> p_take n.

Definition p_wal_record : parser (N * WalOp) :=
  index ← p_u64;
  term ← p_u64;
  code ← p_op_code;
  key ← p_sized;
  value ← p_value;
  secs ← p_u64;
  mret (index, mkWalOp code key value term (if 0 <? secs then Some secs else None)).

(** The loop of [replay_wal]: it runs while more than 17 bytes are left, ends at an
    incomplete record, skips what the checkpoint already contains, and fails on an
    unknown operation code. Each record is at least 41 bytes long, so the length of the
    buffer bounds the number of rounds. [None] is a panic. *)
Fixpoint parse_wal (fuel : nat) (last_applied : N) (pos : N) (rest : bytes)
    : option (result (list WalOp)) :=
  match fuel with
  | O => Some (Ok [])
  | S fuel' =>
      if (length rest <=? 17)%nat then Some (Ok [])
      else match p_wal_record pos rest with
           | Overflow => None
           | Corrupt => Some (Err DataCorruption)
           | Stop => Some (Ok [])
           | Parsed (index, op) pos' rest' =>
               let! r := parse_wal fuel' last_applied pos' rest' in
               if index <=? last_applied then Some r
               else Some (let? ops := r in Ok (op :: ops))
           end
  end.

(** ** Checkpoint files *)

Definition encode_pair (p : bytes * (bytes * N)) : bytes :=
  sized p.1 ++ sized p.2.1 ++ be64 p.2.2.

Definition encode_data (l : list (bytes * (bytes * N))) : bytes := l ≫= encode_pair.

Definition p_pair : parser (bytes * (bytes * N)) :=
  key ← p_sized; value ← p_sized; term ← p_u64; mret (key, (value, term)).

(** What the loop that reads pairs leaves: the pairs, and the position and the bytes at
    which it stopped. On [break] the position is after the fields already read. *)
Record data_parse := mkDataParse { dp_pairs : list (bytes * (bytes * N)); dp_rest : bytes }.

(** The bytes left when reading a pair stops in the middle. *)
Definition pair_stop_rest (pos : N) (rest : bytes) : option bytes :=
  match p_u64 pos rest with
  | Parsed key_len pos1 rest1 =>
      match p_take key_len pos1 rest1 with
      | Parsed _ pos2 rest2 =>
          match p_u64 pos2 rest2 with
          | Parsed value_len pos3 rest3 =>
              match p_take value_len pos3 rest3 with
              | Parsed _ _ rest4 => Some rest4
              | Overflow => None
              | _ => Some rest3
              end
          | _ => Some rest2
          end
      | Overflow => None
      | _ => Some rest1
      end
  | _ => Some rest
  end.

Fixpoint parse_data (fuel : nat) (pos : N) (rest : bytes) : option data_parse :=
  match fuel with
  | O => Some (mkDataParse [] rest)
  | S fuel' =>
      match rest with
      | [] => Some (mkDataParse [] [])
      | _ =>
          match p_pair pos rest with
          | Parsed p pos' rest' =>
              let! d := parse_data fuel' pos' rest' in
              Some (mkDataParse (p :: dp_pairs d) (dp_rest d))
          | Overflow => None
          | _ => let! r := pair_stop_rest pos rest in Some (mkDataParse [] r)
          end
      end
  end.

(** [data.insert] for each pair read, later ones overwriting. *)
Definition insert_pairs (m : kv) (l : list (bytes * (bytes * N))) : kv :=
  foldl (λ m p, <[p.1 := p.2]> m) m l.

(** ** Operations *)

Section operations.
Context `{!LeaseCodec} `{!MapIter bytes N} `{!MapIter bytes (bytes * N)} (env : SmEnv).
Abbreviation sm := (proc FileStateMachine).

Definition set_data (f : kv → kv) : sm unit := modify (λ m, m <| data ::= f |>).

(** A write to one of the files: its new contents, and the error [?] returns. *)
Definition on_file (get_file : Disk → option bytes) (set_file : option bytes → Disk → Disk)
    (write : option bytes → option bytes * result unit) : sm unit := λ m,
  let '(f, r) := write (get_file (disk m)) in Some (m <| disk ::= set_file f |>, r).

Definition persist_data : sm unit :=
  m ← get;
  on_file state_data (λ f d, d <| state_data := f |>)
    (write_file (data_io env) (encode_data (map_iter (data m)))).

Definition persist_metadata : sm unit :=
  m ← get;
  on_file metadata_bin (λ f d, d <| metadata_bin := f |>)
    (write_file (meta_io env) (be64 (lid_index (sm_last_applied m)) ++ be64 (lid_term (sm_last_applied m)))).

Definition clear_wal : sm unit :=
  on_file wal_log (λ f d, d <| wal_log := f |>) (write_file (clear_io env) []).

Definition checkpoint : sm unit :=
  persist_data;; persist_metadata;; clear_wal;;
  modify (λ m, m <| wal_entries_since_checkpoint := 0 |> <| last_checkpoint := mono_now env |>).

(** [should_checkpoint]: 1000 entries, or 10 seconds ([Instant]s in nanoseconds). *)
Definition should_checkpoint (m : FileStateMachine) : bool :=
  (1000 <=? wal_entries_since_checkpoint m)
  || (10 <=? (mono_now env - last_checkpoint m) / nanos).

Definition update_last_applied (id : LogId) : sm unit := modify (λ m, m <| sm_last_applied := id |>).

(** *** Applying a chunk *)

(** The assertion that the indexes of a chunk increase. *)
Fixpoint check_order (prev : option N) (chunk : list ApplyEntry) : bool :=
  match chunk with
  | [] => true
  | e :: chunk' =>
      match prev with Some p => p <? ae_index e | None => true end && check_order (Some (ae_index e)) chunk'
  end.

Definition cas_keys (chunk : list ApplyEntry) : list bytes :=
  omap (λ e, match ae_command e with Cmd.CompareAndSwap key _ _ => Some key | _ => None end) chunk.

(** What earlier entries of the chunk did to a key: [Some None] is a deletion. *)
Abbreviation delta := (gmap bytes (option (bytes * N))).

Definition cas_succeeds (current : option (bytes * N)) (expected : option bytes) : bool :=
  match current, expected with
  | Some (c, _), Some e => bool_decide (c = e)
  | None, None => true
  | _, _ => false
  end.

Definition eval_batch_op (term : N) (d : delta) (o : Cmd.BatchOp) : delta :=
  match o with
  | Cmd.BInsert key value => <[key := Some (value, term)]> d
  | Cmd.BDelete key => <[key := None]> d
  end.

(** The outcome of one entry on the keys the chunk's compare-and-swaps look at. *)
Definition eval_entry (base : kv) (d : delta) (e : ApplyEntry) : delta * bool :=
  match ae_command e with
  | Cmd.Insert key value _ => (<[key := Some (value, ae_term e)]> d, false)
  | Cmd.Delete key => (<[key := None]> d, false)
  | Cmd.CompareAndSwap key expected value =>
      let current := match d !! key with Some v => v | None => base !! key end in
      if cas_succeeds current expected then (<[key := Some (value, ae_term e)]> d, true)
      else (d, false)
  | Cmd.Batch ops => (foldl (eval_batch_op (ae_term e)) d ops, false)
  | Cmd.Noop => (d, false)
  end.

(** Evaluation and encoding in one pass over the chunk. *)
Fixpoint eval_chunk (base : kv) (i : nat) (d : delta) (chunk : list ApplyEntry)
    : option (list bool * bytes) :=
  match chunk with
  | [] => Some ([], [])
  | e :: chunk' =>
      let '(d', success) := eval_entry base d e in
      let! buf := encode_wal_entry (wal_clock env i) e success in
      let! r := eval_chunk base (S i) d' chunk' in
      Some (success :: r.1, buf ++ r.2)
  end.

Definition on_lease (f : TtlLease → option TtlLease) : sm unit := λ m,
  match lease m with
  | None => Some (m, Ok tt)
  | Some l => let! l' := f l in Some (m <| lease := Some l' |>, Ok tt)
  end.

Definition unregister_key (key : bytes) : sm unit := on_lease (λ l, Some (TtlLease.unregister key l)).

Definition apply_batch_op (term : N) (o : Cmd.BatchOp) : sm unit :=
  match o with
  | Cmd.BInsert key value => set_data <[key := (value, term)]>
  | Cmd.BDelete key => set_data (delete key);; unregister_key key
  end.

(** The in-memory update of one entry with the outcome computed before. *)
Definition apply_entry (i : nat) (e : ApplyEntry) (cas_success : bool) : sm ApplyResult :=
  let idx := ae_index e in
  match ae_command e with
  | Cmd.Noop => mret (mkApplyResult idx true)
  | Cmd.Insert key value ttl =>
      set_data <[key := (value, ae_term e)]>;;
      match ttl with
      | None => mret (mkApplyResult idx true)
      | Some secs =>
          m ← get;
          match lease m with
          | None => panic
          | Some _ => on_lease (TtlLease.register (lease_clock env i) key secs);;
                      mret (mkApplyResult idx true)
          end
      end
  | Cmd.Delete key =>
      set_data (delete key);; unregister_key key;; mret (mkApplyResult idx true)
  | Cmd.CompareAndSwap key _ value =>
      (if cas_success then set_data <[key := (value, ae_term e)]> else mret tt);;
      mret (mkApplyResult idx cas_success)
  | Cmd.Batch ops => for_each (apply_batch_op (ae_term e)) ops;; mret (mkApplyResult idx true)
  end.

Fixpoint apply_entries (i : nat) (chunk : list (ApplyEntry * bool)) : sm (list ApplyResult) :=
  match chunk with
  | [] => mret []
  | (e, b) :: chunk' => r ← apply_entry i e b; rs ← apply_entries (S i) chunk'; mret (r :: rs)
  end.

Definition append_wal (buf : bytes) : sm unit :=
  match buf with
  | [] => mret tt
  | _ => on_file wal_log (λ f d, d <| wal_log := f |>) (append_file (wal_io env) buf)
  end.

Definition apply_chunk (chunk : list ApplyEntry) : sm (list ApplyResult) :=
  if negb (check_order None chunk) then panic
  else
    m ← get;
    let base := filter (λ p, p.1 ∈ cas_keys chunk) (data m) in
    match eval_chunk base 0 ∅ chunk with
    | None => panic
    | Some (outcomes, buf) =>
        append_wal buf;;
        results ← apply_entries 0 (zip chunk outcomes);
        (match last chunk with
         | Some e => update_last_applied (mkLogId (ae_term e) (ae_index e))
         | None => mret tt
         end);;
        modify (λ m, m <| wal_entries_since_checkpoint ::= λ c, wrapping_add_u64 c (N.of_nat (length chunk)) |>);;
        m ← get;
        (if should_checkpoint m then checkpoint else mret tt);;
        mret results
    end.

(** *** Recovery *)

Definition load_metadata : sm unit := modify (λ m,
  match metadata_bin (disk m) with
  | Some b => if (16 <=? length b)%nat
              then m <| sm_last_applied := mkLogId (be_decode (take 8 (drop 8 b))) (be_decode (take 8 b)) |>
              else m
  | None => m
  end).

Definition load_data : sm unit := λ m,
  match state_data (disk m) with
  | None => Some (m, Ok tt)
  | Some b => let! d := parse_data (length b) 0 b in
              Some (m <| data ::= λ kvs, insert_pairs kvs (dp_pairs d) |>, Ok tt)
  end.

(** One operation of the log; [now] is read once for the whole replay. *)
Definition replay_op (i : nat) (o : WalOp) : sm unit :=
  match w_code o with
  | WInsert =>
      match w_value o with
      | None => mret tt
      | Some value =>
          match w_expire o with
          | None => set_data <[w_key o := (value, w_term o)]>
          | Some secs =>
              match system_time_add 0 secs with
              | None => panic
              | Some expire_at =>
                  if expire_at <=? wall_now env then mret tt
                  else
                    set_data <[w_key o := (value, w_term o)]>;;
                    let remaining := (expire_at - wall_now env) / nanos in
                    if 0 <? remaining
                    then on_lease (TtlLease.register (lease_clock env i) (w_key o) remaining)
                    else mret tt
              end
          end
      end
  | WDelete => set_data (delete (w_key o));; unregister_key (w_key o)
  | WCompareAndSwap =>
      match w_value o with
      | None => mret tt
      | Some value => set_data <[w_key o := (value, w_term o)]>
      end
  | WNoop | WConfig | WCasFailed => mret tt
  end.

Fixpoint replay_ops (i : nat) (ops : list WalOp) : sm unit :=
  match ops with
  | [] => mret tt
  | o :: ops' => replay_op i o;; replay_ops (S i) ops'
  end.

Definition replay_wal : sm unit :=
  m ← get;
  match wal_log (disk m) with
  | None | Some [] => mret tt
  | Some b =>
      match parse_wal (length b) (lid_index (sm_last_applied m)) 0 b with
      | None => panic
      | Some (Err e) => fail e
      | Some (Ok ops) => replay_ops 0 ops;; clear_wal
      end
  end.

Definition load_from_disk : sm unit := load_metadata;; load_data;; replay_wal.

(** [FileStateMachine::new] on the files of a directory. *)
Definition fsm_new (d : Disk) : option (FileStateMachine * result unit) :=
  load_from_disk (mkFileStateMachine ∅ None (mkLogId 0 0) None true 0 (mono_now env) d).

Definition set_lease (l : TtlLease) (m : FileStateMachine) : FileStateMachine := m <| lease := Some l |>.

Definition load_lease_data : sm unit := λ m,
  match lease m, ttl_state (disk m) with
  | Some l, Some b => let '(l', r) := TtlLease.reload (wall_now env) b l in
                      Some (m <| lease := Some l' |>, r)
  | _, _ => Some (m, Ok tt)
  end.

Definition start : sm unit := modify (λ m, m <| running := true |>);; load_lease_data.

Definition stop : sm unit :=
  modify (λ m, m <| running := false |>);;
  m ← get;
  match lease m with
  | None => mret tt
  | Some l => on_file ttl_state (λ f d, d <| ttl_state := f |>)
                (write_file (ttl_io env) (TtlLease.to_snapshot l))
  end.

(** *** Reads *)

Definition sm_get (key : bytes) (m : FileStateMachine) : option bytes := fst <$> data m !! key.

Definition sm_get_multi (keys : list bytes) (m : FileStateMachine) : list (option bytes) :=
  (λ k, fst <$> data m !! k) <$> keys.

Definition sm_scan_prefix (prefix : bytes) (m : FileStateMachine) : list (bytes * bytes) * N :=
  ((λ p, (p.1, p.2.1)) <$> filter (λ p, take (length prefix) p.1 = prefix) (map_iter (data m)),
   lid_index (sm_last_applied m)).

(** *** Expiration, reset and shutdown *)

Definition lease_background_cleanup : sm (list bytes) :=
  m ← get;
  match lease m with
  | None => mret []
  | Some l =>
      if negb (has_keys l) then mret []
      else if negb (TtlLease.may_have_expired_keys (wall_now env) l) then mret []
      else
        let '(keys, l') := TtlLease.get_expired_keys (wall_now env) l in
        modify (λ m, m <| lease := Some l' |>);;
        match keys with
        | [] => mret []
        | _ => set_data (λ kvs, foldr delete kvs keys);; persist_data;; mret keys
        end
  end.

Definition clear_data_file : sm unit :=
  on_file state_data (λ f d, d <| state_data := f |>) (write_file (data_io env) []).

Definition clear_metadata_file : sm unit :=
  on_file metadata_bin (λ f d, d <| metadata_bin := f |>) (write_file (meta_io env) (be64 0 ++ be64 0)).

Definition sm_reset : sm unit :=
  modify (λ m, m <| data := ∅ |> <| sm_last_applied := mkLogId 0 0 |> <| last_snapshot_metadata := None |>);;
  clear_data_file;; clear_metadata_file;; clear_wal.

(** [flush], which [Drop] runs through [save_hard_state]: no log is cleared. *)
Definition sm_flush : sm unit := persist_data;; persist_metadata.

Definition save_state : sm unit := persist_metadata;; sm_flush.

(** *** Snapshots *)

(** A snapshot directory: [snapshot.bin] and the contents of the files that sort before
    and after it. *)
Record SnapshotDir := mkSnapshotDir {
  files_before : bytes;
  snapshot_bin : option bytes;
  files_after : bytes;
}.

Context (sha256 : bytes → bytes).

(** [compute_checksum_from_folder_path]. *)
Definition folder_checksum (d : SnapshotDir) : bytes :=
  sha256 (files_before d ++ default [] (snapshot_bin d) ++ files_after d).

Definition snapshot_bytes (m : FileStateMachine) : bytes :=
  let lease_snapshot := match lease m with Some l => TtlLease.to_snapshot l | None => [] end in
  encode_data (map_iter (data m)) ++ sized lease_snapshot.

(** The directory is new, so it holds nothing else. *)
Definition generate_snapshot_data (io : io_outcome) (m : FileStateMachine)
    : SnapshotDir * result bytes :=
  let '(f, r) := write_file io (snapshot_bytes m) None in
  let d := mkSnapshotDir [] f [] in
  (d, let? _ := r in Ok (folder_checksum d)).

(** The lease part of a snapshot, from where the loop over the pairs stopped. *)
Definition load_lease_part (rest : bytes) : sm unit :=
  match p_u64 0 rest with
  | Parsed ttl_len _ rest' =>
      if ttl_len <=? N.of_nat (length rest')
      then λ m, match lease m with
                | None => Some (m, Ok tt)
                | Some l => let '(l', r) := TtlLease.reload (wall_now env) (take (N.to_nat ttl_len) rest') l in
                            Some (m <| lease := Some l' |>, r)
                end
      else mret tt
  | _ => mret tt
  end.

Definition install_data (metadata : SnapshotMetadata) (incoming : LogId) (kvs : kv) : sm unit :=
  modify (λ m, m <| data := kvs |> <| last_snapshot_metadata := Some metadata |>
                 <| sm_last_applied := incoming |>);;
  persist_data;; clear_wal;; persist_metadata.

Definition apply_snapshot_from_file (metadata : SnapshotMetadata) (dir : SnapshotDir)
    : sm SnapshotApplyResult :=
  match last_included metadata with
  | None => fail (SnapshotFailed "Missing last_included in snapshot metadata")
  | Some incoming =>
      m ← get;
      let current := sm_last_applied m in
      if lid_index incoming <? lid_index current then mret (IgnoredStale current)
      else if lid_index incoming =? lid_index current then
        if lid_term incoming =? lid_term current then mret (IgnoredDuplicate current)
        else fail BoundaryConflict
      else if negb (bool_decide (checksum metadata = folder_checksum dir)) then fail ChecksumMismatch
      else
        match snapshot_bin dir with
        | None => fail IoError
        | Some b =>
            match parse_data (length b) 0 b with
            | None => panic
            | Some d =>
                load_lease_part (dp_rest d);;
                install_data metadata incoming (insert_pairs ∅ (dp_pairs d));;
                mret (Applied incoming)
            end
        end
  end.
End operations.
End Fsm.
