(* ===== verification/FsmSpec.v ===== *)
(** * Files of the file-based state machine, read back

    What [FileStateMachine.v] writes to [state.data] and [wal.log] and what its loaders
    read from them: a checkpoint gives back the pairs it was written from, the
    write-ahead log gives back its records, and a log cut anywhere gives back the
    records before the cut. *)

From stdpp Require Import base tactics numbers option list gmap strings.
From S2P Require Import Prelude Proc Types Events Codec Commands TtlLease FileStateMachine.

Import Fsm.

(** ** The log as a list of records *)

(** A record of the log: the index of its entry and the operation. *)
Abbreviation wal_rec := (N * WalOp)%type.

Definition encode_rec (r : wal_rec) : bytes :=
  be64 r.1 ++ be64 (w_term r.2)
  ++ wal_body (w_code r.2) (w_key r.2) (default [] (w_value r.2)) (default 0 (w_expire r.2)).

Definition encode_recs (rs : list wal_rec) : bytes := rs ≫= encode_rec.

Lemma encode_recs_cons r rs : encode_recs (r :: rs) = encode_rec r ++ encode_recs rs.
Proof. done. Qed.

Lemma encode_recs_app rs1 rs2 : encode_recs (rs1 ++ rs2) = encode_recs rs1 ++ encode_recs rs2.
Proof. apply bind_app. Qed.

(** Records whose fields can be told apart when read: numbers in range, no value of
    length zero, no expiration at second zero. *)
Record rec_ok (r : wal_rec) : Prop := {
  rok_index : r.1 <= u64_max;
  rok_term : w_term r.2 <= u64_max;
  rok_value : w_value r.2 ≠ Some [];
  rok_expire : ∀ t, w_expire r.2 = Some t → 0 < t <= u64_max;
}.

(** The operations a checkpoint at index [la] does not contain. *)
Definition newer (la : N) (rs : list wal_rec) : list WalOp := (filter (λ r, la < r.1) rs).*2.

Lemma newer_app la rs1 rs2 : newer la (rs1 ++ rs2) = newer la rs1 ++ newer la rs2.
Proof. unfold newer. by rewrite filter_app, fmap_app. Qed.

Lemma newer_all la rs : Forall (λ r : wal_rec, la < r.1) rs → newer la rs = rs.*2.
Proof.
  unfold newer. induction 1 as [|r rs Hr _ IH]; [done|].
  rewrite filter_cons_True by done. csimpl. by rewrite IH.
Qed.

Lemma newer_none la rs : Forall (λ r : wal_rec, r.1 <= la) rs → newer la rs = [].
Proof.
  unfold newer. induction 1 as [|r rs Hr _ IH]; [done|].
  rewrite filter_cons_False by lia. done.
Qed.

(** ** Reading the fields of a record *)

Lemma op_code_round_trip c : op_code_from_u8 (op_code_u8 c) = Some c.
Proof. by destruct c. Qed.

Lemma reads_op_code c : reads p_op_code [op_code_u8 c] c.
Proof.
  split.
  - intros pos rest _. simpl. by rewrite op_code_round_trip.
  - intros pos [|x t] Ht; [done|]. apply strict_prefix_length in Ht. simpl in Ht. lia.
Qed.

Lemma reads_value v : v ≠ Some [] → N.of_nat (length (default [] v)) <= u64_max →
  reads p_value (sized (default [] v)) v.
Proof.
  intros Hv Hlen. eapply reads_bind; [by apply reads_u64|]. destruct v as [[|x b]|]; simpl in *.
  - done.
  - apply reads_fmap. by apply reads_take.
  - apply reads_ret.
Qed.

Lemma reads_wal_record r :
  rec_ok r → N.of_nat (length (encode_rec r)) <= u64_max → reads p_wal_record (encode_rec r) r.
Proof.
  intros Hr Hlen. destruct r as [index [code key value term expire]], Hr; simpl in *.
  unfold encode_rec, wal_body in *. cbn [w_code w_key w_value w_term w_expire fst snd] in *.
  assert (N.of_nat (length key + length (default [] value)) <= u64_max).
  { unfold sized in Hlen. repeat (rewrite length_app in Hlen || simpl in Hlen). lia. }
  unfold p_wal_record.
  eapply reads_bind; [by apply reads_u64|].
  eapply reads_bind; [by apply reads_u64|].
  eapply reads_bind; [apply reads_op_code|].
  eapply reads_bind; [apply reads_sized; lia|].
  eapply reads_bind; [apply reads_value; [done|lia]|].
  assert (mkWalOp code key value term expire
          = mkWalOp code key value term (if 0 <? default 0 expire then Some (default 0 expire) else None)) as ->.
  { f_equal. destruct expire as [t|]; simpl; [|done]. destruct (rok_expire0 t eq_refl). by case_bool; [|lia]. }
  eapply (reads_bind_ret p_u64 (λ secs, (index, mkWalOp code key value term (if 0 <? secs then Some secs else None)))).
  apply reads_u64. destruct expire as [t|]; simpl; [by apply rok_expire0|done].
Qed.

Lemma length_encode_rec r : (41 <= length (encode_rec r))%nat.
Proof.
  unfold encode_rec, wal_body, sized. rewrite !length_app, !length_be64. simpl. lia.
Qed.

(** ** Reading the log *)

Lemma parse_wal_torn fuel la pos r t :
  rec_ok r → strict_prefix t (encode_rec r) → pos + N.of_nat (length (encode_rec r)) <= u64_max →
  parse_wal fuel la pos t = Some (Ok []).
Proof.
  intros Hr Ht Hlen. destruct fuel as [|fuel]; simpl; [done|].
  destruct (length t <=? 17)%nat; [done|].
  by rewrite (reads_part _ _ _ (reads_wal_record r Hr ltac:(lia))) by done.
Qed.

Lemma parse_wal_records fuel la pos rs tail ops :
  Forall rec_ok rs →
  pos + N.of_nat (length (encode_recs rs ++ tail)) <= u64_max →
  (length (encode_recs rs ++ tail) <= fuel)%nat →
  (∀ fuel', (length tail <= fuel')%nat →
    parse_wal fuel' la (pos + N.of_nat (length (encode_recs rs))) tail = Some (Ok ops)) →
  parse_wal fuel la pos (encode_recs rs ++ tail) = Some (Ok (newer la rs ++ ops)).
Proof.
  intros Hrs. revert fuel pos. induction Hrs as [|r rs Hr Hrs IH]; intros fuel pos Hlen Hfuel Htail.
  { simpl in *. rewrite N.add_0_r in Htail. by apply Htail. }
  rewrite encode_recs_cons in Htail. rewrite encode_recs_cons, <-app_assoc in Hlen, Hfuel |- *.
  rewrite (length_app (encode_rec r)) in Hlen, Hfuel.
  pose proof (length_encode_rec r) as Hmin. destruct fuel as [|fuel]; [lia|]. cbn [parse_wal].
  destruct (Nat.leb_spec (length (encode_rec r ++ encode_recs rs ++ tail)) 17) as [Hle|_].
  { rewrite length_app in Hle. lia. }
  rewrite (reads_all _ _ _ (reads_wal_record r Hr ltac:(lia))) by lia.
  destruct r as [index op]. cbn [fst snd] in *.
  rewrite (IH fuel) by (done || lia || (intros f Hf; rewrite <-N.add_assoc, <-Nat2N.inj_add, <-length_app; by apply Htail)).
  unfold newer. simpl. case_bool.
  - by rewrite filter_cons_False by (simpl; lia).
  - by rewrite filter_cons_True by (simpl; lia).
Qed.

(** A log that was written completely. *)
Lemma parse_wal_complete la rs :
  Forall rec_ok rs → N.of_nat (length (encode_recs rs)) <= u64_max →
  parse_wal (length (encode_recs rs)) la 0 (encode_recs rs) = Some (Ok (newer la rs)).
Proof.
  intros Hrs Hlen. rewrite <-(app_nil_r (encode_recs rs)), <-(app_nil_r (newer la rs)).
  apply parse_wal_records; rewrite ?app_nil_r; [done|lia|done|]. intros [|fuel] _; done.
Qed.

(** A cut leaves some complete records and a part of the next one. *)
Lemma take_encode_recs n rs :
  take n (encode_recs rs) = encode_recs rs
  ∨ ∃ rs1 r rs2 t, rs = rs1 ++ r :: rs2 ∧ strict_prefix t (encode_rec r)
      ∧ take n (encode_recs rs) = encode_recs rs1 ++ t.
Proof.
  revert n. induction rs as [|r rs IH]; intros n; [left; by destruct n|].
  rewrite encode_recs_cons. destruct (decide (n < length (encode_rec r))%nat) as [Hlt|Hge].
  - right. exists [], r, rs, (take n (encode_rec r)). split; [done|]. split.
    + pose proof (take_drop n (encode_rec r)) as E. destruct (drop n (encode_rec r)) as [|x u] eqn:Ed.
      * apply (f_equal length) in Ed. rewrite length_drop in Ed. cbn [length] in Ed. lia.
      * exists x, u. by rewrite E.
    + rewrite take_app_le by lia. done.
  - rewrite take_app_ge by lia. destruct (IH (n - length (encode_rec r))%nat) as [->|(rs1 & r' & rs2 & t & -> & Ht & ->)].
    + by left.
    + right. exists (r :: rs1), r', rs2, t. split; [done|]. split; [done|]. by rewrite encode_recs_cons, app_assoc.
Qed.

(** A log cut anywhere gives back the operations of the complete records. *)
Lemma parse_wal_cut la rs0 rs n :
  Forall rec_ok (rs0 ++ rs) → N.of_nat (length (encode_recs (rs0 ++ rs))) <= u64_max →
  ∃ rs1, rs1 `prefix_of` rs ∧
    parse_wal (length (encode_recs rs0 ++ take n (encode_recs rs))) la 0
      (encode_recs rs0 ++ take n (encode_recs rs)) = Some (Ok (newer la (rs0 ++ rs1))).
Proof.
  intros Hok Hlen. destruct (take_encode_recs n rs) as [->|(rs1 & r & rs2 & t & -> & Ht & ->)].
  { exists rs. split; [done|]. rewrite <-encode_recs_app. by apply parse_wal_complete. }
  exists rs1. split; [by eexists|]. pose proof (strict_prefix_length _ _ Ht) as Htl.
  rewrite app_assoc, <-encode_recs_app, <-(app_nil_r (newer _ _)).
  rewrite app_assoc in Hok, Hlen. rewrite encode_recs_app, encode_recs_cons, !length_app in Hlen.
  apply Forall_app in Hok as [Hok1 [Hr _]%Forall_cons].
  apply parse_wal_records; [done|rewrite length_app; lia|done|].
  intros fuel _. apply (parse_wal_torn _ _ _ r); [done..|]. lia.
Qed.

(** ** Checkpoints *)

Definition pair_ok (p : bytes * (bytes * N)) : Prop := p.2.2 <= u64_max.

Lemma reads_pair p :
  pair_ok p → N.of_nat (length (encode_pair p)) <= u64_max → reads p_pair (encode_pair p) p.
Proof.
  destruct p as [key [value term]]. unfold pair_ok, encode_pair, p_pair. cbn [fst snd]. intros Ht Hlen.
  assert (N.of_nat (length key + length value) <= u64_max).
  { unfold sized in Hlen. rewrite !length_app in Hlen. lia. }
  eapply reads_bind; [apply reads_sized; lia|].
  eapply reads_bind; [apply reads_sized; lia|].
  by eapply (reads_bind_ret p_u64 (λ term, (key, (value, term)))), reads_u64.
Qed.

Lemma length_encode_pair p : (24 <= length (encode_pair p))%nat.
Proof. unfold encode_pair, sized. rewrite !length_app, !length_be64. lia. Qed.

Lemma encode_data_cons p l : encode_data (p :: l) = encode_pair p ++ encode_data l.
Proof. done. Qed.

(** The loop reads the pairs and goes on with what follows them. *)
Lemma parse_data_pairs fuel pos l rest :
  Forall pair_ok l →
  pos + N.of_nat (length (encode_data l ++ rest)) <= u64_max →
  (length (encode_data l ++ rest) <= fuel)%nat →
  ∃ fuel', (length rest <= fuel')%nat ∧
    parse_data fuel pos (encode_data l ++ rest)
    = let! d := parse_data fuel' (pos + N.of_nat (length (encode_data l))) rest in
      Some (mkDataParse (l ++ dp_pairs d) (dp_rest d)).
Proof.
  intros Hl. revert fuel pos. induction Hl as [|p l Hp Hl IH]; intros fuel pos Hlen Hfuel.
  { simpl in *. exists fuel. split; [done|]. rewrite N.add_0_r.
    by destruct (parse_data fuel pos rest) as [[]|]. }
  rewrite encode_data_cons, <-app_assoc in Hlen, Hfuel |- *.
  rewrite (length_app (encode_pair p)) in Hlen, Hfuel.
  pose proof (length_encode_pair p) as Hmin. destruct fuel as [|fuel]; [lia|].
  destruct (IH fuel (pos + N.of_nat (length (encode_pair p)))) as (fuel' & Hf' & E); [lia..|].
  exists fuel'. split; [done|]. cbn [parse_data].
  destruct (encode_pair p ++ encode_data l ++ rest) as [|x b] eqn:Eb.
  { apply (f_equal length) in Eb. rewrite length_app in Eb. cbn [length] in Eb. lia. }
  rewrite <-Eb, (reads_all _ _ _ (reads_pair p Hp ltac:(lia))) by lia. rewrite E.
  rewrite length_app, Nat2N.inj_add, N.add_assoc. by destruct (parse_data fuel' _ rest).
Qed.

Lemma parse_data_complete l :
  Forall pair_ok l → N.of_nat (length (encode_data l)) <= u64_max →
  parse_data (length (encode_data l)) 0 (encode_data l) = Some (mkDataParse l []).
Proof.
  intros Hl Hlen. destruct (parse_data_pairs (length (encode_data l)) 0 l []) as (fuel & _ & E);
    rewrite ?app_nil_r in *; [done|lia|done|].
  rewrite E. destruct fuel; simpl; by rewrite app_nil_r.
Qed.

(** Inserting the pairs of a map, in any order, gives the map. *)
Lemma insert_pairs_perm (m : kv) l : l ≡ₚ map_to_list m → insert_pairs ∅ l = m.
Proof.
  intros Hl. assert (NoDup l.*1) as Hnd.
  { rewrite Hl. apply NoDup_fst_map_to_list. }
  assert (∀ l (m0 : kv), NoDup l.*1 → insert_pairs m0 l = list_to_map l ∪ m0) as Hins.
  { clear. induction l as [|[k v] l IH]; intros m0; csimpl; [by rewrite (left_id_L ∅ (∪))|].
    intros [Hk Hnd]%NoDup_cons. unfold insert_pairs in *. simpl. rewrite IH by done.
    rewrite <-insert_union_l, <-insert_union_r; [done|]. by apply not_elem_of_list_to_map_1. }
  rewrite Hins, (right_id_L ∅ (∪)) by done.
  rewrite (list_to_map_proper l (map_to_list m)) by done. apply list_to_map_to_list.
Qed.

(** ** The loops end *)

Lemma consumes_op_code : consumes 1 p_op_code.
Proof.
  intros pos [|b rest] c pos' rest'; simpl; [done|]. destruct (op_code_from_u8 b); [|done].
  intros [= _ _ <-]. lia.
Qed.

Lemma consumes_value : consumes 8 p_value.
Proof.
  unfold p_value. apply (consumes_bind 8 0); [apply consumes_u64|]. intros n.
  destruct (n =? 0); [apply consumes_ret|]. apply (consumes_bind 0 0); [|intros; apply consumes_ret].
  eapply consumes_weaken; [|apply consumes_take]. lia.
Qed.

Lemma consumes_wal_record : consumes 41 p_wal_record.
Proof.
  unfold p_wal_record. repeat first
    [ apply (consumes_bind 8); [apply consumes_u64|intros ?]
    | apply (consumes_bind 1); [apply consumes_op_code|intros ?]
    | apply (consumes_bind 8); [apply consumes_sized|intros ?]
    | apply (consumes_bind 8); [apply consumes_value|intros ?]
    | apply consumes_ret ].
Qed.

Lemma consumes_pair : consumes 24 p_pair.
Proof.
  unfold p_pair. repeat first
    [ apply (consumes_bind 8); [apply consumes_sized|intros ?]
    | apply (consumes_bind 8); [apply consumes_u64|intros ?]
    | apply consumes_ret ].
Qed.

Lemma parse_wal_fuel fuel fuel' la pos rest :
  (length rest <= fuel)%nat → (length rest <= fuel')%nat →
  parse_wal fuel la pos rest = parse_wal fuel' la pos rest.
Proof.
  revert fuel' pos rest. induction fuel as [|fuel IH]; intros fuel' pos rest Hf Hf'.
  { destruct rest; [|simpl in Hf; lia]. by destruct fuel'. }
  destruct fuel' as [|fuel']; [destruct rest; [done|simpl in Hf'; lia]|]. cbn [parse_wal].
  destruct (length rest <=? 17)%nat; [done|].
  destruct (p_wal_record pos rest) as [[index op] pos' rest'| | |] eqn:E; [|done..].
  apply consumes_wal_record in E. rewrite (IH fuel') by lia. done.
Qed.

Lemma parse_data_fuel fuel fuel' pos rest :
  (length rest <= fuel)%nat → (length rest <= fuel')%nat →
  parse_data fuel pos rest = parse_data fuel' pos rest.
Proof.
  revert fuel' pos rest. induction fuel as [|fuel IH]; intros fuel' pos rest Hf Hf'.
  { destruct rest; [|simpl in Hf; lia]. by destruct fuel'. }
  destruct fuel' as [|fuel']; [destruct rest; [done|simpl in Hf'; lia]|]. cbn [parse_data].
  destruct rest as [|x rest]; [done|].
  destruct (p_pair pos (x :: rest)) as [p pos' rest'| | |] eqn:E; [|done..].
  apply consumes_pair in E. rewrite (IH fuel') by lia. done.
Qed.

(** * What the file-based state machine computes

    The reference semantics of a chunk of entries ([serial]: one entry after the
    other on the map) and the lemmas that relate the code to it: the evaluation of
    compare-and-swaps against a snapshot of some keys with a delta of the chunk, the
    in-memory application, and the records of the log. *)

Import Fsm.

(** ** Reference semantics *)

Definition exec_batch_op (term : N) (m : kv) (o : Cmd.BatchOp) : kv :=
  match o with
  | Cmd.BInsert key value => <[key := (value, term)]> m
  | Cmd.BDelete key => delete key m
  end.

(** The new map, and whether the client is told that the command succeeded. *)
Definition exec (m : kv) (e : ApplyEntry) : kv * bool :=
  match ae_command e with
  | Cmd.Noop => (m, true)
  | Cmd.Insert key value _ => (<[key := (value, ae_term e)]> m, true)
  | Cmd.Delete key => (delete key m, true)
  | Cmd.CompareAndSwap key expected value =>
      if cas_succeeds (m !! key) expected then (<[key := (value, ae_term e)]> m, true) else (m, false)
  | Cmd.Batch ops => (foldl (exec_batch_op (ae_term e)) m ops, true)
  end.

Fixpoint serial (m : kv) (chunk : list ApplyEntry) : kv * list ApplyResult :=
  match chunk with
  | [] => (m, [])
  | e :: chunk' =>
      let '(m1, ok) := exec m e in
      let '(m2, rs) := serial m1 chunk' in
      (m2, mkApplyResult (ae_index e) ok :: rs)
  end.

(** The outcome the evaluation pass records: meaningful for a compare-and-swap. *)
Definition cas_outcome (m : kv) (e : ApplyEntry) : bool :=
  match ae_command e with Cmd.CompareAndSwap _ _ _ => (exec m e).2 | _ => false end.

Fixpoint cas_outcomes (m : kv) (chunk : list ApplyEntry) : list bool :=
  match chunk with
  | [] => []
  | e :: chunk' => cas_outcome m e :: cas_outcomes (exec m e).1 chunk'
  end.

(** The leases: an insertion with a time to live registers its key, a deletion
    unregisters it. [None] is a panic: no lease manager, or an expiration out of range. *)
Definition lease_batch_op (l : option TtlLease) (o : Cmd.BatchOp) : option TtlLease :=
  match o with
  | Cmd.BInsert _ _ => l
  | Cmd.BDelete key => TtlLease.unregister key <$> l
  end.

Definition lease_exec (now : N) (e : ApplyEntry) (l : option TtlLease) : option (option TtlLease) :=
  match ae_command e with
  | Cmd.Insert key _ (Some secs) =>
      let! l0 := l in let! l' := TtlLease.register now key secs l0 in Some (Some l')
  | Cmd.Delete key => Some (TtlLease.unregister key <$> l)
  | Cmd.Batch ops => Some (foldl lease_batch_op l ops)
  | _ => Some l
  end.

Fixpoint lease_serial (clock : nat → N) (i : nat) (chunk : list ApplyEntry) (l : option TtlLease)
    : option (option TtlLease) :=
  match chunk with
  | [] => Some l
  | e :: chunk' => let! l' := lease_exec (clock i) e l in lease_serial clock (S i) chunk' l'
  end.

(** ** Evaluating against a snapshot and a delta *)

(** The value of a key as the evaluation sees it. *)
Definition seen (base : kv) (d : gmap bytes (option (bytes * N))) (k : bytes) : option (bytes * N) :=
  match d !! k with Some v => v | None => base !! k end.

(** Snapshot and delta agree with the map on the keys in [ks]. *)
Definition agrees (ks : list bytes) (base : kv) (d : gmap bytes (option (bytes * N))) (m : kv) : Prop :=
  ∀ k, k ∈ ks → seen base d k = m !! k.

Lemma agrees_insert ks base d m k v :
  agrees ks base d m → agrees ks base (<[k := Some v]> d) (<[k := v]> m).
Proof.
  intros H k' Hk'. unfold seen. destruct (decide (k = k')) as [->|].
  - by rewrite !lookup_insert_eq.
  - rewrite !lookup_insert_ne by done. by apply H.
Qed.

Lemma agrees_delete ks base d m k :
  agrees ks base d m → agrees ks base (<[k := None]> d) (delete k m).
Proof.
  intros H k' Hk'. unfold seen. destruct (decide (k = k')) as [->|].
  - by rewrite lookup_insert_eq, lookup_delete_eq.
  - rewrite lookup_insert_ne, lookup_delete_ne by done. by apply H.
Qed.

Lemma agrees_batch ks base d m term ops :
  agrees ks base d m →
  agrees ks base (foldl (eval_batch_op term) d ops) (foldl (exec_batch_op term) m ops).
Proof.
  revert d m. induction ops as [|[] ops IH]; intros d m H; simpl; [done|..]; apply IH.
  - by apply agrees_insert.
  - by apply agrees_delete.
Qed.

Lemma eval_entry_agrees ks base d m e :
  agrees ks base d m → cas_keys [e] ⊆ ks →
  (eval_entry base d e).2 = cas_outcome m e
  ∧ agrees ks base (eval_entry base d e).1 (exec m e).1.
Proof.
  intros H Hks. unfold eval_entry, cas_outcome, exec. unfold cas_keys in Hks. simpl in Hks.
  destruct (ae_command e) as [|key value ttl|key|key expected value|ops]; simpl.
  - done.
  - split; [done|]. by apply agrees_insert.
  - split; [done|]. by apply agrees_delete.
  - assert (seen base d key = m !! key) as Hk by (apply H, Hks; by left).
    unfold seen in Hk. rewrite Hk. destruct (cas_succeeds _ _); simpl; [|done].
    split; [done|]. by apply agrees_insert.
  - split; [done|]. by apply agrees_batch.
Qed.

Lemma cas_keys_cons e chunk : cas_keys (e :: chunk) = cas_keys [e] ++ cas_keys chunk.
Proof. unfold cas_keys. simpl. by destruct (ae_command e). Qed.

(** The bytes of a chunk in the log, with the outcomes of the serial execution. *)
Fixpoint wal_bytes (clock : nat → N) (i : nat) (m : kv) (chunk : list ApplyEntry) : option bytes :=
  match chunk with
  | [] => Some []
  | e :: chunk' =>
      let! buf := encode_wal_entry (clock i) e (cas_outcome m e) in
      let! bufs := wal_bytes clock (S i) (exec m e).1 chunk' in
      Some (buf ++ bufs)
  end.

Lemma eval_chunk_run env ks base i d chunk m :
  agrees ks base d m → cas_keys chunk ⊆ ks →
  eval_chunk env base i d chunk
  = let! buf := wal_bytes (wal_clock env) i m chunk in Some (cas_outcomes m chunk, buf).
Proof.
  revert i d m. induction chunk as [|e chunk IH]; intros i d m H Hks; simpl; [done|].
  rewrite cas_keys_cons in Hks.
  destruct (eval_entry_agrees ks base d m e) as [H2 H1]; [done|set_solver|].
  destruct (eval_entry base d e) as [d' b]. simpl in *. subst b.
  destruct (encode_wal_entry _ _ _); [simpl|done].
  rewrite (IH (S i) d' (exec m e).1) by (done || set_solver).
  by destruct (wal_bytes _ _ _ _).
Qed.

(** The snapshot of the compare-and-swap keys agrees with the map. *)
Lemma agrees_base (chunk : list ApplyEntry) (m : kv) :
  agrees (cas_keys chunk) (filter (λ p, p.1 ∈ cas_keys chunk) m) ∅ m.
Proof.
  intros k Hk. unfold seen. rewrite lookup_empty. apply option_eq. intros v.
  rewrite map_lookup_filter_Some. simpl. tauto.
Qed.

(** ** The in-memory application *)

Section apply.
Context `{!LeaseCodec} `{!MapIter bytes N} `{!MapIter bytes (bytes * N)} (env : SmEnv).

(** The state with another map and other leases. *)
Definition with_kv (kvs : kv) (l : option TtlLease) (m : FileStateMachine) : FileStateMachine :=
  m <| data := kvs |> <| lease := l |>.

Lemma with_kv_same m : with_kv (data m) (lease m) m = m.
Proof. by destruct m. Qed.

Lemma on_lease_total f m :
  on_lease (λ l, Some (f l)) m = Some (with_kv (data m) (f <$> lease m) m, Ok tt).
Proof. unfold on_lease. destruct m as [? [l|] ? ? ? ? ? ?]; done. Qed.

Lemma apply_batch_ops_run term ops m :
  for_each (apply_batch_op term) ops m
  = Some (with_kv (foldl (exec_batch_op term) (data m) ops) (foldl lease_batch_op (lease m) ops) m, Ok tt).
Proof.
  revert m. induction ops as [|[key value|key] ops IH]; intros m; simpl; [by rewrite with_kv_same|..].
  - unfold mbind at 1, proc_bind. simpl. by rewrite IH.
  - unfold mbind at 1, proc_bind. unfold apply_batch_op, mbind, proc_bind, unregister_key.
    simpl. rewrite on_lease_total. by rewrite IH.
Qed.

Lemma apply_entry_run i e m :
  apply_entry env i e (cas_outcome (data m) e) m
  = let! l := lease_exec (lease_clock env i) e (lease m) in
    Some (with_kv (exec (data m) e).1 l m, Ok (mkApplyResult (ae_index e) (exec (data m) e).2)).
Proof.
  unfold apply_entry, lease_exec, cas_outcome, exec.
  destruct (ae_command e) as [|key value [secs|]|key|key expected value|ops]; simpl.
  - by destruct m.
  - unfold mbind, proc_bind. simpl. destruct m as [? [l|] ? ? ? ? ? ?]; simpl; [|done].
    unfold on_lease. simpl. by destruct (TtlLease.register _ _ _ _).
  - by destruct m.
  - unfold mbind, proc_bind, unregister_key. simpl. by rewrite on_lease_total.
  - destruct (cas_succeeds _ _); simpl; by destruct m.
  - unfold mbind, proc_bind. by rewrite apply_batch_ops_run.
Qed.

Lemma apply_entries_run i chunk m :
  apply_entries env i (zip chunk (cas_outcomes (data m) chunk)) m
  = let! l := lease_serial (lease_clock env) i chunk (lease m) in
    Some (with_kv (serial (data m) chunk).1 l m, Ok (serial (data m) chunk).2).
Proof.
  revert i m. induction chunk as [|e chunk IH]; intros i m; simpl; [by rewrite with_kv_same|].
  unfold mbind, proc_bind. rewrite apply_entry_run.
  destruct (lease_exec (lease_clock env i) e (lease m)) as [l|]; simpl; [|done].
  pose proof (IH (S i) (with_kv (exec (data m) e).1 l m)) as E. simpl in E. rewrite E.
  destruct (exec (data m) e) as [m1 ok]; simpl. destruct (lease_serial _ _ _ _); simpl; [|done].
  destruct (serial m1 chunk) as [m2 rs]. done.
Qed.

(** The part of [apply_chunk] after the log is written and the map is updated. *)
Definition chunk_id (chunk : list ApplyEntry) (id : LogId) : LogId :=
  match last chunk with Some e => mkLogId (ae_term e) (ae_index e) | None => id end.

Definition applied (chunk : list ApplyEntry) (l : option TtlLease) (m : FileStateMachine) : FileStateMachine :=
  with_kv (serial (data m) chunk).1 l m
    <| sm_last_applied ::= chunk_id chunk |>
    <| wal_entries_since_checkpoint ::= λ c, wrapping_add_u64 c (N.of_nat (length chunk)) |>.

Lemma apply_chunk_run chunk m :
  apply_chunk env chunk m
  = if check_order None chunk then
      let! buf := wal_bytes (wal_clock env) 0 (data m) chunk in
      match append_wal env buf m with
      | None => None
      | Some (m1, Err e) => Some (m1, Err e)
      | Some (m1, Ok _) =>
          let! l := lease_serial (lease_clock env) 0 chunk (lease m) in
          let m2 := applied chunk l m1 in
          match (if should_checkpoint env m2 then checkpoint env m2 else Some (m2, Ok tt)) with
          | None => None
          | Some (m3, Err e) => Some (m3, Err e)
          | Some (m3, Ok _) => Some (m3, Ok (serial (data m) chunk).2)
          end
      end
    else None.
Proof.
  unfold apply_chunk. destruct (check_order None chunk); simpl; [|done].
  unfold mbind at 1, proc_bind at 1. unfold get at 1.
  rewrite (eval_chunk_run _ _ _ _ _ _ (data m)) by (apply agrees_base || done).
  destruct (wal_bytes _ _ _ _) as [buf|]; simpl; [|done].
  unfold mbind at 1, proc_bind at 1.
  destruct (append_wal env buf m) as [[m1 [[]|e]]|] eqn:Ew; simpl; [|done|done].
  assert (data m1 = data m ∧ lease m1 = lease m) as [Hd Hl].
  { revert Ew. unfold append_wal, on_file. destruct buf; [by intros [= <-]|].
    destruct (append_file _ _ _). by intros [= <- _]. }
  rewrite <-Hd, <-Hl. unfold mbind at 1, proc_bind at 1. rewrite apply_entries_run.
  destruct (lease_serial _ _ _ _) as [l|]; simpl; [|done].
  unfold chunk_id, applied, mbind, proc_bind, modify, get, update_last_applied, mret, proc_ret.
  rewrite Hd. unfold chunk_id. destruct (last chunk) as [e|]; destruct m1;
    unfold with_kv; simpl in *; by destruct (should_checkpoint _ _).
Qed.
End apply.
