(* ===== verification/FsmRecovery.v ===== *)
(** * Durability of the file-based state machine

    The disk of a state machine between two crashes: which map a restart recovers from
    the checkpoint and the log, and that appending to the log, writing a checkpoint
    (data, then metadata, then clearing the log) and stopping between any two of these
    keep it recoverable. *)

From stdpp Require Import base tactics numbers option list gmap strings.
From S2P Require Import Prelude Proc Types Events Codec Commands TtlLease FileStateMachine FsmSpec.

Import Fsm.

(** ** Operations of the log on a map *)

(** The effect on the map of an operation without expiration. *)
Definition run_op (m : kv) (o : WalOp) : kv :=
  match w_code o with
  | WInsert | WCompareAndSwap =>
      match w_value o with Some v => <[w_key o := (v, w_term o)]> m | None => m end
  | WDelete => delete (w_key o) m
  | WNoop | WConfig | WCasFailed => m
  end.

Definition run_ops (m : kv) (ops : list WalOp) : kv := foldl run_op m ops.

(** What an operation leaves at a key: [None] if it does not touch it. *)
Definition writes (k : bytes) (o : WalOp) : option (option (bytes * N)) :=
  if decide (w_key o = k) then
    match w_code o with
    | WInsert | WCompareAndSwap => match w_value o with Some v => Some (Some (v, w_term o)) | None => None end
    | WDelete => Some None
    | WNoop | WConfig | WCasFailed => None
    end
  else None.

Lemma lookup_run_op m o k : run_op m o !! k = default (m !! k) (writes k o).
Proof.
  unfold run_op, writes. destruct (decide (w_key o = k)) as [<-|Hne];
    destruct (w_code o), (w_value o); simpl;
    by rewrite ?lookup_insert_eq, ?lookup_delete_eq, ?lookup_insert_ne, ?lookup_delete_ne by done.
Qed.

(** The last operation that touches a key decides. *)
Lemma lookup_run_ops m ops k :
  run_ops m ops !! k = default (m !! k) (last (omap (writes k) ops)).
Proof.
  induction ops as [|o ops IH] using rev_ind; [done|].
  unfold run_ops in *. rewrite foldl_app, omap_app. simpl. rewrite lookup_run_op, IH.
  destruct (writes k o); simpl; [by rewrite last_snoc|by rewrite app_nil_r].
Qed.

(** Replaying operations a checkpoint already contains changes nothing. *)
Lemma run_ops_idempotent m ops : run_ops (run_ops m ops) ops = run_ops m ops.
Proof. apply map_eq. intros k. rewrite !lookup_run_ops. by destruct (last _). Qed.

Lemma run_ops_app m ops1 ops2 : run_ops m (ops1 ++ ops2) = run_ops (run_ops m ops1) ops2.
Proof. apply foldl_app. Qed.

(** ** Records of a chunk *)

Definition batch_rec (e : ApplyEntry) (o : Cmd.BatchOp) : wal_rec :=
  (ae_index e,
   match o with
   | Cmd.BInsert key value => mkWalOp WInsert key (Some value) (ae_term e) None
   | Cmd.BDelete key => mkWalOp WDelete key None (ae_term e) None
   end).

Definition entry_recs (e : ApplyEntry) (cas_success : bool) : list wal_rec :=
  match ae_command e with
  | Cmd.Noop => [(ae_index e, mkWalOp WNoop [] None (ae_term e) None)]
  | Cmd.Insert key value _ => [(ae_index e, mkWalOp WInsert key (Some value) (ae_term e) None)]
  | Cmd.Delete key => [(ae_index e, mkWalOp WDelete key None (ae_term e) None)]
  | Cmd.CompareAndSwap key _ value =>
      [(ae_index e, if cas_success then mkWalOp WInsert key (Some value) (ae_term e) None
                    else mkWalOp WCasFailed [] None (ae_term e) None)]
  | Cmd.Batch ops => batch_rec e <$> ops
  end.

Fixpoint chunk_recs (m : kv) (chunk : list ApplyEntry) : list wal_rec :=
  match chunk with
  | [] => []
  | e :: chunk' => entry_recs e (cas_outcome m e) ++ chunk_recs (exec m e).1 chunk'
  end.

(** Entries whose records are read back as they were written: no time to live, no
    empty value, no empty batch, numbers in range. *)
Definition batch_op_plain (o : Cmd.BatchOp) : Prop :=
  match o with Cmd.BInsert _ value => value ≠ [] | Cmd.BDelete _ => True end.

Definition command_plain (c : Cmd.Command) : Prop :=
  match c with
  | Cmd.Insert _ value ttl => value ≠ [] ∧ ttl = None
  | Cmd.CompareAndSwap _ _ value => value ≠ []
  | Cmd.Batch ops => ops ≠ [] ∧ Forall batch_op_plain ops
  | Cmd.Noop | Cmd.Delete _ => True
  end.

Record plain (e : ApplyEntry) : Prop := {
  plain_index : ae_index e <= u64_max;
  plain_term : ae_term e <= u64_max;
  plain_command : command_plain (ae_command e);
}.

Lemma encode_batch_recs e o ops :
  wal_header e ++ encode_batch e true (o :: ops) = encode_recs (batch_rec e <$> o :: ops).
Proof.
  assert (∀ o, wal_header e ++ encode_batch_op o = encode_rec (batch_rec e o)) as Ho.
  { intros [key value|key]; unfold wal_header; by rewrite <-app_assoc. }
  assert (∀ ops, encode_batch e false ops = encode_recs (batch_rec e <$> ops)) as Hops.
  { induction ops0 as [|o' ops' IH]; [done|]. rewrite fmap_cons, encode_recs_cons, <-IH, <-Ho.
    by rewrite <-app_assoc. }
  rewrite fmap_cons, encode_recs_cons, <-Ho, <-Hops. by rewrite <-app_assoc.
Qed.

Lemma encode_single_rec e c key value expire :
  wal_header e ++ wal_body c key (default [] value) (default 0 expire)
  = encode_recs [(ae_index e, mkWalOp c key value (ae_term e) expire)].
Proof. unfold wal_header. rewrite encode_recs_cons, <-app_assoc. by rewrite app_nil_r. Qed.

Lemma encode_entry_recs now e b :
  command_plain (ae_command e) → encode_wal_entry now e b = Some (encode_recs (entry_recs e b)).
Proof.
  unfold encode_wal_entry, entry_recs.
  destruct (ae_command e) as [|key value [ttl|]|key|key expected value|[|o ops]]; intros H.
  - by rewrite <-encode_single_rec.
  - by destruct H.
  - by rewrite <-encode_single_rec.
  - by rewrite <-encode_single_rec.
  - by destruct b; rewrite <-encode_single_rec.
  - by destruct H.
  - by rewrite encode_batch_recs.
Qed.

Lemma wal_bytes_recs clock i m chunk :
  Forall plain chunk → wal_bytes clock i m chunk = Some (encode_recs (chunk_recs m chunk)).
Proof.
  intros Hc. revert i m. induction Hc as [|e chunk He Hc IH]; intros i m; simpl; [done|].
  rewrite encode_entry_recs by apply He. simpl. rewrite IH. simpl. by rewrite encode_recs_app.
Qed.

(** The operations of the records do what the entries do. *)
Lemma run_entry_recs m e :
  command_plain (ae_command e) → run_ops m (entry_recs e (cas_outcome m e)).*2 = (exec m e).1.
Proof.
  unfold entry_recs, cas_outcome, exec.
  destruct (ae_command e) as [|key value ttl|key|key expected value|ops]; simpl; intros H; try done.
  - by destruct (cas_succeeds _ _).
  - clear H. revert m. unfold run_ops. induction ops as [|o ops IH]; intros m; [done|]. csimpl.
    rewrite IH. by destruct o.
Qed.

Lemma run_chunk_recs m chunk :
  Forall plain chunk → run_ops m (chunk_recs m chunk).*2 = (serial m chunk).1.
Proof.
  intros Hc. revert m. induction Hc as [|e chunk He Hc IH]; intros m; simpl; [done|].
  rewrite fmap_app, run_ops_app, run_entry_recs by apply He. rewrite IH.
  destruct (exec m e) as [m1 ok]. simpl. by destruct (serial m1 chunk).
Qed.

Lemma entry_recs_ok e b :
  plain e → Forall (λ r : wal_rec, rec_ok r ∧ w_expire r.2 = None ∧ r.1 = ae_index e) (entry_recs e b).
Proof.
  intros [Hi Ht Hc]. unfold entry_recs.
  assert (∀ c k v, v ≠ Some [] → let r := (ae_index e, mkWalOp c k v (ae_term e) None) in
    rec_ok r ∧ w_expire r.2 = None ∧ r.1 = ae_index e) as Hok by (intros; by split_and!; [split|..]).
  destruct (ae_command e) as [|key value ttl|key|key expected value|ops]; simpl in Hc;
    [..|destruct Hc as [_ Hc]]; try (destruct b); try (constructor; [apply Hok; naive_solver|constructor]).
  - induction Hc as [|o ops Ho _ IH]; constructor; [|done]. destruct o; apply Hok; naive_solver.
  - induction Hc as [|o ops Ho _ IH]; constructor; [|done]. destruct o; apply Hok; naive_solver.
Qed.

(** The indexes of a chunk lie strictly after [p]. *)
Definition chunk_after (p : N) (chunk : list ApplyEntry) : Prop := Forall (λ e, p < ae_index e) chunk.

Lemma check_order_after p chunk : check_order (Some p) chunk = true → chunk_after p chunk.
Proof.
  revert p. induction chunk as [|e chunk IH]; intros p; simpl; [constructor|].
  intros [Hp Hc]%andb_true_iff. apply N.ltb_lt in Hp. constructor; [done|].
  eapply Forall_impl; [by apply IH|]. simpl. lia.
Qed.

Lemma check_order_last chunk id e :
  check_order None chunk = true → e ∈ chunk → ae_index e <= lid_index (chunk_id chunk id).
Proof.
  unfold chunk_id. intros Hc He. destruct (last chunk) as [z|] eqn:Ez; simpl.
  2: { apply last_None in Ez. subst. by apply elem_of_nil in He. }
  assert (∀ p chunk, check_order p chunk = true → last chunk = Some z → e ∈ chunk → ae_index e <= ae_index z)
    as H; [|by eapply H].
  clear. intros p chunk. revert p. induction chunk as [|x chunk IH]; intros p Hc Ez He; [done|].
  simpl in Hc. apply andb_true_iff in Hc as [_ Hc]. apply elem_of_cons in He as [->|He].
  - destruct chunk as [|y chunk]; [by simplify_eq/=|].
    apply check_order_after in Hc. rewrite last_cons_cons in Ez.
    apply last_Some_elem_of in Ez. eapply Forall_forall in Hc; [|done]. simpl in Hc. lia.
  - destruct chunk as [|y chunk]; [by apply elem_of_nil in He|]. rewrite last_cons_cons in Ez. by eapply IH.
Qed.

Lemma chunk_recs_ok m chunk :
  Forall plain chunk →
  Forall (λ r : wal_rec, rec_ok r ∧ w_expire r.2 = None ∧ ∃ e, e ∈ chunk ∧ r.1 = ae_index e) (chunk_recs m chunk).
Proof.
  intros Hc. revert m. induction Hc as [|e chunk He Hc IH]; intros m; simpl; [constructor|].
  apply Forall_app. split.
  - eapply Forall_impl; [by apply entry_recs_ok|]. simpl. intros r (? & ? & ?).
    split_and!; [done..|]. exists e. split; [by left|done].
  - eapply Forall_impl; [apply IH|]. simpl. intros r (? & ? & e' & ? & ?).
    split_and!; [done..|]. exists e'. split; [by right|done].
Qed.

(** ** Files a restart can read *)

Definition loads_data (d : Disk) (kv0 : kv) : Prop :=
  ∃ l, default [] (state_data d) = encode_data l ∧ Forall pair_ok l ∧ insert_pairs ∅ l = kv0.

Definition id_ok (id : LogId) : Prop := lid_index id <= u64_max ∧ lid_term id <= u64_max.

Definition loads_meta (d : Disk) (id : LogId) : Prop :=
  match metadata_bin d with
  | None => id = mkLogId 0 0
  | Some b => b = be64 (lid_index id) ++ be64 (lid_term id) ∧ id_ok id
  end.

(** The lengths of the files are representable. *)
Definition files_fit (d : Disk) : Prop :=
  N.of_nat (length (default [] (state_data d))) <= u64_max
  ∧ N.of_nat (length (default [] (wal_log d))) <= u64_max.

#[local] Arguments parse_wal : simpl never.
#[local] Arguments parse_data : simpl never.

Section recovery.
Context `{!LeaseCodec} `{!MapIter bytes N} `{!MapIter bytes (bytes * N)}.

Lemma load_metadata_run m id :
  sm_last_applied m = mkLogId 0 0 → loads_meta (disk m) id →
  load_metadata m = Some (m <| sm_last_applied := id |>, Ok tt).
Proof.
  unfold load_metadata, modify, loads_meta. destruct (metadata_bin (disk m)) as [b|] eqn:E; intros Hm.
  - intros [-> [Hi Ht]]. rewrite length_app, !length_be64.
    change (16 <=? 8 + 8)%nat with true. cbv iota.
    rewrite drop_app_length', take_app_length' by (symmetry; apply length_be64).
    rewrite take_ge by (by rewrite length_be64). rewrite !be_decode_be64 by done. by destruct id.
  - intros ->. destruct m. simpl in *. by subst.
Qed.

Lemma load_data_run m kv0 :
  data m = ∅ → loads_data (disk m) kv0 →
  N.of_nat (length (default [] (state_data (disk m)))) <= u64_max →
  load_data m = Some (m <| data := kv0 |>, Ok tt).
Proof.
  intros Hm (l & Hl & Hok & <-) Hlen. unfold load_data.
  destruct (state_data (disk m)) as [b|]; simpl in *.
  - subst b. rewrite parse_data_complete by done. destruct m. simpl in *. by subst.
  - destruct l as [|p l]; [destruct m; simpl in *; by subst|].
    exfalso. apply (f_equal length) in Hl. rewrite encode_data_cons, length_app in Hl.
    pose proof (length_encode_pair p). simpl in Hl. lia.
Qed.

Lemma replay_ops_run env i ops m :
  lease m = None → Forall (λ o, w_expire o = None) ops →
  replay_ops env i ops m = Some (m <| data := run_ops (data m) ops |>, Ok tt).
Proof.
  intros Hl Hops. revert i m Hl. induction Hops as [|o ops Ho Hops IH]; intros i m Hl; [by destruct m|].
  simpl. unfold mbind, proc_bind.
  assert (replay_op env i o m = Some (m <| data := run_op (data m) o |>, Ok tt)) as ->.
  { unfold replay_op, run_op. rewrite Ho. destruct (w_code o), (w_value o); destruct m; simpl in *; by subst. }
  rewrite IH by done. by destruct m.
Qed.

(** A restart: the checkpoint, then the operations read from the log. *)
Lemma fsm_new_run env d kv0 id ops :
  loads_data d kv0 → loads_meta d id → files_fit d → clear_io env = IoDone →
  let b := default [] (wal_log d) in
  parse_wal (length b) (lid_index id) 0 b = Some (Ok ops) → Forall (λ o, w_expire o = None) ops →
  ∃ m, fsm_new env d = Some (m, Ok tt) ∧ data m = run_ops kv0 ops ∧ sm_last_applied m = id
    ∧ state_data (disk m) = state_data d ∧ metadata_bin (disk m) = metadata_bin d
    ∧ default [] (wal_log (disk m)) = [].
Proof.
  intros Hd Hm [Hf _] Hio b Hb Hops. unfold fsm_new, load_from_disk.
  unfold mbind at 1, proc_bind at 1. rewrite (load_metadata_run _ id) by done.
  unfold mbind at 1, proc_bind at 1. rewrite (load_data_run _ kv0) by done.
  unfold replay_wal. unfold mbind at 1, proc_bind at 1. unfold get at 1. simpl.
  destruct (wal_log d) as [[|x w]|] eqn:Hwl; subst b; cbn [default] in Hb.
  - injection Hb as <-. eexists. split; [done|]. simpl. by rewrite Hwl.
  - change (parse_wal (length (x :: w)) (lid_index id) 0 (x :: w) = Some (Ok ops)) in Hb.
    rewrite Hb. unfold mbind, proc_bind. rewrite replay_ops_run by done.
    unfold clear_wal, on_file. rewrite Hio. eexists. split; [done|]. done.
  - injection Hb as <-. eexists. split; [done|]. simpl. by rewrite Hwl.
Qed.

(** ** The invariant between crashes *)

(** The disk of [m]: a checkpoint [kv0] at [id] and the complete records [rs]. The map in
    memory is [base] with these records; [base] is [kv0], or ahead of it after a restart
    that replayed a log and cleared it. *)
Record durable (m : FileStateMachine) (kv0 : kv) (id : LogId) (rs : list wal_rec) (base : kv) : Prop := {
  du_data : loads_data (disk m) kv0;
  du_meta : loads_meta (disk m) id;
  du_wal : default [] (wal_log (disk m)) = encode_recs rs;
  du_recs : Forall (λ r : wal_rec, rec_ok r ∧ w_expire r.2 = None ∧ r.1 <= lid_index (sm_last_applied m)) rs;
  du_le : lid_index id <= lid_index (sm_last_applied m);
  du_id : id_ok (sm_last_applied m);
  du_terms : map_Forall (λ _ p, p.2 <= u64_max) (data m);
  du_kv : data m = run_ops base (newer (lid_index id) rs);
}.

Lemma durable_recs_ok m kv0 id rs base : durable m kv0 id rs base → Forall rec_ok rs.
Proof. intros Hdu. eapply Forall_impl; [exact (du_recs _ _ _ _ _ Hdu)|]. simpl. tauto. Qed.

Lemma newer_expire la rs :
  Forall (λ r : wal_rec, w_expire r.2 = None) rs → Forall (λ o, w_expire o = None) (newer la rs).
Proof.
  intros Hdu. unfold newer. apply Forall_fmap. apply Forall_forall. intros r [_ Hr]%list_elem_of_filter.
  by eapply Forall_forall in Hdu.
Qed.

(** A restart after a crash with complete files gives the checkpoint with the records. *)
Lemma durable_recovers env m kv0 id rs base :
  durable m kv0 id rs base → files_fit (disk m) → clear_io env = IoDone →
  ∃ m', fsm_new env (disk m) = Some (m', Ok tt) ∧ data m' = run_ops kv0 (newer (lid_index id) rs)
        ∧ lid_index (sm_last_applied m') <= lid_index (sm_last_applied m).
Proof.
  intros Hdu Hf Hio.
  destruct (fsm_new_run env (disk m) kv0 id (newer (lid_index id) rs)) as (m' & Hm' & Hd & Hl & _); try done.
  - apply Hdu.
  - apply Hdu.
  - rewrite (du_wal _ _ _ _ _ Hdu). apply parse_wal_complete; [by eapply durable_recs_ok|].
    rewrite <-(du_wal _ _ _ _ _ Hdu). apply Hf.
  - apply newer_expire. eapply Forall_impl; [exact (du_recs _ _ _ _ _ Hdu)|]. simpl. tauto.
  - exists m'. split; [done|]. rewrite Hd, Hl. split; [done|apply Hdu].
Qed.

(** A restart after the log was cut in the middle of a chunk. *)
Lemma torn_recovers env m kv0 id rs base crs n d :
  durable m kv0 id rs base → files_fit (disk m) → clear_io env = IoDone →
  Forall (λ r : wal_rec, rec_ok r ∧ w_expire r.2 = None ∧ lid_index (sm_last_applied m) < r.1) crs →
  N.of_nat (length (encode_recs (rs ++ crs))) <= u64_max →
  state_data d = state_data (disk m) → metadata_bin d = metadata_bin (disk m) →
  default [] (wal_log d) = encode_recs rs ++ take n (encode_recs crs) →
  ∃ m' crs1, fsm_new env d = Some (m', Ok tt) ∧ crs1 `prefix_of` crs
    ∧ data m' = run_ops (run_ops kv0 (newer (lid_index id) rs)) crs1.*2
    ∧ lid_index (sm_last_applied m') <= lid_index (sm_last_applied m).
Proof.
  intros Hdu Hf Hio Hcrs Hlen Hs Hm Hw.
  destruct (parse_wal_cut (lid_index id) rs crs n) as (crs1 & Hpre & Hparse); [|done|].
  { apply Forall_app. split; [by eapply durable_recs_ok|]. eapply Forall_impl; [done|]. simpl. tauto. }
  assert (Forall (λ r : wal_rec, w_expire r.2 = None ∧ lid_index (sm_last_applied m) < r.1) crs1) as Hcrs1.
  { destruct Hpre as [k ->]. apply Forall_app in Hcrs as [Hcrs _]. eapply Forall_impl; [done|]. simpl. tauto. }
  destruct (fsm_new_run env d kv0 id (newer (lid_index id) (rs ++ crs1))) as (m' & Hm' & Hd & Hl & _).
  - unfold loads_data. rewrite Hs. apply Hdu.
  - unfold loads_meta. rewrite Hm. apply Hdu.
  - unfold files_fit. rewrite Hs, Hw. split; [apply Hf|].
    rewrite encode_recs_app, length_app in Hlen. rewrite length_app, length_take. lia.
  - done.
  - by rewrite Hw.
  - apply newer_expire, Forall_app. split; (eapply Forall_impl; [exact (du_recs _ _ _ _ _ Hdu) || exact Hcrs1|]; simpl; tauto).
  - exists m', crs1. split; [done|]. split; [done|]. rewrite Hd, Hl. split; [|apply Hdu].
    rewrite newer_app, run_ops_app. f_equal. apply newer_all.
    eapply Forall_impl; [done|]. simpl. pose proof (du_le _ _ _ _ _ Hdu). lia.
Qed.

(** ** Steps *)

(** Rewriting a file succeeds or leaves the old one. *)
Definition atomic (io : io_outcome) : Prop := io = IoDone ∨ io = OpenFailed.

Lemma durable_persist_data m kv0 id rs base :
  durable m kv0 id rs base →
  durable (m <| disk ::= λ d, d <| state_data := Some (encode_data (map_iter (data m))) |> |>)
    (data m) id rs (data m).
Proof.
  intros []. split; simpl; try done.
  - exists (map_iter (data m)). split; [done|]. split.
    + apply Forall_forall. intros [k p] Hin. apply elem_of_map_iter in Hin. by apply (du_terms0 k p).
    + apply insert_pairs_perm, map_iter_perm.
  - rewrite du_kv0. by rewrite run_ops_idempotent.
Qed.

Lemma durable_persist_metadata m kv0 id rs :
  durable m kv0 id rs kv0 → kv0 = data m →
  durable (m <| disk ::= λ d, d <| metadata_bin :=
             Some (be64 (lid_index (sm_last_applied m)) ++ be64 (lid_term (sm_last_applied m))) |> |>)
    kv0 (sm_last_applied m) rs kv0.
Proof.
  intros [] ->. split; simpl; try done.
  rewrite newer_none; [done|]. eapply Forall_impl; [done|]. simpl. tauto.
Qed.

Lemma durable_clear_wal m kv0 id rs :
  durable m kv0 id rs kv0 → kv0 = data m →
  durable (m <| disk ::= λ d, d <| wal_log := Some [] |> |>) kv0 id [] kv0.
Proof. intros [] ->. split; simpl; try done. Qed.

(** The map recovered from the disk is the map in memory. *)
Definition in_step (kv0 base : kv) (b : bool) : Prop := b = true → base = kv0.

(** A checkpoint, whichever of its steps is the last one. *)
Lemma checkpoint_durable env m kv0 id rs base b m' r :
  durable m kv0 id rs base → in_step kv0 base b →
  atomic (data_io env) → atomic (meta_io env) → atomic (clear_io env) →
  checkpoint env m = Some (m', r) →
  ∃ kv1 id1 rs1 base1, durable m' kv1 id1 rs1 base1 ∧ in_step kv1 base1 b ∧ data m' = data m
    ∧ lease m' = lease m ∧ sm_last_applied m' = sm_last_applied m.
Proof.
  intros Hdu Hb Hd Hm Hc.
  unfold checkpoint, persist_data, persist_metadata, clear_wal, on_file, mbind, proc_bind, get.
  destruct Hd as [->| ->]; simpl.
  2: { intros [= <- <-]. exists kv0, id, rs, base. destruct m, disk0. done. }
  apply durable_persist_data in Hdu. destruct Hm as [->| ->]; simpl.
  2: { intros [= <- <-]. eexists _, id, rs, _. split; [destruct m, disk0; exact Hdu|done]. }
  apply durable_persist_metadata in Hdu; [|done]. destruct Hc as [->| ->]; simpl.
  2: { intros [= <- <-]. eexists _, _, rs, _. split; [destruct m, disk0; exact Hdu|done]. }
  apply durable_clear_wal in Hdu; [|done]. intros [= <- <-]. eexists _, _, [], _. split; [by destruct Hdu|done].
Qed.

(** A chunk the commit pipeline may hand over: it continues after the last applied
    entry, in order. *)
Record feeds (m : FileStateMachine) (chunk : list ApplyEntry) : Prop := {
  feeds_plain : Forall plain chunk;
  feeds_order : check_order None chunk = true;
  feeds_after : chunk_after (lid_index (sm_last_applied m)) chunk;
}.

Record atomic_io (env : SmEnv) : Prop := {
  ai_data : atomic (data_io env);
  ai_meta : atomic (meta_io env);
  ai_clear : atomic (clear_io env);
}.

Lemma feeds_recs m chunk :
  feeds m chunk →
  Forall (λ r : wal_rec, rec_ok r ∧ w_expire r.2 = None ∧ lid_index (sm_last_applied m) < r.1
                         ∧ r.1 <= lid_index (chunk_id chunk (sm_last_applied m)))
    (chunk_recs (data m) chunk).
Proof.
  intros []. eapply Forall_impl; [by apply chunk_recs_ok|]. intros r (? & ? & e & He & ->).
  split_and!; [done..| |by apply check_order_last].
  eapply Forall_forall in feeds_after0; done.
Qed.

Lemma run_ops_terms m ops :
  map_Forall (λ _ p, p.2 <= u64_max) m → Forall (λ o, w_term o <= u64_max) ops →
  map_Forall (λ _ p, p.2 <= u64_max) (run_ops m ops).
Proof.
  intros Hm Hops. revert m Hm. induction Hops as [|o ops Ho _ IH]; intros m Hm; [done|].
  apply (IH (run_op m o)). unfold run_op. destruct (w_code o), (w_value o); try done;
    (by apply map_Forall_insert_2) || (by apply map_Forall_delete).
Qed.

Lemma chunk_id_ok m chunk : feeds m chunk → id_ok (sm_last_applied m) → id_ok (chunk_id chunk (sm_last_applied m)).
Proof.
  intros [Hp _ _] Hid. unfold chunk_id. destruct (last chunk) as [e|] eqn:E; [|done].
  apply last_Some_elem_of in E. eapply Forall_forall in Hp; [|done]. destruct Hp. done.
Qed.

Lemma chunk_id_le m chunk :
  feeds m chunk → lid_index (sm_last_applied m) <= lid_index (chunk_id chunk (sm_last_applied m)).
Proof.
  intros [_ _ Ha]. unfold chunk_id. destruct (last chunk) as [e|] eqn:E; [|done].
  apply last_Some_elem_of in E. eapply Forall_forall in Ha; [|done]. simpl in *. lia.
Qed.

(** The log is complete and the map updated. *)
Lemma durable_applied m kv0 id rs base chunk l w :
  durable m kv0 id rs base → feeds m chunk →
  default [] w = encode_recs rs ++ encode_recs (chunk_recs (data m) chunk) →
  durable (applied chunk l (m <| disk ::= λ d, d <| wal_log := w |> |>)) kv0 id
    (rs ++ chunk_recs (data m) chunk) base.
Proof.
  intros Hdu Hf Hw. pose proof (feeds_recs _ _ Hf) as Hrecs. pose proof (chunk_id_le _ _ Hf) as Hle.
  assert (run_ops (data m) (chunk_recs (data m) chunk).*2 = (serial (data m) chunk).1) as Hrun
    by (apply run_chunk_recs, Hf).
  destruct Hdu. split; simpl; try done.
  - by rewrite encode_recs_app.
  - apply Forall_app. split; (eapply Forall_impl; [done|]; simpl); [|tauto].
    intros r (? & ? & ?). split_and!; [done..|]. lia.
  - lia.
  - by apply chunk_id_ok.
  - rewrite <-Hrun. apply run_ops_terms; [done|]. apply Forall_fmap. eapply Forall_impl; [done|].
    simpl. by intros r ([] & _).
  - rewrite newer_app, run_ops_app, <-du_kv0, newer_all; [done|].
    eapply Forall_impl; [done|]. simpl. lia.
Qed.

Lemma append_wal_run env buf m :
  ∃ w r, append_wal env buf m = Some (m <| disk ::= λ d, d <| wal_log := w |> |>, r)
    ∧ match r with
      | Ok _ => default [] w = default [] (wal_log (disk m)) ++ buf
      | Err e => e = IoError ∧ wal_io env ≠ IoDone
                 ∧ ∃ n, default [] w = default [] (wal_log (disk m)) ++ take n buf
      end.
Proof.
  unfold append_wal. destruct buf as [|x buf].
  { exists (wal_log (disk m)), (Ok tt). split; [by destruct m, disk0|]. by rewrite app_nil_r. }
  unfold on_file. destruct (wal_io env) as [|n|]; simpl; eexists _, _; (split; [done|]); simpl.
  - split; [done|]. split; [done|]. exists 0%nat. by rewrite app_nil_r.
  - split; [done|]. split; [done|]. by exists n.
  - done.
Qed.

Lemma checkpoint_run env m :
  ∃ m' r, checkpoint env m = Some (m', r)
    ∧ data m' = data m ∧ lease m' = lease m ∧ sm_last_applied m' = sm_last_applied m
    ∧ match r with
      | Ok _ => True
      | Err e => e = IoError ∧ ¬ (data_io env = IoDone ∧ meta_io env = IoDone ∧ clear_io env = IoDone)
      end.
Proof.
  unfold checkpoint, persist_data, persist_metadata, clear_wal, on_file, mbind, proc_bind, get.
  destruct (data_io env), (meta_io env), (clear_io env); simpl; eexists _, _; (split; [done|]);
    simpl; (split_and!; [done..|]); naive_solver.
Qed.

(** After the log is written: the counters, and the checkpoint if it is due. *)
Lemma finish_durable env m kv0 id rs base b chunk l m' (r : result (list ApplyResult)) results :
  durable (applied chunk l m) kv0 id rs base → in_step kv0 base b → atomic_io env →
  match (if should_checkpoint env (applied chunk l m) then checkpoint env (applied chunk l m)
         else Some (applied chunk l m, Ok tt)) with
  | None => None
  | Some (m3, Err e) => Some (m3, Err e)
  | Some (m3, Ok _) => Some (m3, Ok results)
  end = Some (m', r) →
  ∃ kv1 id1 rs1 base1, durable m' kv1 id1 rs1 base1 ∧ in_step kv1 base1 b
    ∧ data m' = (serial (data m) chunk).1 ∧ sm_last_applied m' = chunk_id chunk (sm_last_applied m).
Proof.
  intros Hap Hb [Ha1 Ha2 Ha3]. destruct (should_checkpoint _ _).
  - destruct (checkpoint _ _) as [[m3 r3]|] eqn:Ec; [|done].
    eapply checkpoint_durable in Ec as (kv1 & id1 & rs1 & base1 & Hdu1 & Hb1 & Hd1 & _ & Hl1); [|done..].
    destruct r3; intros [= <- <-]; exists kv1, id1, rs1, base1; (split; [done|]); (split; [done|]);
      (split; [by rewrite Hd1|by rewrite Hl1]).
  - intros [= <- <-]. by eexists _, _, _, _.
Qed.

(** Every end of [apply_chunk]: the log is cut, or the disk is again recoverable. *)
Lemma apply_chunk_durable env m kv0 id rs base b chunk m' r :
  durable m kv0 id rs base → in_step kv0 base b → feeds m chunk → atomic_io env →
  apply_chunk env chunk m = Some (m', r) →
  (∃ n, (∃ e, r = Err e) ∧ state_data (disk m') = state_data (disk m)
        ∧ metadata_bin (disk m') = metadata_bin (disk m) ∧ sm_last_applied m' = sm_last_applied m
        ∧ default [] (wal_log (disk m')) = encode_recs rs ++ take n (encode_recs (chunk_recs (data m) chunk)))
  ∨ (∃ kv1 id1 rs1 base1, durable m' kv1 id1 rs1 base1 ∧ in_step kv1 base1 b
        ∧ data m' = (serial (data m) chunk).1 ∧ sm_last_applied m' = chunk_id chunk (sm_last_applied m)).
Proof.
  intros Hdu Hb Hf Ha. rewrite apply_chunk_run, (feeds_order _ _ Hf).
  rewrite wal_bytes_recs by apply Hf. cbn [mbind option_bind].
  destruct (append_wal_run env (encode_recs (chunk_recs (data m) chunk)) m) as (w & r1 & -> & Hw).
  rewrite (du_wal _ _ _ _ _ Hdu) in Hw. destruct r1 as [[]|e].
  - destruct (lease_serial _ _ _ _) as [l|]; cbn [mbind option_bind]; [|done].
    intros Hrun. right. eapply finish_durable in Hrun; [done|by apply durable_applied|done..].
  - intros [= <- <-]. left. destruct Hw as (_ & _ & n & Hw). exists n. split; [by eexists|]. done.
Qed.

(** ** Reachable states *)

(** The lengths a chunk adds to the log are representable. *)
Definition log_room (m : FileStateMachine) (chunk : list ApplyEntry) : Prop :=
  N.of_nat (length (default [] (wal_log (disk m))) + length (encode_recs (chunk_recs (data m) chunk))) <= u64_max.

(** The state machines any number of crashes and restarts lead to. The flag tells whether
    everything in memory is on disk: a restart that replays a log clears it without a
    checkpoint, and what it replayed is only in memory until the next flush or completed
    checkpoint. *)
Inductive sm_reach : bool → FileStateMachine → Prop :=
  | reach_fresh env m : fsm_new env (mkDisk None None None None) = Some (m, Ok tt) → sm_reach true m
  | reach_lease b l m : sm_reach b m → sm_reach b (set_lease l m)
  | reach_apply b env chunk m m' rs :
      sm_reach b m → feeds m chunk → atomic_io env →
      apply_chunk env chunk m = Some (m', Ok rs) → sm_reach b m'
  | reach_flush b env m m' :
      sm_reach b m → sm_flush env m = Some (m', Ok tt) → sm_reach true m'
  | reach_checkpoint b env m m' :
      sm_reach b m → checkpoint env m = Some (m', Ok tt) → sm_reach true m'
  | reach_restart b env m m' :
      sm_reach b m → files_fit (disk m) → clear_io env = IoDone → fsm_new env (disk m) = Some (m', Ok tt) →
      sm_reach (b && bool_decide (default [] (wal_log (disk m)) = [])) m'
  | reach_crash b env env' chunk m m1 r m' :
      sm_reach b m → feeds m chunk → atomic_io env → apply_chunk env chunk m = Some (m1, r) →
      files_fit (disk m) → files_fit (disk m1) → log_room m chunk → clear_io env' = IoDone →
      fsm_new env' (disk m1) = Some (m', Ok tt) → sm_reach false m'.

Lemma encode_recs_nil rs : encode_recs rs = [] → rs = [].
Proof.
  destruct rs as [|r rs]; [done|]. intros E. apply (f_equal length) in E.
  rewrite encode_recs_cons, length_app in E. pose proof (length_encode_rec r). simpl in E. lia.
Qed.

(** A restart that finds no log changes no file. *)
Lemma fsm_new_clean env d kv0 id m :
  loads_data d kv0 → loads_meta d id → files_fit d → default [] (wal_log d) = [] →
  fsm_new env d = Some (m, Ok tt) → data m = kv0 ∧ sm_last_applied m = id ∧ disk m = d.
Proof.
  intros Hd Hm [Hf _] Hw. unfold fsm_new, load_from_disk.
  unfold mbind at 1, proc_bind at 1. rewrite (load_metadata_run _ id) by done.
  unfold mbind at 1, proc_bind at 1. rewrite (load_data_run _ kv0) by done.
  unfold replay_wal, mbind, proc_bind, get. simpl.
  destruct (wal_log d) as [[|x w]|]; [|done|]; by intros [= <-].
Qed.

Lemma loads_meta_ok d id : loads_meta d id → id_ok id.
Proof. unfold loads_meta. destruct (metadata_bin d); [by intros [_ ?]|by intros ->]. Qed.

Lemma durable_clean kv0 id m' :
  loads_data (disk m') kv0 → loads_meta (disk m') id → default [] (wal_log (disk m')) = [] →
  data m' = kv0 → sm_last_applied m' = id → map_Forall (λ _ p, p.2 <= u64_max) kv0 →
  durable m' kv0 id [] kv0.
Proof. intros. subst. split; try done. by eapply loads_meta_ok. Qed.

Lemma loads_data_terms d kv0 : loads_data d kv0 → map_Forall (λ _ p, p.2 <= u64_max) kv0.
Proof.
  intros (l & _ & Hok & <-). unfold insert_pairs.
  assert (map_Forall (λ (_ : bytes) (p : bytes * N), p.2 <= u64_max) (∅ : kv)) as H0 by apply map_Forall_empty.
  revert H0. generalize (∅ : kv). induction Hok as [|[k x] l Hx _ IH]; intros m0 Hm0; simpl; [done|].
  apply IH. by apply map_Forall_insert_2.
Qed.

Lemma flush_durable env m kv0 id rs base m' :
  durable m kv0 id rs base → sm_flush env m = Some (m', Ok tt) →
  ∃ kv1 id1 rs1, durable m' kv1 id1 rs1 kv1 ∧ data m' = data m ∧ sm_last_applied m' = sm_last_applied m.
Proof.
  intros Hdu. unfold sm_flush, persist_data, persist_metadata, on_file, mbind, proc_bind, get.
  destruct (data_io env); simpl; [done..|]. apply durable_persist_data in Hdu.
  destruct (meta_io env); simpl; [done..|]. apply durable_persist_metadata in Hdu; [|done].
  intros [= <-]. by eexists _, _, _.
Qed.

Lemma full_checkpoint_durable env m kv0 id rs base m' :
  durable m kv0 id rs base → checkpoint env m = Some (m', Ok tt) →
  ∃ kv1 id1 rs1, durable m' kv1 id1 rs1 kv1.
Proof.
  intros Hdu. unfold checkpoint, persist_data, persist_metadata, clear_wal, on_file, mbind, proc_bind, get.
  destruct (data_io env); simpl; [done..|]. apply durable_persist_data in Hdu.
  destruct (meta_io env); simpl; [done..|]. apply durable_persist_metadata in Hdu; [|done].
  destruct (clear_io env); simpl; [done..|]. apply durable_clear_wal in Hdu; [|done].
  intros [= <-]. eexists _, _, []. by destruct Hdu.
Qed.

Lemma durable_lease m kv0 id rs base l : durable m kv0 id rs base → durable (set_lease l m) kv0 id rs base.
Proof. intros []. by split. Qed.

Lemma durable_empty : loads_data (mkDisk None None None None) ∅.
Proof. by exists []. Qed.

(** A restart that replays operations of the log leaves the checkpoint, and an empty log. *)
Lemma restart_durable env d kv0 id ops m' :
  loads_data d kv0 → loads_meta d id → files_fit d → clear_io env = IoDone →
  parse_wal (length (default [] (wal_log d))) (lid_index id) 0 (default [] (wal_log d)) = Some (Ok ops) →
  Forall (λ o, w_expire o = None ∧ w_term o <= u64_max) ops →
  fsm_new env d = Some (m', Ok tt) → durable m' kv0 id [] (data m').
Proof.
  intros Hd Hm Hf Hio Hp Hops Hnew.
  destruct (fsm_new_run env d kv0 id ops) as (m1 & Hm1 & Hd1 & Hl1 & Hs & Hmeta & Hw); [done..| |].
  { eapply Forall_impl; [done|]. simpl. tauto. }
  rewrite Hnew in Hm1. injection Hm1 as <-.
  split; rewrite ?Hl1; [by unfold loads_data; rewrite Hs|by unfold loads_meta; rewrite Hmeta|done|done|done| | |done].
  - by eapply loads_meta_ok.
  - rewrite Hd1. apply run_ops_terms; [by eapply loads_data_terms|]. eapply Forall_impl; [done|]. simpl. tauto.
Qed.

Lemma newer_ok la rs :
  Forall (λ r : wal_rec, rec_ok r ∧ w_expire r.2 = None) rs →
  Forall (λ o, w_expire o = None ∧ w_term o <= u64_max) (newer la rs).
Proof.
  intros Hrs. unfold newer. apply Forall_fmap, Forall_forall. intros r [_ Hr]%list_elem_of_filter.
  eapply Forall_forall in Hrs as [Hok He]; [|exact Hr]. by destruct Hok.
Qed.

Lemma durable_restart env m kv0 id rs base b m' :
  durable m kv0 id rs base → in_step kv0 base b → files_fit (disk m) → clear_io env = IoDone →
  fsm_new env (disk m) = Some (m', Ok tt) →
  ∃ kv1 base1, durable m' kv1 id [] base1
    ∧ in_step kv1 base1 (b && bool_decide (default [] (wal_log (disk m)) = [])).
Proof.
  intros Hdu Hb Hf Hio Hnew. pose proof (du_wal _ _ _ _ _ Hdu) as Hw.
  assert (Forall (λ r : wal_rec, rec_ok r ∧ w_expire r.2 = None) rs) as Hrs
    by (eapply Forall_impl; [exact (du_recs _ _ _ _ _ Hdu)|]; simpl; tauto).
  destruct (decide (default [] (wal_log (disk m)) = [])) as [Hnil|Hnil].
  - apply (fsm_new_clean _ _ kv0 id) in Hnew as (Hd & Hl & Hdisk); [|apply Hdu..|done|done].
    exists kv0, kv0. split; [|done]. apply durable_clean; rewrite ?Hdisk; try done; try apply Hdu.
    by eapply loads_data_terms, Hdu.
  - exists kv0, (data m'). split; [|rewrite bool_decide_eq_false_2 by done; by rewrite andb_false_r].
    apply (restart_durable env (disk m) kv0 id (newer (lid_index id) rs)); try done; try apply Hdu.
    + rewrite Hw. apply parse_wal_complete; [by eapply durable_recs_ok|]. rewrite <-Hw. apply Hf.
    + by apply newer_ok.
Qed.

Lemma durable_crash env env' m kv0 id rs base b chunk m1 r m' :
  durable m kv0 id rs base → in_step kv0 base b → feeds m chunk → atomic_io env →
  apply_chunk env chunk m = Some (m1, r) → files_fit (disk m) → files_fit (disk m1) → log_room m chunk →
  clear_io env' = IoDone → fsm_new env' (disk m1) = Some (m', Ok tt) →
  ∃ kv1 id1 base1, durable m' kv1 id1 [] base1.
Proof.
  intros Hdu Hb Hf Ha Hrun Hfit Hfit1 Hroom Hio Hnew. unfold log_room in Hroom.
  destruct (apply_chunk_durable _ _ _ _ _ _ _ _ _ _ Hdu Hb Hf Ha Hrun)
    as [(n & _ & Hs & Hm & _ & Hw)|(kv1 & id1 & rs1 & base1 & Hdu1 & Hb1 & _)].
  2: { destruct (durable_restart _ _ _ _ _ _ _ _ Hdu1 Hb1 Hfit1 Hio Hnew) as (kv2 & base2 & ? & _). by eexists _, _, _. }
  rewrite (du_wal _ _ _ _ _ Hdu), <-length_app, <-encode_recs_app in Hroom.
  assert (Forall (λ r : wal_rec, rec_ok r ∧ w_expire r.2 = None) (rs ++ chunk_recs (data m) chunk)) as Hok.
  { apply Forall_app. split; (eapply Forall_impl; [exact (du_recs _ _ _ _ _ Hdu) || exact (feeds_recs _ _ Hf)|]);
      simpl; tauto. }
  destruct (parse_wal_cut (lid_index id) rs (chunk_recs (data m) chunk) n) as (crs & [k Hpre] & Hparse); [|done|].
  { eapply Forall_impl; [done|]. simpl. tauto. }
  exists kv0, id, (data m').
  apply (restart_durable env' (disk m1) kv0 id (newer (lid_index id) (rs ++ crs))); try done.
  - unfold loads_data. rewrite Hs. apply Hdu.
  - unfold loads_meta. rewrite Hm. apply Hdu.
  - by rewrite Hw.
  - apply newer_ok. rewrite Hpre, app_assoc in Hok. by apply Forall_app in Hok as [? _].
Qed.

Lemma reach_durable b m :
  sm_reach b m → ∃ kv0 id rs base, durable m kv0 id rs base ∧ in_step kv0 base b.
Proof.
  induction 1 as [env m Hm|b l m _ (kv0 & id & rs & base & IH & Hb)
                 |b env chunk m m' out _ (kv0 & id & rs & base & IH & Hb) Hf Ha Hrun
                 |b env m m' _ (kv0 & id & rs & base & IH & Hb) Hrun
                 |b env m m' _ (kv0 & id & rs & base & IH & Hb) Hrun
                 |b env m m' _ (kv0 & id & rs & base & IH & Hb) Hfit Hio Hrun
                 |b env env' chunk m m1 r m' _ (kv0 & id & rs & base & IH & Hb) Hf Ha Hrun Hfit Hfit1 Hroom Hio Hnew].
  - apply (fsm_new_clean _ _ ∅ (mkLogId 0 0)) in Hm as (Hd & Hl & Hdisk);
      [|apply durable_empty|done|by split|done].
    exists ∅, (mkLogId 0 0), [], ∅. split; [|done]. apply durable_clean; rewrite ?Hdisk; try done. apply durable_empty.
  - exists kv0, id, rs, base. split; [|done]. by apply durable_lease.
  - eapply apply_chunk_durable in Hrun as [(n & [e He] & _)|(kv1 & id1 & rs1 & base1 & ? & ? & _)]; [done| |done..].
    by exists kv1, id1, rs1, base1.
  - eapply flush_durable in Hrun as (kv1 & id1 & rs1 & ? & _); [|done]. by exists kv1, id1, rs1, kv1.
  - eapply full_checkpoint_durable in Hrun as (kv1 & id1 & rs1 & ?); [|done]. by exists kv1, id1, rs1, kv1.
  - edestruct durable_restart as (kv1 & base1 & ? & ?); [done..|]. by exists kv1, id, [], base1.
  - edestruct durable_crash as (kv1 & id1 & base1 & ?); [done..|]. by exists kv1, id1, [], base1.
Qed.
End recovery.
