(* ===== verification/FsmProps.v ===== *)
(** * Correctness of the file-based state machine

    The properties of [d-engine-server/src/storage/adaptors/file/file_state_machine.rs]
    and [d-engine-server/src/storage/lease.rs]: a chunk has the effect of its entries
    one after the other, a crash at any point of an apply recovers the map up to some
    record of the interrupted chunk, a snapshot installs the map it was taken from,
    and the expiration pass deletes the expired keys. *)

From stdpp Require Import base tactics numbers option list gmap strings.
From S2P Require Import Prelude Proc Types Events Codec Commands TtlLease FileStateMachine FsmSpec FsmRecovery.

Import Fsm.

(** ** When a chunk can be applied *)

Definition ttl_entry_ok (env : SmEnv) (has_lease : bool) (i : nat) (e : ApplyEntry) : bool :=
  match ae_command e with
  | Cmd.Insert _ _ (Some secs) =>
      has_lease && (wal_clock env i / nanos + secs <=? i64_max)
      && (lease_clock env i / nanos + secs <=? i64_max)
  | _ => true
  end.

(** Every time to live ends within the range of [SystemTime], and there is a lease
    manager if there is one. *)
Fixpoint ttl_ok (env : SmEnv) (has_lease : bool) (i : nat) (chunk : list ApplyEntry) : bool :=
  match chunk with
  | [] => true
  | e :: chunk' => ttl_entry_ok env has_lease i e && ttl_ok env has_lease (S i) chunk'
  end.

Lemma ttl_ok_wal env b i m chunk :
  ttl_ok env b i chunk = true → ∃ buf, wal_bytes (wal_clock env) i m chunk = Some buf.
Proof.
  revert i m. induction chunk as [|e chunk IH]; intros i m; simpl; [by eexists|].
  intros [He Hc]%andb_true_iff. destruct (IH (S i) (exec m e).1 Hc) as [bufs ->].
  assert (∃ buf, encode_wal_entry (wal_clock env i) e (cas_outcome m e) = Some buf) as [buf ->]; [|by eexists].
  unfold ttl_entry_ok in He. unfold encode_wal_entry.
  destruct (ae_command e) as [|key value [secs|]| | |]; try by eexists.
  apply andb_true_iff in He as [[_ He]%andb_true_iff _]. unfold expire_at_secs, system_time_add.
  rewrite He. by eexists.
Qed.

Lemma ttl_ok_lease env l i chunk :
  ttl_ok env (bool_decide (is_Some l)) i chunk = true →
  ∃ l', lease_serial (lease_clock env) i chunk l = Some l'.
Proof.
  revert i l. induction chunk as [|e chunk IH]; intros i l; simpl; [by eexists|].
  intros [He Hc]%andb_true_iff.
  assert (∃ l', lease_exec (lease_clock env i) e l = Some l' ∧ (is_Some l' ↔ is_Some l)) as (l' & -> & Hl').
  { assert (∀ ops l, is_Some (foldl lease_batch_op l ops) ↔ is_Some l) as Hb.
    { clear. induction ops as [|[] ops IH]; intros l; simpl; [done| |]; rewrite IH; simpl; [done|].
      by rewrite fmap_is_Some. }
    unfold ttl_entry_ok in He. unfold lease_exec.
    destruct (ae_command e) as [|key value [secs|]| | |]; try by eexists.
    - apply andb_true_iff in He as [[[l0 ->]%bool_decide_eq_true _]%andb_true_iff He]. simpl.
      unfold TtlLease.register, system_time_add. rewrite He. simpl. by eexists.
    - eexists. split; [done|]. by rewrite fmap_is_Some. }
  simpl. apply IH. by rewrite (bool_decide_ext _ _ Hl').
Qed.

(** The loop over the pairs of a snapshot takes the lease part for a key without a value,
    and ends after it. *)
Lemma parse_data_tail fuel pos b :
  pos + N.of_nat (length (sized b)) + 8 <= u64_max → (length (sized b) <= fuel)%nat →
  parse_data fuel pos (sized b) = Some (mkDataParse [] []).
Proof.
  intros Hlen Hfuel. assert (length (sized b) = 8 + length b)%nat as El
    by (unfold sized; by rewrite length_app, length_be64).
  destruct fuel as [|fuel]; [lia|]. cbn [parse_data].
  destruct (sized b) as [|x w] eqn:Eb; [simpl in El; lia|]. rewrite <-Eb in Hlen, El |- *. clear Hfuel Eb x w.
  assert (∀ pos, pos + 8 <= u64_max → p_u64 pos [] = Stop) as Hstop.
  { intros pos' Hp. unfold p_u64, mbind, parser_bind, p_take. by destruct (N.ltb_spec u64_max (pos' + 8)); [lia|]. }
  pose proof (reads_all _ _ _ (reads_sized b ltac:(lia)) pos [] ltac:(simpl; lia)) as Hkey.
  rewrite app_nil_r in Hkey.
  unfold p_pair at 1. unfold mbind at 1, parser_bind at 1. rewrite Hkey.
  unfold mbind at 1, parser_bind at 1. unfold p_sized at 1. unfold mbind at 1, parser_bind at 1.
  rewrite Hstop by lia. unfold pair_stop_rest, sized.
  rewrite (reads_all _ _ _ (reads_u64 (N.of_nat (length b)) ltac:(lia))) by (rewrite length_be64; lia).
  pose proof (reads_all _ _ _ (reads_take b _ eq_refl) (pos + N.of_nat (length (be64 (N.of_nat (length b))))) []) as Ht.
  rewrite app_nil_r in Ht. rewrite Ht by (rewrite length_be64; simpl; lia).
  rewrite Hstop by (rewrite length_be64; lia). done.
Qed.

Section properties.
Context `{!LeaseCodec} `{!MapIter bytes N} `{!MapIter bytes (bytes * N)}.

Lemma parse_snapshot m :
  map_Forall (λ _ p, p.2 <= u64_max) (data m) → N.of_nat (length (snapshot_bytes m)) + 8 <= u64_max →
  parse_data (length (snapshot_bytes m)) 0 (snapshot_bytes m) = Some (mkDataParse (map_iter (data m)) []).
Proof.
  intros Hterms. unfold snapshot_bytes.
  set (b := match lease m with Some l => TtlLease.to_snapshot l | None => [] end). intros Hlen.
  destruct (parse_data_pairs (length (encode_data (map_iter (data m)) ++ sized b)) 0 (map_iter (data m)) (sized b))
    as (fuel & Hfuel & ->); [|lia|done|].
  - apply Forall_forall. intros [k p] Hin. apply elem_of_map_iter in Hin. by apply (Hterms k p).
  - rewrite length_app in Hlen. rewrite parse_data_tail by (done || lia). simpl. by rewrite app_nil_r.
Qed.

(** C8: [apply_chunk], which evaluates compare-and-swaps against a snapshot of their
    keys and a delta of the chunk, writes the log, and only then updates the map, has the
    effect and the results of applying the entries one after the other. It returns
    whenever the indexes increase and the times to live are in range. If it fails, no
    entry or all entries are in the map; if every write succeeds, it does not fail. *)
Theorem chunk_is_applied_serially env chunk m :
  check_order None chunk = true → ttl_ok env (bool_decide (is_Some (lease m))) 0 chunk = true →
  ∃ m' r, apply_chunk env chunk m = Some (m', r)
    ∧ match r with
      | Ok results =>
          results = (serial (data m) chunk).2 ∧ data m' = (serial (data m) chunk).1
          ∧ lease_serial (lease_clock env) 0 chunk (lease m) = Some (lease m')
          ∧ sm_last_applied m' = chunk_id chunk (sm_last_applied m)
      | Err e =>
          e = IoError ∧ ((data m' = data m ∧ sm_last_applied m' = sm_last_applied m)
            ∨ (data m' = (serial (data m) chunk).1 ∧ sm_last_applied m' = chunk_id chunk (sm_last_applied m)))
      end
    ∧ (wal_io env = IoDone → data_io env = IoDone → meta_io env = IoDone → clear_io env = IoDone →
       ∃ results, r = Ok results).
Proof.
  intros Hord Httl. rewrite apply_chunk_run, Hord.
  destruct (ttl_ok_wal _ _ _ (data m) _ Httl) as [buf ->], (ttl_ok_lease _ _ _ _ Httl) as [l ->].
  cbn [mbind option_bind]. destruct (append_wal_run env buf m) as (w & [[]|e] & -> & Hw); simpl.
  2: { destruct Hw as (-> & Hio & _). eexists _, _. split; [done|]. split; [by split; [done|left]|done]. }
  set (m2 := applied chunk l _). assert (data m2 = (serial (data m) chunk).1 ∧ lease m2 = l
    ∧ sm_last_applied m2 = chunk_id chunk (sm_last_applied m)) as (Hd & Hl & Ha) by done.
  destruct (should_checkpoint env m2).
  - destruct (checkpoint_run env m2) as (m3 & [[]|e] & -> & Hd3 & Hl3 & Ha3 & He); eexists _, _;
      (split; [done|]); rewrite Hd3, ?Hl3, Ha3.
    + split; [by split_and!; [..|by f_equal|]|]. by eexists.
    + destruct He as [-> Hio]. split; [by split; [done|right]|]. naive_solver.
  - eexists _, _. split; [done|]. split; [by split_and!; [..|by f_equal|]|]. by eexists.
Qed.


(** A snapshot that [generate_snapshot_data] wrote, installed by
    [apply_snapshot_from_file] on a state machine that is behind it, replaces the map by
    the map it was taken from, whatever the order of the bindings, and moves the last
    applied position to the snapshot's; the log is cleared and the data and the
    position are on disk. *)
Lemma snapshot_installs env sha256 source dir sum metadata incoming m :
  map_Forall (λ _ p, p.2 <= u64_max) (data source) →
  N.of_nat (length (snapshot_bytes source)) + 8 <= u64_max →
  generate_snapshot_data sha256 IoDone source = (dir, Ok sum) →
  last_included metadata = Some incoming → checksum metadata = sum →
  lid_index (sm_last_applied m) < lid_index incoming →
  data_io env = IoDone → clear_io env = IoDone → meta_io env = IoDone →
  ∃ m', apply_snapshot_from_file env sha256 metadata dir m = Some (m', Ok (Applied incoming))
    ∧ data m' = data source ∧ sm_last_applied m' = incoming
    ∧ last_snapshot_metadata m' = Some metadata ∧ lease m' = lease m
    ∧ loads_data (disk m') (data source) ∧ wal_log (disk m') = Some []
    ∧ metadata_bin (disk m') = Some (be64 (lid_index incoming) ++ be64 (lid_term incoming)).
Proof.
  intros Hterms Hlen Hgen Hinc Hsum Hbehind Hio1 Hio2 Hio3.
  unfold generate_snapshot_data in Hgen. simpl in Hgen. injection Hgen as <- <-.
  unfold apply_snapshot_from_file. rewrite Hinc, Hsum. unfold mbind at 1, proc_bind at 1, get.
  destruct (N.ltb_spec (lid_index incoming) (lid_index (sm_last_applied m))); [lia|].
  destruct (N.eqb_spec (lid_index incoming) (lid_index (sm_last_applied m))); [lia|].
  rewrite bool_decide_true by done. cbn [negb snapshot_bin].
  rewrite parse_snapshot by done. cbn [dp_rest dp_pairs].
  rewrite (insert_pairs_perm (data source)) by apply map_iter_perm.
  unfold load_lease_part, install_data, persist_data, persist_metadata, clear_wal, on_file.
  unfold mbind, proc_bind, get, modify. rewrite Hio1, Hio2, Hio3. simpl.
  eexists. split; [done|]. split_and!; try done.
  exists (map_iter (data source)). split; [done|]. split.
  - apply Forall_forall. intros [k p] Hin. apply elem_of_map_iter in Hin. by apply (Hterms k p).
  - apply insert_pairs_perm, map_iter_perm.
Qed.

(** the expiration pass deletes a key only if it is registered and its time is
    over, and tells the caller which keys it deleted; it deletes all of them, unless the
    sample of registered keys it looks at first contains no expired one, in which case
    nothing changes. The other keys and their expirations stay. *)
Theorem cleanup_deletes_expired_keys env l m m' keys :
  lease m = Some l → lease_background_cleanup env m = Some (m', Ok keys) →
  (∀ k, data m' !! k = if decide (k ∈ keys) then None else data m !! k)
  ∧ ((m' = m ∧ keys = [] ∧ TtlLease.may_have_expired_keys (wall_now env) l = false)
     ∨ ((∀ k, k ∈ keys ↔ TtlLease.is_expired (wall_now env) k l = true)
        ∧ key_to_expiry <$> lease m' = Some (TtlLease.unexpired (wall_now env) (key_to_expiry l)))).
Proof.
  intros Hl. unfold lease_background_cleanup. unfold mbind at 1, proc_bind at 1, get. rewrite Hl.
  destruct (TtlLease.may_have_expired_keys (wall_now env) l) eqn:Em.
  2: { assert (∀ k, data m !! k = if decide (k ∈ @nil bytes) then None else data m !! k) as Hnil.
       { intros k. rewrite decide_False; [done|]. by intros ?%elem_of_nil. }
       destruct (has_keys l); simpl; intros [= <- <-]; (split; [done|by left]). }
  assert (has_keys l = true) as ->.
  { revert Em. unfold TtlLease.may_have_expired_keys. by destruct (has_keys l). }
  cbn [negb]. destruct (TtlLease.get_expired_keys (wall_now env) l) as [ks l'] eqn:Eg.
  apply TtlLease.get_expired_keys_spec in Eg as (Hks & Hke & _).
  unfold mbind at 1, proc_bind at 1, modify at 1. destruct ks as [|k0 ks].
  - intros [= <- <-]. split; [|right; split; [done|simpl; by rewrite Hke]].
    intros k. rewrite decide_False; [done|]. by intros ?%elem_of_nil.
  - unfold set_data, persist_data, on_file, mbind, proc_bind, get, modify.
    destruct (data_io env); simpl; [done..|]. intros [= <- <-]. split.
    + intros k. simpl. apply (TtlLease.foldr_delete_lookup_keys (k0 :: ks)).
    + right. split; [done|]. simpl. by rewrite Hke.
Qed.

(** the leases a graceful [stop] writes are the ones [start] of the next process
    loads, without those that expired in between; the data files are not touched. *)
Theorem leases_survive_a_graceful_restart env env' l l2 m m1 m2 :
  lease m = Some l → stop env m = Some (m1, Ok tt) →
  lease m2 = Some l2 → ttl_state (disk m2) = ttl_state (disk m1) →
  state_data (disk m1) = state_data (disk m) ∧ wal_log (disk m1) = wal_log (disk m)
  ∧ ∃ m3 l3, start env' m2 = Some (m3, Ok tt) ∧ lease m3 = Some l3 ∧ data m3 = data m2 ∧ running m3 = true
      ∧ key_to_expiry l3 = TtlLease.unexpired (wall_now env') (key_to_expiry l)
      ∧ (∀ k t, key_to_expiry l3 !! k = Some t → has_keys l3 = true).
Proof.
  intros Hl Hstop Hl2 Htt. revert Hstop. unfold stop, on_file, mbind, proc_bind, modify, get. simpl. rewrite Hl.
  destruct (ttl_io env); simpl; [done..|]. intros [= <-]. simpl in *. split; [done|]. split; [done|].
  unfold start, load_lease_data, mbind, proc_bind, modify. simpl. rewrite Hl2, Htt. unfold TtlLease.reload, TtlLease.to_snapshot.
  rewrite bincode_round_trip. eexists _, _. split; [done|]. simpl. split_and!; [done..|].
  intros k t Hk. rewrite bool_decide_true; [done|]. intros E. by rewrite E in Hk.
Qed.

(** the loops that read the log and the checkpoint end before their bound: a larger
    bound does not change what they return, on any contents of the files. *)
Theorem recovery_loops_end la b extra :
  parse_wal (length b + extra) la 0 b = parse_wal (length b) la 0 b
  ∧ parse_data (length b + extra) 0 b = parse_data (length b) 0 b.
Proof. split; [apply parse_wal_fuel; lia|apply parse_data_fuel; lia]. Qed.
End properties.

(** ** Runs *)

Module FsmRuns.
#[global] Existing Instance countable_codec.
Definition lease_iter : MapIter bytes N := map_to_list_iter bytes N.
Definition kv_iter : MapIter bytes (bytes * N) := map_to_list_iter bytes (bytes * N).
#[global] Existing Instance lease_iter.
#[global] Existing Instance kv_iter.

(** Clocks at [now] seconds, and what becomes of the write to the log. *)
Definition env_at (now : N) (wal : io_outcome) : SmEnv :=
  mkSmEnv (λ _, now * nanos) (λ _, now * nanos) (now * nanos) 0 wal IoDone IoDone IoDone IoDone.

Definition no_files : Disk := mkDisk None None None None.

(** The state machine of an empty directory, with a lease manager. *)
Definition fresh : FileStateMachine :=
  mkFileStateMachine ∅ (Some TtlLease.new) (mkLogId 0 0) None true 0 0 no_files.

(** Set key 1, then swap it twice, the second time with a wrong expectation, then a batch. *)
Definition chunk1 : list ApplyEntry :=
  [mkApplyEntry 1 1 (Cmd.Insert [1] [10] None);
   mkApplyEntry 2 1 (Cmd.CompareAndSwap [1] (Some [10]) [11]);
   mkApplyEntry 3 1 (Cmd.CompareAndSwap [1] (Some [10]) [12]);
   mkApplyEntry 4 1 (Cmd.Batch [Cmd.BInsert [2] [20]; Cmd.BDelete [1]])].
End FsmRuns.
Import FsmRuns.

Lemma chunk_is_applied_serially_witness :
  ∃ m', apply_chunk (env_at 100 IoDone) chunk1 fresh
        = Some (m', Ok [mkApplyResult 1 true; mkApplyResult 2 true; mkApplyResult 3 false; mkApplyResult 4 true])
        ∧ data m' = {[ [2] := ([20], 1) ]}.
Proof.
  destruct (chunk_is_applied_serially (env_at 100 IoDone) chunk1 fresh) as (m' & r & Hrun & Hr & Hok);
    [reflexivity|reflexivity|].
  destruct (Hok eq_refl eq_refl eq_refl eq_refl) as [results ->]. destruct Hr as (-> & Hd & _).
  exists m'. split; [rewrite Hrun; vm_compute; reflexivity|]. rewrite Hd. vm_compute. reflexivity.
Defined.


(** Two registered keys, one of them expired. *)
Lemma cleanup_deletes_expired_keys_witness :
  ∃ m', lease_background_cleanup (env_at 50 IoDone)
          (with_kv {[ [1] := ([10], 1); [2] := ([20], 1) ]}
             (Some (mkTtlLease 0 {[ [1] := 40 * nanos; [2] := 60 * nanos ]} true)) fresh)
        = Some (m', Ok [[1]]) ∧ data m' !! [1] = None.
Proof.
  destruct (lease_background_cleanup _ _) as [[m' r]|] eqn:E; [|vm_compute in E; discriminate].
  assert (r = Ok [[1]]) as -> by (vm_compute in E; injection E as _ <-; reflexivity).
  exists m'. split; [done|].
  eapply cleanup_deletes_expired_keys in E as [-> _]; reflexivity.
Defined.

Lemma leases_survive_a_graceful_restart_witness :
  ∃ m3 l3, start (env_at 50 IoDone)
      (with_kv ∅ (Some TtlLease.new) fresh
        <| disk := mkDisk None None None (Some (TtlLease.to_snapshot (mkTtlLease 0 {[ [1] := 40 * nanos; [2] := 60 * nanos ]} true))) |>)
    = Some (m3, Ok tt) ∧ lease m3 = Some l3 ∧ key_to_expiry l3 !! [1] = None.
Proof.
  edestruct (leases_survive_a_graceful_restart (env_at 10 IoDone) (env_at 50 IoDone)
    (mkTtlLease 0 {[ [1] := 40 * nanos; [2] := 60 * nanos ]} true) TtlLease.new
    (with_kv ∅ (Some (mkTtlLease 0 {[ [1] := 40 * nanos; [2] := 60 * nanos ]} true)) fresh))
    as (_ & _ & m3 & l3 & Hrun & Hl & _ & _ & Hk & _); cycle 4.
  { exists m3, l3. split; [exact Hrun|]. split; [done|]. rewrite Hk. reflexivity. }
  all: reflexivity.
Defined.

(** * Executions of the file-based state machine that differ from its documentation

    Each theorem runs the code on a small input: what a restart makes of empty values,
    empty batches and expired keys, what happens to leases, and what applying entries a
    second time after a restart does to a compare-and-swap. *)

Import Fsm FsmRuns.

(** Apply chunks at second [now]; [None] if one of them does not return [Ok]. *)
Fixpoint apply_all (now : N) (chunks : list (list ApplyEntry)) (m : FileStateMachine) : option FileStateMachine :=
  match chunks with
  | [] => Some m
  | c :: cs => match apply_chunk (env_at now IoDone) c m with
               | Some (m', Ok _) => apply_all now cs m'
               | _ => None
               end
  end.

(** The process dies and a new one opens the directory at second [now]. *)
Definition crash_and_open (now : N) (m : FileStateMachine) : option (FileStateMachine * result unit) :=
  fsm_new (env_at now IoDone) (disk m).

Definition opened_get (now : N) (k : bytes) (m : FileStateMachine) : option (result (option bytes)) :=
  let! r := crash_and_open now m in Some (let? _ := r.2 in Ok (sm_get k r.1)).

Definition entry (i : N) (c : Cmd.Command) : ApplyEntry := mkApplyEntry i 1 c.

(** A key set to the empty value is present, and absent after a crash. *)
Theorem empty_value_is_lost :
  ∃ m, apply_all 0 [[entry 1 (Cmd.Insert [1] [] None)]] fresh = Some m
       ∧ sm_get [1] m = Some [] ∧ opened_get 0 [1] m = Some (Ok None).
Proof. eexists. split; [vm_compute; reflexivity|]. by vm_compute. Qed.

(** An empty batch writes a header without a record; what follows it is read from the
    wrong position, and an entry applied after it is lost in a crash. *)
Theorem empty_batch_corrupts_the_log :
  ∃ m, apply_all 0 [[entry 1 (Cmd.Batch [])]; [entry 2 (Cmd.Insert [1] [10] None)]] fresh = Some m
       ∧ sm_get [1] m = Some [10] ∧ opened_get 0 [1] m = Some (Ok None).
Proof. eexists. split; [vm_compute; reflexivity|]. by vm_compute. Qed.

(** A time to live beyond the range of [SystemTime] stops the apply of every replica. *)
Theorem huge_ttl_panics :
  apply_chunk (env_at 0 IoDone) [entry 1 (Cmd.Insert [1] [10] (Some u64_max))] fresh = None.
Proof. by vm_compute. Qed.

(** Setting a key again without a time to live keeps the old one: the key is deleted. *)
Theorem old_ttl_deletes_new_value :
  ∃ m m', apply_all 0 [[entry 1 (Cmd.Insert [1] [10] (Some 5))]; [entry 2 (Cmd.Insert [1] [11] None)]] fresh = Some m
       ∧ sm_get [1] m = Some [11]
       ∧ lease_background_cleanup (env_at 6 IoDone) m = Some (m', Ok [[1]]) ∧ sm_get [1] m' = None.
Proof. eexists _, _. split; [vm_compute; reflexivity|]. split; [by vm_compute|]. split; by vm_compute. Qed.

(** An insertion that expired before the restart is skipped instead of removing the key:
    the value it replaced comes back. *)
Theorem expired_insert_restores_old_value :
  ∃ m, apply_all 0 [[entry 1 (Cmd.Insert [1] [10] None)]; [entry 2 (Cmd.Insert [1] [11] (Some 5))]] fresh = Some m
       ∧ sm_get [1] m = Some [11] ∧ opened_get 6 [1] m = Some (Ok (Some [10])).
Proof. eexists. split; [vm_compute; reflexivity|]. by vm_compute. Qed.

(** The replay registers no expiration, because the lease manager is set only after the
    files are loaded: a key with a time to live never expires after a crash. *)
Theorem replay_forgets_ttl :
  ∃ m m', apply_all 0 [[entry 1 (Cmd.Insert [1] [10] (Some 5))]] fresh = Some m
       ∧ crash_and_open 1 m = Some (m', Ok tt)
       ∧ lease_background_cleanup (env_at 100 IoDone) (set_lease TtlLease.new m')
         = Some (set_lease TtlLease.new m', Ok [])
       ∧ sm_get [1] m' = Some [10].
Proof. eexists _, _. split; [vm_compute; reflexivity|]. split; [by vm_compute|]. split; by vm_compute. Qed.

(** The replay clears the log without a checkpoint. After a second crash the replayed entry
    is not on disk any more: the state machine is back at its last checkpoint. *)
Theorem second_crash_forgets_the_replay :
  ∃ m m', apply_all 0 [[entry 1 (Cmd.Insert [1] [10] None)]] fresh = Some m
       ∧ crash_and_open 1 m = Some (m', Ok tt) ∧ sm_get [1] m' = Some [10]
       ∧ opened_get 2 [1] m' = Some (Ok None).
Proof. eexists _, _. split; [vm_compute; reflexivity|]. split; [by vm_compute|]. split; by vm_compute. Qed.

(** A checkpoint that is cut after [state.data] was truncated. *)
Definition env_cut : SmEnv :=
  mkSmEnv (λ _, 0) (λ _, 0) 0 (11 * nanos) IoDone (WriteFailed 0) IoDone IoDone IoDone.

(** [persist_data_async] truncates the file it replaces. A key that an earlier checkpoint
    made durable is lost when a later checkpoint is interrupted, while the metadata still
    name the earlier checkpoint as applied. *)
Theorem interrupted_checkpoint_loses_data :
  ∃ m m1 m2 m3, apply_all 0 [[entry 1 (Cmd.Insert [1] [10] None)]] fresh = Some m
       ∧ checkpoint (env_at 0 IoDone) m = Some (m1, Ok tt) ∧ opened_get 1 [1] m1 = Some (Ok (Some [10]))
       ∧ apply_chunk env_cut [entry 2 (Cmd.Insert [2] [20] None)] m1 = Some (m2, Err IoError)
       ∧ crash_and_open 12 m2 = Some (m3, Ok tt)
       ∧ sm_get [1] m3 = None ∧ lid_index (sm_last_applied m3) = 1.
Proof.
  eexists _, _, _, _. split; [vm_compute; reflexivity|]. split; [by vm_compute|]. split; [by vm_compute|].
  split; [by vm_compute|]. split; [by vm_compute|]. split; by vm_compute.
Qed.

(** The replay restores the map but not the last applied index, so the entries are
    applied a second time, on the map that contains them: a compare-and-swap that failed
    before the crash succeeds, and the map differs from that of the other replicas. *)
Theorem reapplied_cas_diverges :
  let chunk := [entry 2 (Cmd.CompareAndSwap [1] (Some [11]) [12]); entry 3 (Cmd.CompareAndSwap [1] (Some [10]) [11])] in
  ∃ m0 m1 m2 m3,
    apply_all 0 [[entry 1 (Cmd.Insert [1] [10] None)]] fresh = Some m0
    ∧ sm_flush (env_at 0 IoDone) m0 = Some (m1, Ok tt)
    ∧ apply_all 0 [chunk] m1 = Some m2 ∧ sm_get [1] m2 = Some [11]
    ∧ crash_and_open 1 m2 = Some (m3, Ok tt) ∧ lid_index (sm_last_applied m3) = 1
    ∧ ∃ m4, apply_all 1 [chunk] m3 = Some m4 ∧ sm_get [1] m4 = Some [12].
Proof.
  eexists _, _, _, _. split; [vm_compute; reflexivity|]. split; [vm_compute; reflexivity|].
  split; [vm_compute; reflexivity|]. split; [by vm_compute|]. split; [vm_compute; reflexivity|].
  split; [by vm_compute|]. eexists. split; [vm_compute; reflexivity|]. by vm_compute.
Qed.

(** The leases of a snapshot are never loaded. *)
Theorem snapshot_leases_are_dropped :
  let source := with_kv {[ [1] := ([10], 1) ]} (Some (mkTtlLease 0 {[ [1] := 5 * nanos ]} true)) fresh in
  ∃ dir sum m',
    generate_snapshot_data (λ b, b) IoDone source = (dir, Ok sum)
    ∧ apply_snapshot_from_file (env_at 1 IoDone) (λ b, b) (mkSnapshotMetadata (Some (mkLogId 1 9)) sum) dir fresh
      = Some (m', Ok (Applied (mkLogId 1 9)))
    ∧ sm_get [1] m' = Some [10] ∧ lease m' = Some TtlLease.new.
Proof. eexists _, _, _. split; [vm_compute; reflexivity|]. split; [vm_compute; reflexivity|]. by vm_compute. Qed.

(** Ten unexpired keys at the front of the iteration hide an expired one, which stays
    readable. *)
Theorem sample_hides_expired_key :
  ∃ l m, lease_background_cleanup (env_at 50 IoDone) m = Some (m, Ok []) ∧ lease m = Some l
    ∧ TtlLease.is_expired (50 * nanos) [99] l = true ∧ sm_get [99] m = Some [1].
Proof.
  pose (ks := (λ i, [N.of_nat i]) <$> seq 0 30).
  exists (mkTtlLease 0 (<[ [99] := 40 * nanos ]> (list_to_map ((λ k, (k, 60 * nanos)) <$> ks))) true).
  exists (with_kv {[ [99] := ([1], 1) ]}
    (Some (mkTtlLease 0 (<[ [99] := 40 * nanos ]> (list_to_map ((λ k, (k, 60 * nanos)) <$> ks))) true)) fresh).
  split; [vm_compute; reflexivity|]. split; [done|]. split; by vm_compute.
Qed.
