(* ===== verification/SmWorker.v ===== *)
(** * The state machine worker

    [d-engine-core/src/state_machine_handler/{worker,writer,applied_state,command}.rs]
    and the watch broadcast of [default_state_machine_handler.rs]: the one task that
    mutates the state machine, the queue it serves, and the background tasks that
    capture local snapshots. The state machine is behind the interface [StateMachine],
    the trait of [d-engine-core/src/storage/state_machine.rs]. A task is a constructor
    of [Task] that names the point where it can be interleaved; the two mutexes are
    flags. *)

From stdpp Require Import base tactics numbers option list gmap strings.
From S2P Require Import Prelude Proc Types Events Commands.

(** ** The state machine interface *)

(** [S] is the state machine, [D] the contents of a snapshot directory. A run that gives
    [None] panics. *)
Class StateMachine (S D : Type) := {
  sm_apply : list ApplyEntry → S → option (S * result (list ApplyResult));
  sm_applied_id : S → LogId;
  sm_read : bytes → S → option bytes;
  sm_install : SnapshotMetadata → D → S → option (S * result SnapshotApplyResult);
  sm_generate : LogId → S → S * result (D * bytes);
}.

(** ** Watch events *)

Inductive WatchEventType := Put | DeleteEvent | Canceled | Progress.

Record WatchResponse := mkWatchResponse {
  wr_key : bytes;
  wr_value : bytes;
  wr_event_type : WatchEventType;
  wr_revision : N;
  wr_prev_value : bytes;
}.

(** [sm.get] behind the writes of the chunk so far. *)
Definition overlay_get (get : bytes → option bytes) (overlay : gmap bytes (option bytes)) (key : bytes)
    : option bytes :=
  match overlay !! key with Some v => v | None => get key end.

Fixpoint read_prev_values (get : bytes → option bytes) (overlay : gmap bytes (option bytes))
    (chunk : list ApplyEntry) : list (option bytes) :=
  match chunk with
  | [] => []
  | e :: chunk' =>
      match ae_command e with
      | Cmd.Insert key value _ =>
          Some (default [] (overlay_get get overlay key))
          :: read_prev_values get (<[key := Some value]> overlay) chunk'
      | Cmd.Delete key =>
          Some (default [] (overlay_get get overlay key))
          :: read_prev_values get (<[key := None]> overlay) chunk'
      | Cmd.CompareAndSwap key _ _ =>
          Some (default [] (overlay_get get overlay key)) :: read_prev_values get overlay chunk'
      | Cmd.Noop | Cmd.Batch _ => None :: read_prev_values get overlay chunk'
      end
  end.

(** The events of the [i]-th entry of a chunk. *)
Definition entry_events (e : ApplyEntry) (r : option ApplyResult) (prev : bytes) : list WatchResponse :=
  match ae_command e with
  | Cmd.Insert key value _ => [mkWatchResponse key value Put (ae_index e) prev]
  | Cmd.Delete key => [mkWatchResponse key [] DeleteEvent (ae_index e) prev]
  | Cmd.CompareAndSwap key _ value =>
      match r with
      | Some a => if apr_succeeded a then [mkWatchResponse key value Put (ae_index e) prev] else []
      | None => []
      end
  | Cmd.Noop => []
  | Cmd.Batch ops =>
      (λ o, match o with
            | Cmd.BInsert key value => mkWatchResponse key value Put (ae_index e) []
            | Cmd.BDelete key => mkWatchResponse key [] DeleteEvent (ae_index e) []
            end) <$> ops
  end.

Fixpoint broadcast_watch_events (i : nat) (chunk : list ApplyEntry) (results : list ApplyResult)
    (prev_values : option (list (option bytes))) : list WatchResponse :=
  match chunk with
  | [] => []
  | e :: chunk' =>
      let prev := default [] (prev_values ≫= (λ pv, mjoin (pv !! i))) in
      entry_events e (results !! i) prev ++ broadcast_watch_events (S i) chunk' results prev_values
  end.

(** ** Commands, tasks and state *)

Record PreparedSnapshot (D : Type) := mkPreparedSnapshot { ps_metadata : SnapshotMetadata; ps_dir : D }.
Record CapturedLocalSnapshot (D : Type) := mkCapturedLocalSnapshot { cs_metadata : SnapshotMetadata; cs_dir : D }.

Arguments mkPreparedSnapshot {D}.
Arguments ps_metadata {D}.
Arguments ps_dir {D}.
Arguments mkCapturedLocalSnapshot {D}.
Arguments cs_metadata {D}.
Arguments cs_dir {D}.

(** A response channel is a number. [LocalSnapshotReady] also carries the guard of
    [capture_cleanup_lock]. *)
Inductive StateMachineCommand (D : Type) :=
  | ApplyEntries (entries : list Entry)
  | InstallSnapshot (snapshot : PreparedSnapshot D) (response : N)
  | CaptureLocalSnapshot (response : N)
  | LocalSnapshotReady (captured : result (CapturedLocalSnapshot D)) (epoch_before : N) (response : N).

Arguments ApplyEntries {D}.
Arguments InstallSnapshot {D}.
Arguments CaptureLocalSnapshot {D}.
Arguments LocalSnapshotReady {D}.

(** The tasks a capture spawns: before it takes its locks, between the read of
    [last_applied] and the end of the export, and the removal of the directory of a
    superseded capture. *)
Inductive Task :=
  | TCapture (response : N)
  | TExport (last_included : LogId) (epoch_before : N) (response : N)
  | TCleanup (response : N).

Inductive WorkerReply (D : Type) :=
  | RInstall (r : result SnapshotApplyResult)
  | RCapture (r : result (CapturedLocalSnapshot D)).

Arguments RInstall {D}.
Arguments RCapture {D}.

Record Worker (S D : Type) := mkWorker {
  wk_machine : S;
  wk_applied : N;
  wk_queue : list (StateMachineCommand D);
  wk_alive : bool;
  wk_events : list InternalEvent;
  wk_events_open : bool;
  capture_install_lock : bool;
  capture_cleanup_lock : bool;
  install_epoch : N;
  wk_tasks : list Task;
  wk_replies : list (N * WorkerReply D);
  wk_watch : list WatchResponse;
  watch_event_tx : bool;
  prev_kv_watcher_count : N;
}.

Arguments mkWorker {S D}.
Arguments wk_machine {S D}.
Arguments wk_applied {S D}.
Arguments wk_queue {S D}.
Arguments wk_alive {S D}.
Arguments wk_events {S D}.
Arguments wk_events_open {S D}.
Arguments capture_install_lock {S D}.
Arguments capture_cleanup_lock {S D}.
Arguments install_epoch {S D}.
Arguments wk_tasks {S D}.
Arguments wk_replies {S D}.
Arguments wk_watch {S D}.
Arguments watch_event_tx {S D}.
Arguments prev_kv_watcher_count {S D}.

#[global] Instance Worker_settable {S D} : Settable (Worker S D) := λ w,
  mkWorker (wk_machine w) (wk_applied w) (wk_queue w) (wk_alive w) (wk_events w) (wk_events_open w)
    (capture_install_lock w) (capture_cleanup_lock w) (install_epoch w) (wk_tasks w) (wk_replies w)
    (wk_watch w) (watch_event_tx w) (prev_kv_watcher_count w).

(** ** Operations *)

Section worker.
Context {S D : Type} `{!StateMachine S D}.
Context (decode_write_command : bytes → option Wire.WriteCommand).
Abbreviation wk := (proc (Worker S D)).

(** [AppliedState::advance]. *)
Definition advance (next : N) : wk unit :=
  modify (λ w, if wk_applied w <? next then w <| wk_applied := next |> else w).

(** [internal_event_tx.send]. *)
Definition send_event (ev : InternalEvent) : wk bool := λ w,
  if wk_events_open w then Some (w <| wk_events ::= λ es, es ++ [ev] |>, Ok true) else Some (w, Ok false).

Definition respond (response : N) (r : WorkerReply D) : wk unit :=
  modify (λ w, w <| wk_replies ::= λ rs, rs ++ [(response, r)] |>).

Definition lift_machine {A} (f : S → option (S * result A)) : wk A := λ w,
  let! r := f (wk_machine w) in Some (w <| wk_machine := r.1 |>, r.2).

(** [DefaultStateMachineWriter::apply_chunk]. *)
Definition writer_apply_chunk (chunk : list Entry) : wk (list ApplyResult) :=
  match decode_entries decode_write_command chunk with
  | Err e => fail e
  | Ok apply_entries =>
      w ← get;
      let prev_values :=
        if watch_event_tx w && (0 <? prev_kv_watcher_count w)
        then Some (read_prev_values (λ k, sm_read k (wk_machine w)) ∅ apply_entries) else None in
      results ← lift_machine (sm_apply apply_entries);
      (if watch_event_tx w
       then modify (λ w, w <| wk_watch ::= λ ev, ev ++ broadcast_watch_events 0 apply_entries results prev_values |>)
       else mret tt);;
      (match last chunk with Some e => advance (e_index e) | None => mret tt end);;
      mret results
  end.

Definition install_prepared_snapshot (metadata : SnapshotMetadata) (dir : D) : wk SnapshotApplyResult :=
  r ← lift_machine (sm_install metadata dir);
  (match r with Applied id => advance (lid_index id) | _ => mret tt end);;
  mret r.

Definition apply_and_notify (entries : list Entry) : wk unit :=
  r ← attempt (writer_apply_chunk entries);
  match r with
  | Ok results =>
      match last results with
      | Some l =>
          sent ← send_event (ApplyCompleted (apr_index l) results);
          if (sent : bool) then mret tt else fail (Fatal "ApplyCompleted event send failed")
      | None => mret tt
      end
  | Err e => send_event (FatalError "StateMachine");; fail e
  end.

(** A command waits for the install lock; nothing else waits. *)
Definition can_handle (c : StateMachineCommand D) (w : Worker S D) : bool :=
  match c with InstallSnapshot _ _ => negb (capture_install_lock w) | _ => true end.

Definition handle_command (c : StateMachineCommand D) : wk unit :=
  match c with
  | ApplyEntries entries => apply_and_notify entries
  | InstallSnapshot snapshot response =>
      r ← attempt (install_prepared_snapshot (ps_metadata snapshot) (ps_dir snapshot));
      (match r with
       | Ok (Applied _) => modify (λ w, w <| install_epoch ::= λ e, wrapping_add_u64 e 1 |>)
       | _ => mret tt
       end);;
      respond response (RInstall r)
  | CaptureLocalSnapshot response => modify (λ w, w <| wk_tasks ::= λ ts, ts ++ [TCapture response] |>)
  | LocalSnapshotReady captured epoch_before response =>
      match captured with
      | Err e => modify (λ w, w <| capture_cleanup_lock := false |>);; respond response (RCapture (Err e))
      | Ok c =>
          w ← get;
          if install_epoch w =? epoch_before
          then modify (λ w, w <| capture_cleanup_lock := false |>);; respond response (RCapture (Ok c))
          else modify (λ w, w <| wk_tasks ::= λ ts, ts ++ [TCleanup response] |>)
      end
  end.

(** A dropped queue drops the guards in it. *)
Definition holds_guard (c : StateMachineCommand D) : bool :=
  match c with LocalSnapshotReady _ _ _ => true | _ => false end.

(** One round of the worker's loop: [None] is a panic. *)
Definition worker_step (w : Worker S D) : option (Worker S D) :=
  match wk_queue w with
  | c :: q =>
      if wk_alive w && can_handle c w then
        let! r := handle_command c (w <| wk_queue := q |>) in
        match r.2 with
        | Ok _ => Some r.1
        | Err _ =>
            let w' := r.1 in
            Some (w' <| wk_alive := false |> <| wk_queue := [] |>
                     <| capture_cleanup_lock := capture_cleanup_lock w' && negb (existsb holds_guard (wk_queue w')) |>)
        end
      else Some w
  | [] => Some w
  end.

(** *** Background tasks *)

(** [cleanup_lock.try_lock_owned()], then [write_lock.try_lock_owned()], then the read of
    the epoch and of [last_applied]. *)
Definition capture_begin (response : N) (w : Worker S D) : Worker S D * option Task :=
  if capture_cleanup_lock w || capture_install_lock w
  then (w <| wk_replies ::= λ rs, rs ++ [(response, RCapture (Err CaptureSkipped))] |>, None)
  else (w <| capture_cleanup_lock := true |> <| capture_install_lock := true |>,
        Some (TExport (sm_applied_id (wk_machine w)) (install_epoch w) response)).

(** The rest of [capture_local_snapshot]; [io] is whether the stale directory could be
    removed and the exported one found. The install lock is released, and the result goes
    through the worker's own queue with the cleanup guard. *)
Definition capture_end (io : bool) (id : LogId) (epoch_before response : N) (w : Worker S D) : Worker S D :=
  let '(w1, captured) :=
    if io then
      let '(m, r) := sm_generate id (wk_machine w) in
      (w <| wk_machine := m |>,
       let? p := r in Ok (mkCapturedLocalSnapshot (mkSnapshotMetadata (Some id) p.2) p.1))
    else (w, Err (SnapshotFailed "Failed to remove stale temp directory")) in
  let w2 := w1 <| capture_install_lock := false |> in
  if wk_alive w2
  then w2 <| wk_queue ::= λ q, q ++ [LocalSnapshotReady captured epoch_before response] |>
  else w2 <| capture_cleanup_lock := false |>.

(** The directory of a superseded capture is removed before the caller hears of it. *)
Definition capture_cleanup (io : bool) (response : N) (w : Worker S D) : Worker S D :=
  w <| wk_replies ::= λ rs, rs ++ [(response, RCapture (Err (if io then CaptureSuperseded
                                     else SnapshotFailed "capture superseded, but failed to remove its directory")))] |>
    <| capture_cleanup_lock := false |>.

(** Run the [i]-th task to its next point of interleaving. *)
Definition task_step (i : nat) (io : bool) (w : Worker S D) : Worker S D :=
  match wk_tasks w !! i with
  | None => w
  | Some t =>
      let rest := w <| wk_tasks ::= λ ts, take i ts ++ drop (Datatypes.S i) ts |> in
      match t with
      | TCapture response =>
          match capture_begin response rest with
          | (w', None) => w'
          | (w', Some t') => w' <| wk_tasks ::= λ ts, ts ++ [t'] |>
          end
      | TExport id epoch response => capture_end io id epoch response rest
      | TCleanup response => capture_cleanup io response rest
      end
  end.

(** [StateMachineCommandSender]: a send fails once the worker is gone. *)
Definition send_command (c : StateMachineCommand D) : wk unit := λ w,
  if wk_alive w then Some (w <| wk_queue ::= λ q, q ++ [c] |>, Ok tt) else Some (w, Err WorkerUnavailable).

Definition sender_apply_entries (entries : list Entry) : wk unit := send_command (ApplyEntries entries).
Definition sender_install_snapshot (s : PreparedSnapshot D) (response : N) : wk unit :=
  send_command (InstallSnapshot s response).
Definition sender_capture_local_snapshot (response : N) : wk unit := send_command (CaptureLocalSnapshot response).
End worker.
