(* ===== verification/CommitHandler.v ===== *)
(** * From commit to apply

    [d-engine-core/src/commit_handler/default_commit_handler.rs] and the part of
    [state_machine_handler/default_state_machine_handler.rs] it uses: commit
    notifications move the pending index, a batch reads the entries between the applied
    and the pending index from the log, hands them to the state machine worker, and
    applies configuration changes to the membership, which is behind the interface
    [ConfigTarget]. [Pipeline] is the handler with everything it shares: the log, the
    worker and the membership. *)

From stdpp Require Import base tactics numbers option list gmap strings.
From S2P Require Import Prelude Proc Types Events TermSegments BufferedLog Commands SmWorker.

(** What the commit handler uses of [Membership]. *)
Class ConfigTarget (M : Type) := {
  ct_apply_config_change : MembershipChange → M → option (M * result unit);
  ct_notify_config_applied : N → M → M;
}.

Record Pipeline (S D M : Type) := mkPipeline {
  pl_my_id : N;
  pl_my_role : N;
  pl_my_current_term : N;
  pl_max_batch_size : nat;
  pl_log : LogMem;
  pl_pending_commit : N;
  pl_commits : list NewCommitData;
  pl_worker : Worker S D;
  pl_membership : M;
}.

Arguments mkPipeline {S D M}.
Arguments pl_my_id {S D M}.
Arguments pl_my_role {S D M}.
Arguments pl_my_current_term {S D M}.
Arguments pl_max_batch_size {S D M}.
Arguments pl_log {S D M}.
Arguments pl_pending_commit {S D M}.
Arguments pl_commits {S D M}.
Arguments pl_worker {S D M}.
Arguments pl_membership {S D M}.

#[global] Instance Pipeline_settable {S D M} : Settable (Pipeline S D M) := λ p,
  mkPipeline (pl_my_id p) (pl_my_role p) (pl_my_current_term p) (pl_max_batch_size p) (pl_log p)
    (pl_pending_commit p) (pl_commits p) (pl_worker p) (pl_membership p).

Section commit_handler.
Context {S D M : Type} `{!StateMachine S D} `{!ConfigTarget M}.
Context (decode_write_command : bytes → option Wire.WriteCommand).
Abbreviation pl := (proc (Pipeline S D M)).

(** [pending_range]. *)
Definition pending_range (p : Pipeline S D M) : option (N * N) :=
  let last_applied := wk_applied (pl_worker p) in
  if last_applied <? pl_pending_commit p then Some (last_applied + 1, pl_pending_commit p) else None.

(** [update_pending]: the compare-and-exchange loop leaves the maximum. *)
Definition update_pending (new_commit : N) : pl unit :=
  modify (λ p, if pl_pending_commit p <? new_commit then p <| pl_pending_commit := new_commit |> else p).

(** Run an operation of the worker's channel or of the membership. *)
Definition on_worker {A} (f : proc (Worker S D) A) : pl A := λ p,
  let! r := f (pl_worker p) in Some (p <| pl_worker := r.1 |>, r.2).

Definition on_members (f : M → option (M * result unit)) : pl unit := λ p,
  let! r := f (pl_membership p) in Some (p <| pl_membership := r.1 |>, r.2).

Definition is_self_removal_config (my_id : N) (change : MembershipChange) : bool :=
  match mc_change change with Some (RemoveNode id) => id =? my_id | _ => false end.

Definition apply_config_change (entry : Entry) : pl unit :=
  match e_payload entry ≫= ep_payload with
  | Some (Config change) =>
      my_id ← gets pl_my_id;
      on_members (ct_apply_config_change change);;
      modify (λ p, p <| pl_membership ::= ct_notify_config_applied (e_index entry) |>);;
      on_worker (send_event MembershipApplied);;
      (if is_self_removal_config my_id change
       then on_worker (send_event StepDownSelfRemoved);; mret tt else mret tt)
  | _ => mret tt
  end.

Definition send_to_sm_worker (batch : list Entry) : pl unit :=
  match batch with [] => mret tt | _ => on_worker (sender_apply_entries batch) end.

(** The loop of [process_batch]: the commands not yet sent and the first error of a
    configuration change. *)
Fixpoint process_entries (entries command_batch : list Entry) (last_error : option error)
    : pl (list Entry * option error) :=
  match entries with
  | [] => mret (command_batch, last_error)
  | entry :: rest =>
      match e_payload entry with
      | None => process_entries rest command_batch last_error
      | Some payload =>
          match ep_payload payload with
          | Some (Command _) => process_entries rest (command_batch ++ [entry]) last_error
          | Some (Config _) =>
              send_to_sm_worker (command_batch ++ [entry]);;
              err ← (match last_error with
                     | Some e => mret (Some e)
                     | None => r ← attempt (apply_config_change entry);
                               mret (match r with Ok _ => None | Err e => Some e end)
                     end);
              process_entries rest [] err
          | Some Noop =>
              send_to_sm_worker (command_batch ++ [entry]);;
              process_entries rest [] last_error
          | None => panic
          end
      end
  end.

Definition process_batch : pl unit :=
  p ← get;
  match pending_range p with
  | None => mret tt
  | Some (lo, hi) =>
      r ← process_entries (get_entries_range (pl_log p) lo hi) [] None;
      match r.2 with
      | Some e => fail e
      | None => send_to_sm_worker r.1
      end
  end.

Definition note_commit (d : NewCommitData) : pl unit :=
  update_pending (new_commit_index d);;
  modify (λ p, p <| pl_my_current_term := ncd_current_term d |> <| pl_my_role := ncd_role d |>).

(** One round of [run] when a notification is there: the first one, up to
    [max_batch_size - 1] more, then the batch; its error is only logged. *)
Definition commit_round : pl unit :=
  p ← get;
  match pl_commits p with
  | [] => mret tt
  | d :: rest =>
      let more := take (pl_max_batch_size p - 1) rest in
      modify (λ p, p <| pl_commits := drop (length more) rest |>);;
      for_each note_commit (d :: more);;
      attempt process_batch;;
      mret tt
  end.

(** ** Interleavings *)

(** What can happen next: the handler's round, the worker's round, a background task, or
    a notification from the raft loop together with what its log is by then. *)
Inductive action :=
  | ACommitRound
  | AWorkerRound
  | ATask (i : nat) (io : bool)
  | ANotify (log : LogMem) (d : NewCommitData)
  | ASend (c : StateMachineCommand D).

Definition pipeline_step (a : action) (p : Pipeline S D M) : option (Pipeline S D M) :=
  match a with
  | ACommitRound => fst <$> commit_round p
  | AWorkerRound => let! w := worker_step decode_write_command (pl_worker p) in Some (p <| pl_worker := w |>)
  | ATask i io => Some (p <| pl_worker ::= task_step i io |>)
  | ANotify log d => Some (p <| pl_log := log |> <| pl_commits ::= λ cs, cs ++ [d] |>)
  | ASend c => let! r := send_command c (pl_worker p) in Some (p <| pl_worker := r.1 |>)
  end.

Fixpoint pipeline_run (acts : list action) (p : Pipeline S D M) : option (Pipeline S D M) :=
  match acts with
  | [] => Some p
  | a :: acts' => let! p' := pipeline_step a p in pipeline_run acts' p'
  end.
End commit_handler.
Arguments action : clear implicits.
