(* ===== verification/PipelineSpec.v ===== *)
(** * What the commit pipeline hands to the state machine

    The committed log as a function of the index, the entries a run of the pipeline
    hands to the state machine ([handed]), and the lemmas on the operations of
    [CommitHandler.v] and [SmWorker.v] that relate the two. *)

From stdpp Require Import base tactics numbers option list gmap strings.
From S2P Require Import Prelude Proc Types Events TermSegments BufferedLog Commands SmWorker CommitHandler.

(** ** The committed log *)

Section committed.
Context (clog : N → Entry).

(** The entries [lo], .., [lo + n - 1]. *)
Fixpoint run_of (lo : N) (n : nat) : list Entry :=
  match n with O => [] | S n' => clog lo :: run_of (lo + 1) n' end.

Lemma run_of_app lo n1 n2 : run_of lo (n1 + n2) = run_of lo n1 ++ run_of (lo + N.of_nat n1) n2.
Proof.
  revert lo. induction n1 as [|n1 IH]; intros lo; simpl; [by rewrite N.add_0_r|].
  rewrite IH. do 3 f_equal. lia.
Qed.

Lemma length_run_of lo n : length (run_of lo n) = n.
Proof. revert lo. induction n as [|n IH]; intros lo; simpl; [done|]. by rewrite IH. Qed.

Lemma elem_of_run_of lo n e : e ∈ run_of lo n ↔ ∃ i, lo <= i ∧ i < lo + N.of_nat n ∧ e = clog i.
Proof.
  revert lo. induction n as [|n IH]; intros lo; simpl.
  - rewrite elem_of_nil. split; [done|]. intros (i & ? & ? & _). lia.
  - rewrite elem_of_cons, IH. split.
    + intros [->|(i & ? & ? & ->)]; [exists lo|exists i]; (split; [lia|split; [lia|done]]).
    + intros (i & ? & ? & ->). destruct (decide (i = lo)) as [->|]; [by left|right].
      exists i. split; [lia|split; [lia|done]].
Qed.

Lemma last_run_of lo n e : last (run_of lo n) = Some e → e = clog (lo + N.of_nat n - 1).
Proof.
  destruct n as [|n]; [done|]. replace (S n) with (n + 1)%nat by lia. rewrite run_of_app. simpl.
  rewrite last_snoc. intros [= <-]. f_equal. lia.
Qed.

(** A prefix and the rest of a run are runs. *)
Lemma run_of_split lo n l1 l2 :
  run_of lo n = l1 ++ l2 →
  l1 = run_of lo (length l1) ∧ l2 = run_of (lo + N.of_nat (length l1)) (length l2).
Proof.
  revert lo n. induction l1 as [|x l1 IH]; intros lo n E; simpl in *.
  { rewrite <-E, length_run_of, N.add_0_r. done. }
  destruct n as [|n]; [done|]. injection E as <- E. apply IH in E as [E1 E2]. split; [by f_equal|].
  rewrite E2 at 1. f_equal. lia.
Qed.

(** The log [m] holds the committed entries after [a0] up to [c]. *)
Definition holds_committed (a0 c : N) (m : LogMem) : Prop :=
  ∀ i, a0 < i → i <= c → entries m !! i = Some (clog i).

(** What the log [m] has of these entries is committed; a purged entry is not there. *)
Definition agrees_committed (a0 c : N) (m : LogMem) : Prop :=
  ∀ i e, a0 < i → i <= c → entries m !! i = Some e → e = clog i.

Lemma range_is_committed a0 c m lo hi e :
  agrees_committed a0 c m → a0 < lo → hi <= c → e ∈ get_entries_range m lo hi →
  ∃ i, lo <= i ∧ i <= hi ∧ e = clog i.
Proof.
  intros Hm Hlo Hhi ([i x] & -> & (? & ? & Hi)%elem_of_om_range)%list_elem_of_fmap. simpl in *.
  exists i. split_and!; [done..|]. eapply Hm; [..|done]; lia.
Qed.

Lemma range_is_run a0 c m lo hi n :
  holds_committed a0 c m → a0 < lo → hi <= c → hi + 1 = lo + N.of_nat n →
  get_entries_range m lo hi = run_of lo n.
Proof.
  intros Hm Hlo Hhi Hn. unfold get_entries_range. rewrite (om_range_slice _ _ _ _ Hn).
  revert lo Hlo Hn. induction n as [|n IH]; intros lo Hlo Hn; simpl; [done|].
  rewrite Hm by lia. csimpl. f_equal. apply IH; lia.
Qed.
End committed.

(** ** Runs of the pipeline *)

Section pipeline.
Context {S D M : Type} `{!StateMachine S D} `{!ConfigTarget M}.
Context (decode_write_command : bytes → option Wire.WriteCommand).

(** The entries waiting in the worker's queue. *)
Definition queued (q : list (StateMachineCommand D)) : list Entry :=
  q ≫= λ c, match c with ApplyEntries es => es | _ => [] end.

Lemma queued_app q1 q2 : queued (q1 ++ q2) = queued q1 ++ queued q2.
Proof. apply bind_app. Qed.

(** The entries an action hands to the state machine. *)
Definition handed_by (a : action D) (p : Pipeline S D M) : list Entry :=
  match a, wk_queue (pl_worker p) with
  | AWorkerRound, ApplyEntries es :: _ => if wk_alive (pl_worker p) then es else []
  | _, _ => []
  end.

(** A schedule whose steps satisfy [ok], with the entries it hands over. *)
Inductive handed (ok : action D → Pipeline S D M → Prop)
    : list (action D) → Pipeline S D M → list Entry → Pipeline S D M → Prop :=
  | handed_nil p : handed ok [] p [] p
  | handed_snoc acts a p es p1 p2 :
      handed ok acts p es p1 → ok a p1 → pipeline_step decode_write_command a p1 = Some p2 →
      handed ok (acts ++ [a]) p (es ++ handed_by a p1) p2.

(** The same, computed. *)
Fixpoint run_handed (acts : list (action D)) (p : Pipeline S D M) : option (list Entry * Pipeline S D M) :=
  match acts with
  | [] => Some ([], p)
  | a :: acts' =>
      let! p1 := pipeline_step decode_write_command a p in
      let! r := run_handed acts' p1 in
      Some (handed_by a p ++ r.1, r.2)
  end.

Fixpoint all_ok (ok : action D → Pipeline S D M → Prop) (acts : list (action D)) (p : Pipeline S D M) : Prop :=
  match acts with
  | [] => True
  | a :: acts' => ok a p ∧ match pipeline_step decode_write_command a p with
                           | Some p1 => all_ok ok acts' p1
                           | None => True
                           end
  end.

Lemma all_ok_cons (ok : action D → Pipeline S D M → Prop) a acts p p1 :
  ok a p → pipeline_step decode_write_command a p = Some p1 → all_ok ok acts p1 → all_ok ok (a :: acts) p.
Proof. intros Ha Hs Hok. simpl. by rewrite Hs. Qed.

Lemma handed_cons ok a p p1 acts es p2 :
  ok a p → pipeline_step decode_write_command a p = Some p1 → handed ok acts p1 es p2 →
  handed ok (a :: acts) p (handed_by a p ++ es) p2.
Proof.
  intros Ha Hs H. induction H as [p1|acts b p1 es p2 p3 H IH Hok Hs'].
  - rewrite app_nil_r. exact (handed_snoc ok [] a p [] p p1 (handed_nil ok p) Ha Hs).
  - rewrite app_assoc. apply (handed_snoc ok (a :: acts) b p _ p2 p3); [by apply IH|done..].
Qed.

Lemma run_handed_sound ok acts p es p' :
  all_ok ok acts p → run_handed acts p = Some (es, p') → handed ok acts p es p'.
Proof.
  revert p es. induction acts as [|a acts IH]; intros p es; simpl; [intros _ [= <- <-]; constructor|].
  destruct (pipeline_step _ a p) as [p1|] eqn:E; simpl; [|done]. intros [Ha Hok].
  destruct (run_handed acts p1) as [[es1 p2]|] eqn:E1; simpl; [|done]. intros [= <- <-].
  eapply handed_cons; [done..|]. by apply IH.
Qed.

(** The highest commit index the pipeline has heard of. *)
Definition announced (p : Pipeline S D M) : N :=
  foldr N.max (pl_pending_commit p) (new_commit_index <$> pl_commits p).

(** ** Sending a batch *)

Lemma send_alive (c : StateMachineCommand D) (w : Worker S D) :
  wk_alive w = true → send_command c w = Some (w <| wk_queue ::= λ q, q ++ [c] |>, Ok tt).
Proof. unfold send_command. by intros ->. Qed.

(** What the commit handler changes: the queue grows by batches; the rest that matters
    to the worker stays. *)
Record sends (p : Pipeline S D M) (es : list Entry) (p' : Pipeline S D M) : Prop := {
  se_queue : ∃ bs, wk_queue (pl_worker p') = wk_queue (pl_worker p) ++ (ApplyEntries <$> bs) ∧ es = concat bs;
  se_dead : wk_alive (pl_worker p) = false → es = [];
  se_applied : wk_applied (pl_worker p') = wk_applied (pl_worker p);
  se_alive : wk_alive (pl_worker p') = wk_alive (pl_worker p);
  se_pending : pl_pending_commit p' = pl_pending_commit p;
  se_log : pl_log p' = pl_log p;
  se_commits : pl_commits p' = pl_commits p;
  se_batch : pl_max_batch_size p' = pl_max_batch_size p;
}.

Lemma sends_nil p : sends p [] p.
Proof. split; try done. exists []. by rewrite app_nil_r. Qed.

Lemma sends_trans p1 es1 p2 es2 p3 : sends p1 es1 p2 → sends p2 es2 p3 → sends p1 (es1 ++ es2) p3.
Proof.
  intros [(bs1 & Hq1 & ->) Hd1 ? Ha1] [(bs2 & Hq2 & ->) Hd2]. split; try congruence.
  2: { intros Hd. rewrite Hd1, Hd2 by congruence. done. }
  exists (bs1 ++ bs2). rewrite Hq2, Hq1, fmap_app, app_assoc, concat_app. done.
Qed.

Lemma sends_events p ev p' r : on_worker (send_event ev) p = Some (p', r) → sends p [] p'.
Proof.
  unfold on_worker, send_event. destruct (wk_events_open _); simpl; intros [= <- <-];
    (split; try done; exists []; by rewrite app_nil_r).
Qed.

Lemma send_to_sm_worker_sends batch p p' r :
  send_to_sm_worker batch p = Some (p', r) →
  match r with
  | Ok _ => sends p batch p'
  | Err _ => p' = p ∧ wk_alive (pl_worker p) = false
  end.
Proof.
  unfold send_to_sm_worker, on_worker, sender_apply_entries, send_command.
  destruct batch as [|e batch]; [intros [= <- <-]; apply sends_nil|].
  destruct (wk_alive (pl_worker p)) eqn:Ea; simpl; intros [= <- <-]; [|by destruct p].
  split; simpl; try done; [|by rewrite Ea]. exists [e :: batch]. split; [done|]. simpl. by rewrite app_nil_r.
Qed.

Lemma apply_config_change_sends e p p' r : apply_config_change e p = Some (p', r) → sends p [] p'.
Proof.
  unfold apply_config_change. destruct (e_payload e ≫= ep_payload) as [[| |change]|];
    try (intros [= <- <-]; apply sends_nil).
  intros H. apply bind_inv in H as (p1 & r1 & [= <- <-] & H).
  apply bind_inv in H as (p2 & r2 & H2 & H).
  assert (sends p [] p2) as Hs2.
  { revert H2. unfold on_members. destruct (ct_apply_config_change _ _) as [[m rm]|]; [|done]. intros [= <- <-].
    split; try done. exists []. by rewrite app_nil_r. }
  destruct r2; [|by destruct H as [-> ->]].
  apply bind_inv in H as (p3 & r3 & [= <- <-] & H).
  apply bind_inv in H as (p4 & r4 & H4 & H). apply sends_events in H4.
  assert (sends p [] p4) as Hs4.
  { destruct Hs2, H4. split; simpl in *; try congruence. destruct se_queue1 as (bs1 & Hb1 & E1), se_queue0 as (bs0 & Hb0 & E0).
    exists (bs0 ++ bs1). rewrite Hb1, Hb0, fmap_app, app_assoc, concat_app, <-E0, <-E1. done. }
  destruct r4; [|by destruct H as [-> ->]].
  destruct (is_self_removal_config _ _); [|by intros; injection H as <- <-].
  apply bind_inv in H as (p5 & r5 & H5 & H). apply sends_events in H5.
  assert (p' = p5) as -> by (destruct r5; [by injection H|by destruct H]).
  exact (sends_trans _ _ _ _ _ Hs4 H5).
Qed.

(** ** A batch *)

(** Entries as the log has them: with a payload. *)
Definition has_payload (e : Entry) : Prop := is_Some (e_payload e ≫= ep_payload).

Lemma process_entries_sends es batch err p p' r :
  Forall has_payload es → process_entries es batch err p = Some (p', r) →
  ∃ sent rest, batch ++ es = sent ++ rest ∧ sends p sent p'
    ∧ match r with Ok (kept, _) => kept = rest | Err _ => True end.
Proof.
  intros Hes. revert batch err p. induction Hes as [|e es He Hes IH]; intros batch err p; simpl.
  { intros [= <- <-]. exists [], batch. split; [by rewrite app_nil_r|]. split; [apply sends_nil|done]. }
  assert (∀ err' p1, sends p (batch ++ [e]) p1 → process_entries es [] err' p1 = Some (p', r) →
    ∃ sent rest, batch ++ e :: es = sent ++ rest ∧ sends p sent p'
      ∧ match r with Ok (kept, _) => kept = rest | Err _ => True end) as Hnext.
  { intros err' p1 Hs1 (sent & rest & Hes' & Hs & Hr)%IH. simpl in Hes'. subst es.
    exists (batch ++ [e] ++ sent), rest. split; [by rewrite <-!app_assoc|]. split; [|done].
    rewrite app_assoc. by eapply sends_trans. }
  assert (∀ k, (send_to_sm_worker (batch ++ [e]) ≫= k) p = Some (p', r) →
    (∀ p1, sends p (batch ++ [e]) p1 → k tt p1 = Some (p', r) →
      ∃ sent rest, batch ++ e :: es = sent ++ rest ∧ sends p sent p'
        ∧ match r with Ok (kept, _) => kept = rest | Err _ => True end) →
    ∃ sent rest, batch ++ e :: es = sent ++ rest ∧ sends p sent p'
      ∧ match r with Ok (kept, _) => kept = rest | Err _ => True end) as Hsend.
  { intros k (p1 & r1 & H1%send_to_sm_worker_sends & H2)%bind_inv Hk. destruct r1 as [[]|e1].
    - by apply (Hk p1).
    - destruct H1 as [-> _], H2 as [-> ->]. exists [], (batch ++ e :: es). split; [done|]. split; [apply sends_nil|done]. }
  destruct He as [pay Hpay]. destruct (e_payload e) as [[pp]|]; [|done]. simpl in *. subst pp.
  destruct pay as [|data|change].
  - intros H. apply (Hsend _ H). intros p1 Hs1. by apply Hnext.
  - intros (sent & rest & E & Hs)%IH. exists sent, rest. rewrite <-app_assoc in E. done.
  - intros H. apply (Hsend _ H). intros p1 Hs1 H1. apply bind_inv in H1 as (p2 & r2 & H2 & H1).
    assert (sends p1 [] p2) as Hs2.
    { destruct err as [e0|]; [injection H2 as <- <-; apply sends_nil|].
      apply bind_inv in H2 as (p3 & r3 & H3 & H2). unfold attempt in H3.
      destruct (apply_config_change e p1) as [[p4 r4]|] eqn:E4; [|done]. injection H3 as <- <-.
      injection H2 as <- <-. by apply apply_config_change_sends in E4. }
    assert (sends p (batch ++ [e]) p2) as Hs12 by (rewrite <-(app_nil_r (batch ++ [e])); by eapply sends_trans).
    destruct r2 as [err'|e2]; [by apply (Hnext err' p2)|]. destruct H1 as [-> ->].
    exists (batch ++ [e]), es. split; [by rewrite <-app_assoc|]. done.
Qed.

(** A batch sends a prefix of the pending range. *)
Lemma process_batch_sends p p' r :
  (∀ lo hi, pending_range p = Some (lo, hi) → Forall has_payload (get_entries_range (pl_log p) lo hi)) →
  process_batch p = Some (p', r) →
  ∃ sent, sends p sent p' ∧
    match pending_range p with
    | None => sent = []
    | Some (lo, hi) => sent `prefix_of` get_entries_range (pl_log p) lo hi
    end.
Proof.
  intros Hpay H. apply bind_inv in H as (p1 & r1 & [= <- <-] & H).
  destruct (pending_range p) as [[lo hi]|].
  2: { injection H as <- <-. exists []. split; [apply sends_nil|done]. }
  apply bind_inv in H as (p2 & r2 & H2 & H).
  apply process_entries_sends in H2 as (sent & rest & E & Hs & Hr); [|by apply Hpay]. simpl in E.
  destruct r2 as [[kept err]|e2].
  - subst kept. simpl in H. destruct err as [e0|].
    + injection H as <- <-. exists sent. split; [done|]. by exists rest.
    + apply send_to_sm_worker_sends in H. destruct r as [u|e0].
      * exists (sent ++ rest). split; [by eapply sends_trans|]. by rewrite E.
      * destruct H as [-> _]. exists sent. split; [done|]. by exists rest.
  - destruct H as [-> ->]. exists sent. split; [done|]. by exists rest.
Qed.
(** ** A round of the commit handler *)

Lemma foldr_max_ge (x : N) l : x <= foldr N.max x l.
Proof. induction l; simpl; lia. Qed.

Lemma foldr_max_app (x : N) l1 l2 : foldr N.max x (l1 ++ l2) = foldr N.max (foldr N.max x l1) l2.
Proof.
  revert x. induction l1 as [|y l1 IH]; intros x; simpl; [done|]. rewrite IH.
  assert (∀ l a, foldr N.max (N.max y a) l = N.max y (foldr N.max a l)) as ->; [|done].
  clear. induction l as [|z l IH]; intros a; simpl; [done|]. rewrite IH. lia.
Qed.

(** [note_commit] for several notifications. *)
Lemma note_commits_run ds (p : Pipeline S D M) :
  ∃ p', for_each note_commit ds p = Some (p', Ok tt)
    ∧ pl_pending_commit p' = foldr N.max (pl_pending_commit p) (new_commit_index <$> ds)
    ∧ pl_worker p' = pl_worker p ∧ pl_log p' = pl_log p ∧ pl_commits p' = pl_commits p
    ∧ pl_max_batch_size p' = pl_max_batch_size p.
Proof.
  assert (∀ d (p : Pipeline S D M), ∃ p', note_commit d p = Some (p', Ok tt)
    ∧ pl_pending_commit p' = N.max (new_commit_index d) (pl_pending_commit p)
    ∧ pl_worker p' = pl_worker p ∧ pl_log p' = pl_log p ∧ pl_commits p' = pl_commits p
    ∧ pl_max_batch_size p' = pl_max_batch_size p) as Hone.
  { clear. intros d p. unfold note_commit, update_pending, mbind, proc_bind, modify. simpl.
    eexists. split; [done|]. case_bool; simpl; (split; [lia|done]). }
  revert p. induction ds as [|d ds IH]; intros p; [by eexists|]. cbn [for_each]. unfold mbind, proc_bind.
  destruct (Hone d p) as (p1 & -> & Hp1 & Hw1 & Hl1 & Hc1 & Hb1).
  destruct (IH p1) as (p2 & -> & Hp2 & Hw2 & Hl2 & Hc2 & Hb2). exists p2. split; [done|].
  split_and!; [|congruence..]. rewrite Hp2, Hp1, fmap_cons. clear.
  induction (new_commit_index <$> ds) as [|z l IH]; simpl in *; lia.
Qed.

(** A round of the handler, as far as the worker is concerned. *)
Lemma commit_round_sends p p' r :
  commit_round p = Some (p', r) →
  (∀ (p1 : Pipeline S D M) lo hi, pl_log p1 = pl_log p → pl_worker p1 = pl_worker p → pl_pending_commit p1 <= announced p →
    pending_range p1 = Some (lo, hi) → Forall has_payload (get_entries_range (pl_log p) lo hi)) →
  ∃ sent, wk_applied (pl_worker p') = wk_applied (pl_worker p) ∧ wk_alive (pl_worker p') = wk_alive (pl_worker p)
    ∧ pl_log p' = pl_log p ∧ announced p' = announced p ∧ pl_pending_commit p <= pl_pending_commit p'
    ∧ (∃ bs, wk_queue (pl_worker p') = wk_queue (pl_worker p) ++ (ApplyEntries <$> bs) ∧ sent = concat bs)
    ∧ (wk_alive (pl_worker p) = false → sent = [])
    ∧ (sent = [] ∨ sent `prefix_of` get_entries_range (pl_log p) (wk_applied (pl_worker p) + 1) (pl_pending_commit p')
                   ∧ wk_applied (pl_worker p) < pl_pending_commit p').
Proof.
  intros H Hpay. apply bind_inv in H as (q & rq & [= <- <-] & H).
  destruct (pl_commits p) as [|d rest] eqn:Ec.
  { injection H as <- <-. exists []. split_and!; [done..| |done|by left]. exists []. by rewrite app_nil_r. }
  set (more := take (pl_max_batch_size p - 1) rest) in *.
  assert (rest = more ++ drop (length more) rest) as Erest.
  { rewrite <-(take_drop (pl_max_batch_size p - 1) rest) at 1. f_equal. unfold more. rewrite length_take.
    destruct (decide (pl_max_batch_size p - 1 <= length rest)%nat); [by rewrite Nat.min_l|].
    rewrite Nat.min_r, !drop_ge by lia. done. }
  apply bind_inv in H as (p1 & r1 & [= <- <-] & H).
  apply bind_inv in H as (p2 & r2 & H2 & H).
  destruct (note_commits_run (d :: more) (mkPipeline (pl_my_id p) (pl_my_role p) (pl_my_current_term p)
    (pl_max_batch_size p) (pl_log p) (pl_pending_commit p) (drop (length more) rest) (pl_worker p) (pl_membership p)))
    as (p2' & E2 & Hpend & Hw & Hl & Hcs & Hmb). rewrite E2 in H2. injection H2 as <- <-. simpl in *.
  apply bind_inv in H as (p3 & r3 & H3 & H). unfold attempt in H3.
  destruct (process_batch p2') as [[p4 r4]|] eqn:E4; [|done]. injection H3 as <- <-.
  injection H as <- <-.
  assert (announced p = announced p2') as Hann.
  { unfold announced. rewrite Ec, Hcs, Hpend, Erest at 1. rewrite app_comm_cons, fmap_app. apply foldr_max_app. }
  destruct (process_batch_sends p2' p4 r4) as (sent & [] & Hsent); [|done|].
  { intros lo hi Hr. rewrite Hl. eapply (Hpay p2'); [done..| |done]. rewrite Hann. apply foldr_max_ge. }
  exists sent. rewrite Hw in *. split_and!; try congruence.
  - unfold announced in *. by rewrite se_commits0, se_pending0.
  - rewrite se_pending0, Hpend. etrans; [apply foldr_max_ge|apply N.le_max_r].
  - exact se_dead0.
  - unfold pending_range in Hsent. rewrite Hw, Hl in Hsent. rewrite se_pending0.
    destruct (N.ltb_spec (wk_applied (pl_worker p)) (pl_pending_commit p2')); [by right|by left].
Qed.

(** ** The worker and its tasks *)

Definition is_install (c : StateMachineCommand D) : bool :=
  match c with InstallSnapshot _ _ => true | _ => false end.

(** [apply_and_notify] only advances the applied index to the end of the chunk. *)
Lemma apply_and_notify_run es w w' r :
  apply_and_notify decode_write_command es w = Some (w', r) →
  wk_queue w' = wk_queue w ∧ wk_alive w' = wk_alive w ∧ wk_applied w <= wk_applied w'
  ∧ ∀ u, r = Ok u → wk_applied w' = N.max (wk_applied w) (default 0 (e_index <$> last es)).
Proof.
  intros H. apply bind_inv in H as (w1 & r1 & H1 & H). unfold attempt in H1.
  destruct (writer_apply_chunk decode_write_command es w) as [[w2 r2]|] eqn:E2; [|done]. injection H1 as <- <-.
  assert (wk_queue w2 = wk_queue w ∧ wk_alive w2 = wk_alive w
    ∧ match r2 with
      | Ok _ => wk_applied w2 = N.max (wk_applied w) (default 0 (e_index <$> last es))
      | Err _ => wk_applied w2 = wk_applied w
      end) as (Hq & Ha & Hap).
  { revert E2. unfold writer_apply_chunk. destruct (decode_entries _ es) as [aes|e]; [|by intros [= <- <-]].
    intros (w3 & r3 & [= <- <-] & H3)%bind_inv. apply bind_inv in H3 as (w4 & r4 & H4 & H3).
    unfold lift_machine in H4. destruct (sm_apply aes (wk_machine w)) as [[m r5]|]; [|done].
    simpl in H4. injection H4 as <- <-. destruct r5 as [results|e]; [|by destruct H3 as [-> ->]].
    apply bind_inv in H3 as (w5 & r5 & H5 & H3).
    assert (wk_queue w5 = wk_queue w ∧ wk_alive w5 = wk_alive w ∧ wk_applied w5 = wk_applied w ∧ r5 = Ok tt)
      as (Hq5 & Ha5 & Hap5 & ->) by (destruct (watch_event_tx w); by injection H5 as <- <-).
    apply bind_inv in H3 as (w6 & r6 & H6 & H3). destruct (last es) as [e|].
    - unfold advance, modify in H6. injection H6 as <- <-. injection H3 as <- <-. simpl.
      destruct (N.ltb_spec (wk_applied w5) (e_index e)); simpl; split_and!; (done || lia).
    - injection H6 as <- <-. injection H3 as <- <-. simpl. split_and!; (done || lia). }
  destruct r2 as [results|e].
  - destruct (last results) as [l|]; [|injection H as <- <-; split_and!; (done || lia)].
    apply bind_inv in H as (w3 & r3 & H3 & H). unfold send_event in H3.
    destruct (wk_events_open w2); injection H3 as <- <-; injection H as <- <-; simpl; split_and!; (done || lia).
  - apply bind_inv in H as (w3 & r3 & H3 & H). unfold send_event in H3.
    destruct (wk_events_open w2); injection H3 as <- <-; injection H as <- <-; simpl; split_and!; (done || lia).
Qed.

(** A round of the worker: nothing, or the head of the queue is handled. If the worker
    dies the queue is gone. *)
Lemma worker_step_run w w' :
  worker_step decode_write_command w = Some w' →
  wk_applied w <= wk_applied w' ∧
  ((w' = w ∧ (wk_alive w = true → match wk_queue w with c :: _ => is_install c = true | [] => True end))
   ∨ ∃ c q, wk_queue w = c :: q ∧ wk_alive w = true
     ∧ ((wk_alive w' = true ∧ wk_queue w' = q) ∨ (wk_alive w' = false ∧ wk_queue w' = []))
     ∧ (is_install c = false → wk_alive w' = true →
        wk_applied w' = N.max (wk_applied w) match c with ApplyEntries es => default 0 (e_index <$> last es) | _ => 0 end)).
Proof.
  unfold worker_step. destruct (wk_queue w) as [|c q] eqn:Eq; [intros [= <-]; split; [lia|by left]|].
  destruct (wk_alive w) eqn:Ea; simpl; [|intros [= <-]; split; [lia|by left]].
  destruct (can_handle c w) eqn:Ec.
  2: { intros [= <-]. split; [lia|left]. split; [done|]. by destruct c. }
  destruct (handle_command decode_write_command c _) as [[w1 r1]|] eqn:E1; simpl; [|done].
  assert (wk_queue w1 = q ∧ wk_alive w1 = true ∧ wk_applied w <= wk_applied w1 ∧
    (is_install c = false → ∀ u, r1 = Ok u →
      wk_applied w1 = N.max (wk_applied w) match c with ApplyEntries es => default 0 (e_index <$> last es) | _ => 0 end))
    as (Hq & Ha & Hle & Hap).
  { destruct c as [es|snap resp|resp|captured ep resp]; simpl in E1.
    - apply apply_and_notify_run in E1 as (? & ? & ? & Hap). simpl in *. split_and!; [done|congruence|done|].
      intros _ u Hu. by apply (Hap u).
    - apply bind_inv in E1 as (w2 & r2 & H2 & E1). unfold attempt in H2.
      destruct (install_prepared_snapshot _ _ _) as [[w3 r3]|] eqn:E3; [|done]. injection H2 as <- <-.
      assert (wk_queue w3 = q ∧ wk_alive w3 = true ∧ wk_applied w <= wk_applied w3) as (? & ? & ?).
      { apply bind_inv in E3 as (w4 & r4 & H4 & E3). unfold lift_machine in H4.
        destruct (sm_install _ _ _) as [[m r5]|]; [|done]. injection H4 as <- <-.
        destruct r5 as [r5|e]; [|destruct E3 as [-> ->]; simpl; split_and!; (done || lia)].
        apply bind_inv in E3 as (w6 & r6 & H6 & E3).
        destruct r5; [unfold advance, modify in H6|..]; injection H6 as <- <-; injection E3 as <- <-;
          simpl; [|split_and!; (done || lia)..].
        case_bool; simpl; split_and!; (done || lia). }
      apply bind_inv in E1 as (w5 & r5 & H5 & E1). unfold respond, modify in *.
      destruct r3 as [[]|]; injection H5 as <- <-; injection E1 as <- <-; simpl; split_and!; done.
    - injection E1 as <- <-. simpl. split_and!; (done || (intros; lia) || lia).
    - unfold respond, modify, mbind, proc_bind, get in E1.
      destruct captured as [cap|e]; [destruct (_ =? _)|]; injection E1 as <- <-; simpl;
        split_and!; (done || (intros; lia) || lia). }
  destruct r1 as [u|e]; intros [= <-]; (split; [done|right; exists c, q; split_and!; try done]).
  - by left.
  - intros Hi _. by eapply Hap.
  - by right.
Qed.

Lemma task_step_run i io (w : Worker S D) :
  wk_applied (task_step i io w) = wk_applied w ∧ wk_alive (task_step i io w) = wk_alive w
  ∧ queued (wk_queue (task_step i io w)) = queued (wk_queue w)
  ∧ (Forall (λ c, is_install c = false) (wk_queue w) → Forall (λ c, is_install c = false) (wk_queue (task_step i io w))).
Proof.
  unfold task_step. destruct (wk_tasks w !! i) as [t|]; [|done].
  destruct t as [resp|id ep resp|resp].
  - unfold capture_begin. simpl. by destruct (_ || _).
  - unfold capture_end. destruct io; simpl.
    + destruct (sm_generate id (wk_machine w)) as [m r]. destruct (wk_alive w) eqn:Ea; simpl; [|done].
      rewrite queued_app. simpl. rewrite app_nil_r. split_and!; try done.
      intros Hq. apply Forall_app. by split; [|constructor].
    + destruct (wk_alive w) eqn:Ea; simpl; [|done].
      rewrite queued_app. simpl. rewrite app_nil_r. split_and!; try done.
      intros Hq. apply Forall_app. by split; [|constructor].
  - done.
Qed.
End pipeline.
