(* ===== verification/PipelineRuns.v ===== *)
(** * A pipeline to run

    The commit pipeline over the file-based state machine, which implements the interface
    [StateMachine], with a small decoder of commands and a membership that records the
    changes it is given. Used by the executions that follow. *)

From stdpp Require Import base tactics numbers option list gmap strings.
From S2P Require Import Prelude Proc Types Events TermSegments BufferedLog Codec Commands TtlLease FileStateMachine FsmProps.
From S2P Require Import SmWorker CommitHandler PipelineSpec.

Import Fsm FsmRuns.

(** [FileStateMachine] implements the trait. *)
#[global] Instance fsm_machine : StateMachine FileStateMachine SnapshotDir := {|
  sm_apply := apply_chunk (env_at 0 IoDone);
  sm_applied_id := sm_last_applied;
  sm_read := sm_get;
  sm_install := apply_snapshot_from_file (env_at 0 IoDone) (λ b, b);
  sm_generate _ m := let '(d, r) := generate_snapshot_data (λ b, b) IoDone m in
                     (m, let? sum := r in Ok (d, sum));
|}.

#[global] Instance recorder : ConfigTarget (list MembershipChange) := {|
  ct_apply_config_change c m := Some (m ++ [c], Ok tt);
  ct_notify_config_applied _ m := m;
|}.

(** [0 k v] inserts, [1 k e v] compares and swaps. *)
Definition decode_small (b : bytes) : option Wire.WriteCommand :=
  match b with
  | [0; k; v] => Some (Wire.mkWriteCommand (Some (Wire.OInsert (Wire.mkInsert [k] [v] 0))))
  | [1; k; e; v] =>
      Some (Wire.mkWriteCommand (Some (Wire.OCompareAndSwap (Wire.mkCompareAndSwap [k] (Some [e]) [v]))))
  | _ => None
  end.

Definition command_entry (i : N) (b : bytes) : Entry := mkEntry i 1 (Some (payload_command b)).

(** Key 1 is set to 10; a swap from 11 to 12 must fail; a swap from 10 to 11 must succeed;
    then entries that do nothing. *)
Definition swap_log (i : N) : Entry :=
  match i with
  | 1 => command_entry 1 [0; 1; 10]
  | 2 => command_entry 2 [1; 1; 11; 12]
  | 3 => command_entry 3 [1; 1; 10; 11]
  | _ => mkEntry i 1 (Some payload_noop)
  end.

(** The log in memory with the first [n] entries. *)
Definition log_of (clog : N → Entry) (n : nat) : LogMem :=
  mkLogMem (list_to_map ((λ e, (e_index e, e)) <$> run_of clog 1 n)) 0 0 0 0 0 0 ∅ ∅ ts_new.

Definition notify (n : nat) : action SnapshotDir :=
  ANotify (log_of swap_log n) (mkNewCommitData (N.of_nat n) 3 1).

Definition idle_worker (m : FileStateMachine) : Worker FileStateMachine SnapshotDir :=
  mkWorker m 0 [] true [] true false false 0 [] [] [] true 0.

Definition idle : Pipeline FileStateMachine SnapshotDir (list MembershipChange) :=
  mkPipeline 1 3 1 8 (log_of swap_log 0) 0 [] (idle_worker fresh) [].

Lemma log_of_holds clog n :
  (∀ j, 0 < j → e_index (clog j) = j) → holds_committed clog 0 (N.of_nat n) (log_of clog n).
Proof.
  intros Hidx i Hi Hn. simpl. apply elem_of_list_to_map_1'.
  - intros e (e' & [= -> ->] & (j & ? & ? & ->)%elem_of_run_of)%list_elem_of_fmap.
    by rewrite Hidx by lia.
  - apply list_elem_of_fmap. exists (clog i). rewrite Hidx by done. split; [done|].
    apply elem_of_run_of. exists i. split; [lia|split; [lia|done]].
Qed.

Lemma swap_log_sane i : 0 < i → e_index (swap_log i) = i ∧ has_payload (swap_log i).
Proof.
  intros Hi. unfold swap_log. destruct i as [|[[]|[]|]]; simpl; try lia; (split; [done|by eexists]).
Qed.
