(* ===== verification/WorkerLocks.v ===== *)
(** * The locks of the state machine worker

    [capture_install_lock] is held exactly by a capture that is exporting,
    [capture_cleanup_lock] exactly by a capture from its start to its answer
    ([SmWorker.v]). Consequences: captures exclude each other, and a queue that waits for
    an install is unblocked by the capture that runs. *)

From stdpp Require Import base tactics numbers option list gmap strings.
From S2P Require Import Prelude Proc Types Events Commands FileStateMachine FsmProps SmWorker PipelineRuns.

Section locks.
Context {S D : Type} `{!StateMachine S D}.
Context (decode_write_command : bytes → option Wire.WriteCommand).

Definition exporting (t : Task) : bool := match t with TExport _ _ _ => true | _ => false end.

(** Tasks that hold the cleanup guard. *)
Definition guarded (t : Task) : bool := match t with TCapture _ => false | _ => true end.

Definition count {A} (f : A → bool) (l : list A) : nat := length (filter (λ x, f x = true) l).

Lemma count_app {A} (f : A → bool) l1 l2 : count f (l1 ++ l2) = (count f l1 + count f l2)%nat.
Proof. unfold count. by rewrite filter_app, length_app. Qed.

Lemma count_cons {A} (f : A → bool) x l : count f (x :: l) = ((if f x then 1 else 0) + count f l)%nat.
Proof.
  unfold count. destruct (f x) eqn:E; [by rewrite filter_cons_True|by rewrite filter_cons_False by congruence].
Qed.

Lemma count_nil {A} (f : A → bool) : count f [] = 0%nat.
Proof. done. Qed.

Lemma count_zero {A} (f : A → bool) l : existsb f l = false → count f l = 0%nat.
Proof.
  induction l as [|x l IH]; [done|]. simpl. intros [Hx Hl]%orb_false_iff. rewrite count_cons, Hx. by apply IH.
Qed.

Lemma count_pos {A} (f : A → bool) l : existsb f l = true → (0 < count f l)%nat.
Proof.
  induction l as [|x l IH]; [done|]. simpl. rewrite count_cons. intros [->|Hl]%orb_true_iff; [lia|].
  specialize (IH Hl). lia.
Qed.

Definition bit (b : bool) : nat := if b then 1 else 0.

Record locks_inv (w : Worker S D) : Prop := {
  li_install : count exporting (wk_tasks w) = bit (capture_install_lock w);
  li_cleanup : (count guarded (wk_tasks w) + count holds_guard (wk_queue w))%nat = bit (capture_cleanup_lock w);
}.

(** ** Operations that leave locks, tasks and queue alone *)

Definition same_locks (w w' : Worker S D) : Prop :=
  wk_tasks w' = wk_tasks w ∧ wk_queue w' = wk_queue w
  ∧ capture_install_lock w' = capture_install_lock w ∧ capture_cleanup_lock w' = capture_cleanup_lock w.

#[local] Instance same_locks_pre : PreOrder same_locks.
Proof. split; [done|]. intros w1 w2 w3 (?&?&?&?) (?&?&?&?). split_and!; congruence. Qed.

Lemma keeps_advance n : keeps same_locks (advance n).
Proof. apply keeps_modify. intros w. by destruct (_ <? _). Qed.

Lemma keeps_send_event ev : keeps same_locks (send_event ev).
Proof. intros w w' r. unfold send_event. destruct (wk_events_open w); by intros [= <- <-]. Qed.

Lemma keeps_respond n r : keeps same_locks (respond n r).
Proof. apply keeps_modify. done. Qed.

Lemma keeps_lift {A} (f : S → option (S * result A)) : keeps same_locks (lift_machine f).
Proof. intros w w' r. unfold lift_machine. destruct (f (wk_machine w)); [|done]. by intros [= <- <-]. Qed.

#[local] Hint Resolve keeps_advance keeps_send_event keeps_respond keeps_lift : keeps.

Lemma keeps_apply_and_notify es : keeps same_locks (apply_and_notify decode_write_command es).
Proof. unfold apply_and_notify, writer_apply_chunk. solve_keeps. Qed.

Lemma keeps_install m d : keeps same_locks (install_prepared_snapshot m d).
Proof. unfold install_prepared_snapshot. solve_keeps. Qed.

Lemma same_locks_inv w w' : same_locks w w' → locks_inv w → locks_inv w'.
Proof. intros (Et & Eq & Ei & Ec) []. split; by rewrite ?Et, ?Eq, ?Ei, ?Ec. Qed.

(** ** The invariant *)

(** What the head of the queue contributes is handed on by the handler. *)
Lemma handle_command_inv c q w w' r :
  wk_queue w = c :: q → locks_inv w →
  handle_command decode_write_command c (w <| wk_queue := q |>) = Some (w', r) → locks_inv w'.
Proof.
  intros Hq [Hi Hc]. rewrite Hq, count_cons in Hc. destruct c as [es|snap resp|resp|captured ep resp]; simpl in *.
  - intros H%keeps_apply_and_notify. eapply same_locks_inv; [done|]. by split.
  - intros H. eapply (same_locks_inv (w <| wk_queue := q |>)); [|by split]. revert H.
    apply keeps_run. solve_keeps. apply keeps_install.
  - intros [= <- <-]. split; simpl; rewrite count_app, count_cons, count_nil; simpl; lia.
  - assert (capture_cleanup_lock w = true ∧ count guarded (wk_tasks w) = 0%nat ∧ count holds_guard q = 0%nat)
      as (El & Et & Eq) by (destruct (capture_cleanup_lock w); simpl in Hc; split_and!; (done || lia)).
    unfold respond, modify, mbind, proc_bind, get.
    destruct captured as [cap|e]; [destruct (_ =? _)|]; intros [= <- <-]; split; simpl;
      rewrite ?count_app, ?count_cons, ?count_nil; simpl; rewrite ?El; simpl; lia.
Qed.

Lemma worker_step_inv w w' : locks_inv w → worker_step decode_write_command w = Some w' → locks_inv w'.
Proof.
  intros Hinv. unfold worker_step. destruct (wk_queue w) as [|c q] eqn:Eq; [by intros [= <-]|].
  destruct (wk_alive w && can_handle c w); [|by intros [= <-]].
  destruct (handle_command decode_write_command c _) as [[w1 [u|e]]|] eqn:E; simpl; [| |done]; intros [= <-].
  - by eapply handle_command_inv.
  - eapply handle_command_inv in E as [Hi Hc]; [|done..]. split; simpl; [done|].
    destruct (existsb holds_guard (wk_queue w1)) eqn:Ex.
    + apply count_pos in Ex. destruct (capture_cleanup_lock w1); simpl in *; rewrite ?count_nil; lia.
    + apply count_zero in Ex. rewrite Ex in Hc. rewrite andb_true_r. exact Hc.
Qed.

Lemma count_take_drop {A} (f : A → bool) l i x :
  l !! i = Some x → count f l = ((if f x then 1 else 0) + count f (take i l ++ drop (Datatypes.S i) l))%nat.
Proof.
  intros Hx. rewrite <-(take_drop_middle l i x Hx) at 1. rewrite !count_app, count_cons. lia.
Qed.

Lemma task_step_inv i io w : locks_inv w → locks_inv (task_step i io w).
Proof.
  intros [Hi Hc]. unfold task_step. destruct (wk_tasks w !! i) as [t|] eqn:Et; [|done].
  rewrite (count_take_drop exporting _ _ _ Et) in Hi. rewrite (count_take_drop guarded _ _ _ Et) in Hc.
  destruct t as [resp|id ep resp|resp]; simpl in *.
  - unfold capture_begin. simpl. destruct (capture_cleanup_lock w) eqn:Ec; simpl; [by split|].
    destruct (capture_install_lock w) eqn:Ei; simpl; [by split|].
    split; simpl; rewrite !count_app, count_cons, count_nil in *; simpl in *; lia.
  - assert (capture_cleanup_lock w = true ∧ capture_install_lock w = true) as [Ec Ei].
    { destruct (capture_cleanup_lock w), (capture_install_lock w); simpl in *; (done || lia). }
    rewrite Ec, Ei in *. simpl in *. unfold capture_end.
    destruct io; simpl; [destruct (sm_generate id (wk_machine w)) as [m r]|];
      (destruct (wk_alive w); split; simpl; rewrite ?count_app, ?count_cons, ?count_nil in *; simpl in *; rewrite ?Ec; simpl; lia).
  - assert (capture_cleanup_lock w = true) as Ec by (destruct (capture_cleanup_lock w); simpl in *; (done || lia)).
    rewrite Ec in *. split; simpl in *; [done|lia].
Qed.

Lemma send_command_inv c w w' r :
  locks_inv w → holds_guard c = false → send_command c w = Some (w', r) → locks_inv w'.
Proof.
  intros [Hi Hc] Hg. unfold send_command. destruct (wk_alive w); intros [= <- <-]; split; simpl; try done.
  rewrite count_app, count_cons, count_nil, Hg. lia.
Qed.

(** ** Reachable states *)

(** The worker's rounds, its tasks and the commands of others in any order. *)
Inductive wk_reach : Worker S D → Prop :=
  | wk_start w :
      wk_queue w = [] → wk_tasks w = [] → capture_install_lock w = false → capture_cleanup_lock w = false →
      wk_reach w
  | wk_round w w' : wk_reach w → worker_step decode_write_command w = Some w' → wk_reach w'
  | wk_task i io w : wk_reach w → wk_reach (task_step i io w)
  | wk_send c w w' r : wk_reach w → holds_guard c = false → send_command c w = Some (w', r) → wk_reach w'.

Lemma reach_locks w : wk_reach w → locks_inv w.
Proof.
  induction 1 as [w Hq Ht Hi Hc|w w' _ IH Hs|i io w _ IH|c w w' r _ IH Hg Hs].
  - split; by rewrite ?Hq, ?Ht, ?Hi, ?Hc.
  - by eapply worker_step_inv.
  - by apply task_step_inv.
  - by eapply send_command_inv.
Qed.

Lemma count_lookup {A} (f : A → bool) l : (0 < count f l)%nat → ∃ i x, l !! i = Some x ∧ f x = true.
Proof.
  induction l as [|x l IH]; [by rewrite count_nil; lia|]. rewrite count_cons.
  destruct (f x) eqn:E; [intros _; by exists 0%nat, x|]. intros (i & y & ? & ?)%IH. by exists (Datatypes.S i), y.
Qed.

(** C39: in every reachable state of the worker at most one capture is between its locks and
    its answer, and the command at the head of the queue can be handled at once or after
    one step of the export that holds the install lock, however that export ends: an
    install never waits for something that waits for the queue. *)
Theorem queue_head_is_never_stuck w c q :
  wk_reach w → wk_queue w = c :: q →
  (count guarded (wk_tasks w) + count holds_guard (wk_queue w) <= 1)%nat
  ∧ (can_handle c w = true
     ∨ ∃ i, ∀ io, can_handle c (task_step i io w) = true ∧ ∃ q', wk_queue (task_step i io w) = c :: q').
Proof.
  intros [Hi Hc]%reach_locks Hq. split; [rewrite Hc; destruct (capture_cleanup_lock w); simpl; lia|].
  destruct (capture_install_lock w) eqn:El.
  2: { left. destruct c; simpl; by rewrite ?El. }
  destruct (count_lookup exporting (wk_tasks w)) as (i & t & Ht & Hexp); [rewrite Hi; simpl; lia|].
  right. exists i. intros io. unfold task_step. rewrite Ht. destruct t as [|id ep resp|]; [done| |done].
  unfold capture_end. destruct io; simpl; [destruct (sm_generate id (wk_machine w)) as [m r]|];
    (destruct (wk_alive w); simpl; rewrite Hq; (split; [by destruct c|by eexists])).
Qed.
End locks.

(** A capture is exporting when an install arrives. *)
Definition waiting_install : Worker Fsm.FileStateMachine Fsm.SnapshotDir :=
  (idle_worker FsmRuns.fresh)
    <| capture_install_lock := true |> <| capture_cleanup_lock := true |>
    <| wk_tasks := [TExport (mkLogId 0 0) 0 7] |>
    <| wk_queue := [InstallSnapshot (mkPreparedSnapshot (mkSnapshotMetadata None []) (Fsm.mkSnapshotDir [] None [])) 8] |>.

Lemma waiting_install_reached : wk_reach decode_small waiting_install.
Proof.
  pose (w0 := idle_worker FsmRuns.fresh).
  assert (wk_reach decode_small w0) as H0 by (by apply wk_start).
  eapply (wk_send _ (CaptureLocalSnapshot 7)) in H0; [|reflexivity|vm_compute; reflexivity].
  eapply wk_round in H0; [|vm_compute; reflexivity].
  apply (wk_task _ 0%nat true) in H0.
  eapply (wk_send _ (InstallSnapshot (mkPreparedSnapshot (mkSnapshotMetadata None []) (Fsm.mkSnapshotDir [] None [])) 8)) in H0;
    [|reflexivity|vm_compute; reflexivity].
  exact H0.
Qed.

Lemma queue_head_is_never_stuck_witness :
  ∃ c q, wk_queue waiting_install = c :: q ∧ can_handle c waiting_install = false
    ∧ ∃ i, ∀ io, can_handle c (task_step i io waiting_install) = true.
Proof.
  eexists _, _. split; [reflexivity|]. split; [reflexivity|].
  edestruct (queue_head_is_never_stuck decode_small waiting_install) as (_ & [Hc|(i & Hi)]);
    [apply waiting_install_reached|reflexivity|vm_compute in Hc; discriminate|].
  exists i. intros io. apply Hi.
Defined.
