(* ===== verification/Membership.v ===== *)
(** * Cluster membership

    [d-engine-server/src/membership/{raft_membership,membership_guard,
    membership_snapshot}.rs] and [ensure_safe_join] of [d-engine-core/src/membership.rs]:
    the nodes a node knows, the changes the commit handler and the leader apply to them,
    and the views the roles query. [blocking_write] stores the state its closure leaves,
    also when the closure fails. An operation is a [proc] when it accesses the shared
    state once (or exclusively), and a sequence of [accesses] when other tasks may act in
    between. Connections, health checks and the zombie monitor are
    network code and are left out. The order of [nodes.values()] is [map_iter]. *)

From stdpp Require Import base tactics numbers option list gmap strings.
From S2P Require Import Prelude Proc Types Events CommitHandler.

(** ** State *)

Record MembershipSnapshot := mkMembershipSnapshot {
  ms_members : gset N;
  ms_learners : gset N;
  ms_committed_index : N;
}.

Record RaftMembership := mkRaftMembership {
  rm_node_id : N;
  rm_nodes : gmap N NodeMeta;
  rm_cluster_conf_version : N;
  rm_initial_cluster_size : N;
  rm_notifier : MembershipSnapshot;
}.

#[global] Instance RaftMembership_settable : Settable RaftMembership := λ m,
  mkRaftMembership (rm_node_id m) (rm_nodes m) (rm_cluster_conf_version m) (rm_initial_cluster_size m)
    (rm_notifier m).

#[global] Instance NodeMeta_settable : Settable NodeMeta := λ n,
  mkNodeMeta (nm_id n) (nm_address n) (nm_role n) (nm_status n).

(** [NodeStatus::try_from(i32)]. *)
Definition status_try_from (s : N) : option NodeStatus :=
  match s with
  | 0 => Some NS_Unspecified | 1 => Some NS_Promotable | 2 => Some NS_ReadOnly | 3 => Some NS_Active
  | _ => None
  end.

Definition is_active (n : NodeMeta) : bool := nm_status n =? status_i32 NS_Active.

Definition is_learner_role (n : NodeMeta) : bool := nm_role n =? role_i32 NR_Learner.

Definition is_i32_promotable (status : N) : bool := status =? status_i32 NS_Promotable.

(** [ensure_safe_join]. *)
Definition ensure_safe_join (current_voters : N) : result unit :=
  let total_voters := current_voters + 1 in
  if N.even (total_voters + 1) then Ok tt
  else Err (JoinClusterError "Cluster must maintain odd number of voters").

(** ** Accesses

    An [async fn] that accesses the shared state several times: each access reads the
    state or publishes a new one, and the other tasks run in between. *)
Inductive accesses (A : Type) :=
  | Finished (r : result A)
  | Access (act : RaftMembership → option (RaftMembership * accesses A)).
Arguments Finished {_} _.
Arguments Access {_} _.

Definition atomically {A B} (p : proc RaftMembership B) (k : B → accesses A) : accesses A :=
  Access (λ m, match p m with
               | Some (m', Ok b) => Some (m', k b)
               | Some (m', Err e) => Some (m', Finished (Err e))
               | None => None
               end).

(** The accesses one after the other, with nothing in between. *)
Fixpoint run_alone {A} (p : accesses A) : proc RaftMembership A :=
  match p with
  | Finished r => λ m, Some (m, r)
  | Access act => λ m, match act m with Some (m', p') => run_alone p' m' | None => None end
  end.

Section membership.
Context `{!MapIter N NodeMeta}.
Abbreviation mem := (proc RaftMembership).

(** ** Queries *)

Definition node_values (m : RaftMembership) : list NodeMeta := (map_iter (rm_nodes m)).*2.

Definition members (m : RaftMembership) : list NodeMeta := node_values m.

Definition replication_peers (m : RaftMembership) : list NodeMeta :=
  filter (λ n, nm_id n ≠ rm_node_id m ∧
               (nm_status n = status_i32 NS_Active ∨ nm_status n = status_i32 NS_Promotable
                ∨ nm_status n = status_i32 NS_ReadOnly)) (node_values m).

Definition voters (m : RaftMembership) : list NodeMeta :=
  filter (λ n, nm_id n ≠ rm_node_id m ∧ nm_status n = status_i32 NS_Active) (node_values m).

Definition nodes_with_status (s : NodeStatus) (m : RaftMembership) : list NodeMeta :=
  filter (λ n, nm_id n ≠ rm_node_id m ∧ nm_status n = status_i32 s) (node_values m).

Definition is_single_node_cluster (m : RaftMembership) : bool := rm_initial_cluster_size m =? 1.

Definition get_node_status (id : N) (m : RaftMembership) : option NodeStatus :=
  rm_nodes m !! id ≫= λ n, status_try_from (nm_status n).

Definition get_peers_id_with_condition (condition : N → bool) (m : RaftMembership) : list N :=
  nm_id <$> filter (λ n, condition (nm_role n) = true) (node_values m).

Definition retrieve_cluster_membership_config (leader : option N) (m : RaftMembership) : ClusterMembership :=
  mkClusterMembership (rm_cluster_conf_version m) (node_values m) leader.

Definition contains_node (id : N) (m : RaftMembership) : bool := bool_decide (is_Some (rm_nodes m !! id)).

Definition retrieve_node_meta (id : N) (m : RaftMembership) : option NodeMeta := rm_nodes m !! id.

Definition can_rejoin (id role : N) (m : RaftMembership) : result unit :=
  if negb (role =? role_i32 NR_Learner) then Err NotLearnerError
  else if negb (contains_node id m) then Ok tt
  else Err (NodeAlreadyExists id).

(** The classification of nodes by their role. *)
Definition snapshot_of (nodes : list NodeMeta) (index : N) : MembershipSnapshot :=
  mkMembershipSnapshot
    (list_to_set (nm_id <$> filter (λ n, is_learner_role n = false) nodes))
    (list_to_set (nm_id <$> filter (λ n, is_learner_role n = true) nodes)) index.

(** [RaftMembership::new]. *)
Definition rm_new (node_id : N) (initial_nodes : list NodeMeta) : RaftMembership :=
  mkRaftMembership node_id (foldl (λ m n, <[nm_id n := n]> m) ∅ initial_nodes) 0
    (N.of_nat (length initial_nodes)) (snapshot_of initial_nodes 0).

(** ** Changes *)

Definition set_nodes (f : gmap N NodeMeta → gmap N NodeMeta) : mem unit := modify (λ m, m <| rm_nodes ::= f |>).

Definition incr_conf_version : mem unit := λ m,
  let! v := checked_add (rm_cluster_conf_version m) 1 in
  Some (m <| rm_cluster_conf_version := v |>, Ok tt).

Definition update_conf_version (v : N) : mem unit := modify (λ m, m <| rm_cluster_conf_version := v |>).

(** [nodes.get_mut(id)] and an update of the node. *)
Definition update_single_node (id : N) (f : NodeMeta → result NodeMeta) : mem unit :=
  m ← get;
  match rm_nodes m !! id with
  | None => fail (NoMetadataFoundForNode id)
  | Some n => match f n with
              | Ok n' => set_nodes <[id := n']>
              | Err e => fail e
              end
  end.

Fixpoint update_multiple_nodes (ids : list N) (f : NodeMeta → NodeMeta) : mem unit :=
  match ids with
  | [] => mret tt
  | id :: ids' =>
      m ← get;
      (match rm_nodes m !! id with Some n => set_nodes <[id := f n]> | None => mret tt end);;
      update_multiple_nodes ids' f
  end.

Definition add_learner (id : N) (address : string) (status : NodeStatus) : mem unit :=
  m ← get;
  match rm_nodes m !! id with
  | Some existing => if is_learner_role existing then mret tt else fail (NodeAlreadyExists id)
  | None => set_nodes <[id := mkNodeMeta id address (role_i32 NR_Learner) (status_i32 status)]>
  end.

Definition update_node_status (id : N) (status : NodeStatus) : mem unit :=
  update_single_node id (λ n, Ok (n <| nm_status := status_i32 status |>)).

Definition remove_node (id : N) : mem unit := set_nodes (delete id);; incr_conf_version.

Definition force_remove_node (id : N) : mem unit := set_nodes (delete id);; incr_conf_version.

Definition remove_nodes (ids : list N) : mem unit := set_nodes (λ ns, foldl (λ ns id, delete id ns) ns ids).

Definition activate_node (id : N) : mem unit :=
  m ← get;
  match ensure_safe_join (N.of_nat (length (filter (λ n, is_active n = true) (node_values m)))) with
  | Err e => fail e
  | Ok _ => match rm_nodes m !! id with
            | Some n => set_nodes <[id := n <| nm_status := status_i32 NS_Active |>]>
            | None => mret tt
            end
  end.

Definition promoted (status : N) (n : NodeMeta) : NodeMeta :=
  n <| nm_role := role_i32 NR_Follower |> <| nm_status := status |>.

Fixpoint promote_nodes (ids : list N) (status : N) : mem unit :=
  match ids with
  | [] => mret tt
  | id :: ids' => update_single_node id (λ n, Ok (promoted status n));; promote_nodes ids' status
  end.

Definition rm_apply_config_change (c : MembershipChange) : mem unit :=
  match mc_change c with
  | Some (AddNode id address status) =>
      add_learner id address (default NS_Promotable (status_try_from status))
  | Some (RemoveNode id) => remove_node id
  | Some (Promote id _) => update_single_node id (λ n, Ok (promoted (status_i32 NS_Active) n))
  | Some (BatchPromote ids new_status) =>
      promote_nodes ids (status_i32 (default NS_Active (status_try_from new_status)))
  | Some (BatchRemove ids) => remove_nodes ids;; incr_conf_version
  | None => mret tt
  end.

Definition rm_notify_config_applied (index : N) (m : RaftMembership) : RaftMembership :=
  m <| rm_notifier := snapshot_of (node_values m) index |>.

(** [update_cluster_conf_from_leader]: it reads the version, publishes the change, publishes the
    version of the request and, unless the change is a batch, reads the version back. *)
Definition update_cluster_conf_from_leader (my_id my_current_term current_conf_version : N)
    (current_leader_id : option N) (req : ClusterConfChangeRequest) : accesses ClusterConfUpdateResponse :=
  match current_leader_id with
  | None => Finished (Err NoLeaderFound)
  | Some leader_id =>
      if negb (leader_id =? ccr_id req)
      then Finished (Ok (conf_not_leader my_id my_current_term current_conf_version))
      else if ccr_term req <? my_current_term
      then Finished (Ok (conf_higher_term my_id my_current_term current_conf_version))
      else atomically get (λ m,
        if ccr_version req <? rm_cluster_conf_version m
        then Finished (Ok (conf_version_conflict my_id my_current_term current_conf_version))
        else
          let success v := Finished (Ok (conf_success my_id my_current_term v)) in
          let set_version k := atomically (update_conf_version (ccr_version req)) (λ _, k) in
          let finish := set_version (atomically get (λ m', success (rm_cluster_conf_version m'))) in
          let finish_batch := set_version (success (ccr_version req)) in
          match ccr_change req ≫= mc_change with
          | None => Finished (Err InvalidChangeRequest)
          | Some (AddNode id address status) =>
              atomically (add_learner id address (default NS_Promotable (status_try_from status))) (λ _, finish)
          | Some (RemoveNode id) => atomically (remove_node id) (λ _, finish)
          | Some (Promote id _) =>
              atomically (update_single_node id (λ n,
                if is_learner_role n then Ok (n <| nm_role := role_i32 NR_Follower |>)
                else Err (InvalidPromotion id (nm_role n)))) (λ _, finish)
          | Some (BatchPromote ids new_status) =>
              atomically (update_multiple_nodes ids (λ n,
                if is_i32_promotable (nm_status n) then promoted new_status n else n)) (λ _, finish_batch)
          | Some (BatchRemove ids) =>
              if bool_decide (leader_id ∈ ids) then Finished (Err (RemoveNodeIsLeader leader_id))
              else atomically (remove_nodes ids) (λ _, finish_batch)
          end)
  end.

(** The membership implements what the commit handler uses. *)
#[global] Instance raft_membership_target : ConfigTarget RaftMembership := {|
  ct_apply_config_change := rm_apply_config_change;
  ct_notify_config_applied := rm_notify_config_applied;
|}.
End membership.

(** * Correctness of membership changes

    Every change keeps the nodes keyed by their own id, and the changes of the commit handler and of the
    roles do not lower the configuration version; a change of one node leaves the majorities before and after it
    overlapping, which is what makes single-server changes safe in Raft. The last section
    runs changes that do otherwise. *)

(** ** Voters and majorities *)

(** The nodes that count for a quorum, this node included. *)
Definition voter_set (m : RaftMembership) : gset N :=
  dom (filter (λ p, is_active p.2 = true) (rm_nodes m)).

Definition majority (q v : gset N) : Prop := q ⊆ v ∧ (size v < 2 * size q)%nat.

Lemma elem_of_voter_set m id :
  id ∈ voter_set m ↔ ∃ n, rm_nodes m !! id = Some n ∧ is_active n = true.
Proof.
  unfold voter_set. rewrite elem_of_dom. split.
  - intros [n Hn]. apply map_lookup_filter_Some in Hn. by exists n.
  - intros (n & Hn & Ha). exists n. by apply map_lookup_filter_Some.
Qed.

Lemma size_add_one (v : gset N) id : (size (v ∪ {[id]}) <= size v + 1)%nat.
Proof.
  rewrite size_union_alt. assert ({[id]} ∖ v ⊆ ({[id]} : gset N)) as H by set_solver.
  apply subseteq_size in H. rewrite size_singleton in H. lia.
Qed.

(** Two sets that agree except on one element. *)
Lemma majorities_overlap (v v' q q' : gset N) id :
  (∀ x, x ≠ id → x ∈ v ↔ x ∈ v') → majority q v → majority q' v' → ∃ x, x ∈ q ∧ x ∈ q'.
Proof.
  intros Hv [Hq Hs] [Hq' Hs']. destruct (decide (q ∩ q' = ∅)) as [Hd|Hne].
  2: { apply set_choose_L in Hne as [x Hx]. exists x. set_solver. }
  exfalso. assert (size (q ∪ q') = size q + size q')%nat as Hu by (apply size_union; set_solver).
  assert (∀ a b : gset N, (∀ x, x ≠ id → x ∈ a ↔ x ∈ b) → a ⊆ b ∪ {[id]}) as Hsub.
  { intros a b Hab x Hx. destruct (decide (x = id)) as [->|]; [set_solver|]. apply elem_of_union_l. by apply Hab. }
  pose proof (subseteq_size _ _ (Hsub v v' Hv)). pose proof (size_add_one v' id). pose proof (size_add_one v id).
  assert (v' ⊆ v ∪ {[id]}) as H4%subseteq_size by (apply Hsub; intros x Hx; by rewrite Hv).
  assert (v ⊆ v' ∨ v' ⊆ v) as [Hl|Hl].
  { destruct (decide (id ∈ v')) as [Hin|Hout]; [left|right]; intros x Hx;
      (destruct (decide (x = id)) as [->|]; [done|by apply Hv]). }
  - assert (size (q ∪ q') <= size v')%nat by (apply subseteq_size; set_solver). lia.
  - assert (size (q ∪ q') <= size v)%nat by (apply subseteq_size; set_solver). lia.
Qed.

Section changes.
Context `{!MapIter N NodeMeta}.

Definition single_node_change (c : MembershipChange) : Prop :=
  match mc_change c with Some (BatchPromote _ _) | Some (BatchRemove _) => False | _ => True end.

(** ** What the operations change *)

Lemma update_single_node_run id f m m' r :
  update_single_node id f m = Some (m', r) →
  (m' = m ∧ ∃ e, r = Err e) ∨ (∃ n n', rm_nodes m !! id = Some n ∧ f n = Ok n' ∧ r = Ok tt
                               ∧ m' = m <| rm_nodes ::= <[id := n']> |>).
Proof.
  unfold update_single_node. intros (m1 & r1 & [= <- <-] & H)%bind_inv.
  destruct (rm_nodes m !! id) as [n|]; [|injection H as <- <-; left; by eauto].
  destruct (f n) as [n'|e] eqn:Ef; injection H as <- <-; [right|left; by eauto]. by exists n, n'.
Qed.

Lemma remove_node_run id m m' r :
  remove_node id m = Some (m', r) →
  ∃ v, m' = m <| rm_nodes ::= delete id |> <| rm_cluster_conf_version := v |>
       ∧ rm_cluster_conf_version m <= v ∧ r = Ok tt.
Proof.
  unfold remove_node, set_nodes, incr_conf_version, mbind, proc_bind, modify. simpl. unfold checked_add.
  case_bool; simpl; [|done]. intros [= <- <-]. eexists. split; [done|]. split; [lia|done].
Qed.

Lemma add_learner_run id addr s m m' r :
  add_learner id addr s m = Some (m', r) →
  m' = m ∨ (r = Ok tt ∧ m' = m <| rm_nodes ::= <[id := mkNodeMeta id addr (role_i32 NR_Learner) (status_i32 s)]> |>).
Proof.
  unfold add_learner. intros (m1 & r1 & [= <- <-] & H)%bind_inv.
  destruct (rm_nodes m !! id) as [n|]; [destruct (is_learner_role n)|]; injection H as <- <-; [by left..|by right].
Qed.

(** A change of one node touches no other node. *)
Lemma single_change_frame c m m' r :
  single_node_change c → rm_apply_config_change c m = Some (m', r) →
  ∃ id, ∀ j, j ≠ id → rm_nodes m' !! j = rm_nodes m !! j.
Proof.
  unfold single_node_change, rm_apply_config_change.
  destruct (mc_change c) as [[id addr s|id|id s|ids s|ids]|]; try done; intros _ H.
  - exists id. intros j Hj. apply add_learner_run in H as [->|[_ ->]]; [done|]. simpl. by rewrite lookup_insert_ne.
  - exists id. intros j Hj. apply remove_node_run in H as (v & -> & _). simpl. by rewrite lookup_delete_ne.
  - exists id. intros j Hj. apply update_single_node_run in H as [[-> _]|(n & n' & _ & _ & _ & ->)]; [done|].
    simpl. by rewrite lookup_insert_ne.
  - injection H as <- <-. by exists 0.
Qed.

(** C11: when the commit handler applies a change of one node (an addition, a removal, a
    promotion), successful or not, every majority of the voters before it and every
    majority of the voters after it have a node in common. *)
Theorem single_change_quorums_overlap c m m' r q q' :
  single_node_change c → rm_apply_config_change c m = Some (m', r) →
  majority q (voter_set m) → majority q' (voter_set m') → ∃ x, x ∈ q ∧ x ∈ q'.
Proof.
  intros Hc (id & Hid)%single_change_frame; [|done]. apply (majorities_overlap _ _ _ _ id).
  intros x Hx. rewrite !elem_of_voter_set, Hid by done. done.
Qed.
(** ** The invariant *)

Definition keyed (m : RaftMembership) : Prop := ∀ id n, rm_nodes m !! id = Some n → nm_id n = id.

(** Operations keep the nodes keyed and do not lower the version. *)
Definition evolves (m m' : RaftMembership) : Prop :=
  (keyed m → keyed m') ∧ rm_cluster_conf_version m <= rm_cluster_conf_version m'
  ∧ rm_node_id m' = rm_node_id m ∧ rm_initial_cluster_size m' = rm_initial_cluster_size m.

(** The same without the version. *)
Definition stays_keyed (m m' : RaftMembership) : Prop :=
  (keyed m → keyed m') ∧ rm_node_id m' = rm_node_id m ∧ rm_initial_cluster_size m' = rm_initial_cluster_size m.

#[local] Instance stays_keyed_pre : PreOrder stays_keyed.
Proof. split; [done|]. intros m1 m2 m3 (? & ? & ?) (? & ? & ?). split_and!; [auto|congruence..]. Qed.

Lemma evolves_stays m m' : evolves m m' → stays_keyed m m'.
Proof. by intros (? & _ & ? & ?). Qed.

#[local] Instance evolves_pre : PreOrder evolves.
Proof.
  split; [by intros m; split_and!; (done || lia)|].
  intros m1 m2 m3 (? & ? & ? & ?) (? & ? & ? & ?). split_and!; [auto|lia|congruence..].
Qed.

Lemma keyed_insert m id n : keyed m → nm_id n = id → keyed (m <| rm_nodes ::= <[id := n]> |>).
Proof.
  intros Hm Hn j n' Hj. simpl in Hj. apply lookup_insert_Some in Hj as [[<- <-]|[_ Hj]]; [done|by apply Hm].
Qed.

Lemma evolves_insert m id n : (keyed m → nm_id n = id) → evolves m (m <| rm_nodes ::= <[id := n]> |>).
Proof. intros Hn. split_and!; [intros Hk; apply keyed_insert; auto|simpl; lia|done..]. Qed.

Lemma evolves_single id f :
  (∀ n n', f n = Ok n' → nm_id n' = nm_id n) → keeps evolves (update_single_node id f).
Proof.
  intros Hf m m' r [[-> _]|(n & n' & Hn & Hfn & _ & ->)]%update_single_node_run; [reflexivity|].
  apply evolves_insert. intros Hk. rewrite (Hf _ _ Hfn). by apply Hk.
Qed.

Lemma evolves_multiple ids f : (∀ n, nm_id (f n) = nm_id n) → keeps evolves (update_multiple_nodes ids f).
Proof.
  intros Hf. induction ids as [|id ids IH]; [apply keeps_ret; apply _|]. simpl.
  intros m m' r (m1 & r1 & [= <- <-] & H)%bind_inv. apply bind_inv in H as (m2 & r2 & H2 & H).
  assert (evolves m m2 ∧ r2 = Ok tt) as [He ->].
  { destruct (rm_nodes m !! id) as [n|] eqn:En; injection H2 as <- <-; (split; [|done]); [|reflexivity].
    apply evolves_insert. intros Hk. rewrite Hf. by apply Hk. }
  trans m2; [done|]. by apply (IH m2 m' r).
Qed.

Lemma evolves_learner id addr s : keeps evolves (add_learner id addr s).
Proof. intros m m' r [->|[_ ->]]%add_learner_run; [reflexivity|]. by apply evolves_insert. Qed.

Lemma evolves_remove id : keeps evolves (remove_node id).
Proof.
  intros m m' r (v & -> & Hv & _)%remove_node_run. split_and!; simpl; try done.
  intros Hk j n Hj. simpl in Hj. apply lookup_delete_Some in Hj as [_ Hj]. by apply Hk.
Qed.

Lemma evolves_removes ids : keeps evolves (remove_nodes ids).
Proof.
  intros m m' r [= <- <-]. split_and!; simpl; [|lia|done..]. intros Hk j n Hj. simpl in Hj. revert Hj.
  assert (∀ (ns : gmap N NodeMeta), foldl (λ ns id, delete id ns) ns ids !! j = Some n → ns !! j = Some n) as Hd.
  { induction ids as [|id ids IH]; intros ns; simpl; [done|]. intros [_ ?]%IH%lookup_delete_Some. done. }
  intros Hj%Hd. by apply Hk.
Qed.

Lemma evolves_incr : keeps evolves incr_conf_version.
Proof.
  intros m m' r. unfold incr_conf_version, checked_add. case_bool; simpl; [|done]. intros [= <- <-].
  split_and!; simpl; (done || lia).
Qed.

#[local] Hint Resolve evolves_learner evolves_remove evolves_removes evolves_incr : keeps.
#[local] Hint Extern 1 (keeps evolves (update_single_node _ _)) =>
  apply evolves_single; intros ? ? [= <-]; reflexivity : keeps.

Lemma evolves_promotes ids s : keeps evolves (promote_nodes ids s).
Proof. induction ids as [|id ids IH]; simpl; [apply keeps_ret; apply _|]. solve_keeps. Qed.

#[local] Hint Resolve evolves_promotes : keeps.

Lemma evolves_config c : keeps evolves (rm_apply_config_change c).
Proof. unfold rm_apply_config_change. solve_keeps. Qed.

Lemma evolves_activate id : keeps evolves (activate_node id).
Proof.
  intros m m' r. unfold activate_node. intros (m1 & r1 & [= <- <-] & H)%bind_inv.
  destruct (ensure_safe_join _); [|injection H as <- <-; reflexivity].
  destruct (rm_nodes m !! id) as [n|] eqn:En; injection H as <- <-; [|reflexivity].
  apply evolves_insert. intros Hk. exact (Hk id n En).
Qed.

(** Every access of a request keeps the nodes keyed. *)
Inductive keeps_keyed {A} : accesses A → Prop :=
  | kk_finished r : keeps_keyed (Finished r)
  | kk_access act :
      (∀ m m' p, act m = Some (m', p) → stays_keyed m m') →
      (∀ m m' p, act m = Some (m', p) → keeps_keyed p) → keeps_keyed (Access act).

Lemma atomically_keyed {A B} (p : proc RaftMembership B) (k : B → accesses A) :
  keeps stays_keyed p → (∀ b, keeps_keyed (k b)) → keeps_keyed (atomically p k).
Proof.
  intros Hp Hk. constructor; intros m m' q; (destruct (p m) as [[m1 r]|] eqn:E; [|done]); apply Hp in E;
    destruct r; intros [= <- <-]; (done || apply Hk || constructor).
Qed.

Lemma keeps_stays {A} (p : proc RaftMembership A) : keeps evolves p → keeps stays_keyed p.
Proof. intros Hp m m' r H. by apply evolves_stays, (Hp m m' r). Qed.

Lemma leader_change_keyed my_id t v l req :
  keeps_keyed (update_cluster_conf_from_leader my_id t v l req).
Proof.
  unfold update_cluster_conf_from_leader. destruct l as [leader|]; [|constructor].
  destruct (negb _); [constructor|]. destruct (_ <? t); [constructor|].
  apply atomically_keyed; [by intros m m' r [= <- <-]|]. intros m.
  destruct (_ <? _); [constructor|].
  assert (∀ w (k : accesses ClusterConfUpdateResponse), keeps_keyed k →
            keeps_keyed (atomically (update_conf_version w) (λ _, k))) as Hv.
  { intros w k Hk. apply atomically_keyed; [by intros m1 m2 r [= <- <-]|done]. }
  assert (∀ (k : RaftMembership → ClusterConfUpdateResponse),
            keeps_keyed (atomically get (λ m', Finished (Ok (k m'))))) as Hg.
  { intros k. apply atomically_keyed; [by intros m1 m2 r [= <- <-]|constructor]. }
  destruct (ccr_change req ≫= mc_change) as [[id addr s|id|id s|ids s|ids]|]; [..|constructor];
    [..|destruct (bool_decide _); [constructor|]]; (apply atomically_keyed; [apply keeps_stays|]).
  - apply evolves_learner.
  - intros _. apply Hv, Hg.
  - apply evolves_remove.
  - intros _. apply Hv, Hg.
  - apply evolves_single. intros n n'. destruct (is_learner_role n); [|done]. by intros [= <-].
  - intros _. apply Hv, Hg.
  - apply evolves_multiple. intros n. by destruct (is_i32_promotable _).
  - intros _. apply Hv. constructor.
  - apply evolves_removes.
  - intros _. apply Hv. constructor.
Qed.

Lemma run_alone_atomically {A B} (p : proc RaftMembership B) (k : B → accesses A) m :
  run_alone (atomically p k) m = (b ← p; run_alone (k b)) m.
Proof. simpl. unfold mbind, proc_bind. by destruct (p m) as [[m' [b|e]]|]. Qed.

(** A change followed by the version of the leader's request. *)
Lemma evolves_then_version {A} (p : proc RaftMembership unit) v (k : accesses A) m m' r :
  keeps evolves p → rm_cluster_conf_version m <= v → (∀ m1 m2 q, run_alone k m1 = Some (m2, q) → m2 = m1) →
  run_alone (atomically p (λ _, atomically (update_conf_version v) (λ _, k))) m = Some (m', r) → evolves m m'.
Proof.
  intros Hp Hv Hk. rewrite run_alone_atomically. intros (m1 & r1 & H1%Hp & H)%bind_inv.
  destruct r1; [|by destruct H as [-> ->]]. simpl in H. apply Hk in H as ->.
  destruct H1 as (? & ? & ? & ?). by split_and!.
Qed.

(** With nothing in between, a leader's request does not lower the version. *)
Lemma evolves_leader_change my_id t v l req :
  keeps evolves (run_alone (update_cluster_conf_from_leader my_id t v l req)).
Proof.
  unfold update_cluster_conf_from_leader. destruct l as [leader|]; [|by intros m m' r [= <- <-]].
  destruct (negb _); [by intros m m' r [= <- <-]|]. destruct (_ <? t); [by intros m m' r [= <- <-]|].
  intros m m' r. rewrite run_alone_atomically. intros (m1 & r1 & [= <- <-] & H)%bind_inv. revert H.
  destruct (N.ltb_spec (ccr_version req) (rm_cluster_conf_version m)); [by intros [= <- <-]|].
  destruct (ccr_change req ≫= mc_change) as [[id addr s|id|id s|ids s|ids]|]; [..|by intros [= <- <-]];
    [..|destruct (bool_decide _); [by intros [= <- <-]|]];
    (apply evolves_then_version; [|done|by intros m1 m2 q [= <- _]]).
  - apply evolves_learner.
  - apply evolves_remove.
  - apply evolves_single. intros n n'. destruct (is_learner_role n); [|done]. by intros [= <-].
  - apply evolves_multiple. intros n. by destruct (is_i32_promotable _).
  - apply evolves_removes.
Qed.

Lemma NoDup_fmap_filter {A B} (f : A → B) (P : A → Prop) `{!∀ x, Decision (P x)} (l : list A) :
  NoDup (f <$> l) → NoDup (f <$> filter P l).
Proof.
  induction l as [|x l IH]; [done|]. csimpl. intros [Hx Hl]%NoDup_cons.
  destruct (decide (P x)); [rewrite filter_cons_True by done|rewrite filter_cons_False by done; by apply IH].
  csimpl. apply NoDup_cons. split; [|by apply IH]. intros (y & Ey & [_ Hy]%list_elem_of_filter)%list_elem_of_fmap.
  apply Hx. apply list_elem_of_fmap. by exists y.
Qed.

(** The changes that are one access: those of the commit handler and of the roles. *)
Inductive local_change (m m' : RaftMembership) : Prop :=
  | lc_config c r : rm_apply_config_change c m = Some (m', r) → local_change m m'
  | lc_notify i : m' = rm_notify_config_applied i m → local_change m m'
  | lc_learner id addr s r : add_learner id addr s m = Some (m', r) → local_change m m'
  | lc_status id s r : update_node_status id s m = Some (m', r) → local_change m m'
  | lc_force_remove id r : force_remove_node id m = Some (m', r) → local_change m m'
  | lc_activate id r : activate_node id m = Some (m', r) → local_change m m'.

(** The membership with the leader requests that are being handled. *)
Abbreviation requests := (list (accesses ClusterConfUpdateResponse)).

(** Everything that changes a membership, access by access and in any order. *)
Inductive mem_step : RaftMembership * requests → RaftMembership * requests → Prop :=
  | mem_local m m' ps : local_change m m' → mem_step (m, ps) (m', ps)
  | mem_request my_id t v l req m ps :
      mem_step (m, ps) (m, ps ++ [update_cluster_conf_from_leader my_id t v l req])
  | mem_access i act m m' p' ps :
      ps !! i = Some (Access act) → act m = Some (m', p') → mem_step (m, ps) (m', <[i := p']> ps).

Lemma local_evolves m m' : local_change m m' → evolves m m'.
Proof.
  intros [c r H|i H|id addr s r H|id s r H|id r H|id r H].
  - by apply evolves_config in H.
  - subst. split_and!; simpl; (done || lia).
  - by apply evolves_learner in H.
  - revert H. apply evolves_single. by intros n n' [= <-].
  - by apply (evolves_remove id) in H.
  - by apply evolves_activate in H.
Qed.

Lemma reach_keyed c c' :
  rtc mem_step c c' → Forall keeps_keyed c.2 → stays_keyed c.1 c'.1 ∧ Forall keeps_keyed c'.2.
Proof.
  induction 1 as [c|c1 c2 c3 Hs _ IH]; [done|]. intros Hf.
  assert (stays_keyed c1.1 c2.1 ∧ Forall keeps_keyed c2.2) as [H1 H2].
  { destruct Hs as [m m' ps H|my_id t v l req m ps|i act m m' p' ps Hi Ha]; simpl in *.
    - split; [by apply evolves_stays, local_evolves|done].
    - split; [done|]. apply Forall_app. split; [done|]. constructor; [apply leader_change_keyed|done].
    - pose proof (Forall_lookup_1 _ _ _ _ Hf Hi) as Hk. inversion Hk as [|a Hst Hnext]; subst.
      split; [by eapply Hst|]. apply Forall_insert; [done|by eapply Hnext]. }
  destruct (IH H2) as [? ?]. split; [by etrans|done].
Qed.

Lemma keyed_new node_id nodes : keyed (rm_new node_id nodes).
Proof.
  unfold keyed, rm_new. simpl. intros id n. induction nodes as [|x nodes IH] using rev_ind; [done|].
  rewrite foldl_snoc. intros [[<- <-]|[_ ?]]%lookup_insert_Some; [done|by apply IH].
Qed.

End changes.

(** ** Runs *)

Module MembershipRuns.
Definition node_iter : MapIter N NodeMeta := map_to_list_iter N NodeMeta.
#[global] Existing Instance node_iter.

Definition voter (id : N) : NodeMeta := mkNodeMeta id "addr" (role_i32 NR_Follower) (status_i32 NS_Active).
Definition learner (id : N) : NodeMeta := mkNodeMeta id "addr" (role_i32 NR_Learner) (status_i32 NS_Promotable).
Definition change (c : Change) : MembershipChange := mkMembershipChange (Some c).

Definition one_voter : RaftMembership := rm_new 1 [voter 1; learner 2; learner 3].
Definition three_voters : RaftMembership := rm_new 1 [voter 1; voter 2; voter 3; learner 4].
End MembershipRuns.
Import MembershipRuns.

Lemma single_change_quorums_overlap_witness :
  ∃ m', rm_apply_config_change (change (Promote 4 0)) three_voters = Some (m', Ok tt)
    ∧ majority {[2; 4; 1]} (voter_set m') ∧ ∃ x, x ∈ ({[1; 3]} : gset N) ∧ x ∈ ({[2; 4; 1]} : gset N).
Proof.
  eexists. split; [vm_compute; reflexivity|].
  assert (majority {[2; 4; 1]} (voter_set (rm_new 1 [voter 1; voter 2; voter 3; voter 4]))) as Hm
    by (split; [by apply (bool_decide_unpack _); vm_compute|vm_compute; lia]).
  split; [exact Hm|].
  eapply (single_change_quorums_overlap (change (Promote 4 0)) three_voters); [exact I|vm_compute; reflexivity| |exact Hm].
  split; [by apply (bool_decide_unpack _); vm_compute|vm_compute; lia].
Defined.


(** ** Changes that do otherwise *)

(** Promoting two learners of a single voter in one change: the old majority {1} and the
    new majority {2, 3} have no node in common. *)
Theorem batch_promotion_splits_quorums :
  ∃ m', rm_apply_config_change (change (BatchPromote [2; 3] 3)) one_voter = Some (m', Ok tt)
    ∧ majority {[1]} (voter_set one_voter) ∧ majority {[2; 3]} (voter_set m')
    ∧ ({[1]} : gset N) ∩ {[2; 3]} = ∅.
Proof.
  eexists. split; [vm_compute; reflexivity|].
  split_and!; [split; [by apply (bool_decide_unpack _); vm_compute|vm_compute; lia]..|by vm_compute].
Qed.

(** A batch with an unknown node fails after it has promoted the nodes before it: the error
    is returned, and the promotion stays. *)
Theorem failed_batch_promotion_is_partial :
  ∃ m', rm_apply_config_change (change (BatchPromote [2; 9] 3)) one_voter = Some (m', Err (NoMetadataFoundForNode 9))
    ∧ voter_set m' = {[1; 2]} ∧ rm_notifier m' = rm_notifier one_voter.
Proof. eexists. split; [vm_compute; reflexivity|]. split; vm_compute; reflexivity. Qed.

(** A node added with the status of a voter votes at once, while its role and the
    notification say that it is a learner. *)
Theorem added_learner_can_vote :
  ∃ m', rm_apply_config_change (change (AddNode 4 "addr" 3)) one_voter = Some (m', Ok tt)
    ∧ nm_id <$> voters m' = [4] ∧ voter_set m' = {[1; 4]}
    ∧ ms_learners (rm_notifier (rm_notify_config_applied 7 m')) = {[2; 3; 4]}.
Proof. eexists. split; [vm_compute; reflexivity|]. split_and!; vm_compute; reflexivity. Qed.

(** The next [n] accesses of a request. *)
Fixpoint run_accesses {A} (n : nat) (p : accesses A) (m : RaftMembership) : option (RaftMembership * accesses A) :=
  match n, p with
  | O, _ => Some (m, p)
  | S n', Access act => '(m', p') ← act m; run_accesses n' p' m'
  | S _, Finished _ => None
  end.

Lemma run_accesses_steps n p m m' p' :
  run_accesses n p m = Some (m', p') → rtc mem_step (m, [p]) (m', [p']).
Proof.
  revert p m. induction n as [|n IH]; intros p m; simpl; [by intros [= <- <-]|].
  destruct p as [|act]; [done|]. destruct (act m) as [[m1 p1]|] eqn:E; [|done]. simpl. intros H.
  eapply rtc_l; [by eapply (mem_access 0)|]. by apply IH.
Qed.

Definition removal : accesses ClusterConfUpdateResponse :=
  update_cluster_conf_from_leader 1 1 5 (Some 2) (mkClusterConfChangeRequest 2 1 5 (Some (change (RemoveNode 4)))).

Definition at_version (v : N) (m : RaftMembership) : RaftMembership := m <| rm_cluster_conf_version := v |>.

(** A request of the leader to remove a node, with the node's own version: the removal counts
    the version up and the write after it sets it back, each visible to other tasks. A
    committed removal applied in between is lost from the version for good, although the
    node it removed stays removed. *)
Theorem leader_request_lowers_the_version :
  let start := at_version 5 three_voters in
  (λ n, rm_cluster_conf_version ∘ fst <$> run_accesses n removal start) <$> [0; 1; 2; 3; 4]%nat
    = Some <$> [5; 5; 6; 5; 5]
  ∧ match run_accesses 2 removal start with
    | Some (m1, rest) =>
        match rm_apply_config_change (change (RemoveNode 3)) m1 with
        | Some (m2, Ok _) =>
            rm_cluster_conf_version m2 = 7
            ∧ match run_accesses 2 rest m2 with
              | Some (m3, Finished r) =>
                  r = Ok (conf_success 1 1 5) ∧ rm_cluster_conf_version m3 = 5 ∧ rm_nodes m3 !! 3 = None
              | _ => False
              end
        | _ => False
        end
    | None => False
    end.
Proof. split; [by vm_compute|]. vm_compute. by split_and!. Qed.
