(* ===== verification/FileStorage.v ===== *)
(** * The file-based storage engine

    [d-engine-server/src/storage/adaptors/file/file_storage_engine.rs]: a log store that
    appends length-prefixed entries to one file, with the entries and the end position of
    each record in memory, and a store for the hard state. [FileLogStore] is the memory
    with the file: its content, and its content when it was last synced. Each operation
    on the file takes its outcome from [fl_io]; reading the file at start-up succeeds.
    prost's encoding of an entry and bincode's of the hard state are parameters with
    their round-trip laws. *)

From stdpp Require Import base tactics numbers option list gmap strings countable.
From S2P Require Import Prelude Proc Types TermSegments BufferedLog LogInv LogSpec LogStore Roles Codec.

(** [Entry::encode_to_vec], [Entry::decode]. *)
Class EntryCodec := {
  encode_to_vec : Entry → bytes;
  entry_decode : bytes → option Entry;
  entry_round_trip e : entry_decode (encode_to_vec e) = Some e;
}.

Record LogFile := mkLogFile { lf_content : bytes; lf_synced : bytes }.

Record FileLogStore := mkFileLogStore {
  fl_entries : gmap N Entry;
  fl_file : LogFile;
  index_end_pos : gmap N N;
  fl_last_index : N;
  fl_io : list io_outcome;
}.

#[global] Instance LogFile_settable : Settable LogFile := λ f, mkLogFile (lf_content f) (lf_synced f).
#[global] Instance FileLogStore_settable : Settable FileLogStore := λ s,
  mkFileLogStore (fl_entries s) (fl_file s) (index_end_pos s) (fl_last_index s) (fl_io s).

Abbreviation fls := (proc FileLogStore).

(** ** Operations on the file *)

(** The outcome of the next operation; without a scheduled failure it succeeds. *)
Definition next_io : fls io_outcome := λ s,
  match fl_io s with
  | [] => Some (s, Ok IoDone)
  | io :: q => Some (s <| fl_io := q |>, Ok io)
  end.

Definition set_content (b : bytes) : fls unit := modify (λ s, s <| fl_file ::= λ f, f <| lf_content := b |> |>).

(** [File::set_len]: cuts the file, or fills it with zeros. *)
Definition set_len (n : N) : fls unit :=
  io ← next_io; s ← get;
  match io with
  | IoDone => set_content (resize (N.to_nat n) 0 (lf_content (fl_file s)))
  | _ => fail IoError
  end.

(** [File::sync_all]. *)
Definition sync_all : fls unit :=
  io ← next_io;
  match io with
  | IoDone => modify (λ s, s <| fl_file ::= λ f, f <| lf_synced := lf_content f |> |>)
  | _ => fail IoError
  end.

Section store.
Context `{!EntryCodec}.

(** [write_encoded]: the length and the entry at the end of the file, which no system lets
    grow past a 64-bit offset. The position afterwards is the end of the record. *)
Definition write_encoded (encoded : bytes) : fls N :=
  io ← next_io; s ← get;
  let content := lf_content (fl_file s) in
  let io := if u64_max <? N.of_nat (length content + length (sized encoded)) then OpenFailed else io in
  let r := append_file io (sized encoded) (Some content) in
  set_content (default content r.1);;
  match r.2 with
  | Ok _ => mret (N.of_nat (length (default content r.1)))
  | Err e => fail e
  end.

(** [end_pos_before]: the last position of an index below [from_index]. *)
Definition end_pos_before (from_index : N) (s : FileLogStore) : N :=
  default 0 (snd <$> om_back (filter (λ p, p.1 < from_index) (index_end_pos s))).

Definition remove_from_index (from_index : N) (s : FileLogStore) : FileLogStore :=
  let keys := (filter (λ p, from_index <= p.1) (om_iter (fl_entries s))).*1 in
  s <| fl_entries ::= λ m, foldl (λ m k, delete k m) m keys |>
    <| index_end_pos ::= λ m, foldl (λ m k, delete k m) m keys |>.

(** ** Loading *)

(** The loop of [load_from_file] on the bytes from [pos] on: every complete record, with
    the position after it; one that does not decode is skipped. [None] is the overflow of
    [data_start + entry_len]. *)
Fixpoint load_records (fuel : nat) (pos : N) (rest : bytes) : option (list (Entry * N)) :=
  match fuel, rest with
  | S fuel', _ :: _ =>
      match p_sized pos rest with
      | Parsed entry_data end_pos rest' =>
          let! l := load_records fuel' end_pos rest' in
          Some (match entry_decode entry_data with Some e => (e, end_pos) :: l | None => l end)
      | Overflow => None
      | _ => Some []
      end
  | _, _ => Some []
  end.

Definition load_record (s : FileLogStore) (p : Entry * N) : FileLogStore :=
  s <| fl_entries ::= <[e_index p.1 := p.1]> |>
    <| index_end_pos ::= <[e_index p.1 := p.2]> |>
    <| fl_last_index ::= N.max (e_index p.1) |>.

(** [FileLogStore::new] on the file a previous run left. *)
Definition fl_new (content : bytes) (ios : list io_outcome) : option FileLogStore :=
  let! l := load_records (length content) 0 content in
  Some (foldl load_record (mkFileLogStore ∅ (mkLogFile content content) ∅ 0 ios) l).

(** ** The log store *)

Definition write_entry (e : Entry) : fls unit :=
  end_pos ← write_encoded (encode_to_vec e);
  modify (λ s, s <| fl_entries ::= <[e_index e := e]> |> <| index_end_pos ::= <[e_index e := end_pos]> |>).

Definition fl_persist_entries (es : list Entry) : fls unit :=
  match es with
  | [] => mret tt
  | _ => for_each write_entry es;;
         modify (λ s, s <| fl_last_index := foldl (λ a e, N.max a (e_index e)) 0 es |>)
  end.

Definition fl_entry (index : N) (s : FileLogStore) : option Entry := fl_entries s !! index.

Definition fl_get_entries (lo hi : N) (s : FileLogStore) : list Entry := (om_range lo hi (fl_entries s)).*2.

Definition rewrite_entry (e : Entry) : fls unit :=
  end_pos ← write_encoded (encode_to_vec e);
  modify (λ s, s <| index_end_pos ::= <[e_index e := end_pos]> |>).

(** [purge]: [cutoff_index.index + 1] overflows at the last index. *)
Definition fl_purge (cutoff : LogId) : fls unit :=
  s ← get;
  if u64_max <? lid_index cutoff + 1 then panic else
  let keep := (filter (λ p, lid_index cutoff + 1 <= p.1) (om_iter (fl_entries s))).*2 in
  set_len 0;;
  modify (λ s, s <| index_end_pos := ∅ |>);;
  for_each rewrite_entry keep;;
  sync_all;;
  modify (λ s, s <| fl_entries ::= filter (λ p, lid_index cutoff < p.1) |>).

Definition last_key (s : FileLogStore) : N := default 0 (fst <$> om_back (fl_entries s)).

Definition cut_from (from_index : N) : fls unit :=
  s ← get;
  set_len (end_pos_before from_index s);;
  modify (remove_from_index from_index).

Definition store_new_last : fls unit := modify (λ s, s <| fl_last_index := last_key s |>).

Definition fl_truncate (from_index : N) : fls unit := cut_from from_index;; store_new_last.

Definition fl_replace_range (from_index : N) (new_entries : list Entry) : fls unit :=
  cut_from from_index;; for_each write_entry new_entries;; store_new_last.

Definition fl_flush : fls unit := sync_all.

Definition fl_reset : fls unit :=
  set_len 0;;
  modify (λ s, s <| fl_entries := ∅ |> <| index_end_pos := ∅ |> <| fl_last_index := 0 |>).

(** The store as the raft log uses it. A panic ends the raft-io thread; here it is an error
    of the call, after which the log writes nothing more either. *)
Definition or_panic (p : fls unit) (s : FileLogStore) : FileLogStore * result unit :=
  default (s, Err (Fatal "panic")) (p s).

#[export] Instance FileLogStore_LogStore : LogStore FileLogStore := {
  persist_entries s es := or_panic (fl_persist_entries es) s;
  store_entry s i := fl_entry i s;
  get_entries s lo hi := fl_get_entries lo hi s;
  store_purge s c := or_panic (fl_purge c) s;
  store_truncate s i := or_panic (fl_truncate i) s;
  replace_range s i es := or_panic (fl_replace_range i es) s;
  is_write_durable _ := false;
  store_flush s := or_panic fl_flush s;
  store_reset s := or_panic fl_reset s;
  store_last_index := fl_last_index;
  load_purge_boundary _ := Ok None;
}.
End store.

(** ** The store of the hard state *)

(** [bincode::serialize], [bincode::deserialize::<HardState>]. *)
Class HardStateCodec := {
  hs_serialize : HardState → bytes;
  hs_deserialize : bytes → option HardState;
  hs_round_trip h : hs_deserialize (hs_serialize h) = Some h;
}.

(** [HARD_STATE_KEY]: the bytes of "hard_state". *)
Definition HARD_STATE_KEY : bytes := [104; 97; 114; 100; 95; 115; 116; 97; 116; 101].

Record FileMetaStore := mkFileMetaStore { fm_data : gmap bytes bytes; hard_state_bin : option bytes }.

#[global] Instance FileMetaStore_settable : Settable FileMetaStore := λ s,
  mkFileMetaStore (fm_data s) (hard_state_bin s).

Section meta.
Context `{!HardStateCodec}.

(** [FileMetaStore::new] with [load_from_file]: a file that does not decode is ignored. *)
Definition fm_new (file : option bytes) : FileMetaStore :=
  mkFileMetaStore
    (match file with
     | Some buffer => match hs_deserialize buffer with
                      | Some _ => {[HARD_STATE_KEY := buffer]}
                      | None => ∅
                      end
     | None => ∅
     end) file.

(** [save_to_file]: [File::create] empties the file before the new state is written. *)
Definition save_to_file (io : io_outcome) (key value : bytes) : proc FileMetaStore unit := λ s,
  if bool_decide (key = HARD_STATE_KEY)
  then let r := write_file io value (hard_state_bin s) in
       Some (s <| hard_state_bin := r.1 |>, r.2)
  else Some (s, Ok tt).

Definition fm_save_hard_state (io : io_outcome) (h : HardState) : proc FileMetaStore unit :=
  let serialized := hs_serialize h in
  modify (λ s, s <| fm_data ::= <[HARD_STATE_KEY := serialized]> |>);;
  save_to_file io HARD_STATE_KEY serialized.

Definition fm_load_hard_state (s : FileMetaStore) : result (option HardState) :=
  match fm_data s !! HARD_STATE_KEY with
  | Some b => match hs_deserialize b with
              | Some h => Ok (Some h)
              | None => Err BincodeError
              end
  | None => Ok None
  end.
End meta.
