(* ===== verification/FileStorageSpec.v ===== *)
(** * The log file, read back

    The file of [FileStorage.v] as a list of records: what [load_from_file] reads from a
    file that was cut anywhere behind its synced part, and the laws of [LogStore] for the
    file store. *)

From stdpp Require Import countable base tactics numbers option list sorting gmap strings.
From S2P Require Import Prelude Proc Types TermSegments BufferedLog LogInv LogSpec LogStore Codec FileStorage.

Section spec.
Context {codec : EntryCodec}.

Definition encode_entry (e : Entry) : bytes := sized (encode_to_vec e).

Definition encode_entries (es : list Entry) : bytes := es ≫= encode_entry.

Lemma encode_entries_app es1 es2 : encode_entries (es1 ++ es2) = encode_entries es1 ++ encode_entries es2.
Proof. apply bind_app. Qed.

Lemma encode_entries_cons e es : encode_entries (e :: es) = encode_entry e ++ encode_entries es.
Proof. done. Qed.

(** The records with the position after each of them. *)
Fixpoint placed (pos : N) (es : list Entry) : list (Entry * N) :=
  match es with
  | [] => []
  | e :: es' =>
      let end_pos := pos + N.of_nat (length (encode_entry e)) in (e, end_pos) :: placed end_pos es'
  end.

Lemma placed_fst pos es : (placed pos es).*1 = es.
Proof. revert pos. induction es as [|e es IH]; intros pos; [done|]. csimpl. by rewrite IH. Qed.

(** What a write that did not complete leaves of a record. *)
Definition torn (t : bytes) : Prop := t = [] ∨ ∃ e, strict_prefix t (encode_entry e).

(** ** Prefixes of the file *)

Lemma prefix_of_entries t es :
  t `prefix_of` encode_entries es →
  ∃ j t', t = encode_entries (take j es) ++ t'
          ∧ (t' = [] ∨ ∃ e, es !! j = Some e ∧ strict_prefix t' (encode_entry e)).
Proof.
  revert t. induction es as [|e es IH]; intros t Ht.
  { apply prefix_nil_inv in Ht as ->. exists 0%nat, []. auto. }
  destruct Ht as [u Hu]. rewrite encode_entries_cons in Hu.
  apply app_eq_inv in Hu as [(k & H1 & Hk)|(k & -> & Hk)].
  - destruct k as [|x k].
    + rewrite app_nil_r in H1. exists 1%nat, []. split; [|by left].
      rewrite firstn_cons, encode_entries_cons, H1, take_0. by rewrite !app_nil_r.
    + exists 0%nat, t. split; [done|]. right. exists e. split; [done|]. by exists x, k.
  - destruct (IH k) as (j & t' & -> & Ht'); [by exists u|].
    exists (S j), t'. split; [by rewrite firstn_cons, encode_entries_cons, <-app_assoc|done].
Qed.

Lemma length_encode_entry e : (8 <= length (encode_entry e))%nat.
Proof. unfold encode_entry, sized. rewrite length_app, length_be64. lia. Qed.

Lemma reads_entry e :
  N.of_nat (length (encode_entry e)) <= u64_max → reads p_sized (encode_entry e) (encode_to_vec e).
Proof. intros Hlen. apply reads_sized. unfold encode_entry, sized in Hlen. rewrite length_app in Hlen. lia. Qed.

(** ** Loading *)

Lemma load_records_torn fuel pos e t :
  strict_prefix t (encode_entry e) → pos + N.of_nat (length (encode_entry e)) <= u64_max →
  load_records fuel pos t = Some [].
Proof.
  intros Ht Hlen. destruct fuel as [|fuel]; [done|]. destruct t as [|x t]; [done|].
  cbn [load_records]. rewrite (reads_part _ _ _ (reads_entry e ltac:(lia))); [done|done|lia].
Qed.

Lemma load_records_placed fuel pos es t :
  (length (encode_entries es ++ t) <= fuel)%nat →
  pos + N.of_nat (length (encode_entries es ++ t)) <= u64_max →
  (∀ fuel pos', pos <= pos' <= pos + N.of_nat (length (encode_entries es)) → load_records fuel pos' t = Some []) →
  load_records fuel pos (encode_entries es ++ t) = Some (placed pos es).
Proof.
  revert fuel pos. induction es as [|e es IH]; intros fuel pos Hfuel Hlen Ht.
  { simpl. apply Ht. lia. }
  rewrite encode_entries_cons, <-app_assoc in *. pose proof (length_encode_entry e) as H8.
  rewrite !length_app in *. destruct fuel as [|fuel]; [lia|].
  destruct (encode_entry e ++ encode_entries es ++ t) as [|x rest] eqn:Hne.
  { apply (f_equal length) in Hne. rewrite !length_app in Hne. simpl in Hne. lia. }
  cbn [load_records placed]. rewrite <-Hne.
  rewrite (reads_all _ _ _ (reads_entry e ltac:(lia))) by (rewrite length_app; lia).
  rewrite IH; [|lia|lia|intros; apply Ht; lia].
  simpl. by rewrite entry_round_trip.
Qed.

Lemma foldl_max_entry_index es : foldl (λ a e, N.max (e_index e) a) 0 es = max_entry_index es.
Proof.
  assert (Hgen : ∀ a, foldl (λ a e, N.max (e_index e) a) a es = N.max a (max_entry_index es)).
  { induction es as [|e es IH]; intros a; simpl; [lia|]. rewrite IH. lia. }
  rewrite Hgen. lia.
Qed.

Lemma load_record_entries l s :
  fl_entries (foldl load_record s l) = insert_entries (fl_entries s) l.*1
  ∧ fl_file (foldl load_record s l) = fl_file s
  ∧ fl_last_index (foldl load_record s l) = foldl (λ a e, N.max (e_index e) a) (fl_last_index s) l.*1
  ∧ index_end_pos (foldl load_record s l) = foldl (λ m p, <[e_index p.1 := p.2]> m) (index_end_pos s) l.
Proof. revert s. induction l as [|p l IH]; intros s; [done|].
  cbn [foldl]. by destruct (IH (load_record s p)) as (-> & -> & -> & ->).
Qed.

(** A file of complete records, the last of them possibly cut. *)
Lemma fl_new_entries es t ios :
  N.of_nat (length (encode_entries es)) <= u64_max →
  (t = [] ∨ ∃ e, strict_prefix t (encode_entry e)
                 ∧ N.of_nat (length (encode_entries es ++ encode_entry e)) <= u64_max) →
  ∃ s, fl_new (encode_entries es ++ t) ios = Some s ∧ fl_entries s = insert_entries ∅ es
       ∧ fl_last_index s = max_entry_index es
       ∧ index_end_pos s = foldl (λ m p, <[e_index p.1 := p.2]> m) ∅ (placed 0 es).
Proof.
  intros Hlen Ht.
  assert (Hload : load_records (length (encode_entries es ++ t)) 0 (encode_entries es ++ t) = Some (placed 0 es)).
  { apply load_records_placed; [done| |].
    - destruct Ht as [->|(e & Ht%strict_prefix_length & Hle)]; rewrite ?app_nil_r, ?length_app in *; lia.
    - intros fuel pos Hpos. destruct Ht as [->|(e & Ht & Hle)]; [by destruct fuel|].
      eapply load_records_torn; [exact Ht|]. rewrite length_app in Hle. lia. }
  unfold fl_new. rewrite Hload. simpl. eexists. split; [done|].
  destruct (load_record_entries (placed 0 es) (mkFileLogStore ∅ (mkLogFile (encode_entries es ++ t) (encode_entries es ++ t)) ∅ 0 ios))
    as (-> & _ & -> & ->). rewrite placed_fst. split_and!; [done| |done]. apply foldl_max_entry_index.
Qed.

(** What any power loss between the synced and the written contents leaves. *)
Lemma fl_new_crash es us c ios :
  N.of_nat (length (encode_entries (es ++ us))) <= u64_max →
  encode_entries es `prefix_of` c → c `prefix_of` encode_entries (es ++ us) →
  ∃ j s, fl_new c ios = Some s ∧ fl_entries s = insert_entries ∅ (es ++ take j us).
Proof.
  intros Hlen [d ->] Hc. rewrite encode_entries_app in Hc. apply prefix_app_inv in Hc.
  destruct (prefix_of_entries _ _ Hc) as (j & t & -> & Ht). exists j.
  rewrite app_assoc, <-encode_entries_app.
  assert (Hle : (length (encode_entries (es ++ take j us)) <= length (encode_entries (es ++ us)))%nat).
  { rewrite <-(take_drop j us) at 2. rewrite app_assoc, (encode_entries_app (_ ++ _)), length_app. lia. }
  destruct (fl_new_entries (es ++ take j us) t ios) as (s & Hs & Hent & _); [lia| |by exists s].
  destruct Ht as [->|(e & Hj & Ht)]; [by left|]. right. exists e. split; [done|].
  rewrite <-(take_drop_middle us j e Hj) in Hlen.
  rewrite app_assoc, encode_entries_app, encode_entries_cons, !length_app in Hlen.
  rewrite length_app. lia.
Qed.

(** ** Writing *)

(** Bytes appended to the file, and nothing else but the schedule of outcomes changed. *)
Record appended (b : bytes) (s s' : FileLogStore) : Prop := {
  ap_content : lf_content (fl_file s') = lf_content (fl_file s) ++ b;
  ap_synced : lf_synced (fl_file s') = lf_synced (fl_file s);
  ap_fits : b ≠ [] → N.of_nat (length (lf_content (fl_file s'))) <= u64_max;
  ap_last : fl_last_index s' = fl_last_index s;
}.

Lemma next_io_inv s s1 r : next_io s = Some (s1, r) → ∃ q io, s1 = s <| fl_io := q |> ∧ r = Ok io.
Proof.
  unfold next_io. destruct s as [en f ep li [|io q]]; simpl; intros [= <- <-].
  - by exists [], IoDone.
  - by exists q, io.
Qed.

Lemma write_encoded_inv b s s' p :
  write_encoded b s = Some (s', Ok p) →
  appended (sized b) s s' ∧ p = N.of_nat (length (lf_content (fl_file s')))
  ∧ fl_entries s' = fl_entries s ∧ index_end_pos s' = index_end_pos s.
Proof.
  unfold write_encoded. intros (s1 & r1 & H1 & H2)%bind_inv.
  apply next_io_inv in H1 as (q & io & -> & ->). unfold mbind, proc_bind, get, set_content, modify in H2.
  generalize dependent (sized b). intros w H2. simpl in H2.
  destruct (N.ltb_spec u64_max (N.of_nat (length (lf_content (fl_file s)) + length w))) as [|Hfit]; [done|].
  destruct io; simpl in H2; [done|done|]. injection H2 as <- <-.
  split; [|done]. split; [done|done| |done]. intros _. simpl. by rewrite length_app.
Qed.

Lemma appended_trans b1 b2 s1 s2 s3 : appended b1 s1 s2 → appended b2 s2 s3 → appended (b1 ++ b2) s1 s3.
Proof.
  intros [Hc1 Hs1 Hf1 Hl1] [Hc2 Hs2 Hf2 Hl2].
  split; [by rewrite Hc2, Hc1, app_assoc|congruence| |congruence].
  intros Hne. destruct b2 as [|x b2]; [|by apply Hf2]. rewrite app_nil_r in *. rewrite Hc2.
  by apply Hf1.
Qed.

Lemma for_each_cons_inv {S A} (f : A → proc S unit) x xs s s' r :
  for_each f (x :: xs) s = Some (s', Ok r) →
  ∃ s1, f x s = Some (s1, Ok tt) ∧ for_each f xs s1 = Some (s', Ok r).
Proof.
  cbn [for_each]. intros (s1 & [] & H1 & H2)%bind_ok_inv. by exists s1.
Qed.

Lemma for_each_appended (f : Entry → fls unit) es s s' :
  (∀ e s1 s2, f e s1 = Some (s2, Ok tt) → appended (encode_entry e) s1 s2) →
  for_each f es s = Some (s', Ok tt) → appended (encode_entries es) s s'.
Proof.
  intros Hf. revert s. induction es as [|e es IH]; intros s.
  { intros [= <-]. split; [|done..]. symmetry. apply app_nil_r. }
  intros (s1 & H1 & H2)%for_each_cons_inv. rewrite encode_entries_cons.
  eapply appended_trans; [by apply Hf|by apply IH].
Qed.

Lemma write_entry_inv e s s' :
  write_entry e s = Some (s', Ok tt) →
  appended (encode_entry e) s s' ∧ fl_entries s' = <[e_index e := e]> (fl_entries s)
  ∧ index_end_pos s' = <[e_index e := N.of_nat (length (lf_content (fl_file s')))]> (index_end_pos s).
Proof.
  intros (s1 & p & H1 & H2)%bind_ok_inv.
  apply write_encoded_inv in H1 as ([Hc Hs Hf Hl] & -> & He & Hp). injection H2 as <-.
  split; [by split|]. simpl. by rewrite He, Hp.
Qed.

Lemma rewrite_entry_inv e s s' :
  rewrite_entry e s = Some (s', Ok tt) →
  appended (encode_entry e) s s' ∧ fl_entries s' = fl_entries s
  ∧ index_end_pos s' = <[e_index e := N.of_nat (length (lf_content (fl_file s')))]> (index_end_pos s).
Proof.
  intros (s1 & p & H1 & H2)%bind_ok_inv.
  apply write_encoded_inv in H1 as ([Hc Hs Hf Hl] & -> & He & Hp). injection H2 as <-.
  split; [by split|]. simpl. by rewrite He, Hp.
Qed.

(** [persist_entries] and [replace_range]: memory and file follow. *)
Lemma write_entries_inv es s s' :
  for_each write_entry es s = Some (s', Ok tt) →
  appended (encode_entries es) s s' ∧ fl_entries s' = insert_entries (fl_entries s) es.
Proof.
  intros Hw. split; [eapply for_each_appended; [|exact Hw]; intros ? ? ? Hw'; by apply write_entry_inv|].
  revert s Hw. induction es as [|e es IH]; intros s; [by intros [= <-]|].
  intros (s1 & (_ & He & _)%write_entry_inv & ->%IH)%for_each_cons_inv. simpl. by rewrite He.
Qed.

(** [purge]: only the file follows. *)
Lemma rewrite_entries_inv es s s' :
  for_each rewrite_entry es s = Some (s', Ok tt) →
  appended (encode_entries es) s s' ∧ fl_entries s' = fl_entries s.
Proof.
  intros Hw. split; [eapply for_each_appended; [|exact Hw]; intros ? ? ? Hw'; by apply rewrite_entry_inv|].
  revert s Hw. induction es as [|e es IH]; intros s; [by intros [= <-]|].
  intros (s1 & (_ & He & _)%rewrite_entry_inv & ->%IH)%for_each_cons_inv. done.
Qed.

Lemma set_len_inv n s s' :
  set_len n s = Some (s', Ok tt) →
  ∃ q, s' = s <| fl_io := q |> <| fl_file ::= λ f, f <| lf_content := resize (N.to_nat n) 0 (lf_content f) |> |>.
Proof.
  unfold set_len. intros (s1 & r1 & H1 & H2)%bind_inv.
  apply next_io_inv in H1 as (q & io & -> & ->). apply bind_inv in H2 as (s2 & r2 & [= <- <-] & H2).
  destruct io; [done|done|]. injection H2 as <-. by exists q.
Qed.

Lemma sync_all_inv s s' :
  sync_all s = Some (s', Ok tt) →
  ∃ q, s' = s <| fl_io := q |> <| fl_file ::= λ f, f <| lf_synced := lf_content f |> |>.
Proof.
  unfold sync_all. intros (s1 & r1 & H1 & H2)%bind_inv.
  apply next_io_inv in H1 as (q & io & -> & ->). destruct io; [done|done|]. injection H2 as <-. by exists q.
Qed.

(** The entries a purge keeps, in order. *)
Definition kept (cutoff : LogId) (m : gmap N Entry) : list Entry :=
  (filter (λ p, lid_index cutoff + 1 <= p.1) (om_iter m)).*2.

Lemma elem_of_kept cutoff (m : gmap N Entry) e :
  (∀ i e, m !! i = Some e → e_index e = i) →
  e ∈ kept cutoff m ↔ m !! e_index e = Some e ∧ lid_index cutoff < e_index e.
Proof.
  intros Hkeys. unfold kept. rewrite list_elem_of_fmap. split.
  - intros ([k x] & -> & [Hk Hin%elem_of_om_iter]%list_elem_of_filter). simpl in *.
    rewrite (Hkeys k x Hin). split; [done|lia].
  - intros [He Hlt]. exists (e_index e, e). split; [done|]. apply list_elem_of_filter.
    rewrite elem_of_om_iter. split; [simpl; lia|done].
Qed.

Lemma insert_kept cutoff (m : gmap N Entry) :
  (∀ i e, m !! i = Some e → e_index e = i) →
  insert_entries ∅ (kept cutoff m) = filter (λ p, lid_index cutoff < p.1) m.
Proof.
  intros Hkeys. apply map_eq. intros i. apply option_eq. intros e.
  rewrite map_lookup_filter_Some. simpl. split.
  - intros [He|[<- He]]%insert_entries_Some; [by rewrite lookup_empty in He|].
    by apply elem_of_kept in He.
  - intros [He Hlt]. pose proof (Hkeys _ _ He) as <-.
    apply insert_entries_in; [by apply elem_of_kept|done|].
    intros e' [He' _]%elem_of_kept Hi; [|done]. rewrite Hi in He'. congruence.
Qed.

Lemma fl_purge_run cutoff s s' :
  fl_purge cutoff s = Some (s', Ok tt) →
  ∃ s1 s2 q, s1 = s <| fl_io := fl_io s1 |> <| fl_file ::= λ f, f <| lf_content := [] |> |> <| index_end_pos := ∅ |>
  ∧ for_each rewrite_entry (kept cutoff (fl_entries s)) s1 = Some (s2, Ok tt)
  ∧ s' = s2 <| fl_io := q |> <| fl_file ::= λ f, f <| lf_synced := lf_content f |> |>
            <| fl_entries ::= filter (λ p, lid_index cutoff < p.1) |>.
Proof.
  unfold fl_purge. intros (s1 & r1 & [= <- <-] & H)%bind_inv.
  destruct (u64_max <? lid_index cutoff + 1); [done|].
  apply bind_ok_inv in H as (s1 & [] & (q & ->)%set_len_inv & H).
  apply bind_ok_inv in H as (s2 & r2 & [= <- <-] & H).
  apply bind_ok_inv in H as (s3 & [] & Hw & H).
  apply bind_ok_inv in H as (s4 & [] & (q' & ->)%sync_all_inv & [= <-]).
  eexists _, s3, q'. split; [|by split]. simpl. by rewrite resize_0.
Qed.

Lemma fl_purge_inv cutoff s s' :
  fl_purge cutoff s = Some (s', Ok tt) →
  lf_content (fl_file s') = encode_entries (kept cutoff (fl_entries s))
  ∧ lf_synced (fl_file s') = lf_content (fl_file s')
  ∧ N.of_nat (length (lf_content (fl_file s'))) <= u64_max
  ∧ fl_entries s' = filter (λ p, lid_index cutoff < p.1) (fl_entries s).
Proof.
  intros (s1 & s2 & q & Hs1 & ([Hc _ Hf _] & He)%rewrite_entries_inv & ->)%fl_purge_run.
  rewrite Hs1 in Hc, He. simpl in *. split_and!; [done|done| |by rewrite He].
  rewrite Hc in Hf |- *.
  destruct (encode_entries (kept cutoff (fl_entries s))); [by vm_compute|by apply Hf].
Qed.

(** ** The laws *)

(** No operation has failed and the file was only appended to since it was last synced:
    it holds the entries in the order they were written. *)
Definition fl_ok (s : FileLogStore) : Prop := ∃ es us,
  lf_synced (fl_file s) = encode_entries es ∧ lf_content (fl_file s) = encode_entries (es ++ us)
  ∧ fl_entries s = insert_entries ∅ (es ++ us)
  ∧ N.of_nat (length (lf_content (fl_file s))) <= u64_max.

(** Every file between the synced and the written one loads the entry. *)
Definition fl_survives (s : FileLogStore) (i : N) (e : Entry) : Prop :=
  ∀ c ios, lf_synced (fl_file s) `prefix_of` c → c `prefix_of` lf_content (fl_file s) →
  ∃ s', fl_new c ios = Some s' ∧ fl_entry i s' = Some e.

Lemma fl_ok_keys s i e : fl_ok s → fl_entries s !! i = Some e → e_index e = i.
Proof.
  intros (es & us & _ & _ & -> & _) [He|[<- _]]%insert_entries_Some; [by rewrite lookup_empty in He|done].
Qed.

(** Which entries survive, in terms of the records. *)
Lemma fl_survives_records s es us i e :
  lf_synced (fl_file s) = encode_entries es → lf_content (fl_file s) = encode_entries (es ++ us) →
  N.of_nat (length (lf_content (fl_file s))) <= u64_max →
  fl_survives s i e ↔ ∀ j, insert_entries ∅ (es ++ take j us) !! i = Some e.
Proof.
  intros Hs Hc Hlen. split.
  - intros Hsv j. destruct (Hsv (encode_entries (es ++ take j us)) []) as (s' & Hnew & He).
    + rewrite Hs, encode_entries_app. by apply prefix_app_r.
    + rewrite Hc, !encode_entries_app. apply prefix_app. rewrite <-(take_drop j us) at 2.
      rewrite encode_entries_app. by apply prefix_app_r.
    + destruct (fl_new_entries (es ++ take j us) [] []) as (s1 & Hn1 & He1 & _); [|by left|].
      * rewrite Hc, <-(take_drop j us), app_assoc, (encode_entries_app (_ ++ _)), length_app in Hlen. lia.
      * rewrite app_nil_r in Hn1. unfold fl_entry in He. congruence.
  - intros Hj c ios H1 H2. rewrite Hs in H1. rewrite Hc in H2, Hlen.
    destruct (fl_new_crash es us c ios Hlen H1 H2) as (j & s' & Hn & He).
    exists s'. split; [done|]. unfold fl_entry. by rewrite He.
Qed.

Lemma or_panic_ok (p : fls unit) s s' : or_panic p s = (s', Ok tt) → p s = Some (s', Ok tt).
Proof. unfold or_panic. destruct (p s) as [[s1 r]|]; simpl; congruence. Qed.

Lemma fl_persist_inv es s s' :
  fl_persist_entries es s = Some (s', Ok tt) →
  (∃ s1, appended (encode_entries es) s s1 ∧ fl_file s' = fl_file s1)
  ∧ fl_entries s' = insert_entries (fl_entries s) es.
Proof.
  unfold fl_persist_entries. destruct es as [|e es].
  { intros [= <-]. split; [|done]. exists s. split; [|done]. split; [|done..]. symmetry. apply app_nil_r. }
  intros (s1 & [] & (Ha & He)%write_entries_inv & [= <-])%bind_ok_inv. split; [by exists s1|done].
Qed.

Lemma fl_persist_ok es s s' : fl_ok s → fl_persist_entries es s = Some (s', Ok tt) → fl_ok s'.
Proof.
  intros (es0 & us & Hs & Hc & He & Hlen) ((s1 & [Hc' Hs' Hf _] & Hfile) & He')%fl_persist_inv.
  exists es0, (us ++ es). rewrite Hfile, Hs', Hc', He', Hs, He, Hc, !encode_entries_app, !app_assoc, !insert_entries_app.
  split_and!; [done|done|done|]. rewrite Hc', Hc, encode_entries_app in Hf.
  destruct (encode_entries es); [|by apply Hf]. by rewrite app_nil_r, <-encode_entries_app, <-Hc.
Qed.

Lemma fl_persist_survives es s s' i e :
  fl_ok s → fl_persist_entries es s = Some (s', Ok tt) → fl_survives s i e →
  (∀ e', e' ∈ es → e_index e' = i → e' = e) → fl_survives s' i e.
Proof.
  intros Hok Hp Hsv Hes. pose proof (fl_persist_ok _ _ _ Hok Hp) as (_ & _ & _ & _ & _ & Hlen').
  destruct Hok as (es0 & us & Hs & Hc & He & Hlen). apply fl_persist_inv in Hp as ((s1 & [Hc' Hs' _ _] & Hfile) & _).
  rewrite (fl_survives_records _ es0 us) in Hsv by done.
  rewrite (fl_survives_records _ es0 (us ++ es)); rewrite ?Hfile; [|congruence| |congruence].
  - intros j. rewrite take_app, app_assoc, insert_entries_app. apply insert_entries_keep; [apply Hsv|].
    intros e' He'. apply Hes. rewrite <-(take_drop (j - length us) es), elem_of_app. by left.
  - by rewrite Hc', Hc, !encode_entries_app, app_assoc.
Qed.

Lemma fl_purge_ok cutoff s s' : fl_ok s → fl_purge cutoff s = Some (s', Ok tt) → fl_ok s'.
Proof.
  intros Hok (Hc & Hs & Hlen & He)%fl_purge_inv. exists (kept cutoff (fl_entries s)), [].
  rewrite app_nil_r, insert_kept by (intros; by eapply fl_ok_keys). split_and!; [congruence|done..].
Qed.

Lemma fl_purge_survives cutoff s s' i e :
  fl_ok s → fl_purge cutoff s = Some (s', Ok tt) → lid_index cutoff < i →
  fl_entries s !! i = Some e → fl_survives s' i e.
Proof.
  intros Hok (Hc & Hs & Hlen & He)%fl_purge_inv Hi Hie.
  apply (fl_survives_records _ (kept cutoff (fl_entries s)) []); [congruence|by rewrite app_nil_r|done|].
  intros j. rewrite take_nil, app_nil_r, insert_kept by (intros; by eapply fl_ok_keys).
  by apply map_lookup_filter_Some.
Qed.

Lemma fl_flush_ok s s' :
  fl_ok s → fl_flush s = Some (s', Ok tt) →
  fl_ok s' ∧ fl_entries s' = fl_entries s ∧ ∀ i e, fl_entries s !! i = Some e → fl_survives s' i e.
Proof.
  intros (es & us & Hs & Hc & He & Hlen) (q & ->)%sync_all_inv. split_and!.
  - exists (es ++ us), []. rewrite app_nil_r. done.
  - done.
  - intros i e Hi. apply (fl_survives_records _ (es ++ us) []); simpl; [done|by rewrite app_nil_r|done|].
    intros j. by rewrite take_nil, app_nil_r, <-He.
Qed.

#[export] Instance FileLogStore_LogStoreLaws : LogStoreLaws FileLogStore.
Proof.
  refine {| ls_ok := fl_ok; ls_view := fl_entries; ls_survives := fl_survives |}; simpl.
  - intros s es s' Hok Hp%or_panic_ok. by eapply fl_persist_ok.
  - intros s es s' _ Hp%or_panic_ok. by apply fl_persist_inv.
  - intros s es s' i e Hok Hp%or_panic_ok. by eapply fl_persist_survives.
  - intros s c s' Hok Hp%or_panic_ok. by eapply fl_purge_ok.
  - intros s c s' i Hok Hp%or_panic_ok Hi. apply fl_purge_inv in Hp as (_ & _ & _ & ->).
    apply option_eq. intros e. rewrite map_lookup_filter_Some. simpl. tauto.
  - intros s c s' i e Hok Hp%or_panic_ok Hi He _. by eapply fl_purge_survives.
  - intros s s' Hok Hf%or_panic_ok. by apply (fl_flush_ok s).
  - intros s s' Hok Hf%or_panic_ok. by apply fl_flush_ok.
  - intros s s' i e Hok Hf%or_panic_ok. by apply (fl_flush_ok s).
  - done.
Defined.
End spec.

(** * Log files with their records in order

    The file store cuts its file at a position it remembers per index. When every index
    was written once and in ascending order, that is the end of the kept records, and
    the file always loads back to the memory ([ordered_inv], preserved by every operation
    of the store). *)

(** ** Maps built by insertion *)

Definition insert_all {A V} (key : A → N) (val : A → V) (m : gmap N V) (l : list A) : gmap N V :=
  foldl (λ m x, <[key x := val x]> m) m l.

Lemma insert_all_app {A V} (key : A → N) (val : A → V) m l1 l2 :
  insert_all key val m (l1 ++ l2) = insert_all key val (insert_all key val m l1) l2.
Proof. apply foldl_app. Qed.

Lemma filter_insert_all {A V} (key : A → N) (val : A → V) from lo hi :
  Forall (λ x, key x < from) lo → Forall (λ x, from <= key x) hi →
  filter (λ p : N * V, p.1 < from) (insert_all key val ∅ (lo ++ hi)) = insert_all key val ∅ lo.
Proof.
  intros Hlo Hhi. rewrite insert_all_app.
  assert (H1 : ∀ m, filter (λ p : N * V, p.1 < from) (insert_all key val m hi) = filter (λ p : N * V, p.1 < from) m).
  { induction Hhi as [|x hi Hx _ IH]; intros m; [done|]. unfold insert_all in *. simpl. rewrite IH.
    apply map_filter_insert_not. simpl. lia. }
  assert (H2 : ∀ m, filter (λ p : N * V, p.1 < from) m = m →
    filter (λ p : N * V, p.1 < from) (insert_all key val m lo) = insert_all key val m lo).
  { clear H1. induction Hlo as [|x lo Hx _ IH]; intros m Hm; [done|]. unfold insert_all in *. simpl.
    apply IH. rewrite map_filter_insert_True by done. by rewrite Hm. }
  rewrite H1. apply H2, map_filter_empty.
Qed.

Lemma insert_all_is_Some {A V} (key : A → N) (val : A → V) m l i :
  is_Some (insert_all key val m l !! i) ↔ is_Some (m !! i) ∨ ∃ x, x ∈ l ∧ key x = i.
Proof.
  unfold insert_all. revert m. induction l as [|x l IH]; intros m; simpl; [set_solver|].
  rewrite IH, lookup_insert_is_Some. destruct (decide (key x = i)); set_solver.
Qed.

Lemma insert_entries_all m es : insert_entries m es = insert_all e_index (λ e, e) m es.
Proof. done. Qed.

Lemma lookup_delete_all {V} (keys : list N) (m : gmap N V) i :
  foldl (λ m k, delete k m) m keys !! i = if decide (i ∈ keys) then None else m !! i.
Proof.
  revert m. induction keys as [|k keys IH]; intros m; [done|]. simpl. rewrite IH.
  destruct (decide (i = k)) as [->|Hne].
  - rewrite lookup_delete_eq. rewrite (decide_True (P := k ∈ k :: keys)) by (by left). by case_decide.
  - rewrite lookup_delete_ne by done. do 2 case_decide; set_solver.
Qed.

(** ** Ascending entries *)

Abbreviation index_lt := (λ a b : Entry, e_index a < e_index b).

Definition ascending (es : list Entry) : Prop := StronglySorted index_lt es.

(** The entries below an index are a prefix. *)
Lemma ascending_split from es :
  ascending es → ∃ lo hi, es = lo ++ hi ∧ Forall (λ e, e_index e < from) lo
                          ∧ Forall (λ e, from <= e_index e) hi ∧ ascending lo.
Proof.
  induction 1 as [|e es Hs IH Hall]; [by exists [], []; repeat constructor|].
  destruct (decide (e_index e < from)) as [Hlt|Hge].
  - destruct IH as (lo & hi & -> & Hlo & Hhi & Hasc). apply Forall_app in Hall as [Hall _].
    exists (e :: lo), hi. split_and!; [done|by constructor|done|by constructor].
  - exists [], (e :: es). split_and!; [done|constructor| |constructor].
    constructor; [lia|]. eapply Forall_impl; [exact Hall|]. simpl. lia.
Qed.

Lemma max_entry_index_below es n : Forall (λ e, e_index e <= n) es → max_entry_index es <= n.
Proof. induction 1; simpl; lia. Qed.

Lemma max_entry_index_app es1 es2 :
  max_entry_index (es1 ++ es2) = N.max (max_entry_index es1) (max_entry_index es2).
Proof. induction es1 as [|e es1 IH]; simpl; [lia|]. rewrite IH. lia. Qed.

Lemma om_back_insert_entries es :
  default 0 (fst <$> om_back (insert_entries ∅ es)) = max_entry_index es.
Proof.
  assert (Hdom : ∀ i, is_Some (insert_entries ∅ es !! i) ↔ ∃ e, e ∈ es ∧ e_index e = i).
  { intros i. rewrite insert_entries_all, insert_all_is_Some, lookup_empty, is_Some_alt. tauto. }
  destruct (om_back (insert_entries ∅ es)) as [[k e]|] eqn:Hb; simpl.
  - apply om_back_Some in Hb as [Hk Hmax]. destruct (proj1 (Hdom k)) as (x & Hin & <-); [by eexists|].
    apply N.le_antisymm.
    + clear -Hin. induction Hin; simpl; lia.
    + apply max_entry_index_below, Forall_forall. intros y Hy. apply Hmax, Hdom. by exists y.
  - apply om_back_None in Hb. destruct es as [|x es]; [done|].
    destruct (proj2 (Hdom (e_index x))) as [y Hy]; [exists x; split; [by left|done]|].
    by rewrite Hb, lookup_empty in Hy.
Qed.

(** ** The invariant *)

Section order.
Context {codec : EntryCodec}.

(** The positions after the records. *)
Definition ends (es : list Entry) : gmap N N :=
  insert_all (λ p, e_index p.1) snd ∅ (placed 0 es).

Record ordered_inv (s : FileLogStore) (es : list Entry) : Prop := {
  oi_ascending : ascending es;
  oi_content : lf_content (fl_file s) = encode_entries es;
  oi_fits : N.of_nat (length (encode_entries es)) <= u64_max;
  oi_entries : fl_entries s = insert_entries ∅ es;
  oi_ends : index_end_pos s = ends es;
  oi_last : es ≠ [] → fl_last_index s = max_entry_index es;
}.

Lemma placed_app pos es1 es2 :
  placed pos (es1 ++ es2) = placed pos es1 ++ placed (pos + N.of_nat (length (encode_entries es1))) es2.
Proof.
  revert pos. induction es1 as [|e es1 IH]; intros pos.
  { simpl. by rewrite N.add_0_r. }
  cbn [placed app]. rewrite IH, encode_entries_cons, length_app, Nat2N.inj_add, N.add_assoc. done.
Qed.

Lemma placed_Forall (P : N → Prop) pos es :
  Forall (λ e, P (e_index e)) es → Forall (λ p, P (e_index p.1)) (placed pos es).
Proof.
  intros Hes. revert pos. induction Hes as [|e es He _ IH]; intros pos; [constructor|].
  cbn [placed]. by constructor.
Qed.

Lemma ends_snoc es e :
  ends (es ++ [e]) = <[e_index e := N.of_nat (length (encode_entries (es ++ [e])))]> (ends es).
Proof.
  unfold ends. rewrite placed_app, insert_all_app, N.add_0_l. unfold insert_all at 1.
  cbn [placed foldl fst snd]. f_equal. rewrite encode_entries_app, length_app, encode_entries_cons.
  change (encode_entries []) with (@nil N). rewrite app_nil_r. lia.
Qed.

(** The position a cut goes to. *)
Lemma end_pos_before_lo s es lo hi from :
  index_end_pos s = ends es → es = lo ++ hi → ascending lo →
  Forall (λ e, e_index e < from) lo → Forall (λ e, from <= e_index e) hi →
  end_pos_before from s = N.of_nat (length (encode_entries lo)).
Proof.
  intros Hends -> Hasc Hlo Hhi. unfold end_pos_before. rewrite Hends. unfold ends.
  rewrite placed_app, filter_insert_all
    by (by apply (placed_Forall (λ k, k < from)) || by apply (placed_Forall (λ k, from <= k))).
  fold (ends lo). destruct lo as [|e lo _] using rev_ind; [by vm_compute|].
  rewrite (proj2 (om_back_Some (ends (lo ++ [e])) (e_index e) (N.of_nat (length (encode_entries (lo ++ [e])))))); [done|].
  rewrite ends_snoc, lookup_insert_eq. split; [done|]. intros j Hj.
  rewrite <-ends_snoc in Hj. unfold ends in Hj. rewrite insert_all_is_Some, lookup_empty, is_Some_alt in Hj.
  destruct Hj as [[]|([x p] & Hx & <-)].
  assert (x ∈ lo ++ [e]) as [Hin| ->%list_elem_of_singleton]%elem_of_app.
  { rewrite <-(placed_fst 0 (lo ++ [e])). apply list_elem_of_fmap. by exists (x, p). }
  - simpl. apply N.lt_le_incl. apply (StronglySorted_app_1_elem_of index_lt lo [e] x e Hasc Hin). by left.
  - done.
Qed.

Lemma delete_from {V} from (m : gmap N Entry) (m' : gmap N V) :
  (∀ i, is_Some (m' !! i) → is_Some (m !! i)) →
  foldl (λ m k, delete k m) m' (filter (λ p : N * Entry, from <= p.1) (om_iter m)).*1
  = filter (λ p : N * V, p.1 < from) m'.
Proof.
  intros Hdom. apply map_eq. intros i. rewrite lookup_delete_all.
  assert (Hin : i ∈ (filter (λ p : N * Entry, from <= p.1) (om_iter m)).*1 ↔ from <= i ∧ is_Some (m !! i)).
  { rewrite list_elem_of_fmap. split.
    - intros ([k e] & -> & [Hle He%elem_of_om_iter]%list_elem_of_filter). by eauto.
    - intros [Hle [e He]]. exists (i, e). split; [done|]. apply list_elem_of_filter.
      by rewrite elem_of_om_iter. }
  apply option_eq. intros v. rewrite map_lookup_filter_Some. simpl. case_decide as Hk; rewrite Hin in Hk.
  - split; [done|]. intros [_ ?]. lia.
  - split; [|tauto]. intros Hv. split; [done|]. destruct (decide (from <= i)); [|lia].
    destruct Hk. split; [done|]. apply Hdom. by exists v.
Qed.

Lemma ends_dom es i : is_Some (ends es !! i) ↔ is_Some (insert_entries ∅ es !! i).
Proof.
  unfold ends. rewrite insert_entries_all, (insert_all_is_Some e_index), insert_all_is_Some, !lookup_empty.
  assert (Hin : ∀ e, e ∈ es ↔ ∃ p, e = p.1 ∧ p ∈ placed 0 es).
  { intros e. by rewrite <-list_elem_of_fmap, placed_fst. }
  setoid_rewrite Hin. rewrite !is_Some_alt. naive_solver.
Qed.

(** [truncate] and the first part of [replace_range]. *)
Lemma cut_from_ordered s s' es from :
  ordered_inv s es → cut_from from s = Some (s', Ok tt) →
  ∃ lo hi, es = lo ++ hi ∧ Forall (λ e, e_index e < from) lo ∧ Forall (λ e, from <= e_index e) hi
  ∧ ascending lo ∧ lf_content (fl_file s') = encode_entries lo ∧ fl_entries s' = insert_entries ∅ lo
  ∧ index_end_pos s' = ends lo.
Proof.
  intros [Hasc Hc Hlen He Hp _] (s1 & r1 & [= <- <-] & (s2 & [] & (q & ->)%set_len_inv & [= <-])%bind_ok_inv)%bind_ok_inv.
  destruct (ascending_split from es Hasc) as (lo & hi & -> & Hlo & Hhi & Hasc').
  exists lo, hi. split_and!; [done..| | |].
  - simpl. rewrite (end_pos_before_lo s _ lo hi from Hp), Nat2N.id, Hc, encode_entries_app by done.
    by rewrite resize_le, take_app_length by (rewrite length_app; lia).
  - simpl. rewrite delete_from by done. rewrite He, !insert_entries_all. by apply filter_insert_all.
  - simpl. rewrite delete_from by (intros i; by rewrite He, Hp, ends_dom).
    rewrite Hp. unfold ends. rewrite placed_app. apply filter_insert_all.
    + by apply (placed_Forall (λ k, k < from)).
    + by apply (placed_Forall (λ k, from <= k)).
Qed.

(** Writing records one after the other keeps their positions. *)
Lemma for_each_ends (f : Entry → fls unit) es0 es s s' :
  (∀ e s1 s2, f e s1 = Some (s2, Ok tt) → appended (encode_entry e) s1 s2
     ∧ index_end_pos s2 = <[e_index e := N.of_nat (length (lf_content (fl_file s2)))]> (index_end_pos s1)) →
  lf_content (fl_file s) = encode_entries es0 → index_end_pos s = ends es0 →
  for_each f es s = Some (s', Ok tt) → index_end_pos s' = ends (es0 ++ es).
Proof.
  intros Hf. revert es0 s. induction es as [|e es IH]; intros es0 s Hc Hp.
  { intros [= <-]. by rewrite app_nil_r. }
  intros (s1 & ([Hc1 _ _ _] & Hp1)%Hf & H2)%for_each_cons_inv.
  assert (Hc2 : lf_content (fl_file s1) = encode_entries (es0 ++ [e])).
  { rewrite Hc1, Hc, encode_entries_app, encode_entries_cons. by rewrite app_nil_r. }
  rewrite (cons_middle e es0 es), app_assoc. apply (IH (es0 ++ [e]) s1); [done| |done].
  by rewrite Hp1, Hp, Hc2, ends_snoc.
Qed.

Lemma appended_fits s s' es0 es :
  lf_content (fl_file s) = encode_entries es0 → N.of_nat (length (encode_entries es0)) <= u64_max →
  appended (encode_entries es) s s' →
  lf_content (fl_file s') = encode_entries (es0 ++ es)
  ∧ N.of_nat (length (encode_entries (es0 ++ es))) <= u64_max.
Proof.
  intros Hc Hlen [Hc' _ Hf _]. rewrite Hc, <-encode_entries_app in Hc'. rewrite Hc' in Hf. split; [done|].
  rewrite encode_entries_app in *. destruct (encode_entries es); [by rewrite app_nil_r|by apply Hf].
Qed.

(** The first part of [persist_entries], and of [replace_range] after the cut. *)
Lemma write_entries_ordered s s' es0 es :
  lf_content (fl_file s) = encode_entries es0 → N.of_nat (length (encode_entries es0)) <= u64_max →
  fl_entries s = insert_entries ∅ es0 → index_end_pos s = ends es0 → ascending (es0 ++ es) →
  for_each write_entry es s = Some (s', Ok tt) →
  ∀ last, (es0 ++ es ≠ [] → last = max_entry_index (es0 ++ es)) →
  ordered_inv (s' <| fl_last_index := last |>) (es0 ++ es).
Proof.
  intros Hc Hlen He Hp Hasc Hw la Hla.
  pose proof (write_entries_inv _ _ _ Hw) as (Ha & He').
  destruct (appended_fits _ _ _ _ Hc Hlen Ha) as [Hc' Hlen'].
  split; simpl; [done|done|done| | |done].
  - by rewrite He', He, insert_entries_app.
  - eapply (for_each_ends write_entry); [|done|done|done]. intros e s1 s2 (H1 & _ & H2)%write_entry_inv. done.
Qed.

(** ** The operations *)

Lemma foldl_max_swap es : foldl (λ a e, N.max a (e_index e)) 0 es = max_entry_index es.
Proof.
  rewrite <-foldl_max_entry_index. generalize 0. induction es as [|e es IH]; intros a; [done|].
  simpl. by rewrite IH, N.max_comm.
Qed.

Lemma persist_ordered s s' es0 es :
  ordered_inv s es0 → ascending es → (∀ a b, a ∈ es0 → b ∈ es → e_index a < e_index b) →
  fl_persist_entries es s = Some (s', Ok tt) → ordered_inv s' (es0 ++ es).
Proof.
  intros [Hasc Hc Hlen He Hp Hl] Hes Habove. destruct (decide (es = [])) as [->|Hne].
  { intros [= <-]. rewrite app_nil_r. by split. }
  assert (Heq : fl_persist_entries es = (for_each write_entry es;;
    modify (λ s, s <| fl_last_index := foldl (λ a e, N.max a (e_index e)) 0 es |>))) by (by destruct es).
  rewrite Heq, foldl_max_swap. intros (s1 & [] & Hw & [= <-])%bind_ok_inv.
  eapply write_entries_ordered; [done..|by apply StronglySorted_app_2|done|]. intros _.
  rewrite max_entry_index_app. symmetry. apply N.max_r.
  apply max_entry_index_below, Forall_forall. intros x Hx. destruct es as [|e es]; [done|].
  specialize (Habove x e Hx ltac:(by left)). simpl. lia.
Qed.

Lemma store_new_last_ordered s s' s1 es :
  ordered_inv (s <| fl_last_index := max_entry_index es |>) es → s1 = s →
  store_new_last s1 = Some (s', Ok tt) → ordered_inv s' es.
Proof.
  intros [Hasc Hc Hlen He Hp Hl] -> [= <-]. split; try done. simpl in He |- *. intros _.
  unfold last_key. by rewrite He, om_back_insert_entries.
Qed.

Lemma replace_ordered s s' es0 from es :
  ordered_inv s es0 → ascending es → Forall (λ e, from <= e_index e) es →
  fl_replace_range from es s = Some (s', Ok tt) →
  ∃ es1, ordered_inv s' es1 ∧ fl_entries s' = insert_entries (truncate_from (fl_entries s) from) es.
Proof.
  intros Hs Hes Hfrom (s1 & [] & Hcut & (s2 & [] & Hw & Hnl)%bind_ok_inv)%bind_ok_inv.
  destruct (cut_from_ordered _ _ _ _ Hs Hcut) as (lo & hi & -> & Hlo & Hhi & Hasc & Hc & He & Hp).
  assert (Hlen : N.of_nat (length (encode_entries lo)) <= u64_max).
  { pose proof (oi_fits _ _ Hs) as Hlen. rewrite encode_entries_app, length_app in Hlen. lia. }
  assert (Hall : ascending (lo ++ es)).
  { apply StronglySorted_app_2; [|done|done]. intros a b Ha Hb.
    rewrite Forall_forall in Hlo, Hfrom. specialize (Hlo a Ha). specialize (Hfrom b Hb). simpl in *. lia. }
  exists (lo ++ es). assert (Hinv : ordered_inv s' (lo ++ es)).
  { eapply store_new_last_ordered; [|done|exact Hnl].
    by eapply (write_entries_ordered s1 s2 lo es Hc Hlen He Hp Hall Hw). }
  split; [done|]. rewrite (oi_entries _ _ Hinv), insert_entries_app. f_equal.
  unfold truncate_from. rewrite (oi_entries _ _ Hs), !insert_entries_all. symmetry. by apply filter_insert_all.
Qed.

Lemma truncate_ordered s s' es0 from :
  ordered_inv s es0 → fl_truncate from s = Some (s', Ok tt) →
  ∃ es1, ordered_inv s' es1 ∧ fl_entries s' = truncate_from (fl_entries s) from.
Proof.
  intros Hs Ht. apply (replace_ordered s s' es0 from []); [done|constructor|constructor|].
  unfold fl_truncate in Ht. unfold fl_replace_range, mbind, proc_bind in *.
  by destruct (cut_from from s) as [[s1 [[]|]]|].
Qed.

Lemma kept_ascending cutoff (m : gmap N Entry) :
  (∀ i e, m !! i = Some e → e_index e = i) → ascending (kept cutoff m).
Proof.
  intros Hkeys. unfold kept.
  assert (Hk : Forall (λ p : N * Entry, e_index p.2 = p.1) (om_iter m)).
  { apply Forall_forall. intros [k e] He%elem_of_om_iter. by apply Hkeys. }
  pose proof (om_iter_sorted m) as Hs. induction Hs as [|[k e] l Hs IH Hall]; [constructor|].
  apply Forall_cons in Hk as [Hke Hk]. rewrite filter_cons. case_decide; [|by apply IH].
  cbn [fmap list_fmap]. constructor; [by apply IH|]. apply Forall_forall.
  intros x ([k' e'] & -> & [_ Hin]%list_elem_of_filter)%list_elem_of_fmap.
  rewrite Forall_forall in Hk, Hall. specialize (Hk _ Hin). specialize (Hall _ Hin).
  unfold key_lt in Hall. simpl in *. congruence.
Qed.

Lemma ordered_keys s es i e : ordered_inv s es → fl_entries s !! i = Some e → e_index e = i.
Proof.
  intros Hs. rewrite (oi_entries _ _ Hs). intros [Hi|[<- _]]%insert_entries_Some; [|done].
  by rewrite lookup_empty in Hi.
Qed.

(** The last index does not move as long as an entry is kept. *)
Lemma kept_last cutoff s es :
  ordered_inv s es → kept cutoff (fl_entries s) ≠ [] →
  max_entry_index (kept cutoff (fl_entries s)) = max_entry_index es.
Proof.
  intros Hs Hne. assert (Hkeys : ∀ i e, fl_entries s !! i = Some e → e_index e = i).
  { intros i e. by apply (ordered_keys s es). }
  rewrite <-!om_back_insert_entries, insert_kept, <-(oi_entries _ _ Hs) by done.
  destruct (kept cutoff (fl_entries s)) as [|x l] eqn:Hk; [done|].
  assert (Hin : x ∈ kept cutoff (fl_entries s)) by (rewrite Hk; by left).
  apply elem_of_kept in Hin as [Hx Hlt]; [|done].
  destruct (om_back (fl_entries s)) as [[k e]|] eqn:Hb.
  - apply om_back_Some in Hb as [Hke Hmax]. rewrite (proj2 (om_back_Some _ k e)); [done|].
    assert (e_index x <= k) by (apply Hmax; by exists x).
    rewrite map_lookup_filter_Some. split; [split; [done|simpl; lia]|].
    intros j [y [Hy _]%map_lookup_filter_Some]. apply Hmax. by exists y.
  - apply om_back_None in Hb. by rewrite Hb, lookup_empty in Hx.
Qed.

Lemma purge_ordered s s' es0 cutoff :
  ordered_inv s es0 → fl_purge cutoff s = Some (s', Ok tt) →
  ordered_inv s' (kept cutoff (fl_entries s)).
Proof.
  intros Hs Hpurge. pose proof (fl_purge_inv _ _ _ Hpurge) as (Hc & _ & Hlen & He).
  assert (Hkeys : ∀ i e, fl_entries s !! i = Some e → e_index e = i).
  { intros i e. by apply (ordered_keys s es0). }
  apply fl_purge_run in Hpurge as (s1 & s2 & q & Hs1 & Hw & Hs').
  split; [by apply kept_ascending|done|by rewrite <-Hc|by rewrite insert_kept| |].
  - apply (for_each_ends rewrite_entry [] _ _ _) in Hw; [by rewrite Hs'| |by rewrite Hs1|by rewrite Hs1].
    intros e s3 s4 (H1 & _ & H2)%rewrite_entry_inv. done.
  - intros Hne. apply rewrite_entries_inv in Hw as ([_ _ _ Hl] & _). rewrite Hs'. simpl. rewrite Hl, Hs1. simpl.
    rewrite (kept_last cutoff s es0) by done. apply (oi_last _ _ Hs). intros ->.
    apply Hne. unfold kept. by rewrite (oi_entries _ _ Hs).
Qed.

Lemma flush_ordered s s' es : ordered_inv s es → fl_flush s = Some (s', Ok tt) → ordered_inv s' es.
Proof. intros [] (q & ->)%sync_all_inv. by split. Qed.

Lemma reset_ordered s s' : fl_reset s = Some (s', Ok tt) → ordered_inv s' [].
Proof.
  intros (s1 & [] & (q & ->)%set_len_inv & [= <-])%bind_ok_inv.
  split; simpl; [constructor| |by vm_compute|done..]. by rewrite resize_0.
Qed.

Lemma ordered_reloads s es ios :
  ordered_inv s es →
  ∃ st, fl_new (lf_content (fl_file s)) ios = Some st ∧ fl_entries st = fl_entries s
        ∧ index_end_pos st = index_end_pos s ∧ (fl_entries s ≠ ∅ → fl_last_index st = fl_last_index s).
Proof.
  intros [Hasc Hc Hlen He Hp Hl].
  destruct (fl_new_entries es [] ios Hlen) as (st & Hnew & Hent & Hlast & Hends); [by left|].
  rewrite app_nil_r in Hnew. exists st. rewrite Hc, He, Hp. split_and!; [done..|].
  intros Hne. rewrite Hlast. symmetry. apply Hl. by intros ->.
Qed.

(** ** Runs *)

Inductive file_op :=
  | OpPersist (es : list Entry)
  | OpPurge (cutoff : LogId)
  | OpTruncate (from_index : N)
  | OpReplace (from_index : N) (es : list Entry)
  | OpFlush
  | OpReset.

Definition run_op (op : file_op) : fls unit :=
  match op with
  | OpPersist es => fl_persist_entries es
  | OpPurge cutoff => fl_purge cutoff
  | OpTruncate from_index => fl_truncate from_index
  | OpReplace from_index es => fl_replace_range from_index es
  | OpFlush => fl_flush
  | OpReset => fl_reset
  end.

(** What an operation means for the map of entries. *)
Definition op_spec (m : gmap N Entry) (op : file_op) : gmap N Entry :=
  match op with
  | OpPersist es => insert_entries m es
  | OpPurge cutoff => filter (λ p, lid_index cutoff < p.1) m
  | OpTruncate from_index => truncate_from m from_index
  | OpReplace from_index es => insert_entries (truncate_from m from_index) es
  | OpFlush => m
  | OpReset => ∅
  end.

(** New entries come in ascending order, after the ones that stay. *)
Definition in_order (op : file_op) (m : gmap N Entry) : Prop :=
  match op with
  | OpPersist es => ascending es ∧ ∀ e, e ∈ es → ∀ i, is_Some (m !! i) → i < e_index e
  | OpReplace from_index es => ascending es ∧ Forall (λ e, from_index <= e_index e) es
  | _ => True
  end.

(** A store that started empty and completed the operations. *)
Inductive file_run : list file_op → FileLogStore → Prop :=
  | run_new s ios : fl_new [] ios = Some s → file_run [] s
  | run_snoc ops op s s' :
      file_run ops s → in_order op (fl_entries s) → run_op op s = Some (s', Ok tt) →
      file_run (ops ++ [op]) s'.

Lemma op_ordered op s s' es :
  ordered_inv s es → in_order op (fl_entries s) → run_op op s = Some (s', Ok tt) →
  (∃ es', ordered_inv s' es') ∧ fl_entries s' = op_spec (fl_entries s) op.
Proof.
  intros Hs. destruct op as [new|cutoff|from|from new| |]; simpl.
  - intros [Hasc Habove] Hrun. split; [|by apply fl_persist_inv in Hrun as [_ ?]].
    exists (es ++ new). eapply persist_ordered; [done|done| |done]. intros a b Ha Hb.
    apply (Habove b Hb). rewrite (oi_entries _ _ Hs), insert_entries_all, insert_all_is_Some. eauto.
  - intros _ Hrun. split; [eexists; by eapply purge_ordered|]. by apply fl_purge_inv in Hrun as (_ & _ & _ & ?).
  - intros _ Hrun. destruct (truncate_ordered _ _ _ _ Hs Hrun) as (es' & ? & ?). eauto.
  - intros [Hasc Hfrom] Hrun. destruct (replace_ordered _ _ _ _ _ Hs Hasc Hfrom Hrun) as (es' & ? & ?). eauto.
  - intros _ Hrun. split; [eexists; by eapply flush_ordered|]. by apply sync_all_inv in Hrun as (q & ->).
  - intros _ Hrun. split; [eexists; by eapply reset_ordered|].
    by rewrite (oi_entries _ _ (reset_ordered _ _ Hrun)).
Qed.

Lemma file_run_ordered ops s :
  file_run ops s → (∃ es, ordered_inv s es) ∧ fl_entries s = foldl op_spec ∅ ops.
Proof.
  induction 1 as [s ios Hnew|ops op s s' _ [[es Hs] IH] Hin Hrun].
  - injection Hnew as <-. split; [|done]. exists []. split; [constructor|done|by vm_compute|done..].
  - destruct (op_ordered _ _ _ _ Hs Hin Hrun) as [Hs' He]. split; [done|].
    by rewrite foldl_app, <-IH.
Qed.
End order.
