(* ===== verification/FileStorageProps.v ===== *)
(** * The file-based storage engine: properties

    The raft log over the file store keeps its durable entries through a power loss
    ([power_loss_keeps_the_durable_log]), a file whose records are in order is cut and
    extended as Raft asks ([replaced_range_reloads]), and a saved hard state is read back
    ([saved_hard_state_reloads]); then the executions in which the engine does not keep
    what it promises. *)

From stdpp Require Import base tactics numbers option list gmap strings countable.
From S2P Require Import Prelude Proc Types TermSegments BufferedLog LogInv LogSpec LogStore IoThread Durability LogProps.
From S2P Require Import Roles Codec FileStorage FileStorageSpec.

(** ** An encoding to run the model with *)

#[global] Instance Change_countable : Countable Change.
Proof.
  refine (inj_countable'
    (λ c, match c with
          | AddNode i a st => inl (i, a, st)
          | RemoveNode i => inr (inl i)
          | Promote i st => inr (inr (inl (i, st)))
          | BatchPromote l st => inr (inr (inr (inl (l, st))))
          | BatchRemove l => inr (inr (inr (inr l)))
          end)
    (λ s, match s with
          | inl (i, a, st) => AddNode i a st
          | inr (inl i) => RemoveNode i
          | inr (inr (inl (i, st))) => Promote i st
          | inr (inr (inr (inl (l, st)))) => BatchPromote l st
          | inr (inr (inr (inr l))) => BatchRemove l
          end) _).
  by intros [].
Defined.

#[global] Instance Payload_countable : Countable Payload.
Proof.
  refine (inj_countable'
    (λ p, match p with Noop => inl () | Command b => inr (inl b) | Config c => inr (inr (mc_change c)) end)
    (λ s, match s with
          | inl _ => Noop
          | inr (inl b) => Command b
          | inr (inr c) => Config (mkMembershipChange c)
          end) _).
  by intros [|?|[]].
Defined.

#[global] Instance Entry_countable : Countable Entry.
Proof.
  refine (inj_countable' (λ e, (e_index e, e_term e, ep_payload <$> e_payload e))
    (λ t, mkEntry t.1.1 t.1.2 (mkEntryPayload <$> t.2)) _).
  by intros [? ? [[]|]].
Defined.

Definition countable_entry_codec : EntryCodec.
Proof.
  refine {| encode_to_vec e := [N.pos (encode e)];
            entry_decode b := match b with [N.pos p] => decode p | _ => None end |}.
  intros e. by rewrite decode_encode.
Defined.

(** ** Restart *)

Section restart.
Context {codec : EntryCodec}.

Lemma fl_new_inv c ios st :
  fl_new c ios = Some st → ∃ es, fl_entries st = insert_entries ∅ es ∧ fl_last_index st = max_entry_index es.
Proof.
  unfold fl_new. destruct (load_records _ _ _) as [l|]; [|done]. intros [= <-]. exists l.*1.
  destruct (load_record_entries l (mkFileLogStore ∅ (mkLogFile c c) ∅ 0 ios)) as (-> & _ & -> & _).
  split; [done|]. apply foldl_max_entry_index.
Qed.

Lemma max_entry_index_elem e es : e ∈ es → e_index e <= max_entry_index es.
Proof. induction 1 as [|e x es _ IH]; simpl; lia. Qed.

(** [BufferedRaftLog::new] holds what the reopened store holds. *)
Lemma log_open_entry c ios st i e :
  fl_new c ios = Some st → fl_entry i st = Some e → 0 < i → entry (mem (log_open st)) i = Some e.
Proof.
  intros (es & Hent & Hlast)%fl_new_inv Hi Hpos. unfold fl_entry in Hi. rewrite Hent in Hi.
  apply insert_entries_Some in Hi as He. rewrite lookup_empty in He. destruct He as [|[Hidx Hin]]; [done|].
  pose proof (max_entry_index_elem e es Hin) as Hle. rewrite <-Hlast in Hle.
  unfold entry, log_open, log_new, new_mem. simpl.
  rewrite (proj2 (N.ltb_lt 0 (fl_last_index st))) by lia. simpl.
  apply insert_entries_in; [|done|].
  - unfold fl_get_entries. apply list_elem_of_fmap. exists (i, e). split; [done|].
    apply elem_of_om_range. rewrite Hent. split_and!; [lia|lia|done].
  - intros e' He' Hidx'. unfold fl_get_entries in He'.
    apply list_elem_of_fmap in He' as ([k x] & -> & (_ & _ & Hk)%elem_of_om_range).
    rewrite Hent in Hk. apply insert_entries_Some in Hk as Hx. rewrite lookup_empty in Hx.
    destruct Hx as [|[Hx _]]; [done|]. simpl in *. congruence.
Qed.


(** A file store that completes any sequence of operations whose new entries come in
    order holds exactly the entries the operations describe, and opening its file
    again gives the same entries, record positions and, unless it is empty, last index. *)
Theorem in_order_file_reloads ops s ios :
  file_run ops s →
  fl_entries s = foldl op_spec ∅ ops ∧
  ∃ st, fl_new (lf_content (fl_file s)) ios = Some st ∧ fl_entries st = fl_entries s
        ∧ index_end_pos st = index_end_pos s ∧ (fl_entries s ≠ ∅ → fl_last_index st = fl_last_index s).
Proof.
  intros [[es Hs] He]%file_run_ordered. split; [done|]. by eapply ordered_reloads.
Qed.
End restart.

(** A hard state that was saved is the one the store reports, in this run and after the
    next start; a save whose file could not be opened leaves the file as it was. *)
Theorem saved_hard_state_reloads `{!HardStateCodec} io h (s s' : FileMetaStore) r :
  fm_save_hard_state io h s = Some (s', r) →
  match r with
  | Ok _ => fm_load_hard_state s' = Ok (Some h)
            ∧ fm_load_hard_state (fm_new (hard_state_bin s')) = Ok (Some h)
  | Err _ => io = OpenFailed → hard_state_bin s' = hard_state_bin s
  end.
Proof.
  unfold fm_save_hard_state, save_to_file, mbind, proc_bind. simpl.
  destruct io; intros [= <- <-]; [done|done|]. unfold fm_load_hard_state, fm_new. simpl.
  by rewrite lookup_insert_eq, hs_round_trip, lookup_singleton_eq, hs_round_trip.
Qed.

#[local] Existing Instance countable_entry_codec.

(** Three entries synced, a fourth written and cut off in the middle of its record. *)
Definition file_sys : Sys FileLogStore :=
  mkSys (log_new 0 (Some []) (Some None)) (mkFileLogStore ∅ (mkLogFile [] []) ∅ 0 []) 0 PcSelect TaskIdle.

Definition sys_append {S} (es : list Entry) (y : Sys S) : Sys S := set_log (append_entries (sys_log y) es).1 y.

Definition file_turn (y : Sys FileLogStore) : Sys FileLogStore := turn_submit (turn_recv' (on_notified y)).

Definition file_synced : Sys FileLogStore :=
  fsync_complete (fsync_flush (fsync_pickup (file_turn (sys_append [ent 1 1; ent 2 1; ent 3 1] file_sys)))).

Definition file_torn : Sys FileLogStore := on_notified (sys_append [ent 4 1] file_synced).

Lemma file_sys_started : started file_sys 0 1 [].
Proof.
  split; [split; by repeat constructor|]. split; [by exists (Some None)|].
  split; [by exists [], []|]. by repeat split.
Qed.

Lemma file_torn_reached : rtc (sys_step false) file_sys file_torn.
Proof.
  unfold file_torn, file_synced, file_turn.
  eapply rtc_l; [apply (step_append false file_sys [ent 1 1; ent 2 1; ent 3 1])|].
  { split; [split; [done|split; [by repeat constructor|exists 1; by vm_compute]]|]. intros _. by vm_compute. }
  eapply rtc_l; [apply step_notified; by vm_compute|].
  eapply rtc_l; [apply (step_recv false _ (turn_recv' (on_notified (sys_append [ent 1 1; ent 2 1; ent 3 1] file_sys)))); by vm_compute|].
  eapply rtc_l; [apply step_submit|].
  eapply rtc_l; [apply step_pickup; by vm_compute|].
  eapply rtc_l; [apply step_fsync|].
  eapply rtc_l; [apply step_complete|].
  eapply rtc_l; [apply (step_append false _ [ent 4 1])|].
  { split; [split; [done|split; [by repeat constructor|exists 4; by vm_compute]]|]. by vm_compute. }
  eapply rtc_l; [apply step_notified; by vm_compute|]. apply rtc_refl.
Qed.


(** Five entries, the tail from 3 replaced, and the first entry purged. *)
Definition persist_op : file_op := OpPersist [ent 1 1; ent 2 1; ent 3 1; ent 4 1; ent 5 1].
Definition replace_op : file_op := OpReplace 3 [ent 3 2; ent 4 2].
Definition purge_op : file_op := OpPurge (mkLogId 1 1).

Definition after_op (op : file_op) (s : FileLogStore) : FileLogStore := (or_panic (run_op op) s).1.

Definition store_a : FileLogStore := mkFileLogStore ∅ (mkLogFile [] []) ∅ 0 [].
Definition store_b : FileLogStore := after_op persist_op store_a.
Definition store_c : FileLogStore := after_op replace_op store_b.
Definition store_d : FileLogStore := after_op purge_op store_c.

Definition replaced_ops : list file_op := [] ++ [persist_op] ++ [replace_op] ++ [purge_op].

Lemma ops_in_order : in_order persist_op ∅ ∧ ∀ m, in_order replace_op m.
Proof.
  split; [split; [|intros e _ i [x Hx]; by destruct (lookup_empty_Some (M := gmap N) i x Hx)]|intros m; split];
    repeat first [by vm_compute | constructor].
Qed.

Lemma store_d_run : file_run replaced_ops store_d.
Proof.
  unfold replaced_ops. rewrite !app_assoc. destruct ops_in_order as [Hp Hr].
  apply (run_snoc (([] ++ [persist_op]) ++ [replace_op]) purge_op store_c store_d); [|done|by vm_compute].
  apply (run_snoc ([] ++ [persist_op]) replace_op store_b store_c); [|apply Hr|by vm_compute].
  apply (run_snoc [] persist_op store_a store_b); [by apply (run_new store_a [])|exact Hp|by vm_compute].
Qed.

Lemma in_order_file_reloads_witness :
  fl_entry 4 store_d = Some (ent 4 2) ∧ fl_entry 5 store_d = None ∧
  ∃ st, fl_new (lf_content (fl_file store_d)) [] = Some st ∧ fl_entries st = fl_entries store_d.
Proof.
  split; [by vm_compute|]. split; [by vm_compute|].
  destruct (in_order_file_reloads _ _ [] store_d_run) as (_ & st & Hnew & He & _).
  exists st. split; [exact Hnew|exact He].
Defined.

(** * Where the file-based storage engine breaks its contract

    Executions of the engine: a log that was written twice and then cut brings back the
    cut entries, a purge that fails loses the whole log, a restart forgets the purge
    boundary, and an interrupted save of the hard state forgets term and vote. *)

#[local] Existing Instance countable_entry_codec.

(** A follower receives entries 1 to 5 of term 1; its IO thread writes them, and writes them
    again with entry 6 because no fsync has completed in between. The leader of term 2
    then replaces the tail from 3 by one entry. Everything succeeds and is synced. *)
Definition twice_written : Sys FileLogStore :=
  let y1 := file_turn (sys_append [ent 1 1; ent 2 1; ent 3 1; ent 4 1; ent 5 1] file_sys) in
  let y2 := file_turn (sys_append [ent 6 1] y1) in
  fsync_complete (fsync_flush (fsync_pickup y2)).

Definition tail_replaced : Sys FileLogStore :=
  let y := on_command' (sys_replicate 2 1 [ent 3 2] twice_written) in
  set_store (or_panic fl_flush (sys_store y)).1 y.

(** The file still holds the first copy of the records 4 and 5, behind the position the cut
    goes to: after a restart the log has the deleted entries of term 1 after the entry of
    term 2. *)
Theorem repeated_persist_revives_entries :
  let y := tail_replaced in
  healthy y ∧ last_entry_id (mem (sys_log y)) = 3 ∧ entry (mem (sys_log y)) 3 = Some (ent 3 2) ∧
  fl_entry 4 (sys_store y) = None ∧
  match fl_new (lf_content (fl_file (sys_store y))) [] with
  | Some st => let m := mem (log_open st) in
      entry m 3 = Some (ent 3 2) ∧ entry m 4 = Some (ent 4 1) ∧ last_entry_id m = 5
  | None => False
  end.
Proof. vm_compute. intuition congruence. Qed.

(** The outcomes of the operations on the file to come. *)
Definition with_io (ios : list io_outcome) (s : FileLogStore) : FileLogStore := s <| fl_io := ios |>.

(** [purge] empties the file before it writes the kept entries. Three entries are durable;
    the purge of the first one fails at its first write, and a restart finds no log at all.
    A power loss at that point leaves the same file. *)
Theorem failed_purge_loses_the_log :
  let s := (or_panic fl_flush (or_panic (fl_persist_entries [ent 1 1; ent 2 1; ent 3 1]) store_a).1).1 in
  fl_survives s 3 (ent 3 1) ∧
  match fl_purge (mkLogId 1 1) (with_io [IoDone; OpenFailed] s) with
  | Some (s', r) =>
      r = Err IoError ∧ fl_entry 3 s' = Some (ent 3 1) ∧
      match fl_new (lf_content (fl_file s')) [] with
      | Some st => fl_entries st = ∅ ∧ fl_last_index st = 0
      | None => False
      end
  | None => False
  end.
Proof.
  split; [|by vm_compute].
  apply (fl_survives_records _ [ent 1 1; ent 2 1; ent 3 1] []); [by vm_compute..|].
  intros j. rewrite take_nil. by vm_compute.
Qed.

(** The trait says the purge boundary is [None] only when [purge] has never been called; the
    file store keeps the default. A log of three entries is purged completely, as after a
    snapshot: after a restart the boundary is gone, and the next index is 1 again. *)
Theorem purge_boundary_is_not_kept :
  let s := (or_panic (fl_purge (mkLogId 1 3)) (or_panic (fl_persist_entries [ent 1 1; ent 2 1; ent 3 1]) store_a).1).1 in
  store_last_index s = 3 ∧
  match fl_new (lf_content (fl_file s)) [] with
  | Some st => let m := mem (log_open st) in
      load_purge_boundary st = Ok None ∧ entry_term m 3 = Some None ∧ last_log_id m = None ∧ next_id m = 1
  | None => False
  end.
Proof. by vm_compute. Qed.

(** The last index is the highest of the last batch, not of the log. *)
Theorem last_index_follows_the_batch :
  let s1 := (or_panic (fl_persist_entries [ent 1 1; ent 2 1; ent 3 1]) store_a).1 in
  let s2 := (or_panic (fl_persist_entries [ent 2 1]) s1).1 in
  fl_entry 3 s2 = Some (ent 3 1) ∧ store_last_index s2 = 2.
Proof. by vm_compute. Qed.

(** [MetaStore] asks for the hard state to be saved atomically; [File::create] empties the
    file first. A process that stops before the write completes has neither the old nor
    the new state: its term and its vote are gone. *)
Theorem interrupted_save_forgets_the_vote `{!HardStateCodec} (h h' : HardState) (s : FileMetaStore) :
  hs_deserialize [] = None → hard_state_bin s = Some (hs_serialize h) →
  fm_load_hard_state (fm_new (hard_state_bin s)) = Ok (Some h) ∧
  match fm_save_hard_state (WriteFailed 0) h' s with
  | Some (s', r) => r = Err IoError ∧ fm_load_hard_state s' = Ok (Some h')
                    ∧ fm_load_hard_state (fm_new (hard_state_bin s')) = Ok None
  | None => False
  end.
Proof.
  intros Hnil Hbin. rewrite Hbin. unfold fm_load_hard_state, fm_new. simpl.
  rewrite hs_round_trip, lookup_singleton_eq, hs_round_trip. split; [done|].
  unfold fm_save_hard_state, save_to_file, mbind, proc_bind. simpl.
  rewrite lookup_insert_eq, hs_round_trip, take_0, Hnil. split_and!; [done|done|by rewrite lookup_empty].
Qed.
