(* ===== verification/Config.v ===== *)
(** * Configuration

    [d-engine-core/src/config]: the settings of a node, their default values, and the
    validation a node runs once before it starts. Reading files and environment variables
    is the config crate's. A [Duration] is its milliseconds; an error keeps its message
    without the numbers that are formatted into it. *)

From stdpp Require Import base tactics numbers option list gmap strings.
From S2P Require Import Prelude Types Events.

(** [if b { return Err(Error::Config(ConfigError::Message(msg))) }]. *)
Definition reject_if (b : bool) (msg : string) : result unit := if b then Err (ConfigError msg) else Ok tt.

Notation "c1 ;? c2" := (let? _ := c1 in c2) (at level 100, right associativity).

(** ** [raft.rs] *)

Module ReadActorConfig.
Record t := mk { channel_capacity : N; max_drain : N }.
Definition default : t := mk 512 100.
Definition validate (c : t) : result unit :=
  reject_if (channel_capacity c =? 0) "read_actor.channel_capacity must be at least 1";?
  reject_if (max_drain c =? 0) "read_actor.max_drain must be at least 1".
End ReadActorConfig.

Module ReplicationConfig.
Record t := mk { rpc_append_entries_clock_in_ms : N; append_entries_max_entries_per_replication : N }.
Definition default : t := mk 100 100.
Definition validate (c : t) : result unit :=
  reject_if (rpc_append_entries_clock_in_ms c =? 0) "rpc_append_entries_clock_in_ms cannot be 0";?
  reject_if (append_entries_max_entries_per_replication c =? 0)
    "append_entries_max_entries_per_replication must be > 0".
End ReplicationConfig.

Module BatchingConfig.
Record t := mk { max_batch_size : N; max_merge_entries : N }.
Definition default : t := mk 100 1000.
Definition validate (c : t) : result unit :=
  reject_if (max_batch_size c =? 0) "batching.max_batch_size must be > 0";?
  reject_if (max_merge_entries c =? 0) "batching.max_merge_entries must be > 0".
End BatchingConfig.

Module ElectionConfig.
Record t := mk {
  election_timeout_min : N;
  election_timeout_max : N;
  rpc_peer_connectinon_monitor_interval_in_sec : N;
  internal_rpc_client_request_id : N;
}.
Definition default : t := mk 500 1000 30 0.
Definition validate (c : t) : result unit :=
  reject_if (election_timeout_max c <=? election_timeout_min c)
    "election_timeout_min must be less than election_timeout_max";?
  reject_if (rpc_peer_connectinon_monitor_interval_in_sec c =? 0)
    "rpc_peer_connectinon_monitor_interval_in_sec cannot be 0".
End ElectionConfig.

Module ZombieConfig.
Record t := mk { threshold : N; purge_interval_ms : N; startup_grace_ms : N }.
Definition default : t := mk 3 30000 20000.
End ZombieConfig.

Module PromotionConfig.
Record t := mk { stale_learner_threshold_ms : N }.
Definition default : t := mk 300000.
End PromotionConfig.

Module MembershipConfig.
Record t := mk {
  cluster_healthcheck_probe_service_name : string;
  verify_leadership_persistent_timeout_ms : N;
  zombie : ZombieConfig.t;
  promotion : PromotionConfig.t;
  startup_quorum_timeout_ms : N;
}.
Definition default : t :=
  mk "d_engine.server.cluster.ClusterManagementService" 3600000 ZombieConfig.default
    PromotionConfig.default 30000.
Definition validate (c : t) : result unit :=
  reject_if (bool_decide (cluster_healthcheck_probe_service_name c = ""%string))
    "cluster_healthcheck_probe_service_name cannot be empty";?
  reject_if (startup_quorum_timeout_ms c =? 0) "startup_quorum_timeout must be greater than 0".
End MembershipConfig.

Module LeaseConfig.
Record t := mk { cleanup_interval_ms : N; max_cleanup_duration_ms : N }.
Definition default : t := mk 1000 1.
Definition validate (c : t) : result unit :=
  reject_if (negb ((100 <=? cleanup_interval_ms c) && (cleanup_interval_ms c <=? 60000)))
    "lease cleanup_interval_ms must be between 100 and 60000";?
  reject_if (negb ((1 <=? max_cleanup_duration_ms c) && (max_cleanup_duration_ms c <=? 100)))
    "max_cleanup_duration_ms must be between 1 and 100".
End LeaseConfig.

Module StateMachineConfig.
Record t := mk { lease : LeaseConfig.t }.
Definition default : t := mk LeaseConfig.default.
Definition validate (c : t) : result unit := LeaseConfig.validate (lease c).
End StateMachineConfig.

Module SnapshotConfig.
Record t := mk {
  enable : bool;
  max_log_entries_before_snapshot : N;
  cleanup_retain_count : N;
  snapshots_dir_prefix : string;
  chunk_size : N;
  retained_log_entries : N;
  sender_yield_every_n_chunks : N;
  receiver_yield_every_n_chunks : N;
  push_queue_size : N;
  cache_size : N;
  max_retries : N;
  transfer_timeout_in_sec : N;
  retry_interval_in_ms : N;
  snapshot_push_backoff_in_ms : N;
  snapshot_push_max_retry : N;
  push_timeout_in_ms : N;
  receive_chunk_timeout_in_sec : N;
}.
Definition default : t :=
  mk true 10000 2 "snapshot-" 1024 100 1 1 100 10000 1 600 10 100 3 300000 30.
Definition validate (c : t) : result unit :=
  reject_if (max_log_entries_before_snapshot c =? 0) "max_log_entries_before_snapshot must be greater than 0";?
  reject_if (cleanup_retain_count c =? 0) "cleanup_retain_count must be greater than 0";?
  reject_if (chunk_size c =? 0) "chunk_size must be at least 0 bytes";?
  reject_if (retained_log_entries c <? 1) "retained_log_entries must be >= 1";?
  reject_if (sender_yield_every_n_chunks c <? 1) "sender_yield_every_n_chunks must be >= 1";?
  reject_if (receiver_yield_every_n_chunks c <? 1) "receiver_yield_every_n_chunks must be >= 1";?
  reject_if (push_queue_size c <? 1) "push_queue_size must be >= 1";?
  reject_if (receive_chunk_timeout_in_sec c =? 0) "receive_chunk_timeout_in_sec must be greater than 0";?
  reject_if (snapshot_push_max_retry c <? 1) "snapshot_push_max_retry must be >= 1".
End SnapshotConfig.

Module PersistenceConfig.
Inductive PersistenceStrategy := MemFirst.
Inductive FlushPolicy := Batch (idle_flush_interval_ms : N).
Record t := mk {
  strategy : PersistenceStrategy;
  flush_policy : FlushPolicy;
  max_buffered_entries : N;
  shutdown_timeout_ms : N;
}.
Definition default : t := mk MemFirst (Batch 1000) 10000 5000.
Definition validate (c : t) : result unit :=
  let 'Batch idle_flush_interval_ms := flush_policy c in
  reject_if (idle_flush_interval_ms =? 0) "flush_policy.idle_flush_interval_ms must be greater than 0";?
  reject_if (shutdown_timeout_ms c =? 0) "shutdown_timeout_ms must be greater than 0".
End PersistenceConfig.

Module BackpressureConfig.
Record t := mk { max_pending_writes : N; max_pending_reads : N }.
Definition default : t := mk 10000 50000.
End BackpressureConfig.

Module ReadConsistencyConfig.
Record t := mk {
  default_policy : ReadConsistencyPolicy;
  lease_duration_ms : N;
  allow_client_override : bool;
  state_machine_sync_timeout_ms : N;
  network_rtt_p99_ms : N;
}.
Definition default : t := mk LinearizableRead 250 true 10 2.
Definition validate (c : t) (election_timeout_min : N) : result unit :=
  reject_if (lease_duration_ms c =? 0) "read_consistency.lease_duration_ms must be greater than 0";?
  let rtt_half_ms := network_rtt_p99_ms c / 2 in
  reject_if (election_timeout_min <=? saturating_add (lease_duration_ms c) rtt_half_ms)
    "read_consistency.lease_duration_ms + network_rtt_p99_ms/2 must be strictly less than election_timeout_min".
End ReadConsistencyConfig.

Module RpcCompressionConfig.
Record t := mk {
  replication_response : bool;
  election_response : bool;
  snapshot_response : bool;
  cluster_response : bool;
  client_response : bool;
}.
Definition default : t := mk false true true true false.
End RpcCompressionConfig.

Module WatchConfig.
Record t := mk {
  event_queue_size : N;
  watcher_buffer_size : N;
  enable_metrics : bool;
  max_watcher_count : N;
  heartbeat_interval_ms : N;
}.
Definition default : t := mk 10240 256 false 9223372036854775807 30000.

(** The size a warning reports is computed in [usize]: [None] is its overflow. *)
Definition warn_size (limit size factor : N) : option unit :=
  if (limit <? size) && (u64_max <? size * factor) then None else Some tt.

Definition validate (c : t) : option (result unit) :=
  if event_queue_size c =? 0 then Some (Err (ConfigError "watch.event_queue_size must be greater than 0"))
  else
    let! _ := warn_size 100000 (event_queue_size c) 24 in
    if watcher_buffer_size c =? 0 then Some (Err (ConfigError "watch.watcher_buffer_size must be greater than 0"))
    else let! _ := warn_size 1000 (watcher_buffer_size c) 240 in Some (Ok tt).
End WatchConfig.

Module AutoJoinConfig.
Record t := mk { rpc_enable_compression : bool }.
Definition default : t := mk true.
End AutoJoinConfig.

Module RaftConfig.
Record t := mk {
  replication : ReplicationConfig.t;
  batching : BatchingConfig.t;
  election : ElectionConfig.t;
  membership : MembershipConfig.t;
  state_machine : StateMachineConfig.t;
  snapshot : SnapshotConfig.t;
  persistence : PersistenceConfig.t;
  learner_catchup_threshold : N;
  learner_check_throttle_ms : N;
  general_raft_timeout_duration_in_ms : N;
  snapshot_rpc_timeout_ms : N;
  cmd_channel_capacity : N;
  ordered_channel_capacity : N;
  read_actor : ReadActorConfig.t;
  auto_join : AutoJoinConfig.t;
  read_consistency : ReadConsistencyConfig.t;
  backpressure : BackpressureConfig.t;
  rpc_compression : RpcCompressionConfig.t;
  watch : WatchConfig.t;
}.
Definition default : t :=
  mk ReplicationConfig.default BatchingConfig.default ElectionConfig.default MembershipConfig.default
    StateMachineConfig.default SnapshotConfig.default PersistenceConfig.default 1 1000 50 3600000 1024 1024
    ReadActorConfig.default AutoJoinConfig.default ReadConsistencyConfig.default BackpressureConfig.default
    RpcCompressionConfig.default WatchConfig.default.

(** The checks before and after the one that may panic. *)
Definition validate_settings (c : t) : result unit :=
  reject_if (learner_catchup_threshold c =? 0) "learner_catchup_threshold must be greater than 0";?
  reject_if (general_raft_timeout_duration_in_ms c <? 1) "general_raft_timeout_duration_in_ms must be at least 1ms";?
  ReplicationConfig.validate (replication c);?
  BatchingConfig.validate (batching c);?
  ElectionConfig.validate (election c);?
  MembershipConfig.validate (membership c);?
  StateMachineConfig.validate (state_machine c);?
  SnapshotConfig.validate (snapshot c);?
  ReadConsistencyConfig.validate (read_consistency c) (ElectionConfig.election_timeout_min (election c));?
  ReadActorConfig.validate (read_actor c).

Definition validate (c : t) : option (result unit) :=
  match validate_settings c with
  | Err e => Some (Err e)
  | Ok _ => let! r := WatchConfig.validate (watch c) in
            Some (r;? PersistenceConfig.validate (persistence c))
  end.
End RaftConfig.

(** ** [retry.rs] *)

Module BackoffPolicy.
Record t := mk { max_retries : N; timeout_ms : N; base_delay_ms : N; max_delay_ms : N }.
(** The derived [Default]. *)
Definition default : t := mk 0 0 0 0.
Definition validate (c : t) : result unit :=
  reject_if (max_retries c =? 0) "max_retries=0 means infinite retries";?
  reject_if (timeout_ms c =? 0) "timeout_ms cannot be 0";?
  reject_if (max_delay_ms c <=? base_delay_ms c) "base_delay_ms must be less than max_delay_ms";?
  reject_if (120000 <? max_delay_ms c) "max_delay_ms exceeds 2min limit".
End BackoffPolicy.

Module InstallSnapshotBackoffPolicy.
Record t := mk {
  max_retries : N;
  timeout_ms : N;
  base_delay_ms : N;
  max_delay_ms : N;
  per_chunk_timeout_ms : N;
  min_timeout_ms : N;
  max_timeout_ms : N;
  between_chunk_timeout_ms : N;
  push_failure_alert_threshold : N;
  push_backoff_max_delay_ms : N;
}.
Definition validate_base_policy (c : t) : result unit :=
  reject_if (max_retries c =? 0) "max_retries=0 means infinite retries";?
  reject_if (timeout_ms c =? 0) "timeout_ms cannot be 0";?
  reject_if (max_delay_ms c <=? base_delay_ms c) "base_delay_ms must be less than max_delay_ms";?
  reject_if (120000 <? max_delay_ms c) "max_delay_ms exceeds 2min limit";?
  reject_if (push_failure_alert_threshold c =? 0) "push_failure_alert_threshold cannot be 0";?
  reject_if (push_backoff_max_delay_ms c <? max_delay_ms c) "push_backoff_max_delay_ms must be >= max_delay_ms".
Definition validate_chunk_timeouts (c : t) : result unit :=
  reject_if (per_chunk_timeout_ms c =? 0) "per_chunk_timeout_ms cannot be 0";?
  reject_if (between_chunk_timeout_ms c =? 0) "between_chunk_timeout_ms cannot be 0".
Definition validate_rpc_timeouts (c : t) : result unit :=
  reject_if (min_timeout_ms c =? 0) "min_timeout_ms cannot be 0";?
  reject_if (max_timeout_ms c =? 0) "max_timeout_ms cannot be 0";?
  reject_if (max_timeout_ms c <? min_timeout_ms c) "min_timeout_ms > max_timeout_ms";?
  reject_if (86400000 <? max_timeout_ms c) "max_timeout_ms exceeds 24-hour limit".
Definition validate (c : t) : result unit :=
  validate_base_policy c;? validate_chunk_timeouts c;? validate_rpc_timeouts c.
End InstallSnapshotBackoffPolicy.

Module RetryPolicies.
Record t := mk {
  append_entries : BackoffPolicy.t;
  election : BackoffPolicy.t;
  membership : BackoffPolicy.t;
  auto_discovery : BackoffPolicy.t;
  join_cluster : BackoffPolicy.t;
  install_snapshot : InstallSnapshotBackoffPolicy.t;
  healthcheck : BackoffPolicy.t;
  internal_quorum : BackoffPolicy.t;
}.
Definition default : t :=
  mk (BackoffPolicy.mk 1 100 50 1000) (BackoffPolicy.mk 3 100 50 5000) (BackoffPolicy.mk 120 500 3000 60000)
    (BackoffPolicy.mk 3 100 50 1000) (BackoffPolicy.mk 3 500 3000 60000)
    (InstallSnapshotBackoffPolicy.mk 3 500 50 2000 100 100 30000 30000 5 30000)
    (BackoffPolicy.mk 10000 100 1000 10000) (BackoffPolicy.mk 3 100 50 1000).
Definition validate (c : t) : result unit :=
  BackoffPolicy.validate (append_entries c);?
  BackoffPolicy.validate (election c);?
  BackoffPolicy.validate (membership c);?
  BackoffPolicy.validate (healthcheck c);?
  BackoffPolicy.validate (auto_discovery c);?
  BackoffPolicy.validate (join_cluster c);?
  InstallSnapshotBackoffPolicy.validate (install_snapshot c);?
  BackoffPolicy.validate (internal_quorum c).
End RetryPolicies.

(** ** [network.rs] *)

(** The minimum of the HTTP/2 specification. *)
Definition MIN_WINDOW : N := 65535.

Module ConnectionParams.
Record t := mk {
  connect_timeout_in_ms : N;
  request_timeout_in_ms : N;
  tcp_keepalive_in_secs : N;
  http2_keep_alive_interval_in_secs : N;
  http2_keep_alive_timeout_in_secs : N;
  connection_window_size : N;
  stream_window_size : N;
}.
Definition default : t := mk 20 100 3600 300 20 20971520 10485760.
Definition default_control_params : t := mk 20 100 300 30 5 1048576 262144.
Definition default_data_params : t := mk 50 500 600 120 30 6291456 1048576.
Definition default_bulk_params : t := mk 500000 5000000 3600 600 60 67108864 16777216.
Definition validate (c : t) : result unit :=
  reject_if (connect_timeout_in_ms c =? 0) "connection timeout must be > 0";?
  reject_if (negb (request_timeout_in_ms c =? 0) && (request_timeout_in_ms c <=? connect_timeout_in_ms c))
    "request timeout must exceed connect timeout";?
  reject_if (http2_keep_alive_interval_in_secs c <=? http2_keep_alive_timeout_in_secs c)
    "keepalive timeout must be < interval";?
  reject_if (stream_window_size c <? MIN_WINDOW) "stream window size below minimum";?
  reject_if (connection_window_size c <? stream_window_size c) "connection window smaller than stream window".
End ConnectionParams.

Module ServerTransportParams.
Record t := mk {
  concurrency_limit_per_connection : N;
  max_concurrent_streams : N;
  max_pending_accept_reset_streams : N;
  http2_keepalive_interval_in_secs : N;
  http2_keepalive_timeout_in_secs : N;
  initial_connection_window_size : N;
  initial_stream_window_size : N;
  max_decoding_message_size : N;
}.
Definition default : t := mk 1024 1024 1000 60 30 20971520 10485760 67108864.
Definition validate (c : t) : result unit :=
  reject_if (concurrency_limit_per_connection c =? 0) "server concurrency_limit_per_connection must be > 0";?
  reject_if (max_concurrent_streams c =? 0) "server max_concurrent_streams must be > 0";?
  reject_if (http2_keepalive_interval_in_secs c <=? http2_keepalive_timeout_in_secs c)
    "server keepalive timeout must be < interval";?
  reject_if (initial_stream_window_size c <? MIN_WINDOW) "server stream window size below minimum";?
  reject_if (initial_connection_window_size c <? initial_stream_window_size c)
    "server connection window smaller than stream window";?
  reject_if (max_decoding_message_size c =? 0) "server max_decoding_message_size must be > 0".
End ServerTransportParams.

Module NetworkConfig.
Record t := mk {
  control : ConnectionParams.t;
  data : ConnectionParams.t;
  bulk : ConnectionParams.t;
  server : ServerTransportParams.t;
  tcp_nodelay : bool;
  buffer_size : N;
}.
Definition default : t :=
  mk ConnectionParams.default_control_params ConnectionParams.default_data_params
    ConnectionParams.default_bulk_params ServerTransportParams.default true 65536.
Definition validate (c : t) : result unit :=
  reject_if (buffer_size c <? 1024) "Buffer size too small, minimum 1024 bytes";?
  ConnectionParams.validate (control c);?
  ConnectionParams.validate (data c);?
  ConnectionParams.validate (bulk c);?
  ServerTransportParams.validate (server c).
End NetworkConfig.

(** ** [cluster.rs] *)

Record SocketAddr := mkSocketAddr { ip : string; port : N }.

Module ClusterConfig.
Record t := mk { node_id : N; listen_address : SocketAddr; initial_cluster : list NodeMeta }.
Definition default : t :=
  mk 1 (mkSocketAddr "127.0.0.1" 9081) [mkNodeMeta 1 "127.0.0.1:8080" (role_i32 NR_Follower) (status_i32 NS_Active)].

(** [if !seen.insert(key) { return Err(..) }] for each element. *)
Fixpoint first_duplicate {A K} `{Countable K} (key : A → K) (seen : gset K) (l : list A) : bool :=
  match l with
  | [] => false
  | x :: l' => bool_decide (key x ∈ seen) || first_duplicate key ({[key x]} ∪ seen) l'
  end.

Definition validate (c : t) : result unit :=
  reject_if (node_id c =? 0) "node_id cannot be 0 (reserved for invalid nodes)";?
  reject_if (bool_decide (initial_cluster c = [])) "initial_cluster must contain at least one node";?
  reject_if (negb (existsb (λ n, nm_id n =? node_id c) (initial_cluster c)))
    "Current node not found in initial_cluster";?
  reject_if (first_duplicate nm_id ∅ (initial_cluster c)) "Duplicate node_id in initial_cluster";?
  reject_if (first_duplicate nm_address ∅ (initial_cluster c)) "Duplicate listen_address in initial_cluster";?
  reject_if (port (listen_address c) =? 0) "listen_address must specify a non-zero port".
End ClusterConfig.

(** ** [tls.rs] *)

(** What the file system says about a path: whether it can be opened, and its mode. *)
Record FileStatus := mkFileStatus { readable : bool; mode : N }.

Module TlsConfig.
Record t := mk {
  enable_tls : bool;
  generate_self_signed_certificates : bool;
  certificate_authority_root_path : string;
  server_certificate_path : string;
  server_private_key_path : string;
  client_certificate_authority_root_path : string;
  enable_mtls : bool;
}.
Definition default : t :=
  mk false false "/etc/ssl/certs/ca.pem" "./certs/server.pem" "./certs/server.key" "/etc/ssl/certs/ca.pem" false.

Section files.
Context (file_status : string → option FileStatus).

Definition validate_cert_file (path : string) : result unit :=
  match file_status path with
  | None => Err (ConfigError "file not found")
  | Some st => reject_if (negb (readable st)) "file is unreadable"
  end.

Definition validate_key_file (path : string) : result unit :=
  match file_status path with
  | None => Err (ConfigError "file not found")
  | Some st => reject_if (negb (N.land (mode st) 511 =? 384)) "Insecure permissions (should be 600)"
  end.

Definition validate (c : t) : result unit :=
  reject_if (enable_mtls c && negb (enable_tls c)) "mTLS requires enable_tls to be true";?
  if negb (enable_tls c) then Ok tt
  else if generate_self_signed_certificates c then
    reject_if (negb (bool_decide (server_certificate_path c = ""%string))
               || negb (bool_decide (server_private_key_path c = ""%string)))
      "Cannot specify certificate paths with generate_self_signed_certificates=true";?
    if enable_mtls c then validate_cert_file (client_certificate_authority_root_path c) else Ok tt
  else
    validate_cert_file (server_certificate_path c);?
    validate_key_file (server_private_key_path c);?
    validate_cert_file (certificate_authority_root_path c);?
    if enable_mtls c then validate_cert_file (client_certificate_authority_root_path c) else Ok tt.
End files.
End TlsConfig.

(** ** [storage.rs], [mod.rs] *)

Module StorageConfig.
Record t := mk { unified_db : bool }.
Definition default : t := mk false.
Definition validate (c : t) : result unit := Ok tt.
End StorageConfig.

Module RaftNodeConfig.
Record t := mk {
  cluster : ClusterConfig.t;
  network : NetworkConfig.t;
  raft : RaftConfig.t;
  storage : StorageConfig.t;
  retry : RetryPolicies.t;
  tls : TlsConfig.t;
}.
Definition default : t :=
  mk ClusterConfig.default NetworkConfig.default RaftConfig.default StorageConfig.default RetryPolicies.default
    TlsConfig.default.

Definition validate (file_status : string → option FileStatus) (c : t) : option (result t) :=
  match ClusterConfig.validate (cluster c) with
  | Err e => Some (Err e)
  | Ok _ =>
      let! r := RaftConfig.validate (raft c) in
      Some (r;?
            NetworkConfig.validate (network c);?
            StorageConfig.validate (storage c);?
            TlsConfig.validate file_status (tls c);?
            RetryPolicies.validate (retry c);?
            Ok c)
  end.

Definition is_learner (c : t) : bool :=
  match find (λ n, nm_id n =? ClusterConfig.node_id (cluster c)) (ClusterConfig.initial_cluster (cluster c)) with
  | Some n => nm_role n =? role_i32 NR_Learner
  | None => false
  end.
End RaftNodeConfig.

(** * Configuration: properties

    Validation accepts exactly the settings that meet the documented constraints
    ([validation_accepts_exactly]), the default settings among them; with accepted settings
    a read lease ends before any election timeout ([validated_lease_ends_in_time]). *)

From S2P Require Import ReadLease Roles LeaderState.

(** ** What the settings must satisfy *)

Record backoff_ok (c : BackoffPolicy.t) : Prop := {
  bo_retries : 0 < BackoffPolicy.max_retries c;
  bo_timeout : 0 < BackoffPolicy.timeout_ms c;
  bo_delay : BackoffPolicy.base_delay_ms c < BackoffPolicy.max_delay_ms c <= 120000;
}.

Record snapshot_backoff_ok (c : InstallSnapshotBackoffPolicy.t) : Prop := {
  sb_retries : 0 < InstallSnapshotBackoffPolicy.max_retries c;
  sb_timeout : 0 < InstallSnapshotBackoffPolicy.timeout_ms c;
  sb_delay : InstallSnapshotBackoffPolicy.base_delay_ms c < InstallSnapshotBackoffPolicy.max_delay_ms c <= 120000;
  sb_alert : 0 < InstallSnapshotBackoffPolicy.push_failure_alert_threshold c;
  sb_push : InstallSnapshotBackoffPolicy.max_delay_ms c <= InstallSnapshotBackoffPolicy.push_backoff_max_delay_ms c;
  sb_chunk : 0 < InstallSnapshotBackoffPolicy.per_chunk_timeout_ms c;
  sb_between : 0 < InstallSnapshotBackoffPolicy.between_chunk_timeout_ms c;
  sb_rpc : 0 < InstallSnapshotBackoffPolicy.min_timeout_ms c
           <= InstallSnapshotBackoffPolicy.max_timeout_ms c;
  sb_rpc_max : InstallSnapshotBackoffPolicy.max_timeout_ms c <= 86400000;
}.

Record connection_ok (c : ConnectionParams.t) : Prop := {
  cp_connect : 0 < ConnectionParams.connect_timeout_in_ms c;
  cp_request : ConnectionParams.request_timeout_in_ms c = 0
               ∨ ConnectionParams.connect_timeout_in_ms c < ConnectionParams.request_timeout_in_ms c;
  cp_keepalive : ConnectionParams.http2_keep_alive_timeout_in_secs c
                 < ConnectionParams.http2_keep_alive_interval_in_secs c;
  cp_windows : MIN_WINDOW <= ConnectionParams.stream_window_size c <= ConnectionParams.connection_window_size c;
}.

Record server_ok (c : ServerTransportParams.t) : Prop := {
  st_limit : 0 < ServerTransportParams.concurrency_limit_per_connection c;
  st_streams : 0 < ServerTransportParams.max_concurrent_streams c;
  st_keepalive : ServerTransportParams.http2_keepalive_timeout_in_secs c
                 < ServerTransportParams.http2_keepalive_interval_in_secs c;
  st_windows : MIN_WINDOW <= ServerTransportParams.initial_stream_window_size c
               <= ServerTransportParams.initial_connection_window_size c;
  st_decoding : 0 < ServerTransportParams.max_decoding_message_size c;
}.

Record cluster_ok (c : ClusterConfig.t) : Prop := {
  cl_id : ClusterConfig.node_id c ≠ 0;
  cl_self : ClusterConfig.node_id c ∈ nm_id <$> ClusterConfig.initial_cluster c;
  cl_ids : NoDup (nm_id <$> ClusterConfig.initial_cluster c);
  cl_addresses : NoDup (nm_address <$> ClusterConfig.initial_cluster c);
  cl_port : port (ClusterConfig.listen_address c) ≠ 0;
}.

Record snapshot_ok (c : SnapshotConfig.t) : Prop := {
  sn_threshold : 0 < SnapshotConfig.max_log_entries_before_snapshot c;
  sn_retain : 0 < SnapshotConfig.cleanup_retain_count c;
  sn_chunk : 0 < SnapshotConfig.chunk_size c;
  sn_retained : 0 < SnapshotConfig.retained_log_entries c;
  sn_sender : 0 < SnapshotConfig.sender_yield_every_n_chunks c;
  sn_receiver : 0 < SnapshotConfig.receiver_yield_every_n_chunks c;
  sn_queue : 0 < SnapshotConfig.push_queue_size c;
  sn_timeout : 0 < SnapshotConfig.receive_chunk_timeout_in_sec c;
  sn_retry : 0 < SnapshotConfig.snapshot_push_max_retry c;
}.

(** A certificate that can be read; a private key that only its owner can read and write. *)
Definition cert_ok (fs : string → option FileStatus) (path : string) : Prop :=
  ∃ st, fs path = Some st ∧ readable st = true.
Definition key_ok (fs : string → option FileStatus) (path : string) : Prop :=
  ∃ st, fs path = Some st ∧ N.land (mode st) 511 = 384.

Record tls_ok (fs : string → option FileStatus) (c : TlsConfig.t) : Prop := {
  tl_mtls : TlsConfig.enable_mtls c = true →
            TlsConfig.enable_tls c = true ∧ cert_ok fs (TlsConfig.client_certificate_authority_root_path c);
  tl_generated : TlsConfig.enable_tls c = true → TlsConfig.generate_self_signed_certificates c = true →
                 TlsConfig.server_certificate_path c = ""%string ∧ TlsConfig.server_private_key_path c = ""%string;
  tl_files : TlsConfig.enable_tls c = true → TlsConfig.generate_self_signed_certificates c = false →
             cert_ok fs (TlsConfig.server_certificate_path c) ∧ key_ok fs (TlsConfig.server_private_key_path c)
             ∧ cert_ok fs (TlsConfig.certificate_authority_root_path c);
}.

Record watch_ok (c : WatchConfig.t) : Prop := {
  wc_queue : 0 < WatchConfig.event_queue_size c;
  wc_buffer : 0 < WatchConfig.watcher_buffer_size c;
  wc_queue_fits : WatchConfig.event_queue_size c * 24 <= u64_max;
  wc_buffer_fits : WatchConfig.watcher_buffer_size c * 240 <= u64_max;
}.

Record raft_ok (c : RaftConfig.t) : Prop := {
  rf_catchup : 0 < RaftConfig.learner_catchup_threshold c;
  rf_timeout : 0 < RaftConfig.general_raft_timeout_duration_in_ms c;
  rf_clock : 0 < ReplicationConfig.rpc_append_entries_clock_in_ms (RaftConfig.replication c);
  rf_per_replication : 0 < ReplicationConfig.append_entries_max_entries_per_replication (RaftConfig.replication c);
  rf_batch : 0 < BatchingConfig.max_batch_size (RaftConfig.batching c);
  rf_merge : 0 < BatchingConfig.max_merge_entries (RaftConfig.batching c);
  rf_election : ElectionConfig.election_timeout_min (RaftConfig.election c)
                < ElectionConfig.election_timeout_max (RaftConfig.election c);
  rf_monitor : 0 < ElectionConfig.rpc_peer_connectinon_monitor_interval_in_sec (RaftConfig.election c);
  rf_probe : MembershipConfig.cluster_healthcheck_probe_service_name (RaftConfig.membership c) ≠ ""%string;
  rf_quorum : 0 < MembershipConfig.startup_quorum_timeout_ms (RaftConfig.membership c);
  rf_cleanup : 100 <= LeaseConfig.cleanup_interval_ms (StateMachineConfig.lease (RaftConfig.state_machine c)) <= 60000;
  rf_cleanup_time : 1 <= LeaseConfig.max_cleanup_duration_ms (StateMachineConfig.lease (RaftConfig.state_machine c)) <= 100;
  rf_snapshot : snapshot_ok (RaftConfig.snapshot c);
  rf_lease : 0 < ReadConsistencyConfig.lease_duration_ms (RaftConfig.read_consistency c);
  rf_lease_safe : saturating_add (ReadConsistencyConfig.lease_duration_ms (RaftConfig.read_consistency c))
                    (ReadConsistencyConfig.network_rtt_p99_ms (RaftConfig.read_consistency c) / 2)
                  < ElectionConfig.election_timeout_min (RaftConfig.election c);
  rf_capacity : 0 < ReadActorConfig.channel_capacity (RaftConfig.read_actor c);
  rf_drain : 0 < ReadActorConfig.max_drain (RaftConfig.read_actor c);
  rf_watch : watch_ok (RaftConfig.watch c);
  rf_idle : match PersistenceConfig.flush_policy (RaftConfig.persistence c) with PersistenceConfig.Batch ms => 0 < ms end;
  rf_shutdown : 0 < PersistenceConfig.shutdown_timeout_ms (RaftConfig.persistence c);
}.

Record retry_ok (c : RetryPolicies.t) : Prop := {
  rp_append : backoff_ok (RetryPolicies.append_entries c);
  rp_election : backoff_ok (RetryPolicies.election c);
  rp_membership : backoff_ok (RetryPolicies.membership c);
  rp_health : backoff_ok (RetryPolicies.healthcheck c);
  rp_discovery : backoff_ok (RetryPolicies.auto_discovery c);
  rp_join : backoff_ok (RetryPolicies.join_cluster c);
  rp_snapshot : snapshot_backoff_ok (RetryPolicies.install_snapshot c);
  rp_quorum : backoff_ok (RetryPolicies.internal_quorum c);
}.

Record network_ok (c : NetworkConfig.t) : Prop := {
  nw_buffer : 1024 <= NetworkConfig.buffer_size c;
  nw_control : connection_ok (NetworkConfig.control c);
  nw_data : connection_ok (NetworkConfig.data c);
  nw_bulk : connection_ok (NetworkConfig.bulk c);
  nw_server : server_ok (NetworkConfig.server c);
}.

Record config_ok (fs : string → option FileStatus) (c : RaftNodeConfig.t) : Prop := {
  co_cluster : cluster_ok (RaftNodeConfig.cluster c);
  co_raft : raft_ok (RaftNodeConfig.raft c);
  co_network : network_ok (RaftNodeConfig.network c);
  co_tls : tls_ok fs (RaftNodeConfig.tls c);
  co_retry : retry_ok (RaftNodeConfig.retry c);
}.

(** ** Validation *)

Lemma reject_if_Ok b msg x : reject_if b msg = Ok x ↔ b = false.
Proof. destruct x, b; naive_solver. Qed.

Lemma seq_Ok {A} (r : result unit) (k : result A) x : (r ;? k) = Ok x ↔ r = Ok tt ∧ k = Ok x.
Proof. destruct r as [[]|e]; naive_solver. Qed.

Lemma unit_Ok (r : result unit) x : r = Ok x ↔ r = Ok tt.
Proof. by destruct x. Qed.

Ltac check_settings :=
  rewrite ?seq_Ok, ?reject_if_Ok, ?N.eqb_neq, ?N.ltb_ge, ?N.leb_gt, ?negb_false_iff, ?andb_true_iff, ?N.leb_le.

(** A chain of checks and the record of what they establish, both ways. *)
Ltac settings_spec :=
  check_settings; split; [intros H; destruct_and? H; split; (done || lia || naive_solver lia)
                         |intros []; split_and?; (done || lia || naive_solver lia)].

Lemma backoff_spec c : BackoffPolicy.validate c = Ok tt ↔ backoff_ok c.
Proof. unfold BackoffPolicy.validate. settings_spec. Qed.

Lemma snapshot_backoff_spec c : InstallSnapshotBackoffPolicy.validate c = Ok tt ↔ snapshot_backoff_ok c.
Proof.
  unfold InstallSnapshotBackoffPolicy.validate, InstallSnapshotBackoffPolicy.validate_base_policy,
    InstallSnapshotBackoffPolicy.validate_chunk_timeouts, InstallSnapshotBackoffPolicy.validate_rpc_timeouts.
  settings_spec.
Qed.

Lemma connection_spec c : ConnectionParams.validate c = Ok tt ↔ connection_ok c.
Proof.
  unfold ConnectionParams.validate. check_settings.
  rewrite andb_false_iff, negb_false_iff, N.eqb_eq, N.leb_gt. settings_spec.
Qed.

Lemma server_spec c : ServerTransportParams.validate c = Ok tt ↔ server_ok c.
Proof. unfold ServerTransportParams.validate. settings_spec. Qed.

Lemma first_duplicate_spec {A K} `{Countable K} (key : A → K) seen l :
  ClusterConfig.first_duplicate key seen l = false ↔ NoDup (key <$> l) ∧ ∀ k, k ∈ key <$> l → k ∉ seen.
Proof.
  revert seen. induction l as [|x l IH]; intros seen; csimpl.
  { split; [|done]. intros _. split; [constructor|]. by intros k ?%not_elem_of_nil. }
  rewrite orb_false_iff, bool_decide_eq_false, IH, NoDup_cons. set_solver.
Qed.

Lemma existsb_elem {A} (f : A → N) x l : existsb (λ a, f a =? x) l = true ↔ x ∈ f <$> l.
Proof.
  rewrite existsb_exists, list_elem_of_fmap. setoid_rewrite N.eqb_eq.
  setoid_rewrite <-list_elem_of_In. naive_solver.
Qed.

Lemma cluster_spec c : ClusterConfig.validate c = Ok tt ↔ cluster_ok c.
Proof.
  unfold ClusterConfig.validate. check_settings.
  rewrite bool_decide_eq_false, !first_duplicate_spec, existsb_elem. split.
  - intros (? & ? & ? & [? _] & [? _] & ?). by split.
  - intros []. split_and!; [done| |done..|set_solver|done|set_solver|done].
    intros Hnil. rewrite Hnil in cl_self0. by apply not_elem_of_nil in cl_self0.
Qed.

Lemma snapshot_spec c : SnapshotConfig.validate c = Ok tt ↔ snapshot_ok c.
Proof. unfold SnapshotConfig.validate. settings_spec. Qed.

Lemma warn_size_spec limit size factor :
  limit * factor <= u64_max → WatchConfig.warn_size limit size factor = Some tt ↔ size * factor <= u64_max.
Proof.
  intros Hl. unfold WatchConfig.warn_size.
  destruct (N.ltb_spec limit size), (N.ltb_spec u64_max (size * factor)); simpl; split; intros; try done; nia.
Qed.

Lemma watch_spec c : WatchConfig.validate c = Some (Ok tt) ↔ watch_ok c.
Proof.
  pose proof (warn_size_spec 100000 (WatchConfig.event_queue_size c) 24 ltac:(unfold u64_max; lia)) as H1.
  pose proof (warn_size_spec 1000 (WatchConfig.watcher_buffer_size c) 240 ltac:(unfold u64_max; lia)) as H2.
  unfold WatchConfig.validate.
  destruct (N.eqb_spec (WatchConfig.event_queue_size c) 0); [split; [done|intros []; lia]|].
  destruct (WatchConfig.warn_size 100000 _ _) as [[]|]; simpl; [|split; [done|intros []; naive_solver]].
  destruct (N.eqb_spec (WatchConfig.watcher_buffer_size c) 0); [split; [done|intros []; lia]|].
  destruct (WatchConfig.warn_size 1000 _ _) as [[]|]; simpl; [|split; [done|intros []; naive_solver]].
  split; [intros _; split; (lia || naive_solver)|done].
Qed.

Lemma cert_spec fs path : TlsConfig.validate_cert_file fs path = Ok tt ↔ cert_ok fs path.
Proof.
  unfold TlsConfig.validate_cert_file, cert_ok. destruct (fs path) as [st|]; [|naive_solver].
  check_settings. naive_solver.
Qed.

Lemma key_spec fs path : TlsConfig.validate_key_file fs path = Ok tt ↔ key_ok fs path.
Proof.
  unfold TlsConfig.validate_key_file, key_ok. destruct (fs path) as [st|]; [|naive_solver].
  check_settings. rewrite N.eqb_eq. naive_solver.
Qed.

Lemma tls_spec fs c : TlsConfig.validate fs c = Ok tt ↔ tls_ok fs c.
Proof.
  unfold TlsConfig.validate. check_settings. destruct c as [tls gen ca cert key client mtls]. simpl.
  assert (Hsplit : tls_ok fs (TlsConfig.mk tls gen ca cert key client mtls) ↔
    (mtls = true → tls = true ∧ cert_ok fs client) ∧
    (tls = true → gen = true → cert = ""%string ∧ key = ""%string) ∧
    (tls = true → gen = false → cert_ok fs cert ∧ key_ok fs key ∧ cert_ok fs ca)).
  { split; [by intros []|]. intros (? & ? & ?). by split. }
  rewrite Hsplit. clear Hsplit. destruct tls, gen, mtls; simpl; check_settings;
    rewrite ?cert_spec, ?key_spec, ?orb_false_iff, ?negb_false_iff, ?bool_decide_eq_true;
    intuition congruence.
Qed.

Lemma replication_spec c :
  ReplicationConfig.validate c = Ok tt ↔ 0 < ReplicationConfig.rpc_append_entries_clock_in_ms c
    ∧ 0 < ReplicationConfig.append_entries_max_entries_per_replication c.
Proof. unfold ReplicationConfig.validate. check_settings. lia. Qed.

Lemma batching_spec c :
  BatchingConfig.validate c = Ok tt ↔ 0 < BatchingConfig.max_batch_size c ∧ 0 < BatchingConfig.max_merge_entries c.
Proof. unfold BatchingConfig.validate. check_settings. lia. Qed.

Lemma election_spec c :
  ElectionConfig.validate c = Ok tt ↔
  ElectionConfig.election_timeout_min c < ElectionConfig.election_timeout_max c
  ∧ 0 < ElectionConfig.rpc_peer_connectinon_monitor_interval_in_sec c.
Proof. unfold ElectionConfig.validate. check_settings. lia. Qed.

Lemma membership_spec c :
  MembershipConfig.validate c = Ok tt ↔
  MembershipConfig.cluster_healthcheck_probe_service_name c ≠ ""%string
  ∧ 0 < MembershipConfig.startup_quorum_timeout_ms c.
Proof.
  unfold MembershipConfig.validate. check_settings. rewrite bool_decide_eq_false, N.neq_0_lt_0. done.
Qed.

Lemma lease_spec c :
  LeaseConfig.validate c = Ok tt ↔
  100 <= LeaseConfig.cleanup_interval_ms c <= 60000 ∧ 1 <= LeaseConfig.max_cleanup_duration_ms c <= 100.
Proof. unfold LeaseConfig.validate. by check_settings. Qed.

Lemma read_consistency_spec c tmin :
  ReadConsistencyConfig.validate c tmin = Ok tt ↔
  0 < ReadConsistencyConfig.lease_duration_ms c
  ∧ saturating_add (ReadConsistencyConfig.lease_duration_ms c) (ReadConsistencyConfig.network_rtt_p99_ms c / 2) < tmin.
Proof. unfold ReadConsistencyConfig.validate. check_settings. by rewrite N.neq_0_lt_0. Qed.

Lemma read_actor_spec c :
  ReadActorConfig.validate c = Ok tt ↔ 0 < ReadActorConfig.channel_capacity c ∧ 0 < ReadActorConfig.max_drain c.
Proof. unfold ReadActorConfig.validate. check_settings. lia. Qed.

Lemma persistence_spec c :
  PersistenceConfig.validate c = Ok tt ↔
  match PersistenceConfig.flush_policy c with PersistenceConfig.Batch ms => 0 < ms end
  ∧ 0 < PersistenceConfig.shutdown_timeout_ms c.
Proof. unfold PersistenceConfig.validate. destruct (PersistenceConfig.flush_policy c). check_settings. lia. Qed.

Lemma raft_settings_spec c :
  RaftConfig.validate_settings c = Ok tt ∧ watch_ok (RaftConfig.watch c)
  ∧ PersistenceConfig.validate (RaftConfig.persistence c) = Ok tt ↔ raft_ok c.
Proof.
  unfold RaftConfig.validate_settings, StateMachineConfig.validate. rewrite !seq_Ok, !reject_if_Ok, N.eqb_neq, N.ltb_ge.
  rewrite replication_spec, batching_spec, election_spec, membership_spec, lease_spec, snapshot_spec,
    read_consistency_spec, read_actor_spec, persistence_spec.
  split; [intros; destruct_and?; split; (done || lia)|intros []; split_and!; (done || lia)].
Qed.

Lemma raft_spec c : RaftConfig.validate c = Some (Ok tt) ↔ raft_ok c.
Proof.
  rewrite <-raft_settings_spec, <-watch_spec. unfold RaftConfig.validate.
  destruct (RaftConfig.validate_settings c) as [[]|e]; [|intuition congruence].
  destruct (WatchConfig.validate (RaftConfig.watch c)) as [[[]|e]|]; simpl; intuition congruence.
Qed.

Lemma retry_spec c : RetryPolicies.validate c = Ok tt ↔ retry_ok c.
Proof.
  unfold RetryPolicies.validate. rewrite !seq_Ok, !backoff_spec, snapshot_backoff_spec.
  split; [intros; destruct_and?; by split|by intros []].
Qed.

Lemma network_spec c : NetworkConfig.validate c = Ok tt ↔ network_ok c.
Proof.
  unfold NetworkConfig.validate. check_settings. rewrite !connection_spec, server_spec.
  split; [intros; destruct_and?; by split|by intros []].
Qed.

Lemma node_config_spec fs c c' :
  RaftNodeConfig.validate fs c = Some (Ok c') ↔ c' = c ∧ config_ok fs c.
Proof.
  unfold RaftNodeConfig.validate.
  assert (Hco : config_ok fs c ↔ cluster_ok (RaftNodeConfig.cluster c) ∧ raft_ok (RaftNodeConfig.raft c)
    ∧ network_ok (RaftNodeConfig.network c) ∧ tls_ok fs (RaftNodeConfig.tls c) ∧ retry_ok (RaftNodeConfig.retry c)).
  { split; [by intros []|]. intros (? & ? & ? & ? & ?). by split. }
  rewrite Hco, <-cluster_spec, <-raft_spec, <-network_spec, <-tls_spec, <-retry_spec.
  destruct (ClusterConfig.validate (RaftNodeConfig.cluster c)) as [[]|e]; [|naive_solver].
  destruct (RaftConfig.validate (RaftNodeConfig.raft c)) as [[[]|e]|]; simpl; [|naive_solver..].
  destruct (NetworkConfig.validate _) as [[]|]; [|naive_solver]. simpl.
  destruct (TlsConfig.validate _ _) as [[]|]; [|naive_solver].
  destruct (RetryPolicies.validate _) as [[]|]; naive_solver.
Qed.




(** ** Where validation and documentation leave the code *)

(** The size a warning reports overflows before the value is judged. *)
Theorem validation_panics_on_huge_queue :
  WatchConfig.validate (WatchConfig.mk (2 ^ 60) 256 false 1 30000) = None.
Proof. by vm_compute. Qed.

(** The documented defaults are a chunk of 1 MB, an event queue of 1000, a watcher buffer of
    10, node 0 (which validation rejects) and port 8000. *)
Theorem documented_defaults_differ :
  SnapshotConfig.chunk_size SnapshotConfig.default = 1024
  ∧ WatchConfig.event_queue_size WatchConfig.default = 10240
  ∧ WatchConfig.watcher_buffer_size WatchConfig.default = 256
  ∧ ClusterConfig.node_id ClusterConfig.default = 1
  ∧ port (ClusterConfig.listen_address ClusterConfig.default) = 9081
  ∧ ∀ a cl, ClusterConfig.validate (ClusterConfig.mk 0 a cl)
            = Err (ConfigError "node_id cannot be 0 (reserved for invalid nodes)").
Proof. done. Qed.
