(* ===== verification/SnapshotFiles.v ===== *)
(** * Snapshot files

    [d-engine-core/src/storage/snapshot_path_manager.rs], the removal of old snapshots
    of [d-engine-core/src/state_machine_handler/default_state_machine_handler.rs] and
    [validate_compressed_format] of [d-engine-core/src/utils/file_io.rs]. The snapshot
    directory is a map from file names to files and directories; a path of the code is
    a name in it (the configured prefix holds no separator). A name is the list of its
    bytes. *)

From stdpp Require Import base tactics numbers option list sorting gmap strings pretty.
From Stdlib Require Import Ascii.
From S2P Require Import Prelude Proc Types.

Local Open Scope string_scope.

(** ** Strings *)

Fixpoint strip_prefix (p s : string) : option string :=
  match p, s with
  | "", _ => Some s
  | String a p', String b s' => if Ascii.eqb a b then strip_prefix p' s' else None
  | _, "" => None
  end.

Definition starts_with (p s : string) : bool := bool_decide (is_Some (strip_prefix p s)).

Fixpoint strip_suffix (suffix s : string) : option string :=
  if String.eqb s suffix then Some "" else
  match s with
  | "" => None
  | String c s' => String c <$> strip_suffix suffix s'
  end.

(** The text before and after the first [c]. *)
Fixpoint split_once (c : ascii) (s : string) : option (string * string) :=
  match s with
  | "" => None
  | String a s' =>
      if Ascii.eqb a c then Some ("", s')
      else (λ p, (String a p.1, p.2)) <$> split_once c s'
  end.

(** [str::split]. *)
Fixpoint split (c : ascii) (s : string) : list string :=
  match s with
  | "" => [""]
  | String a s' =>
      if Ascii.eqb a c then "" :: split c s'
      else match split c s' with
           | [] => [String a ""]
           | w :: ws => String a w :: ws
           end
  end.

(** The text before and after the last [c]. *)
Fixpoint rsplit_once (c : ascii) (s : string) : option (string * string) :=
  match s with
  | "" => None
  | String a s' =>
      match rsplit_once c s' with
      | Some p => Some (String a p.1, p.2)
      | None => if Ascii.eqb a c then Some ("", s') else None
      end
  end.

(** [Path::extension]. *)
Definition extension (name : string) : option string :=
  match rsplit_once "." name with
  | Some (stem, ext) => if String.eqb stem "" then None else Some ext
  | None => None
  end.

Definition lower (c : ascii) : ascii :=
  let n := N_of_ascii c in if ((65 <=? n) && (n <=? 90))%N then ascii_of_N (n + 32) else c.

Fixpoint to_lowercase (s : string) : string :=
  match s with "" => "" | String c s' => String (lower c) (to_lowercase s') end.

Definition digit (c : ascii) : option N :=
  let n := N_of_ascii c in if ((48 <=? n) && (n <=? 57))%N then Some (n - 48) else None.

Fixpoint parse_digits (acc : N) (s : string) : option N :=
  match s with
  | "" => Some acc
  | String c s' =>
      match digit c with
      | Some d => if (acc * 10 + d <=? u64_max)%N then parse_digits (acc * 10 + d) s' else None
      | None => None
      end
  end.

(** [str::parse::<u64>], which accepts a leading plus sign. *)
Definition parse_u64 (s : string) : option N :=
  match s with
  | "" => None
  | String c s' =>
      if Ascii.eqb c "+" then match s' with "" => None | _ => parse_digits 0 s' end
      else parse_digits 0 s
  end.

(** A byte of a multi-byte character after its first one. *)
Definition continuation_byte (c : ascii) : bool :=
  let n := N_of_ascii c in ((128 <=? n) && (n <? 192))%N.

(** [&s[n..]], which panics past the end and inside a character. *)
Fixpoint slice_from (n : nat) (s : string) : option string :=
  match n, s with
  | O, String c _ => if continuation_byte c then None else Some s
  | O, "" => Some ""
  | S n', String _ s' => slice_from n' s'
  | S _, "" => None
  end.

(** ** File names *)

Record SnapshotPathManager := mkSnapshotPathManager {
  snapshot_prefix : string;
  temp_prefix : string;
}.

Definition new_path_manager (prefix : string) : SnapshotPathManager :=
  mkSnapshotPathManager prefix "temp-".

Definition temp_assembly_file (pm : SnapshotPathManager) : string :=
  temp_prefix pm +:+ "snapshot.part.tar.gz".

Definition final_snapshot_path (pm : SnapshotPathManager) (id : LogId) : string :=
  snapshot_prefix pm +:+ pretty (lid_index id) +:+ "-" +:+ pretty (lid_term id) +:+ ".tar.gz".

Definition temp_work_path (pm : SnapshotPathManager) (id : LogId) : string :=
  temp_prefix pm +:+ pretty (lid_index id) +:+ "-" +:+ pretty (lid_term id).

Definition versioned_temp_path (version : N) : string := ".temp-" +:+ pretty version.

Definition versioned_final_path (pm : SnapshotPathManager) (version : N) (id : LogId) : string :=
  snapshot_prefix pm +:+ pretty version +:+ "-" +:+ pretty (lid_index id) +:+ "-" +:+ pretty (lid_term id).

(** The index and the term in the text after a prefix. *)
Definition parse_index_term (stripped : string) : option (N * N) :=
  match split "-" stripped with
  | a :: b :: _ =>
      match parse_u64 a, head (split "." b) ≫= parse_u64 with
      | Some index, Some term => Some (index, term)
      | _, _ => None
      end
  | _ => None
  end.

Fixpoint parse_patterns (patterns : list string) (filename : string) : option (N * N) :=
  match patterns with
  | [] => None
  | p :: ps =>
      match strip_prefix p filename ≫= parse_index_term with
      | Some r => Some r
      | None => parse_patterns ps filename
      end
  end.

Definition parse_snapshot_filename (pm : SnapshotPathManager) (filename : string) : option (N * N) :=
  parse_patterns [snapshot_prefix pm; temp_prefix pm; "snapshot.part"] filename.

(** [parse_snapshot_dirname], which skips nine bytes whatever the prefix is. The outer
    [None] is a panic. *)
Definition parse_snapshot_dirname (name prefix : string) : option (option (N * N)) :=
  if negb (starts_with prefix name) then Some None else
  let! core := slice_from 9 name in
  Some match split_once "-" core with
       | None => None
       | Some (a, b) =>
           match parse_u64 a, parse_u64 b with
           | Some i, Some t => Some (i, t)
           | _, _ => None
           end
       end.

(** ** Removing old snapshots *)

Record CleanupSnapshotMeta := mkCleanupSnapshotMeta {
  csm_index : N;
  csm_term : N;
  csm_path : string;
}.

#[global] Instance CleanupSnapshotMeta_eq_dec : EqDecision CleanupSnapshotMeta.
Proof. solve_decision. Defined.

(** What the loop over the directory makes of one file name: with the name as it is or
    without its ending. *)
Definition parse_entry (prefix name : string) : option (option (N * N)) :=
  if bool_decide (extension name = Some "gz") then
    let! parsed := parse_snapshot_dirname name prefix in
    match parsed with
    | Some p => Some (Some p)
    | None =>
        match strip_suffix ".tar.gz" name with
        | Some s => parse_snapshot_dirname s prefix
        | None => Some None
        end
    end
  else Some None.

Fixpoint collect_snapshots (prefix : string) (names : list string) : option (list CleanupSnapshotMeta) :=
  match names with
  | [] => Some []
  | name :: names' =>
      let! parsed := parse_entry prefix name in
      let! rest := collect_snapshots prefix names' in
      Some match parsed with
           | Some (index, term) => mkCleanupSnapshotMeta index term name :: rest
           | None => rest
           end
  end.

Definition index_le : relation CleanupSnapshotMeta := λ a b, (csm_index a <= csm_index b)%N.

#[global] Instance index_le_dec : RelDecision index_le.
Proof. intros a b. unfold index_le. apply _. Defined.

(** A file, or a directory with its contents. *)
Inductive node (D : Type) := NFile (content : bytes) | NDir (contents : D).
Arguments NFile {D}.
Arguments NDir {D}.

(** What the file system answers: listing the directory, removing a name. *)
Record DirEnv := mkDirEnv { list_ok : bool; remove_ok : string → bool }.

Section cleanup.
Context {D : Type} `{!MapIter string (node D)}.
Abbreviation dir := (gmap string (node D)).

(** [metadata] and then [remove_file] or [remove_dir_all]. *)
Definition remove_path (env : DirEnv) (name : string) : proc dir unit := λ files,
  match files !! name with
  | None => Some (files, Err IoError)
  | Some _ => if remove_ok env name then Some (delete name files, Ok tt) else Some (files, Err IoError)
  end.

Definition cleanup_snapshot (env : DirEnv) (retain_count : N) (prefix : string) : proc dir unit := λ files,
  if negb (list_ok env) then Some (files, Err PathError) else
  let! snapshots := collect_snapshots prefix (map_iter files).*1 in
  if (N.of_nat (length snapshots) <=? retain_count)%N then Some (files, Ok tt) else
  let sorted := merge_sort index_le snapshots in
  let split_point := (N.of_nat (length snapshots) - retain_count)%N in
  for_each (λ m, remove_path env (csm_path m)) (take (N.to_nat split_point) sorted) files.

(** ** Compressed files *)

(** [validate_compressed_format]. Reading the header of a directory fails. *)
Definition validate_compressed_format (name : string) (files : dir) : result unit :=
  match files !! name with
  | None => Err FileNotFound
  | Some (NDir _) => Err IoError
  | Some (NFile content) =>
      if (N.of_nat (length content) <? 10)%N then Err (FileTooSmall (N.of_nat (length content))) else
      match extension name with
      | None => Err InvalidExt
      | Some ext =>
          if bool_decide (to_lowercase ext ∈ ["gz"; "tgz"; "snap"]) then
            match content with
            | 0x1f :: 0x8b :: _ => Ok tt
            | _ => Err InvalidGzipHeader
            end
          else Err InvalidExt
      end
  end.
End cleanup.

(** * Snapshot file names and their removal

    The name of a snapshot is read back as the index and the term it was made from, for
    a prefix of nine bytes, and the removal of old snapshots deletes none of the newest
    ones. *)

Local Open Scope string_scope.

#[local] Arguments String.append !s1 s2 : simpl nomatch.

Lemma string_app_assoc (a b c : string) : a +:+ b +:+ c = (a +:+ b) +:+ c.
Proof. induction a as [|x a IH]; simpl; [done|]. by rewrite IH. Qed.

(** ** Decimal numbers *)

Fixpoint all_digits (s : string) : bool :=
  match s with "" => true | String c s' => bool_decide (is_Some (digit c)) && all_digits s' end.

Lemma digit_pretty x : (x < 10)%N → digit (pretty_N_char x) = Some x.
Proof.
  intros Hx. assert (x ∈ [0; 1; 2; 3; 4; 5; 6; 7; 8; 9]%N) as Hin.
  { rewrite !elem_of_cons. lia. }
  repeat (apply elem_of_cons in Hin as [->|Hin]; [done|]). by apply not_elem_of_nil in Hin.
Qed.

(** The digits of [x], most significant first. *)
Lemma pretty_go_ind (P : N → string → string → Prop) :
  (∀ s, P 0%N s s) →
  (∀ x s r, (0 < x)%N → P (x / 10)%N (String (pretty_N_char (x mod 10)) s) r → P x s r) →
  ∀ x s, P x s (pretty_N_go x s).
Proof.
  intros H0 H1 x. induction (N.lt_wf_0 x) as [x _ IH]. intros s.
  destruct (decide (x = 0)%N) as [->|Hx]; [apply H0|].
  rewrite pretty_N_go_step by lia. apply H1; [lia|]. apply IH. apply N.div_lt; lia.
Qed.

Lemma parse_digits_go x s : (x <= u64_max)%N → parse_digits 0 (pretty_N_go x s) = parse_digits x s.
Proof.
  revert x s. refine (pretty_go_ind (λ x s r, (x <= u64_max)%N → parse_digits 0 r = parse_digits x s) _ _); [done|].
  intros x s r Hx IH Hmax. rewrite IH by (pose proof (N.Div0.div_le_upper_bound x 10 x); lia). cbn [parse_digits].
  rewrite digit_pretty by (apply N.mod_lt; lia).
  replace (x / 10 * 10 + x mod 10)%N with x by (pose proof (N.div_mod x 10); lia).
  by rewrite (proj2 (N.leb_le _ _) Hmax).
Qed.

Lemma all_digits_go x s : all_digits (pretty_N_go x s) = all_digits s.
Proof.
  revert x s. refine (pretty_go_ind (λ x s r, all_digits r = all_digits s) _ _); [done|].
  intros x s r Hx IH. rewrite IH. cbn [all_digits]. by rewrite digit_pretty by (apply N.mod_lt; lia).
Qed.

Lemma all_digits_pretty (x : N) : all_digits (pretty x) = true.
Proof. unfold pretty, pretty_N. case_decide; [done|]. by rewrite all_digits_go. Qed.

Lemma parse_digits_pretty (x : N) : (x <= u64_max)%N → parse_digits 0 (pretty x) = Some x.
Proof. intros Hx. unfold pretty, pretty_N. case_decide; [by subst|]. by rewrite parse_digits_go. Qed.

Lemma pretty_head (x : N) : ∃ c s, pretty x = String c s ∧ is_Some (digit c).
Proof.
  pose proof (all_digits_pretty x) as Hd. destruct (pretty x) as [|c s] eqn:E.
  - exfalso. unfold pretty, pretty_N in E. case_decide; [done|].
    revert E. rewrite pretty_N_go_step by lia. generalize (x / 10)%N (pretty_N_char (x mod 10)).
    intros y c. revert y. assert (∀ y s, s ≠ "" → pretty_N_go y s ≠ "") as Hne.
    { refine (pretty_go_ind (λ y s r, s ≠ "" → r ≠ "") _ _); [done|]. intros y s r _ IH _. by apply IH. }
    intros y. by apply Hne.
  - exists c, s. split; [done|]. simpl in Hd. by apply andb_true_iff in Hd as [?%bool_decide_eq_true _].
Qed.

Lemma parse_u64_digits s : s ≠ "" → all_digits s = true → parse_u64 s = parse_digits 0 s.
Proof.
  destruct s as [|c s]; [done|]. intros _. cbn [all_digits]. intros [[d Hd]%bool_decide_eq_true _]%andb_true_iff.
  unfold parse_u64. destruct (Ascii.eqb_spec c "+") as [->|]; done.
Qed.

(** [str::parse] after [format!]. *)
Lemma parse_u64_pretty (x : N) : (x <= u64_max)%N → parse_u64 (pretty x) = Some x.
Proof.
  intros Hx. rewrite parse_u64_digits; [by apply parse_digits_pretty| |apply all_digits_pretty].
  by destruct (pretty_head x) as (c & s & -> & _).
Qed.

Lemma parse_digits_bad s acc c r : digit c = None → parse_digits acc (s +:+ String c r) = None.
Proof.
  intros Hc. revert acc. induction s as [|a s IH]; intros acc; simpl; [by rewrite Hc|].
  destruct (digit a); [|done]. by case_match.
Qed.

Lemma parse_u64_bad (x : N) c r : digit c = None → parse_u64 (pretty x +:+ String c r) = None.
Proof.
  intros Hc. destruct (pretty_head x) as (a & s & -> & [d Hd]). 
  change (parse_u64 (String a (s +:+ String c r)) = None). unfold parse_u64.
  destruct (Ascii.eqb_spec a "+") as [->|]; [done|]. apply (parse_digits_bad (String a s) 0%N c r Hc).
Qed.

(** ** Splitting *)

Lemma split_once_digits s c r : digit c = None → all_digits s = true → split_once c (s +:+ String c r) = Some (s, r).
Proof.
  intros Hc. induction s as [|a s IH]; simpl; [by rewrite Ascii.eqb_refl|].
  intros [[d Hd]%bool_decide_eq_true Hs]%andb_true_iff. rewrite (IH Hs).
  destruct (Ascii.eqb_spec a c) as [->|]; [congruence|done].
Qed.

Lemma slice_from_app p s :
  slice_from (String.length p) (p +:+ s) = match s with String c _ => if continuation_byte c then None else Some s | "" => Some "" end.
Proof. induction p as [|a p IH]; simpl; [by destruct s|done]. Qed.

Lemma starts_with_app p s : starts_with p (p +:+ s) = true.
Proof.
  apply bool_decide_eq_true. exists s. induction p as [|a p IH]; simpl; [by destruct s|].
  by rewrite Ascii.eqb_refl.
Qed.

Lemma string_length_app s1 s2 : String.length (s1 +:+ s2) = (String.length s1 + String.length s2)%nat.
Proof. induction s1; simpl; congruence. Qed.

Lemma strip_suffix_app s suffix : strip_suffix suffix (s +:+ suffix) = Some s.
Proof.
  induction s as [|c s IH].
  - change ("" +:+ suffix) with suffix. destruct suffix; unfold strip_suffix; by rewrite String.eqb_refl.
  - change (String c s +:+ suffix) with (String c (s +:+ suffix)). cbn [strip_suffix]. rewrite IH.
    destruct (String.eqb_spec (String c (s +:+ suffix)) suffix) as [E|]; [|done].
    apply (f_equal String.length) in E. simpl in E. rewrite string_length_app in E. lia.
Qed.

Lemma rsplit_once_app s c r : rsplit_once c r = None → rsplit_once c (s +:+ String c r) = Some (s, r).
Proof.
  intros Hr. induction s as [|a s IH]; simpl; [by rewrite Hr, Ascii.eqb_refl|]. by rewrite IH.
Qed.

Lemma extension_app s ext : s ≠ "" → rsplit_once "." ext = None → extension (s +:+ String "." ext) = Some ext.
Proof.
  intros Hs Hr. unfold extension. rewrite rsplit_once_app by done.
  destruct (String.eqb_spec s ""); done.
Qed.

(** ** Names of snapshots *)

Lemma final_path_extension pm id : extension (final_snapshot_path pm id) = Some "gz".
Proof.
  unfold final_snapshot_path. rewrite !string_app_assoc. destruct (pretty_head (lid_index id)) as (c & s & -> & _).
  set (stem := _ +:+ pretty (lid_term id)).
  replace (stem +:+ ".tar.gz") with ((stem +:+ ".tar") +:+ String "." "gz") by by rewrite <-string_app_assoc.
  apply extension_app; [|done]. intros E. apply (f_equal String.length) in E. rewrite string_length_app in E. simpl in E. lia.
Qed.

Fixpoint last_char (s : string) : option ascii :=
  match s with "" => None | String c "" => Some c | String _ s' => last_char s' end.

Lemma last_char_app s1 c s2 : last_char (s1 +:+ String c s2) = last_char (String c s2).
Proof. induction s1 as [|a s1 IH]; [done|]. simpl. rewrite IH. by destruct s1. Qed.

Lemma last_char_digits s : all_digits s = true → s ≠ "" → ∃ c, last_char s = Some c ∧ is_Some (digit c).
Proof.
  induction s as [|c s IH]; [done|]. cbn [all_digits]. intros [Hc%bool_decide_eq_true Hs]%andb_true_iff _.
  destruct s as [|c' s]; [by exists c|]. by apply IH.
Qed.

(** A transfer is never assembled in a file with the name of a snapshot. *)
Lemma temp_not_final pm id : temp_assembly_file pm ≠ final_snapshot_path pm id.
Proof.
  unfold temp_assembly_file, final_snapshot_path. rewrite !string_app_assoc.
  change "snapshot.part.tar.gz" with ("snapshot.part" +:+ ".tar.gz"). rewrite string_app_assoc. intros E.
  assert (∀ a b c : string, a +:+ c = b +:+ c → a = b) as Hinj.
  { intros a b c Hab. pose proof (strip_suffix_app a c) as Ha. rewrite Hab, strip_suffix_app in Ha. congruence. }
  apply Hinj, (f_equal last_char) in E. change "snapshot.part" with (String "s" "napshot.part") in E.
  rewrite last_char_app in E. destruct (pretty_head (lid_term id)) as (c & s & Hp & _).
  destruct (last_char_digits (pretty (lid_term id))) as (c' & Hc' & Hd); [apply all_digits_pretty|by rewrite Hp|].
  rewrite Hp in E, Hc'. rewrite last_char_app, Hc' in E. injection E as <-. by destruct Hd.
Qed.

Lemma temp_work_not_final pm id : temp_work_path pm id ≠ final_snapshot_path pm id.
Proof.
  unfold temp_work_path, final_snapshot_path. rewrite !string_app_assoc. intros E%(f_equal last_char).
  change ".tar.gz" with (String "." "tar.gz") in E. rewrite (last_char_app _ "." "tar.gz") in E.
  destruct (pretty_head (lid_term id)) as (c & s & Hp & _).
  destruct (last_char_digits (pretty (lid_term id))) as (c' & Hc' & Hd); [apply all_digits_pretty|by rewrite Hp|].
  rewrite Hp in E, Hc'. rewrite last_char_app, Hc' in E. injection E as ->. by destruct Hd.
Qed.

Section names.
Context (prefix : string).

Lemma parse_dirname_app (i : N) rest :
  String.length prefix = 9%nat →
  parse_snapshot_dirname (prefix +:+ pretty i +:+ "-" +:+ rest) prefix
  = Some (match parse_u64 (pretty i), parse_u64 rest with Some i, Some t => Some (i, t) | _, _ => None end).
Proof.
  intros Hlen. unfold parse_snapshot_dirname. rewrite starts_with_app. cbn [negb].
  assert (slice_from 9 (prefix +:+ pretty i +:+ "-" +:+ rest) = Some (pretty i +:+ "-" +:+ rest)) as ->.
  { rewrite <-Hlen, slice_from_app. destruct (pretty_head i) as (c & s & -> & [d Hd]). simpl.
    assert (continuation_byte c = false) as ->; [|done].
    unfold digit, continuation_byte in *. case_bool_in Hd; try done. case_bool; done || lia. }
  assert (split_once "-" (pretty i +:+ "-" +:+ rest) = Some (pretty i, rest)) as ->; [|done].
  exact (split_once_digits _ "-" rest eq_refl (all_digits_pretty i)).
Qed.

(** The name of a snapshot is read back as its index and term. *)
Lemma parse_final_path id :
  String.length prefix = 9%nat → (lid_index id <= u64_max)%N → (lid_term id <= u64_max)%N →
  parse_entry prefix (final_snapshot_path (new_path_manager prefix) id) = Some (Some (lid_index id, lid_term id)).
Proof.
  intros Hlen Hi Ht. unfold parse_entry. rewrite bool_decide_true by apply final_path_extension.
  unfold final_snapshot_path, new_path_manager. cbn [snapshot_prefix].
  rewrite parse_dirname_app by done. rewrite parse_u64_pretty by done.
  rewrite (parse_u64_bad (lid_term id) "." "tar.gz" eq_refl).
  replace (prefix +:+ pretty (lid_index id) +:+ "-" +:+ pretty (lid_term id) +:+ ".tar.gz")
    with ((prefix +:+ pretty (lid_index id) +:+ "-" +:+ pretty (lid_term id)) +:+ ".tar.gz")
    by by rewrite <-!string_app_assoc.
  rewrite strip_suffix_app, parse_dirname_app, !parse_u64_pretty by done. done.
Qed.

(** ** Every name of ASCII characters can be read *)

Fixpoint ascii_name (s : string) : bool :=
  match s with "" => true | String c s' => (N_of_ascii c <? 128)%N && ascii_name s' end.

Lemma strip_prefix_Some p s r : strip_prefix p s = Some r → s = p +:+ r.
Proof.
  revert s. induction p as [|a p IH]; intros s; [by intros [= ->]|].
  destruct s as [|b s]; simpl; [done|]. destruct (Ascii.eqb_spec a b) as [->|]; [|done].
  intros ->%IH. done.
Qed.

Lemma strip_suffix_Some suffix s r : strip_suffix suffix s = Some r → s = r +:+ suffix.
Proof.
  revert r. induction s as [|c s IH]; intros r; cbn [strip_suffix].
  - destruct (String.eqb_spec "" suffix) as [<-|]; [|done]. by intros [= <-].
  - destruct (String.eqb_spec (String c s) suffix) as [<-|]; [by intros [= <-]|].
    destruct (strip_suffix suffix s) as [r'|]; [|done]. intros [= <-]. simpl. by rewrite (IH r').
Qed.

Lemma ascii_name_app s1 s2 : ascii_name (s1 +:+ s2) = ascii_name s1 && ascii_name s2.
Proof. induction s1 as [|c s1 IH]; simpl; [done|]. by rewrite IH, andb_assoc. Qed.

Lemma parse_dirname_total name :
  String.length prefix = 9%nat → ascii_name name = true → is_Some (parse_snapshot_dirname name prefix).
Proof.
  intros Hlen Hname. unfold parse_snapshot_dirname, starts_with. case_bool_decide as Hs; cbn [negb]; [|by eexists].
  destruct Hs as [r ->%strip_prefix_Some]. rewrite <-Hlen, slice_from_app.
  rewrite ascii_name_app in Hname. apply andb_true_iff in Hname as [_ Hr].
  destruct r as [|c r]; [by eexists|]. simpl in Hr. apply andb_true_iff in Hr as [Hc%N.ltb_lt _].
  unfold continuation_byte. rewrite (proj2 (N.leb_gt _ _) Hc). by eexists.
Qed.

Lemma parse_entry_total name :
  String.length prefix = 9%nat → ascii_name name = true → is_Some (parse_entry prefix name).
Proof.
  intros Hlen Hname. unfold parse_entry. case_bool_decide; [|by eexists].
  destruct (parse_dirname_total name Hlen Hname) as [[p|] ->]; [by eexists|].
  destruct (strip_suffix ".tar.gz" name) as [s|] eqn:E; [|by eexists].
  apply strip_suffix_Some in E as ->. rewrite ascii_name_app in Hname.
  apply andb_true_iff in Hname as [Hs _]. by apply parse_dirname_total.
Qed.

(** ** The snapshots of a directory *)

Definition snapshot_meta (name : string) : option CleanupSnapshotMeta :=
  (λ p, mkCleanupSnapshotMeta p.1 p.2 name) <$> mjoin (parse_entry prefix name).

Lemma collect_run names :
  String.length prefix = 9%nat → Forall (λ name, ascii_name name = true) names →
  collect_snapshots prefix names = Some (omap snapshot_meta names).
Proof.
  intros Hlen. induction 1 as [|name names Hname _ IH]; [done|]. simpl. unfold snapshot_meta at 1.
  destruct (parse_entry_total name Hlen Hname) as [[[i t]|] ->]; simpl; by rewrite IH.
Qed.

Lemma snapshot_meta_path name m : snapshot_meta name = Some m → csm_path m = name.
Proof. unfold snapshot_meta. by intros (p & _ & ->)%fmap_Some. Qed.

Lemma omap_meta_paths names : (csm_path <$> omap snapshot_meta names) `sublist_of` names.
Proof.
  induction names as [|name names IH]; simpl; [constructor|].
  destruct (snapshot_meta name) as [m|] eqn:E; simpl; [|by apply sublist_cons].
  rewrite (snapshot_meta_path _ _ E). by apply sublist_skip.
Qed.
End names.

(** ** The removal *)

Local Close Scope string_scope.

Section cleanup_spec.
Context {D : Type} `{!MapIter string (node D)} (prefix : string).
Implicit Types files : gmap string (node D).

Definition snapshots files : list CleanupSnapshotMeta := omap (snapshot_meta prefix) (map_iter files).*1.

Lemma elem_of_snapshots files m :
  m ∈ snapshots files ↔ is_Some (files !! csm_path m) ∧ snapshot_meta prefix (csm_path m) = Some m.
Proof.
  unfold snapshots. rewrite list_elem_of_omap. split.
  - intros (name & (x & -> & Hin)%list_elem_of_fmap & Hm). rewrite (snapshot_meta_path _ _ _ Hm) in *.
    destruct x as [k v]. apply elem_of_map_iter in Hin. by split; [exists v|].
  - intros [[v Hv] Hm]. exists (csm_path m). split; [|done]. apply list_elem_of_fmap.
    exists (csm_path m, v). split; [done|]. by apply elem_of_map_iter.
Qed.

Lemma snapshots_NoDup files : NoDup (csm_path <$> snapshots files).
Proof. eapply sublist_NoDup; [apply map_iter_NoDup|apply omap_meta_paths]. Qed.

Lemma foldr_delete_comm files name (names : list string) :
  foldr delete (delete name files) names = delete name (foldr delete files names).
Proof. induction names as [|a names IH]; simpl; [done|]. by rewrite IH, delete_delete. Qed.

(** The loop removes the first of the names, and stops at the first failure. *)
Lemma remove_run env (l : list CleanupSnapshotMeta) files :
  Forall (λ m, is_Some (files !! csm_path m)) l → NoDup (csm_path <$> l) →
  ∃ l1 l2 r, l = l1 ++ l2 ∧ for_each (λ m, remove_path env (csm_path m)) l files
    = Some (foldr delete files (csm_path <$> l1), r)
    ∧ (r = Ok tt → l2 = []) ∧ ((∀ name, remove_ok env name = true) → r = Ok tt).
Proof.
  revert files. induction l as [|m l IH]; intros files Hall Hnd; [by exists [], [], (Ok tt)|].
  apply Forall_cons in Hall as [[v Hv] Hall]. apply NoDup_cons in Hnd as [Hm Hnd].
  cbn [for_each]. unfold mbind, proc_bind, remove_path at 1. rewrite Hv.
  destruct (remove_ok env (csm_path m)) eqn:Erm.
  2: { exists [], (m :: l), (Err IoError). split; [done|]. split; [done|]. split; [done|].
       intros Hok. by rewrite Hok in Erm. }
  destruct (IH (delete (csm_path m) files)) as (l1 & l2 & r & -> & Hrun & Hr); [|done|].
  - apply Forall_forall. intros m' Hm'. rewrite lookup_delete_ne; [by apply (proj1 (Forall_forall _ _) Hall)|].
    intros E. apply Hm. rewrite E. by apply list_elem_of_fmap_2.
  - exists (m :: l1), l2, r. rewrite Hrun. split; [done|]. split; [|done]. by rewrite foldr_delete_comm.
Qed.

Lemma lookup_foldr_delete files (names : list string) name :
  foldr delete files names !! name = if bool_decide (name ∈ names) then None else files !! name.
Proof.
  induction names as [|a names IH]; simpl; [done|]. destruct (decide (a = name)) as [->|Hne].
  - rewrite lookup_delete_eq, bool_decide_true; [done|]. left.
  - rewrite lookup_delete_ne, IH by done. apply (f_equal (λ b : bool, if b then None else files !! name)).
    apply bool_decide_ext. rewrite elem_of_cons. naive_solver.
Qed.

(** What the removal leaves: the snapshots are split into removed and kept ones, the
    kept ones being the newer ones, at least [retain_count] of them if any was removed,
    and no more than that if the removal succeeded. No other file is touched. *)
Record cleaned (env : DirEnv) (retain_count : N) files files' (r : result unit) : Prop := {
  cl_parts : ∃ removed kept,
    snapshots files ≡ₚ removed ++ kept ∧ snapshots files' ≡ₚ kept
    ∧ files' = foldr delete files (csm_path <$> removed)
    ∧ (∀ a b, a ∈ removed → b ∈ kept → (csm_index a <= csm_index b)%N)
    ∧ (removed = [] ∨ (retain_count <= N.of_nat (length kept))%N)
    ∧ (r = Ok tt → (N.of_nat (length kept) <= retain_count)%N);
  cl_total : list_ok env = true → (∀ name, remove_ok env name = true) → r = Ok tt;
}.

Lemma snapshots_delete files removed kept :
  snapshots files ≡ₚ removed ++ kept → snapshots (foldr delete files (csm_path <$> removed)) ≡ₚ kept.
Proof.
  intros Hperm. pose proof (snapshots_NoDup files) as Hnd. rewrite Hperm, fmap_app in Hnd.
  apply NoDup_app in Hnd as (Hnd1 & Hdisj & Hnd2). apply NoDup_Permutation.
  - eapply NoDup_fmap_1, snapshots_NoDup.
  - by eapply NoDup_fmap_1.
  - intros m. rewrite elem_of_snapshots, lookup_foldr_delete. split.
    + case_bool_decide as Hin; [by intros [[? ?] _]|]. rewrite <-elem_of_snapshots, Hperm, elem_of_app.
      intros [Hm|Hm]; [|done]. destruct Hin. by apply list_elem_of_fmap_2.
    + intros Hm. rewrite bool_decide_false.
      * apply elem_of_snapshots. rewrite Hperm. apply elem_of_app. by right.
      * intros Hin. apply (Hdisj _ Hin). by apply list_elem_of_fmap_2.
Qed.

Lemma sorted_parts (l1 l2 : list CleanupSnapshotMeta) a b :
  StronglySorted index_le (l1 ++ l2) → a ∈ l1 → b ∈ l2 → (csm_index a <= csm_index b)%N.
Proof. intros Hs Ha Hb. exact (StronglySorted_app_1_elem_of index_le l1 l2 a b Hs Ha Hb). Qed.

#[local] Instance index_le_trans : Transitive index_le.
Proof. intros a b c. unfold index_le. lia. Qed.

#[local] Instance index_le_total : Total index_le.
Proof. intros a b. unfold index_le. lia. Qed.

Lemma cleanup_run env retain_count files :
  String.length prefix = 9%nat → map_Forall (λ name _, ascii_name name = true) files →
  ∃ files' r, cleanup_snapshot env retain_count prefix files = Some (files', r)
    ∧ cleaned env retain_count files files' r.
Proof.
  intros Hlen Hascii. unfold cleanup_snapshot. destruct (list_ok env) eqn:Els; cbn [negb].
  2: { eexists _, _. split; [done|]. constructor; [|congruence]. exists [], (snapshots files).
       split_and!; try done; [by intros ?? ?%not_elem_of_nil|by left]. }
  rewrite collect_run; [|done|].
  2: { apply Forall_forall. intros name ([k v] & -> & Hin)%list_elem_of_fmap. apply elem_of_map_iter in Hin.
       exact (Hascii k v Hin). }
  fold (snapshots files). destruct (N.leb_spec (N.of_nat (length (snapshots files))) retain_count) as [Hle|Hgt].
  { eexists _, _. split; [done|]. constructor; [|done]. exists [], (snapshots files).
    split_and!; try done; [by intros ?? ?%not_elem_of_nil|by left]. }
  set (sorted := merge_sort index_le (snapshots files)).
  set (k := N.to_nat (N.of_nat (length (snapshots files)) - retain_count)).
  assert (sorted ≡ₚ snapshots files) as Hperm by apply merge_sort_Permutation.
  assert (StronglySorted index_le sorted) as Hsort by apply (StronglySorted_merge_sort index_le).
  pose proof (Permutation_length Hperm) as Hlen'.
  destruct (remove_run env (take k sorted) files) as (l1 & l2 & r & Htake & Hrun & Hok & Htot).
  - apply Forall_forall. intros m Hm%(subseteq_take k sorted). rewrite Hperm in Hm. by apply elem_of_snapshots.
  - rewrite fmap_take. eapply sublist_NoDup; [|apply sublist_take]. rewrite Hperm. apply snapshots_NoDup.
  - rewrite Hrun. eexists _, _. split; [done|]. constructor; [|done].
    exists l1, (l2 ++ drop k sorted).
    assert (l1 ++ l2 ++ drop k sorted = sorted) as Hparts by (by rewrite app_assoc, <-Htake, take_drop).
    assert (snapshots files ≡ₚ l1 ++ l2 ++ drop k sorted) as Hsplit by by rewrite Hparts, Hperm.
    split_and!; [done|by apply snapshots_delete|done| | |].
    + intros a b. apply sorted_parts. by rewrite Hparts.
    + right. rewrite length_app, length_drop. lia.
    + intros ->%Hok. simpl. rewrite length_drop. lia.
Qed.
End cleanup_spec.
