(* ===== verification/SnapshotTransfer.v ===== *)
(** * Snapshot transfer

    The sending and the receiving side of a snapshot transfer in
    [d-engine-core/src/state_machine_handler/default_state_machine_handler.rs], with the
    assembler of [snapshot_assembler.rs]. The sender cuts an archive into chunks with
    checksums; the receiver checks the chunks, assembles them in a temporary file, moves
    it to its final name and unpacks it. The checksum function and the archive format
    (tar and gzip) belong to libraries and are parameters. A write to a file succeeds,
    fails, or stops part way; a failure of a buffered write is reported by that write. *)

From stdpp Require Import base tactics numbers option list gmap strings pretty.
From S2P Require Import Prelude Proc Types Events Codec Commands SmWorker Config SnapshotFiles.

(** ** Archives *)

(** [tokio_tar] over [async_compression]'s gzip: the archive of a directory, and what
    unpacking gives. *)
Class Archive (D : Type) := {
  tar_gz : D → bytes;
  untar_gz : bytes → option D;
}.

(** What the code relies on: unpacking gives back the directory, and the file starts
    with the header of RFC 1952, which is ten bytes long. *)
Class ArchiveLaws (D : Type) `{!Archive D} := {
  untar_tar (d : D) : untar_gz (tar_gz d) = Some d;
  tar_header (d : D) : ∃ rest, tar_gz d = 0x1f :: 0x8b :: rest ∧ (8 <= length rest)%nat;
}.

Section transfer.
Context {D : Type} `{!Archive D} (crc32 : bytes → N).
Abbreviation dir := (gmap string (node D)).

Definition crc_bytes (data : bytes) : bytes := be_encode 4 (crc32 data).

Definition validate_checksum (data expected : bytes) : bool := bool_decide (crc_bytes data = expected).

(** ** The sender *)

Record SnapshotTransferMeta := mkSnapshotTransferMeta {
  stm_metadata : SnapshotMetadata;
  stm_total_chunks : N;
  stm_chunk_size : N;
  stm_file_size : N;
  stm_file_path : string;
}.

Definition div_ceil (a b : N) : N := (a + (b - 1)) / b.

(** [prepare_transfer_meta]; the number of chunks is cut to 32 bits. The outer [None] is
    the division by a chunk size of zero. *)
Definition prepare_transfer_meta (pm : SnapshotPathManager) (cfg : SnapshotConfig.t)
    (metadata : SnapshotMetadata) (files : dir) : option (result SnapshotTransferMeta) :=
  match last_included metadata with
  | None => Some (Err (SnapshotFailed "No last_included in metadata"))
  | Some id =>
      let file_path := final_snapshot_path pm id in
      match files !! file_path with
      | Some (NFile content) =>
          let file_size := N.of_nat (length content) in
          let chunk_size := SnapshotConfig.chunk_size cfg in
          if chunk_size =? 0 then None else
          Some (Ok (mkSnapshotTransferMeta metadata (div_ceil file_size chunk_size mod (u32_max + 1))
                      chunk_size file_size file_path))
      | _ => Some (Err IoError)
      end
  end.

(** The loop of the stream, from chunk [seq] on; [None] is an overflow of the position. *)
Fixpoint stream_chunks (leader_term node_id : N) (metadata : SnapshotMetadata) (total_chunks chunk_size : N)
    (mmap : bytes) (n : nat) (seq : N) : option (list SnapshotChunk) :=
  match n with
  | O => Some []
  | S n' =>
      let start := seq * chunk_size in
      if u64_max <? start + chunk_size then None else
      let end_ := N.min (start + chunk_size) (N.of_nat (length mmap)) in
      if N.of_nat (length mmap) <=? start then Some [] else
      let chunk_data := take (N.to_nat (end_ - start)) (drop (N.to_nat start) mmap) in
      let chunk :=
        mkSnapshotChunk leader_term node_id seq total_chunks (crc_bytes chunk_data)
          (if seq =? 0 then Some metadata else None) chunk_data in
      let! rest := stream_chunks leader_term node_id metadata total_chunks chunk_size mmap n' (seq + 1) in
      Some (chunk :: rest)
  end.

(** [map_ok]: the file can be opened and mapped. *)
Definition load_snapshot_data (map_ok : bool) (pm : SnapshotPathManager) (cfg : SnapshotConfig.t)
    (node_id leader_term : N) (metadata : SnapshotMetadata) (files : dir)
    : option (result (list SnapshotChunk)) :=
  let! r := prepare_transfer_meta pm cfg metadata files in
  match r with
  | Err e => Some (Err e)
  | Ok t =>
      match map_ok, files !! stm_file_path t with
      | true, Some (NFile mmap) =>
          let! chunks := stream_chunks leader_term node_id (stm_metadata t) (stm_total_chunks t)
                           (stm_chunk_size t) mmap (N.to_nat (stm_total_chunks t)) 0 in
          Some (Ok chunks)
      | _, _ => Some (Err IoError)
      end
  end.

(** ** The receiver *)

Inductive ChunkStatus := StatusUnspecified | Accepted | ChecksumMismatchStatus | OutOfOrder | Requested | FailedStatus.

Record SnapshotAck := mkSnapshotAck { ack_seq : N; ack_status : ChunkStatus; ack_next_requested : N }.

(** The counters of [SnapshotAssembler]; its file is in the directory. *)
Record SnapshotAssembler := mkSnapshotAssembler {
  expected_index : N;
  total_size : N;
  received_chunks : N;
}.

(** [rv_acks_left]: how many answers can still be sent before the other side is gone,
    [None] when it stays. *)
Record Receiver := mkReceiver {
  rv_files : dir;
  rv_assembler : SnapshotAssembler;
  rv_acks : list SnapshotAck;
  rv_acks_left : option nat;
}.

#[local] Instance SnapshotAssembler_settable : Settable SnapshotAssembler := λ a,
  mkSnapshotAssembler (expected_index a) (total_size a) (received_chunks a).

#[local] Instance Receiver_settable : Settable Receiver := λ r,
  mkReceiver (rv_files r) (rv_assembler r) (rv_acks r) (rv_acks_left r).

(** What the file system and the clock answer. *)
Record ReceiveEnv := mkReceiveEnv {
  unix_nanos : option N;
  backup_ok : bool;
  parent_ok : bool;
  open_ok : bool;
  chunk_io : N → io_outcome;
  flush_ok : bool;
  rename_ok : bool;
  tempdir_ok : bool;
  reopen_ok : bool;
}.

Context (env : ReceiveEnv) (pm : SnapshotPathManager) (cfg : SnapshotConfig.t).
Abbreviation recv := (proc Receiver).

Definition guard_io (ok : bool) : recv unit := if ok then mret tt else fail IoError.

Definition send_ack (a : SnapshotAck) : recv unit := λ s,
  match rv_acks_left s with
  | Some O => Some (s, Err (SnapshotFailed "Failed to send ACK"))
  | budget => Some (s <| rv_acks ::= λ l, l ++ [a] |> <| rv_acks_left := pred <$> budget |>, Ok tt)
  end.

Definition set_files (f : dir → dir) : recv unit := modify (λ s, s <| rv_files ::= f |>).

Definition backup_name (nanos : N) : string :=
  temp_prefix pm +:+ "snapshot.part" +:+ "_" +:+ pretty nanos.

(** [SnapshotAssembler::new]: a directory in the way is moved aside, and the file is
    created or emptied. *)
Definition assembler_new : recv unit :=
  s ← get;
  (match rv_files s !! temp_assembly_file pm with
   | Some (NDir d) =>
       match unix_nanos env with
       | None => fail IoError
       | Some nanos =>
           guard_io (backup_ok env);;
           set_files (λ files, <[backup_name nanos := NDir d]> (delete (temp_assembly_file pm) files))
       end
   | _ => mret tt
   end);;
  guard_io (parent_ok env);;
  guard_io (open_ok env);;
  modify (λ s, s <| rv_files ::= <[temp_assembly_file pm := NFile []]> |>
                 <| rv_assembler := mkSnapshotAssembler 0 0 0 |>).

Definition file_content (name : string) (files : dir) : bytes :=
  match files !! name with Some (NFile content) => content | _ => [] end.

Definition write_chunk (index : N) (data : bytes) : recv unit :=
  s ← get;
  if negb (index =? expected_index (rv_assembler s)) then fail (SnapshotFailed "Out-of-order chunk") else
  modify (λ s, s <| rv_assembler ::= λ a, a <| received_chunks ::= λ n, (n + 1) mod (u32_max + 1) |> |>);;
  s ← get;
  let '(content, r) := append_file (chunk_io env index) data (Some (file_content (temp_assembly_file pm) (rv_files s))) in
  set_files <[temp_assembly_file pm := NFile (default [] content)]>;;
  match r with
  | Err e => fail e
  | Ok _ =>
      let a := rv_assembler s in
      if u64_max <? total_size a + N.of_nat (length data) then panic else
      if u32_max <=? expected_index a then panic else
      modify (λ s, s <| rv_assembler ::= λ a, a <| total_size ::= N.add (N.of_nat (length data)) |>
                                                <| expected_index ::= N.succ |> |>)
  end.

Definition finalize (metadata : SnapshotMetadata) : recv string :=
  match last_included metadata with
  | None => fail (SnapshotFailed "snapshot_metadata is empty when install new snapshot file")
  | Some id =>
      guard_io (flush_ok env);;
      guard_io (rename_ok env);;
      s ← get;
      match rv_files s !! final_snapshot_path pm id with
      | Some (NDir _) => fail IoError
      | _ =>
          let content := file_content (temp_assembly_file pm) (rv_files s) in
          set_files (λ files, <[final_snapshot_path pm id := NFile content]> (delete (temp_assembly_file pm) files));;
          mret (final_snapshot_path pm id)
      end
  end.

Definition validate_and_write_chunk (c : SnapshotChunk) : recv unit :=
  if negb (validate_checksum (sc_data c) (sc_chunk_checksum c)) then
    send_ack (mkSnapshotAck (sc_seq c) ChecksumMismatchStatus (sc_seq c));;
    fail (SnapshotFailed "Checksum validation failed")
  else
    write_chunk (sc_seq c) (sc_data c);;
    if u32_max <=? sc_seq c then panic else
    send_ack (mkSnapshotAck (sc_seq c) Accepted (sc_seq c + 1)).

(** What [timeout(chunk_timeout, remaining_chunks.recv())] gives; after the last one the
    channel is closed. *)
Inductive ChunkEvent := GotChunk (c : SnapshotChunk) | ChunkTimeout.

(** The loop over the remaining chunks, after [count] chunks. *)
Fixpoint receive_loop (term leader_id count : N) (events : list ChunkEvent) : recv unit :=
  match events with
  | [] => mret tt
  | ChunkTimeout :: _ =>
      send_ack (mkSnapshotAck 0 FailedStatus 0);; fail (SnapshotFailed "No chunk received")
  | GotChunk c :: events' =>
      if negb (sc_leader_term c =? term) || negb (sc_leader_id c =? leader_id) then
        send_ack (mkSnapshotAck (sc_seq c) OutOfOrder 0);;
        fail (SnapshotFailed "Leader changed during transfer")
      else
        validate_and_write_chunk c;;
        if u32_max <=? count then panic else
        if SnapshotConfig.receiver_yield_every_n_chunks cfg mod (u32_max + 1) =? 0 then panic else
        receive_loop term leader_id (count + 1) events'
  end.

Definition decompress_to_directory (name : string) : recv D :=
  s ← get;
  match validate_compressed_format name (rv_files s) with
  | Err e => fail e
  | Ok _ =>
      if negb (reopen_ok env) then fail (SnapshotFailed "Failed to open snapshot file") else
      match untar_gz (file_content name (rv_files s)) with
      | Some d => mret d
      | None => fail (SnapshotFailed "Failed to unpack snapshot")
      end
  end.

Definition prepare_snapshot_stream (first : SnapshotChunk) (events : list ChunkEvent)
    : recv (PreparedSnapshot D) :=
  assembler_new;;
  match sc_metadata first with
  | None => fail (SnapshotFailed "Missing metadata in snapshot stream")
  | Some metadata =>
      validate_and_write_chunk first;;
      receive_loop (sc_leader_term first) (sc_leader_id first) 1 events;;
      s ← get;
      if negb (received_chunks (rv_assembler s) =? sc_total_chunks first) then
        send_ack (mkSnapshotAck (received_chunks (rv_assembler s)) FailedStatus 0);;
        fail (SnapshotFailed "Received chunks != total")
      else
        path ← finalize metadata;
        guard_io (tempdir_ok env);;
        d ← decompress_to_directory path;
        mret (mkPreparedSnapshot metadata d)
  end.
End transfer.
