(* ===== verification/SnapshotTransferSpec.v ===== *)
(** * Snapshot transfer: what is received is what was sent

    The runs of the receiver of a snapshot and the chunks of the sender: a transfer that
    succeeds has received the chunks 0, 1, ... of one leader with valid checksums, as
    many as announced, and has stored their concatenation; it touches no other file; and
    the chunks of a loaded archive are received if no operation fails. *)

From stdpp Require Import base tactics numbers option list gmap strings pretty.
From S2P Require Import Prelude Proc Types Events Codec Commands SmWorker Config SnapshotFiles SnapshotTransfer.

#[local] Arguments N.mul : simpl never.
#[local] Arguments be_encode : simpl never.

Section spec.
Context {D : Type} `{!Archive D} (crc32 : bytes → N).
Context (env : ReceiveEnv) (pm : SnapshotPathManager) (cfg : SnapshotConfig.t).
Implicit Types (files base : gmap string (node D)) (cs : list SnapshotChunk) (c : SnapshotChunk).

(** ** Frame *)

Definition touched (first : SnapshotChunk) (name : string) : Prop :=
  name = temp_assembly_file pm
  ∨ (∃ t, unix_nanos env = Some t ∧ name = backup_name pm t)
  ∨ (∃ md id, sc_metadata first = Some md ∧ last_included md = Some id ∧ name = final_snapshot_path pm id).

Definition frames (T : string → Prop) (s s' : @Receiver D) : Prop :=
  ∀ name, ¬ T name → rv_files s' !! name = rv_files s !! name.

#[local] Instance frames_preorder T : PreOrder (frames T).
Proof. split; [done|]. intros s1 s2 s3 H1 H2 name Hn. by rewrite H2, H1. Qed.

Lemma keeps_send_ack T a : keeps (frames T) (send_ack (D := D) a).
Proof. intros s s' r. unfold send_ack. by destruct (rv_acks_left s) as [[|n]|]; intros [= <- <-]. Qed.

Lemma keeps_guard_io T b : keeps (frames T) (guard_io (D := D) b).
Proof. unfold guard_io. solve_keeps; apply _. Qed.

Lemma keeps_set_insert (T : string → Prop) name n : T name → keeps (frames T) (set_files (D := D) <[name := n]>).
Proof. intros HT. apply keeps_modify. intros s name' Hn. simpl. by rewrite lookup_insert_ne by congruence. Qed.

Lemma keeps_set_move (T : string → Prop) from to n :
  T from → T to → keeps (frames T) (set_files (D := D) (λ files, <[to := n]> (delete from files))).
Proof.
  intros H1 H2. apply keeps_modify. intros s name' Hn. simpl.
  by rewrite lookup_insert_ne, lookup_delete_ne by congruence.
Qed.

#[local] Hint Resolve keeps_send_ack keeps_guard_io keeps_set_insert keeps_set_move : keeps.

Lemma keeps_write_chunk (T : string → Prop) index data :
  T (temp_assembly_file pm) → keeps (frames T) (write_chunk (D := D) env pm index data).
Proof. intros HT. unfold write_chunk. solve_keeps; apply _. Qed.

Lemma keeps_validate_and_write (T : string → Prop) c :
  T (temp_assembly_file pm) → keeps (frames T) (validate_and_write_chunk (D := D) crc32 env pm c).
Proof. intros HT. unfold validate_and_write_chunk. pose proof keeps_write_chunk. solve_keeps. Qed.

Lemma keeps_receive_loop (T : string → Prop) term leader_id count events :
  T (temp_assembly_file pm) → keeps (frames T) (receive_loop (D := D) crc32 env pm cfg term leader_id count events).
Proof.
  intros HT. revert count. induction events as [|[c|] events IH]; intros count; cbn [receive_loop]; solve_keeps; try apply _.
  by apply keeps_validate_and_write.
Qed.

Lemma keeps_assembler_new first : keeps (frames (touched first)) (assembler_new (D := D) env pm).
Proof.
  unfold assembler_new. destruct (unix_nanos env) as [t|] eqn:Et; solve_keeps; try apply _.
  1: apply keeps_set_move; [by left|right; left; eauto].
  all: intros name Hn; simpl; rewrite lookup_insert_ne; [done|]; intros <-; apply Hn; by left.
Qed.

Lemma keeps_finalize first metadata :
  sc_metadata first = Some metadata → keeps (frames (touched first)) (finalize (D := D) env pm metadata).
Proof.
  intros Hmd. unfold finalize. destruct (last_included metadata) as [id|] eqn:Eid; solve_keeps; try apply _;
    (apply keeps_set_move; [by left|right; right; eauto]).
Qed.

(** Only the temporary file, the directory that was in its way and the final file of
    the announced snapshot change. *)
Lemma prepare_frames first events :
  keeps (frames (touched first)) (prepare_snapshot_stream crc32 env pm cfg first events).
Proof.
  unfold prepare_snapshot_stream. apply keeps_bind; [apply _|apply keeps_assembler_new|intros _].
  destruct (sc_metadata first) as [metadata|] eqn:Emd; [|solve_keeps; apply _].
  apply keeps_bind; [apply _|apply keeps_validate_and_write; by left|intros _].
  apply keeps_bind; [apply _|apply keeps_receive_loop; by left|intros _].
  apply keeps_get_bind. intros s. destruct (negb _); [solve_keeps; apply _|].
  apply keeps_bind; [apply _|by apply keeps_finalize|intros path].
  unfold decompress_to_directory. solve_keeps; apply _.
Qed.

(** ** Accepted chunks *)

Definition payload cs : bytes := cs ≫= sc_data.

Definition accepted_acks cs : list SnapshotAck :=
  (λ c, mkSnapshotAck (sc_seq c) Accepted (sc_seq c + 1)) <$> cs.

(** The receiver that has taken [cs], with [base] the directory before. *)
Definition received base cs (acks : list SnapshotAck) (budget : option nat) : Receiver :=
  mkReceiver (<[temp_assembly_file pm := NFile (payload cs)]> base)
    (mkSnapshotAssembler (N.of_nat (length cs)) (N.of_nat (length (payload cs))) (N.of_nat (length cs)))
    acks budget.

Definition valid_chunk c : Prop := validate_checksum crc32 (sc_data c) (sc_chunk_checksum c) = true.

Lemma payload_snoc cs c : payload (cs ++ [c]) = payload cs ++ sc_data c.
Proof. unfold payload. by rewrite bind_app, bind_singleton. Qed.

(** One more chunk, and what it takes. *)
Lemma write_chunk_run base cs acks budget c :
  N.of_nat (length cs) < u32_max → sc_seq c = N.of_nat (length cs) → chunk_io env (sc_seq c) = IoDone →
  N.of_nat (length (payload (cs ++ [c]))) <= u64_max →
  write_chunk env pm (sc_seq c) (sc_data c) (received base cs acks budget)
  = Some (received base (cs ++ [c]) acks budget, Ok tt).
Proof.
  intros Hlen Hseq Hio Hsize. rewrite payload_snoc, length_app in Hsize.
  unfold write_chunk, mbind, proc_bind, get. simpl. rewrite Hio, Hseq, N.eqb_refl. simpl.
  unfold file_content. rewrite lookup_insert_eq. simpl.
  rewrite (proj2 (N.ltb_ge _ _)) by lia. rewrite (proj2 (N.leb_gt _ _) Hlen). unfold modify, received. simpl.
  rewrite insert_insert_eq, payload_snoc, !length_app. simpl.
  rewrite (N.mod_small (N.of_nat (length cs) + 1)) by lia. do 4 f_equal; lia.
Qed.

Lemma write_chunk_ok_inv base cs acks budget c s' :
  N.of_nat (length cs) <= u32_max →
  write_chunk env pm (sc_seq c) (sc_data c) (received base cs acks budget) = Some (s', Ok tt) →
  sc_seq c = N.of_nat (length cs) ∧ N.of_nat (length cs) < u32_max ∧ s' = received base (cs ++ [c]) acks budget.
Proof.
  intros Hmax Hrun. destruct (decide (sc_seq c = N.of_nat (length cs))) as [Hseq|Hne].
  2: { exfalso. revert Hrun. unfold write_chunk, mbind, proc_bind, get. simpl.
       by rewrite (proj2 (N.eqb_neq _ _) Hne). }
  assert (N.of_nat (length cs) < u32_max ∧ chunk_io env (sc_seq c) = IoDone
          ∧ N.of_nat (length (payload (cs ++ [c]))) <= u64_max) as (Hlt & Hio & Hsize).
  { revert Hrun. unfold write_chunk, mbind, proc_bind, get. simpl. rewrite Hseq, N.eqb_refl, <-Hseq. simpl.
    destruct (chunk_io env (sc_seq c)); simpl; [done..|]. unfold set_files, modify. simpl.
    destruct (N.ltb_spec u64_max (N.of_nat (length (payload cs)) + N.of_nat (length (sc_data c)))); [done|].
    destruct (N.leb_spec u32_max (N.of_nat (length cs))); [done|]. intros _.
    rewrite payload_snoc, length_app. split; [by rewrite Hseq|]. split; [done|lia]. }
  rewrite write_chunk_run in Hrun by done. by injection Hrun as <-.
Qed.

Lemma accept_run base cs acks c :
  valid_chunk c → N.of_nat (length cs) < u32_max → sc_seq c = N.of_nat (length cs) →
  chunk_io env (sc_seq c) = IoDone → N.of_nat (length (payload (cs ++ [c]))) <= u64_max →
  validate_and_write_chunk crc32 env pm c (received base cs acks None)
  = Some (received base (cs ++ [c]) (acks ++ accepted_acks [c]) None, Ok tt).
Proof.
  intros Hv Hlen Hseq Hio Hsize. unfold validate_and_write_chunk. rewrite Hv. cbn [negb].
  unfold mbind, proc_bind. rewrite write_chunk_run by done. by rewrite (proj2 (N.leb_gt _ _)) by lia.
Qed.

Lemma accept_ok_inv base cs acks budget c s' :
  N.of_nat (length cs) <= u32_max →
  validate_and_write_chunk crc32 env pm c (received base cs acks budget) = Some (s', Ok tt) →
  valid_chunk c ∧ sc_seq c = N.of_nat (length cs) ∧ N.of_nat (length cs) < u32_max
  ∧ ∃ budget', s' = received base (cs ++ [c]) (acks ++ accepted_acks [c]) budget'.
Proof.
  intros Hmax. unfold validate_and_write_chunk, valid_chunk. destruct (validate_checksum _ _ _); cbn [negb].
  2: { by intros (s1 & a & _ & Hf)%bind_ok_inv. }
  intros (s1 & [] & Hw & Hrest)%bind_ok_inv. apply write_chunk_ok_inv in Hw as (Hseq & Hlt & ->); [|done].
  destruct (N.leb_spec u32_max (sc_seq c)); [done|]. revert Hrest. unfold send_ack, received at 1. simpl.
  destruct budget as [[|n]|]; intros [= <-]; eauto.
Qed.

(** ** The loop over the chunks *)

Definition same_leader term leader_id c : Prop := sc_leader_term c = term ∧ sc_leader_id c = leader_id.

Lemma loop_ok_inv term leader_id count events base cs acks budget s' :
  N.of_nat (length cs) <= u32_max →
  receive_loop crc32 env pm cfg term leader_id count events (received base cs acks budget) = Some (s', Ok tt) →
  ∃ rest budget', events = GotChunk <$> rest ∧ contiguous sc_seq (N.of_nat (length cs)) rest
    ∧ Forall valid_chunk rest ∧ Forall (same_leader term leader_id) rest
    ∧ N.of_nat (length (cs ++ rest)) <= u32_max
    ∧ s' = received base (cs ++ rest) (acks ++ accepted_acks rest) budget'.
Proof.
  revert count cs acks budget. induction events as [|[c|] events IH]; intros count cs acks budget Hmax; cbn [receive_loop].
  - intros [= <-]. exists [], budget. rewrite !app_nil_r. done.
  - destruct (negb _ || negb _) eqn:El.
    { by intros (s1 & a & _ & Hf)%bind_ok_inv. }
    apply orb_false_iff in El as [Ht%negb_false_iff%N.eqb_eq Hl%negb_false_iff%N.eqb_eq].
    intros (s1 & [] & (Hv & Hseq & Hlt & budget1 & ->)%accept_ok_inv & Hrest)%bind_ok_inv; [|done].
    revert Hrest. destruct (u32_max <=? count); [done|]. destruct (_ =? 0); [done|]. intros Hrest.
    apply IH in Hrest as (rest & budget' & -> & Hc & Hvs & Hls & Hm & ->); [|rewrite length_app; simpl; lia].
    exists (c :: rest), budget'. rewrite length_app in Hc. simpl in Hc. rewrite <-!app_assoc in Hm |- *.
    split; [done|]. split; [split; [done|]; by replace (N.of_nat (length cs) + 1) with (N.of_nat (length cs + 1)) by lia|].
    split; [by constructor|]. split; [by constructor|]. split; [done|]. by rewrite <-app_assoc.
  - by intros (s1 & a & _ & Hf)%bind_ok_inv.
Qed.

Lemma loop_run term leader_id count base cs acks rest :
  (∀ seq, chunk_io env seq = IoDone) → SnapshotConfig.receiver_yield_every_n_chunks cfg mod (u32_max + 1) ≠ 0 →
  contiguous sc_seq (N.of_nat (length cs)) rest → Forall valid_chunk rest → Forall (same_leader term leader_id) rest →
  count = N.of_nat (length cs) → N.of_nat (length (cs ++ rest)) <= u32_max →
  N.of_nat (length (payload (cs ++ rest))) <= u64_max →
  receive_loop crc32 env pm cfg term leader_id count (GotChunk <$> rest) (received base cs acks None)
  = Some (received base (cs ++ rest) (acks ++ accepted_acks rest) None, Ok tt).
Proof.
  intros Hio Hn. revert count cs acks. induction rest as [|c rest IH]; intros count cs acks Hc Hv Hl -> Hmax Hsize.
  { by rewrite !app_nil_r. }
  destruct Hc as [Hseq Hc]. apply Forall_cons in Hv as [Hv Hvs]. apply Forall_cons in Hl as [[Ht Hl] Hls].
  cbn [fmap list_fmap receive_loop]. rewrite Ht, Hl, !N.eqb_refl. cbn [negb orb].
  rewrite (cons_middle c cs rest) in Hmax, Hsize |- *. rewrite app_assoc in Hmax, Hsize |- *.
  assert (N.of_nat (length cs) < u32_max) by (rewrite !length_app in Hmax; simpl in Hmax; lia).
  assert (N.of_nat (length (payload (cs ++ [c]))) <= u64_max).
  { revert Hsize. unfold payload. rewrite (bind_app _ (cs ++ [c])), length_app. lia. }
  unfold mbind, proc_bind. rewrite accept_run by (done || apply Hio).
  rewrite (proj2 (N.leb_gt _ _)) by lia. rewrite (proj2 (N.eqb_neq _ _) Hn).
  assert (N.of_nat (length (cs ++ [c])) = N.of_nat (length cs) + 1) as El by (rewrite length_app; simpl; lia).
  rewrite IH; [|by rewrite El|done..|by rewrite El|done|done]. by rewrite <-(app_assoc acks).
Qed.

(** ** A whole transfer *)

(** The directory once a directory in the way of the temporary file is moved aside. *)
Definition moved_aside files : gmap string (node D) :=
  match files !! temp_assembly_file pm, unix_nanos env with
  | Some (NDir d), Some nanos => <[backup_name pm nanos := NDir d]> (delete (temp_assembly_file pm) files)
  | _, _ => files
  end.

Lemma assembler_ok_inv s s' :
  assembler_new env pm s = Some (s', Ok tt) →
  s' = received (moved_aside (rv_files s)) [] (rv_acks s) (rv_acks_left s).
Proof.
  destruct s as [files a acks budget]. unfold assembler_new, moved_aside, received, guard_io, set_files. simpl.
  unfold mbind, proc_bind, get, modify, mret, proc_ret, fail. simpl.
  destruct (files !! temp_assembly_file pm) as [[b|d]|]; [|destruct (unix_nanos env); [destruct (backup_ok env)|]|];
    destruct (parent_ok env), (open_ok env); simpl; intros [= <-]; done.
Qed.

(** What a successful transfer has received and stored. *)
Record transferred (first : SnapshotChunk) (rest : list SnapshotChunk) (id : LogId) (s s' : Receiver)
    (p : PreparedSnapshot D) : Prop := {
  tr_contiguous : contiguous sc_seq 0 (first :: rest);
  tr_count : N.of_nat (length (first :: rest)) = sc_total_chunks first;
  tr_valid : Forall valid_chunk (first :: rest);
  tr_leader : Forall (same_leader (sc_leader_term first) (sc_leader_id first)) (first :: rest);
  tr_metadata : sc_metadata first = Some (ps_metadata p) ∧ last_included (ps_metadata p) = Some id;
  tr_files : rv_files s' = <[final_snapshot_path pm id := NFile (payload (first :: rest))]>
                             (delete (temp_assembly_file pm) (moved_aside (rv_files s)));
  tr_dir : untar_gz (payload (first :: rest)) = Some (ps_dir p);
  tr_acks : rv_acks s' = rv_acks s ++ accepted_acks (first :: rest);
}.

Lemma finalize_ok_inv base cs acks budget metadata path s' :
  finalize env pm metadata (received base cs acks budget) = Some (s', Ok path) →
  ∃ id, last_included metadata = Some id ∧ path = final_snapshot_path pm id
    ∧ rv_files s' = <[path := NFile (payload cs)]> (delete (temp_assembly_file pm) base) ∧ rv_acks s' = acks.
Proof.
  unfold finalize, guard_io. destruct (last_included metadata) as [id|]; [|done].
  unfold mbind, proc_bind, get. destruct (flush_ok env), (rename_ok env); try done. cbn.
  destruct (_ !! final_snapshot_path pm id) as [[b|d]|]; try done; intros [= <- <-]; exists id;
    (split; [done|]); (split; [done|]); (split; [|done]); simpl; unfold file_content;
    by rewrite lookup_insert_eq, delete_insert_eq.
Qed.

Lemma prepare_ok_inv first events s s' p :
  prepare_snapshot_stream crc32 env pm cfg first events s = Some (s', Ok p) →
  ∃ rest id, events = GotChunk <$> rest ∧ transferred first rest id s s' p.
Proof.
  unfold prepare_snapshot_stream. intros (s1 & [] & ->%assembler_ok_inv & H)%bind_ok_inv.
  destruct (sc_metadata first) as [metadata|] eqn:Emd; [|done].
  apply bind_ok_inv in H as (s2 & [] & (Hv & Hseq & _ & b2 & ->)%accept_ok_inv & H); [|done].
  apply bind_ok_inv in H as (s3 & [] & (rest & b3 & -> & Hc & Hvs & Hls & Hmax & ->)%loop_ok_inv & H); [|done].
  apply bind_ok_inv in H as (s4 & ? & [= <- <-] & H).
  change (([] ++ [first]) ++ rest) with (first :: rest) in H.
  cbn [received rv_assembler received_chunks] in H. revert H.
  destruct (N.eqb_spec (N.of_nat (length (first :: rest))) (sc_total_chunks first)) as [Ecount|]; cbn [negb]; intros H.
  2: { by apply bind_ok_inv in H as (s5 & a & _ & Hf). }
  fold (received (moved_aside (rv_files s)) (first :: rest)
          ((rv_acks s ++ accepted_acks [first]) ++ accepted_acks rest) b3) in H.
  apply bind_ok_inv in H as (s5 & path & (id & Hid & -> & Hfiles & Hacks)%finalize_ok_inv & H).
  apply bind_ok_inv in H as (s6 & [] & Htd & H). unfold guard_io in Htd.
  destruct (tempdir_ok env); [|done]. injection Htd as <-.
  apply bind_ok_inv in H as (s7 & d & Hdec & H). injection H as <- <-.
  unfold decompress_to_directory, mbind, proc_bind, get in Hdec.
  destruct (validate_compressed_format _ _) as [[]|]; [|done]. destruct (reopen_ok env); [|done]. cbn [negb] in Hdec.
  unfold file_content in Hdec. rewrite Hfiles, lookup_insert_eq in Hdec.
  destruct (untar_gz _) as [d'|] eqn:Ed; [|done]. injection Hdec as <- <-.
  exists rest, id. split; [done|]. constructor; try done.
  - by constructor.
  - by constructor.
  - rewrite Hacks. by rewrite <-app_assoc.
Qed.

(** No operation on a file fails. *)
Record io_ok : Prop := {
  io_parent : parent_ok env = true;
  io_open : open_ok env = true;
  io_chunk seq : chunk_io env seq = IoDone;
  io_flush : flush_ok env = true;
  io_rename : rename_ok env = true;
  io_tempdir : tempdir_ok env = true;
  io_reopen : reopen_ok env = true;
}.

Definition no_dir files name : Prop := ∀ d, files !! name ≠ Some (NDir d).

Lemma assembler_run files a acks budget :
  io_ok → no_dir files (temp_assembly_file pm) →
  assembler_new env pm (mkReceiver files a acks budget) = Some (received files [] acks budget, Ok tt).
Proof.
  intros [Hp Ho _ _ _ _ _] Ht. unfold assembler_new, mbind, proc_bind, get. cbn [rv_files]. rewrite Hp, Ho.
  destruct (files !! temp_assembly_file pm) as [[b|d]|] eqn:Et; [done|by destruct (Ht d)|done].
Qed.

Lemma finalize_run base cs acks budget metadata id :
  io_ok → last_included metadata = Some id →
  no_dir base (final_snapshot_path pm id) →
  ∃ s', finalize env pm metadata (received base cs acks budget) = Some (s', Ok (final_snapshot_path pm id))
    ∧ rv_files s' = <[final_snapshot_path pm id := NFile (payload cs)]> (delete (temp_assembly_file pm) base).
Proof.
  intros [_ _ _ Hf Hr _ _] Hid Hfinal. unfold finalize, mbind, proc_bind, get. rewrite Hid, Hf, Hr. cbn.
  rewrite lookup_insert_ne by apply temp_not_final. unfold file_content. rewrite lookup_insert_eq.
  destruct (base !! final_snapshot_path pm id) as [[b|d]|] eqn:Ef; [|by destruct (Hfinal d)|];
    (eexists; split; [done|]); simpl; by rewrite delete_insert_eq.
Qed.

Lemma decompress_run name content d s :
  io_ok → rv_files s !! name = Some (NFile content) →
  validate_compressed_format name (rv_files s) = Ok tt → untar_gz content = Some d →
  decompress_to_directory env name s = Some (s, Ok d).
Proof.
  intros [_ _ _ _ _ _ Ho] Hs Hv Hu. unfold decompress_to_directory, mbind, proc_bind, get.
  rewrite Hv, Ho. unfold file_content. by rewrite Hs, Hu.
Qed.

Lemma archive_is_valid `{!ArchiveLaws D} files id d :
  files !! final_snapshot_path pm id = Some (NFile (tar_gz d)) →
  validate_compressed_format (final_snapshot_path pm id) files = Ok tt.
Proof.
  intros Hf. unfold validate_compressed_format. rewrite Hf, final_path_extension.
  destruct (tar_header d) as (rest & -> & Hlen). rewrite (proj2 (N.ltb_ge _ _)) by (simpl length; lia). done.
Qed.

(** If nothing fails, the chunks of an archive are received. *)
Lemma prepare_run `{!ArchiveLaws D} first rest files metadata id d :
  io_ok → SnapshotConfig.receiver_yield_every_n_chunks cfg mod (u32_max + 1) ≠ 0 →
  contiguous sc_seq 0 (first :: rest) → N.of_nat (length (first :: rest)) = sc_total_chunks first →
  N.of_nat (length (first :: rest)) <= u32_max → N.of_nat (length (tar_gz d)) <= u64_max →
  Forall valid_chunk (first :: rest) → Forall (same_leader (sc_leader_term first) (sc_leader_id first)) rest →
  sc_metadata first = Some metadata → last_included metadata = Some id →
  no_dir files (temp_assembly_file pm) → no_dir files (final_snapshot_path pm id) →
  payload (first :: rest) = tar_gz d →
  ∃ s', prepare_snapshot_stream crc32 env pm cfg first (GotChunk <$> rest)
          (mkReceiver files (mkSnapshotAssembler 0 0 0) [] None)
        = Some (s', Ok (mkPreparedSnapshot metadata d)).
Proof.
  intros Hok Hn [Hseq Hc] Hcount Hmax Hsize [Hv Hvs]%Forall_cons Hl Hmd Hid Htemp Hfinal Hpay.
  rewrite <-Hpay in Hsize.
  pose proof (accept_run files [] [] first Hv eq_refl Hseq (io_chunk Hok _)
    ltac:(revert Hsize; unfold payload; simpl; rewrite app_nil_r, length_app; lia)) as Hfirst.
  pose proof (loop_run (sc_leader_term first) (sc_leader_id first) 1 files [first] (accepted_acks [first]) rest
    (io_chunk Hok) Hn Hc Hvs Hl eq_refl Hmax Hsize) as Hloop.
  destruct (finalize_run files (first :: rest) (accepted_acks [first] ++ accepted_acks rest) None metadata id Hok Hid Hfinal)
    as (s1 & Hfin & Hfiles).
  assert (rv_files s1 !! final_snapshot_path pm id = Some (NFile (tar_gz d))) as Hf1
    by by rewrite Hfiles, lookup_insert_eq, Hpay.
  exists s1. unfold prepare_snapshot_stream. rewrite (bind_run _ _ _ _ _ (assembler_run _ _ _ _ Hok Htemp)), Hmd.
  rewrite (bind_run _ _ _ _ _ Hfirst). cbn [app]. rewrite (bind_run _ _ _ _ _ Hloop).
  unfold mbind at 1, proc_bind at 1, get. cbn [received rv_assembler received_chunks app].
  rewrite Hcount, N.eqb_refl. cbn [negb]. rewrite (bind_run _ _ _ _ _ Hfin). unfold guard_io. rewrite (io_tempdir Hok).
  rewrite (bind_run (mret tt) _ s1 s1 tt eq_refl).
  by rewrite (bind_run _ _ _ _ _ (decompress_run _ _ _ _ Hok Hf1 (archive_is_valid _ _ _ Hf1) (untar_tar d))).
Qed.

(** ** The chunks of an archive *)

Lemma div_ceil_covers a b : 0 < b → a <= div_ceil a b * b.
Proof.
  intros Hb. unfold div_ceil. pose proof (N.div_mod (a + (b - 1)) b ltac:(lia)).
  pose proof (N.mod_lt (a + (b - 1)) b ltac:(lia)). lia.
Qed.

Lemma div_ceil_below a b k : 0 < b → k < div_ceil a b → k * b < a.
Proof.
  intros Hb Hk. unfold div_ceil in Hk. pose proof (N.Div0.mul_div_le (a + (b - 1)) b).
  assert ((k + 1) * b <= (a + (b - 1)) / b * b) by (apply N.mul_le_mono_r; lia). lia.
Qed.

Record chunk_ok (leader_term node_id total : N) c : Prop := {
  ck_valid : valid_chunk c;
  ck_leader : same_leader leader_term node_id c;
  ck_total : sc_total_chunks c = total;
}.

Lemma stream_run leader_term node_id metadata total chunk_size mmap n seq :
  0 < chunk_size → N.of_nat (length mmap) + chunk_size <= u64_max →
  seq + N.of_nat n = div_ceil (N.of_nat (length mmap)) chunk_size →
  ∃ cs, stream_chunks crc32 leader_term node_id metadata total chunk_size mmap n seq = Some cs
    ∧ length cs = n ∧ contiguous sc_seq seq cs ∧ Forall (chunk_ok leader_term node_id total) cs
    ∧ payload cs = drop (N.to_nat (seq * chunk_size)) mmap
    ∧ (seq = 0 → ∀ c, head cs = Some c → sc_metadata c = Some metadata).
Proof.
  intros Hcs Hlen. revert seq. induction n as [|n IH]; intros seq Hseq; cbn [stream_chunks].
  { exists []. split_and!; try done. symmetry. apply drop_ge.
    pose proof (div_ceil_covers (N.of_nat (length mmap)) chunk_size Hcs). rewrite <-Hseq in *. lia. }
  assert (seq * chunk_size < N.of_nat (length mmap)) as Hstart by (apply div_ceil_below; lia).
  rewrite (proj2 (N.ltb_ge _ _)) by lia. rewrite (proj2 (N.leb_gt _ _) Hstart).
  destruct (IH (seq + 1)) as (cs & -> & Hn & Hc & Hok & Hpay & _); [lia|].
  eexists. split; [done|]. split; [simpl; by rewrite Hn|]. split; [done|]. split; [|split].
  - constructor; [|done]. split; [|done|done]. by apply bool_decide_eq_true.
  - unfold payload. cbn [bind_cons mbind list_bind sc_data]. fold (payload cs). rewrite Hpay.
    set (start := N.to_nat (seq * chunk_size)).
    destruct (N.le_gt_cases (N.of_nat (length mmap)) (seq * chunk_size + chunk_size)).
    + rewrite take_ge by (rewrite length_drop; lia). rewrite (drop_ge mmap (N.to_nat ((seq + 1) * chunk_size))) by lia.
      by rewrite app_nil_r.
    + replace (N.to_nat ((seq + 1) * chunk_size)) with (start + N.to_nat chunk_size)%nat by lia.
      replace (N.to_nat _) with (N.to_nat chunk_size) by lia. rewrite <-drop_drop. apply take_drop.
  - intros -> c [= <-]. done.
Qed.

(** A file of at most [u32::MAX] chunks is loaded as the chunks of its content. *)
Lemma load_run leader_term node_id metadata id files content :
  last_included metadata = Some id → files !! final_snapshot_path pm id = Some (NFile content) →
  0 < SnapshotConfig.chunk_size cfg → N.of_nat (length content) + SnapshotConfig.chunk_size cfg <= u64_max →
  div_ceil (N.of_nat (length content)) (SnapshotConfig.chunk_size cfg) <= u32_max →
  ∃ cs, load_snapshot_data crc32 true pm cfg node_id leader_term metadata files = Some (Ok cs)
    ∧ contiguous sc_seq 0 cs ∧ Forall (chunk_ok leader_term node_id (N.of_nat (length cs))) cs
    ∧ N.of_nat (length cs) = div_ceil (N.of_nat (length content)) (SnapshotConfig.chunk_size cfg)
    ∧ payload cs = content ∧ (∀ c, head cs = Some c → sc_metadata c = Some metadata).
Proof.
  intros Hid Hf Hcs Hlen Hmax. unfold load_snapshot_data, prepare_transfer_meta. rewrite Hid, Hf.
  rewrite (proj2 (N.eqb_neq _ _)) by lia. cbn [stm_file_path stm_total_chunks stm_metadata stm_chunk_size]. rewrite Hf.
  rewrite N.mod_small by lia. set (total := div_ceil _ _) in *.
  destruct (stream_run leader_term node_id metadata total (SnapshotConfig.chunk_size cfg) content (N.to_nat total) 0)
    as (cs & -> & Hn & Hc & Hok & Hpay & Hmd); [done|done|fold total; lia|].
  exists cs. replace (N.of_nat (length cs)) with total by lia. split_and!; try done. by apply Hmd.
Qed.
End spec.

(** If nothing fails, an archive that one node loads is received by another. *)
Lemma transfer_run {D} `{!Archive D} `{!ArchiveLaws D} crc32 env pm cfg pm' cfg' leader_term node_id metadata id
    (files files' : gmap string (node D)) d :
  io_ok env → SnapshotConfig.receiver_yield_every_n_chunks cfg mod (u32_max + 1) ≠ 0 →
  last_included metadata = Some id → files' !! final_snapshot_path pm' id = Some (NFile (tar_gz d)) →
  0 < SnapshotConfig.chunk_size cfg' → N.of_nat (length (tar_gz d)) + SnapshotConfig.chunk_size cfg' <= u64_max →
  div_ceil (N.of_nat (length (tar_gz d))) (SnapshotConfig.chunk_size cfg') <= u32_max →
  no_dir files (temp_assembly_file pm) → no_dir files (final_snapshot_path pm id) →
  ∃ first rest s', load_snapshot_data crc32 true pm' cfg' node_id leader_term metadata files' = Some (Ok (first :: rest))
    ∧ prepare_snapshot_stream crc32 env pm cfg first (GotChunk <$> rest)
          (mkReceiver files (mkSnapshotAssembler 0 0 0) [] None)
        = Some (s', Ok (mkPreparedSnapshot metadata d)).
Proof.
  intros Hio Hn Hid Hf Hcs Hlen Hmax Ht Hfin.
  destruct (load_run crc32 pm' cfg' leader_term node_id metadata id files' (tar_gz d))
    as (cs & Hload & Hc & Hok & Hcount & Hpay & Hmd); [done..|].
  destruct cs as [|first rest].
  { exfalso. destruct (tar_header d) as (rest & Hd & _). rewrite Hd in Hpay. done. }
  pose proof (proj1 (Forall_cons _ _ _) Hok) as [[Hv [Hlt Hli] Htot] Hrest].
  destruct (prepare_run crc32 env pm cfg first rest files metadata id d) as [s' Hrun]; try done.
  - lia.
  - lia.
  - eapply Forall_impl; [exact Hok|]. by intros c [? _ _].
  - eapply Forall_impl; [exact Hrest|]. rewrite Hlt, Hli. by intros c [_ ? _].
  - by apply Hmd.
  - by exists first, rest, s'.
Qed.
