(* ===== verification/SnapshotHandler.v ===== *)
(** * Local snapshots and reads of the state machine handler

    The rest of [d-engine-core/src/state_machine_handler/default_state_machine_handler.rs]
    and the policies of [snapshot_policy/]: when a snapshot is due, the flag that admits
    one capture at a time, building the archive of a captured directory, waiting for an
    index to be applied, and reading keys. *)

From stdpp Require Import base tactics numbers option list gmap strings pretty.
From S2P Require Import Prelude Proc Types Events Codec Commands SmWorker Config SnapshotFiles SnapshotTransfer.

(** ** Policies *)

Record SnapshotContext := mkSnapshotContext {
  ctx_role : N;
  ctx_last_included : LogId;
  ctx_last_applied : LogId;
  ctx_current_term : N;
}.

Definition ctx_is_leader (ctx : SnapshotContext) : bool := ctx_role ctx =? role_i32 NR_Leader.

Module LogSizePolicy.
Record t := mk { threshold : N; is_checking : bool }.
Definition new (threshold : N) : t := mk threshold false.
Definition calculate_lag (ctx : SnapshotContext) : N :=
  lid_index (ctx_last_applied ctx) - lid_index (ctx_last_included ctx).
Definition should_trigger (p : t) (ctx : SnapshotContext) : bool :=
  if ctx_current_term ctx <? lid_term (ctx_last_included ctx) then false else
  if is_checking p then false else threshold p <=? calculate_lag ctx.
Definition update_threshold (new_val : N) (p : t) : t := mk new_val (is_checking p).
End LogSizePolicy.

(** Times are nanoseconds of the monotonic clock. *)
Module TimeBasedPolicy.
Record t := mk { interval : N; last_snapshot_time : N }.
Definition new (now interval : N) : t := mk interval now.
Definition reset_timer (now : N) (p : t) : t := mk (interval p) now.
Definition should_trigger (now : N) (p : t) (ctx : SnapshotContext) : bool :=
  if negb (ctx_is_leader ctx) then false else interval p <=? now - last_snapshot_time p.
Definition mark_snapshot_created (now : N) (p : t) : t := mk (interval p) now.
End TimeBasedPolicy.

Module CompositePolicy.
Record t := mk { time_policy : TimeBasedPolicy.t; size_policy : LogSizePolicy.t }.
Definition new (now time_interval log_size_threshold : N) : t :=
  mk (TimeBasedPolicy.new now time_interval) (LogSizePolicy.new log_size_threshold).
Definition should_trigger (now : N) (p : t) (ctx : SnapshotContext) : bool :=
  if negb (ctx_is_leader ctx) then false else
  TimeBasedPolicy.should_trigger now (time_policy p) ctx || LogSizePolicy.should_trigger (size_policy p) ctx.
Definition mark_snapshot_created (now : N) (p : t) : t :=
  mk (TimeBasedPolicy.mark_snapshot_created now (time_policy p)) (size_policy p).
End CompositePolicy.

(** ** The handler *)

(** The snapshot metadata of a state machine. *)
Class SnapshotStore (S : Type) := {
  sm_snapshot_metadata : S → option SnapshotMetadata;
  sm_persist_snapshot_metadata : SnapshotMetadata → S → S * result unit;
}.

Record Handler (S D : Type) := mkHandler {
  h_machine : S;
  h_snapshot_in_progress : bool;
  h_files : gmap string (node D);
}.

Arguments mkHandler {S D}.
Arguments h_machine {S D}.
Arguments h_snapshot_in_progress {S D}.
Arguments h_files {S D}.

#[global] Instance Handler_settable {S D} : Settable (Handler S D) := λ h,
  mkHandler (h_machine h) (h_snapshot_in_progress h) (h_files h).

(** What the file system answers while an archive is built. *)
Record BuildEnv := mkBuildEnv {
  compress_io : io_outcome;
  remove_temp_ok : bool;
  remove_partial_ok : bool;
  cleanup_env : DirEnv;
}.

Section handler.
Context {S D : Type} `{!StateMachine S D} `{!SnapshotStore S} `{!Archive D} `{!MapIter string (node D)}.
Abbreviation hd := (proc (Handler S D)).

Definition should_snapshot (policy : SnapshotContext → bool) (d : NewCommitData) (h : Handler S D) : bool :=
  if h_snapshot_in_progress h then false else
  let id := default (mkLogId 0 0) (sm_snapshot_metadata (h_machine h) ≫= last_included) in
  policy (mkSnapshotContext (ncd_role d) id (sm_applied_id (h_machine h)) (ncd_current_term d)).

Definition try_begin_local_snapshot_capture : hd unit := λ h,
  if h_snapshot_in_progress h then Some (h, Err (SnapshotFailed "Snapshot already in progress"))
  else Some (h <| h_snapshot_in_progress := true |>, Ok tt).

Definition end_local_snapshot_capture : hd unit := modify (λ h, h <| h_snapshot_in_progress := false |>).

Definition on_files (f : gmap string (node D) → gmap string (node D)) : hd unit :=
  modify (λ h, h <| h_files ::= f |>).

Definition compress_directory (io : io_outcome) (d : D) (dest : string) : hd unit := λ h,
  match io with
  | OpenFailed => Some (h, Err (SnapshotFailed "Failed to create compressed file"))
  | WriteFailed n =>
      Some (h <| h_files ::= <[dest := NFile (take n (tar_gz d))]> |>, Err (SnapshotFailed "Failed to create tar archive"))
  | IoDone => Some (h <| h_files ::= <[dest := NFile (tar_gz d)]> |>, Ok tt)
  end.

(** The cleanup of old snapshots runs on the directory; its error is only logged. *)
Definition cleanup_old (env : DirEnv) (retain_count : N) (prefix : string) : hd (result unit) := λ h,
  let! r := cleanup_snapshot env retain_count prefix (h_files h) in
  Some (h <| h_files := r.1 |>, Ok r.2).

Definition publish_metadata (metadata : SnapshotMetadata) : hd unit := λ h,
  let '(m, r) := sm_persist_snapshot_metadata metadata (h_machine h) in
  Some (h <| h_machine := m |>, r).

Definition build_local_snapshot (env : BuildEnv) (pm : SnapshotPathManager) (cfg : SnapshotConfig.t)
    (captured : CapturedLocalSnapshot D) : hd (SnapshotMetadata * string) :=
  let metadata := cs_metadata captured in
  match last_included metadata with
  | None => fail (SnapshotFailed "captured snapshot has no last_included")
  | Some id =>
      let temp_dir := temp_work_path pm id in
      let final_path := final_snapshot_path pm id in
      r ← attempt (compress_directory (compress_io env) (cs_dir captured) final_path);
      match r with
      | Err e =>
          (if remove_temp_ok env then on_files (delete temp_dir) else mret tt);;
          (if remove_partial_ok env then on_files (delete final_path) else mret tt);;
          fail e
      | Ok _ =>
          (if remove_temp_ok env then on_files (delete temp_dir) else fail (SnapshotFailed "failed to remove snapshot dir"));;
          publish_metadata metadata;;
          cleanup_old (cleanup_env env) (SnapshotConfig.cleanup_retain_count cfg)
            (SnapshotConfig.snapshots_dir_prefix cfg);;
          mret (metadata, final_path)
      end
  end.

Definition get_latest_snapshot_metadata (h : Handler S D) : option SnapshotMetadata :=
  sm_snapshot_metadata (h_machine h).

(** ** Reads *)

Definition read_from_state_machine (keys : list bytes) (m : S) : option (list (bytes * bytes)) :=
  match omap (λ key, (λ value, (key, value)) <$> sm_read key m) keys with
  | [] => None
  | result => Some result
  end.
End handler.

(** What the channel of applied indexes gives while waiting. *)
Inductive AppliedNotice := NApplied (index : N) | NClosed | NTimeout.

Fixpoint wait_loop (target_index : N) (notices : list AppliedNotice) : option (result unit) :=
  match notices with
  | [] => None
  | NClosed :: _ => Some (Err (Fatal "apply notify channel closed"))
  | NTimeout :: _ => Some (Err (Fatal "Timeout waiting for state machine to apply index"))
  | NApplied index :: notices' => if target_index <=? index then Some (Ok tt) else wait_loop target_index notices'
  end.

(** [wait_applied]: [None] while it still waits. *)
Definition wait_applied (target_index current : N) (notices : list AppliedNotice) : option (result unit) :=
  if target_index <=? current then Some (Ok tt) else wait_loop target_index notices.
