(* ===== verification/SnapshotPush.v ===== *)
(** * Pushing a snapshot

    [d-engine-core/src/network/background_snapshot_transfer.rs]: the leader's transfer of
    a stream of chunks to one peer. A background task moves the chunks into a bounded
    queue and retries while the queue is full; the gRPC call takes them from the queue
    and sends them; the transfer ends with the first of an error of the task, the answer
    of the peer, and a timeout. The state is a record, and [push_step] one step of one of
    the parties; the test gate of [snapshot_transfer_gate.rs] is not part of a release
    build. *)

From stdpp Require Import base tactics numbers option list gmap strings.
From S2P Require Import Prelude Proc Types Events Config.

Local Open Scope N_scope.

(** [pu_pending]: the chunk the task tries to send, with the attempts so far.
    [pu_error]: the error channel. [pu_delivered]: what the call has taken from the
    queue. *)
Record Push := mkPush {
  pu_stream : list (result SnapshotChunk);
  pu_pending : option (SnapshotChunk * N);
  pu_queue : list SnapshotChunk;
  pu_task_alive : bool;
  pu_error : option error;
  pu_delivered : list SnapshotChunk;
  pu_call_alive : bool;
  pu_result : option (result unit);
}.

#[global] Instance Push_settable : Settable Push := λ p,
  mkPush (pu_stream p) (pu_pending p) (pu_queue p) (pu_task_alive p) (pu_error p) (pu_delivered p)
    (pu_call_alive p) (pu_result p).

(** The answer of the peer. *)
Inductive Answer := Responded (success : bool) | StatusError.

Inductive PushLabel :=
  | Produce                    (* the background task goes on *)
  | Deliver                    (* the call takes a chunk *)
  | Answered (a : Answer)      (* the call returns *)
  | TaskError                  (* the error channel is read *)
  | TaskDone                   (* the error channel is closed: the loop goes round *)
  | TimedOut.

Section push.
Context (cfg : SnapshotConfig.t) (node_id : N).

(** The first chunk, [push_transfer_loop] up to its [select!]. The outer [None] is the
    panic of a channel without capacity. *)
Definition run_push_transfer (data_stream : list (result SnapshotChunk)) : option (Push + error) :=
  match data_stream with
  | [] => Some (inr EmptySnapshot)
  | Err e :: _ => Some (inr e)
  | Ok c :: rest =>
      if (sc_seq c =? 0) && bool_decide (is_Some (sc_metadata c)) then
        if SnapshotConfig.push_queue_size cfg =? 0 then None else
        Some (inl (mkPush rest None [c] true None [] true None))
      else Some (inr InvalidFirstChunk)
  end.

Definition task_fails (e : error) (p : Push) : Push := p <| pu_task_alive := false |> <| pu_error := Some e |>.

(** [send_chunk_with_retry], one attempt at a time. *)
Definition try_send (c : SnapshotChunk) (attempt : N) (p : Push) : Push :=
  if negb (pu_call_alive p) then task_fails ReceiverDisconnected p <| pu_pending := None |>
  else if N.of_nat (length (pu_queue p)) <? SnapshotConfig.push_queue_size cfg then
    p <| pu_queue ::= λ q, q ++ [c] |> <| pu_pending := None |>
  else if SnapshotConfig.snapshot_push_max_retry cfg <=? attempt then
    task_fails Backpressure p <| pu_pending := None |>
  else p <| pu_pending := Some (c, attempt + 1) |>.

(** The task: the next chunk of the stream, or another attempt. *)
Definition produce (p : Push) : Push :=
  match pu_pending p with
  | Some (c, attempt) => try_send c attempt p
  | None =>
      match pu_stream p with
      | [] => p <| pu_task_alive := false |>
      | Err e :: rest => task_fails e p <| pu_stream := rest |>
      | Ok c :: rest => p <| pu_stream := rest |> <| pu_pending := Some (c, 0) |>
      end
  end.

Definition answer_result (a : Answer) : result unit :=
  match a with
  | Responded true => Ok tt
  | Responded false => Err RemoteRejection
  | StatusError => Err TonicStatusError
  end.

(** [None]: the step is not possible. Once there is a result, the call is dropped with
    the queue, while the task may go on. *)
Definition push_step (l : PushLabel) (p : Push) : option Push :=
  match l with
  | Produce => if pu_task_alive p then Some (produce p) else None
  | Deliver =>
      match pu_call_alive p, pu_queue p with
      | true, c :: q => Some (p <| pu_queue := q |> <| pu_delivered ::= λ d, d ++ [c] |>)
      | _, _ => None
      end
  | Answered a =>
      match pu_result p with
      | None => Some (p <| pu_call_alive := false |> <| pu_result := Some (answer_result a) |>)
      | Some _ => None
      end
  | TaskError =>
      match pu_result p, pu_error p with
      | None, Some e => Some (p <| pu_call_alive := false |> <| pu_error := None |> <| pu_result := Some (Err e) |>)
      | _, _ => None
      end
  | TaskDone =>
      match pu_result p, pu_error p, pu_task_alive p with
      | None, None, false => Some p
      | _, _, _ => None
      end
  | TimedOut =>
      match pu_result p with
      | None => Some (p <| pu_call_alive := false |> <| pu_result := Some (Err (NetworkTimeout node_id)) |>)
      | Some _ => None
      end
  end.

Fixpoint push_run (ls : list PushLabel) (p : Push) : option Push :=
  match ls with
  | [] => Some p
  | l :: ls' => let! p' := push_step l p in push_run ls' p'
  end.
End push.

(** ** Order and completeness *)

(** The chunks of a stream up to its first error. *)
Fixpoint stream_oks (l : list (result SnapshotChunk)) : list SnapshotChunk :=
  match l with Ok c :: l' => c :: stream_oks l' | _ => [] end.

Section push_spec.
Context (cfg : SnapshotConfig.t) (node_id : N).

Definition pending_chunks (p : Push) : list SnapshotChunk :=
  match pu_pending p with Some (c, _) => [c] | None => [] end.

(** What has been delivered, is queued, and is still to come, is the stream, until the
    task fails. *)
Definition push_inv (cs : list SnapshotChunk) (p : Push) : Prop :=
  (pu_task_alive p = true ∧ pu_delivered p ++ pu_queue p ++ pending_chunks p ++ stream_oks (pu_stream p) = cs)
  ∨ (pu_task_alive p = false ∧ (pu_delivered p ++ pu_queue p) `prefix_of` cs).

Lemma push_inv_failed cs p p' :
  push_inv cs p → pu_task_alive p' = false →
  pu_delivered p' = pu_delivered p → pu_queue p' = pu_queue p → push_inv cs p'.
Proof.
  intros [[_ <-]|[_ Hp]] Ha Hd Hq; right; rewrite Hd, Hq; (split; [done|]); [|done].
  rewrite app_assoc. by apply prefix_app_r.
Qed.

Lemma produce_inv cs p : push_inv cs p → pu_task_alive p = true → push_inv cs (produce cfg p).
Proof.
  intros Hinv Ha. unfold produce. destruct (pu_pending p) as [[c n]|] eqn:Ep.
  - unfold try_send. destruct (pu_call_alive p); cbn [negb]; [|by eapply push_inv_failed].
    destruct (_ <? _); [|destruct (_ <=? _); [by eapply push_inv_failed|]];
      (destruct Hinv as [[_ H]|[]]; [|congruence]); left; (split; [done|]); revert H;
      unfold pending_chunks; rewrite Ep; simpl; [|done]. by rewrite <-(app_assoc (pu_queue p)).
  - destruct (pu_stream p) as [|[c|e] rest] eqn:Es; [by eapply push_inv_failed| |by eapply push_inv_failed].
    destruct Hinv as [[_ H]|[]]; [|congruence]. left. split; [done|]. revert H. unfold pending_chunks.
    by rewrite Ep, Es.
Qed.

Lemma push_step_inv cs l p p' : push_inv cs p → push_step cfg node_id l p = Some p' → push_inv cs p'.
Proof.
  intros Hinv. destruct l as [| |a| | |]; simpl.
  - destruct (pu_task_alive p) eqn:Ea; [|done]. intros [= <-]. by apply produce_inv.
  - destruct (pu_call_alive p); [|done]. destruct (pu_queue p) as [|c q] eqn:Eq; [done|]. intros [= <-].
    unfold push_inv, pending_chunks in *. rewrite Eq in Hinv. simpl. by rewrite <-!app_assoc.
  - destruct (pu_result p); [done|]. by intros [= <-].
  - destruct (pu_result p), (pu_error p); try done. by intros [= <-].
  - destruct (pu_result p), (pu_error p), (pu_task_alive p); try done. by intros [= <-].
  - destruct (pu_result p); [done|]. by intros [= <-].
Qed.

Lemma push_run_inv cs ls p p' : push_inv cs p → push_run cfg node_id ls p = Some p' → push_inv cs p'.
Proof.
  revert p. induction ls as [|l ls IH]; intros p Hinv; simpl; [by intros [= <-]|].
  destruct (push_step cfg node_id l p) as [p1|] eqn:E; [|done]. intros H. eapply IH; [|done].
  by eapply push_step_inv.
Qed.

(** The peer gets the chunks of the stream in their order, from the first one on. *)
Lemma delivered_in_order data_stream ls p p' :
  run_push_transfer cfg data_stream = Some (inl p) → push_run cfg node_id ls p = Some p' →
  pu_delivered p' `prefix_of` stream_oks data_stream.
Proof.
  intros Hrun Hls. assert (push_inv (stream_oks data_stream) p) as Hinv.
  { unfold run_push_transfer in Hrun. destruct data_stream as [|[c|e] rest]; try done.
    destruct (_ && _); [|done]. destruct (_ =? 0); [done|]. injection Hrun as <-. by left. }
  destruct (push_run_inv _ _ _ _ Hinv Hls) as [[_ <-]|[_ Hp]]; [by apply prefix_app_r|].
  etrans; [|exact Hp]. by apply prefix_app_r.
Qed.

(** A result is final, and ends the call. *)
Definition ended (p : Push) : Prop := is_Some (pu_result p) → pu_call_alive p = false.

Lemma push_step_ended l p p' :
  ended p → push_step cfg node_id l p = Some p' →
  ended p' ∧ (is_Some (pu_result p) → pu_result p' = pu_result p ∧ pu_delivered p' = pu_delivered p).
Proof.
  unfold ended. intros He. destruct l as [| |a| | |]; simpl.
  - destruct (pu_task_alive p); [|done]. intros [= <-]. unfold produce, try_send, task_fails.
    by repeat case_match; simpl in *; simplify_eq.
  - destruct (pu_call_alive p) eqn:Ec; [|done]. destruct (pu_queue p); [done|]. intros [= <-]. simpl.
    split; [by intros ?%He|]. by intros ?%He.
  - destruct (pu_result p) eqn:Er; [done|]. intros [= <-]. simpl. split; [done|by intros [? ?]].
  - destruct (pu_result p) eqn:Er, (pu_error p); try done. intros [= <-]. simpl. split; [done|by intros [? ?]].
  - destruct (pu_result p) eqn:Er, (pu_error p), (pu_task_alive p); try done. intros [= <-]. by rewrite Er.
  - destruct (pu_result p) eqn:Er; [done|]. intros [= <-]. simpl. split; [done|by intros [? ?]].
Qed.

Lemma push_run_ended ls p p' :
  ended p → is_Some (pu_result p) → push_run cfg node_id ls p = Some p' →
  pu_result p' = pu_result p ∧ pu_delivered p' = pu_delivered p.
Proof.
  revert p. induction ls as [|l ls IH]; intros p He Hr; simpl; [by intros [= <-]|].
  destruct (push_step cfg node_id l p) as [p1|] eqn:E; [|done].
  destruct (push_step_ended _ _ _ He E) as [He1 Hk]. destruct (Hk Hr) as [Hr1 Hd1].
  intros H. destruct (IH p1 He1 ltac:(by rewrite Hr1) H) as [Hr' Hd']. by rewrite Hr', Hd', Hr1, Hd1.
Qed.

(** A result that is a success is the peer's answer to what was delivered before it. *)
Lemma push_run_success ls p p' :
  ended p → pu_result p = None → push_run cfg node_id ls p = Some p' → pu_result p' = Some (Ok tt) →
  ∃ ls1 ls2 p1, ls = ls1 ++ Answered (Responded true) :: ls2 ∧ push_run cfg node_id ls1 p = Some p1
    ∧ pu_delivered p' = pu_delivered p1.
Proof.
  revert p. induction ls as [|l ls IH]; intros p He Hn; simpl; [intros [= <-]; congruence|].
  destruct (push_step cfg node_id l p) as [p1|] eqn:E; [|done]. intros Hrun Hok.
  destruct (push_step_ended _ _ _ He E) as [He1 _]. destruct (pu_result p1) as [r|] eqn:Er1.
  - destruct (push_run_ended _ _ _ He1 ltac:(by rewrite Er1) Hrun) as [Hr Hd]. rewrite Hok, Er1 in Hr.
    injection Hr as <-. destruct l as [| |a| | |]; simpl in E; rewrite ?Hn in E.
    + destruct (pu_task_alive p); [|done]. injection E as <-. revert Er1. unfold produce, try_send, task_fails.
      repeat case_match; simpl; congruence.
    + destruct (pu_call_alive p), (pu_queue p); try done. injection E as <-. simpl in Er1. congruence.
    + injection E as <-. destruct a as [[]|]; try done. by exists [], ls, p.
    + destruct (pu_error p); [|done]. by injection E as <-.
    + destruct (pu_error p), (pu_task_alive p); try done. injection E as <-. congruence.
    + by injection E as <-.
  - destruct (IH p1 He1 Er1 Hrun Hok) as (ls1 & ls2 & p2 & -> & Hrun1 & Hd). exists (l :: ls1), ls2, p2.
    split; [done|]. split; [simpl; by rewrite E|done].
Qed.

(** ** The task ends *)

Definition push_work (p : Push) : N :=
  let per_chunk := SnapshotConfig.snapshot_push_max_retry cfg + 2 in
  N.of_nat (length (pu_stream p)) * per_chunk
  + match pu_pending p with Some (_, n) => 1 + (SnapshotConfig.snapshot_push_max_retry cfg - n) | None => 0 end
  + if pu_task_alive p then 1 else 0.

Lemma produce_works p : pu_task_alive p = true → push_work (produce cfg p) < push_work p.
Proof.
  intros Ha. unfold produce, push_work, try_send, task_fails.
  destruct (pu_pending p) as [[c n]|] eqn:Ep.
  - destruct (pu_call_alive p); cbn [negb]; [|simpl; rewrite Ha; lia].
    destruct (N.of_nat (length (pu_queue p)) <? _); [simpl; rewrite Ha; lia|].
    destruct (N.leb_spec (SnapshotConfig.snapshot_push_max_retry cfg) n); simpl; rewrite Ha; lia.
  - destruct (pu_stream p) as [|[c|e] rest] eqn:Es; cbn -[N.mul N.add N.of_nat N.sub];
      rewrite ?Ep, ?Es, ?Ha; cbn [length]; rewrite ?Nat2N.inj_succ, ?N.mul_succ_l; lia.
Qed.

Definition is_produce (l : PushLabel) : bool := match l with Produce => true | _ => false end.

Lemma push_step_work l p p' :
  push_step cfg node_id l p = Some p' → push_work p' + (if is_produce l then 1 else 0) <= push_work p.
Proof.
  destruct l as [| |a| | |]; simpl.
  - destruct (pu_task_alive p) eqn:Ea; [|done]. intros [= <-]. pose proof (produce_works p Ea). lia.
  - destruct (pu_call_alive p), (pu_queue p); try done. intros [= <-]. unfold push_work. simpl. lia.
  - destruct (pu_result p); [done|]. intros [= <-]. unfold push_work. simpl. lia.
  - destruct (pu_result p), (pu_error p); try done. intros [= <-]. unfold push_work. simpl. lia.
  - destruct (pu_result p), (pu_error p), (pu_task_alive p); try done. intros [= <-]. lia.
  - destruct (pu_result p); [done|]. intros [= <-]. unfold push_work. simpl. lia.
Qed.

(** However the steps interleave, the task takes at most [push_work] of them. *)
Lemma task_steps_bounded ls p p' :
  push_run cfg node_id ls p = Some p' → N.of_nat (length (filter is_produce ls)) + push_work p' <= push_work p.
Proof.
  revert p. induction ls as [|l ls IH]; intros p; simpl; [intros [= <-]; lia|].
  destruct (push_step cfg node_id l p) as [p1|] eqn:E; [|done]. intros Hrun.
  pose proof (push_step_work _ _ _ E) as Hw. pose proof (IH _ Hrun). rewrite filter_cons.
  case_decide as Hl; destruct (is_produce l) eqn:El; simpl in Hl |- *; try done; lia.
Qed.
End push_spec.
