(* ===== verification/SnapshotProps.v ===== *)
(** * Correctness of snapshots

    The properties of building, transferring and installing snapshots: an archive that
    was built is not removed by the cleanup that follows, what a peer accepts is the
    archive of the leader, a push that succeeds has transferred all of it, and the state
    of the leader's state machine reaches a follower that is behind. *)

From stdpp Require Import base tactics numbers option list sorting gmap strings pretty.
From S2P Require Import Prelude Proc Types Events Codec Commands TtlLease FileStateMachine FsmSpec FsmRecovery FsmProps.
From S2P Require Import SmWorker Config SnapshotFiles SnapshotTransfer SnapshotTransferSpec.
From S2P Require Import SnapshotHandler SnapshotPush.

Import Fsm.

(** ** The metadata of the file-based state machine *)

(** [persist_last_snapshot_metadata], which keeps it in memory. *)
Definition update_last_snapshot_metadata (metadata : SnapshotMetadata) (m : FileStateMachine) : FileStateMachine :=
  m <| last_snapshot_metadata := Some metadata |>.

#[global] Instance fsm_snapshot_store : SnapshotStore FileStateMachine := {|
  sm_snapshot_metadata := last_snapshot_metadata;
  sm_persist_snapshot_metadata metadata m := (update_last_snapshot_metadata metadata m, Ok tt);
|}.

(** ** The cleanup after a build *)

(** The archives of a directory other than that of [id] have lower indexes. *)
Definition newest {D} (pm : SnapshotPathManager) (id : LogId) (files : gmap string (node D)) : Prop :=
  ∀ name i t, is_Some (files !! name) → name ≠ final_snapshot_path pm id →
    parse_entry (snapshot_prefix pm) name = Some (Some (i, t)) → i < lid_index id.

(** [name] is an archive with index [i], and [n] archives at least as new remain. *)
Definition superseded {D} `{!MapIter string (node D)} (prefix : string) (n : N) (files : gmap string (node D))
    (name : string) : Prop :=
  ∃ i t kept, parse_entry prefix name = Some (Some (i, t))
    ∧ NoDup (csm_path <$> kept) ∧ N.of_nat (length kept) = n
    ∧ ∀ m, m ∈ kept → is_Some (files !! csm_path m) ∧ snapshot_meta prefix (csm_path m) = Some m ∧ i <= csm_index m.

Section build.
Context {D : Type} `{!MapIter string (node D)} (prefix : string).
Implicit Types files : gmap string (node D).

Lemma cleaned_superseded env n files files' r name :
  cleaned prefix env n files files' r → is_Some (files !! name) → files' !! name = None →
  superseded prefix n files' name.
Proof.
  intros [(removed & kept & Hsplit & Hkept & -> & Hle & Hn & _) _] Hs Hnone.
  rewrite lookup_foldr_delete in Hnone. case_bool_decide as Hin; [|by destruct Hs; congruence].
  apply list_elem_of_fmap in Hin as (a & -> & Ha). destruct Hn as [->|Hn]; [by apply not_elem_of_nil in Ha|].
  assert (a ∈ snapshots prefix files) as [_ Hm]%elem_of_snapshots by (rewrite Hsplit; apply elem_of_app; by left).
  unfold snapshot_meta in Hm. apply fmap_Some in Hm as ([i t] & Hp & Ea). exists i, t, (take (N.to_nat n) kept).
  pose proof (snapshots_NoDup prefix (foldr delete files (csm_path <$> removed))) as Hnd. rewrite Hkept in Hnd.
  split_and!.
  - by destruct (parse_entry prefix (csm_path a)) as [o|]; simpl in Hp; [subst o|].
  - rewrite fmap_take. eapply sublist_NoDup; [exact Hnd|apply sublist_take].
  - rewrite length_take. lia.
  - intros m Hm%(subseteq_take (N.to_nat n) kept).
    assert (m ∈ snapshots prefix (foldr delete files (csm_path <$> removed))) as [Hm1 Hm2]%elem_of_snapshots
      by by rewrite Hkept.
    split; [done|]. split; [done|]. replace i with (csm_index a) by by rewrite Ea. by apply Hle.
Qed.

(** The newest archive survives. *)
Lemma cleanup_keeps env n files id :
  String.length prefix = 9%nat → map_Forall (λ name _, ascii_name name = true) files →
  lid_index id <= u64_max → lid_term id <= u64_max → 0 < n →
  newest (new_path_manager prefix) id files →
  ∃ files' r, cleanup_snapshot env n prefix files = Some (files', r) ∧ files' ⊆ files
    ∧ files' !! final_snapshot_path (new_path_manager prefix) id = files !! final_snapshot_path (new_path_manager prefix) id
    ∧ ∀ name, is_Some (files !! name) → files' !! name = None → superseded prefix n files' name.
Proof.
  intros Hlen Hascii Hi Ht Hn Hnew. destruct (cleanup_run prefix env n files Hlen Hascii) as (files' & r & Hrun & Hcl).
  assert (files' ⊆ files) as Hsub.
  { destruct Hcl as [(removed & kept & _ & _ & -> & _) _]. apply map_subseteq_spec. intros k v.
    rewrite lookup_foldr_delete. by case_bool_decide. }
  exists files', r. split; [done|]. split; [done|]. split; [|intros name; by apply cleaned_superseded with env r].
  set (final := final_snapshot_path _ id). destruct (files' !! final) as [v|] eqn:E.
  { symmetry. by eapply lookup_weaken. }
  destruct (files !! final) as [v|] eqn:E2; [|done]. exfalso.
  destruct (cleaned_superseded _ _ _ _ _ final Hcl) as (i & t & kept & Hp & _ & Hl & Hk); [by eexists|done|].
  unfold final in Hp. rewrite parse_final_path in Hp by done. injection Hp as <- <-.
  destruct kept as [|m kept]; [simpl in Hl; lia|]. destruct (Hk m) as (Hm1 & Hm2 & Hm3); [left|].
  destruct (decide (csm_path m = final)) as [Em|Hne]; [rewrite Em, E in Hm1; by destruct Hm1|].
  unfold snapshot_meta in Hm2. apply fmap_Some in Hm2 as ([i' t'] & Hp' & Em).
  assert (i' < lid_index id); [|rewrite Em in Hm3; simpl in Hm3; lia].
  eapply (Hnew (csm_path m)); [by eapply lookup_weaken_is_Some|done|]. cbn [snapshot_prefix new_path_manager].
  by destruct (parse_entry prefix (csm_path m)) as [o|]; simpl in Hp'; [subst o|].
Qed.
End build.

(** ** Properties *)

Section properties.
Context `{!LeaseCodec} `{!MapIter bytes N} `{!MapIter bytes (bytes * N)}.
Context `{!Archive SnapshotDir} `{!MapIter string (node SnapshotDir)}.
Abbreviation handler := (Handler FileStateMachine SnapshotDir).

(** What a handler and the file system must be like for the cleanup to be harmless. *)
Record tidy (cfg : SnapshotConfig.t) (id : LogId) (h : handler) : Prop := {
  td_prefix : String.length (SnapshotConfig.snapshots_dir_prefix cfg) = 9%nat;
  td_ascii : ascii_name (SnapshotConfig.snapshots_dir_prefix cfg) = true;
  td_retain : 0 < SnapshotConfig.cleanup_retain_count cfg;
  td_index : lid_index id <= u64_max;
  td_term : lid_term id <= u64_max;
  td_names : map_Forall (λ name _, ascii_name name = true) (h_files h);
  td_newest : newest (new_path_manager (SnapshotConfig.snapshots_dir_prefix cfg)) id (h_files h);
}.

Lemma ascii_final_path prefix id :
  ascii_name prefix = true → ascii_name (final_snapshot_path (new_path_manager prefix) id) = true.
Proof.
  assert (∀ s, all_digits s = true → ascii_name s = true) as Hd.
  { induction s as [|c s IH]; [done|]. cbn [all_digits ascii_name].
    intros [[d Hc]%bool_decide_eq_true Hs]%andb_true_iff. rewrite (IH Hs), andb_true_r. apply N.ltb_lt.
    unfold digit in Hc. case_bool_in Hc; simpl in Hc; try done. lia. }
  intros Hp. unfold final_snapshot_path. cbn [snapshot_prefix new_path_manager]. rewrite !ascii_name_app, Hp.
  by rewrite (Hd _ (all_digits_pretty (lid_index id))), (Hd _ (all_digits_pretty (lid_term id))).
Qed.

Abbreviation paths cfg := (new_path_manager (SnapshotConfig.snapshots_dir_prefix cfg)).

(** The directory once the archive is written and the captured directory removed. *)
Definition built_files cfg id content (files : gmap string (node SnapshotDir)) : gmap string (node SnapshotDir) :=
  delete (temp_work_path (paths cfg) id) (<[final_snapshot_path (paths cfg) id := NFile content]> files).

Lemma built_tidy cfg id content (h : handler) :
  tidy cfg id h → tidy cfg id (h <| h_files := built_files cfg id content (h_files h) |>).
Proof.
  intros [Hp Ha Hr Hi Ht Hn Hnew]. constructor; try done; simpl; unfold built_files.
  - apply map_Forall_delete, map_Forall_insert_2; [by apply ascii_final_path|done].
  - intros name i t [v Hv] Hne. apply lookup_delete_Some in Hv as [_ Hv].
    rewrite lookup_insert_ne in Hv by done. apply (Hnew name i t); [by eexists|done].
Qed.

Lemma cleanup_old_run env cfg id content (h : handler) :
  tidy cfg id h →
  ∃ files' r, cleanup_old env (SnapshotConfig.cleanup_retain_count cfg) (SnapshotConfig.snapshots_dir_prefix cfg)
      (h <| h_files := built_files cfg id content (h_files h) |>) = Some (h <| h_files := files' |>, Ok r)
    ∧ files' !! final_snapshot_path (paths cfg) id = Some (NFile content)
    ∧ ∀ name, is_Some (h_files h !! name) → files' !! name = None → name ≠ temp_work_path (paths cfg) id →
        superseded (SnapshotConfig.snapshots_dir_prefix cfg) (SnapshotConfig.cleanup_retain_count cfg) files' name.
Proof.
  intros Htd. destruct (built_tidy cfg id content h Htd) as [Hp Ha Hr Hi Ht Hn Hnew]. simpl in Hn, Hnew.
  destruct (cleanup_keeps (SnapshotConfig.snapshots_dir_prefix cfg) env (SnapshotConfig.cleanup_retain_count cfg)
    (built_files cfg id content (h_files h)) id Hp Hn Hi Ht Hr Hnew) as (files' & r & Hrun & _ & Hfin & Hsup).
  exists files', r. unfold cleanup_old. simpl. rewrite Hrun. split; [done|]. split.
  - rewrite Hfin. unfold built_files. rewrite lookup_delete_ne by apply temp_work_not_final. apply lookup_insert_eq.
  - intros name Hs Hnone Hne. apply Hsup; [|done]. unfold built_files. rewrite lookup_delete_ne by done.
    apply lookup_insert_is_Some'. by right.
Qed.

(** A build whose operations succeed. *)
Lemma build_run env cfg captured id (h h' : handler) r :
  last_included (cs_metadata captured) = Some id → compress_io env = IoDone → remove_temp_ok env = true →
  cleanup_old (cleanup_env env) (SnapshotConfig.cleanup_retain_count cfg) (SnapshotConfig.snapshots_dir_prefix cfg)
    (mkHandler (update_last_snapshot_metadata (cs_metadata captured) (h_machine h)) (h_snapshot_in_progress h)
       (built_files cfg id (tar_gz (cs_dir captured)) (h_files h))) = Some (h', Ok r) →
  build_local_snapshot env (paths cfg) cfg captured h
  = Some (h', Ok (cs_metadata captured, final_snapshot_path (paths cfg) id)).
Proof.
  intros Hid Hio Hrm Hclean. unfold build_local_snapshot. rewrite Hid, Hio, Hrm.
  unfold mbind, proc_bind, attempt, compress_directory, on_files, publish_metadata, modify. cbn.
  fold (built_files cfg id (tar_gz (cs_dir captured)) (h_files h)). by rewrite Hclean.
Qed.

(** Building an archive never panics. If it succeeds, the archive of the captured
    directory is in place and its metadata is published, and a file that is gone is the
    captured directory or an older archive, with the configured number of newer archives
    remaining. If it fails, the metadata is not published and no other file is
    touched. *)
Theorem built_snapshot_is_kept env cfg captured id (h : handler) :
  last_included (cs_metadata captured) = Some id → tidy cfg id h →
  ∃ h' r, build_local_snapshot env (paths cfg) cfg captured h = Some (h', r)
    ∧ match r with
      | Ok (metadata, path) =>
          metadata = cs_metadata captured ∧ path = final_snapshot_path (paths cfg) id
          ∧ h_files h' !! path = Some (NFile (tar_gz (cs_dir captured)))
          ∧ get_latest_snapshot_metadata h' = Some metadata
          ∧ ∀ name, is_Some (h_files h !! name) → h_files h' !! name = None →
              name = temp_work_path (paths cfg) id
              ∨ superseded (SnapshotConfig.snapshots_dir_prefix cfg) (SnapshotConfig.cleanup_retain_count cfg)
                  (h_files h') name
      | Err e =>
          h_machine h' = h_machine h
          ∧ ∀ name, name ≠ temp_work_path (paths cfg) id → name ≠ final_snapshot_path (paths cfg) id →
              h_files h' !! name = h_files h !! name
      end.
Proof.
  intros Hid Htd. destruct (decide (compress_io env = IoDone ∧ remove_temp_ok env = true)) as [[Hio Hrm]|Hbad].
  - destruct (cleanup_old_run (cleanup_env env) cfg id (tar_gz (cs_dir captured))
      (h <| h_machine ::= update_last_snapshot_metadata (cs_metadata captured) |>)) as (files' & r & Hrun & Hfin & Hsup);
      [by destruct Htd|].
    eexists _, _. split; [by apply (build_run env cfg captured id h _ r Hid Hio Hrm), Hrun|].
    split_and!; try done. intros name Hs Hnone.
    destruct (decide (name = temp_work_path (paths cfg) id)); [by left|]. right. by apply Hsup.
  - unfold build_local_snapshot. rewrite Hid.
    unfold mbind, proc_bind, attempt, compress_directory, on_files, modify.
    destruct (compress_io env), (remove_temp_ok env), (remove_partial_ok env); try (by destruct Hbad);
      eexists _, _; (split; [reflexivity|]); (split; [done|]); intros name H1 H2; cbn;
      by rewrite ?lookup_delete_ne, ?lookup_insert_ne by done.
Qed.

(** C17: The state of a leader reaches a follower: the snapshot its state machine exports is
    built into an archive and published, the archive is loaded as chunks, the chunks are
    received and unpacked, and installing the directory makes the follower's map the
    leader's and its position the snapshot's. *)
Theorem snapshot_reaches_the_follower `{!ArchiveLaws SnapshotDir} crc32 sha256 benv renv fenv cfg cfg' (leader : handler)
    dir sum leader_term node_id files m :
  let source := h_machine leader in
  let id := sm_last_applied source in
  let metadata := mkSnapshotMetadata (Some id) sum in
  map_Forall (λ _ p, p.2 <= u64_max) (data source) →
  N.of_nat (length (snapshot_bytes source)) + 8 <= u64_max →
  generate_snapshot_data sha256 IoDone source = (dir, Ok sum) →
  tidy cfg id leader → compress_io benv = IoDone → remove_temp_ok benv = true →
  0 < SnapshotConfig.chunk_size cfg → N.of_nat (length (tar_gz dir)) + SnapshotConfig.chunk_size cfg <= u64_max →
  div_ceil (N.of_nat (length (tar_gz dir))) (SnapshotConfig.chunk_size cfg) <= u32_max →
  io_ok renv → SnapshotConfig.receiver_yield_every_n_chunks cfg' mod (u32_max + 1) ≠ 0 →
  no_dir files (temp_assembly_file (paths cfg')) → no_dir files (final_snapshot_path (paths cfg') id) →
  lid_index (sm_last_applied m) < lid_index id →
  data_io fenv = IoDone → clear_io fenv = IoDone → meta_io fenv = IoDone →
  ∃ leader' path first rest s' m',
    build_local_snapshot benv (paths cfg) cfg (mkCapturedLocalSnapshot metadata dir) leader
      = Some (leader', Ok (metadata, path))
    ∧ get_latest_snapshot_metadata leader' = Some metadata
    ∧ load_snapshot_data crc32 true (paths cfg) cfg node_id leader_term metadata (h_files leader')
      = Some (Ok (first :: rest))
    ∧ prepare_snapshot_stream crc32 renv (paths cfg') cfg' first (GotChunk <$> rest)
        (mkReceiver files (mkSnapshotAssembler 0 0 0) [] None)
      = Some (s', Ok (mkPreparedSnapshot metadata dir))
    ∧ apply_snapshot_from_file fenv sha256 metadata dir m = Some (m', Ok (Applied id))
    ∧ data m' = data source ∧ sm_last_applied m' = id.
Proof.
  intros source id metadata Hterms Hlen Hgen Htd Hcio Hrm Hcs Hsize Hmax Hio Hyield Ht1 Ht2 Hbehind H1 H2 H3.
  destruct (cleanup_old_run (cleanup_env benv) cfg id (tar_gz dir)
    (leader <| h_machine ::= update_last_snapshot_metadata metadata |>)) as (files' & r & Hrun & Hfin & _); [by destruct Htd|].
  destruct (transfer_run crc32 renv (paths cfg') cfg' (paths cfg) cfg leader_term node_id metadata id files files' dir)
    as (first & rest & s' & Hload & Hprep); [done..|].
  destruct (snapshot_installs fenv sha256 source dir sum metadata id m) as (m' & Hinst & Hd & Hl & _); [done..|].
  eexists _, _, first, rest, s', m'.
  split; [exact (build_run benv cfg (mkCapturedLocalSnapshot metadata dir) id leader _ r eq_refl Hcio Hrm Hrun)|].
  done.
Qed.
End properties.

Section transfer_properties.
Context {D : Type} `{!Archive D} (crc32 : bytes → N).

(** The receiver of a snapshot changes only the temporary file, a directory in the way
    of it, and the final file of the announced snapshot. If it succeeds, it was sent the
    chunks 0, 1, ... up to the announced number, all with valid checksums and from one
    leader; the final file holds their data one after the other, and what it hands over
    is the announced metadata and the directory unpacked from that file. *)
Theorem received_snapshot_is_the_stream env pm cfg first events (s s' : Receiver) r :
  prepare_snapshot_stream (D := D) crc32 env pm cfg first events s = Some (s', r) →
  (∀ name, ¬ touched env pm first name → rv_files s' !! name = rv_files s !! name)
  ∧ ∀ p, r = Ok p → ∃ rest id, events = GotChunk <$> rest ∧ transferred crc32 env pm first rest id s s' p.
Proof.
  intros Hrun. split; [exact (prepare_frames crc32 env pm cfg first events s s' r Hrun)|].
  intros p ->. by eapply prepare_ok_inv.
Qed.

(** C18: A push that reports success has delivered all the chunks of the archive, and the
    peer has stored a copy of it, if the peer answers with success only when it has
    received a snapshot from what was delivered to it. *)
Theorem successful_push_transfers_the_archive env pm cfg pm' cfg' node_id leader_term peer_id metadata id
    (files : gmap string (node D)) content cs p ls p' (stored : gmap string (node D)) :
  last_included metadata = Some id → files !! final_snapshot_path pm id = Some (NFile content) →
  0 < SnapshotConfig.chunk_size cfg → N.of_nat (length content) + SnapshotConfig.chunk_size cfg <= u64_max →
  div_ceil (N.of_nat (length content)) (SnapshotConfig.chunk_size cfg) <= u32_max →
  load_snapshot_data crc32 true pm cfg node_id leader_term metadata files = Some (Ok cs) →
  run_push_transfer cfg (Ok <$> cs) = Some (inl p) →
  push_run cfg peer_id ls p = Some p' → pu_result p' = Some (Ok tt) →
  (∀ ls1 ls2 p1, ls = ls1 ++ Answered (Responded true) :: ls2 → push_run cfg peer_id ls1 p = Some p1 →
     ∃ first rest s s' prepared, pu_delivered p1 = first :: rest
       ∧ prepare_snapshot_stream crc32 env pm' cfg' first (GotChunk <$> rest) s = Some (s', Ok prepared)
       ∧ stored = rv_files s') →
  pu_delivered p' = cs ∧ stored !! final_snapshot_path pm' id = Some (NFile content).
Proof.
  intros Hid Hf Hcs Hsize Hmax Hload Hpush Hrun Hok Hpeer.
  destruct (load_run crc32 pm cfg leader_term node_id metadata id files content) as (cs' & Hload' & _ & Hck & _ & Hpay & Hmd);
    [done..|]. rewrite Hload in Hload'. injection Hload' as <-.
  assert (ended p ∧ pu_result p = None) as [He Hn].
  { unfold run_push_transfer in Hpush. destruct (Ok <$> cs) as [|[c|e] rest]; try done.
    destruct (_ && _); [|done]. destruct (_ =? 0); [done|]. injection Hpush as <-. split; [by intros [? ?]|done]. }
  destruct (push_run_success _ _ _ _ _ He Hn Hrun Hok) as (ls1 & ls2 & p1 & Hls & Hrun1 & ->).
  destruct (Hpeer _ _ _ Hls Hrun1) as (first & rest & s & s' & prepared & Hdel & Hprep & ->).
  destruct (prepare_ok_inv _ _ _ _ _ _ _ _ _ Hprep) as (rest' & id' & Hev & Htr).
  apply (list_fmap_eq_inj GotChunk) in Hev as <-; [|by intros ?? [=]].
  assert (stream_oks (Ok <$> cs) = cs) as Hoks.
  { clear. induction cs as [|c cs IH]; [done|]. rewrite fmap_cons. simpl. by rewrite IH. }
  pose proof (delivered_in_order _ _ _ _ _ _ Hpush Hrun1) as Hpre. rewrite Hoks, Hdel in Hpre.
  destruct Hpre as [tail ->]. cbn [app] in *.
  assert (sc_metadata first = Some metadata) as Hmd1 by by apply Hmd.
  apply Forall_cons in Hck as [[_ _ Htot] _]. pose proof (tr_count _ _ _ _ _ _ _ _ _ Htr) as Hcount.
  assert (tail = []) as ->.
  { apply length_zero_iff_nil. rewrite Htot in Hcount. simpl in Hcount. rewrite length_app in Hcount. lia. }
  rewrite app_nil_r in *. rewrite Hdel. split; [done|].
  destruct (tr_metadata _ _ _ _ _ _ _ _ _ Htr) as [Hm Hi]. rewrite Hmd1 in Hm. injection Hm as Hm.
  rewrite <-Hm, Hid in Hi. injection Hi as <-. rewrite (tr_files _ _ _ _ _ _ _ _ _ Htr), lookup_insert_eq. by rewrite Hpay.
Qed.
End transfer_properties.

(** ** Examples *)

#[local] Instance SnapshotDir_eq_dec : EqDecision SnapshotDir.
Proof. solve_decision. Defined.

#[local] Instance SnapshotDir_countable : Countable SnapshotDir.
Proof.
  refine (inj_countable' (λ d, (files_before d, snapshot_bin d, files_after d)) (λ p, mkSnapshotDir p.1.1 p.1.2 p.2) _).
  by intros [].
Defined.

(** The header of a gzip file and the number of the directory. *)
#[local] Instance numbered_archive : Archive SnapshotDir := {|
  tar_gz d := [0x1f; 0x8b; 8; 0; 0; 0; 0; 0; 0; 3; N.pos (encode d)];
  untar_gz b := match b with [_; _; _; _; _; _; _; _; _; _; N.pos p] => decode p | _ => None end;
|}.

#[local] Instance numbered_archive_laws : ArchiveLaws SnapshotDir.
Proof.
  split; [intros d; simpl; apply decode_encode|]. intros d. eexists. split; [reflexivity|]. simpl. lia.
Qed.

#[local] Existing Instance map_to_list_iter.

Definition small_chunks : SnapshotConfig.t :=
  SnapshotConfig.mk true 10000 1 "snapshot-" 4 100 1 1 100 10000 1 600 10 100 3 300000 30.

Definition quiet_files : BuildEnv := mkBuildEnv IoDone true true (mkDirEnv true (λ _, true)).

Definition quiet_receiver : ReceiveEnv := mkReceiveEnv (Some 0) true true true (λ _, IoDone) true true true true.

Lemma quiet_receiver_ok : io_ok quiet_receiver.
Proof. by split. Qed.

Definition sum_crc (b : bytes) : N := foldr N.add 0 b mod 4294967296.

(** A leader at index 4, with an archive at index 2 and the directory of its capture. *)
Definition leader_files : gmap string (node SnapshotDir) :=
  {[ "snapshot-2-1.tar.gz" := NFile [0x1f; 0x8b]; "temp-4-1" := NDir (mkSnapshotDir [] (Some [7]) []) ]}.

Lemma leader_tidy (m : FileStateMachine) b :
  tidy small_chunks (mkLogId 1 4) (mkHandler m b leader_files).
Proof.
  split; try done.
  - apply map_Forall_insert_2; [by vm_compute|]. apply map_Forall_singleton. by vm_compute.
  - intros name i t [v Hv] _. unfold leader_files in Hv. simpl in Hv.
    apply lookup_insert_Some in Hv as [[<- _]|[_ Hv]]; [by vm_compute; intros [= <- <-]|].
    apply lookup_singleton_Some in Hv as [<- _]. by vm_compute.
Qed.

(** The archive at index 2 and the captured directory are removed. *)
Lemma built_snapshot_is_kept_witness :
  ∃ h', build_local_snapshot quiet_files (new_path_manager "snapshot-") small_chunks
          (mkCapturedLocalSnapshot (mkSnapshotMetadata (Some (mkLogId 1 4)) [9]) (mkSnapshotDir [] (Some [7]) []))
          (mkHandler FsmRuns.fresh false leader_files) = Some (h', Ok (mkSnapshotMetadata (Some (mkLogId 1 4)) [9], "snapshot-4-1.tar.gz"))
    ∧ h_files h' !! "snapshot-4-1.tar.gz" = Some (NFile (tar_gz (mkSnapshotDir [] (Some [7]) [])))
    ∧ h_files h' !! "snapshot-2-1.tar.gz" = None.
Proof.
  destruct (built_snapshot_is_kept quiet_files small_chunks
    (mkCapturedLocalSnapshot (mkSnapshotMetadata (Some (mkLogId 1 4)) [9]) (mkSnapshotDir [] (Some [7]) []))
    (mkLogId 1 4) (mkHandler FsmRuns.fresh false leader_files) eq_refl (leader_tidy _ _)) as (h' & r & Hrun & Hr).
  exists h'. vm_compute in Hrun. injection Hrun as <- <-. destruct Hr as (_ & _ & Hf & _).
  split; [by vm_compute|]. split; [exact Hf|by vm_compute].
Defined.

Definition source : FileStateMachine :=
  FsmRuns.fresh <| data := {[ [2] := ([20], 1) ]} |> <| sm_last_applied := mkLogId 1 4 |>.

Lemma snapshot_reaches_the_follower_witness :
  ∃ dir sum first rest s' m',
    load_snapshot_data sum_crc true (new_path_manager "snapshot-") small_chunks 1 1
      (mkSnapshotMetadata (Some (mkLogId 1 4)) sum)
      ({[ "snapshot-4-1.tar.gz" := NFile (tar_gz dir) ]} : gmap string (node SnapshotDir)) = Some (Ok (first :: rest))
    ∧ prepare_snapshot_stream sum_crc quiet_receiver (new_path_manager "snapshot-") small_chunks first (GotChunk <$> rest)
        (mkReceiver ∅ (mkSnapshotAssembler 0 0 0) [] None)
      = Some (s', Ok (mkPreparedSnapshot (mkSnapshotMetadata (Some (mkLogId 1 4)) sum) dir))
    ∧ apply_snapshot_from_file (FsmRuns.env_at 0 IoDone) (take 32) (mkSnapshotMetadata (Some (mkLogId 1 4)) sum) dir FsmRuns.fresh
      = Some (m', Ok (Applied (mkLogId 1 4)))
    ∧ data m' = {[ [2] := ([20], 1) ]}.
Proof.
  destruct (generate_snapshot_data (take 32) IoDone source) as [dir [sum|]] eqn:Eg; [|vm_compute in Eg; discriminate].
  edestruct (snapshot_reaches_the_follower sum_crc (take 32) quiet_files quiet_receiver (FsmRuns.env_at 0 IoDone)
    small_chunks small_chunks (mkHandler source false leader_files) dir sum 1 1 ∅ FsmRuns.fresh)
    as (leader' & path & first & rest & s' & m' & Hb & _ & Hload & Hprep & Hinst & Hd & _).
  - apply map_Forall_singleton. by vm_compute.
  - by vm_compute.
  - exact Eg.
  - apply leader_tidy.
  - reflexivity.
  - reflexivity.
  - reflexivity.
  - by vm_compute.
  - by vm_compute.
  - apply quiet_receiver_ok.
  - done.
  - intros d. by rewrite lookup_empty.
  - intros d. by rewrite lookup_empty.
  - reflexivity.
  - reflexivity.
  - reflexivity.
  - reflexivity.
  - exists dir, sum, first, rest, s', m'. split; [|split; [exact Hprep|split; [exact Hinst|exact Hd]]].
    rewrite <-Hload. vm_compute in Eg. injection Eg as <- <-. vm_compute in Hb. injection Hb as <- <-. by vm_compute.
Defined.

Definition example_dir : SnapshotDir := mkSnapshotDir [] (Some [7]) [].

Definition example_metadata : SnapshotMetadata := mkSnapshotMetadata (Some (mkLogId 1 4)) [9].

Definition example_files : gmap string (node SnapshotDir) := {[ "snapshot-4-1.tar.gz" := NFile (tar_gz example_dir) ]}.

(** Its three chunks. *)
Definition example_chunks : list SnapshotChunk :=
  Eval vm_compute in
    match load_snapshot_data sum_crc true (new_path_manager "snapshot-") small_chunks 1 1 example_metadata example_files with
    | Some (Ok cs) => cs
    | _ => []
    end.

Definition example_first : SnapshotChunk :=
  Eval vm_compute in default (mkSnapshotChunk 0 0 0 0 [] None []) (head example_chunks).

Definition example_received : option (@Receiver SnapshotDir * result (PreparedSnapshot SnapshotDir)) :=
  prepare_snapshot_stream sum_crc quiet_receiver (new_path_manager "snapshot-") small_chunks example_first
    (GotChunk <$> tail example_chunks) (mkReceiver ∅ (mkSnapshotAssembler 0 0 0) [] None).

Lemma received_snapshot_is_the_stream_witness :
  ∃ s' rest id, example_received = Some (s', Ok (mkPreparedSnapshot example_metadata example_dir))
    ∧ transferred sum_crc quiet_receiver (new_path_manager "snapshot-") example_first rest id
        (mkReceiver ∅ (mkSnapshotAssembler 0 0 0) [] None) s' (mkPreparedSnapshot example_metadata example_dir).
Proof.
  destruct example_received as [[s' r]|] eqn:E; [|vm_compute in E; discriminate].
  assert (r = Ok (mkPreparedSnapshot example_metadata example_dir)) as -> by by vm_compute in E; injection E as _ <-.
  destruct (received_snapshot_is_the_stream sum_crc quiet_receiver (new_path_manager "snapshot-") small_chunks
    example_first (GotChunk <$> tail example_chunks) (mkReceiver ∅ (mkSnapshotAssembler 0 0 0) [] None) s' _ E) as [_ Hok].
  destruct (Hok _ eq_refl) as (rest & id & _ & Htr). exists s', rest, id. split; [reflexivity|exact Htr].
Defined.

(** The chunks go through the queue one by one and the peer accepts them. *)
Lemma successful_push_transfers_the_archive_witness :
  ∃ p p' (stored : gmap string (node SnapshotDir)), run_push_transfer small_chunks (Ok <$> example_chunks) = Some (inl p)
    ∧ push_run small_chunks 2 [Produce; Produce; Deliver; Deliver; Produce; Produce; Deliver; Produce; Answered (Responded true)] p
      = Some p'
    ∧ pu_delivered p' = example_chunks
    ∧ stored !! final_snapshot_path (new_path_manager "snapshot-") (mkLogId 1 4) = Some (NFile (tar_gz example_dir)).
Proof.
  destruct (run_push_transfer small_chunks (Ok <$> example_chunks)) as [[p|]|] eqn:Ep; [|vm_compute in Ep; discriminate..].
  set (ls := [Produce; Produce; Deliver; Deliver; Produce; Produce; Deliver; Produce; Answered (Responded true)]).
  destruct (push_run small_chunks 2 ls p) as [p'|] eqn:Er;
    [|vm_compute in Ep; injection Ep as <-; vm_compute in Er; discriminate].
  destruct example_received as [[s' r]|] eqn:E; [|vm_compute in E; discriminate].
  assert (r = Ok (mkPreparedSnapshot example_metadata example_dir)) as -> by by vm_compute in E; injection E as _ <-.
  destruct (successful_push_transfers_the_archive sum_crc quiet_receiver (new_path_manager "snapshot-") small_chunks
    (new_path_manager "snapshot-") small_chunks 1 1 2 example_metadata (mkLogId 1 4) example_files (tar_gz example_dir)
    example_chunks p ls p' (rv_files s')) as [Hd Hs].
  - reflexivity.
  - by vm_compute.
  - reflexivity.
  - by vm_compute.
  - by vm_compute.
  - by vm_compute.
  - exact Ep.
  - exact Er.
  - vm_compute in Ep. injection Ep as <-. vm_compute in Er. by injection Er as <-.
  - intros ls1 ls2 p1 Hls Hp1. assert (ls1 = [Produce; Produce; Deliver; Deliver; Produce; Produce; Deliver; Produce]) as ->.
    { unfold ls in Hls. do 8 (destruct ls1; [discriminate|]; injection Hls as <- Hls).
      destruct ls1 as [|x [|y ls1]]; [done|discriminate..]. }
    exists example_first, (tail example_chunks), (mkReceiver ∅ (mkSnapshotAssembler 0 0 0) [] None), s',
      (mkPreparedSnapshot example_metadata example_dir).
    split; [|split; [exact E|reflexivity]]. vm_compute in Ep. injection Ep as <-. vm_compute in Hp1.
    by injection Hp1 as <-.
  - exists p, p', (rv_files s'). split; [reflexivity|]. split; [exact Er|]. split; [exact Hd|exact Hs].
Defined.

(** * Snapshots: where the code does not do what it means to

    Runs of the snapshot code that lose an archive or its metadata, panic on a setting
    that validation accepts, or do not wait where they mean to. *)

Import Fsm FsmRuns.

#[local] Existing Instance SnapshotDir_countable.
#[local] Existing Instance numbered_archive.
#[local] Existing Instance map_to_list_iter.

Definition paths : SnapshotPathManager := new_path_manager "snapshot-".

(** A snapshot at index 9 whose one chunk is no archive. *)
Definition bad_chunk : SnapshotChunk :=
  mkSnapshotChunk 1 2 0 1 (crc_bytes sum_crc [0x1f; 0x8b; 0; 0; 0; 0; 0; 0; 0; 0])
    (Some (mkSnapshotMetadata (Some (mkLogId 1 9)) [])) [0x1f; 0x8b; 0; 0; 0; 0; 0; 0; 0; 0].

(** A transfer that fails after its file was moved leaves the file under the name of a
    snapshot. The next local snapshot, with a lower index, is then the oldest archive:
    the cleanup of its own build removes it, its metadata is published, and no peer can
    be sent a snapshot. *)
Theorem failed_transfer_hides_local_snapshots :
  ∃ s' e, prepare_snapshot_stream (D := SnapshotDir) sum_crc quiet_receiver paths small_chunks bad_chunk []
            (mkReceiver ∅ (mkSnapshotAssembler 0 0 0) [] None) = Some (s', Err e)
    ∧ ∃ h' path, build_local_snapshot quiet_files paths small_chunks
                   (mkCapturedLocalSnapshot example_metadata example_dir) (mkHandler fresh false (rv_files s'))
                 = Some (h', Ok (example_metadata, path))
      ∧ get_latest_snapshot_metadata h' = Some example_metadata
      ∧ h_files h' !! path = None
      ∧ load_snapshot_data sum_crc true paths small_chunks 1 1 example_metadata (h_files h') = Some (Err IoError).
Proof. eexists _, _. split; [by vm_compute|]. eexists _, _. by vm_compute. Qed.

(** [persist_last_snapshot_metadata] is documented to write to durable storage. The
    file-based state machine keeps the metadata in memory: after a restart the node
    knows no snapshot, although its archive is there and its log may be purged. *)
Theorem restart_forgets_the_snapshot :
  ∃ h' path m', build_local_snapshot quiet_files paths small_chunks
      (mkCapturedLocalSnapshot example_metadata example_dir) (mkHandler source false ∅) = Some (h', Ok (example_metadata, path))
    ∧ save_state (env_at 1 IoDone) (h_machine h') = Some (m', Ok tt)
    ∧ ∃ m'', fsm_new (env_at 2 IoDone) (disk m') = Some (m'', Ok tt)
      ∧ last_snapshot_metadata m'' = None ∧ data m'' = data source.
Proof. eexists _, _, _. split; [by vm_compute|]. split; [by vm_compute|]. eexists. by vm_compute. Qed.

Definition with_prefix (prefix : string) : SnapshotConfig.t :=
  SnapshotConfig.mk true 10000 1 prefix 4 100 1 1 100 10000 1 600 10 100 3 300000 30.

(** The prefix of snapshot names is a setting, but the cleanup skips nine bytes of a
    name whatever the prefix is: it reads the indexes 20001 and 10009 as 1 and 9 and
    removes the newer archive, and it panics on the archive of index 5. *)
Theorem other_prefix_breaks_cleanup :
  SnapshotConfig.validate (with_prefix "snap-") = Ok tt
  ∧ (∃ files', cleanup_snapshot (D := SnapshotDir) (mkDirEnv true (λ _, true)) 1 "snap-"
       {[ final_snapshot_path (new_path_manager "snap-") (mkLogId 1 20001) := NFile [];
          final_snapshot_path (new_path_manager "snap-") (mkLogId 1 10009) := NFile [] ]} = Some (files', Ok tt)
     ∧ files' !! final_snapshot_path (new_path_manager "snap-") (mkLogId 1 20001) = None
     ∧ files' !! final_snapshot_path (new_path_manager "snap-") (mkLogId 1 10009) = Some (NFile []))
  ∧ cleanup_snapshot (D := SnapshotDir) (mkDirEnv true (λ _, true)) 1 "snap-"
      {[ final_snapshot_path (new_path_manager "snap-") (mkLogId 1 5) := NFile [] ]} = None.
Proof.
  split; [done|]. split; [|vm_compute; reflexivity].
  exists {[ "snap-10009-1.tar.gz" := NFile [] ]}.
  split; [vm_compute; reflexivity|]. split; vm_compute; reflexivity.
Qed.

Definition rare_yield : SnapshotConfig.t :=
  SnapshotConfig.mk true 10000 1 "snapshot-" 4 100 1 4294967296 100 10000 1 600 10 100 3 300000 30.

(** [receiver_yield_every_n_chunks] is cut to 32 bits before a remainder is taken: a
    validated setting panics on the second chunk of every snapshot. *)
Theorem accepted_yield_setting_panics :
  SnapshotConfig.validate rare_yield = Ok tt
  ∧ prepare_snapshot_stream (D := SnapshotDir) sum_crc quiet_receiver paths rare_yield example_first
      (GotChunk <$> tail example_chunks) (mkReceiver ∅ (mkSnapshotAssembler 0 0 0) [] None) = None.
Proof. by vm_compute. Qed.

(** The number of chunks is cut to 32 bits: an archive of 2^32 chunks is sent as no
    chunk at all, and the push fails as if the snapshot was empty. *)
Theorem huge_archive_is_empty (files : gmap string (node SnapshotDir)) content :
  files !! final_snapshot_path paths (mkLogId 1 4) = Some (NFile content) →
  N.of_nat (length content) = 4294967296 * SnapshotConfig.chunk_size small_chunks →
  load_snapshot_data sum_crc true paths small_chunks 1 1 example_metadata files = Some (Ok [])
  ∧ run_push_transfer small_chunks [] = Some (inr EmptySnapshot).
Proof.
  intros Hf Hlen. split; [|done]. unfold load_snapshot_data, prepare_transfer_meta.
  cbn [example_metadata last_included]. rewrite Hf.
  change (SnapshotConfig.chunk_size small_chunks =? 0) with false.
  cbn [stm_file_path stm_total_chunks stm_chunk_size stm_metadata]. rewrite Hf, Hlen.
  change (div_ceil _ _ mod _) with 0. done.
Qed.

(** When the background task has ended without an error, its error channel is closed and
    the transfer loop goes round without waiting, although its comment says it keeps
    waiting: the step is possible again in the state it leads to. *)
Theorem finished_task_spins (p : Push) :
  pu_task_alive p = false → pu_error p = None → pu_result p = None →
  push_step small_chunks 2 TaskDone p = Some p.
Proof. intros H1 H2 H3. simpl. by rewrite H1, H2, H3. Qed.
