(* ===== verification/Watch.v ===== *)
(** * Watch

    [d-engine-core/src/watch/{manager,mod}.rs]: the registry of watchers, the handles
    their owners hold, the queue of events the state machine fills, and the dispatcher
    that moves events from the queue to the channels of the watchers. The state is one
    record, and every action of a client, of the state machine and of the dispatcher is
    an operation on it; the dispatcher handles one event in one step. A channel keeps
    all it was ever sent and how much of it was received. *)

From stdpp Require Import base tactics numbers option list gmap strings.
From S2P Require Import Prelude Proc Types Events Commands SmWorker.

(** ** Events *)

Record WatchEvent := mkWatchEvent {
  we_event_type : WatchEventType;
  we_key : bytes;
  we_value : bytes;
  we_prev_value : option bytes;
  we_revision : N;
}.

Definition proto_to_event (proto : WatchResponse) (prev_kv : bool) : WatchEvent :=
  mkWatchEvent (wr_event_type proto) (wr_key proto) (wr_value proto)
    (if prev_kv then Some (wr_prev_value proto) else None) (wr_revision proto).

Definition event_to_proto (e : WatchEvent) : WatchResponse :=
  mkWatchResponse (we_key e) (we_value e) (we_event_type e) (we_revision e) (default [] (we_prev_value e)).

Definition make_cancel_event (key : bytes) : WatchEvent := mkWatchEvent Canceled key [] None 0.

Inductive WatchError := LimitExceeded (n : N) | InvalidPrefix.

Definition slash : N := 47.

(** [prefix_segments]: the prefixes of a key that end in a slash. *)
Definition prefix_segments (key : bytes) : list bytes :=
  (λ p : nat * N, take (S p.1) key) <$> filter (λ p, p.2 = slash) (imap pair key).

(** ** Registry, channels and queues *)

Record Watcher := mkWatcher { wt_id : N; wt_prev_kv : bool }.

(** The receiving end of a channel: behind a handle that unregisters when it is dropped,
    on its own, or dropped. *)
Inductive Receiving := Held | Detached | Dropped.

#[global] Instance Receiving_eq_dec : EqDecision Receiving.
Proof. solve_decision. Defined.

(** A channel with the registration it belongs to. [ch_since]: how many events had been
    dispatched when it was registered. *)
Record Channel := mkChannel {
  ch_key : bytes;
  ch_is_prefix : bool;
  ch_prev_kv : bool;
  ch_since : nat;
  ch_log : list WatchEvent;
  ch_read : nat;
  ch_capacity : N;
  ch_receiving : Receiving;
}.

#[global] Instance Channel_settable : Settable Channel := λ c,
  mkChannel (ch_key c) (ch_is_prefix c) (ch_prev_kv c) (ch_since c) (ch_log c) (ch_read c) (ch_capacity c)
    (ch_receiving c).

(** What the dispatcher sends: an event to those who watch its key, or a sign of life to
    all. *)
Inductive Dispatched := DEvent (e : WatchResponse) | DProgress (last_applied : N).

Record WatchSystem := mkWatchSystem {
  ws_exact : gmap bytes (list Watcher);
  ws_prefix : gmap bytes (list Watcher);
  ws_next_id : N;
  ws_total_count : N;
  ws_prev_kv_watcher_count : N;
  ws_watcher_buffer_size : N;
  ws_max_watcher_count : N;
  ws_channels : gmap N Channel;
  ws_unregister : list (N * bytes);
  ws_queue : list WatchResponse;
  ws_queue_size : nat;
  ws_lagged : bool;
  ws_last_applied : N;
  ws_history : list Dispatched;
}.

#[global] Instance WatchSystem_settable : Settable WatchSystem := λ s,
  mkWatchSystem (ws_exact s) (ws_prefix s) (ws_next_id s) (ws_total_count s) (ws_prev_kv_watcher_count s)
    (ws_watcher_buffer_size s) (ws_max_watcher_count s) (ws_channels s) (ws_unregister s) (ws_queue s)
    (ws_queue_size s) (ws_lagged s) (ws_last_applied s) (ws_history s).

Definition new_with_limits (watcher_buffer_size max_watcher_count : N) (queue_size : nat) (last_applied : N)
    : WatchSystem :=
  mkWatchSystem ∅ ∅ 1 0 0 watcher_buffer_size max_watcher_count ∅ [] [] queue_size false last_applied [].

(** ** Registration *)

(** The largest capacity of a channel. *)
Definition max_permits : N := 2305843009213693951.

Definition push_watcher (key : bytes) (w : Watcher) (m : gmap bytes (list Watcher)) : gmap bytes (list Watcher) :=
  <[key := default [] (m !! key) ++ [w]]> m.

(** [do_register]: [None] is the panic of a capacity that is too large. *)
Definition do_register (key : bytes) (is_prefix prev_kv : bool) (s : WatchSystem)
    : option (WatchSystem * (N + WatchError)) :=
  if ws_max_watcher_count s <=? ws_total_count s then Some (s, inr (LimitExceeded (ws_max_watcher_count s))) else
  if max_permits <? ws_watcher_buffer_size s + 1 then None else
  let id := ws_next_id s in
  let w := mkWatcher id prev_kv in
  let ch := mkChannel key is_prefix prev_kv (length (ws_history s)) [] 0 (ws_watcher_buffer_size s + 1) Held in
  let s := s <| ws_total_count ::= N.succ |> <| ws_next_id ::= λ n, wrapping_add_u64 n 1 |>
             <| ws_prev_kv_watcher_count ::= λ n, if prev_kv then n + 1 else n |>
             <| ws_channels ::= <[id := ch]> |> in
  let s := if is_prefix then s <| ws_prefix ::= push_watcher key w |> else s <| ws_exact ::= push_watcher key w |> in
  Some (s, inl id).

Definition register (key : bytes) (prev_kv : bool) (s : WatchSystem) : option (WatchSystem * (N + WatchError)) :=
  do_register key false prev_kv s.

Definition register_prefix (prefix : bytes) (prev_kv : bool) (s : WatchSystem)
    : option (WatchSystem * (N + WatchError)) :=
  if negb (bool_decide (head prefix = Some slash)) || negb (bool_decide (last prefix = Some slash))
  then Some (s, inr InvalidPrefix)
  else do_register prefix true prev_kv s.

(** [watchers.remove(pos)] for the first watcher with the id, with its [prev_kv]. *)
Fixpoint remove_watcher (id : N) (ws : list Watcher) : list Watcher * option bool :=
  match ws with
  | [] => ([], None)
  | w :: ws' =>
      if wt_id w =? id then (ws', Some (wt_prev_kv w))
      else let '(r, found) := remove_watcher id ws' in (w :: r, found)
  end.

(** [remove_if_mut]: the entry goes when its list is empty. *)
Definition unregister_from (id : N) (key : bytes) (m : gmap bytes (list Watcher))
    : gmap bytes (list Watcher) * option bool :=
  match m !! key with
  | None => (m, None)
  | Some ws =>
      let '(ws', found) := remove_watcher id ws in
      (match ws' with [] => delete key m | _ => <[key := ws']> m end, found)
  end.

Definition unregister (id : N) (key : bytes) (s : WatchSystem) : WatchSystem :=
  let '(exact, found) := unregister_from id key (ws_exact s) in
  let s := s <| ws_exact := exact |> in
  let '(s, found) :=
    match found with
    | Some b => (s, Some b)
    | None => let '(prefix, found) := unregister_from id key (ws_prefix s) in (s <| ws_prefix := prefix |>, found)
    end in
  match found with
  | Some had_prev_kv =>
      s <| ws_total_count ::= N.pred |>
        <| ws_prev_kv_watcher_count ::= λ n, if had_prev_kv then N.pred n else n |>
  | None => s
  end.

(** ** Handles *)

(** Dropping a handle drops the receiver and asks for the watcher to be removed. *)
Definition drop_handle (id : N) (s : WatchSystem) : option WatchSystem :=
  match ws_channels s !! id with
  | Some ch =>
      match ch_receiving ch with
      | Held =>
          Some (s <| ws_channels ::= <[id := ch <| ch_receiving := Dropped |> <| ch_read := length (ch_log ch) |>]> |>
                  <| ws_unregister ::= λ q, q ++ [(id, ch_key ch)] |>)
      | _ => None
      end
  | None => None
  end.

Definition into_receiver (id : N) (s : WatchSystem) : option WatchSystem :=
  match ws_channels s !! id with
  | Some ch =>
      match ch_receiving ch with
      | Held => Some (s <| ws_channels ::= <[id := ch <| ch_receiving := Detached |>]> |>)
      | _ => None
      end
  | None => None
  end.

Definition drop_receiver (id : N) (s : WatchSystem) : option WatchSystem :=
  match ws_channels s !! id with
  | Some ch =>
      match ch_receiving ch with
      | Detached =>
          Some (s <| ws_channels ::= <[id := ch <| ch_receiving := Dropped |> <| ch_read := length (ch_log ch) |>]> |>)
      | _ => None
      end
  | None => None
  end.

(** [receiver.recv()] when there is an event. *)
Definition receive (id : N) (s : WatchSystem) : option (WatchSystem * WatchEvent) :=
  match ws_channels s !! id with
  | Some ch =>
      match ch_receiving ch, ch_log ch !! ch_read ch with
      | Dropped, _ | _, None => None
      | _, Some e => Some (s <| ws_channels ::= <[id := ch <| ch_read ::= S |>]> |>, e)
      end
  | None => None
  end.

(** ** The queue of events *)

(** [broadcast::Sender::send]: a full queue drops its oldest event. *)
Definition publish (e : WatchResponse) (s : WatchSystem) : WatchSystem :=
  let q := ws_queue s ++ [e] in
  if (ws_queue_size s <? length q)%nat then s <| ws_queue := tail q |> <| ws_lagged := true |>
  else s <| ws_queue := q |>.

(** ** The dispatcher *)

(** [sender.capacity()]. *)
Definition available (ch : Channel) : N := ch_capacity ch - (N.of_nat (length (ch_log ch)) - N.of_nat (ch_read ch)).

Definition push_event (e : WatchEvent) (ch : Channel) : Channel := ch <| ch_log ::= λ l, l ++ [e] |>.

(** The body of the loop over the watchers of a key: the channel, and whether the
    watcher is dead. *)
Definition offer (event : WatchResponse) (w : Watcher) (ch : Channel) : Channel * bool :=
  if available ch <=? 1 then
    (match ch_receiving ch with
     | Dropped => ch
     | _ => if available ch =? 1 then push_event (make_cancel_event (wr_key event)) ch else ch
     end, true)
  else
    match ch_receiving ch with
    | Dropped => (ch, true)
    | _ => (push_event (proto_to_event event (wt_prev_kv w)) ch, false)
    end.

(** The loop: the channels after it, and the dead watchers. *)
Fixpoint offer_all (event : WatchResponse) (ws : list Watcher) (chs : gmap N Channel) : gmap N Channel * list N :=
  match ws with
  | [] => (chs, [])
  | w :: ws' =>
      match chs !! wt_id w with
      | None => offer_all event ws' chs
      | Some ch =>
          let '(ch', dead) := offer event w ch in
          let '(chs', deads) := offer_all event ws' (<[wt_id w := ch']> chs) in
          (chs', if (dead : bool) then wt_id w :: deads else deads)
      end
  end.

Definition watchers_of (is_prefix : bool) (s : WatchSystem) : gmap bytes (list Watcher) :=
  if is_prefix then ws_prefix s else ws_exact s.

Definition dispatch_to_map (is_prefix : bool) (lookup_key : bytes) (event : WatchResponse) (s : WatchSystem)
    : WatchSystem :=
  match watchers_of is_prefix s !! lookup_key with
  | None => s
  | Some ws =>
      let '(chs, dead) := offer_all event ws (ws_channels s) in
      foldl (λ s id, unregister id lookup_key s) (s <| ws_channels := chs |>) dead
  end.

Definition dispatch_event (event : WatchResponse) (s : WatchSystem) : WatchSystem :=
  let s := dispatch_to_map false (wr_key event) event s in
  let s := foldl (λ s prefix, dispatch_to_map true prefix event s) s (prefix_segments (wr_key event)) in
  s <| ws_history ::= λ h, h ++ [DEvent event] |>.

Section dispatcher.
Context `{!MapIter bytes (list Watcher)}.

Definition broadcast_progress (s : WatchSystem) : WatchSystem :=
  let last_applied := ws_last_applied s in
  let progress := mkWatchResponse [] [] Progress last_applied [] in
  let exact_keys := (map_iter (ws_exact s)).*1 in
  let prefix_keys := (map_iter (ws_prefix s)).*1 in
  let s := foldl (λ s key, dispatch_to_map false key progress s) s exact_keys in
  let s := foldl (λ s key, dispatch_to_map true key progress s) s prefix_keys in
  s <| ws_history ::= λ h, h ++ [DProgress last_applied] |>.

(** One turn of the dispatcher's loop, which is [biased]: removals come first, then the
    queue, where [Lagged] is only logged. [None]: nothing is ready. *)
Definition dispatcher_turn (tick : bool) (s : WatchSystem) : option WatchSystem :=
  match ws_unregister s with
  | (id, key) :: q => Some (unregister id key (s <| ws_unregister := q |>))
  | [] =>
      if ws_lagged s then Some (s <| ws_lagged := false |>) else
      match ws_queue s with
      | event :: q => Some (dispatch_event event (s <| ws_queue := q |>))
      | [] => if tick then Some (broadcast_progress s) else None
      end
  end.

(** ** Runs *)

Inductive WatchLabel :=
  | WRegister (key : bytes) (prev_kv : bool)
  | WRegisterPrefix (prefix : bytes) (prev_kv : bool)
  | WDropHandle (id : N)
  | WIntoReceiver (id : N)
  | WDropReceiver (id : N)
  | WReceive (id : N)
  | WPublish (e : WatchResponse)
  | WTurn (tick : bool).

(** [None]: the step is not possible. *)
Definition watch_step (l : WatchLabel) (s : WatchSystem) : option WatchSystem :=
  match l with
  | WRegister key prev_kv => fst <$> register key prev_kv s
  | WRegisterPrefix prefix prev_kv => fst <$> register_prefix prefix prev_kv s
  | WDropHandle id => drop_handle id s
  | WIntoReceiver id => into_receiver id s
  | WDropReceiver id => drop_receiver id s
  | WReceive id => fst <$> receive id s
  | WPublish e => Some (publish e s)
  | WTurn tick => dispatcher_turn tick s
  end.

Fixpoint watch_run (ls : list WatchLabel) (s : WatchSystem) : option WatchSystem :=
  match ls with
  | [] => Some s
  | l :: ls' => watch_step l s ≫= watch_run ls'
  end.
End dispatcher.
