(* ===== verification/WatchSpec.v ===== *)
(** * Watch: bookkeeping of the registry

    What registering and removing a watcher do to the two maps and the counters, and the
    invariant of the registry: every watcher has the channel it was registered with,
    under the key it was registered for, and the counters count the watchers. *)

From stdpp Require Import base tactics numbers option list gmap strings.
From S2P Require Import Prelude Proc Types Events Commands SmWorker Watch.

(** ** Weights of a map of watchers *)

Definition weight (f : Watcher → N) (ws : list Watcher) : N := foldr (λ w n, f w + n) 0 ws.

Definition cnt (f : Watcher → N) (m : gmap bytes (list Watcher)) : N := map_fold (λ _ ws n, weight f ws + n) 0 m.

Definition one (_ : Watcher) : N := 1.
Definition if_prev (w : Watcher) : N := if wt_prev_kv w then 1 else 0.

(** The list of a key, without an entry if it is empty. *)
Definition set_ws (key : bytes) (ws : list Watcher) (m : gmap bytes (list Watcher)) : gmap bytes (list Watcher) :=
  match ws with [] => delete key m | _ => <[key := ws]> m end.

Definition get_ws (key : bytes) (m : gmap bytes (list Watcher)) : list Watcher := default [] (m !! key).

Lemma weight_app f l1 l2 : weight f (l1 ++ l2) = weight f l1 + weight f l2.
Proof. induction l1 as [|w l1 IH]; simpl; [done|]. rewrite IH. lia. Qed.

Lemma weight_one ws : weight one ws = N.of_nat (length ws).
Proof. induction ws as [|w ws IH]; simpl weight; [done|]. rewrite IH. unfold one. simpl. lia. Qed.

Lemma cnt_insert f key ws m : m !! key = None → cnt f (<[key := ws]> m) = weight f ws + cnt f m.
Proof. intros Hm. unfold cnt. rewrite map_fold_insert_L; [done| |done]. intros. lia. Qed.

Lemma cnt_delete f key m : cnt f m = weight f (get_ws key m) + cnt f (delete key m).
Proof.
  unfold get_ws. destruct (m !! key) as [ws|] eqn:E; simpl.
  - rewrite <-(insert_delete_id m key ws E) at 1. apply cnt_insert, lookup_delete_eq.
  - by rewrite delete_id.
Qed.

Lemma cnt_set f key ws m : cnt f (set_ws key ws m) + weight f (get_ws key m) = cnt f m + weight f ws.
Proof.
  rewrite (cnt_delete f key m). unfold set_ws. destruct ws as [|w ws]; [simpl; lia|].
  rewrite <-insert_delete_eq, cnt_insert by apply lookup_delete_eq. lia.
Qed.

Lemma get_set key key' ws m : get_ws key' (set_ws key ws m) = if decide (key = key') then ws else get_ws key' m.
Proof.
  unfold get_ws, set_ws. case_decide as Hk; subst.
  - destruct ws; [by rewrite lookup_delete_eq|by rewrite lookup_insert_eq].
  - destruct ws; [by rewrite lookup_delete_ne|by rewrite lookup_insert_ne].
Qed.

Lemma set_get key m : (∀ ws, m !! key = Some ws → ws ≠ []) → set_ws key (get_ws key m) m = m.
Proof.
  intros Hne. unfold set_ws, get_ws. destruct (m !! key) as [ws|] eqn:E; simpl; [|by apply delete_id].
  destruct ws; [by destruct (Hne [])|]. by apply insert_id.
Qed.

(** ** Removing a watcher from a list *)

Definition ids (ws : list Watcher) : list N := wt_id <$> ws.

Definition without (id : N) (ws : list Watcher) : list Watcher := filter (λ w, wt_id w ≠ id) ws.

Lemma without_absent id ws : id ∉ ids ws → without id ws = ws.
Proof.
  unfold without. induction ws as [|w ws IH]; [done|]. cbn [ids fmap list_fmap]. rewrite not_elem_of_cons. intros [Hne Hn].
  rewrite filter_cons_True by congruence. by rewrite IH.
Qed.

Lemma remove_watcher_spec id ws :
  NoDup (ids ws) →
  ((id ∉ ids ws) ∧ remove_watcher id ws = (ws, None))
  ∨ ∃ w, w ∈ ws ∧ wt_id w = id ∧ remove_watcher id ws = (without id ws, Some (wt_prev_kv w))
         ∧ ∀ f, weight f ws = f w + weight f (without id ws).
Proof.
  induction ws as [|w ws IH]; intros Hnd; [left; split; [apply not_elem_of_nil|done]|].
  apply NoDup_cons in Hnd as [Hw Hnd]. cbn [remove_watcher]. destruct (N.eqb_spec (wt_id w) id) as [<-|Hne].
  - right. exists w. unfold without. rewrite filter_cons_False by naive_solver. fold (without (wt_id w) ws).
    rewrite without_absent by done. split; [left|]. done.
  - destruct (IH Hnd) as [[Hn ->]|(w' & Hw' & Hid & -> & Hf)].
    + left. split; [|done]. apply not_elem_of_cons. done.
    + right. exists w'. unfold without. rewrite filter_cons_True by done. split; [by right|]. split; [done|].
      split; [done|]. intros f. simpl. rewrite Hf. unfold without. lia.
Qed.

Lemma elem_of_without id id' ws : id' ∈ ids (without id ws) ↔ id' ∈ ids ws ∧ id' ≠ id.
Proof.
  unfold ids, without. rewrite !list_elem_of_fmap. split.
  - intros (w & -> & [Hne Hw]%list_elem_of_filter). split; [by exists w|done].
  - intros [(w & -> & Hw) Hne]. exists w. split; [done|]. by apply list_elem_of_filter.
Qed.

Lemma without_NoDup id ws : NoDup (ids ws) → NoDup (ids (without id ws)).
Proof.
  unfold ids, without. induction ws as [|w ws IH]; [done|]. rewrite fmap_cons. intros [Hw Hnd]%NoDup_cons.
  rewrite filter_cons. case_decide; [|by apply IH]. rewrite fmap_cons. apply NoDup_cons. split; [|by apply IH].
  rewrite list_elem_of_fmap. intros (w' & E & [_ Hin]%list_elem_of_filter). apply Hw. rewrite E. by apply list_elem_of_fmap_2.
Qed.

(** ** The registry *)

(** The watchers of a key in one of the two maps. *)
Definition wl (s : WatchSystem) (p : bool) (key : bytes) : list Watcher := get_ws key (watchers_of p s).

Definition reg (s : WatchSystem) (p : bool) (key : bytes) (id : N) : Prop := id ∈ ids (wl s p key).

Definition set_watchers (p : bool) (m : gmap bytes (list Watcher)) (s : WatchSystem) : WatchSystem :=
  if p then s <| ws_prefix := m |> else s <| ws_exact := m |>.

(** Everything but the maps, the counters and the channels. *)
Definition rest (s : WatchSystem) :=
  (ws_next_id s, ws_watcher_buffer_size s, ws_max_watcher_count s, ws_unregister s, ws_queue s, ws_queue_size s,
   ws_lagged s, ws_last_applied s, ws_history s).

Record registry_inv (s : WatchSystem) : Prop := {
  ri_nonempty p key : watchers_of p s !! key ≠ Some [];
  ri_nodup p key : NoDup (ids (wl s p key));
  ri_link p key w : w ∈ wl s p key →
    ∃ ch, ws_channels s !! wt_id w = Some ch ∧ ch_is_prefix ch = p ∧ ch_key ch = key ∧ ch_prev_kv ch = wt_prev_kv w;
  ri_total : ws_total_count s = cnt one (ws_exact s) + cnt one (ws_prefix s);
  ri_prev : ws_prev_kv_watcher_count s = cnt if_prev (ws_exact s) + cnt if_prev (ws_prefix s);
  ri_max : ws_total_count s <= ws_max_watcher_count s;
}.

Lemma elem_of_ids ws id : id ∈ ids ws → ∃ w, w ∈ ws ∧ wt_id w = id.
Proof. intros (w & -> & Hw)%list_elem_of_fmap. by exists w. Qed.

(** A channel is registered at most at its own key. *)
Lemma reg_home s p key id :
  registry_inv s → reg s p key id → ∃ ch, ws_channels s !! id = Some ch ∧ ch_is_prefix ch = p ∧ ch_key ch = key.
Proof. intros Hi (w & Hw & <-)%elem_of_ids. destruct (ri_link s Hi p key w Hw) as (ch & ? & ? & ? & _). eauto. Qed.

Lemma set_nonempty key ws m key' : (∀ k, m !! k ≠ Some []) → set_ws key ws m !! key' ≠ Some [].
Proof.
  intros Hm. unfold set_ws. destruct (decide (key = key')) as [<-|Hne].
  - destruct ws; [by rewrite lookup_delete_eq|by rewrite lookup_insert_eq].
  - destruct ws; [by rewrite lookup_delete_ne|by rewrite lookup_insert_ne].
Qed.

Lemma wl_set s p key ws p' key' :
  wl (set_watchers p (set_ws key ws (watchers_of p s)) s) p' key'
  = if decide (p = p' ∧ key = key') then ws else wl s p' key'.
Proof.
  unfold wl. destruct p, p'; simpl; rewrite ?get_set; repeat case_decide; naive_solver.
Qed.

(** What removing a watcher does. *)
Definition removed (p : bool) (key : bytes) (id : N) (prev_kv : bool) (s : WatchSystem) : WatchSystem :=
  set_watchers p (set_ws key (without id (wl s p key)) (watchers_of p s)) s
    <| ws_total_count ::= N.pred |>
    <| ws_prev_kv_watcher_count ::= λ n, if prev_kv then N.pred n else n |>.

Lemma unregister_from_spec s p key id :
  registry_inv s →
  (¬ reg s p key id ∧ unregister_from id key (watchers_of p s) = (watchers_of p s, None))
  ∨ ∃ w, w ∈ wl s p key ∧ wt_id w = id
      ∧ unregister_from id key (watchers_of p s)
        = (set_ws key (without id (wl s p key)) (watchers_of p s), Some (wt_prev_kv w)).
Proof.
  intros Hi. pose proof (ri_nonempty s Hi p key) as Hne. pose proof (ri_nodup s Hi p key) as Hnd.
  unfold unregister_from, reg, wl, get_ws in *. destruct (watchers_of p s !! key) as [ws|] eqn:E; simpl in *.
  2: { left. split; [apply not_elem_of_nil|done]. }
  destruct (remove_watcher_spec id ws Hnd) as [[Hn ->]|(w & Hw & Hid & -> & _)].
  - left. split; [done|]. destruct ws as [|w ws]; [done|]. by rewrite insert_id.
  - right. by exists w.
Qed.

Lemma unregister_spec s id key :
  registry_inv s →
  ((∀ p, ¬ reg s p key id) ∧ unregister id key s = s)
  ∨ ∃ p w, w ∈ wl s p key ∧ wt_id w = id ∧ unregister id key s = removed p key id (wt_prev_kv w) s.
Proof.
  intros Hi. unfold unregister.
  destruct (unregister_from_spec s false key id Hi) as [[Hn He]|(w & Hw & Hid & He)]; cbn [watchers_of] in He; rewrite He.
  - destruct (unregister_from_spec s true key id Hi) as [[Hn' He']|(w & Hw & Hid & He')]; cbn [watchers_of] in He'.
    + left. split; [by intros []|]. cbn. rewrite He'. by destruct s.
    + right. exists true, w. split; [done|]. split; [done|]. cbn. rewrite He'. by destruct s.
  - right. exists false, w. split; [done|]. split; [done|]. done.
Qed.

Lemma removed_reg p key id b s p' key' id' :
  registry_inv s → reg s p key id →
  reg (removed p key id b s) p' key' id' ↔ reg s p' key' id' ∧ ¬ (id' = id ∧ key' = key).
Proof.
  intros Hi Hreg. assert (reg (removed p key id b s) p' key' id'
    ↔ id' ∈ ids (if decide (p = p' ∧ key = key') then without id (wl s p key) else wl s p' key')) as ->.
  { unfold reg. rewrite <-(wl_set s p key (without id (wl s p key)) p' key'). unfold removed, wl.
    by destruct p, p'. }
  case_decide as Hd.
  - destruct Hd as [<- <-]. rewrite elem_of_without. unfold reg. naive_solver.
  - split; [|by intros [? _]]. intros Hr. split; [done|]. intros [-> ->]. apply Hd. split; [|done].
    destruct (reg_home s p key id Hi Hreg) as (ch & Hc & Hp & _).
    destruct (reg_home s p' key id Hi Hr) as (ch' & Hc' & Hp' & _). congruence.
Qed.

Lemma removed_inv p key id b s w :
  registry_inv s → w ∈ wl s p key → wt_id w = id → wt_prev_kv w = b → registry_inv (removed p key id b s).
Proof.
  intros Hi Hw Hid Hb. pose proof (ri_nodup s Hi p key) as Hnd.
  destruct (remove_watcher_spec id _ Hnd) as [[Hn _]|(w' & Hw' & Hid' & _ & Hf)].
  { destruct Hn. rewrite <-Hid. by apply list_elem_of_fmap_2. }
  assert (w' = w) as ->.
  { unfold ids in Hnd. apply list_elem_of_lookup in Hw as [i Hi1], Hw' as [j Hj1].
    assert (i = j) as ->; [|congruence]. eapply (NoDup_lookup _ _ _ id Hnd); rewrite list_lookup_fmap, ?Hi1, ?Hj1; simpl; congruence. }
  assert (∀ p' key', wl (removed p key id b s) p' key'
          = if decide (p = p' ∧ key = key') then without id (wl s p key) else wl s p' key') as Hwl.
  { intros p' key'. rewrite <-wl_set. unfold removed, wl. by destruct p, p'. }
  assert (∀ f, cnt f (ws_exact s) + cnt f (ws_prefix s)
     = f w + (cnt f (ws_exact (removed p key id b s)) + cnt f (ws_prefix (removed p key id b s)))) as Hcnt.
  { intros f. pose proof (cnt_set f key (without id (wl s p key)) (watchers_of p s)) as Hc.
    pose proof (Hf f) as Hw1. fold (wl s p key) in Hc. unfold removed. destruct p; simpl in *; lia. }
  pose proof (Hcnt one) as H1. pose proof (Hcnt if_prev) as H2. destruct Hi as [Hne Hnds Hlink Ht Hp Hm].
  constructor.
  - intros p' key'. unfold removed. destruct p, p'; simpl; try apply Hne || (by apply (Hne true)) || (by apply (Hne false));
      apply set_nonempty; [apply (Hne true)|apply (Hne false)].
  - intros p' key'. rewrite Hwl. case_decide; [by apply without_NoDup|done].
  - intros p' key' w1. rewrite Hwl. intros Hin. assert (ws_channels (removed p key id b s) = ws_channels s) as ->
      by by destruct p. apply Hlink. case_decide as Hd; [|done]. destruct Hd as [<- <-].
    by apply list_elem_of_filter in Hin as [_ ?].
  - assert (ws_total_count (removed p key id b s) = N.pred (ws_total_count s)) as -> by by destruct p.
    unfold one at 3 in H1. lia.
  - assert (ws_prev_kv_watcher_count (removed p key id b s)
       = if b then N.pred (ws_prev_kv_watcher_count s) else ws_prev_kv_watcher_count s) as -> by by destruct p.
    unfold if_prev at 3 in H2. rewrite Hb in H2. destruct b; lia.
  - assert (ws_total_count (removed p key id b s) = N.pred (ws_total_count s)
       ∧ ws_max_watcher_count (removed p key id b s) = ws_max_watcher_count s) as [-> ->] by by destruct p. lia.
Qed.

Lemma unregister_inv s id key :
  registry_inv s →
  registry_inv (unregister id key s) ∧ ws_channels (unregister id key s) = ws_channels s
  ∧ rest (unregister id key s) = rest s
  ∧ ∀ p' key' id', reg (unregister id key s) p' key' id' ↔ reg s p' key' id' ∧ ¬ (id' = id ∧ key' = key).
Proof.
  intros Hi. destruct (unregister_spec s id key Hi) as [[Hn ->]|(p & w & Hw & Hid & ->)].
  - split; [done|]. split; [done|]. split; [done|]. intros p' key' id'. split; [|naive_solver].
    intros Hr. split; [done|]. intros [-> ->]. by apply (Hn p').
  - split; [by eapply removed_inv|]. split; [by destruct p|]. split; [by destruct p|].
    intros p' key' id'. apply removed_reg; [done|]. unfold reg. rewrite <-Hid. by apply list_elem_of_fmap_2.
Qed.

(** * Watch: delivery

    What dispatching an event does to each channel: a channel registered under one of
    the keys the event is looked up with is offered the event once, and every other
    channel is left alone. The segments of a key are the prefixes a watcher can be
    registered with, so the lookups find exactly the watchers that match. *)

(** ** Segments *)

Lemma elem_of_prefix_segments key p :
  p ∈ prefix_segments key ↔ last p = Some slash ∧ p `prefix_of` key.
Proof.
  unfold prefix_segments. rewrite list_elem_of_fmap. split.
  - intros ([i b] & -> & [Hb Hin]%list_elem_of_filter). simpl in *. subst b.
    apply list_elem_of_lookup in Hin as [j Hj]. rewrite list_lookup_imap in Hj.
    apply fmap_Some in Hj as (b & Hk & [= -> ->]). split; [|apply prefix_take].
    erewrite take_S_r by done. by rewrite last_snoc.
  - intros [Hl [k ->]]. apply last_Some in Hl as [p' ->]. exists (length p', slash). split.
    + simpl. rewrite take_app_length'; [done|]. rewrite length_app. simpl. lia.
    + apply list_elem_of_filter. split; [done|]. apply list_elem_of_lookup. exists (length p').
      rewrite list_lookup_imap, <-app_assoc. cbn [app]. by rewrite list_lookup_middle.
Qed.

Lemma prefix_segments_NoDup key : NoDup (prefix_segments key).
Proof.
  unfold prefix_segments. apply NoDup_fmap_2_strong.
  - intros [i b] [j c] [_ Hi]%list_elem_of_filter [_ Hj]%list_elem_of_filter. simpl. intros E.
    apply list_elem_of_lookup in Hi as [i' Hi], Hj as [j' Hj]. rewrite list_lookup_imap in Hi, Hj.
    apply fmap_Some in Hi as (b' & Hb & [= -> ->]), Hj as (c' & Hc & [= -> ->]).
    apply lookup_lt_Some in Hb as H1. apply lookup_lt_Some in Hc as H2.
    apply (f_equal length) in E. rewrite !length_take in E. assert (i' = j') as -> by lia. congruence.
  - apply NoDup_filter. apply (NoDup_fmap_1 fst). rewrite fmap_imap. clear.
    assert (∀ n (l : list N), imap (λ i _, (n + i)%nat) l = seq n (length l)) as Hs.
    { intros n l. revert n. induction l as [|x l IH]; intros n; simpl; [done|]. rewrite Nat.add_0_r. f_equal.
      rewrite <-(IH (S n)). apply imap_ext. intros. simpl. lia. }
    pose proof (Hs 0%nat key) as E. simpl in E.
    replace (imap _ key) with (seq 0 (length key)) by (by rewrite <-E; apply imap_ext). apply NoDup_seq.
Qed.

(** ** Offering an event *)

Definition home (ch : Channel) : bool * bytes := (ch_is_prefix ch, ch_key ch).

Definition watcher_of (id : N) (ch : Channel) : Watcher := mkWatcher id (ch_prev_kv ch).

Lemma offer_keeps event w ch :
  home (offer event w ch).1 = home ch ∧ ch_prev_kv (offer event w ch).1 = ch_prev_kv ch
  ∧ ch_since (offer event w ch).1 = ch_since ch.
Proof. unfold offer. by destruct (_ <=? 1), (ch_receiving ch), (available ch =? 1). Qed.

(** The loop over the watchers of a key offers the event to each of their channels. *)
Lemma offer_all_spec event ws chs :
  NoDup (ids ws) → (∀ w, w ∈ ws → ∃ ch, chs !! wt_id w = Some ch ∧ w = watcher_of (wt_id w) ch) →
  (∀ id, (offer_all event ws chs).1 !! id
         = if decide (id ∈ ids ws) then (λ ch, (offer event (watcher_of id ch) ch).1) <$> chs !! id else chs !! id)
  ∧ (∀ id, id ∈ (offer_all event ws chs).2
           ↔ id ∈ ids ws ∧ ∃ ch, chs !! id = Some ch ∧ (offer event (watcher_of id ch) ch).2 = true).
Proof.
  revert chs. induction ws as [|w ws IH]; intros chs Hnd Hch.
  { split; [done|]. intros id. simpl. split; [by intros ?%not_elem_of_nil|by intros [?%not_elem_of_nil _]]. }
  apply NoDup_cons in Hnd as [Hw Hnd]. destruct (Hch w) as (ch & Hc & Ew); [left|]. cbn [offer_all]. rewrite Hc.
  destruct (offer event w ch) as [ch' dead] eqn:Eo. rewrite Ew in Eo.
  destruct (IH (<[wt_id w := ch']> chs) Hnd) as [IH1 IH2].
  { intros w' Hw'. rewrite lookup_insert_ne; [apply Hch; by right|]. intros E. apply Hw. rewrite E.
    by apply list_elem_of_fmap_2. }
  destruct (offer_all event ws (<[wt_id w := ch']> chs)) as [chs' deads] eqn:Eall. simpl in IH1, IH2.
  split; intros id; simpl.
  - rewrite IH1. destruct (decide (id = wt_id w)) as [->|Hne].
    + rewrite decide_False by done. rewrite decide_True by left. rewrite lookup_insert_eq, Hc. simpl. by rewrite Eo.
    + rewrite lookup_insert_ne by done. apply decide_ext. cbn [ids fmap list_fmap].
      rewrite elem_of_cons. naive_solver.
  - assert (id ∈ (if dead then wt_id w :: deads else deads) ↔ (dead = true ∧ id = wt_id w) ∨ id ∈ deads) as ->
      by (destruct dead; rewrite ?elem_of_cons; naive_solver).
    rewrite IH2, elem_of_cons. destruct (decide (id = wt_id w)) as [->|Hne].
    + assert ((offer event (watcher_of (wt_id w) ch) ch).2 = dead) as Ed by by rewrite Eo.
      rewrite lookup_insert_eq, Hc. naive_solver.
    + rewrite lookup_insert_ne by done. naive_solver.
Qed.

(** ** Dispatching to some keys *)

Definition targeted (T : list (bool * bytes)) (s : WatchSystem) (id : N) (ch : Channel) : Prop :=
  home ch ∈ T ∧ reg s (ch_is_prefix ch) (ch_key ch) id.

#[global] Instance targeted_dec T s id ch : Decision (targeted T s id ch).
Proof. unfold targeted, reg. apply _. Defined.

(** The channels registered under the keys [T] are offered the event; the ones that are
    found dead are no longer registered. *)
Record offered (event : WatchResponse) (T : list (bool * bytes)) (s s' : WatchSystem) : Prop := {
  of_rest : rest s' = rest s;
  of_inv : registry_inv s';
  of_channels id : ws_channels s' !! id
    = (λ ch, if decide (targeted T s id ch) then (offer event (watcher_of id ch) ch).1 else ch) <$> ws_channels s !! id;
  of_reg id ch : ws_channels s !! id = Some ch →
    reg s' (ch_is_prefix ch) (ch_key ch) id
    ↔ reg s (ch_is_prefix ch) (ch_key ch) id ∧ (home ch ∈ T → (offer event (watcher_of id ch) ch).2 = false);
}.

Lemma unregister_all key l s :
  registry_inv s →
  let s' := foldl (λ s id, unregister id key s) s l in
  registry_inv s' ∧ ws_channels s' = ws_channels s ∧ rest s' = rest s
  ∧ ∀ p' key' id', reg s' p' key' id' ↔ reg s p' key' id' ∧ ¬ (id' ∈ l ∧ key' = key).
Proof.
  revert s. induction l as [|id l IH]; intros s Hi; simpl.
  - split_and!; try done. intros. split; [intros ?; split; [done|]; by intros [?%not_elem_of_nil _]|by intros [? _]].
  - destruct (unregister_inv s id key Hi) as (Hi1 & Hc1 & Hr1 & Hreg1). destruct (IH _ Hi1) as (Hi2 & Hc2 & Hr2 & Hreg2).
    split; [done|]. split; [congruence|]. split; [congruence|]. intros p' key' id'. rewrite Hreg2, Hreg1, elem_of_cons.
    naive_solver.
Qed.

Lemma channels_inv s chs :
  registry_inv s →
  (∀ id ch, ws_channels s !! id = Some ch → ∃ ch', chs !! id = Some ch' ∧ home ch' = home ch ∧ ch_prev_kv ch' = ch_prev_kv ch) →
  registry_inv (s <| ws_channels := chs |>).
Proof.
  intros [Hne Hnd Hl Ht Hp Hm] Hc. constructor; try done.
  intros p key w Hw. destruct (Hl p key w Hw) as (ch & Hch & <- & <- & Hpk).
  destruct (Hc _ _ Hch) as (ch' & Hch' & [= Hh1 Hh2] & Hp'). exists ch'. simpl. split_and!; try done. congruence.
Qed.

Lemma dispatch_offered event p key s :
  registry_inv s → offered event [(p, key)] s (dispatch_to_map p key event s).
Proof.
  intros Hi. unfold dispatch_to_map. destruct (watchers_of p s !! key) as [ws|] eqn:Ew.
  2: { assert (∀ id ch, ¬ targeted [(p, key)] s id ch) as Hn.
       { intros id ch [[= <- <-]%list_elem_of_singleton Hr]. unfold reg, wl, get_ws in Hr. rewrite Ew in Hr.
         by apply not_elem_of_nil in Hr. }
       constructor; try done.
       - intros id. destruct (ws_channels s !! id) as [ch|]; [|done]. simpl. by rewrite decide_False by apply Hn.
       - intros id ch Hc. split; [|by intros [? _]]. intros Hr. split; [done|]. intros Ht. by destruct (Hn id ch). }
  assert (wl s p key = ws) as Ewl by (unfold wl, get_ws; by rewrite Ew).
  destruct (offer_all_spec event ws (ws_channels s)) as [Hchs Hdead].
  { rewrite <-Ewl. apply (ri_nodup s Hi). }
  { intros w Hw. rewrite <-Ewl in Hw. destruct (ri_link s Hi p key w Hw) as (ch & Hc & _ & _ & Hpk). exists ch.
    split; [done|]. unfold watcher_of. rewrite Hpk. by destruct w. }
  destruct (offer_all event ws (ws_channels s)) as [chs dead]. simpl in Hchs, Hdead.
  assert (∀ id ch, ws_channels s !! id = Some ch → id ∈ ids ws ↔ targeted [(p, key)] s id ch) as Htgt.
  { intros id ch Hc. unfold targeted. rewrite list_elem_of_singleton. split.
    - intros Hin. assert (reg s p key id) as Hr by (unfold reg; by rewrite Ewl).
      destruct (reg_home s p key id Hi Hr) as (ch' & Hc' & <- & <-). rewrite Hc in Hc'. injection Hc' as <-. done.
    - intros [[= <- <-] Hr]. unfold reg in Hr. by rewrite Ewl in Hr. }
  assert (registry_inv (s <| ws_channels := chs |>)) as Hi1.
  { apply channels_inv; [done|]. intros id ch Hc. rewrite Hchs, Hc. destruct (offer_keeps event (watcher_of id ch) ch) as (? & ? & _).
    case_decide; eauto. }
  destruct (unregister_all key dead _ Hi1) as (Hi2 & Hc2 & Hr2 & Hreg2). constructor; [done|done| |].
  - intros id. rewrite Hc2. simpl. rewrite Hchs. destruct (ws_channels s !! id) as [ch|] eqn:Ec; simpl; [|by case_decide].
    destruct (decide (targeted [(p, key)] s id ch)) as [Ht|Ht]; rewrite <-(Htgt id ch Ec) in Ht;
      [by rewrite decide_True|by rewrite decide_False].
  - intros id ch Ec. rewrite Hreg2, Hdead. split.
    + intros [Hr Hn]. split; [done|]. intros Hh. destruct (offer event (watcher_of id ch) ch).2 eqn:Eo; [|done].
      destruct Hn. split; [|by apply list_elem_of_singleton in Hh as [= _ ->]]. split; [|by exists ch]. by apply (Htgt id ch Ec).
    + intros [Hr Hf]. split; [done|]. intros [[Hin (ch' & Hc' & Hd)] _]. rewrite Ec in Hc'. injection Hc' as <-.
      apply (Htgt id ch Ec) in Hin as [Hh _]. rewrite Hf in Hd by done. done.
Qed.

Lemma offered_trans event T1 T2 s s1 s2 :
  (∀ t, t ∈ T1 → t ∉ T2) → offered event T1 s s1 → offered event T2 s1 s2 → offered event (T1 ++ T2) s s2.
Proof.
  intros Hdis [Hr1 Hi1 Hc1 Hg1] [Hr2 Hi2 Hc2 Hg2].
  assert (∀ id ch, ws_channels s !! id = Some ch → home ch ∈ T2 →
    ws_channels s1 !! id = Some ch ∧ (reg s1 (ch_is_prefix ch) (ch_key ch) id ↔ reg s (ch_is_prefix ch) (ch_key ch) id)) as H2.
  { intros id ch Hc Hin. assert (home ch ∉ T1) as Hn by (intros ?; by eapply Hdis). split.
    - rewrite Hc1, Hc. simpl. rewrite decide_False; [done|]. by intros [? _].
    - rewrite (Hg1 id ch Hc). naive_solver. }
  constructor; [congruence|done| |].
  - intros id. rewrite Hc2, Hc1. destruct (ws_channels s !! id) as [ch|] eqn:Ec; [|done]. simpl. f_equal.
    destruct (decide (home ch ∈ T2)) as [Hin|Hn].
    + destruct (H2 id ch Ec Hin) as [Hch Hrg]. rewrite (decide_False (P := targeted T1 s id ch)).
      2: { intros [? _]. by eapply Hdis. }
      apply decide_ext. unfold targeted. rewrite elem_of_app, Hrg. naive_solver.
    + rewrite (decide_False (P := targeted T2 s1 id _)).
      2: { intros [Hin _]. apply Hn. revert Hin. case_decide; [|done].
           by rewrite (proj1 (offer_keeps event (watcher_of id ch) ch)). }
      apply decide_ext. unfold targeted. rewrite elem_of_app. naive_solver.
  - intros id ch Hc. rewrite elem_of_app. destruct (decide (home ch ∈ T2)) as [Hin|Hn].
    + destruct (H2 id ch Hc Hin) as [Hch Hrg]. rewrite (Hg2 id ch Hch), Hrg.
      assert (home ch ∉ T1) by (intros ?; by eapply Hdis). naive_solver.
    + assert (∃ ch1, ws_channels s1 !! id = Some ch1 ∧ home ch1 = home ch) as (ch1 & Hch1 & Hh).
      { rewrite Hc1, Hc. simpl. eexists. split; [done|]. case_decide; [|done]. apply offer_keeps. }
      pose proof (Hg2 id ch1 Hch1) as H. rewrite Hh in H. injection Hh as Hp Hk. rewrite Hp, Hk in H.
      rewrite H, (Hg1 id ch Hc). naive_solver.
Qed.

Definition dispatch_all (event : WatchResponse) (T : list (bool * bytes)) (s : WatchSystem) : WatchSystem :=
  foldl (λ s t, dispatch_to_map t.1 t.2 event s) s T.

Lemma dispatch_all_offered event T s : registry_inv s → NoDup T → offered event T s (dispatch_all event T s).
Proof.
  revert s. induction T as [|[p key] T IH]; intros s Hi Hnd.
  - constructor; try done.
    + intros id. cbn [dispatch_all foldl]. destruct (ws_channels s !! id); [|done].
      cbn [fmap option_fmap option_map]. rewrite decide_False; [done|]. by intros [?%not_elem_of_nil _].
    + intros id ch _. split; [intros ?; split; [done|by intros ?%not_elem_of_nil]|by intros [? _]].
  - apply NoDup_cons in Hnd as [Hn Hnd]. pose proof (dispatch_offered event p key s Hi) as H1.
    apply (offered_trans event [(p, key)] T s (dispatch_to_map p key event s)); [by intros t ->%list_elem_of_singleton|exact H1|].
    apply IH; [apply H1|done].
Qed.

(** ** The two kinds of dispatch *)

Definition event_targets (event : WatchResponse) : list (bool * bytes) :=
  (false, wr_key event) :: (pair true <$> prefix_segments (wr_key event)).

Lemma foldl_dispatch event p keys s :
  foldl (λ s key, dispatch_to_map p key event s) s keys = dispatch_all event (pair p <$> keys) s.
Proof. revert s. induction keys as [|key keys IH]; intros s; [done|]. simpl. by rewrite IH. Qed.

Lemma dispatch_all_app event T1 T2 s : dispatch_all event (T1 ++ T2) s = dispatch_all event T2 (dispatch_all event T1 s).
Proof. apply foldl_app. Qed.

Lemma dispatch_event_all event s :
  dispatch_event event s = (dispatch_all event (event_targets event) s) <| ws_history ::= λ h, h ++ [DEvent event] |>.
Proof. unfold dispatch_event. by rewrite foldl_dispatch. Qed.

Lemma event_targets_NoDup event : NoDup (event_targets event).
Proof.
  apply NoDup_cons. split; [by intros (k & E & _)%list_elem_of_fmap|].
  apply NoDup_fmap_2; [by intros ?? [=]|apply prefix_segments_NoDup].
Qed.

(** The watchers an event is for. *)
Definition matches (ch : Channel) (d : Dispatched) : Prop :=
  match d with
  | DEvent e => if ch_is_prefix ch then ch_key ch `prefix_of` wr_key e else ch_key ch = wr_key e
  | DProgress _ => True
  end.

#[global] Instance matches_dec ch d : Decision (matches ch d).
Proof. destruct d; simpl; [destruct (ch_is_prefix ch)|]; apply _. Defined.

(** A registered prefix ends in a slash. *)
Definition slashed (ch : Channel) : Prop := ch_is_prefix ch = true → last (ch_key ch) = Some slash.

Lemma home_in_targets ch event : slashed ch → home ch ∈ event_targets event ↔ matches ch (DEvent event).
Proof.
  intros Hs. unfold event_targets, home, matches. rewrite elem_of_cons, list_elem_of_fmap.
  destruct (ch_is_prefix ch) eqn:Ep.
  - split.
    + intros [[=]|(k & [= ->] & Hk)]. by apply elem_of_prefix_segments in Hk as [_ ?].
    + intros Hp. right. exists (ch_key ch). split; [done|]. apply elem_of_prefix_segments. split; [by apply Hs|done].
  - split; [by intros [[= ->]|(k & [=] & _)]|]. intros ->. by left.
Qed.

Section progress.
Context `{!MapIter bytes (list Watcher)}.

Definition progress_targets (s : WatchSystem) : list (bool * bytes) :=
  (pair false <$> (map_iter (ws_exact s)).*1) ++ (pair true <$> (map_iter (ws_prefix s)).*1).

Lemma progress_targets_NoDup s : NoDup (progress_targets s).
Proof.
  apply NoDup_app. split; [|split].
  - apply NoDup_fmap_2; [by intros ?? [=]|apply map_iter_NoDup].
  - intros t (k & -> & _)%list_elem_of_fmap (k' & [=] & _)%list_elem_of_fmap.
  - apply NoDup_fmap_2; [by intros ?? [=]|apply map_iter_NoDup].
Qed.

(** A sign of life goes to every registered channel. *)
Lemma progress_targets_all s id ch :
  reg s (ch_is_prefix ch) (ch_key ch) id → home ch ∈ progress_targets s.
Proof.
  unfold reg, wl, get_ws, home, progress_targets. intros Hr. rewrite elem_of_app.
  destruct (watchers_of (ch_is_prefix ch) s !! ch_key ch) as [ws|] eqn:E; [|by apply not_elem_of_nil in Hr].
  destruct (ch_is_prefix ch); [right|left]; apply list_elem_of_fmap; exists (ch_key ch); (split; [done|]);
    apply list_elem_of_fmap; exists (ch_key ch, ws); (split; [done|]); by apply elem_of_map_iter.
Qed.

Definition progress_event (s : WatchSystem) : WatchResponse := mkWatchResponse [] [] Progress (ws_last_applied s) [].

Lemma broadcast_progress_all s :
  broadcast_progress s
  = (dispatch_all (progress_event s) (progress_targets s) s) <| ws_history ::= λ h, h ++ [DProgress (ws_last_applied s)] |>.
Proof. unfold broadcast_progress, progress_targets. by rewrite !foldl_dispatch, dispatch_all_app. Qed.
End progress.
