(* ===== verification/KvMachine.v ===== *)
(** * What a key-value state machine promises

    The contract of [apply_chunk] and [get] of the trait [StateMachine]
    ([d-engine-core/src/storage/state_machine.rs]) with the documented meaning of the
    commands ([d-engine-core/src/command.rs]): the commands of a chunk take effect one
    after the other on a map from keys to values, and the results are theirs. Clients of
    a state machine are proved against this interface; the file-based state machine
    implements it. *)

From stdpp Require Import base tactics numbers option list gmap strings.
From S2P Require Import Prelude Proc Types Events Codec Commands TtlLease FileStateMachine FsmSpec FsmRecovery SmWorker.

Abbreviation values := (gmap bytes bytes).

(** ** Reference semantics *)

Definition kv_batch_op (m : values) (o : Cmd.BatchOp) : values :=
  match o with
  | Cmd.BInsert key value => <[key := value]> m
  | Cmd.BDelete key => delete key m
  end.

(** The new map, and whether the command succeeded. *)
Definition kv_exec (m : values) (e : ApplyEntry) : values * bool :=
  match ae_command e with
  | Cmd.Noop => (m, true)
  | Cmd.Insert key value _ => (<[key := value]> m, true)
  | Cmd.Delete key => (delete key m, true)
  | Cmd.CompareAndSwap key expected value =>
      if decide (m !! key = expected) then (<[key := value]> m, true) else (m, false)
  | Cmd.Batch ops => (foldl kv_batch_op m ops, true)
  end.

Fixpoint kv_serial (m : values) (chunk : list ApplyEntry) : values * list ApplyResult :=
  match chunk with
  | [] => (m, [])
  | e :: chunk' =>
      let '(m1, ok) := kv_exec m e in
      let '(m2, rs) := kv_serial m1 chunk' in
      (m2, mkApplyResult (ae_index e) ok :: rs)
  end.

Class KvMachine (S D : Type) `{!StateMachine S D} := {
  sm_values : S → values;
  (** it can be read: it is not stopped or being restored, and its storage answers *)
  sm_readable : S → Prop;
  sm_read_values key s : sm_readable s → sm_read key s = sm_values s !! key;
  sm_apply_serial chunk s s' results :
    sm_apply chunk s = Some (s', Ok results) → kv_serial (sm_values s) chunk = (sm_values s', results);
}.

(** Two state machines with the same values that apply the same chunk give the same
    results and have the same values again. *)
Lemma machines_agree {S1 D1 S2 D2 : Type} `{!StateMachine S1 D1} `{!KvMachine S1 D1} `{!StateMachine S2 D2}
    `{!KvMachine S2 D2} chunk (s1 s1' : S1) (s2 s2' : S2) r1 r2 :
  sm_values s1 = sm_values s2 → sm_apply chunk s1 = Some (s1', Ok r1) → sm_apply chunk s2 = Some (s2', Ok r2) →
  r1 = r2 ∧ sm_values s1' = sm_values s2'.
Proof.
  intros E H1%sm_apply_serial H2%sm_apply_serial. rewrite E, H2 in H1. by simplify_eq.
Qed.

(** ** The file-based state machine *)

Section file.
Import Fsm.
Context `{!LeaseCodec} `{!MapIter bytes N} `{!MapIter bytes (bytes * N)} (env : SmEnv) (sha256 : bytes → bytes).

(** Values without the terms they were written in. *)
Definition plain (m : kv) : values := fst <$> m.

Lemma plain_exec m e : kv_exec (plain m) e = (plain (exec m e).1, (exec m e).2).
Proof.
  unfold kv_exec, exec, plain. destruct (ae_command e) as [|key value ttl|key|key expected value|ops]; simpl.
  - done.
  - by rewrite fmap_insert.
  - by rewrite fmap_delete.
  - rewrite lookup_fmap. destruct (m !! key) as [[c t]|], expected as [x|]; simpl; try done.
    + case_decide; case_bool_decide; try congruence; simpl; by rewrite ?fmap_insert.
    + by rewrite fmap_insert.
  - f_equal. revert m. induction ops as [|o ops IH]; intros m; simpl; [done|]. rewrite <-IH. f_equal.
    destruct o; simpl; by rewrite ?fmap_insert, ?fmap_delete.
Qed.

Lemma plain_serial m chunk : kv_serial (plain m) chunk = (plain (serial m chunk).1, (serial m chunk).2).
Proof.
  revert m. induction chunk as [|e chunk IH]; intros m; simpl; [done|]. rewrite plain_exec.
  destruct (exec m e) as [m1 ok]. simpl. rewrite IH. by destruct (serial m1 chunk).
Qed.

(** A chunk that is applied takes effect serially, on the map and on the leases. *)
Lemma apply_chunk_serial chunk m m' results :
  apply_chunk env chunk m = Some (m', Ok results) →
  data m' = (serial (data m) chunk).1 ∧ results = (serial (data m) chunk).2
  ∧ lease_serial (lease_clock env) 0 chunk (lease m) = Some (lease m')
  ∧ sm_last_applied m' = chunk_id chunk (sm_last_applied m).
Proof.
  rewrite apply_chunk_run. destruct (check_order None chunk); [|done].
  destruct (wal_bytes _ _ _ _) as [buf|]; [|done]. destruct (append_wal_run env buf m) as (w & [[]|e] & -> & _); [|done].
  destruct (lease_serial _ _ _ _) as [l|]; [|done]. cbn [mbind option_bind]. cbv zeta. set (m2 := applied chunk l _).
  assert (data m2 = (serial (data m) chunk).1 ∧ lease m2 = l ∧ sm_last_applied m2 = chunk_id chunk (sm_last_applied m))
    as (Hd & Hl & Hid) by done.
  destruct (should_checkpoint env m2).
  - destruct (checkpoint_run env m2) as (m3 & [[]|e] & -> & Hd3 & Hl3 & Hid3 & _); [|done]. intros [= <- <-].
    rewrite Hd3, Hl3, Hid3. by rewrite Hl.
  - intros [= <- <-]. by rewrite Hl.
Qed.

Definition file_machine : StateMachine FileStateMachine SnapshotDir := {|
  sm_apply := apply_chunk env;
  sm_applied_id := sm_last_applied;
  sm_read := sm_get;
  sm_install := apply_snapshot_from_file env sha256;
  sm_generate _ m := let '(d, r) := generate_snapshot_data sha256 IoDone m in
                     (m, let? sum := r in Ok (d, sum));
|}.

#[global] Instance file_kv_machine : @KvMachine FileStateMachine SnapshotDir file_machine.
Proof.
  refine {| sm_values m := plain (data m); sm_readable _ := True |}.
  - intros key m _. unfold sm_read, file_machine, sm_get, plain. by rewrite lookup_fmap.
  - intros chunk m m' results (Hd & -> & _)%apply_chunk_serial. by rewrite plain_serial, Hd.
Defined.
End file.
