(* ===== verification/WatchProps.v ===== *)
(** * Correctness of watch

    The properties of [d-engine-core/src/watch/manager.rs]: a watcher receives every
    dispatched event that matches, in order and without a gap, until it is cancelled or
    given up; a watcher that is ended for a full buffer is told so; the counters of the
    registry count the watchers; and the events of an applied chunk replay its effect. *)

From stdpp Require Import base tactics numbers option list gmap strings.
From S2P Require Import Prelude Proc Types Events Codec Commands TtlLease FileStateMachine FsmProps SmWorker PipelineRuns KvMachine Watch WatchSpec.

(** ** What a channel should hold *)

Definition dispatched (d : Dispatched) : WatchResponse :=
  match d with DEvent e => e | DProgress last_applied => mkWatchResponse [] [] Progress last_applied [] end.

(** The events dispatched since the registration that match. *)
Definition expected (ch : Channel) (history : list Dispatched) : list WatchEvent :=
  (λ d, proto_to_event (dispatched d) (ch_prev_kv ch)) <$> filter (matches ch) (drop (ch_since ch) history).

Lemma expected_snoc ch h d :
  (ch_since ch <= length h)%nat →
  expected ch (h ++ [d])
  = expected ch h ++ (if decide (matches ch d) then [proto_to_event (dispatched d) (ch_prev_kv ch)] else []).
Proof.
  intros Hs. unfold expected. rewrite drop_app_le, filter_app, fmap_app by done. f_equal.
  rewrite filter_cons. by case_decide.
Qed.

Lemma expected_ext ch ch' h :
  home ch' = home ch → ch_prev_kv ch' = ch_prev_kv ch → ch_since ch' = ch_since ch → expected ch' h = expected ch h.
Proof.
  intros [= Hp Hk] Hpk Hs. unfold expected. rewrite Hpk, Hs. f_equal. apply list_filter_iff. intros d.
  unfold matches. by rewrite Hp, Hk.
Qed.

(** ** The state of a channel *)

Definition registered (s : WatchSystem) (id : N) (ch : Channel) : Prop := reg s (ch_is_prefix ch) (ch_key ch) id.

(** Receiving; given up by its owner; or ended, with the sentinel as the last event. *)
Inductive chan_state (r : Prop) (h : list Dispatched) (ch : Channel) : Prop :=
  | CDelivering : ch_receiving ch ≠ Dropped → r → 1 <= available ch → ch_log ch = expected ch h → chan_state r h ch
  | CGivenUp upto : ch_receiving ch = Dropped → (ch_since ch <= upto <= length h)%nat →
      (ch_log ch = expected ch (take upto h) ∨ ∃ key, ch_log ch = expected ch (take upto h) ++ [make_cancel_event key]) →
      chan_state r h ch
  | CCancelled upto key : ch_receiving ch ≠ Dropped → ¬ r → (ch_since ch <= upto <= length h)%nat →
      ch_log ch = expected ch (take upto h) ++ [make_cancel_event key] → chan_state r h ch.

Record chan_ok (s : WatchSystem) (id : N) (ch : Channel) : Prop := {
  co_fresh : id < ws_next_id s;
  co_slashed : slashed ch;
  co_since : (ch_since ch <= length (ws_history s))%nat;
  co_read : (ch_read ch <= length (ch_log ch))%nat;
  co_buffer : N.of_nat (length (ch_log ch)) - N.of_nat (ch_read ch) <= ch_capacity ch;
  co_state : chan_state (registered s id ch) (ws_history s) ch;
}.

Record watch_inv (s : WatchSystem) : Prop := {
  wv_registry : registry_inv s;
  wv_channels id ch : ws_channels s !! id = Some ch → chan_ok s id ch;
  wv_unregister id key : (id, key) ∈ ws_unregister s → ∃ ch, ws_channels s !! id = Some ch ∧ ch_receiving ch = Dropped;
}.

(** The state of a channel depends on whether it is registered only while it delivers. *)
Lemma chan_state_mono (r r' : Prop) h ch :
  (ch_receiving ch ≠ Dropped → r ↔ r') → chan_state r h ch → chan_state r' h ch.
Proof.
  intros Hr [Hd Hrr Ha Hl|upto Hd Hu Hl|upto key Hd Hn Hu Hl].
  - apply CDelivering; [done|by apply Hr|done|done].
  - by eapply CGivenUp.
  - eapply CCancelled; [done| |done|done]. by rewrite <-Hr.
Qed.

(** ** Offering an event *)

Lemma offer_live event id ch :
  ch_receiving ch ≠ Dropped → 1 <= available ch →
  ((offer event (watcher_of id ch) ch).2 = false ∧ 2 <= available ch
   ∧ (offer event (watcher_of id ch) ch).1 = push_event (proto_to_event event (ch_prev_kv ch)) ch)
  ∨ ((offer event (watcher_of id ch) ch).2 = true ∧ available ch = 1
     ∧ (offer event (watcher_of id ch) ch).1 = push_event (make_cancel_event (wr_key event)) ch).
Proof.
  intros Hd Ha. unfold offer. destruct (N.leb_spec (available ch) 1).
  - right. assert (available ch = 1) as E by lia. rewrite E. by destruct (ch_receiving ch).
  - left. split; [by destruct (ch_receiving ch)|]. split; [lia|by destruct (ch_receiving ch)].
Qed.

Lemma offer_dropped event w ch : ch_receiving ch = Dropped → offer event w ch = (ch, true).
Proof. intros Hd. unfold offer. rewrite Hd. by destruct (_ <=? 1). Qed.

Lemma take_snoc_le {A} (h : list A) d n : (n <= length h)%nat → take n (h ++ [d]) = take n h.
Proof. intros Hn. by rewrite take_app_le. Qed.

(** One more dispatched event, for a channel that was offered it if it matches. *)
Lemma chan_dispatch (r r' : Prop) h d id ch ch' :
  (ch_since ch <= length h)%nat → chan_state r h ch →
  (r → matches ch d → ch' = (offer (dispatched d) (watcher_of id ch) ch).1
       ∧ (r' ↔ (offer (dispatched d) (watcher_of id ch) ch).2 = false)) →
  (r → ¬ matches ch d → ch' = ch ∧ (r' ↔ r)) → (¬ r → ch' = ch ∧ ¬ r') → (r ∨ ¬ r) →
  chan_state r' (h ++ [d]) ch'.
Proof.
  intros Hs Hst Hm Hnm Hnr Hdec. destruct Hst as [Hd Hr Ha Hl|upto Hd Hu Hl|upto key Hd Hn Hu Hl].
  - destruct (decide (matches ch d)) as [Hmd|Hmd].
    + destruct (Hm Hr Hmd) as [-> Hr']. destruct (offer_live (dispatched d) id ch Hd Ha) as [(Ho & Ha2 & ->)|(Ho & Ha1 & ->)].
      * apply CDelivering; [done|by apply Hr'| |].
        -- unfold available in *. simpl. rewrite length_app. simpl. lia.
        -- simpl. rewrite Hl. rewrite (expected_ext ch (push_event _ ch)) by done. rewrite expected_snoc by done.
           by rewrite decide_True.
      * eapply (CCancelled _ _ _ (length h) (wr_key (dispatched d))); [done| | |].
        -- rewrite Hr', Ho. done.
        -- rewrite length_app. simpl. lia.
        -- simpl. rewrite Hl, take_snoc_le, take_ge by lia. by rewrite (expected_ext ch (push_event _ ch)).
    + destruct (Hnm Hr Hmd) as [-> Hr']. apply CDelivering; [done|by apply Hr'|done|].
      rewrite expected_snoc, decide_False, app_nil_r by done. done.
  - assert (ch' = ch) as ->.
    { destruct Hdec as [Hr|Hr]; [|by apply Hnr]. destruct (decide (matches ch d)) as [Hmd|Hmd]; [|by apply Hnm].
      destruct (Hm Hr Hmd) as [-> _]. by rewrite offer_dropped. }
    apply (CGivenUp _ _ _ upto); [done|rewrite length_app; lia|]. by rewrite take_snoc_le by lia.
  - destruct (Hnr Hn) as [-> Hn']. eapply (CCancelled _ _ _ upto key); [done|done|rewrite length_app; lia|].
    by rewrite take_snoc_le by lia.
Qed.

Lemma offer_buffer event id ch :
  (ch_read ch <= length (ch_log ch))%nat → N.of_nat (length (ch_log ch)) - N.of_nat (ch_read ch) <= ch_capacity ch →
  let ch' := (offer event (watcher_of id ch) ch).1 in
  (ch_read ch' <= length (ch_log ch'))%nat ∧ N.of_nat (length (ch_log ch')) - N.of_nat (ch_read ch') <= ch_capacity ch'.
Proof.
  intros Hr Hb. unfold offer. destruct (N.leb_spec (available ch) 1) as [Ha|Ha].
  - destruct (N.eqb_spec (available ch) 1) as [Ha1|]; [|by destruct (ch_receiving ch)]. unfold available in Ha1.
    destruct (ch_receiving ch); simpl; rewrite ?length_app; simpl; lia.
  - unfold available in Ha. destruct (ch_receiving ch); simpl; rewrite ?length_app; simpl; lia.
Qed.

(** ** Steps *)

Lemma rest_fields s s' :
  rest s' = rest s →
  ws_next_id s' = ws_next_id s ∧ ws_history s' = ws_history s ∧ ws_unregister s' = ws_unregister s
  ∧ ws_max_watcher_count s' = ws_max_watcher_count s.
Proof. unfold rest. intros [= ? ? ? ? ? ? ? ? ?]. done. Qed.

(** Dispatching to the keys of the matching watchers. *)
Lemma dispatch_inv d T s s1 :
  watch_inv s → offered (dispatched d) T s s1 →
  (∀ id ch, ws_channels s !! id = Some ch → registered s id ch → home ch ∈ T ↔ matches ch d) →
  watch_inv (s1 <| ws_history ::= λ h, h ++ [d] |>).
Proof.
  intros [Hreg Hch Hun] Hof HT. destruct (rest_fields _ _ (of_rest _ _ _ _ Hof)) as (Hnext & Hhist & Hunreg & Hmax).
  constructor.
  - destruct (of_inv _ _ _ _ Hof) as [H1 H2 H3 H4 H5 H6]. by constructor.
  - intros id ch' Hc'. simpl in Hc'. rewrite (of_channels _ _ _ _ Hof) in Hc'.
    apply fmap_Some in Hc' as (ch & Hc & ->). destruct (Hch id ch Hc) as [Hf Hs Hsi Hrd Hb Hst].
    set (ch' := if decide _ then _ else _).
    assert (home ch' = home ch ∧ ch_prev_kv ch' = ch_prev_kv ch ∧ ch_since ch' = ch_since ch) as ([= Hp Hk] & Hpk & Hsin).
    { unfold ch'. case_decide; [apply offer_keeps|done]. }
    constructor; simpl.
    + by rewrite Hnext.
    + unfold slashed. by rewrite Hp, Hk.
    + rewrite Hsin, length_app, Hhist. lia.
    + unfold ch'. case_decide; [by apply offer_buffer|done].
    + unfold ch'. case_decide; [by apply offer_buffer|done].
    + rewrite Hhist. pose proof (of_reg _ _ _ _ Hof id ch Hc) as Hrg. fold (registered s id ch) in Hrg.
      assert (registered (s1 <| ws_history ::= λ h, h ++ [d] |>) id ch' ↔ reg s1 (ch_is_prefix ch) (ch_key ch) id) as Hr'.
      { unfold registered. by rewrite Hp, Hk. }
      pose proof (HT id ch Hc) as HTc.
      apply (chan_dispatch (registered s id ch) _ (ws_history s) d id ch); [done|done| | | |].
      * intros Hr Hm. rewrite Hr', Hrg. unfold ch'. rewrite decide_True; [|by split; [apply HTc|]]. naive_solver.
      * intros Hr Hm. rewrite Hr', Hrg. unfold ch'. rewrite decide_False; [naive_solver|]. intros [Hin _]. by apply Hm, HTc.
      * intros Hr. rewrite Hr', Hrg. unfold ch'. rewrite decide_False; [naive_solver|]. by intros [_ ?].
      * unfold registered, reg. destruct (decide (id ∈ ids (wl s (ch_is_prefix ch) (ch_key ch)))); [by left|by right].
  - intros id key Hin. simpl in Hin. rewrite Hunreg in Hin. destruct (Hun id key Hin) as (ch & Hc & Hd). simpl.
    rewrite (of_channels _ _ _ _ Hof), Hc. simpl. eexists. split; [done|]. case_decide; [|done]. by rewrite offer_dropped.
Qed.

Lemma unregister_step s id key :
  watch_inv s → (∃ ch, ws_channels s !! id = Some ch ∧ ch_receiving ch = Dropped) → watch_inv (unregister id key s).
Proof.
  intros [Hreg Hch Hun] (ch0 & Hc0 & Hd0). destruct (unregister_inv s id key Hreg) as (Hi & Hcs & Hr & Hrg).
  destruct (rest_fields _ _ Hr) as (Hnext & Hhist & Hunreg & _). constructor; [done| |].
  - intros id' ch Hc. rewrite Hcs in Hc. destruct (Hch id' ch Hc) as [Hf Hs Hsi Hrd Hb Hst].
    constructor; rewrite ?Hnext, ?Hhist; try done. eapply chan_state_mono; [|exact Hst].
    intros Hnd. unfold registered. rewrite Hrg. split; [|by intros [? _]]. intros ?. split; [done|].
    intros [-> _]. congruence.
  - intros id' key' Hin. rewrite Hunreg in Hin. rewrite Hcs. by apply (Hun id' key').
Qed.

(** Changing one channel's receiving side. *)
Lemma channel_step s s' id ch ch' :
  watch_inv s → ws_channels s !! id = Some ch → s' = s <| ws_channels ::= <[id := ch']> |> →
  home ch' = home ch → ch_prev_kv ch' = ch_prev_kv ch → ch_since ch' = ch_since ch → ch_log ch' = ch_log ch →
  ch_capacity ch' = ch_capacity ch → (ch_read ch <= ch_read ch' <= length (ch_log ch))%nat →
  (ch_receiving ch = Dropped → ch_receiving ch' = Dropped) → watch_inv s'.
Proof.
  intros [Hreg Hch Hun] Hc -> [= Hp Hk] Hpk Hsi Hlog Hcap Hrd Hdr. constructor.
  - apply channels_inv; [done|]. intros id' ch0 Hc0. destruct (decide (id' = id)) as [->|Hne].
    + rewrite lookup_insert_eq. exists ch'. rewrite Hc in Hc0. injection Hc0 as <-. unfold home. by rewrite Hp, Hk.
    + rewrite lookup_insert_ne by done. eauto.
  - intros id' ch0 Hc0. simpl in Hc0. apply lookup_insert_Some in Hc0 as [[<- <-]|[_ Hc0]].
    2: { destruct (Hch _ _ Hc0). by constructor. }
    destruct (Hch id ch Hc) as [Hf Hs Hsin Hrd0 Hb Hst]. constructor; simpl; rewrite ?Hsi, ?Hlog, ?Hcap; try done; try lia.
    { unfold slashed. by rewrite Hp, Hk. }
    assert (∀ h, expected ch' h = expected ch h) as He by (intros; apply expected_ext; [unfold home; by rewrite Hp, Hk|done..]).
    unfold registered in *. rewrite Hp, Hk. change (reg (s <| ws_channels ::= _ |>)) with (reg s).
    destruct (decide (ch_receiving ch' = Dropped)) as [Hd'|Hnd'].
    { destruct Hst as [Hd Hr Ha Hl|upto Hd Hu Hl|upto key Hd Hn Hu Hl].
      - apply (CGivenUp _ _ _ (length (ws_history s))); rewrite ?Hsi, ?Hlog, ?He, ?take_ge by done; [done|done|by left].
      - apply (CGivenUp _ _ _ upto); rewrite ?Hsi, ?Hlog, ?He; done.
      - apply (CGivenUp _ _ _ upto); rewrite ?Hsi, ?Hlog, ?He; [done|done|right; by eexists]. }
    destruct Hst as [Hd Hr Ha Hl|upto Hd Hu Hl|upto key Hd Hn Hu Hl].
    + apply CDelivering; rewrite ?Hlog, ?He; [done|done| |done]. unfold available in *. rewrite Hlog, Hcap. lia.
    + by destruct Hnd'; apply Hdr.
    + apply (CCancelled _ _ _ upto key); rewrite ?Hsi, ?Hlog, ?He; done.
  - intros id' key Hin. destruct (Hun id' key Hin) as (ch0 & Hc0 & Hd0). simpl.
    destruct (decide (id' = id)) as [->|Hne]; [|rewrite lookup_insert_ne by done; eauto].
    rewrite lookup_insert_eq. exists ch'. split; [done|]. rewrite Hc in Hc0. injection Hc0 as <-. by apply Hdr.
Qed.

Lemma push_set key w m : push_watcher key w m = set_ws key (get_ws key m ++ [w]) m.
Proof. unfold push_watcher, set_ws, get_ws. by destruct (default [] (m !! key)). Qed.

(** The state after a successful registration. *)
Definition after_register (key : bytes) (p b : bool) (s : WatchSystem) : WatchSystem :=
  set_watchers p (set_ws key (wl s p key ++ [mkWatcher (ws_next_id s) b]) (watchers_of p s)) s
    <| ws_total_count ::= N.succ |> <| ws_next_id ::= λ n, wrapping_add_u64 n 1 |>
    <| ws_prev_kv_watcher_count ::= λ n, if b then n + 1 else n |>
    <| ws_channels ::= <[ws_next_id s := mkChannel key p b (length (ws_history s)) [] 0 (ws_watcher_buffer_size s + 1) Held]> |>.

Lemma do_register_cases key p b s s' r :
  do_register key p b s = Some (s', r) →
  (s' = s ∧ ∃ e, r = inr e) ∨ (ws_total_count s < ws_max_watcher_count s ∧ s' = after_register key p b s ∧ r = inl (ws_next_id s)).
Proof.
  unfold do_register. destruct (N.leb_spec (ws_max_watcher_count s) (ws_total_count s)).
  { intros [= <- <-]. left. eauto. }
  destruct (_ <? _); [done|]. intros [= <- <-]. right. split; [done|]. split; [|done].
  unfold after_register, wl. destruct p; simpl; by rewrite push_set.
Qed.

Lemma after_register_wl key p b s p' key' :
  wl (after_register key p b s) p' key'
  = if decide (p = p' ∧ key = key') then wl s p key ++ [mkWatcher (ws_next_id s) b] else wl s p' key'.
Proof. rewrite <-wl_set. unfold after_register, wl. by destruct p, p'. Qed.

Lemma fresh_id s p key id : watch_inv s → id ∈ ids (wl s p key) → id < ws_next_id s.
Proof.
  intros Hi Hin. destruct (reg_home s p key id (wv_registry _ Hi) Hin) as (ch & Hc & _).
  by destruct (wv_channels _ Hi id ch Hc).
Qed.

Lemma after_register_registry key p b s :
  watch_inv s → ws_total_count s < ws_max_watcher_count s → registry_inv (after_register key p b s).
Proof.
  intros Hinv Hlt. destruct (wv_registry _ Hinv) as [Hne Hnds Hlink Ht Hp Hm].
  assert (∀ f, cnt f (ws_exact (after_register key p b s)) + cnt f (ws_prefix (after_register key p b s))
     = f (mkWatcher (ws_next_id s) b) + (cnt f (ws_exact s) + cnt f (ws_prefix s))) as Hcnt.
  { intros f. pose proof (cnt_set f key (wl s p key ++ [mkWatcher (ws_next_id s) b]) (watchers_of p s)) as Hc.
    fold (wl s p key) in Hc. rewrite weight_app in Hc. unfold after_register. destruct p; simpl in *; lia. }
  pose proof (Hcnt one) as H1. pose proof (Hcnt if_prev) as H2. constructor.
  - intros p' key'. unfold after_register. destruct p, p'; simpl; try apply (Hne true) || apply (Hne false);
      apply set_nonempty; [apply (Hne true)|apply (Hne false)].
  - intros p' key'. rewrite after_register_wl. case_decide as Hd; [|done]. unfold ids. rewrite fmap_app.
    apply NoDup_app. split; [apply Hnds|]. split; [|apply NoDup_singleton].
    intros id Hin ->%list_elem_of_singleton. apply (fresh_id s p key) in Hin; [simpl in Hin; lia|done].
  - intros p' key' w. rewrite after_register_wl. intros Hw.
    assert (ws_channels (after_register key p b s)
      = <[ws_next_id s := mkChannel key p b (length (ws_history s)) [] 0 (ws_watcher_buffer_size s + 1) Held]> (ws_channels s))
      as -> by by destruct p.
    assert (w ∈ wl s p' key' ∨ (w = mkWatcher (ws_next_id s) b ∧ p = p' ∧ key = key')) as [Hold|(-> & <- & <-)].
    { case_decide as Hd; [|by left]. destruct Hd as [<- <-]. apply elem_of_app in Hw as [?|?%list_elem_of_singleton]; auto. }
    + rewrite lookup_insert_ne; [by apply Hlink|]. intros E.
      assert (wt_id w ∈ ids (wl s p' key')) as Hin by by apply list_elem_of_fmap_2.
      apply (fresh_id s) in Hin; [lia|done].
    + rewrite lookup_insert_eq. by eexists.
  - assert (ws_total_count (after_register key p b s) = N.succ (ws_total_count s)) as -> by by destruct p.
    unfold one at 3 in H1. lia.
  - assert (ws_prev_kv_watcher_count (after_register key p b s)
       = if b then ws_prev_kv_watcher_count s + 1 else ws_prev_kv_watcher_count s) as -> by by destruct p.
    unfold if_prev at 3 in H2. simpl in H2. destruct b; lia.
  - assert (ws_total_count (after_register key p b s) = N.succ (ws_total_count s)
       ∧ ws_max_watcher_count (after_register key p b s) = ws_max_watcher_count s) as [-> ->] by by destruct p. lia.
Qed.

Lemma register_step key p b s s' r :
  watch_inv s → ws_next_id s < u64_max → (p = true → last key = Some slash) →
  do_register key p b s = Some (s', r) → watch_inv s' ∧ ws_next_id s' <= ws_next_id s + 1.
Proof.
  intros Hinv Hnext Hkey [[-> _]|(Hlt & -> & _)]%do_register_cases; [split; [done|lia]|].
  assert (ws_next_id (after_register key p b s) = ws_next_id s + 1) as En.
  { unfold after_register, wrapping_add_u64. destruct p; simpl; apply N.mod_small; lia. }
  assert (ws_history (after_register key p b s) = ws_history s) as Eh by by destruct p.
  assert (ws_channels (after_register key p b s)
      = <[ws_next_id s := mkChannel key p b (length (ws_history s)) [] 0 (ws_watcher_buffer_size s + 1) Held]> (ws_channels s))
      as Ec by by destruct p.
  split; [|lia]. constructor; [by apply after_register_registry| |].
  - intros id ch Hc. rewrite Ec in Hc. apply lookup_insert_Some in Hc as [[<- <-]|[Hne Hc]].
    + constructor; rewrite ?En, ?Eh; simpl; try done; try lia. apply CDelivering; simpl.
      * done.
      * unfold registered, reg. simpl. rewrite after_register_wl, decide_True by done. unfold ids. rewrite fmap_app.
        apply elem_of_app. right. by apply list_elem_of_singleton.
      * unfold available. simpl. lia.
      * unfold expected. simpl. rewrite drop_ge by done. done.
    + destruct (wv_channels _ Hinv id ch Hc) as [Hf Hs Hsi Hrd Hb Hst]. constructor; rewrite ?En, ?Eh; try done; try lia.
      eapply chan_state_mono; [|exact Hst]. intros _. unfold registered, reg. rewrite after_register_wl.
      case_decide as Hd; [|done]. destruct Hd as [<- <-]. unfold ids. rewrite fmap_app, elem_of_app.
      split; [by left|]. intros [?|E%list_elem_of_singleton]; [done|]. simpl in E. congruence.
  - intros id key' Hin. assert (ws_unregister (after_register key p b s) = ws_unregister s) as Eu by by destruct p.
    rewrite Eu in Hin. destruct (wv_unregister _ Hinv id key' Hin) as (ch & Hc & Hd). rewrite Ec.
    exists ch. split; [|done]. rewrite lookup_insert_ne; [done|]. intros <-.
    apply (wv_channels _ Hinv) in Hc. destruct Hc. lia.
Qed.

(** The invariant does not speak of the queue of events. *)
Lemma queue_step s q b : watch_inv s → watch_inv (s <| ws_queue := q |> <| ws_lagged := b |>).
Proof.
  intros [[H1 H2 H3 H4 H5 H6] Hch Hun]. constructor; [by constructor| |done].
  intros id ch Hc. destruct (Hch id ch Hc). by constructor.
Qed.

Section run.
Context `{!MapIter bytes (list Watcher)}.

Lemma event_step event s : watch_inv s → watch_inv (dispatch_event event s).
Proof.
  intros Hi. rewrite dispatch_event_all. eapply (dispatch_inv (DEvent event)); [done| |].
  - apply dispatch_all_offered; [apply Hi|apply event_targets_NoDup].
  - intros id ch Hc _. apply home_in_targets. by destruct (wv_channels _ Hi id ch Hc).
Qed.

Lemma progress_step s : watch_inv s → watch_inv (broadcast_progress s).
Proof.
  intros Hi. rewrite broadcast_progress_all. eapply (dispatch_inv (DProgress (ws_last_applied s))); [done| |].
  - apply dispatch_all_offered; [apply Hi|apply progress_targets_NoDup].
  - intros id ch Hc Hr. split; [done|]. intros _. by eapply progress_targets_all.
Qed.

Lemma turn_step tick s s' : watch_inv s → dispatcher_turn tick s = Some s' → watch_inv s'.
Proof.
  intros Hi. unfold dispatcher_turn. destruct (ws_unregister s) as [|[id key] q] eqn:Eu.
  - destruct (ws_lagged s) eqn:El.
    { intros [= <-]. pose proof (queue_step s (ws_queue s) false Hi) as H. by destruct s. }
    destruct (ws_queue s) as [|event q] eqn:Eq.
    + destruct tick; [|done]. intros [= <-]. by apply progress_step.
    + intros [= <-]. apply event_step. pose proof (queue_step s q (ws_lagged s) Hi) as H. by destruct s.
  - intros [= <-]. apply unregister_step.
    + destruct Hi as [[H1 H2 H3 H4 H5 H6] Hch Hun]. constructor; [by constructor| |].
      * intros id' ch Hc. destruct (Hch id' ch Hc). by constructor.
      * intros id' key' Hin. apply (Hun id' key'). rewrite Eu. by right.
    + apply (wv_unregister _ Hi id key). rewrite Eu. left.
Qed.

Lemma drop_handle_step id s s' : watch_inv s → drop_handle id s = Some s' → watch_inv s'.
Proof.
  intros Hi. unfold drop_handle. destruct (ws_channels s !! id) as [ch|] eqn:Ec; [|done].
  destruct (ch_receiving ch) eqn:Er; [|done..]. intros [= <-]. pose proof (wv_channels _ Hi id ch Ec) as Hok.
  set (ch' := ch <| ch_receiving := Dropped |> <| ch_read := length (ch_log ch) |>).
  assert (watch_inv (s <| ws_channels ::= <[id := ch']> |>)) as [[H1 H2 H3 H4 H5 H6] Hch Hun].
  { eapply (channel_step s _ id ch ch'); try done. destruct Hok. simpl. lia. }
  constructor; [by constructor| |].
  - intros id' ch0 Hc0. destruct (Hch id' ch0 Hc0). by constructor.
  - intros id' key [Hin|[= -> ->]%list_elem_of_singleton]%elem_of_app; [by apply (Hun id' key)|].
    simpl. rewrite lookup_insert_eq. by exists ch'.
Qed.

Lemma watch_step_inv l s s' :
  watch_inv s → ws_next_id s < u64_max → watch_step l s = Some s' → watch_inv s' ∧ ws_next_id s' <= ws_next_id s + 1.
Proof.
  intros Hi Hn. destruct l as [key b|prefix b|id|id|id|id|e|tick]; simpl.
  - unfold register. destruct (do_register key false b s) as [[s1 r]|] eqn:E; [|done]. intros [= <-]. by apply (register_step key false b s s1 r).
  - unfold register_prefix. destruct (negb _ || negb _) eqn:Ep.
    { intros [= <-]. split; [done|lia]. }
    apply orb_false_iff in Ep as [_ Hl%negb_false_iff%bool_decide_eq_true].
    destruct (do_register prefix true b s) as [[s1 r]|] eqn:E; [|done]. intros [= <-]. by apply (register_step prefix true b s s1 r).
  - intros Hd. split; [by eapply drop_handle_step|]. unfold drop_handle in Hd.
    destruct (ws_channels s !! id) as [ch|]; [|done]. destruct (ch_receiving ch); [|done..]. injection Hd as <-. simpl. lia.
  - unfold into_receiver. destruct (ws_channels s !! id) as [ch|] eqn:Ec; [|done]. pose proof (wv_channels _ Hi id ch Ec) as [].
    destruct (ch_receiving ch) eqn:Er; [|done..]. intros [= <-]. split; [|simpl; lia].
    eapply (channel_step s _ id ch); try done; congruence.
  - unfold drop_receiver. destruct (ws_channels s !! id) as [ch|] eqn:Ec; [|done]. pose proof (wv_channels _ Hi id ch Ec) as [].
    destruct (ch_receiving ch) eqn:Er; [done| |done]. intros [= <-]. split; [|simpl; lia].
    eapply (channel_step s _ id ch); done.
  - unfold receive. destruct (ws_channels s !! id) as [ch|] eqn:Ec; [|done].
    destruct (ch_log ch !! ch_read ch) as [e|] eqn:El; [|by destruct (ch_receiving ch)].
    apply lookup_lt_Some in El.
    destruct (ch_receiving ch) eqn:Er; [| |done]; intros [= <-]; (split; [|simpl; lia]);
      (eapply (channel_step s _ id ch); try done; simpl; lia).
  - intros [= <-]. split.
    + unfold publish. destruct (_ <? _)%nat; [by apply queue_step|].
      pose proof (queue_step s (ws_queue s ++ [e]) (ws_lagged s) Hi) as H. by destruct s.
    + unfold publish. destruct (_ <? _)%nat; simpl; lia.
  - intros Ht. split; [by eapply turn_step|]. assert (ws_next_id s' = ws_next_id s) as ->; [|lia].
    revert Ht. unfold dispatcher_turn. destruct (ws_unregister s) as [|[id key] q].
    + destruct (ws_lagged s); [by intros [= <-]|]. destruct (ws_queue s) as [|event q] eqn:Eq.
      * destruct tick; [|done]. intros [= <-]. rewrite broadcast_progress_all.
        destruct (rest_fields _ _ (of_rest _ _ _ _ (dispatch_all_offered (progress_event s) (progress_targets s) s
          (wv_registry _ Hi) (progress_targets_NoDup s)))) as [H _]. done.
      * intros [= <-]. rewrite dispatch_event_all.
        destruct (rest_fields _ _ (of_rest _ _ _ _ (dispatch_all_offered event (event_targets event) (s <| ws_queue := q |>)
          ltac:(destruct Hi as [[]]; by constructor) (event_targets_NoDup event)))) as [H _]. done.
    + intros [= <-]. destruct (unregister_inv (s <| ws_unregister := q |>) id key) as (_ & _ & Hr & _);
        [destruct Hi as [[]]; by constructor|]. by destruct (rest_fields _ _ Hr).
Qed.

Lemma new_inv buffer max q a : watch_inv (new_with_limits buffer max q a).
Proof.
  constructor.
  - constructor.
    + intros [] key; simpl; by rewrite lookup_empty.
    + intros [] key; unfold wl, get_ws; simpl; rewrite lookup_empty; constructor.
    + intros [] key w; unfold wl, get_ws; simpl; rewrite lookup_empty; by intros ?%not_elem_of_nil.
    + done.
    + done.
    + simpl. lia.
  - intros id ch. simpl. by rewrite lookup_empty.
  - intros id key ?%not_elem_of_nil. done.
Qed.

Lemma watch_run_inv ls s s' :
  watch_inv s → ws_next_id s + N.of_nat (length ls) <= u64_max → watch_run ls s = Some s' → watch_inv s'.
Proof.
  revert s. induction ls as [|l ls IH]; intros s Hi Hn; simpl; [by intros [= <-]|].
  destruct (watch_step l s) as [s1|] eqn:E; [|done]. simpl in *. intros Hrun.
  destruct (watch_step_inv l s s1 Hi ltac:(lia) E) as [Hi1 Hn1]. apply (IH s1); [done|lia|done].
Qed.

Lemma run_from_new buffer max q a ls s :
  watch_run ls (new_with_limits buffer max q a) = Some s → N.of_nat (length ls) < u64_max → watch_inv s.
Proof.
  intros Hrun Hn. apply (watch_run_inv ls (new_with_limits buffer max q a)); [apply new_inv| |done].
  change (ws_next_id (new_with_limits buffer max q a)) with 1. lia.
Qed.

(** C25: After any sequence of registrations, removals, receptions, published events and
    turns of the dispatcher, what was sent to a watcher is the events dispatched since
    its registration that match its key or prefix, each once and in order, up to some
    point, and then at most the sentinel that it is cancelled. While its receiver is
    alive, either it is registered and nothing is missing, or the sentinel was the last
    event it was sent: a watcher never ends silently. Its buffer stays within its
    capacity. *)
Theorem watchers_see_every_matching_event buffer max q a ls s id ch :
  watch_run ls (new_with_limits buffer max q a) = Some s → N.of_nat (length ls) < u64_max →
  ws_channels s !! id = Some ch →
  (∃ upto sentinel, (ch_since ch <= upto <= length (ws_history s))%nat
     ∧ ch_log ch = expected ch (take upto (ws_history s)) ++ sentinel
     ∧ (sentinel = [] ∨ ∃ key, sentinel = [make_cancel_event key]))
  ∧ (ch_receiving ch ≠ Dropped →
       (registered s id ch ∧ ch_log ch = expected ch (ws_history s))
       ∨ (¬ registered s id ch ∧ ∃ key, last (ch_log ch) = Some (make_cancel_event key)))
  ∧ N.of_nat (length (ch_log ch)) - N.of_nat (ch_read ch) <= ch_capacity ch.
Proof.
  intros Hrun Hn Hc. pose proof (run_from_new _ _ _ _ _ _ Hrun Hn) as Hi.
  destruct (wv_channels _ Hi id ch Hc) as [_ _ Hs _ Hb Hst]. split; [|split; [|done]].
  - destruct Hst as [Hd Hr Ha Hl|upto Hd Hu [Hl|[key Hl]]|upto key Hd Hr Hu Hl].
    + exists (length (ws_history s)), []. rewrite take_ge, app_nil_r by done. split; [done|]. split; [done|by left].
    + exists upto, []. rewrite app_nil_r. split; [done|]. split; [done|by left].
    + exists upto, [make_cancel_event key]. split; [done|]. split; [done|right; by eexists].
    + exists upto, [make_cancel_event key]. split; [done|]. split; [done|right; by eexists].
  - intros Hnd. destruct Hst as [Hd Hr Ha Hl|upto Hd Hu Hl|upto key Hd Hr Hu Hl]; [by left|done|].
    right. split; [done|]. exists key. by rewrite Hl, last_snoc.
Qed.

(** The counters count the registered watchers, and the limit is kept. *)
Theorem watcher_counts buffer max q a ls s :
  watch_run ls (new_with_limits buffer max q a) = Some s → N.of_nat (length ls) < u64_max →
  ws_total_count s = cnt one (ws_exact s) + cnt one (ws_prefix s)
  ∧ ws_prev_kv_watcher_count s = cnt if_prev (ws_exact s) + cnt if_prev (ws_prefix s)
  ∧ ws_total_count s <= ws_max_watcher_count s.
Proof.
  intros Hrun Hn. by destruct (run_from_new _ _ _ _ _ _ Hrun Hn) as [[_ _ _ Ht Hp Hm] _ _].
Qed.
End run.

(** ** Replaying events *)

Definition apply_event (m : values) (e : WatchResponse) : values :=
  match wr_event_type e with
  | Put => <[wr_key e := wr_value e]> m
  | DeleteEvent => delete (wr_key e) m
  | _ => m
  end.

Lemma entry_events_replay m e prev :
  foldl apply_event m (entry_events e (Some (mkApplyResult (ae_index e) (kv_exec m e).2)) prev) = (kv_exec m e).1.
Proof.
  unfold entry_events, kv_exec. destruct (ae_command e) as [|key value ttl|key|key expected value|ops]; simpl; try done.
  - by case_decide.
  - revert m. induction ops as [|o ops IH]; intros m; [done|]. destruct o; simpl; apply IH.
Qed.

Lemma broadcast_replay chunk m pre prevs :
  foldl apply_event m (broadcast_watch_events (length pre) chunk (pre ++ (kv_serial m chunk).2) prevs) = (kv_serial m chunk).1.
Proof.
  revert m pre. induction chunk as [|e chunk IH]; intros m pre; [done|]. cbn [broadcast_watch_events kv_serial].
  pose proof (entry_events_replay m e) as He. destruct (kv_exec m e) as [m1 ok]. cbn [fst snd] in He.
  specialize (IH m1 (pre ++ [mkApplyResult (ae_index e) ok])). destruct (kv_serial m1 chunk) as [m2 rs]. cbn [fst snd] in *.
  rewrite list_lookup_middle by done. rewrite foldl_app, He.
  rewrite length_app, Nat.add_1_r, <-app_assoc in IH. exact IH.
Qed.

(** What a client knows about a key after an event. *)
Definition note_event (v : option bytes) (e : WatchEvent) : option bytes :=
  match we_event_type e with
  | Put => Some (we_value e)
  | DeleteEvent => None
  | _ => v
  end.

Lemma expected_follows ch h m :
  ch_is_prefix ch = false →
  foldl note_event (m !! ch_key ch) (expected ch h)
  = foldl apply_event m (dispatched <$> drop (ch_since ch) h) !! ch_key ch.
Proof.
  intros Hp. unfold expected. generalize (drop (ch_since ch) h). intros ds. revert m.
  induction ds as [|d ds IH]; intros m; [done|]. rewrite filter_cons. simpl. rewrite <-IH. case_decide as Hm; simpl.
  - f_equal. destruct d as [e|n]; [|done]. simpl in Hm. rewrite Hp in Hm.
    unfold note_event, apply_event, proto_to_event, dispatched. simpl. rewrite Hm.
    destruct (wr_event_type e); by rewrite ?lookup_insert_eq, ?lookup_delete_eq.
  - f_equal. destruct d as [e|n]; [|done]. simpl in Hm. rewrite Hp in Hm. unfold apply_event, dispatched.
    destruct (wr_event_type e); by rewrite ?lookup_insert_ne, ?lookup_delete_ne by done.
Qed.

(** The owner of a watcher of one key that is not ended knows the value of the key from
    its events alone: starting with the value when it registered, they lead to the value
    that all events dispatched since give the key. *)
Theorem watcher_follows_its_key `{!MapIter bytes (list Watcher)} buffer max q a ls s id ch m :
  watch_run ls (new_with_limits buffer max q a) = Some s → N.of_nat (length ls) < u64_max →
  ws_channels s !! id = Some ch → ch_is_prefix ch = false → registered s id ch → ch_receiving ch ≠ Dropped →
  foldl note_event (m !! ch_key ch) (ch_log ch)
  = foldl apply_event m (dispatched <$> drop (ch_since ch) (ws_history s)) !! ch_key ch.
Proof.
  intros Hrun Hn Hc Hp Hr Hd. pose proof (run_from_new _ _ _ _ _ _ Hrun Hn) as Hi.
  destruct (wv_channels _ Hi id ch Hc) as [_ _ _ _ _ [_ _ _ ->|upto Hd' _ _|upto key _ Hnr _ _]]; [|done..].
  by apply expected_follows.
Qed.

Section replay.
Context {S D : Type} `{!StateMachine S D} `{!KvMachine S D} (decode_write_command : bytes → option Wire.WriteCommand).

Lemma advance_last chunk (w w' : Worker S D) :
  match last chunk with Some e => advance (e_index e) | None => mret tt end w = Some (w', Ok tt) →
  wk_watch w' = wk_watch w ∧ wk_machine w' = wk_machine w.
Proof.
  destruct (last chunk) as [e|]; [|by intros [= <-]]. unfold advance, modify. intros [= <-]. by destruct (_ <? _).
Qed.

(** C26: The events a worker publishes for a chunk, replayed on the map from before, give the
    map after the chunk: no change goes unnoticed and none is announced that did not
    happen. *)
Theorem watch_events_replay_the_chunk chunk (w w' : Worker S D) results :
  watch_event_tx w = true → writer_apply_chunk decode_write_command chunk w = Some (w', Ok results) →
  ∃ events, wk_watch w' = wk_watch w ++ events
    ∧ foldl apply_event (sm_values (wk_machine w)) events = sm_values (wk_machine w').
Proof.
  intros Htx. unfold writer_apply_chunk. destruct (decode_entries _ chunk) as [es|e]; [|done].
  intros (w1 & ? & [= <- <-] & H)%bind_ok_inv. rewrite Htx in H.
  apply bind_ok_inv in H as (w2 & rs & Happ & H). unfold lift_machine in Happ.
  destruct (sm_apply es (wk_machine w)) as [[m' r]|] eqn:Ea; [|done]. injection Happ as <- Hr. simpl in Hr. subst r.
  apply bind_ok_inv in H as (w3 & [] & [= <-] & H). apply bind_ok_inv in H as (w4 & [] & Hadv & [= -> ->]).
  destruct (advance_last chunk _ _ Hadv) as [-> ->].
  eexists. split; [done|]. simpl. pose proof (sm_apply_serial es _ _ _ Ea) as Hs.
  pose proof (broadcast_replay es (sm_values (wk_machine w)) []) as Hb. rewrite Hs in Hb. apply Hb.
Qed.
End replay.

(** ** Previous values *)

(** The map behind the writes of a chunk so far. *)
Definition overlay_agrees (get : bytes → option bytes) (overlay : gmap bytes (option bytes)) (m : values) : Prop :=
  ∀ key, overlay_get get overlay key = m !! key.

Lemma overlay_insert get overlay m key v :
  overlay_agrees get overlay m →
  overlay_agrees get (<[key := v]> overlay) (partial_alter (λ _, v) key m).
Proof.
  intros Ha k. unfold overlay_get. destruct (decide (k = key)) as [->|].
  - by rewrite lookup_insert_eq, lookup_partial_alter_eq.
  - rewrite lookup_insert_ne, lookup_partial_alter_ne by done. apply Ha.
Qed.

(** The key an entry writes, unless it is a batch. *)
Definition written_key (e : ApplyEntry) : option bytes :=
  match ae_command e with
  | Cmd.Insert key _ _ | Cmd.Delete key | Cmd.CompareAndSwap key _ _ => Some key
  | Cmd.Noop | Cmd.Batch _ => None
  end.

Definition is_plain_write (e : ApplyEntry) : bool :=
  match ae_command e with Cmd.Insert _ _ _ | Cmd.Delete _ | Cmd.Noop => true | _ => false end.

Lemma read_prev_values_correct get overlay m chunk i e key :
  overlay_agrees get overlay m → chunk !! i = Some e → written_key e = Some key →
  forallb is_plain_write (take i chunk) = true →
  read_prev_values get overlay chunk !! i = Some (Some (default [] ((kv_serial m (take i chunk)).1 !! key))).
Proof.
  revert overlay m i. induction chunk as [|e0 chunk IH]; intros overlay m i Ha Hi Hk Hp; [done|].
  destruct i as [|i].
  - injection Hi as ->. simpl. unfold written_key in Hk. destruct (ae_command e); simplify_eq; simpl; by rewrite Ha.
  - simpl in *. apply andb_prop in Hp as [Hp0 Hp]. unfold is_plain_write in Hp0. unfold kv_exec.
    destruct (ae_command e0) as [|key0 value ttl|key0|key0 expected value|ops]; try discriminate Hp0; simpl.
    + specialize (IH overlay m i Ha Hi Hk Hp). by destruct (kv_serial m (take i chunk)).
    + specialize (IH _ _ i (overlay_insert _ _ _ key0 (Some value) Ha) Hi Hk Hp).
      change (partial_alter (λ _, Some value) key0 m) with (<[key0 := value]> m) in IH.
      by destruct (kv_serial (<[key0 := value]> m) (take i chunk)).
    + specialize (IH _ _ i (overlay_insert _ _ _ key0 None Ha) Hi Hk Hp).
      change (partial_alter (λ _, None) key0 m) with (delete key0 m) in IH.
      by destruct (kv_serial (delete key0 m) (take i chunk)).
Qed.

(** The previous value reported for a write is the value its key has before it, also
    when the key was written earlier in the chunk, as long as the earlier entries are
    inserts and deletes. *)
Theorem previous_values_are_correct {S D} `{!StateMachine S D} `{!KvMachine S D} (s : S) chunk i e key :
  sm_readable s → chunk !! i = Some e → written_key e = Some key → forallb is_plain_write (take i chunk) = true →
  read_prev_values (λ k, sm_read k s) ∅ chunk !! i
  = Some (Some (default [] ((kv_serial (sm_values s) (take i chunk)).1 !! key))).
Proof.
  intros Hs Hi Hk Hp. eapply read_prev_values_correct; [|done..]. intros k. unfold overlay_get. rewrite lookup_empty.
  by apply sm_read_values.
Qed.

(** ** Runs *)

Module WatchRuns.
#[global] Existing Instance map_to_list_iter.

(** The key [/a/b] (and the prefix [/a/]). *)
Definition key_ab : bytes := [47; 97; 47; 98].
Definition prefix_a : bytes := [47; 97; 47].

Definition put (key value : bytes) (revision : N) : WatchResponse := mkWatchResponse key value Put revision [].

(** A watcher of the key, one of the prefix, and three events; the buffers take one. *)
Definition slow_prefix_watcher : list WatchLabel :=
  [WRegister key_ab false; WRegisterPrefix prefix_a true; WPublish (put key_ab [1] 1); WTurn false; WReceive 1;
   WPublish (put [120] [5] 2); WTurn false; WPublish (put key_ab [2] 3); WTurn false].
End WatchRuns.
Import WatchRuns.

(** The watcher of the key has both events; the one of the prefix was too slow and is
    cancelled. *)
Lemma watchers_see_every_matching_event_witness :
  ∃ s ch1 ch2, watch_run slow_prefix_watcher (new_with_limits 1 10 16 0) = Some s
    ∧ ws_channels s !! 1 = Some ch1 ∧ ws_channels s !! 2 = Some ch2
    ∧ registered s 1 ch1 ∧ ch_log ch1 = expected ch1 (ws_history s) ∧ length (ch_log ch1) = 2%nat
    ∧ ¬ registered s 2 ch2 ∧ ∃ key, last (ch_log ch2) = Some (make_cancel_event key).
Proof.
  destruct (watch_run slow_prefix_watcher (new_with_limits 1 10 16 0)) as [s|] eqn:E; [|vm_compute in E; discriminate].
  destruct (ws_channels s !! 1) as [ch1|] eqn:E1; [|exfalso; vm_compute in E; injection E as <-; vm_compute in E1; discriminate].
  destruct (ws_channels s !! 2) as [ch2|] eqn:E2; [|exfalso; vm_compute in E; injection E as <-; vm_compute in E2; discriminate].
  destruct (watchers_see_every_matching_event 1 10 16 0 slow_prefix_watcher s 1 ch1 E eq_refl E1) as (_ & H1 & _).
  destruct (watchers_see_every_matching_event 1 10 16 0 slow_prefix_watcher s 2 ch2 E eq_refl E2) as (_ & H2 & _).
  assert (ch_receiving ch1 = Held ∧ length (ch_log ch1) = 2%nat ∧ last (ch_log ch1) = Some (proto_to_event (put key_ab [2] 3) false)
    ∧ ch_receiving ch2 = Held ∧ last (ch_log ch2) = Some (make_cancel_event key_ab)) as (R1 & L1 & T1 & R2 & L2).
  { vm_compute in E. injection E as <-. vm_compute in E1, E2. injection E1 as <-. injection E2 as <-. by vm_compute. }
  exists s, ch1, ch2. split; [done|]. split; [done|]. split; [done|].
  destruct H1 as [[Hr1 Hl1]|[_ [key Hk]]]; [by rewrite R1| |rewrite T1 in Hk; discriminate].
  destruct H2 as [[_ Hl2]|[Hr2 _]]; [by rewrite R2| |by eauto 10].
  exfalso. rewrite Hl2 in L2. vm_compute in E. injection E as <-. vm_compute in E2. injection E2 as <-.
  vm_compute in L2. discriminate.
Defined.

(** An insert, a swap that fails and one that succeeds. *)
Lemma watch_events_replay_the_chunk_witness :
  ∃ w' results events,
    writer_apply_chunk (StateMachine0 := file_machine (FsmRuns.env_at 100 IoDone) (λ b, b)) decode_small
      (swap_log <$> [1; 2; 3]) (idle_worker FsmRuns.fresh) = Some (w', Ok results)
    ∧ wk_watch w' = events ∧ length events = 2%nat
    ∧ foldl apply_event ∅ events = {[ [1] := [11] ]}.
Proof.
  destruct (writer_apply_chunk (StateMachine0 := file_machine (FsmRuns.env_at 100 IoDone) (λ b, b)) decode_small
      (swap_log <$> [1; 2; 3]) (idle_worker FsmRuns.fresh)) as [[w' [results|e]]|] eqn:E;
    [|vm_compute in E; discriminate|vm_compute in E; discriminate].
  destruct (watch_events_replay_the_chunk (KvMachine0 := file_kv_machine (FsmRuns.env_at 100 IoDone) (λ b, b))
    decode_small (swap_log <$> [1; 2; 3]) (idle_worker FsmRuns.fresh) w' results eq_refl E) as (events & Hw & Hf).
  exists w', results, events. split; [done|]. split; [exact Hw|].
  assert (length (wk_watch w') = 2%nat ∧ plain (Fsm.data (wk_machine w')) = {[ [1] := [11] ]}) as [Hl Hm].
  { vm_compute in E. injection E as <- _. split; vm_compute; reflexivity. }
  split; [by rewrite <-Hl, Hw|]. etrans; [exact Hf|exact Hm].
Defined.

(** * Watch: where the code does not do what its documentation says

    Runs of the watch system in which a watcher misses an event without being told, and
    events whose previous value is not the one their key had. *)

Import WatchRuns.

(** Two writes of a key while the dispatcher is busy, with a queue of one event: the
    first is lost, and the watcher of the key stays registered and is told nothing. *)
Definition lagging : list WatchLabel :=
  [WRegister key_ab false; WPublish (put key_ab [1] 1); WPublish (put key_ab [2] 2); WTurn false; WTurn false].

Theorem lagged_events_are_lost_silently :
  ∃ s ch, watch_run lagging (new_with_limits 8 10 1 0) = Some s ∧ ws_channels s !! 1 = Some ch
    ∧ registered s 1 ch ∧ ws_queue s = [] ∧ ws_lagged s = false
    ∧ ch_log ch = [proto_to_event (put key_ab [2] 2) false].
Proof.
  destruct (watch_run lagging (new_with_limits 8 10 1 0)) as [s|] eqn:E; [|vm_compute in E; discriminate].
  vm_compute in E. injection E as <-. eexists _, _. split; [done|]. split; [vm_compute; reflexivity|].
  split; [|by vm_compute]. unfold registered, reg, wl, get_ws. vm_compute. apply list_elem_of_here.
Qed.

(** A batch writes a key that has a value: the watcher is told that the key did not
    exist, and so it is for an insert that follows in the same chunk. *)
Definition batch_then_insert : list ApplyEntry :=
  [mkApplyEntry 1 1 (Cmd.Batch [Cmd.BInsert [1] [7]]); mkApplyEntry 2 1 (Cmd.Insert [1] [8] None)].

Theorem batch_hides_previous_values (results : list ApplyResult) :
  let before : values := {[ [1] := [6] ]} in
  let prev := read_prev_values (λ k, before !! k) ∅ batch_then_insert in
  (λ e, (wr_revision e, we_prev_value (proto_to_event e true)))
    <$> broadcast_watch_events 0 batch_then_insert results (Some prev)
  = [(1, Some []); (2, Some [6])]
  ∧ (kv_serial before (take 1 batch_then_insert)).1 !! [1] = Some [7].
Proof. split; vm_compute; reflexivity. Qed.

(** A swap that succeeds is not seen by the next write of its key in the chunk. *)
Definition swap_then_delete : list ApplyEntry :=
  [mkApplyEntry 1 1 (Cmd.CompareAndSwap [1] (Some [6]) [7]); mkApplyEntry 2 1 (Cmd.Delete [1])].

Theorem swap_makes_previous_values_stale :
  let before : values := {[ [1] := [6] ]} in
  read_prev_values (λ k, before !! k) ∅ swap_then_delete = [Some [6]; Some [6]]
  ∧ (kv_serial before (take 1 swap_then_delete)).1 !! [1] = Some [7].
Proof. split; vm_compute; reflexivity. Qed.

(** A sign of life to a watcher with [prev_kv] carries a previous value. *)
Theorem progress_carries_a_previous_value last_applied :
  we_prev_value (proto_to_event (dispatched (DProgress last_applied)) true) = Some [].
Proof. done. Qed.
