(* ===== verification/RocksDb.v ===== *)
(** * Byte strings in order

    The order of keys in an ordered key-value store: comparison of byte strings byte by
    byte. A table is a map from keys to values; [rows] lists it in order. Two facts make
    the RocksDB adaptors correct: the order of big-endian numbers is the order of the
    numbers, and the keys with a prefix are the keys from the prefix up to its successor
    ([prefix_successor] of
    [d-engine-server/src/storage/adaptors/rocksdb/rocksdb_state_machine.rs]). *)

From stdpp Require Import base tactics numbers option list sorting gmap strings.
From S2P Require Import Prelude Types Codec.

Fixpoint bytes_le (a b : bytes) : bool :=
  match a, b with
  | [], _ => true
  | _ :: _, [] => false
  | x :: a', y :: b' => (x <? y) || ((x =? y) && bytes_le a' b')
  end.

Definition bytes_lt (a b : bytes) : bool := negb (bytes_le b a).

Lemma bytes_le_refl a : bytes_le a a = true.
Proof. induction a as [|x a IH]; [done|]. simpl. by rewrite N.eqb_refl, IH, orb_true_r. Qed.

Lemma bytes_le_cons x a y b :
  bytes_le (x :: a) (y :: b) = true ↔ x < y ∨ x = y ∧ bytes_le a b = true.
Proof. simpl. rewrite orb_true_iff, andb_true_iff, N.ltb_lt, N.eqb_eq. done. Qed.

Lemma bytes_le_trans a b c : bytes_le a b = true → bytes_le b c = true → bytes_le a c = true.
Proof.
  revert b c. induction a as [|x a IH]; intros [|y b] [|z c]; try done.
  rewrite !bytes_le_cons. intros [?|[-> ?]] [?|[-> ?]]; [left; lia|by left|by left|right; eauto].
Qed.

Lemma bytes_le_antisym a b : bytes_le a b = true → bytes_le b a = true → a = b.
Proof.
  revert b. induction a as [|x a IH]; intros [|y b]; try done.
  rewrite !bytes_le_cons. intros [?|[-> ?]] [?|[? ?]]; [lia|lia|lia|f_equal; eauto].
Qed.

Lemma bytes_le_total a b : bytes_le a b = true ∨ bytes_le b a = true.
Proof.
  revert b. induction a as [|x a IH]; intros [|y b]; try by auto.
  rewrite !bytes_le_cons. destruct (N.lt_trichotomy x y) as [?|[->|?]]; [by auto| |by auto].
  destruct (IH b); auto.
Qed.

Lemma bytes_lt_le a b : bytes_lt a b = true → bytes_le a b = true.
Proof. unfold bytes_lt. intros H%negb_true_iff. destruct (bytes_le_total a b); congruence. Qed.

Lemma bytes_le_app p k : bytes_le p (p ++ k) = true.
Proof. induction p as [|x p IH]; [done|]. simpl. by rewrite N.eqb_refl, IH, orb_true_r. Qed.

(** ** Tables in order *)

Abbreviation table := (@gmap bytes _ (@list_countable N N.eq_dec N_countable) bytes).

Definition row_le : relation (bytes * bytes) := λ p q, bytes_le p.1 q.1 = true.
Definition row_lt : relation (bytes * bytes) := λ p q, bytes_lt p.1 q.1 = true.

#[global] Instance row_le_dec : RelDecision row_le.
Proof. intros p q. unfold row_le. apply _. Defined.

#[global] Instance row_le_trans : Transitive row_le.
Proof. intros a b c. apply bytes_le_trans. Qed.

#[global] Instance row_le_total : Total row_le.
Proof. intros a b. apply bytes_le_total. Qed.

#[global] Instance row_lt_irrefl : Irreflexive row_lt.
Proof. intros p. unfold complement, row_lt, bytes_lt. by rewrite bytes_le_refl. Qed.

#[global] Instance row_lt_trans : Transitive row_lt.
Proof.
  intros a b c. unfold row_lt. intros H1 H2. unfold bytes_lt in *. apply negb_true_iff in H1, H2.
  apply negb_true_iff, not_true_iff_false. intros H. apply not_true_iff_false in H2. apply H2.
  apply bytes_le_trans with a.1; [done|]. destruct (bytes_le_total a.1 b.1); congruence.
Qed.

Definition rows (m : table) : list (bytes * bytes) := merge_sort row_le (map_to_list m).

Lemma elem_of_rows m k v : (k, v) ∈ rows m ↔ m !! k = Some v.
Proof. unfold rows. rewrite merge_sort_Permutation. apply elem_of_map_to_list. Qed.

Lemma rows_sorted m : StronglySorted row_lt (rows m).
Proof.
  pose proof (StronglySorted_merge_sort row_le (map_to_list m)) as Hs. fold (rows m) in Hs.
  assert (NoDup (rows m).*1) as Hn.
  { unfold rows. rewrite merge_sort_Permutation. apply NoDup_fst_map_to_list. }
  induction Hs as [|x l Hs IH Hall]; [constructor|]. simpl in Hn. apply NoDup_cons in Hn as [Hx Hn].
  constructor; [by apply IH|]. apply Forall_forall. intros y Hy. rewrite Forall_forall in Hall.
  unfold row_lt, bytes_lt. apply negb_true_iff, not_true_iff_false. intros Hle. apply Hx.
  apply list_elem_of_fmap. exists y. split; [|done]. apply bytes_le_antisym; [by apply Hall|done].
Qed.

Definition in_bounds (start : bytes) (upper : option bytes) (k : bytes) : bool :=
  bytes_le start k && match upper with None => true | Some u => bytes_lt k u end.

(** The rows from a key on, below a bound. *)
Definition rows_from (start : bytes) (upper : option bytes) (m : table) : list (bytes * bytes) :=
  filter (λ p, in_bounds start upper p.1 = true) (rows m).

Lemma elem_of_rows_from start upper m k v :
  (k, v) ∈ rows_from start upper m ↔ m !! k = Some v ∧ in_bounds start upper k = true.
Proof. unfold rows_from. rewrite list_elem_of_filter, elem_of_rows. simpl. tauto. Qed.

Lemma rows_from_sorted start upper m : StronglySorted row_lt (rows_from start upper m).
Proof. apply StronglySorted_filter, rows_sorted. Qed.

(** A sorted list is determined by its elements. *)
Lemma rows_unique (l1 l2 : list (bytes * bytes)) :
  StronglySorted row_lt l1 → StronglySorted row_lt l2 → (∀ p, p ∈ l1 ↔ p ∈ l2) → l1 = l2.
Proof. apply (strict_sorted_unique row_lt). Qed.

(** The empty string is the smallest. *)
Lemma rows_from_start m : rows_from [] None m = rows m.
Proof.
  apply rows_unique; [apply rows_from_sorted|apply rows_sorted|]. intros [k v].
  rewrite elem_of_rows_from, elem_of_rows. unfold in_bounds. tauto.
Qed.

(** ** Big-endian numbers *)

Lemma bytes_le_snoc a b x y :
  length a = length b →
  bytes_le (a ++ [x]) (b ++ [y]) = true ↔ (a ≠ b ∧ bytes_le a b = true) ∨ (a = b ∧ x <= y).
Proof.
  revert b. induction a as [|u a IH]; intros [|v b] Hlen; try done.
  - simpl. rewrite andb_true_r, orb_true_iff, N.ltb_lt, N.eqb_eq. split; [intros ?; right; split; [done|lia]|].
    intros [[? _]|[_ ?]]; [done|lia].
  - simpl app. rewrite !bytes_le_cons. injection Hlen as Hlen. rewrite (IH b Hlen).
    split.
    + intros [?|[-> [[? ?]|[-> ?]]]]; [left; split; [intros [= -> _]; lia|by left]| |by right].
      left. split; [congruence|by right].
    + intros [[Hne [?|[-> ?]]]|[[= -> ->] ?]]; [by left| |by auto]. right. split; [done|]. left. split; [congruence|done].
Qed.

Lemma digits_le n m :
  n <= m ↔ (n / 256 ≠ m / 256 ∧ n / 256 <= m / 256) ∨ (n / 256 = m / 256 ∧ n mod 256 <= m mod 256).
Proof.
  pose proof (N.div_mod n 256 ltac:(done)) as Hn. pose proof (N.div_mod m 256 ltac:(done)) as Hm.
  pose proof (N.mod_lt n 256 ltac:(done)) as Hn'. pose proof (N.mod_lt m 256 ltac:(done)) as Hm'.
  generalize dependent (n / 256). generalize dependent (m / 256). generalize dependent (n mod 256).
  generalize dependent (m mod 256). intros s Hs r Hr b -> a ->. lia.
Qed.

Lemma be_encode_le k n m :
  n < 256 ^ N.of_nat k → m < 256 ^ N.of_nat k → bytes_le (be_encode k n) (be_encode k m) = true ↔ n <= m.
Proof.
  revert n m. induction k as [|k IH]; intros n m Hn Hm; simpl be_encode.
  { change (256 ^ N.of_nat 0) with 1 in *. simpl. split; [lia|done]. }
  replace (N.of_nat (S k)) with (N.succ (N.of_nat k)) in * by lia. rewrite N.pow_succ_r' in *.
  assert (n / 256 < 256 ^ N.of_nat k) as Hn' by (apply N.Div0.div_lt_upper_bound; lia).
  assert (m / 256 < 256 ^ N.of_nat k) as Hm' by (apply N.Div0.div_lt_upper_bound; lia).
  rewrite bytes_le_snoc by (by rewrite !length_be_encode). rewrite (IH _ _ Hn' Hm').
  rewrite (digits_le n m). split.
  - intros [[Hne Hle]|[Heq Hle]]; [left; split; [congruence|done]|right].
    apply (f_equal be_decode) in Heq. by rewrite !be_decode_encode in Heq.
  - intros [[Hne Hle]|[Heq Hle]]; [left|right; by rewrite Heq]. split; [|done]. intros Heq.
    apply (f_equal be_decode) in Heq. by rewrite !be_decode_encode in Heq.
Qed.

Lemma be64_le n m : n <= u64_max → m <= u64_max → bytes_le (be64 n) (be64 m) = true ↔ n <= m.
Proof.
  intros Hn Hm. apply be_encode_le; unfold u64_max in *; change (256 ^ N.of_nat 8) with 18446744073709551616; lia.
Qed.

Lemma be64_inj n m : n <= u64_max → m <= u64_max → be64 n = be64 m → n = m.
Proof. intros Hn Hm E. apply (f_equal be_decode) in E. by rewrite !be_decode_be64 in E. Qed.

(** ** Prefixes *)

(** [while upper.last() == Some(&0xFF) { upper.pop(); }], on the reversed string. *)
Fixpoint pop_ff (upper : bytes) : bytes :=
  match upper with
  | b :: upper' => if b =? 255 then pop_ff upper' else upper
  | [] => []
  end.

Definition prefix_successor (prefix : bytes) : option bytes :=
  match pop_ff (reverse prefix) with
  | [] => None
  | b :: upper => Some (reverse (b + 1 :: upper))
  end.

Lemma pop_ff_split l : ∃ n, l = replicate n 255 ++ pop_ff l.
Proof.
  induction l as [|b l [n IH]]; [by exists 0%nat|]. simpl. destruct (N.eqb_spec b 255) as [->|]; [|by exists 0%nat].
  exists (S n). simpl. by rewrite <-IH.
Qed.

Lemma prefix_successor_split p u :
  prefix_successor p = Some u → ∃ q b n, p = q ++ b :: replicate n 255 ∧ u = q ++ [b + 1].
Proof.
  unfold prefix_successor. destruct (pop_ff_split (reverse p)) as [n Hp].
  destruct (pop_ff (reverse p)) as [|b r]; [done|]. intros [= <-]. exists (reverse r), b, n.
  rewrite reverse_cons. split; [|done]. apply (f_equal reverse) in Hp. rewrite reverse_involutive in Hp.
  rewrite Hp, reverse_app, reverse_cons, reverse_replicate. by rewrite <-app_assoc.
Qed.

(** Below the successor. *)
Lemma prefix_below_successor p u k : prefix_successor p = Some u → p `prefix_of` k → bytes_lt k u = true.
Proof.
  intros (q & b & n & -> & ->)%prefix_successor_split [t ->]. rewrite <-app_assoc. unfold bytes_lt.
  apply negb_true_iff. induction q as [|x q IH]; simpl.
  - destruct (N.ltb_spec (b + 1) b); [lia|]. destruct (N.eqb_spec (b + 1) b); [lia|done].
  - by rewrite N.ltb_irrefl, N.eqb_refl.
Qed.

(** Between two keys of which the first is a prefix of the second there are only such keys. *)
Lemma prefix_between p k1 k2 :
  bytes_le p k1 = true → bytes_le k1 k2 = true → p `prefix_of` k2 → p `prefix_of` k1.
Proof.
  revert k1 k2. induction p as [|x p IH]; intros k1 k2 H1 H2 Hp; [apply prefix_nil|].
  destruct k1 as [|y k1]; [done|]. destruct Hp as [t ->]. simpl app in H2.
  apply bytes_le_cons in H1, H2. destruct H1 as [?|[-> H1]], H2 as [?|[? H2]]; [lia|lia|lia|].
  apply prefix_cons, (IH k1 (p ++ t)); [done|done|by exists t].
Qed.

Lemma prefix_le p k : p `prefix_of` k → bytes_le p k = true.
Proof. intros [t ->]. apply bytes_le_app. Qed.

(** * What the RocksDB adaptors rely on

    RocksDB is a library whose source is not part of the repository. [RocksDB] is the
    part of its interface that the adaptors call, and [RocksDBLaws] what its
    documentation promises: a column family is an ordered map, a batch of writes is
    atomic, an iterator lists the keys in order, an exported column family can be
    imported again, and after a crash a column family has the contents of its last flush
    with some of the writes since. Any operation may fail. [RefDb] is a small database
    with these laws, for runs. *)

Inductive Cf := LOG_CF | META_CF | STATE_MACHINE_CF | STATE_MACHINE_META_CF.

#[global] Instance Cf_eq_dec : EqDecision Cf.
Proof. solve_decision. Defined.

Inductive WriteOp :=
  | OpPut (cf : Cf) (key value : bytes)
  | OpDelete (cf : Cf) (key : bytes)
  | OpDeleteRange (cf : Cf) (from to : bytes).

Definition op_effect (cf : Cf) (m : table) (o : WriteOp) : table :=
  match o with
  | OpPut c key value => if decide (c = cf) then <[key := value]> m else m
  | OpDelete c key => if decide (c = cf) then delete key m else m
  | OpDeleteRange c from to =>
      if decide (c = cf) then filter (λ p, in_bounds from (Some to) p.1 = false) m else m
  end.

Definition batch_effect (cf : Cf) (ops : list WriteOp) (m : table) : table := foldl (op_effect cf) m ops.

Lemma batch_effect_app cf ops1 ops2 m :
  batch_effect cf (ops1 ++ ops2) m = batch_effect cf ops2 (batch_effect cf ops1 m).
Proof. apply foldl_app. Qed.

Definition op_cf (o : WriteOp) : Cf := match o with OpPut c _ _ | OpDelete c _ | OpDeleteRange c _ _ => c end.

(** A batch for other column families. *)
Lemma batch_effect_other cf ops m : Forall (λ o, op_cf o ≠ cf) ops → batch_effect cf ops m = m.
Proof.
  intros Ho. unfold batch_effect. induction Ho as [|o ops Ho _ IH]; [done|]. simpl. rewrite <-IH at 2. f_equal.
  destruct o; simpl in *; by rewrite decide_False.
Qed.

(** ** Exports of a column family *)

Record LiveFile := mkLiveFile {
  lf_column_family_name : string;
  lf_name : string;
  lf_directory : string;
  lf_size : N;
  lf_level : Z;
  lf_start_key : option bytes;
  lf_end_key : option bytes;
  lf_smallest_seqno : N;
  lf_largest_seqno : N;
  lf_num_entries : N;
  lf_num_deletions : N;
}.

Definition in_directory (dir : string) (f : LiveFile) : LiveFile :=
  mkLiveFile (lf_column_family_name f) (lf_name f) dir (lf_size f) (lf_level f) (lf_start_key f) (lf_end_key f)
    (lf_smallest_seqno f) (lf_largest_seqno f) (lf_num_entries f) (lf_num_deletions f).

Record ExportMeta := mkExportMeta { em_db_comparator_name : string; em_files : list LiveFile }.

Definition relocate (dir : string) (em : ExportMeta) : ExportMeta :=
  mkExportMeta (em_db_comparator_name em) (in_directory dir <$> em_files em).

(** ** The interface *)

Abbreviation db_result A := (string + A)%type.

(** [Sst] is the type of the files of an exported column family. *)
Class RocksDB (DB Sst : Type) := {
  db_cf_handle : Cf → DB → bool;
  db_get : Cf → bytes → DB → db_result (option bytes);
  (** [WriteBatchWithIndex::get_from_batch_and_db_cf] *)
  db_get_from_batch : list WriteOp → Cf → bytes → DB → db_result (option bytes);
  (** the items of an iterator from a key on, below a bound *)
  db_iter : Cf → bytes → option bytes → DB → list (db_result (bytes * bytes));
  (** the first item of an iterator from the end *)
  db_last : Cf → DB → option (db_result (bytes * bytes));
  (** the first argument: without the log of writes *)
  db_write : bool → list WriteOp → DB → DB * db_result unit;
  db_flush_wal : DB → DB * db_result unit;
  db_flush_cfs : list Cf → DB → DB * db_result unit;
  db_drop_cf : Cf → DB → DB * db_result unit;
  db_create_cf : Cf → DB → DB * db_result unit;
  db_export : Cf → string → DB → DB * db_result (ExportMeta * Sst);
  db_import : Cf → ExportMeta → Sst → DB → DB * db_result unit;
  (** [ExportImportFilesMetaData::set_files] *)
  export_meta : string → list LiveFile → db_result ExportMeta;
}.

(** [db_tables]: the contents. [db_persisted]: what a crash may leave of a column family.
    [db_unlogged]: it has writes that are neither in the log of writes nor flushed. *)
Class RocksDBLaws (DB Sst : Type) `{!RocksDB DB Sst} := {
  db_tables : DB → Cf → option table;
  db_persisted : DB → Cf → table → Prop;
  db_unlogged : DB → Cf → Prop;
  db_denotes : ExportMeta → Sst → table → Prop;
  cf_handle_spec cf db : db_cf_handle cf db = true ↔ is_Some (db_tables db cf);
  get_spec cf key db v m : db_get cf key db = inr v → db_tables db cf = Some m → v = m !! key;
  get_from_batch_spec ops cf key db v m :
    db_get_from_batch ops cf key db = inr v → db_tables db cf = Some m → v = batch_effect cf ops m !! key;
  iter_spec cf from upper db m :
    db_tables db cf = Some m →
    db_iter cf from upper db = inr <$> rows_from from upper m
    ∨ ∃ j e, db_iter cf from upper db = (inr <$> take j (rows_from from upper m)) ++ [inl e];
  last_spec cf db m :
    db_tables db cf = Some m → db_last cf db = inr <$> last (rows m) ∨ ∃ e, db_last cf db = Some (inl e);
  write_ok nolog ops db db' cf :
    db_write nolog ops db = (db', inr tt) → db_tables db' cf = batch_effect cf ops <$> db_tables db cf;
  write_err nolog ops db db' e cf : db_write nolog ops db = (db', inl e) → db_tables db' cf = db_tables db cf;
  flush_wal_tables db db' r cf : db_flush_wal db = (db', r) → db_tables db' cf = db_tables db cf;
  flush_cfs_tables cfs db db' r cf : db_flush_cfs cfs db = (db', r) → db_tables db' cf = db_tables db cf;
  drop_ok cf db db' c :
    db_drop_cf cf db = (db', inr tt) → db_tables db' c = if decide (c = cf) then None else db_tables db c;
  drop_err cf db db' e c : db_drop_cf cf db = (db', inl e) → db_tables db' c = db_tables db c;
  create_ok cf db db' c :
    db_create_cf cf db = (db', inr tt) → db_tables db' c = if decide (c = cf) then Some ∅ else db_tables db c;
  create_err cf db db' e c : db_create_cf cf db = (db', inl e) → db_tables db' c = db_tables db c;
  export_tables cf dir db db' r c : db_export cf dir db = (db', r) → db_tables db' c = db_tables db c;
  export_ok cf dir db db' em sst m :
    db_export cf dir db = (db', inr (em, sst)) → db_tables db cf = Some m → db_denotes em sst m;
  export_meta_ok name files em : export_meta name files = inr em → em = mkExportMeta name files;
  denotes_relocate dir em sst m : db_denotes em sst m → db_denotes (relocate dir em) sst m;
  denotes_no_files em sst m : db_denotes em sst m → em_files em = [] → m = ∅;
  import_ok cf em sst db db' m c :
    db_import cf em sst db = (db', inr tt) → db_denotes em sst m →
    db_tables db' c = if decide (c = cf) then Some m else db_tables db c;
  import_err cf em sst db db' e c : db_import cf em sst db = (db', inl e) → db_tables db' c = db_tables db c;
  (** nothing needs to be lost *)
  tables_persisted db cf m : db_tables db cf = Some m → db_persisted db cf m;
  (** a write is lost, or it is applied to what is left of the earlier ones *)
  write_persisted nolog ops db db' cf m :
    db_write nolog ops db = (db', inr tt) → db_persisted db' cf m →
    db_persisted db cf m ∨ ∃ m0, db_persisted db cf m0 ∧ m = batch_effect cf ops m0;
  write_unlogged nolog ops db db' cf :
    db_write nolog ops db = (db', inr tt) → db_unlogged db' cf → db_unlogged db cf ∨ nolog = true;
  flush_wal_persisted db db' cf m :
    db_flush_wal db = (db', inr tt) → ¬ db_unlogged db cf → db_persisted db' cf m → db_tables db' cf = Some m;
  flush_wal_unlogged db db' r cf : db_flush_wal db = (db', r) → db_unlogged db' cf → db_unlogged db cf;
  flush_cfs_persisted cfs db db' cf m :
    db_flush_cfs cfs db = (db', inr tt) → cf ∈ cfs → db_persisted db' cf m → db_tables db' cf = Some m;
}.

(** [map_err(|e| StorageError::DbError(e.to_string()))]. *)
Definition db_err {A} (r : db_result A) : result A :=
  match r with inl e => Err (DbError e) | inr a => Ok a end.

(** [for item in iter { let (key, _) = item?; .. }]: the keys of all items. *)
Fixpoint all_keys (items : list (db_result (bytes * bytes))) : result (list bytes) :=
  match items with
  | [] => Ok []
  | item :: items' =>
      let? row := db_err item in
      let? ks := all_keys items' in
      Ok (row.1 :: ks)
  end.

(** The database another process finds after a crash. *)
Definition crashed {DB Sst} `{RocksDBLaws DB Sst} (db db' : DB) : Prop :=
  ∀ cf, ∃ m, db_persisted db cf m ∧ db_tables db' cf = Some m.

(** ** A small database

    The contents, what the last flush wrote, which of the next operations fail, and
    whether iterators fail. *)

Record RefDb := mkRefDb {
  rd_tables : Cf → option table;
  rd_stable : Cf → option table;
  rd_failures : list bool;
  rd_unreadable : bool;
}.

Definition set_table (cf : Cf) (t : option table) (ts : Cf → option table) : Cf → option table :=
  λ c, if decide (c = cf) then t else ts c.

(** An operation, unless it is to fail. *)
Definition rd_attempt {A} (f : RefDb → RefDb * A) (db : RefDb) : RefDb * db_result A :=
  match rd_failures db with
  | true :: fs => (mkRefDb (rd_tables db) (rd_stable db) fs (rd_unreadable db), inl "Corruption"%string)
  | fs => let '(db', a) := f (mkRefDb (rd_tables db) (rd_stable db) (tail fs) (rd_unreadable db)) in (db', inr a)
  end.

Definition rd_map_tables (f : (Cf → option table) → Cf → option table) (db : RefDb) : RefDb * unit :=
  (mkRefDb (f (rd_tables db)) (rd_stable db) (rd_failures db) (rd_unreadable db), tt).

Definition ref_file : LiveFile := mkLiveFile "default" "000001.sst" "." 1 0 None None 0 0 1 0.

#[global] Instance ref_db : RocksDB RefDb table := {|
  db_cf_handle cf db := bool_decide (is_Some (rd_tables db cf));
  db_get cf key db := inr (rd_tables db cf ≫= (.!! key));
  db_get_from_batch ops cf key db := inr (rd_tables db cf ≫= λ m, batch_effect cf ops m !! key);
  db_iter cf from upper db :=
    if rd_unreadable db then [inl "Corruption"%string]
    else inr <$> rows_from from upper (default ∅ (rd_tables db cf));
  db_last cf db :=
    if rd_unreadable db then Some (inl "Corruption"%string) else inr <$> last (rows (default ∅ (rd_tables db cf)));
  db_write _ ops := rd_attempt (rd_map_tables (λ ts cf, batch_effect cf ops <$> ts cf));
  db_flush_wal := rd_attempt (λ db, (mkRefDb (rd_tables db) (rd_tables db) (rd_failures db) (rd_unreadable db), tt));
  db_flush_cfs cfs := rd_attempt (λ db,
    (mkRefDb (rd_tables db) (λ c, if decide (c ∈ cfs) then rd_tables db c else rd_stable db c)
       (rd_failures db) (rd_unreadable db), tt));
  db_drop_cf cf := rd_attempt (rd_map_tables (set_table cf None));
  db_create_cf cf := rd_attempt (rd_map_tables (set_table cf (Some ∅)));
  db_export cf dir := rd_attempt (λ db,
    let m := default ∅ (rd_tables db cf) in
    (db, (mkExportMeta "leveldb.BytewiseComparator"
            (if decide (m = ∅) then [] else [in_directory dir ref_file]), m)));
  db_import cf _ sst := rd_attempt (rd_map_tables (set_table cf (Some sst)));
  export_meta name files := inr (mkExportMeta name files);
|}.

(** What a successful and a failed operation do. *)
Lemma rd_attempt_ok {A} (f : RefDb → RefDb * A) db db' a :
  rd_attempt f db = (db', inr a) →
  ∃ fs, f (mkRefDb (rd_tables db) (rd_stable db) fs (rd_unreadable db)) = (db', a).
Proof.
  unfold rd_attempt. destruct (rd_failures db) as [|[] fs]; simpl; [|done|];
    (destruct (f _) as [d x] eqn:E; intros [= <- <-]; by eauto).
Qed.

Lemma rd_attempt_err {A} (f : RefDb → RefDb * A) db db' e :
  rd_attempt f db = (db', inl e) → rd_tables db' = rd_tables db.
Proof.
  unfold rd_attempt. destruct (rd_failures db) as [|[] fs]; simpl; [by destruct (f _)|by intros [= <- _]|by destruct (f _)].
Qed.

(** Operations that do not change the contents. *)
Lemma rd_attempt_tables {A} (f : RefDb → RefDb * A) db db' r :
  (∀ d, rd_tables (f d).1 = rd_tables d) → rd_attempt f db = (db', r) → rd_tables db' = rd_tables db.
Proof.
  intros Hf. destruct r as [e|a]; [apply rd_attempt_err|].
  intros (fs & E)%rd_attempt_ok. specialize (Hf (mkRefDb (rd_tables db) (rd_stable db) fs (rd_unreadable db))). by rewrite E in Hf.
Qed.

#[global] Instance ref_db_laws : RocksDBLaws RefDb table.
Proof.
  refine {| db_tables := rd_tables;
            db_persisted db cf m := rd_stable db cf = Some m ∨ rd_tables db cf = Some m;
            db_unlogged _ _ := False;
            db_denotes em sst m := sst = m ∧ (em_files em = [] → m = ∅) |}; simpl.
  - intros cf db. apply bool_decide_eq_true.
  - intros cf key db v m [= <-] ->. done.
  - intros ops cf key db v m [= <-] ->. done.
  - intros cf from upper db m ->. destruct (rd_unreadable db); [right; by exists 0%nat, "Corruption"%string|by left].
  - intros cf db m ->. destruct (rd_unreadable db); [right; by eexists|by left].
  - intros _ ops db db' cf (fs & [= <-])%rd_attempt_ok. done.
  - intros _ ops db db' e cf ->%rd_attempt_err. done.
  - intros db db' r cf Hr. erewrite rd_attempt_tables; [done| |exact Hr]. done.
  - intros cfs db db' r cf Hr. erewrite rd_attempt_tables; [done| |exact Hr]. done.
  - intros cf db db' c (fs & [= <-])%rd_attempt_ok. done.
  - intros cf db db' e c ->%rd_attempt_err. done.
  - intros cf db db' c (fs & [= <-])%rd_attempt_ok. done.
  - intros cf db db' e c ->%rd_attempt_err. done.
  - intros cf dir db db' r c Hr. erewrite rd_attempt_tables; [done| |exact Hr]. done.
  - intros cf dir db db' em sst m (fs & [= _ <- <-])%rd_attempt_ok. simpl. intros ->. split; [done|].
    simpl. by case_decide.
  - intros name files em [= <-]. done.
  - intros dir em sst m [-> Hf]. split; [done|]. simpl. by intros ->%fmap_nil_inv%Hf.
  - intros em sst m [-> Hf]. done.
  - intros cf em sst db db' m c (fs & [= <-])%rd_attempt_ok [-> _]. done.
  - intros cf em sst db db' e c ->%rd_attempt_err. done.
  - by auto.
  - intros _ ops db db' cf m (fs & [= <-])%rd_attempt_ok. simpl. intros [H|(m0 & Hm & ->)%fmap_Some]; [by auto|].
    right. exists m0. by auto.
  - done.
  - intros db db' cf m (fs & [= <-])%rd_attempt_ok _. simpl. tauto.
  - done.
  - intros cfs db db' cf m (fs & [= <-])%rd_attempt_ok Hin. simpl. rewrite decide_True by done. tauto.
Defined.

(** The column families of a database that was just created. *)
Definition empty_db : RefDb := mkRefDb (λ _, Some ∅) (λ _, Some ∅) [] false.

(** Whether a crash can leave the second database of the first. *)
Definition crash_check (db db' : RefDb) : bool :=
  forallb (λ cf, match rd_tables db' cf with
                 | Some t => bool_decide (rd_stable db cf = Some t) || bool_decide (rd_tables db cf = Some t)
                 | None => false
                 end) [LOG_CF; META_CF; STATE_MACHINE_CF; STATE_MACHINE_META_CF].

Lemma crash_check_sound db db' : crash_check db db' = true → crashed db db'.
Proof.
  unfold crash_check. rewrite forallb_forall. intros Hall cf.
  specialize (Hall cf ltac:(destruct cf; simpl; tauto)). destruct (rd_tables db' cf) as [t|] eqn:E; [|done].
  exists t. split; [|done]. apply orb_true_iff in Hall as [H%bool_decide_eq_true|H%bool_decide_eq_true]; [by left|by right].
Qed.
