(* ===== verification/RocksLogSpec.v ===== *)
(** * The RocksDB log store

    [d-engine-server/src/storage/adaptors/rocksdb/rocksdb_storage_engine.rs]: the log and
    the hard state in two column families. An entry is stored under its index as a
    big-endian number. The database is the parameter of [RocksDb.v]; prost and bincode
    are parameters with their round-trip laws. *)

From stdpp Require Import base tactics numbers option list sorting gmap strings.
From S2P Require Import Prelude Proc Types TermSegments BufferedLog LogInv LogSpec LogStore Roles Codec.
From S2P Require Import FileStorage RocksDb.

(** [LogId::encode_to_vec], [LogId::decode]. *)
Class LogIdCodec := {
  id_encode : LogId → bytes;
  id_decode : bytes → option LogId;
  id_round_trip i : id_decode (id_encode i) = Some i;
}.

(** The bytes of "purge_boundary". *)
Definition PURGE_BOUNDARY_KEY : bytes := [112; 117; 114; 103; 101; 95; 98; 111; 117; 110; 100; 97; 114; 121].

Record RocksDBLogStore (DB : Type) := mkRocksDBLogStore { rl_db : DB; rl_last_index : N }.
Arguments mkRocksDBLogStore {DB}.
Arguments rl_db {DB}.
Arguments rl_last_index {DB}.

#[global] Instance RocksDBLogStore_settable {DB} : Settable (RocksDBLogStore DB) := λ s,
  mkRocksDBLogStore (rl_db s) (rl_last_index s).

Definition index_to_key (index : N) : bytes := be64 index.

Definition key_index (key : bytes) : option N := if (length key =? 8)%nat then Some (be_decode key) else None.

Section store.
Context {DB Sst : Type} `{!RocksDB DB Sst} `{!EntryCodec} `{!LogIdCodec} `{!HardStateCodec}.
Abbreviation rls := (proc (RocksDBLogStore DB)).

(** [RocksDBLogStore::new]: an error of the iterator leaves the last index at zero. *)
Definition rl_new (db : DB) : RocksDBLogStore DB :=
  mkRocksDBLogStore db
    (if db_cf_handle LOG_CF db then
       match db_last LOG_CF db with
       | Some (inr (key, _)) => default 0 (key_index key)
       | _ => 0
       end
     else 0).

(** [self.db.cf_handle(LOG_CF).ok_or_else(..)?]. *)
Definition log_cf : rls unit :=
  s ← get;
  if db_cf_handle LOG_CF (rl_db s) then mret tt else fail (DbError "Log column family not found").

(** A call that changes the database. *)
Definition on_db {A} (f : DB → DB * db_result A) : rls A := λ s,
  let '(db, r) := f (rl_db s) in Some (s <| rl_db := db |>, db_err r).

Definition put_entry (e : Entry) : WriteOp := OpPut LOG_CF (index_to_key (e_index e)) (encode_to_vec e).

Definition rl_persist_entries (es : list Entry) : rls unit :=
  log_cf;;
  let max_index := foldl (λ a e, N.max a (e_index e)) 0 es in
  on_db (db_write false (put_entry <$> es));;
  if 0 <? max_index then modify (λ s, s <| rl_last_index := max_index |>) else mret tt.

Definition decode_value (value : bytes) : result Entry :=
  match entry_decode value with Some e => Ok e | None => Err (SerializationError "Entry") end.

Definition rl_entry (index : N) (s : RocksDBLogStore DB) : result (option Entry) :=
  if db_cf_handle LOG_CF (rl_db s) then
    let? v := db_err (db_get LOG_CF (index_to_key index) (rl_db s)) in
    match v with
    | Some value => let? e := decode_value value in Ok (Some e)
    | None => Ok None
    end
  else Err (DbError "Log column family not found").

(** The loop of [get_entries]. *)
Fixpoint read_range (hi : N) (items : list (db_result (bytes * bytes))) : result (list Entry) :=
  match items with
  | [] => Ok []
  | item :: items' =>
      let? row := db_err item in
      match key_index row.1 with
      | None => read_range hi items'
      | Some i =>
          if hi <? i then Ok []
          else let? e := decode_value row.2 in
               let? es := read_range hi items' in
               Ok (e :: es)
      end
  end.

Definition rl_get_entries (lo hi : N) (s : RocksDBLogStore DB) : result (list Entry) :=
  if db_cf_handle LOG_CF (rl_db s) then read_range hi (db_iter LOG_CF (index_to_key lo) None (rl_db s))
  else Err (DbError "Log column family not found").

(** The loop of [purge]: the keys up to the cutoff. *)
Fixpoint keys_up_to (cutoff : N) (items : list (db_result (bytes * bytes))) : result (list bytes) :=
  match items with
  | [] => Ok []
  | item :: items' =>
      let? row := db_err item in
      match key_index row.1 with
      | None => keys_up_to cutoff items'
      | Some i =>
          if cutoff <? i then Ok []
          else let? ks := keys_up_to cutoff items' in Ok (row.1 :: ks)
      end
  end.

Definition lift {A} (r : result A) : rls A := match r with Ok a => mret a | Err e => fail e end.

Definition rl_purge (cutoff : LogId) : rls unit :=
  log_cf;;
  s ← get;
  keys ← lift (keys_up_to (lid_index cutoff) (db_iter LOG_CF (index_to_key 0) None (rl_db s)));
  on_db (db_write false (OpDelete LOG_CF <$> keys));;
  s ← get;
  if db_cf_handle META_CF (rl_db s)
  then on_db (db_write false [OpPut META_CF PURGE_BOUNDARY_KEY (id_encode cutoff)])
  else mret tt.

(** The loop of [truncate]: the keys up to the last index. *)
Fixpoint keys_to_last (last_index : N) (items : list (db_result (bytes * bytes))) : result (list bytes) :=
  match items with
  | [] => Ok []
  | item :: items' =>
      let? row := db_err item in
      let stop := match key_index row.1 with Some i => last_index <=? i | None => false end in
      if stop then Ok [row.1] else let? ks := keys_to_last last_index items' in Ok (row.1 :: ks)
  end.

Definition rl_truncate (from_index : N) : rls unit :=
  log_cf;;
  s ← get;
  keys ← lift (keys_to_last (rl_last_index s) (db_iter LOG_CF (index_to_key from_index) None (rl_db s)));
  on_db (db_write false (OpDelete LOG_CF <$> keys));;
  modify (λ s, s <| rl_last_index := from_index - 1 |>).

Definition rl_replace_range (from_index : N) (new_entries : list Entry) : rls unit :=
  log_cf;;
  on_db (db_write false
    (OpDeleteRange LOG_CF (index_to_key from_index) (index_to_key u64_max) :: (put_entry <$> new_entries)));;
  modify (λ s, s <| rl_last_index := default (from_index - 1) (e_index <$> last new_entries) |>).

Definition rl_flush : rls unit := on_db db_flush_wal.

Definition rl_reset : rls unit :=
  log_cf;;
  s ← get;
  rows ← lift (all_keys (db_iter LOG_CF [] None (rl_db s)));
  on_db (db_write false (OpDelete LOG_CF <$> rows));;
  modify (λ s, s <| rl_last_index := 0 |>).

Definition rl_load_purge_boundary (s : RocksDBLogStore DB) : result (option LogId) :=
  if db_cf_handle META_CF (rl_db s) then
    let? v := db_err (db_get META_CF PURGE_BOUNDARY_KEY (rl_db s)) in
    match v with
    | Some value => match id_decode value with
                    | Some i => Ok (Some i)
                    | None => Err (SerializationError "LogId")
                    end
    | None => Ok None
    end
  else Err (DbError "Meta column family not found").

(** [Drop]: errors are logged. *)
Definition rl_drop : rls unit :=
  attempt (on_db db_flush_wal);;
  s ← get;
  if db_cf_handle LOG_CF (rl_db s) then attempt (on_db (db_flush_cfs [LOG_CF]));; mret tt else mret tt.

(** The store as the raft log uses it; a read that fails finds nothing. The index of an
    entry is a [u64]. *)
Definition rl_run (p : rls unit) (s : RocksDBLogStore DB) : RocksDBLogStore DB * result unit :=
  default (s, Err (Fatal "panic")) (p s).

#[export] Instance RocksDBLogStore_LogStore : LogStore (RocksDBLogStore DB) := {
  persist_entries s es :=
    if forallb (λ e, e_index e <=? u64_max) es then rl_run (rl_persist_entries es) s
    else (s, Err (Fatal "panic"));
  store_entry s i := match rl_entry i s with Ok e => e | Err _ => None end;
  get_entries s lo hi := match rl_get_entries lo hi s with Ok es => es | Err _ => [] end;
  store_purge s c := rl_run (rl_purge c) s;
  store_truncate s i := rl_run (rl_truncate i) s;
  replace_range s i es := rl_run (rl_replace_range i es) s;
  is_write_durable _ := false;
  store_flush s := rl_run rl_flush s;
  store_reset s := rl_run rl_reset s;
  store_last_index := rl_last_index;
  load_purge_boundary := rl_load_purge_boundary;
}.

(** ** The store of the hard state *)

Definition rm_save_hard_state (h : HardState) (db : DB) : DB * result unit :=
  if db_cf_handle META_CF db then
    let '(db, r) := db_write false [OpPut META_CF HARD_STATE_KEY (hs_serialize h)] db in (db, db_err r)
  else (db, Err (DbError "Meta column family not found")).

Definition rm_load_hard_state (db : DB) : result (option HardState) :=
  if db_cf_handle META_CF db then
    let? v := db_err (db_get META_CF HARD_STATE_KEY db) in
    match v with
    | Some value => match hs_deserialize value with Some h => Ok (Some h) | None => Err BincodeError end
    | None => Ok None
    end
  else Err (DbError "Meta column family not found").

Definition rm_flush (db : DB) : DB * result unit :=
  let '(db, r) := db_flush_wal db in (db, db_err r).
End store.

(** * The RocksDB log store: what its table represents

    A table of the log column family represents a map of entries. The iterators of the
    store then list the entries in the order of their indexes, every operation of
    the store above has the effect on the map that the raft log asks for, and the store has
    the laws of [LogStore]. *)

(** ** Loops over iterators that may fail *)

(** The items of an iterator over these rows. *)
Inductive items_of (l : list (bytes * bytes)) : list (db_result (bytes * bytes)) → Prop :=
  | items_all : items_of l (inr <$> l)
  | items_failed j e : items_of l ((inr <$> take j l) ++ [inl e]).

(** A loop that returned a result did not meet an error. *)
Definition strict {A} (loop : list (db_result (bytes * bytes)) → result A) : Prop :=
  ∀ l j e a, loop ((inr <$> take j l) ++ [inl e]) = Ok a → loop (inr <$> l) = Ok a.

Lemma strict_items {A} (loop : list (db_result (bytes * bytes)) → result A) l items a :
  strict loop → items_of l items → loop items = Ok a → loop (inr <$> l) = Ok a.
Proof. intros Hs [|j e]; [done|apply Hs]. Qed.

Lemma all_keys_strict : strict all_keys.
Proof.
  intros l. induction l as [|r l IH]; intros j e a; [by destruct j; intros [=]|].
  destruct j as [|j]; [done|]. csimpl. specialize (IH j e).
  destruct (all_keys ((inr <$> take j l) ++ [inl e])) as [ks|]; [|done]. by rewrite (IH ks).
Qed.

Lemma all_keys_rows l : all_keys (inr <$> l) = Ok l.*1.
Proof. induction l as [|r l IH]; [done|]. csimpl. by rewrite IH. Qed.

Section spec.
Context {codec : EntryCodec}.

Lemma read_range_strict hi : strict (read_range hi).
Proof.
  intros l. induction l as [|r l IH]; intros j e a; [by destruct j; intros [=]|].
  destruct j as [|j]; [done|]. csimpl. specialize (IH j e). destruct (key_index r.1) as [i|]; [|apply IH].
  destruct (hi <? i); [done|]. destruct (decode_value r.2); [|done].
  destruct (read_range hi ((inr <$> take j l) ++ [inl e])) as [es|]; [|done]. by rewrite (IH es).
Qed.

Lemma keys_up_to_strict c : strict (keys_up_to c).
Proof.
  intros l. induction l as [|r l IH]; intros j e a; [by destruct j; intros [=]|].
  destruct j as [|j]; [done|]. csimpl. specialize (IH j e). destruct (key_index r.1) as [i|]; [|apply IH].
  destruct (c <? i); [done|].
  destruct (keys_up_to c ((inr <$> take j l) ++ [inl e])) as [es|]; [|done]. by rewrite (IH es).
Qed.

Lemma keys_to_last_strict c : strict (keys_to_last c).
Proof.
  intros l. induction l as [|r l IH]; intros j e a; [by destruct j; intros [=]|].
  destruct j as [|j]; [done|]. csimpl. specialize (IH j e).
  destruct (match key_index r.1 with Some i => c <=? i | None => false end); [done|].
  destruct (keys_to_last c ((inr <$> take j l) ++ [inl e])) as [es|]; [|done]. by rewrite (IH es).
Qed.

(** ** Tables of entries *)

Record represents (t : table) (v : gmap N Entry) : Prop := {
  rp_in i e : v !! i = Some e → i <= u64_max ∧ t !! be64 i = Some (encode_to_vec e);
  rp_out k b : t !! k = Some b → ∃ i e, i <= u64_max ∧ k = be64 i ∧ b = encode_to_vec e ∧ v !! i = Some e;
  rp_index i e : v !! i = Some e → e_index e = i;
}.

Definition row_of (p : N * Entry) : bytes * bytes := (be64 p.1, encode_to_vec p.2).

(** The entries of a table. *)
Definition log_view (t : table) : gmap N Entry :=
  list_to_map (omap (λ p, e ← entry_decode p.2; Some (be_decode p.1, e)) (map_to_list t)).

Lemma represents_view t v : represents t v → log_view t = v.
Proof.
  intros [Hin Hout _]. unfold log_view. set (l := omap _ _).
  assert (∀ i e, (i, e) ∈ l ↔ v !! i = Some e) as Hl.
  { intros i e. unfold l. rewrite list_elem_of_omap. split.
    - intros ([k b] & Hk%elem_of_map_to_list & He). simpl in He. destruct (Hout k b Hk) as (i' & e' & Hi & -> & -> & Hv).
      rewrite entry_round_trip in He. simpl in He. rewrite be_decode_be64 in He by done. by simplify_eq.
    - intros Hv. destruct (Hin i e Hv) as [Hi Ht]. exists (be64 i, encode_to_vec e).
      rewrite elem_of_map_to_list. split; [done|]. simpl. rewrite entry_round_trip. simpl. by rewrite be_decode_be64. }
  apply map_eq. intros i. destruct (v !! i) as [e|] eqn:E.
  - apply elem_of_list_to_map_1'; [|by apply Hl]. intros y Hy%Hl. congruence.
  - apply not_elem_of_list_to_map_1. intros ([i' e] & Hi & He%Hl)%list_elem_of_fmap. simpl in Hi. congruence.
Qed.

Lemma represents_key_index t v k b : represents t v → t !! k = Some b → is_Some (key_index k).
Proof.
  intros Hr Hk. destruct (rp_out _ _ Hr k b Hk) as (i & e & _ & -> & _). unfold key_index.
  rewrite length_be64. by eexists.
Qed.

Lemma key_index_be64 i : i <= u64_max → key_index (be64 i) = Some i.
Proof. intros Hi. unfold key_index. rewrite length_be64. simpl. by rewrite be_decode_be64. Qed.

Lemma sorted_row_of l :
  Forall (λ p : N * Entry, p.1 <= u64_max) l → StronglySorted key_lt l → StronglySorted row_lt (row_of <$> l).
Proof.
  intros Hall Hs. induction Hs as [|p l Hs IH Hp]; [constructor|]. inversion Hall as [|? ? Hi Hall']. subst.
  constructor; [by apply IH|]. apply Forall_fmap. rewrite Forall_forall in Hp, Hall' |- *. intros q Hq.
  change (negb (bytes_le (be64 q.1) (be64 p.1)) = true). apply negb_true_iff, not_true_iff_false.
  specialize (Hp q Hq). specialize (Hall' q Hq). unfold key_lt in Hp. intros Hle%be64_le; [|done|done]. lia.
Qed.

(** The rows of a table are the entries in order. *)
Lemma represents_rows t v lo :
  represents t v → lo <= u64_max → rows_from (be64 lo) None t = row_of <$> om_range lo u64_max v.
Proof.
  intros Hr Hlo. apply rows_unique; [apply rows_from_sorted| |].
  - apply sorted_row_of; [|apply om_range_sorted]. apply Forall_forall. intros [i e] (_ & Hi & _)%elem_of_om_range. done.
  - intros [k b]. rewrite elem_of_rows_from, list_elem_of_fmap. unfold in_bounds. split.
    + intros [Hk Hb]. rewrite andb_true_r in Hb. destruct (rp_out _ _ Hr k b Hk) as (i & e & Hi & -> & -> & Hv).
      exists (i, e). split; [done|]. apply elem_of_om_range. rewrite be64_le in Hb by done. done.
    + intros ([i e] & [= -> ->] & (Hl & Hi & Hv)%elem_of_om_range). split; [by apply (rp_in _ _ Hr)|].
      rewrite andb_true_r. by apply be64_le.
Qed.

Lemma all_rows t v : represents t v → rows t = row_of <$> om_iter v.
Proof.
  intros Hr. apply rows_unique; [apply rows_sorted| |].
  - apply sorted_row_of; [|apply om_iter_sorted]. apply Forall_forall. intros [i e] Hi%elem_of_om_iter.
    by apply (rp_in _ _ Hr i e).
  - intros [k b]. rewrite elem_of_rows, list_elem_of_fmap. split.
    + intros Hk. destruct (rp_out _ _ Hr k b Hk) as (i & e & Hi & -> & -> & Hv).
      exists (i, e). split; [done|]. by apply elem_of_om_iter.
    + intros ([i e] & [= -> ->] & Hv%elem_of_om_iter). by apply (rp_in _ _ Hr).
Qed.

(** ** The loops *)

Definition u64_keys (l : list (N * Entry)) : Prop := Forall (λ p, p.1 <= u64_max) l ∧ StronglySorted key_lt l.

Lemma u64_keys_cons p l : u64_keys (p :: l) → p.1 <= u64_max ∧ Forall (λ q, p.1 < q.1) l ∧ u64_keys l.
Proof. intros [Hall Hs]. inversion Hall; inversion Hs; subst. by repeat split. Qed.

Lemma filter_none (P : N * Entry → Prop) `{!∀ p, Decision (P p)} l : Forall (λ p, ¬ P p) l → filter P l = [].
Proof. induction 1 as [|p l Hp _ IH]; [done|]. by rewrite filter_cons_False. Qed.

Lemma read_range_rows hi l :
  u64_keys l → read_range hi (inr <$> (row_of <$> l)) = Ok (filter (λ p, p.1 <= hi) l).*2.
Proof.
  induction l as [|p l IH]; intros Hl; [done|]. apply u64_keys_cons in Hl as (Hp & Hall & Hl). csimpl.
  rewrite be_decode_be64 by done. destruct (N.ltb_spec hi p.1) as [Hlt|Hge].
  - rewrite filter_cons_False by (simpl; lia). rewrite filter_none; [done|]. eapply Forall_impl; [done|]. simpl. lia.
  - rewrite filter_cons_True by done. unfold decode_value. rewrite entry_round_trip. csimpl. by rewrite IH.
Qed.

Lemma keys_up_to_rows c l :
  u64_keys l → keys_up_to c (inr <$> (row_of <$> l)) = Ok ((λ p, be64 p.1) <$> filter (λ p, p.1 <= c) l).
Proof.
  induction l as [|p l IH]; intros Hl; [done|]. apply u64_keys_cons in Hl as (Hp & Hall & Hl). csimpl.
  rewrite be_decode_be64 by done. destruct (N.ltb_spec c p.1) as [Hlt|Hge].
  - rewrite filter_cons_False by (simpl; lia). rewrite filter_none; [done|]. eapply Forall_impl; [done|]. simpl. lia.
  - rewrite filter_cons_True by done. csimpl. by rewrite IH.
Qed.

(** The loop of [truncate] stops early only behind the last index. *)
Lemma keys_to_last_rows last_index l :
  u64_keys l → Forall (λ p, p.1 <= last_index) l →
  keys_to_last last_index (inr <$> (row_of <$> l)) = Ok ((λ p, be64 p.1) <$> l).
Proof.
  induction l as [|p l IH]; intros Hl Hb; [done|]. apply u64_keys_cons in Hl as (Hp & Hall & Hl). csimpl.
  rewrite be_decode_be64 by done. inversion Hb as [|? ? Hpb Hb']. subst.
  destruct (N.leb_spec last_index p.1) as [Hle|Hgt].
  - destruct l as [|q l]; [done|]. inversion Hall; inversion Hb'; subst. lia.
  - by rewrite IH.
Qed.

Lemma om_range_u64 v lo hi : hi <= u64_max → u64_keys (om_range lo hi v).
Proof.
  intros Hhi. split; [|apply om_range_sorted]. apply Forall_forall. intros [i e] (_ & Hi & _)%elem_of_om_range. simpl. lia.
Qed.

(** ** Batches *)

Lemma represents_insert t v e :
  represents t v → e_index e <= u64_max →
  represents (<[be64 (e_index e) := encode_to_vec e]> t) (<[e_index e := e]> v).
Proof.
  intros [Hin Hout Hidx] He. split.
  - intros i x. destruct (decide (e_index e = i)) as [<-|Hne].
    + rewrite lookup_insert_eq. intros [= <-]. split; [done|]. apply lookup_insert_eq.
    + rewrite lookup_insert_ne by done. intros Hx. destruct (Hin i x Hx) as [Hi Ht]. split; [done|].
      rewrite lookup_insert_ne; [done|]. by intros ?%be64_inj.
  - intros k b. destruct (decide (be64 (e_index e) = k)) as [<-|Hne].
    + rewrite lookup_insert_eq. intros [= <-]. exists (e_index e), e. by rewrite lookup_insert_eq.
    + rewrite lookup_insert_ne by done. intros Hk. destruct (Hout k b Hk) as (i & x & Hi & -> & -> & Hv).
      exists i, x. rewrite lookup_insert_ne by congruence. done.
  - intros i x [[<- <-]|[_ Hx]]%lookup_insert_Some; [done|by apply Hidx].
Qed.

Definition u64_indexes (es : list Entry) : Prop := Forall (λ e, e_index e <= u64_max) es.

Lemma represents_puts t v es :
  represents t v → u64_indexes es → represents (batch_effect LOG_CF (put_entry <$> es) t) (insert_entries v es).
Proof.
  intros Hr He. revert t v Hr. unfold batch_effect, insert_entries. induction He as [|e es He _ IH]; intros t v Hr; [done|].
  csimpl. apply IH. by apply represents_insert.
Qed.

Lemma deletes_lookup keys t k :
  batch_effect LOG_CF (OpDelete LOG_CF <$> keys) t !! k = if decide (k ∈ keys) then None else t !! k.
Proof.
  unfold batch_effect. revert t. induction keys as [|k' keys IH]; intros t; [by rewrite decide_False by apply not_elem_of_nil|].
  csimpl. rewrite IH. destruct (decide (k ∈ keys)) as [Hk|Hk]; [by rewrite decide_True by (by right)|].
  destruct (decide (k' = k)) as [->|Hne].
  - rewrite lookup_delete_eq. by rewrite decide_True by (by left).
  - rewrite lookup_delete_ne by done. rewrite decide_False; [done|]. by intros [|]%elem_of_cons.
Qed.

(** Removing exactly the keys of the entries that satisfy [P]. *)
Lemma represents_filter (P : N * Entry → Prop) `{!∀ p, Decision (P p)} t t' v :
  represents t v →
  (∀ i e, v !! i = Some e → t' !! be64 i = if decide (P (i, e)) then t !! be64 i else None) →
  (∀ k, t !! k = None → t' !! k = None) → represents t' (filter P v).
Proof.
  intros [Hin Hout Hidx] Hkeep Hnone. split.
  - intros i e [Hv HP]%map_lookup_filter_Some. destruct (Hin i e Hv) as [Hi Ht]. split; [done|].
    by rewrite (Hkeep i e Hv), decide_True.
  - intros k b Hk. destruct (t !! k) as [b'|] eqn:Ht; [|by rewrite Hnone in Hk].
    destruct (Hout k b' Ht) as (i & e & Hi & -> & -> & Hv). rewrite (Hkeep i e Hv) in Hk.
    destruct (decide (P (i, e))) as [HP|]; [|done]. rewrite Ht in Hk. injection Hk as <-.
    exists i, e. by rewrite map_lookup_filter_Some.
  - intros i e [Hv _]%map_lookup_filter_Some. by apply Hidx.
Qed.

Lemma represents_deletes (P : N * Entry → Prop) `{!∀ p, Decision (P p)} t v keys :
  represents t v → (∀ i e, v !! i = Some e → be64 i ∈ keys ↔ ¬ P (i, e)) →
  represents (batch_effect LOG_CF (OpDelete LOG_CF <$> keys) t) (filter P v).
Proof.
  intros Hr Hk. apply (represents_filter _ t); [done| |].
  - intros i e Hv. rewrite deletes_lookup. specialize (Hk i e Hv). repeat case_decide; naive_solver.
  - intros k Ht. rewrite deletes_lookup. by case_decide.
Qed.

Lemma represents_delete_range t v from :
  represents t v → from <= u64_max → (∀ i, is_Some (v !! i) → i < u64_max) →
  represents (batch_effect LOG_CF [OpDeleteRange LOG_CF (be64 from) (be64 u64_max)] t) (filter (λ p, p.1 < from) v).
Proof.
  intros Hr Hf Hlt. unfold batch_effect. cbn [foldl op_effect]. rewrite decide_True by done.
  apply (represents_filter _ t); [done| |].
  - intros i e Hv. destruct (rp_in _ _ Hr i e Hv) as [Hi Ht]. specialize (Hlt i ltac:(eauto)).
    assert (in_bounds (be64 from) (Some (be64 u64_max)) (be64 i) = true ↔ from <= i) as Hb.
    { unfold in_bounds, bytes_lt. rewrite andb_true_iff, be64_le, negb_true_iff, <-not_true_iff_false, be64_le by done. lia. }
    rewrite Ht. case_decide as Hd; simpl in Hd.
    + apply map_lookup_filter_Some. split; [done|]. simpl. apply not_true_iff_false. rewrite Hb. lia.
    + apply map_lookup_filter_None. right. intros x _. simpl. rewrite (proj2 Hb) by lia. done.
  - intros k Hn. apply map_lookup_filter_None. by left.
Qed.

(** ** Operations of the store *)

Context {DB Sst : Type} `{!RocksDB DB Sst} `{!RocksDBLaws DB Sst} {id_codec : LogIdCodec} {hs_codec : HardStateCodec}.
Implicit Types s : RocksDBLogStore DB.

Lemma iter_items cf from upper (db : DB) m :
  db_tables db cf = Some m → items_of (rows_from from upper m) (db_iter cf from upper db).
Proof. intros Hm. destruct (iter_spec cf from upper db m Hm) as [->|(j & e & ->)]; constructor. Qed.

Lemma log_cf_ok s s' : log_cf s = Some (s', Ok tt) → s' = s.
Proof. unfold log_cf, mbind, proc_bind, get. by destruct (db_cf_handle _ _); intros [= <-]. Qed.

Lemma on_db_ok {A} (f : DB → DB * db_result A) s s' a :
  on_db f s = Some (s', Ok a) → ∃ db, f (rl_db s) = (db, inr a) ∧ s' = s <| rl_db := db |>.
Proof.
  unfold on_db. destruct (f (rl_db s)) as [db [e|x]]; [done|]. intros [= <- <-]. by exists db.
Qed.

Lemma lift_ok {A} (r : result A) s s' a : lift r s = Some (s', Ok a) → s' = s ∧ r = Ok a.
Proof. by destruct r; intros [= <- <-]. Qed.

(** The log column family holds the entries [v]. *)
Definition holds (db : DB) (v : gmap N Entry) : Prop := ∃ t, db_tables db LOG_CF = Some t ∧ represents t v.

Lemma write_holds (db db' : DB) ops v v' :
  holds db v → db_write false ops db = (db', inr tt) →
  (∀ t, represents t v → represents (batch_effect LOG_CF ops t) v') → holds db' v'.
Proof.
  intros (t & Ht & Hr) Hw Hops. exists (batch_effect LOG_CF ops t). split; [|by apply Hops].
  by rewrite (write_ok _ _ _ _ LOG_CF Hw), Ht.
Qed.

(** A store that completed [persist_entries]. *)
Lemma rl_persist_inv es s s' :
  rl_persist_entries es s = Some (s', Ok tt) →
  db_write false (put_entry <$> es) (rl_db s) = (rl_db s', inr tt)
  ∧ rl_last_index s' = (if 0 <? foldl (λ a e, N.max a (e_index e)) 0 es
                        then foldl (λ a e, N.max a (e_index e)) 0 es else rl_last_index s).
Proof.
  unfold rl_persist_entries. intros (s1 & [] & ->%log_cf_ok & H)%bind_ok_inv.
  apply bind_ok_inv in H as (s2 & [] & (db & Hw & ->)%on_db_ok & H). rewrite Hw.
  destruct (0 <? _); by injection H as <-.
Qed.

(** The reads of [purge], [truncate] and [reset] that find the keys to delete. *)
Lemma rl_purge_inv c s s' v :
  holds (rl_db s) v → rl_purge c s = Some (s', Ok tt) →
  ∃ keys db1, db_write false (OpDelete LOG_CF <$> keys) (rl_db s) = (db1, inr tt)
    ∧ keys = (λ p, be64 p.1) <$> om_range 0 (N.min (lid_index c) u64_max) v
    ∧ rl_last_index s' = rl_last_index s
    ∧ (rl_db s' = db1 ∨ db_write false [OpPut META_CF PURGE_BOUNDARY_KEY (id_encode c)] db1 = (rl_db s', inr tt)).
Proof.
  intros (t & Ht & Hr). unfold rl_purge. intros (s1 & [] & ->%log_cf_ok & H)%bind_ok_inv.
  apply bind_ok_inv in H as (s2 & x & [= <- <-] & H). apply bind_ok_inv in H as (s3 & keys & [-> Hk]%lift_ok & H).
  apply bind_ok_inv in H as (s4 & [] & (db1 & Hw & ->)%on_db_ok & H).
  apply bind_ok_inv in H as (s5 & x & [= <- <-] & H). exists keys, db1. split; [done|].
  eapply strict_items in Hk; [|apply keys_up_to_strict|by apply iter_items].
  unfold index_to_key in Hk. rewrite (represents_rows t v 0), keys_up_to_rows in Hk by (done || by apply om_range_u64).
  split.
  { injection Hk as <-. f_equal. unfold om_range. rewrite list_filter_filter. apply list_filter_iff. intros p. lia. }
  destruct (db_cf_handle _ _); simpl in H.
  - apply on_db_ok in H as (db & Hw2 & ->). simpl in *. eauto.
  - injection H as <-. simpl. eauto.
Qed.

Lemma rl_truncate_inv from s s' v :
  holds (rl_db s) v → from <= u64_max → (∀ i, is_Some (v !! i) → i <= rl_last_index s) →
  rl_truncate from s = Some (s', Ok tt) →
  db_write false (OpDelete LOG_CF <$> ((λ p, be64 p.1) <$> om_range from u64_max v)) (rl_db s) = (rl_db s', inr tt)
  ∧ rl_last_index s' = from - 1.
Proof.
  intros (t & Ht & Hr) Hf Hlast. unfold rl_truncate. intros (s1 & [] & ->%log_cf_ok & H)%bind_ok_inv.
  apply bind_ok_inv in H as (s2 & x & [= <- <-] & H). apply bind_ok_inv in H as (s3 & keys & [-> Hk]%lift_ok & H).
  apply bind_ok_inv in H as (s4 & [] & (db1 & Hw & ->)%on_db_ok & H).
  eapply strict_items in Hk; [|apply keys_to_last_strict|by apply iter_items].
  unfold index_to_key in Hk. rewrite (represents_rows t v from), keys_to_last_rows in Hk; [|by apply om_range_u64| |done|done].
  - injection Hk as <-. injection H as <-. done.
  - apply Forall_forall. intros [i e] (_ & _ & Hi)%elem_of_om_range. apply Hlast. eauto.
Qed.

Lemma rl_replace_inv from es s s' :
  rl_replace_range from es s = Some (s', Ok tt) →
  db_write false (OpDeleteRange LOG_CF (be64 from) (be64 u64_max) :: (put_entry <$> es)) (rl_db s) = (rl_db s', inr tt)
  ∧ rl_last_index s' = default (from - 1) (e_index <$> last es).
Proof.
  unfold rl_replace_range. intros (s1 & [] & ->%log_cf_ok & H)%bind_ok_inv.
  apply bind_ok_inv in H as (s2 & [] & (db & Hw & ->)%on_db_ok & [= <-]). done.
Qed.

Lemma rl_flush_inv s s' :
  rl_flush s = Some (s', Ok tt) → db_flush_wal (rl_db s) = (rl_db s', inr tt) ∧ rl_last_index s' = rl_last_index s.
Proof. by intros (db & Hw & ->)%on_db_ok. Qed.

Lemma rl_reset_inv s s' t :
  db_tables (rl_db s) LOG_CF = Some t → rl_reset s = Some (s', Ok tt) →
  db_write false (OpDelete LOG_CF <$> (rows t).*1) (rl_db s) = (rl_db s', inr tt) ∧ rl_last_index s' = 0.
Proof.
  intros Ht. unfold rl_reset. intros (s1 & [] & ->%log_cf_ok & H)%bind_ok_inv.
  apply bind_ok_inv in H as (s2 & x & [= <- <-] & H). apply bind_ok_inv in H as (s3 & keys & [-> Hk]%lift_ok & H).
  apply bind_ok_inv in H as (s4 & [] & (db1 & Hw & ->)%on_db_ok & [= <-]).
  eapply strict_items in Hk; [|apply all_keys_strict|by apply iter_items].
  rewrite all_keys_rows, rows_from_start in Hk. by injection Hk as <-.
Qed.

(** ** The laws of a log store *)

Lemma rl_run_ok (p : proc (RocksDBLogStore DB) unit) s s' : rl_run p s = (s', Ok tt) → p s = Some (s', Ok tt).
Proof. unfold rl_run. by destruct (p s) as [[? ?]|]; [intros [= -> ->]|]. Qed.

Lemma persist_entries_ok s s' es :
  persist_entries s es = (s', Ok tt) → u64_indexes es ∧ rl_persist_entries es s = Some (s', Ok tt).
Proof.
  simpl. destruct (forallb _ es) eqn:E; [|done]. intros H%rl_run_ok. split; [|done].
  apply Forall_forall. intros e He. rewrite forallb_forall in E. apply N.leb_le, E. by apply list_elem_of_In.
Qed.

(** What a crash can leave is a table of entries too. *)
Record rl_ok s : Prop := {
  ro_holds : ∃ v, holds (rl_db s) v;
  ro_persisted m : db_persisted (rl_db s) LOG_CF m → ∃ v, represents m v;
  ro_logged : ¬ db_unlogged (rl_db s) LOG_CF;
}.

Definition rl_view s : gmap N Entry := log_view (default ∅ (db_tables (rl_db s) LOG_CF)).

Definition rl_survives s (i : N) (e : Entry) : Prop :=
  i <= u64_max ∧ ∀ m, db_persisted (rl_db s) LOG_CF m → m !! be64 i = Some (encode_to_vec e).

Lemma holds_view s v : holds (rl_db s) v → rl_view s = v.
Proof. intros (t & Ht & Hr). unfold rl_view. rewrite Ht. by apply represents_view. Qed.

(** Writes to the log that keep every table of entries one. *)
Lemma write_rl_ok s s' ops f :
  rl_ok s → db_write false ops (rl_db s) = (rl_db s', inr tt) →
  (∀ t v, represents t v → represents (batch_effect LOG_CF ops t) (f v)) →
  rl_ok s' ∧ rl_view s' = f (rl_view s).
Proof.
  intros [[v Hv] Hp Hl] Hw Hops.
  assert (holds (rl_db s') (f v)) as Hv' by (eapply write_holds; [exact Hv|exact Hw|intros t; apply Hops]).
  split; [split; [by eexists| |]|by rewrite (holds_view _ _ Hv), (holds_view _ _ Hv')].
  - intros m [Hm|(m0 & Hm & ->)]%(write_persisted _ _ _ _ _ _ Hw); [by apply Hp|].
    destruct (Hp m0 Hm) as [v0 Hv0]. eexists. by apply Hops.
  - by intros [?|?]%(write_unlogged _ _ _ _ _ Hw).
Qed.

(** Writes that leave a row as it is. *)
Lemma write_survives s s' ops i e :
  db_write false ops (rl_db s) = (rl_db s', inr tt) → rl_survives s i e →
  (∀ t, t !! be64 i = Some (encode_to_vec e) → batch_effect LOG_CF ops t !! be64 i = Some (encode_to_vec e)) →
  rl_survives s' i e.
Proof.
  intros Hw [Hi Hs] Hops. split; [done|].
  intros m [Hm|(m0 & Hm & ->)]%(write_persisted _ _ _ _ _ _ Hw); [by apply Hs|by apply Hops, Hs].
Qed.

Lemma puts_keep es t i e :
  u64_indexes es → i <= u64_max → (∀ e', e' ∈ es → e_index e' = i → e' = e) →
  t !! be64 i = Some (encode_to_vec e) →
  batch_effect LOG_CF (put_entry <$> es) t !! be64 i = Some (encode_to_vec e).
Proof.
  intros He Hi. unfold batch_effect. revert t. induction He as [|x es Hx _ IH]; intros t Hsame Ht; [done|]. csimpl.
  apply IH; [intros e' He'; apply Hsame; by right|]. destruct (decide (e_index x = i)) as [Heq|Hne].
  - rewrite (Hsame x) by (by left || done). rewrite <-(Hsame x) by (by left || done). unfold index_to_key.
    rewrite Heq. apply lookup_insert_eq.
  - rewrite lookup_insert_ne; [done|]. unfold index_to_key. by intros ?%be64_inj.
Qed.

Lemma rl_purge_steps c s s' :
  rl_ok s → rl_purge c s = Some (s', Ok tt) →
  rl_ok s' ∧ (∀ i, lid_index c < i → rl_view s' !! i = rl_view s !! i)
  ∧ ∀ i e, lid_index c < i → rl_survives s i e → rl_survives s' i e.
Proof.
  intros Hok Hp. destruct (ro_holds _ Hok) as [v Hv]. rewrite (holds_view s v Hv).
  destruct (rl_purge_inv c s s' v Hv Hp) as (keys & db1 & Hw & -> & _ & Hm).
  set (s1 := s <| rl_db := db1 |>). set (keys := (λ p : N * Entry, be64 p.1) <$> _) in Hw.
  assert (∀ i, i <= u64_max → be64 i ∈ keys → i <= lid_index c) as Hkeys.
  { intros i Hi ([j e] & Heq & (_ & Hj & _)%elem_of_om_range)%list_elem_of_fmap. simpl in *.
    apply be64_inj in Heq; lia. }
  assert (rl_ok s1 ∧ rl_view s1 = filter (λ p, be64 p.1 ∉ keys) (rl_view s)) as [Hok1 Hv1].
  { apply (write_rl_ok s s1 (OpDelete LOG_CF <$> keys) (filter (λ p, be64 p.1 ∉ keys))); [done|done|].
    intros t w Hr. apply represents_deletes; [done|]. intros i e _. simpl. split; [by intros ? []|].
    intros ?. by apply dec_stable. }
  assert (∀ i e, lid_index c < i → rl_survives s i e → rl_survives s1 i e) as Hs1.
  { intros i e Hi Hs. destruct Hs as [Hi' Hs]. apply (write_survives s s1 (OpDelete LOG_CF <$> keys)); [done|done|].
    intros t Ht. rewrite deletes_lookup, decide_False; [done|]. intros ?%Hkeys; [lia|done]. }
  assert (∀ i, lid_index c < i → rl_view s1 !! i = v !! i) as Hview1.
  { intros i Hi. rewrite Hv1, (holds_view s v Hv). apply option_eq. intros e. rewrite map_lookup_filter_Some. simpl.
    split; [tauto|]. intros He. split; [done|]. destruct Hv as (t & _ & Hr). destruct (rp_in _ _ Hr i e He) as [Hi' _].
    intros ?%Hkeys; [lia|done]. }
  destruct Hm as [Hdb|Hmeta].
  - assert (rl_ok s' ∧ rl_view s' = rl_view s1) as [Hok' Hv'].
    { unfold rl_view. rewrite Hdb. split; [|done]. destruct Hok1 as [A B C]. split; by rewrite Hdb. }
    split; [done|]. split; [intros i Hi; rewrite Hv'; by apply Hview1|]. intros i e Hi Hs.
    destruct (Hs1 i e Hi Hs) as [? Hp1]. split; [done|]. by rewrite Hdb.
  - destruct (write_rl_ok s1 s' _ id Hok1 Hmeta) as [Hok' Hv']; [by intros t w Hr|].
    split; [done|]. split; [intros i Hi; rewrite Hv'; by apply Hview1|]. intros i e Hi Hs.
    by apply (write_survives s1 s' _ i e Hmeta); [apply Hs1|].
Qed.

Lemma rl_flush_ok s s' :
  rl_ok s → rl_flush s = Some (s', Ok tt) →
  rl_ok s' ∧ rl_view s' = rl_view s ∧ ∀ i e, rl_view s !! i = Some e → rl_survives s' i e.
Proof.
  intros [[v Hv] Hp Hl] [Hf _]%rl_flush_inv. pose proof (flush_wal_tables _ _ _ LOG_CF Hf) as Ht.
  assert (holds (rl_db s') v) as Hv' by (destruct Hv as (t & ? & ?); exists t; by rewrite Ht).
  assert (∀ m, db_persisted (rl_db s') LOG_CF m → represents m v) as Hp'.
  { intros m Hm%(flush_wal_persisted _ _ _ _ Hf Hl). destruct Hv' as (t & Hdb & Hr). by simplify_eq. }
  split; [split|].
  - by eexists.
  - intros m Hm. eauto.
  - by intros ?%(flush_wal_unlogged _ _ _ _ Hf).
  - rewrite (holds_view s' v Hv'), (holds_view s v Hv). split; [done|]. intros i e Hi. destruct Hv as (t & _ & Hr).
    split; [by apply (rp_in _ _ Hr i e)|]. intros m Hm%Hp'. by apply (rp_in _ _ Hm).
Qed.

#[export] Instance RocksDBLogStore_LogStoreLaws : LogStoreLaws (RocksDBLogStore DB).
Proof.
  refine {| ls_ok := rl_ok; ls_view := rl_view; ls_survives := rl_survives |}.
  - intros s es s' Hok [He [Hw _]%rl_persist_inv]%persist_entries_ok. eapply (write_rl_ok s s' _ (λ v, insert_entries v es)); [done|done|].
    intros t v Hr. by apply represents_puts.
  - intros s es s' Hok [He [Hw _]%rl_persist_inv]%persist_entries_ok. eapply (write_rl_ok s s' _ (λ v, insert_entries v es)); [done|done|].
    intros t v Hr. by apply represents_puts.
  - intros s es s' i e Hok [He [Hw _]%rl_persist_inv]%persist_entries_ok Hs Hsame.
    eapply write_survives; [done|done|]. intros t Ht. apply puts_keep; [done|apply Hs|done|done].
  - intros s c s' Hok Hp%rl_run_ok. by eapply rl_purge_steps.
  - intros s c s' i Hok Hp%rl_run_ok Hi. by eapply rl_purge_steps.
  - intros s c s' i e Hok Hp%rl_run_ok Hi _ Hs. by eapply rl_purge_steps.
  - intros s s' Hok Hf%rl_run_ok. by eapply rl_flush_ok.
  - intros s s' Hok Hf%rl_run_ok. by eapply rl_flush_ok.
  - intros s s' i e Hok Hf%rl_run_ok Hi. by eapply rl_flush_ok.
  - done.
Defined.
End spec.
