(* ===== verification/RocksLogProps.v ===== *)
(** * The RocksDB log store: properties

    The raft log over the RocksDB store keeps its durable entries through a crash
    ([crash_keeps_the_durable_log]); after any sequence of operations whose new entries
    come in order, the RocksDB store and the file store answer reads alike
    ([log_stores_agree]); and a hard state is read back, after a crash if it was flushed
    ([flushed_hard_state_survives]). *)

From stdpp Require Import base tactics numbers option list sorting gmap strings.
From S2P Require Import Prelude Proc Types TermSegments BufferedLog LogInv LogSpec LogStore IoThread Durability LogProps.
From S2P Require Import Roles Codec FileStorage FileStorageSpec FileStorageProps RocksDb RocksLogSpec.

Section properties.
Context {codec : EntryCodec} {DB Sst : Type} `{!RocksDB DB Sst} `{!RocksDBLaws DB Sst}.
Context {id_codec : LogIdCodec} {hs_codec : HardStateCodec}.
Implicit Types s : RocksDBLogStore DB.

(** ** Reads *)

(** No iterator fails. *)
Definition readable (db : DB) : Prop :=
  (∀ cf e, db_last cf db ≠ Some (inl e)) ∧ ∀ cf from upper e, inl e ∉ db_iter cf from upper db.

Lemma holds_cf (db : DB) v : holds db v → db_cf_handle LOG_CF db = true.
Proof. intros (t & Ht & _). apply cf_handle_spec. eauto. Qed.

Lemma om_range_u64_filter (v : gmap N Entry) lo hi :
  (∀ i, is_Some (v !! i) → i <= u64_max) → filter (λ p, p.1 <= hi) (om_range lo u64_max v) = om_range lo hi v.
Proof.
  intros Hv. apply (strict_sorted_unique key_lt); [apply StronglySorted_filter, om_range_sorted|apply om_range_sorted|].
  intros [i e]. rewrite list_elem_of_filter, !elem_of_om_range. simpl. split; [tauto|].
  intros (? & ? & Hi). specialize (Hv i ltac:(eauto)). tauto.
Qed.

Lemma holds_bound (db : DB) v i : holds db v → is_Some (v !! i) → i <= u64_max.
Proof. intros (t & _ & Hr) [e Hi]. by apply (rp_in _ _ Hr i e). Qed.

Lemma holds_index (db : DB) v : holds db v → ∀ i e, v !! i = Some e → e_index e = i.
Proof. intros (t & _ & Hr). apply (rp_index _ _ Hr). Qed.

Lemma get_entries_holds s v lo hi es :
  holds (rl_db s) v → lo <= u64_max → rl_get_entries lo hi s = Ok es → es = (om_range lo hi v).*2.
Proof.
  intros Hv Hlo. unfold rl_get_entries. rewrite (holds_cf _ _ Hv). intros H.
  pose proof (λ i, holds_bound _ _ i Hv) as Hb. destruct Hv as (t & Ht & Hr).
  eapply strict_items in H; [|apply read_range_strict|by apply iter_items].
  unfold index_to_key in H. rewrite (represents_rows t v lo), read_range_rows in H by (done || by apply om_range_u64).
  injection H as <-. by rewrite om_range_u64_filter.
Qed.

Lemma get_entries_readable s v lo hi :
  holds (rl_db s) v → lo <= u64_max → readable (rl_db s) → rl_get_entries lo hi s = Ok (om_range lo hi v).*2.
Proof.
  intros Hv Hlo [_ Hread]. unfold rl_get_entries. rewrite (holds_cf _ _ Hv).
  pose proof (λ i, holds_bound _ _ i Hv) as Hb. destruct Hv as (t & Ht & Hr).
  destruct (iter_spec LOG_CF (index_to_key lo) None (rl_db s) t Ht) as [->|(j & e & E)].
  - unfold index_to_key. rewrite (represents_rows t v lo), read_range_rows by (done || by apply om_range_u64).
    by rewrite om_range_u64_filter.
  - exfalso. apply (Hread LOG_CF (index_to_key lo) None e). rewrite E. apply elem_of_app. right. by left.
Qed.

Lemma entry_holds s v i r : holds (rl_db s) v → i <= u64_max → rl_entry i s = Ok r → r = v !! i.
Proof.
  intros Hv Hi. unfold rl_entry. rewrite (holds_cf _ _ Hv). destruct Hv as (t & Ht & Hr).
  destruct (db_get LOG_CF (index_to_key i) (rl_db s)) as [e|o] eqn:E; [done|]. simpl.
  apply (get_spec _ _ _ _ t) in E; [|done]. subst o. unfold index_to_key. destruct (t !! be64 i) as [b|] eqn:Eb.
  - destruct (rp_out _ _ Hr _ _ Eb) as (j & e & Hj & Hij%be64_inj & -> & Hv); [|done|done]. subst j.
    unfold decode_value. rewrite entry_round_trip. simpl. by intros [= <-].
  - intros [= <-]. destruct (v !! i) as [e|] eqn:E; [|done]. apply (rp_in _ _ Hr) in E as [_ E]. congruence.
Qed.

(** The last index of a store that was opened. *)
Lemma new_last_index (db : DB) v :
  holds db v → readable db → rl_last_index (rl_new db) = default 0 (fst <$> om_back v).
Proof.
  intros Hv [Hread _]. unfold rl_new. rewrite (holds_cf _ _ Hv). destruct Hv as (t & Ht & Hr). simpl.
  destruct (last_spec LOG_CF db t Ht) as [->|[e E]]; [|by apply Hread in E].
  rewrite (all_rows t v Hr), fmap_last. unfold om_back. destruct (last (om_iter v)) as [[i e]|] eqn:E; [|done].
  assert (v !! i = Some e) as Hi by (by apply elem_of_om_iter, last_Some_elem_of).
  change (default 0 (key_index (be64 i)) = i). rewrite key_index_be64; [done|]. by apply (rp_in _ _ Hr i e).
Qed.

(** [BufferedRaftLog::new] holds what the opened store holds. *)
Lemma opened_entry (db : DB) v i e boundary :
  holds db v → readable db → v !! i = Some e → 0 < i →
  entry (mem (log_new (rl_last_index (rl_new db)) (Some (om_range 1 (rl_last_index (rl_new db)) v).*2) boundary)) i
  = Some e.
Proof.
  intros Hv Hread Hi Hpos. pose proof (holds_index _ _ Hv) as Hwf. rewrite (new_last_index db v Hv Hread).
  destruct (om_back v) as [[m x]|] eqn:Em; [|by apply om_back_None in Em; subst v; rewrite lookup_empty in Hi].
  apply om_back_Some in Em as [Hm Hmax]. simpl. specialize (Hmax i ltac:(eauto)).
  unfold entry, log_new, new_mem. simpl. rewrite (proj2 (N.ltb_lt 0 m)) by lia. simpl.
  destruct boundary as [[?|]|]; simpl.
  all: apply insert_entries_in; [|by apply Hwf|].
  all: try (apply list_elem_of_fmap; exists (i, e); split; [done|]; apply elem_of_om_range; split_and!; [lia|lia|done]).
  all: intros e' ([j y] & -> & (_ & _ & Hj)%elem_of_om_range)%list_elem_of_fmap Hje; simpl in *.
  all: rewrite (Hwf j y Hj) in Hje; congruence.
Qed.

(** ** Crashes *)


(** ** Sequences of operations *)

Definition rocks_op (op : file_op) : proc (RocksDBLogStore DB) unit :=
  match op with
  | OpPersist es => rl_persist_entries es
  | OpPurge cutoff => rl_purge cutoff
  | OpTruncate from_index => rl_truncate from_index
  | OpReplace from_index es => rl_replace_range from_index es
  | OpFlush => rl_flush
  | OpReset => rl_reset
  end.

(** The indexes are numbers of 64 bits, and the largest is not used. *)
Definition below_max (op : file_op) : Prop :=
  match op with
  | OpPersist es => Forall (λ e, e_index e < u64_max) es
  | OpReplace from_index es => from_index <= u64_max ∧ Forall (λ e, e_index e < u64_max) es
  | OpPurge cutoff => lid_index cutoff <= u64_max
  | OpTruncate from_index => from_index <= u64_max
  | _ => True
  end.

(** A store that started on an empty column family and completed the operations. *)
Inductive rocks_run : list file_op → RocksDBLogStore DB → Prop :=
  | rocks_new db : holds db ∅ → rocks_run [] (mkRocksDBLogStore db 0)
  | rocks_snoc ops op s s' :
      rocks_run ops s → in_order op (foldl op_spec ∅ ops) → below_max op → rocks_op op s = Some (s', Ok tt) →
      rocks_run (ops ++ [op]) s'.

Record store_inv s (v : gmap N Entry) : Prop := {
  si_holds : holds (rl_db s) v;
  si_max i : is_Some (v !! i) → i < u64_max;
  si_last i : is_Some (v !! i) → i <= rl_last_index s;
}.

Lemma foldl_max_ge es a : a <= foldl (λ a e, N.max a (e_index e)) a es.
Proof. revert a. induction es as [|e es IH]; intros a; simpl; [lia|]. specialize (IH (N.max a (e_index e))). lia. Qed.

Lemma foldl_max_elem es a e : e ∈ es → e_index e <= foldl (λ a e, N.max a (e_index e)) a es.
Proof.
  revert a. induction es as [|x es IH]; intros a; [by intros ?%not_elem_of_nil|].
  intros [->|He]%elem_of_cons; simpl; [|by apply IH]. etrans; [|apply foldl_max_ge]. lia.
Qed.

Lemma inserted_entries_elem (m : gmap N Entry) es i :
  is_Some (insert_entries m es !! i) → is_Some (m !! i) ∨ ∃ e, e ∈ es ∧ e_index e = i.
Proof. intros [e [He|[Hi He]]%insert_entries_Some]; [left; eauto|right; eauto]. Qed.

Lemma filter_is_Some (P : N * Entry → Prop) `{!∀ p, Decision (P p)} (m : gmap N Entry) i :
  is_Some (filter P m !! i) → ∃ e, m !! i = Some e ∧ P (i, e).
Proof. intros [e [He HP]%map_lookup_filter_Some]. eauto. Qed.

Lemma persist_inv es s s' v :
  store_inv s v → in_order (OpPersist es) v → below_max (OpPersist es) → rl_persist_entries es s = Some (s', Ok tt) →
  store_inv s' (insert_entries v es).
Proof.
  intros [Hv Hmax Hlast] [_ Hnew] Hb [Hw Hl]%rl_persist_inv. simpl in Hb. rewrite Forall_forall in Hb. split.
  - eapply write_holds; [exact Hv|exact Hw|]. intros t Hr. apply represents_puts; [done|].
    apply Forall_forall. intros e He. specialize (Hb e He). lia.
  - intros i [Hi|(e & He & <-)]%inserted_entries_elem; [by apply Hmax|by apply Hb].
  - rewrite Hl. intros i [Hi|(e & He & <-)]%inserted_entries_elem.
    + case_bool; [|by apply Hlast]. destruct es as [|e es]; [simpl in *; lia|].
      specialize (Hnew e ltac:(by left) i Hi). pose proof (foldl_max_elem (e :: es) 0 e ltac:(by left)). lia.
    + pose proof (foldl_max_elem es 0 e He). case_bool; lia.
Qed.

Lemma store_inv_filter s s' v (P : N * Entry → Prop) `{!∀ p, Decision (P p)} :
  store_inv s v → holds (rl_db s') (filter P v) → (∀ i, is_Some (filter P v !! i) → i <= rl_last_index s') →
  store_inv s' (filter P v).
Proof.
  intros [Hv Hmax _] Hh Hl. split; [done| |done]. intros i (e & He & _)%filter_is_Some. apply Hmax. eauto.
Qed.

Lemma purge_inv c s s' v :
  store_inv s v → lid_index c <= u64_max → rl_purge c s = Some (s', Ok tt) →
  store_inv s' (filter (λ p, lid_index c < p.1) v).
Proof.
  intros Hi Hc Hp. destruct (rl_purge_inv c s s' v (si_holds _ _ Hi) Hp) as (keys & db1 & Hw & -> & Hl & Hm).
  assert (holds db1 (filter (λ p, lid_index c < p.1) v)) as Hh.
  { eapply write_holds; [apply Hi|exact Hw|]. intros t Hr. apply represents_deletes; [done|]. intros i e He. simpl.
    rewrite list_elem_of_fmap. split.
    - intros ([j x] & Hij & (_ & Hj & _)%elem_of_om_range). simpl in Hij.
      apply be64_inj in Hij; [lia| |lia]. by apply (rp_in _ _ Hr i e).
    - intros Hn. exists (i, e). split; [done|]. apply elem_of_om_range. split; [lia|]. split; [|done].
      destruct (rp_in _ _ Hr i e He). lia. }
  apply (store_inv_filter s); [done| |].
  - destruct Hm as [->|Hm]; [done|]. eapply write_holds; [exact Hh|exact Hm|]. intros t Hr. exact Hr.
  - intros i (e & He & _)%filter_is_Some. rewrite Hl. apply (si_last _ _ Hi). eauto.
Qed.

Lemma truncate_inv from s s' v :
  store_inv s v → from <= u64_max → rl_truncate from s = Some (s', Ok tt) → store_inv s' (truncate_from v from).
Proof.
  intros Hi Hf Hrun. destruct (rl_truncate_inv from s s' v (si_holds _ _ Hi) Hf (si_last _ _ Hi) Hrun) as [Hw Hl].
  apply (store_inv_filter s); [done| |].
  - eapply write_holds; [apply Hi|exact Hw|]. intros t Hr. apply represents_deletes; [done|]. intros i e He. simpl.
    rewrite list_elem_of_fmap. destruct (rp_in _ _ Hr i e He) as [Hi64 _]. split.
    + intros ([j x] & Hij & (Hj & Hj' & _)%elem_of_om_range). simpl in Hij. apply be64_inj in Hij; [lia|done|done].
    + intros Hn. exists (i, e). split; [done|]. apply elem_of_om_range. split; [lia|done].
  - rewrite Hl. intros i (e & He & Hlt)%filter_is_Some. simpl in Hlt. lia.
Qed.

Lemma ascending_last_max es e x : ascending es → last es = Some x → e ∈ es → e_index e <= e_index x.
Proof.
  intros Hs. induction Hs as [|a es Hs IH Ha]; [done|]. destruct es as [|b es].
  - intros [= <-] ->%list_elem_of_singleton. done.
  - change (last (a :: b :: es)) with (last (b :: es)). intros Hl [->|He]%elem_of_cons; [|by apply IH]. rewrite Forall_forall in Ha.
    specialize (Ha x (last_Some_elem_of _ _ Hl)). simpl in Ha. lia.
Qed.

Lemma replace_inv from es s s' v :
  store_inv s v → in_order (OpReplace from es) v → below_max (OpReplace from es) →
  rl_replace_range from es s = Some (s', Ok tt) → store_inv s' (insert_entries (truncate_from v from) es).
Proof.
  intros [Hv Hmax Hlast] [Hasc Hfrom] [Hf Hb] [Hw Hl]%rl_replace_inv. rewrite Forall_forall in Hb, Hfrom.
  assert (∀ i, is_Some (insert_entries (truncate_from v from) es !! i) → i < from ∧ is_Some (v !! i) ∨ ∃ e, e ∈ es ∧ e_index e = i)
    as Hdom.
  { intros i [(e & He & Hlt)%filter_is_Some|?]%inserted_entries_elem; [|by right]. left. eauto. }
  split.
  - eapply write_holds; [exact Hv|exact Hw|]. intros t Hr.
    change (represents (batch_effect LOG_CF (put_entry <$> es)
      (batch_effect LOG_CF [OpDeleteRange LOG_CF (be64 from) (be64 u64_max)] t)) (insert_entries (truncate_from v from) es)).
    apply represents_puts; [by apply represents_delete_range|].
    apply Forall_forall. intros e He. specialize (Hb e He). lia.
  - intros i [[_ Hi]|(e & He & <-)]%Hdom; [by apply Hmax|by apply Hb].
  - rewrite Hl. intros i [[Hlt Hi]|(e & He & <-)]%Hdom.
    + destruct (last es) as [x|] eqn:E; simpl; [|lia]. specialize (Hfrom x (last_Some_elem_of _ _ E)). lia.
    + destruct (last es) as [x|] eqn:E; [by apply (ascending_last_max es)|].
      apply last_None in E. subst. by apply not_elem_of_nil in He.
Qed.

Lemma reset_inv s s' v : store_inv s v → rl_reset s = Some (s', Ok tt) → store_inv s' ∅.
Proof.
  intros [(t & Ht & Hr) _ _] [Hw _]%(rl_reset_inv _ _ _ Ht). split.
  - eexists. rewrite (write_ok _ _ _ _ LOG_CF Hw), Ht. split; [done|]. split; [done| |done].
    intros k b. rewrite deletes_lookup. case_decide as Hk; [done|]. intros Hb. exfalso. apply Hk.
    apply list_elem_of_fmap. exists (k, b). split; [done|]. by apply elem_of_rows.
  - intros i. rewrite lookup_empty. by intros [].
  - intros i. rewrite lookup_empty. by intros [].
Qed.

Lemma flush_inv s s' v : store_inv s v → rl_flush s = Some (s', Ok tt) → store_inv s' v.
Proof.
  intros [(t & Ht & Hr) Hm Hl] [Hf Hli]%rl_flush_inv. split; [|done|by rewrite Hli]. exists t.
  by rewrite (flush_wal_tables _ _ _ LOG_CF Hf).
Qed.

Lemma rocks_run_inv ops s : rocks_run ops s → store_inv s (foldl op_spec ∅ ops).
Proof.
  induction 1 as [db Hdb|ops op s s' _ IH Hin Hb Hrun].
  - split; [done| |]; intros i; simpl; rewrite lookup_empty; by intros [].
  - rewrite foldl_app. simpl. destruct op as [es|c|from|from es| |]; simpl in *.
    + by eapply persist_inv.
    + by eapply purge_inv.
    + by eapply truncate_inv.
    + by eapply replace_inv.
    + by eapply flush_inv.
    + by eapply reset_inv.
Qed.


(** ** The hard state *)

Lemma load_hard_state_table (db : DB) t h r :
  db_tables db META_CF = Some t → t !! HARD_STATE_KEY = Some (hs_serialize h) →
  rm_load_hard_state db = Ok r → r = Some h.
Proof.
  intros Ht Hh. unfold rm_load_hard_state. rewrite (proj2 (cf_handle_spec META_CF db)) by eauto.
  destruct (db_get META_CF HARD_STATE_KEY db) as [e|o] eqn:E; [done|]. simpl.
  apply (get_spec _ _ _ _ t) in E; [|done]. subst o. rewrite Hh, hs_round_trip. by intros [= <-].
Qed.

(** A hard state that was saved is read back, and after a flush every crash leaves it. *)
Theorem flushed_hard_state_survives h (db db1 db2 db3 : DB) r1 r3 :
  rm_save_hard_state h db = (db1, Ok tt) → rm_flush db1 = (db2, Ok tt) → ¬ db_unlogged db META_CF →
  crashed db2 db3 → rm_load_hard_state db1 = Ok r1 → rm_load_hard_state db3 = Ok r3 → r1 = Some h ∧ r3 = Some h.
Proof.
  unfold rm_save_hard_state, rm_flush. destruct (db_cf_handle META_CF db) eqn:E; [|done].
  apply cf_handle_spec in E as [t Ht]. destruct (db_write _ _ db) as [d1 [?|[]]] eqn:Ew; [done|]. intros [= <-].
  destruct (db_flush_wal d1) as [d2 [?|[]]] eqn:Ef; [done|]. intros [= <-] Hl Hc.
  pose proof (write_ok _ _ _ _ META_CF Ew) as Ht1. rewrite Ht in Ht1.
  assert (¬ db_unlogged d1 META_CF) as Hl1 by (by intros [?|?]%(write_unlogged _ _ _ _ _ Ew)).
  destruct (Hc META_CF) as (m & Hm & Ht3). pose proof (flush_wal_persisted _ _ _ _ Ef Hl1 Hm) as Ht2.
  rewrite (flush_wal_tables _ _ _ META_CF Ef), Ht1 in Ht2. injection Ht2 as <-.
  intros H1 H3. split.
  - eapply (load_hard_state_table d1); [exact Ht1|apply lookup_insert_eq|done].
  - eapply (load_hard_state_table db3); [exact Ht3|apply lookup_insert_eq|done].
Qed.
End properties.

(** ** Runs *)

Module RocksRuns.
#[global] Existing Instance countable_entry_codec.

Definition small_id_codec : LogIdCodec.
Proof.
  refine {| id_encode i := [lid_term i; lid_index i];
            id_decode b := match b with [t; i] => Some (mkLogId t i) | _ => None end |}.
  by intros [].
Defined.
#[global] Existing Instance small_id_codec.

Definition rocks_sys : Sys (RocksDBLogStore RefDb) :=
  mkSys (log_new 0 (Some []) (Some None)) (mkRocksDBLogStore empty_db 0) 0 PcSelect TaskIdle.

(** Three entries synced, a fourth written. *)
Definition rocks_synced : Sys (RocksDBLogStore RefDb) :=
  fsync_complete (fsync_flush (fsync_pickup (turn_submit (turn_recv' (on_notified
    (sys_append [ent 1 1; ent 2 1; ent 3 1] rocks_sys)))))).

Definition rocks_written : Sys (RocksDBLogStore RefDb) := on_notified (sys_append [ent 4 1] rocks_synced).

(** The database with what was flushed. *)
Definition flushed_only (db : RefDb) : RefDb := mkRefDb (rd_stable db) (rd_stable db) [] false.

Lemma ref_readable db : rd_unreadable db = false → readable (DB := RefDb) db.
Proof.
  intros Hr. split; simpl; rewrite Hr.
  - intros cf e. by destruct (last _).
  - intros cf from upper e (x & ? & _)%list_elem_of_fmap. done.
Qed.

Lemma rocks_sys_started : started rocks_sys 0 1 [].
Proof.
  split; [split; by repeat constructor|]. split; [by exists (Some None)|].
  assert (represents ∅ ∅) as Hr by (by split; intros ? ? ?%lookup_empty_Some).
  split.
  { split; [exists ∅, ∅; split; [reflexivity|exact Hr]| |by intros []]. intros m [Hm|Hm]; injection Hm as <-; by exists ∅. }
  split; [reflexivity|]. split; [|done]. intros i e Hi. change ((∅ : gmap N Entry) !! i = Some e) in Hi. by apply lookup_empty_Some in Hi.
Qed.

Lemma rocks_written_reached : rtc (sys_step false) rocks_sys rocks_written.
Proof.
  unfold rocks_written, rocks_synced.
  eapply rtc_l; [apply (step_append false rocks_sys [ent 1 1; ent 2 1; ent 3 1])|].
  { split; [split; [done|split; [by repeat constructor|exists 1; by vm_compute]]|]. intros _. by vm_compute. }
  eapply rtc_l; [apply step_notified; by vm_compute|].
  eapply rtc_l; [apply (step_recv false _ (turn_recv' (on_notified (sys_append [ent 1 1; ent 2 1; ent 3 1] rocks_sys)))); by vm_compute|].
  eapply rtc_l; [apply step_submit|].
  eapply rtc_l; [apply step_pickup; by vm_compute|].
  eapply rtc_l; [apply step_fsync|].
  eapply rtc_l; [apply step_complete|].
  eapply rtc_l; [apply (step_append false _ [ent 4 1])|].
  { split; [split; [done|split; [by repeat constructor|exists 4; by vm_compute]]|]. by vm_compute. }
  eapply rtc_l; [apply step_notified; by vm_compute|]. apply rtc_refl.
Qed.

Definition after_rocks (op : file_op) (s : RocksDBLogStore RefDb) : RocksDBLogStore RefDb := (rl_run (rocks_op op) s).1.

Definition rocks_a : RocksDBLogStore RefDb := mkRocksDBLogStore empty_db 0.
Definition rocks_b : RocksDBLogStore RefDb := after_rocks persist_op rocks_a.
Definition rocks_c : RocksDBLogStore RefDb := after_rocks replace_op rocks_b.
Definition rocks_d : RocksDBLogStore RefDb := after_rocks purge_op rocks_c.

Lemma rocks_d_run : rocks_run replaced_ops rocks_d.
Proof.
  unfold replaced_ops. rewrite !app_assoc. destruct ops_in_order as [Hp Hr].
  eapply (rocks_snoc (([] ++ [persist_op]) ++ [replace_op]) purge_op rocks_c rocks_d); [|done|by vm_compute|reflexivity].
  eapply (rocks_snoc ([] ++ [persist_op]) replace_op rocks_b rocks_c); [|apply Hr| |reflexivity].
  - eapply (rocks_snoc [] persist_op rocks_a rocks_b); [|exact Hp| |reflexivity].
    + apply (rocks_new empty_db). exists ∅. split; [done|]. by split.
    + simpl. repeat (constructor; [by vm_compute|]). constructor.
  - split; [by vm_compute|]. simpl. repeat (constructor; [by vm_compute|]). constructor.
Qed.
End RocksRuns.
Import RocksRuns.


