(* ===== verification/RocksSm.v ===== *)
(** * The RocksDB state machine

    [d-engine-server/src/storage/adaptors/rocksdb/rocksdb_state_machine.rs]: the data in
    one column family, the applied index, the metadata of the last snapshot and the
    leases in another. The database is the parameter of [RocksDb.v]; bincode is a
    parameter with its round-trip laws. *)

From stdpp Require Import base tactics numbers option list sorting gmap strings.
From S2P Require Import Prelude Proc Types Events Codec Commands TtlLease FileStateMachine FileStorage RocksDb RocksLogSpec.

(** [bincode] on a [SnapshotMetadata]. *)
Class MetadataCodec := {
  md_serialize : SnapshotMetadata → bytes;
  md_deserialize : bytes → option SnapshotMetadata;
  md_round_trip m : md_deserialize (md_serialize m) = Some m;
}.

(** The metadata of an export as it is stored: without the directory of the files. *)
Record CfExportFile := mkCfExportFile {
  cf_column_family_name : string;
  cf_name : string;
  cf_size : N;
  cf_level : Z;
  cf_start_key : option bytes;
  cf_end_key : option bytes;
  cf_smallest_seqno : N;
  cf_largest_seqno : N;
  cf_num_entries : N;
  cf_num_deletions : N;
}.

Record CfExportMeta := mkCfExportMeta { cem_db_comparator_name : string; cem_files : list CfExportFile }.

(** [bincode] on a [CfExportMeta]. *)
Class ExportCodec := {
  em_serialize : CfExportMeta → bytes;
  em_deserialize : bytes → option CfExportMeta;
  em_round_trip m : em_deserialize (em_serialize m) = Some m;
}.

(** The bytes of "last_applied_index", "last_applied_term", "snapshot_metadata" and
    "ttl_state". *)
Definition LAST_APPLIED_INDEX_KEY : bytes :=
  [108; 97; 115; 116; 95; 97; 112; 112; 108; 105; 101; 100; 95; 105; 110; 100; 101; 120].
Definition LAST_APPLIED_TERM_KEY : bytes :=
  [108; 97; 115; 116; 95; 97; 112; 112; 108; 105; 101; 100; 95; 116; 101; 114; 109].
Definition SNAPSHOT_METADATA_KEY : bytes :=
  [115; 110; 97; 112; 115; 104; 111; 116; 95; 109; 101; 116; 97; 100; 97; 116; 97].
Definition TTL_STATE_KEY : bytes := [116; 116; 108; 95; 115; 116; 97; 116; 101].

Record RocksDBStateMachine (DB : Type) := mkRocksDBStateMachine {
  rs_db : option DB;
  rs_is_serving : bool;
  rs_last_applied_index : N;
  rs_last_applied_term : N;
  rs_last_snapshot_metadata : option SnapshotMetadata;
  rs_lease : option TtlLease;
}.
Arguments mkRocksDBStateMachine {DB}.
Arguments rs_db {DB}.
Arguments rs_is_serving {DB}.
Arguments rs_last_applied_index {DB}.
Arguments rs_last_applied_term {DB}.
Arguments rs_last_snapshot_metadata {DB}.
Arguments rs_lease {DB}.

#[global] Instance RocksDBStateMachine_settable {DB} : Settable (RocksDBStateMachine DB) := λ m,
  mkRocksDBStateMachine (rs_db m) (rs_is_serving m) (rs_last_applied_index m) (rs_last_applied_term m)
    (rs_last_snapshot_metadata m) (rs_lease m).

(** A snapshot directory: its files, the two directories of exported files, and its path. *)
Record RocksDir (Sst : Type) := mkRocksDir {
  rd_path : string;
  sm_meta_metadata_bin : option bytes;
  sm_metadata_bin : option bytes;
  ttl_state_bin : option bytes;
  rd_sm : Sst;
  rd_sm_meta : Sst;
}.
Arguments mkRocksDir {Sst}.
Arguments rd_path {Sst}.
Arguments sm_meta_metadata_bin {Sst}.
Arguments sm_metadata_bin {Sst}.
Arguments ttl_state_bin {Sst}.
Arguments rd_sm {Sst}.
Arguments rd_sm_meta {Sst}.

Record ScanResult := mkScanResult { sr_entries : list (bytes * bytes); sr_revision : N }.

(** What becomes of the file operations of a snapshot, and the error of
    [Checkpoint::new]. *)
Record SnapEnv := mkSnapEnv {
  se_create_dir : bool;
  se_checkpoint : db_result unit;
  se_write_metadata : bool;
  se_write_ttl : bool;
  se_read : bool;
}.

Module Rocks.
Section operations.
Context {DB Sst : Type} `{!RocksDB DB Sst} `{!LeaseCodec} `{!MetadataCodec} `{!ExportCodec} `{!MapIter bytes N}.
Abbreviation rsm := (proc (RocksDBStateMachine DB)).

(** [db.cf_handle(cf).ok_or_else(..)?]. *)
Definition need_cf {A} (cf : Cf) (msg : string) (db : DB) (r : result A) : result A :=
  if db_cf_handle cf db then r else Err (DbError msg).

Definition with_db {A} (f : DB → DB * result A) : rsm A := λ m,
  match rs_db m with
  | Some db => let '(db', r) := f db in Some (m <| rs_db := Some db' |>, r)
  | None => Some (m, Err (NotServing "state machine stopped"))
  end.

(** A call that reads the database. *)
Definition read_db {A} (f : DB → result A) : rsm A := with_db (λ db, (db, f db)).

(** A call that changes the database, when a column family exists. *)
Definition change_cf {A} (cf : Cf) (msg : string) (f : DB → DB * db_result A) (db : DB) : DB * result A :=
  if db_cf_handle cf db then let '(db', r) := f db in (db', db_err r) else (db, Err (DbError msg)).

(** ** Opening *)

Definition load_u64 (key : bytes) (db : DB) : result N :=
  let? v := db_err (db_get STATE_MACHINE_META_CF key db) in
  Ok (match v with
      | Some b => if (length b =? 8)%nat then be_decode b else 0
      | None => 0
      end).

Definition load_state_machine_metadata (db : DB) : result (N * N) :=
  need_cf STATE_MACHINE_META_CF "State machine meta CF not found" db
    (let? index := load_u64 LAST_APPLIED_INDEX_KEY db in
     let? term := load_u64 LAST_APPLIED_TERM_KEY db in
     Ok (index, term)).

Definition load_snapshot_metadata (db : DB) : result (option SnapshotMetadata) :=
  need_cf STATE_MACHINE_META_CF "State machine meta CF not found" db
    (let? v := db_err (db_get STATE_MACHINE_META_CF SNAPSHOT_METADATA_KEY db) in
     match v with
     | Some b => match md_deserialize b with Some md => Ok (Some md) | None => Err BincodeError end
     | None => Ok None
     end).

Definition from_shared_db (db : DB) : result (RocksDBStateMachine DB) :=
  let? id := load_state_machine_metadata db in
  let? md := load_snapshot_metadata db in
  Ok (mkRocksDBStateMachine (Some db) true id.1 id.2 md None).

(** [DB::open_cf_descriptors] with [create_missing_column_families]. *)
Fixpoint open_cfs (cfs : list Cf) (db : DB) : DB * db_result unit :=
  match cfs with
  | [] => (db, inr tt)
  | cf :: cfs' =>
      if db_cf_handle cf db then open_cfs cfs' db
      else match db_create_cf cf db with
           | (db', inr _) => open_cfs cfs' db'
           | (db', inl e) => (db', inl e)
           end
  end.

Definition rs_new (db : DB) : result (RocksDBStateMachine DB) :=
  let '(db, r) := open_cfs [STATE_MACHINE_CF; STATE_MACHINE_META_CF] db in
  let? _ := db_err r in
  from_shared_db db.

(** [RocksDBStorageEngine::new]: a database for the log and the hard state. *)
Definition engine_new (db : DB) : result (RocksDBLogStore DB) :=
  let '(db, r) := open_cfs [LOG_CF; META_CF] db in
  let? _ := db_err r in
  Ok (rl_new db).

(** [RocksDBUnifiedEngine::open]: one database for everything. *)
Definition unified_open (db : DB) : result (RocksDBLogStore DB * RocksDBStateMachine DB) :=
  let '(db, r) := open_cfs [LOG_CF; META_CF; STATE_MACHINE_CF; STATE_MACHINE_META_CF] db in
  let? _ := db_err r in
  let? sm := from_shared_db db in
  Ok (rl_new db, sm).

Definition rs_set_lease (l : TtlLease) (m : RocksDBStateMachine DB) : RocksDBStateMachine DB := m <| rs_lease := Some l |>.

(** ** Metadata *)

Definition put_meta (key value : bytes) : DB → DB * db_result unit :=
  db_write false [OpPut STATE_MACHINE_META_CF key value].

Definition persist_state_machine_metadata : rsm unit :=
  m ← get;
  with_db (change_cf STATE_MACHINE_META_CF "State machine meta CF not found" (λ db,
    match put_meta LAST_APPLIED_INDEX_KEY (be64 (rs_last_applied_index m)) db with
    | (db', inr _) => put_meta LAST_APPLIED_TERM_KEY (be64 (rs_last_applied_term m)) db'
    | (db', inl e) => (db', inl e)
    end)).

Definition persist_snapshot_metadata : rsm unit :=
  m ← get;
  with_db (change_cf STATE_MACHINE_META_CF "State machine meta CF not found" (λ db,
    match rs_last_snapshot_metadata m with
    | Some md => put_meta SNAPSHOT_METADATA_KEY (md_serialize md) db
    | None => (db, inr tt)
    end)).

Definition persist_ttl_metadata : rsm unit :=
  m ← get;
  match rs_lease m with
  | None => mret tt
  | Some l => with_db (change_cf STATE_MACHINE_META_CF "State machine meta CF not found"
                (put_meta TTL_STATE_KEY (TtlLease.to_snapshot l)))
  end.

(** [lease.reload(data)?]. *)
Definition reload_lease (now : N) (data : bytes) : rsm unit := λ m,
  match rs_lease m with
  | None => Some (m, Ok tt)
  | Some l => let '(l', r) := TtlLease.reload now data l in Some (m <| rs_lease := Some l' |>, r)
  end.

Definition load_lease_data (now : N) : rsm unit :=
  m ← get;
  match rs_lease m with
  | None => mret tt
  | Some _ =>
      v ← read_db (λ db, need_cf STATE_MACHINE_META_CF "State machine meta CF not found" db
            (db_err (db_get STATE_MACHINE_META_CF TTL_STATE_KEY db)));
      match v with Some data => reload_lease now data | None => mret tt end
  end.

Definition update_last_applied (id : LogId) : rsm unit :=
  modify (λ m, m <| rs_last_applied_index := lid_index id |> <| rs_last_applied_term := lid_term id |>).

Definition rs_last_applied (m : RocksDBStateMachine DB) : LogId :=
  mkLogId (rs_last_applied_term m) (rs_last_applied_index m).

Definition persist_last_applied (id : LogId) : rsm unit := update_last_applied id;; persist_state_machine_metadata.

Definition update_last_snapshot_metadata (md : SnapshotMetadata) : rsm unit :=
  modify (λ m, m <| rs_last_snapshot_metadata := Some md |>).

Definition persist_last_snapshot_metadata (md : SnapshotMetadata) : rsm unit :=
  update_last_snapshot_metadata md;; persist_snapshot_metadata.

(** ** Applying a chunk *)

(** A change of the leases, which may panic. *)
Definition on_lease (f : TtlLease → option TtlLease) : rsm unit := λ m,
  match rs_lease m with
  | None => Some (m, Ok tt)
  | Some l => let! l' := f l in Some (m <| rs_lease := Some l' |>, Ok tt)
  end.

Definition unregister_key (key : bytes) : rsm unit := on_lease (λ l, Some (TtlLease.unregister key l)).

(** [self.lease.as_ref().expect(..).register(..)]. *)
Definition register_key (now : N) (key : bytes) (ttl : N) : rsm unit :=
  m ← get;
  match rs_lease m with None => panic | Some _ => on_lease (TtlLease.register now key ttl) end.

Definition cas_success (current expected : option bytes) : bool :=
  match current, expected with
  | Some c, Some e => bool_decide (c = e)
  | None, None => true
  | _, _ => false
  end.

Definition batch_op (o : Cmd.BatchOp) : WriteOp :=
  match o with
  | Cmd.BInsert key value => OpPut STATE_MACHINE_CF key value
  | Cmd.BDelete key => OpDelete STATE_MACHINE_CF key
  end.

(** One entry: what it adds to the batch, and whether it succeeded. *)
Definition batch_entry (now : N) (db : DB) (batch : list WriteOp) (e : ApplyEntry) : rsm (list WriteOp * bool) :=
  match ae_command e with
  | Cmd.Noop => mret ([], true)
  | Cmd.Insert key value ttl_secs =>
      (match ttl_secs with Some ttl => register_key now key ttl | None => mret tt end);;
      mret ([OpPut STATE_MACHINE_CF key value], true)
  | Cmd.Delete key => unregister_key key;; mret ([OpDelete STATE_MACHINE_CF key], true)
  | Cmd.CompareAndSwap key expected value =>
      match db_get_from_batch batch STATE_MACHINE_CF key db with
      | inl e => fail (DbError ("CAS read failed: " +:+ e))
      | inr current =>
          if cas_success current expected then mret ([OpPut STATE_MACHINE_CF key value], true) else mret ([], false)
      end
  | Cmd.Batch ops =>
      for_each (λ o, match o with Cmd.BDelete key => unregister_key key | _ => mret tt end) ops;;
      mret (batch_op <$> ops, true)
  end.

(** The loop over the chunk; the assertion that the indexes increase panics. *)
Fixpoint batch_entries (clock : nat → N) (i : nat) (db : DB) (prev : option N) (batch : list WriteOp)
    (chunk : list ApplyEntry) : rsm (list WriteOp * list ApplyResult) :=
  match chunk with
  | [] => mret (batch, [])
  | e :: chunk' =>
      if match prev with Some p => p <? ae_index e | None => true end then
        r ← batch_entry (clock i) db batch e;
        rest ← batch_entries clock (S i) db (Some (ae_index e)) (batch ++ r.1) chunk';
        mret (rest.1, mkApplyResult (ae_index e) r.2 :: rest.2)
      else panic
  end.

Definition applied_ops (chunk : list ApplyEntry) : list WriteOp :=
  match last chunk with
  | Some e => [OpPut STATE_MACHINE_META_CF LAST_APPLIED_INDEX_KEY (be64 (ae_index e));
               OpPut STATE_MACHINE_META_CF LAST_APPLIED_TERM_KEY (be64 (ae_term e))]
  | None => []
  end.

Definition rs_apply_chunk (clock : nat → N) (chunk : list ApplyEntry) : rsm (list ApplyResult) :=
  m ← get;
  match rs_db m with
  | None => fail (NotServing "state machine stopped")
  | Some db =>
      if negb (db_cf_handle STATE_MACHINE_CF db) then fail (DbError "State machine CF not found")
      else if negb (db_cf_handle STATE_MACHINE_META_CF db) then fail (DbError "State machine meta CF not found")
      else
        r ← batch_entries clock 0 db None [] chunk;
        with_db (λ db, let '(db', w) := db_write true (r.1 ++ applied_ops chunk) db in (db', db_err w));;
        (match last chunk with
         | Some e => update_last_applied (mkLogId (ae_term e) (ae_index e))
         | None => mret tt
         end);;
        mret r.2
  end.

(** ** Reads *)

Definition rs_get (key : bytes) (m : RocksDBStateMachine DB) : result (option bytes) :=
  if negb (rs_is_serving m) then Err (NotServing "State machine is restoring from snapshot") else
  match rs_db m with
  | None => Err (NotServing "state machine stopped")
  | Some db => need_cf STATE_MACHINE_CF "State machine CF not found" db (db_err (db_get STATE_MACHINE_CF key db))
  end.

(** One key is read as it is; several are read from one point in time. *)
Fixpoint get_all (keys : list bytes) (db : DB) : result (list (option bytes)) :=
  match keys with
  | [] => Ok []
  | key :: keys' =>
      let? v := db_err (db_get STATE_MACHINE_CF key db) in
      let? vs := get_all keys' db in
      Ok (v :: vs)
  end.

Definition rs_get_multi (keys : list bytes) (m : RocksDBStateMachine DB) : result (list (option bytes)) :=
  if negb (rs_is_serving m) then Err (NotServing "State machine is restoring from snapshot") else
  match rs_db m with
  | None => Err (NotServing "state machine stopped")
  | Some db => need_cf STATE_MACHINE_CF "State machine CF not found" db (get_all keys db)
  end.

(** The loop of [scan_prefix]. *)
Fixpoint scan_loop (prefix : bytes) (items : list (db_result (bytes * bytes))) : result (list (bytes * bytes)) :=
  match items with
  | [] => Ok []
  | item :: items' =>
      let? row := db_err item in
      if decide (prefix `prefix_of` row.1)
      then let? rest := scan_loop prefix items' in Ok (row :: rest)
      else Ok []
  end.

(** [later] is the machine when the revision is read, after the iteration. *)
Definition rs_scan_prefix (prefix : bytes) (m later : RocksDBStateMachine DB) : result ScanResult :=
  match prefix with
  | [] => Ok (mkScanResult [] (rs_last_applied_index later))
  | _ =>
      match rs_db m with
      | None => Err (NotServing "state machine stopped")
      | Some db =>
          need_cf STATE_MACHINE_CF "STATE_MACHINE_CF not found" db
            (let? entries := scan_loop prefix (db_iter STATE_MACHINE_CF prefix (prefix_successor prefix) db) in
             Ok (mkScanResult entries (rs_last_applied_index later)))
      end
  end.

Definition rs_len (m : RocksDBStateMachine DB) : nat :=
  match rs_db m with
  | None => 0
  | Some db => if db_cf_handle STATE_MACHINE_CF db then length (db_iter STATE_MACHINE_CF [] None db) else 0
  end.

(** ** Flush, reset, expiration *)

Definition rs_flush : rsm unit :=
  with_db (λ db,
    match db_flush_wal db with
    | (db, inl e) => (db, Err (DbError e))
    | (db, inr _) =>
        if negb (db_cf_handle STATE_MACHINE_CF db) then (db, Err (DbError "State machine CF not found"))
        else change_cf STATE_MACHINE_META_CF "State machine meta CF not found"
               (db_flush_cfs [STATE_MACHINE_CF; STATE_MACHINE_META_CF]) db
    end).

Definition rs_save_hard_state : rsm unit := persist_snapshot_metadata.

Definition delete_keys (keys : list bytes) (db : DB) : DB * db_result unit :=
  db_write false (OpDelete STATE_MACHINE_CF <$> keys) db.

Definition rs_reset : rsm unit :=
  with_db (λ db,
    if db_cf_handle STATE_MACHINE_CF db then
      match all_keys (db_iter STATE_MACHINE_CF [] None db) with
      | Ok keys => let '(db', r) := delete_keys keys db in (db', db_err r)
      | Err e => (db, Err e)
      end
    else (db, Err (DbError "State machine CF not found")));;
  modify (λ m, m <| rs_last_applied_index := 0 |> <| rs_last_applied_term := 0 |>
                 <| rs_last_snapshot_metadata := None |>);;
  persist_state_machine_metadata;;
  persist_snapshot_metadata.

(** [lease.get_expired_keys(now)], which removes the keys from the leases. *)
Definition take_expired (now : N) (l : TtlLease) : rsm (list bytes) := λ m,
  let '(keys, l') := TtlLease.get_expired_keys now l in Some (m <| rs_lease := Some l' |>, Ok keys).

Definition rs_lease_background_cleanup (now : N) : rsm (list bytes) :=
  m ← get;
  match rs_lease m with
  | None => mret []
  | Some l =>
      if negb (has_keys l) then mret []
      else if negb (TtlLease.may_have_expired_keys now l) then mret []
      else
        keys ← take_expired now l;
        match keys with
        | [] => mret []
        | _ =>
            with_db (λ db, change_cf STATE_MACHINE_CF "State machine CF not found" (delete_keys keys) db);;
            mret keys
        end
  end.

(** ** Start and stop *)

Definition rs_start (now : N) : rsm unit := modify (λ m, m <| rs_is_serving := true |>);; load_lease_data now.

Definition rs_stop : rsm unit :=
  modify (λ m, m <| rs_is_serving := false |>);;
  m ← get;
  match rs_db m with Some _ => persist_ttl_metadata | None => mret tt end.

(** Errors are logged. *)
Definition close_db : rsm unit :=
  modify (λ m, m <| rs_is_serving := false |>);;
  attempt persist_ttl_metadata;;
  attempt rs_flush;;
  attempt rs_save_hard_state;;
  modify (λ m, m <| rs_db := None |>).

Definition rs_drop : rsm unit :=
  m ← get;
  match rs_db m with
  | None => mret tt
  | Some _ => attempt rs_flush;; attempt rs_save_hard_state;; mret tt
  end.

(** ** Snapshots *)

Definition export_file (f : LiveFile) : CfExportFile :=
  mkCfExportFile (lf_column_family_name f) (lf_name f) (lf_size f) (lf_level f) (lf_start_key f) (lf_end_key f)
    (lf_smallest_seqno f) (lf_largest_seqno f) (lf_num_entries f) (lf_num_deletions f).

Definition live_file (dir : string) (f : CfExportFile) : LiveFile :=
  mkLiveFile (cf_column_family_name f) (cf_name f) dir (cf_size f) (cf_level f) (cf_start_key f) (cf_end_key f)
    (cf_smallest_seqno f) (cf_largest_seqno f) (cf_num_entries f) (cf_num_deletions f).

(** The bytes that [save_cf_export_metadata] writes. *)
Definition save_cf_export_metadata (em : ExportMeta) : bytes :=
  em_serialize (mkCfExportMeta (em_db_comparator_name em) (export_file <$> em_files em)).

Definition load_cf_export_metadata (file : option bytes) (actual_dir : string) : result ExportMeta :=
  match file with
  | None => Err (DbError "No such file or directory")
  | Some b =>
      match em_deserialize b with
      | None => Err BincodeError
      | Some meta => db_err (export_meta (cem_db_comparator_name meta) (live_file actual_dir <$> cem_files meta))
      end
  end.

(** A column family without files is created, one with files is imported. *)
Definition create_or_import (cf : Cf) (em : ExportMeta) (sst : Sst) (db : DB) : DB * db_result unit :=
  match em_files em with
  | [] => db_create_cf cf db
  | _ => db_import cf em sst db
  end.

(** [op(..)?; rest]. *)
Definition then_db (op : DB → DB * db_result unit) (rest : DB → DB * result unit) (db : DB) : DB * result unit :=
  match op db with
  | (db', inr _) => rest db'
  | (db', inl e) => (db', Err (DbError e))
  end.

Definition restore_from_cf_export (dir : RocksDir Sst) (db : DB) : DB * result unit :=
  match load_cf_export_metadata (sm_metadata_bin dir) (rd_path dir +:+ "/sm") with
  | Err e => (db, Err e)
  | Ok sm =>
      match load_cf_export_metadata (sm_meta_metadata_bin dir) (rd_path dir +:+ "/sm_meta") with
      | Err e => (db, Err e)
      | Ok sm_meta =>
          then_db (db_drop_cf STATE_MACHINE_CF)
            (then_db (db_drop_cf STATE_MACHINE_META_CF)
              (then_db (create_or_import STATE_MACHINE_CF sm (rd_sm dir))
                (then_db (create_or_import STATE_MACHINE_META_CF sm_meta (rd_sm_meta dir))
                  (λ db, (db, Ok tt))))) db
      end
  end.

Definition restore_from_snapshot (now : N) (metadata : SnapshotMetadata) (last_included : LogId) (dir : RocksDir Sst)
    : rsm unit :=
  with_db (restore_from_cf_export dir);;
  m ← get;
  (match rs_lease m, ttl_state_bin dir with
   | Some _, Some data => reload_lease now data;; persist_ttl_metadata
   | _, _ => mret tt
   end);;
  modify (λ m, m <| rs_last_snapshot_metadata := Some metadata |>);;
  update_last_applied last_included;;
  modify (λ m, m <| rs_is_serving := true |>).

Context (sha256 : bytes → bytes).

(** [compute_checksum_from_folder_path]: the files of the directory in the order of their
    names; it does not enter directories. *)
Definition rocks_checksum (dir : RocksDir Sst) : bytes :=
  sha256 (default [] (sm_meta_metadata_bin dir) ++ default [] (sm_metadata_bin dir) ++ default [] (ttl_state_bin dir)).

Definition rs_apply_snapshot_from_file (now : N) (metadata : SnapshotMetadata) (dir : RocksDir Sst)
    : rsm SnapshotApplyResult :=
  match last_included metadata with
  | None => fail (SnapshotFailed "Missing last_included in snapshot metadata")
  | Some incoming =>
      m ← get;
      let current := rs_last_applied m in
      if lid_index incoming <? lid_index current then mret (IgnoredStale current)
      else if lid_index incoming =? lid_index current then
        if lid_term incoming =? lid_term current then mret (IgnoredDuplicate current)
        else fail BoundaryConflict
      else if negb (bool_decide (checksum metadata = rocks_checksum dir)) then fail ChecksumMismatch
      else
        modify (λ m, m <| rs_is_serving := false |>);;
        r ← attempt (restore_from_snapshot now metadata incoming dir);
        match r with
        | Ok _ => mret (Applied incoming)
        | Err e => modify (λ m, m <| rs_is_serving := true |>);; fail e
        end
  end.

(** [generate_snapshot_data]: the database is used on another thread, so chunks may be
    applied between any two calls; [others i] is what happens before the [i]-th one. *)
Definition rs_generate_snapshot_data (env : SnapEnv) (others : nat → RocksDBStateMachine DB → RocksDBStateMachine DB)
    (path : string) : rsm (RocksDir Sst * bytes) :=
  with_db (λ db, (db, Ok tt));;
  if negb (se_create_dir env) then fail IoError else
  read_db (λ db,
    let? _ := db_err (se_checkpoint env) in
    need_cf STATE_MACHINE_CF "SM CF not found" db
      (need_cf STATE_MACHINE_META_CF "SM meta CF not found" db (Ok tt)));;
  modify (others 0%nat);;
  with_db (λ db, let '(db', r) := db_flush_cfs [STATE_MACHINE_CF] db in (db', db_err r));;
  modify (others 1%nat);;
  with_db (λ db, let '(db', r) := db_flush_cfs [STATE_MACHINE_META_CF] db in (db', db_err r));;
  modify (others 2%nat);;
  sm ← with_db (λ db, let '(db', r) := db_export STATE_MACHINE_CF (path +:+ "/sm") db in (db', db_err r));
  modify (others 3%nat);;
  sm_meta ← with_db (λ db, let '(db', r) := db_export STATE_MACHINE_META_CF (path +:+ "/sm_meta") db in (db', db_err r));
  if negb (se_write_metadata env) then fail (DbError "write") else
  modify (others 4%nat);;
  m ← get;
  (match rs_lease m with
   | Some _ => if se_write_ttl env then mret tt else fail IoError
   | None => mret tt
   end);;
  let dir := mkRocksDir path (Some (save_cf_export_metadata sm_meta.1)) (Some (save_cf_export_metadata sm.1))
               (TtlLease.to_snapshot <$> rs_lease m) sm.2 sm_meta.2 in
  if se_read env then mret (dir, rocks_checksum dir) else fail IoError.
End operations.
End Rocks.
