(* ===== verification/RocksSmProps.v ===== *)
(** * The RocksDB state machine: what its operations do

    The effect of the operations of [RocksSm.v] on the contents of the two column
    families, against the reference semantics of commands; the state machine has the laws
    of [KvMachine]. *)

From stdpp Require Import base tactics numbers option list sorting gmap strings.
From S2P Require Import Prelude Proc Types Events Codec Commands TtlLease FileStateMachine FsmSpec SmWorker KvMachine.
From S2P Require Import RocksDb RocksSm.

Import Rocks.

Section spec.
Context {DB Sst : Type} `{!RocksDB DB Sst} `{!RocksDBLaws DB Sst} {lease_codec : LeaseCodec} {md_codec : MetadataCodec}
  {export_codec : ExportCodec} {lease_iter : MapIter bytes N}.
Implicit Types m : RocksDBStateMachine DB.

Definition rs_table (cf : Cf) m : option table := rs_db m ≫= λ db, db_tables db cf.

Definition rs_values m : values := default ∅ (rs_table STATE_MACHINE_CF m).

(** ** Batches *)

(** A batch with the writes of [e], against the effect of [e]. *)
Lemma batch_ops_effect (ops : list Cmd.BatchOp) (t : table) :
  batch_effect STATE_MACHINE_CF (batch_op <$> ops) t = foldl kv_batch_op t ops.
Proof.
  unfold batch_effect. revert t. induction ops as [|o ops IH]; intros t; [done|]. csimpl. rewrite IH. f_equal. by destruct o.
Qed.

Lemma cas_success_spec current expected : cas_success current expected = bool_decide (current = expected).
Proof.
  destruct current, expected; simpl; try done. apply bool_decide_ext. split; congruence.
Qed.

(** Everything but the leases. *)
Definition fixed m := (rs_db m, rs_is_serving m, rs_last_applied_index m, rs_last_applied_term m, rs_last_snapshot_metadata m).

Lemma on_lease_inv f m m' r :
  on_lease (DB := DB) f m = Some (m', r) →
  fixed m' = fixed m ∧ r = Ok tt ∧ match rs_lease m with None => rs_lease m' = None | Some l => ∃ l', f l = Some l' ∧ rs_lease m' = Some l' end.
Proof.
  unfold on_lease. destruct (rs_lease m) as [l|] eqn:E; [|by intros [= <- <-]].
  destruct (f l) as [l'|]; [|done]. intros [= <- <-]. split; [done|]. split; [done|]. eauto.
Qed.

Lemma unregister_removes_all ops m m' r :
  for_each (λ o, match o with Cmd.BDelete key => unregister_key (DB := DB) key | _ => mret tt end) ops m = Some (m', r) →
  fixed m' = fixed m ∧ rs_lease m' = foldl lease_batch_op (rs_lease m) ops.
Proof.
  revert m. induction ops as [|o ops IH]; intros m; [by intros [= <- <-]|]. simpl.
  intros (m1 & r1 & H1 & H2)%bind_inv. destruct o as [key value|key].
  - injection H1 as <- <-. by apply IH.
  - apply on_lease_inv in H1 as (Hf & -> & Hl). apply IH in H2 as [Hf2 ->]. split; [by rewrite Hf2, Hf|].
    f_equal. simpl. destruct (rs_lease m) as [l|]; [|done]. by destruct Hl as (l' & [= <-] & ->).
Qed.

(** One entry of a chunk. *)
Lemma batch_entry_ok now (db : DB) batch e t m m' ops ok :
  db_tables db STATE_MACHINE_CF = Some t → batch_entry now db batch e m = Some (m', Ok (ops, ok)) →
  kv_exec (batch_effect STATE_MACHINE_CF batch t) e = (batch_effect STATE_MACHINE_CF (batch ++ ops) t, ok)
  ∧ Forall (λ o, op_cf o = STATE_MACHINE_CF) ops ∧ fixed m' = fixed m
  ∧ lease_exec now e (rs_lease m) = Some (rs_lease m').
Proof.
  intros Ht. rewrite batch_effect_app. unfold batch_entry, kv_exec, lease_exec.
  destruct (ae_command e) as [|key value ttl|key|key expected value|bops].
  - by intros [= <- <- <-].
  - intros (m1 & [] & H & [= <- <- <-])%bind_ok_inv. split; [done|]. split; [by repeat constructor|].
    destruct ttl as [secs|]; [|by injection H as <-]. unfold register_key in H.
    apply bind_ok_inv in H as (? & ? & [= <- <-] & H). destruct (rs_lease m) as [l|] eqn:El; [|done].
    apply on_lease_inv in H as (Hf & _ & Hl). rewrite El in Hl. destruct Hl as (l' & Hr & ->). simpl. by rewrite Hr.
  - intros (m1 & [] & (Hf & _ & Hl)%on_lease_inv & [= <- <- <-])%bind_ok_inv. split; [done|]. split; [by repeat constructor|].
    split; [done|]. destruct (rs_lease m) as [l|]; [|by rewrite Hl]. by destruct Hl as (l' & [= <-] & ->).
  - destruct (db_get_from_batch batch STATE_MACHINE_CF key db) as [err|cur] eqn:Eg; [done|].
    apply (get_from_batch_spec _ _ _ _ _ t) in Eg; [|done]. subst cur. rewrite cas_success_spec.
    case_bool_decide as E; intros [= <- <- <-]; [rewrite decide_True by done|rewrite decide_False by done];
      (split; [done|]; split; [by repeat constructor|done]).
  - intros (m1 & [] & [Hf Hl]%unregister_removes_all & [= <- <- <-])%bind_ok_inv. rewrite batch_ops_effect. split; [done|].
    split; [|by rewrite Hl]. apply Forall_fmap, Forall_forall. by intros [].
Qed.

Lemma batch_entries_ok clock i (db : DB) prev batch chunk t m m' ops rs :
  db_tables db STATE_MACHINE_CF = Some t → Forall (λ o, op_cf o = STATE_MACHINE_CF) batch →
  batch_entries clock i db prev batch chunk m = Some (m', Ok (ops, rs)) →
  kv_serial (batch_effect STATE_MACHINE_CF batch t) chunk = (batch_effect STATE_MACHINE_CF ops t, rs)
  ∧ Forall (λ o, op_cf o = STATE_MACHINE_CF) ops ∧ fixed m' = fixed m
  ∧ lease_serial clock i chunk (rs_lease m) = Some (rs_lease m').
Proof.
  intros Ht. revert i prev batch m rs. induction chunk as [|e chunk IH]; intros i prev batch m rs Hb; simpl.
  { by intros [= <- <- <-]. }
  destruct (match prev with Some p => p <? ae_index e | None => true end); [|done].
  intros (m1 & [ops1 ok] & H1 & H)%bind_ok_inv. apply bind_ok_inv in H as (m2 & [ops2 rs2] & H2 & [= <- <- <-]).
  destruct (batch_entry_ok _ _ _ _ _ _ _ _ _ Ht H1) as (He & Ho & Hf & Hl). simpl in H2.
  apply IH in H2 as (Hs & Ho2 & Hf2 & Hl2); [|by apply Forall_app]. rewrite He, Hs, Hl. simpl.
  by rewrite Hf2, Hf.
Qed.

(** ** Chunks *)

Lemma with_db_ok {A} (f : DB → DB * result A) m m' a :
  with_db f m = Some (m', Ok a) →
  ∃ db db', rs_db m = Some db ∧ f db = (db', Ok a) ∧ m' = m <| rs_db := Some db' |>.
Proof.
  unfold with_db. destruct (rs_db m) as [db|]; [|done]. destruct (f db) as [db' r] eqn:E. intros [= <- ->]. eauto 10.
Qed.

Lemma applied_ops_other (chunk : list ApplyEntry) (t : table) : batch_effect STATE_MACHINE_CF (applied_ops chunk) t = t.
Proof. apply batch_effect_other. unfold applied_ops. destruct (last chunk); by repeat constructor. Qed.

Record applied_ok (clock : nat → N) (chunk : list ApplyEntry) m m' (results : list ApplyResult) : Prop := {
  ap_values t : rs_table STATE_MACHINE_CF m = Some t →
    ∃ t', rs_table STATE_MACHINE_CF m' = Some t' ∧ kv_serial t chunk = (t', results);
  ap_meta t : rs_table STATE_MACHINE_META_CF m = Some t →
    rs_table STATE_MACHINE_META_CF m' = Some (batch_effect STATE_MACHINE_META_CF (applied_ops chunk) t);
  ap_cfs cf : is_Some (rs_table cf m) → cf ∈ [STATE_MACHINE_CF; STATE_MACHINE_META_CF] ∨ rs_table cf m' = rs_table cf m;
  ap_id : rs_last_applied m' = chunk_id chunk (rs_last_applied m);
  ap_lease : lease_serial clock 0 chunk (rs_lease m) = Some (rs_lease m');
  ap_rest : rs_is_serving m' = rs_is_serving m ∧ rs_last_snapshot_metadata m' = rs_last_snapshot_metadata m;
}.

Lemma rs_apply_ok clock chunk m m' results :
  rs_apply_chunk clock chunk m = Some (m', Ok results) →
  is_Some (rs_table STATE_MACHINE_CF m) ∧ is_Some (rs_table STATE_MACHINE_META_CF m) ∧ applied_ok clock chunk m m' results.
Proof.
  unfold rs_apply_chunk. intros (m0 & ? & [= <- <-] & H)%bind_ok_inv. unfold rs_table at 1 2.
  destruct (rs_db m) as [db|] eqn:Edb; [|done]. simpl.
  destruct (db_cf_handle STATE_MACHINE_CF db) eqn:E1; [|done]. apply cf_handle_spec in E1 as [t Ht].
  destruct (db_cf_handle STATE_MACHINE_META_CF db) eqn:E2; [|done]. apply cf_handle_spec in E2 as [tm Htm]. simpl in H.
  apply bind_ok_inv in H as (m1 & [ops rs] & Hb & H).
  apply batch_entries_ok with (t := t) in Hb as (Hs & Ho & Hf & Hl); [|done|constructor]. simpl in H.
  apply bind_ok_inv in H as (m2 & [] & (db1 & db2 & Hdb1 & Hw & ->)%with_db_ok & H).
  injection Hf as Hfdb Hfs Hfi Hft Hfm. rewrite Hfdb, Edb in Hdb1. injection Hdb1 as <-.
  destruct (db_write true (ops ++ applied_ops chunk) db) as [db3 [?|[]]] eqn:Ew; [done|]. injection Hw as <-.
  assert (m' = match last chunk with
               | Some e => m1 <| rs_db := Some db3 |> <| rs_last_applied_index := ae_index e |> <| rs_last_applied_term := ae_term e |>
               | None => m1 <| rs_db := Some db3 |> end ∧ results = rs) as [-> ->].
  { destruct (last chunk); by injection H as <- <-. }
  assert (∀ cf, db_tables db3 cf = batch_effect cf (ops ++ applied_ops chunk) <$> db_tables db cf) as Htab
    by (intros cf; by eapply write_ok).
  split; [by eexists|]. split; [by eexists|].
  set (m'' := match last chunk with Some _ => _ | None => _ end).
  assert (rs_db m'' = Some db3 ∧ rs_lease m'' = rs_lease m1 ∧ rs_is_serving m'' = rs_is_serving m1
    ∧ rs_last_snapshot_metadata m'' = rs_last_snapshot_metadata m1) as (Hdb'' & Hl'' & Hs'' & Hm'') by (unfold m''; by destruct (last chunk)).
  split; unfold rs_table; rewrite ?Hdb'', ?Edb; simpl.
  - intros t0 Ht0. rewrite Ht in Ht0. injection Ht0 as <-. eexists. rewrite Htab, Ht. split; [done|].
    rewrite batch_effect_app, applied_ops_other. exact Hs.
  - intros t0 Ht0. rewrite Htab, Ht0. simpl. rewrite batch_effect_app, (batch_effect_other _ ops); [done|].
    eapply Forall_impl; [done|]. intros o ->. done.
  - intros cf [t0 Ht0]. destruct cf; [right|right|by left; left|by left; right; left].
    all: rewrite Htab, Ht0; simpl; rewrite batch_effect_other; [done|]; apply Forall_app; split.
    all: try (eapply Forall_impl; [done|]; intros o ->; done).
    all: unfold applied_ops; destruct (last chunk); by repeat constructor.
  - unfold m'', rs_last_applied, chunk_id. destruct (last chunk); simpl; by rewrite ?Hfi, ?Hft.
  - by rewrite Hl''.
  - by rewrite Hs'', Hm''.
Qed.

(** ** Reads *)

Lemma rs_get_ok key m v : rs_get key m = Ok v → v = rs_values m !! key.
Proof.
  unfold rs_get, rs_values, rs_table. destruct (rs_is_serving m); [|done]. simpl. destruct (rs_db m) as [db|]; [|done].
  unfold need_cf. destruct (db_cf_handle STATE_MACHINE_CF db) eqn:E; [|done]. apply cf_handle_spec in E as [t Ht].
  simpl. rewrite Ht. simpl. destruct (db_get STATE_MACHINE_CF key db) as [e|o] eqn:Eg; [done|]. intros [= <-].
  by apply (get_spec _ _ _ _ t) in Eg.
Qed.

Lemma rs_get_multi_ok keys m vs : rs_get_multi keys m = Ok vs → vs = (rs_values m !!.) <$> keys.
Proof.
  unfold rs_get_multi, rs_values, rs_table. destruct (rs_is_serving m); [|done]. simpl. destruct (rs_db m) as [db|]; [|done].
  unfold need_cf. destruct (db_cf_handle STATE_MACHINE_CF db) eqn:E; [|done]. apply cf_handle_spec in E as [t Ht].
  simpl. rewrite Ht. simpl. revert vs. induction keys as [|key keys IH]; intros vs; [by intros [= <-]|]. csimpl.
  destruct (db_get STATE_MACHINE_CF key db) as [e|o] eqn:Eg; [done|]. simpl.
  destruct (get_all keys db) as [vs'|]; [|done]. intros [= <-]. f_equal; [by apply (get_spec _ _ _ _ t) in Eg|by apply IH].
Qed.
End spec.

(** * The RocksDB state machine: properties

    The state machine executes the commands of a chunk one after the other and agrees with
    the file-based one ([backends_agree]); data and applied index are stored together
    ([reopened_machine_is_consistent]); a prefix scan finds exactly the keys with the prefix
    ([scan_finds_the_prefix]); and a snapshot carries the data, the leases and the applied
    index to another node ([rocks_snapshot_round_trip]). *)

From S2P Require Import FsmProps RocksLogSpec.

Import Rocks.

Section properties.
Context {DB Sst : Type} `{!RocksDB DB Sst} `{!RocksDBLaws DB Sst} {lease_codec : LeaseCodec} {md_codec : MetadataCodec}
  {export_codec : ExportCodec} {lease_iter : MapIter bytes N} {kv_iter : MapIter bytes (bytes * N)}.
Implicit Types m : RocksDBStateMachine DB.

(** ** The interface *)

(** It serves, its column families are there, and every key can be read. *)
Definition rs_readable m : Prop := ∀ key, ∃ v, rs_get key m = Ok v.

Definition rocks_machine (clock : nat → N) (now : N) (env : SnapEnv) (path : string) (sha256 : bytes → bytes)
    : StateMachine (RocksDBStateMachine DB) (RocksDir Sst) := {|
  sm_apply := rs_apply_chunk clock;
  sm_applied_id := rs_last_applied;
  sm_read key m := match rs_get key m with Ok v => v | Err _ => None end;
  sm_install md dir := rs_apply_snapshot_from_file sha256 now md dir;
  sm_generate _ m := default (m, Err (Fatal "panic")) (rs_generate_snapshot_data sha256 env (λ _ m, m) path m);
|}.

#[global] Instance rocks_kv_machine clock now env path sha256 :
  @KvMachine (RocksDBStateMachine DB) (RocksDir Sst) (rocks_machine clock now env path sha256).
Proof.
  refine {| sm_values := rs_values; sm_readable := rs_readable |}.
  - intros key m Hr. simpl. destruct (Hr key) as [v Hv]. rewrite Hv. by apply rs_get_ok.
  - intros chunk m m' results ([t Ht] & _ & Ha)%rs_apply_ok. destruct (ap_values _ _ _ _ _ Ha t Ht) as (t' & Ht' & Hs).
    unfold rs_values. by rewrite Ht, Ht'.
Defined.

(** C14: The two backends of the state machine: with the same values and leases, a chunk that
    both apply has the same results on both, and they have the same values, leases and
    applied index again. *)
Theorem backends_agree env chunk (f f' : Fsm.FileStateMachine) m m' rf rm :
  plain (Fsm.data f) = rs_values m → Fsm.lease f = rs_lease m → Fsm.sm_last_applied f = rs_last_applied m →
  Fsm.apply_chunk env chunk f = Some (f', Ok rf) →
  rs_apply_chunk (Fsm.lease_clock env) chunk m = Some (m', Ok rm) →
  rf = rm ∧ plain (Fsm.data f') = rs_values m' ∧ Fsm.lease f' = rs_lease m'
  ∧ Fsm.sm_last_applied f' = rs_last_applied m'.
Proof.
  intros Hv Hl Hid Hf Hm. destruct (apply_chunk_serial _ _ _ _ _ Hf) as (_ & _ & Hlf & Hidf).
  destruct (rs_apply_ok _ _ _ _ _ Hm) as (_ & _ & Ha). rewrite Hl, (ap_lease _ _ _ _ _ Ha) in Hlf.
  assert (rf = rm ∧ plain (Fsm.data f') = rs_values m') as [-> Hv'].
  { apply (machines_agree (KvMachine0 := file_kv_machine env id)
      (KvMachine1 := rocks_kv_machine (Fsm.lease_clock env) 0 (mkSnapEnv true (inr tt) true true true) "" id)
      chunk f f' m m'); done. }
  split; [done|]. split; [done|]. split; [congruence|].
  by rewrite (ap_id _ _ _ _ _ Ha), <-Hid.
Qed.

(** ** Scans *)

Lemma scan_loop_strict prefix : strict (scan_loop prefix).
Proof.
  intros l. induction l as [|r l IH]; intros j e a; [by destruct j; intros [=]|].
  destruct j as [|j]; [done|]. csimpl. specialize (IH j e). case_decide; [|done].
  destruct (scan_loop prefix ((inr <$> take j l) ++ [inl e])) as [rs|]; [|done]. by rewrite (IH rs).
Qed.

Lemma scan_loop_rows prefix l :
  StronglySorted row_lt l → Forall (λ p, bytes_le prefix p.1 = true) l →
  scan_loop prefix (inr <$> l) = Ok (filter (λ p, prefix `prefix_of` p.1) l).
Proof.
  induction 1 as [|r l Hs IH Hr]; intros Hall; [done|]. inversion Hall as [|? ? Hle Hall']. subst. csimpl.
  rewrite filter_cons. case_decide as Hp; [by rewrite IH|]. f_equal. symmetry.
  clear IH. rewrite Forall_forall in Hr.
  assert (∀ q, q ∈ l → ¬ prefix `prefix_of` q.1) as Hnone.
  { intros q Hq Hpq. apply Hp. apply (prefix_between prefix r.1 q.1); [done| |done]. by apply bytes_lt_le, Hr. }
  clear -Hnone. induction l as [|q l IH]; [done|]. rewrite filter_cons_False; [|apply Hnone; by left].
  apply IH. intros q' Hq'. apply Hnone. by right.
Qed.

Lemma rows_from_prefix (prefix : bytes) (t : table) :
  filter (λ p, prefix `prefix_of` p.1) (rows_from prefix (prefix_successor prefix) t)
  = filter (λ p, prefix `prefix_of` p.1) (rows t).
Proof.
  apply rows_unique; [apply StronglySorted_filter, rows_from_sorted|apply StronglySorted_filter, rows_sorted|].
  intros [k v]. rewrite !list_elem_of_filter, elem_of_rows, elem_of_rows_from. simpl. split; [tauto|].
  intros [Hp Hk]. split; [done|]. split; [done|]. unfold in_bounds. rewrite (prefix_le _ _ Hp). simpl.
  destruct (prefix_successor prefix) as [u|] eqn:E; [|done]. by apply (prefix_below_successor prefix).
Qed.

(** A prefix scan returns exactly the pairs whose key has the prefix, in the order of the
    keys, also when bytes of the prefix are 255 and there is no bound above it. *)
Theorem scan_finds_the_prefix prefix m later r :
  prefix ≠ [] → rs_scan_prefix prefix m later = Ok r →
  sr_entries r = filter (λ p, prefix `prefix_of` p.1) (rows (rs_values m))
  ∧ sr_revision r = rs_last_applied_index later.
Proof.
  intros Hne. unfold rs_scan_prefix, rs_values, rs_table. destruct prefix as [|x p]; [done|]. set (prefix := x :: p).
  destruct (rs_db m) as [db|]; [|done]. unfold need_cf. destruct (db_cf_handle STATE_MACHINE_CF db) eqn:E; [|done].
  apply cf_handle_spec in E as [t Ht]. simpl. rewrite Ht. simpl.
  destruct (scan_loop prefix _) as [es|] eqn:El; [|done]. intros [= <-]. split; [|done]. simpl.
  eapply strict_items in El; [|apply scan_loop_strict|by apply iter_items].
  rewrite scan_loop_rows, rows_from_prefix in El; [by injection El as <-|apply rows_from_sorted|].
  apply Forall_forall. intros [k v] [_ Hb]%elem_of_rows_from. by apply andb_prop in Hb as [Hb _].
Qed.

(** ** Opening again *)

Definition stored_u64 (key : bytes) (t : table) : N :=
  match t !! key with Some b => if (length b =? 8)%nat then be_decode b else 0 | None => 0 end.

Lemma from_shared_db_ok (db : DB) m :
  from_shared_db db = Ok m →
  ∃ t, db_tables db STATE_MACHINE_META_CF = Some t ∧ rs_db m = Some db ∧ rs_is_serving m = true ∧ rs_lease m = None
    ∧ rs_last_applied m = mkLogId (stored_u64 LAST_APPLIED_TERM_KEY t) (stored_u64 LAST_APPLIED_INDEX_KEY t)
    ∧ rs_last_snapshot_metadata m = t !! SNAPSHOT_METADATA_KEY ≫= md_deserialize.
Proof.
  unfold from_shared_db, load_state_machine_metadata, load_snapshot_metadata, need_cf.
  destruct (db_cf_handle STATE_MACHINE_META_CF db) eqn:E; [|done]. apply cf_handle_spec in E as [t Ht].
  unfold load_u64. destruct (db_get _ LAST_APPLIED_INDEX_KEY db) as [?|o1] eqn:E1; [done|]. simpl.
  destruct (db_get _ LAST_APPLIED_TERM_KEY db) as [?|o2] eqn:E2; [done|]. simpl.
  destruct (db_get _ SNAPSHOT_METADATA_KEY db) as [?|o3] eqn:E3; [done|]. simpl.
  apply (get_spec _ _ _ _ t) in E1, E2, E3; [|done..]. subst o1 o2 o3. intros Hm. exists t. split; [done|].
  destruct (t !! SNAPSHOT_METADATA_KEY) as [b|]; [|by injection Hm as <-].
  simpl. destruct (md_deserialize b) as [md|]; [|done]. by injection Hm as <-.
Qed.

(** The applied index is written with the data, in one batch. *)
Lemma applied_stored (chunk : list ApplyEntry) (t : table) id :
  chunk ≠ [] → Forall (λ e, ae_index e <= u64_max ∧ ae_term e <= u64_max) chunk →
  let t' := batch_effect STATE_MACHINE_META_CF (applied_ops chunk) t in
  mkLogId (stored_u64 LAST_APPLIED_TERM_KEY t') (stored_u64 LAST_APPLIED_INDEX_KEY t') = chunk_id chunk id.
Proof.
  intros Hne Hb. unfold applied_ops, chunk_id. destruct (last chunk) as [e|] eqn:E; [|by apply last_None in E].
  rewrite Forall_forall in Hb. destruct (Hb e (last_Some_elem_of _ _ E)) as [Hi Ht]. cbv zeta.
  unfold batch_effect, stored_u64. cbn [foldl op_effect]. rewrite !decide_True by done.
  rewrite lookup_insert_eq, lookup_insert_ne, lookup_insert_eq by done. rewrite !length_be64. simpl.
  by rewrite !be_decode_be64.
Qed.

(** Whoever opens the database with the contents that a chunk left finds the values and
    the applied index of that chunk: a replay of the log continues exactly behind it. *)
Theorem reopened_machine_is_consistent clock chunk m m' results (db db2 : DB) m2 :
  chunk ≠ [] → Forall (λ e, ae_index e <= u64_max ∧ ae_term e <= u64_max) chunk →
  rs_apply_chunk clock chunk m = Some (m', Ok results) → rs_db m' = Some db →
  (∀ cf, db_tables db2 cf = db_tables db cf) → from_shared_db db2 = Ok m2 →
  rs_values m2 = rs_values m' ∧ rs_last_applied m2 = rs_last_applied m'
  ∧ lid_index (rs_last_applied m2) = default 0 (ae_index <$> last chunk).
Proof.
  intros Hne Hb (_ & [tm Htm] & Ha)%rs_apply_ok Hdb Hsame (t2 & Ht2 & Hdb2 & _ & _ & Hid & _)%from_shared_db_ok.
  pose proof (ap_meta _ _ _ _ _ Ha tm Htm) as Hm'. unfold rs_table in Hm'. rewrite Hdb in Hm'. simpl in Hm'.
  rewrite Hsame, Hm' in Ht2. injection Ht2 as <-.
  rewrite (applied_stored chunk tm (rs_last_applied m) Hne Hb) in Hid.
  split; [unfold rs_values, rs_table; rewrite Hdb, Hdb2; simpl; by rewrite Hsame|].
  rewrite (ap_id _ _ _ _ _ Ha), Hid. split; [done|]. unfold chunk_id.
  destruct (last chunk) as [e|] eqn:E; [done|by apply last_None in E].
Qed.

(** ** Snapshots *)

Context (sha256 : bytes → bytes).

Lemma load_saved_metadata em dir em' :
  load_cf_export_metadata (Some (save_cf_export_metadata em)) dir = Ok em' → em' = relocate dir em.
Proof.
  unfold load_cf_export_metadata, save_cf_export_metadata. rewrite em_round_trip. simpl. rewrite <-list_fmap_compose.
  destruct (export_meta _ _) as [?|x] eqn:E; [done|]. intros [= <-]. by apply export_meta_ok in E.
Qed.

(** What a snapshot directory contains. *)
Record snapshot_of (t tm : table) (leases : option bytes) (dir : RocksDir Sst) : Prop := {
  so_sm : ∃ em, sm_metadata_bin dir = Some (save_cf_export_metadata em) ∧ db_denotes em (rd_sm dir) t;
  so_sm_meta : ∃ em, sm_meta_metadata_bin dir = Some (save_cf_export_metadata em) ∧ db_denotes em (rd_sm_meta dir) tm;
  so_ttl : ttl_state_bin dir = leases;
}.

Definition same_tables m m' : Prop :=
  fixed (DB := DB) (m' <| rs_db := None |>) = fixed (m <| rs_db := None |>) ∧ rs_lease m' = rs_lease m
  ∧ ∀ cf, rs_table cf m' = rs_table cf m.

Lemma with_db_same {A} (f : DB → DB * result A) m m' a :
  (∀ db db' r cf, f db = (db', r) → db_tables db' cf = db_tables db cf) → with_db f m = Some (m', Ok a) → same_tables m m'.
Proof.
  intros Hf (db & db' & Hdb & E & ->)%with_db_ok. split; [done|]. split; [done|]. intros cf. unfold rs_table. simpl.
  rewrite Hdb. simpl. by eapply Hf.
Qed.

Lemma same_tables_trans m1 m2 m3 : same_tables m1 m2 → same_tables m2 m3 → same_tables m1 m3.
Proof.
  intros (A1 & B1 & C1) (A2 & B2 & C2). split; [congruence|]. split; [congruence|]. intros cf. by rewrite C2, C1.
Qed.

Lemma flush_step cfs m m' :
  with_db (λ db : DB, let '(db', r) := db_flush_cfs cfs db in (db', db_err r)) m = Some (m', Ok tt) → same_tables m m'.
Proof.
  apply with_db_same. intros db db' r cf. destruct (db_flush_cfs cfs db) as [db1 r1] eqn:E. intros [= <- <-].
  by eapply flush_cfs_tables.
Qed.

Lemma export_step cf path m m' em sst :
  with_db (λ db : DB, let '(db', r) := db_export cf path db in (db', db_err r)) m = Some (m', Ok (em, sst)) →
  same_tables m m' ∧ ∀ t, rs_table cf m = Some t → db_denotes em sst t.
Proof.
  intros Hw. split.
  - eapply with_db_same; [|exact Hw]. intros db db' r c. simpl. destruct (db_export cf path db) as [db1 r1] eqn:E.
    intros [= <- <-]. by eapply export_tables.
  - apply with_db_ok in Hw as (db & db' & Hdb & E & ->). intros t. unfold rs_table. rewrite Hdb. simpl. intros Ht.
    destruct (db_export cf path db) as [db1 [?|[em1 sst1]]] eqn:Ee; [done|]. injection E as <- <- <-. by eapply export_ok.
Qed.

(** A snapshot that is taken while nothing is applied holds both column families. *)
Lemma generate_ok env path m m' dir sum :
  rs_generate_snapshot_data sha256 env (λ _ m, m) path m = Some (m', Ok (dir, sum)) →
  sum = rocks_checksum sha256 dir ∧ rd_path dir = path ∧ same_tables m m'
  ∧ ∃ t tm, rs_table STATE_MACHINE_CF m = Some t ∧ rs_table STATE_MACHINE_META_CF m = Some tm
      ∧ snapshot_of t tm (TtlLease.to_snapshot <$> rs_lease m) dir.
Proof.
  unfold rs_generate_snapshot_data. intros (m1 & [] & (db & db' & Hdb & [= <-] & ->)%with_db_ok & H)%bind_ok_inv.
  assert (m <| rs_db := Some db |> = m) as Em by (rewrite <-Hdb; by destruct m). rewrite Em in H.
  destruct (se_create_dir env); [|done]. apply bind_ok_inv in H as (m2 & [] & H1 & H).
  apply with_db_ok in H1 as (? & ? & Hdb' & E & ->). rewrite Hdb in Hdb'. injection Hdb' as <-.
  destruct (se_checkpoint env) as [?|[]]; [done|]. unfold need_cf in E. simpl in E.
  destruct (db_cf_handle STATE_MACHINE_CF db) eqn:E1; [|done]. apply cf_handle_spec in E1 as [t Ht].
  destruct (db_cf_handle STATE_MACHINE_META_CF db) eqn:E2; [|done]. apply cf_handle_spec in E2 as [tm Htm].
  injection E as <-. rewrite Em in H. apply bind_ok_inv in H as (? & ? & [= <- <-] & H).
  apply bind_ok_inv in H as (m3 & [] & S3%flush_step & H). apply bind_ok_inv in H as (? & ? & [= <- <-] & H).
  apply bind_ok_inv in H as (m4 & [] & S4%flush_step & H). apply bind_ok_inv in H as (? & ? & [= <- <-] & H).
  apply bind_ok_inv in H as (m5 & [em sst] & [S5 D5]%export_step & H). apply bind_ok_inv in H as (? & ? & [= <- <-] & H).
  apply bind_ok_inv in H as (m6 & [em2 sst2] & [S6 D6]%export_step & H).
  destruct (se_write_metadata env); [|done]. apply bind_ok_inv in H as (? & ? & [= <- <-] & H).
  apply bind_ok_inv in H as (? & ? & [= <- <-] & H). apply bind_ok_inv in H as (m7 & [] & H7 & H).
  assert (m7 = m6) as -> by (destruct (rs_lease m6), (se_write_ttl env); by injection H7 as <-).
  destruct (se_read env); [|done]. injection H as <- <- <-.
  pose proof (same_tables_trans _ _ _ S3 S4) as S34. pose proof (same_tables_trans _ _ _ S34 S5) as S345.
  pose proof (same_tables_trans _ _ _ S345 S6) as Sall.
  assert (rs_table STATE_MACHINE_CF m = Some t ∧ rs_table STATE_MACHINE_META_CF m = Some tm) as [T1 T2].
  { unfold rs_table. rewrite Hdb. done. }
  split; [done|]. split; [done|]. split; [done|]. exists t, tm. split; [done|]. split; [done|]. split; simpl.
  - exists em. split; [done|]. apply D5. by rewrite (proj2 (proj2 S34)).
  - exists em2. split; [done|]. apply D6. by rewrite (proj2 (proj2 S345)).
  - by rewrite (proj1 (proj2 Sall)).
Qed.

Lemma then_db_ok (op : DB → DB * db_result unit) rest (db db' : DB) :
  then_db op rest db = (db', Ok tt) → ∃ db1, op db = (db1, inr tt) ∧ rest db1 = (db', Ok tt).
Proof. unfold then_db. destruct (op db) as [db1 [?|[]]]; [done|eauto]. Qed.

Lemma create_or_import_ok cf em sst (db db' : DB) (t : table) c :
  db_denotes em sst t → create_or_import cf em sst db = (db', inr tt) →
  db_tables db' c = if decide (c = cf) then Some t else db_tables db c.
Proof.
  intros Hd. unfold create_or_import. destruct (em_files em) as [|f fs] eqn:E.
  - rewrite (denotes_no_files em sst t Hd E). apply create_ok.
  - intros Hi. by eapply import_ok.
Qed.

Lemma restore_ok (dir : RocksDir Sst) (db db' : DB) (t tm : table) leases :
  snapshot_of t tm leases dir → restore_from_cf_export dir db = (db', Ok tt) →
  db_tables db' STATE_MACHINE_CF = Some t ∧ db_tables db' STATE_MACHINE_META_CF = Some tm.
Proof.
  intros [(em & Hsm & Hd) (em2 & Hmeta & Hd2) _]. unfold restore_from_cf_export. rewrite Hsm, Hmeta.
  destruct (load_cf_export_metadata (Some (save_cf_export_metadata em)) _) as [sm|] eqn:E1; [|done].
  destruct (load_cf_export_metadata (Some (save_cf_export_metadata em2)) _) as [sm_meta|] eqn:E2; [|done].
  apply load_saved_metadata in E1, E2. subst sm sm_meta.
  intros (db1 & _ & H)%then_db_ok. apply then_db_ok in H as (db2 & _ & H).
  apply then_db_ok in H as (db3 & H3 & H). apply then_db_ok in H as (db4 & H4 & [= <-]).
  apply (denotes_relocate (rd_path dir +:+ "/sm")) in Hd. apply (denotes_relocate (rd_path dir +:+ "/sm_meta")) in Hd2.
  rewrite !(create_or_import_ok _ _ _ _ _ _ _ Hd2 H4). rewrite decide_False, decide_True by done.
  by rewrite (create_or_import_ok _ _ _ _ _ _ _ Hd H3), decide_True.
Qed.

(** The directory after it was carried to another node. *)
Definition moved (path : string) (dir : RocksDir Sst) : RocksDir Sst :=
  mkRocksDir path (sm_meta_metadata_bin dir) (sm_metadata_bin dir) (ttl_state_bin dir) (rd_sm dir) (rd_sm_meta dir).

Lemma snapshot_of_moved (t tm : table) leases path dir : snapshot_of t tm leases dir → snapshot_of t tm leases (moved path dir).
Proof. by intros []. Qed.

Lemma persist_ttl_ok m m' :
  persist_ttl_metadata m = Some (m', Ok tt) →
  rs_lease m' = rs_lease m ∧ rs_table STATE_MACHINE_CF m' = rs_table STATE_MACHINE_CF m.
Proof.
  unfold persist_ttl_metadata. intros (? & ? & [= <- <-] & H)%bind_ok_inv. destruct (rs_lease m) as [l|] eqn:El; [|by injection H as <-].
  apply with_db_ok in H as (db & db' & Hdb & E & ->). simpl. split; [done|]. unfold rs_table. simpl. rewrite Hdb. simpl.
  unfold change_cf in E. destruct (db_cf_handle _ db); [|done]. unfold put_meta in E.
  destruct (db_write _ _ db) as [db1 [?|[]]] eqn:Ew; [done|]. injection E as <-.
  rewrite (write_ok _ _ _ _ STATE_MACHINE_CF Ew). by destruct (db_tables db STATE_MACHINE_CF).
Qed.

(** Leases after the lease file of a snapshot was loaded. *)
Definition restored_leases (now : N) (data : option bytes) (l l' : option TtlLease) : Prop :=
  match l, data with
  | Some _, Some b => ∃ e x, bincode_deserialize b = Some e ∧ l' = Some x ∧ key_to_expiry x = TtlLease.unexpired now e
  | _, _ => l' = l
  end.

Lemma lease_step_ok now (dir : RocksDir Sst) m m' :
  match rs_lease m, ttl_state_bin dir with
  | Some _, Some data => reload_lease now data;; persist_ttl_metadata
  | _, _ => mret tt
  end m = Some (m', Ok tt) →
  restored_leases now (ttl_state_bin dir) (rs_lease m) (rs_lease m')
  ∧ rs_table STATE_MACHINE_CF m' = rs_table STATE_MACHINE_CF m.
Proof.
  unfold restored_leases. destruct (rs_lease m) as [l|] eqn:El, (ttl_state_bin dir) as [b|]; try (by intros [= <-]; rewrite El).
  intros (m1 & [] & H1 & [Hl Ht]%persist_ttl_ok)%bind_ok_inv. unfold reload_lease in H1. rewrite El in H1.
  unfold TtlLease.reload in H1. destruct (bincode_deserialize b) as [e|]; [|done]. injection H1 as <-.
  split; [|by rewrite Ht]. rewrite Hl. eexists _, _. split; [done|]. split; [done|]. done.
Qed.

(** C16: A snapshot taken on one node and installed on another gives it the values of the
    first, its unexpired leases, and the index of the snapshot. *)
Theorem rocks_snapshot_round_trip env path path' now m m1 dir sum md incoming (f f' : RocksDBStateMachine DB) r :
  rs_generate_snapshot_data sha256 env (λ _ m, m) path m = Some (m1, Ok (dir, sum)) →
  last_included md = Some incoming → rs_last_applied_index f < lid_index incoming →
  rs_apply_snapshot_from_file sha256 now md (moved path' dir) f = Some (f', Ok r) →
  r = Applied incoming ∧ checksum md = sum ∧ rs_values f' = rs_values m ∧ rs_last_applied f' = incoming
  ∧ rs_last_snapshot_metadata f' = Some md ∧ rs_is_serving f' = true
  ∧ ∀ l lf, rs_lease m = Some l → rs_lease f = Some lf →
    ∃ l', rs_lease f' = Some l' ∧ key_to_expiry l' = TtlLease.unexpired now (key_to_expiry l).
Proof.
  intros (-> & _ & _ & t & tm & Ht & Htm & Hso)%generate_ok Hinc Hidx. unfold rs_apply_snapshot_from_file. rewrite Hinc.
  intros (? & ? & [= <- <-] & H)%bind_ok_inv. cbn zeta in H. simpl in H.
  destruct (N.ltb_spec (lid_index incoming) (rs_last_applied_index f)); [lia|].
  destruct (N.eqb_spec (lid_index incoming) (rs_last_applied_index f)); [lia|].
  case_bool_decide as Hsum; [|done]. simpl in H. apply bind_ok_inv in H as (f1 & [] & [= <-] & H).
  apply bind_ok_inv in H as (f2 & res & Hres & H). unfold attempt in Hres.
  destruct (restore_from_snapshot now md incoming (moved path' dir) _) as [[f3 res']|] eqn:Er; [|done].
  injection Hres as <- <-. destruct res' as [[]|e]; [|by apply bind_ok_inv in H as (? & ? & _ & ?)]. injection H as <- <-.
  unfold restore_from_snapshot in Er. apply bind_ok_inv in Er as (f4 & [] & (db & db' & Hdb & Hre & ->)%with_db_ok & H).
  apply (restore_ok _ _ _ t tm (TtlLease.to_snapshot <$> rs_lease m)) in Hre as [Hsm _]; [|by apply snapshot_of_moved].
  apply bind_ok_inv in H as (? & ? & [= <- <-] & H). apply bind_ok_inv in H as (f5 & [] & [Hl Ht5]%lease_step_ok & H).
  injection H as <-. simpl in *. split; [done|]. split; [exact Hsum|].
  assert (rs_table STATE_MACHINE_CF f5 = Some t) as Ht6 by (rewrite Ht5; unfold rs_table; simpl; done).
  split; [|split; [by destruct incoming|split; [done|split; [done|]]]].
  - unfold rs_values. rewrite Ht. unfold rs_table in *. simpl. by rewrite Ht6.
  - intros l lf El Elf. rewrite Elf, (so_ttl _ _ _ _ Hso), El in Hl. simpl in Hl.
    destruct Hl as (e & x & He & Hx & Hk). unfold TtlLease.to_snapshot in He. rewrite bincode_round_trip in He.
    injection He as <-. by exists x.
Qed.
End properties.

(** ** Runs *)

Module RocksSmRuns.
#[global] Existing Instance countable_codec.

Definition small_metadata_codec : MetadataCodec.
Proof.
  refine {| md_serialize md := match last_included md with
                               | Some id => 1 :: lid_term id :: lid_index id :: checksum md
                               | None => 0 :: checksum md
                               end;
            md_deserialize b := match b with
                                | 0 :: c => Some (mkSnapshotMetadata None c)
                                | 1 :: t :: i :: c => Some (mkSnapshotMetadata (Some (mkLogId t i)) c)
                                | _ => None
                                end |}.
  by intros [[[]|] c].
Defined.
#[global] Existing Instance small_metadata_codec.

Definition num {A} `{Countable A} (a : A) : N := N.pos (encode a).
Definition unnum {A} `{Countable A} (n : N) : option A := match n with N.pos p => decode p | N0 => None end.

Lemma unnum_num {A} `{Countable A} (a : A) : unnum (num a) = Some a.
Proof. apply decode_encode. Qed.

Definition file_nums (f : CfExportFile) : bytes :=
  [num (cf_column_family_name f); num (cf_name f); cf_size f; num (cf_level f); num (cf_start_key f); num (cf_end_key f);
   cf_smallest_seqno f; cf_largest_seqno f; cf_num_entries f; cf_num_deletions f].

Fixpoint nums_files (b : bytes) : option (list CfExportFile) :=
  match b with
  | [] => Some []
  | n1 :: n2 :: size :: n4 :: n5 :: n6 :: s1 :: s2 :: c1 :: c2 :: b' =>
      let! a := unnum n1 in let! n := unnum n2 in let! l := unnum n4 in
      let! ks := unnum n5 in let! ke := unnum n6 in
      let! fs := nums_files b' in
      Some (mkCfExportFile a n size l ks ke s1 s2 c1 c2 :: fs)
  | _ => None
  end.

Definition small_export_codec : ExportCodec.
Proof.
  refine {| em_serialize m := num (cem_db_comparator_name m) :: (cem_files m ≫= file_nums);
            em_deserialize b := match b with
                                | n :: b' => let! c := unnum n in let! fs := nums_files b' in Some (mkCfExportMeta c fs)
                                | [] => None
                                end |}.
  intros [c fs]. cbn [cem_db_comparator_name cem_files]. rewrite unnum_num. cbn [mbind option_bind].
  assert (nums_files (fs ≫= file_nums) = Some fs) as ->; [|done].
  induction fs as [|[] fs IH]; [done|]. rewrite bind_cons. unfold file_nums at 1. cbn [app nums_files].
  rewrite !unnum_num. cbn [mbind option_bind]. by rewrite IH.
Defined.
#[global] Existing Instance small_export_codec.

Abbreviation machine := (RocksDBStateMachine RefDb).

(** A new node. *)
Definition fresh : machine := mkRocksDBStateMachine (Some empty_db) true 0 0 None (Some TtlLease.new).

Definition clock (now : N) : nat → N := λ _, now * nanos.

Definition state_of {A} (r : option (machine * A)) (m : machine) : machine :=
  match r with Some (m', _) => m' | None => m end.

Definition apply (chunk : list ApplyEntry) (m : machine) : machine := state_of (rs_apply_chunk (clock 100) chunk m) m.

Definition ok_of {S A} (r : option (S * result A)) : bool := match r with Some (_, Ok _) => true | _ => false end.

Lemma ok_run {S A} (r : option (S * result A)) : ok_of r = true → ∃ s a, r = Some (s, Ok a).
Proof. destruct r as [[s [a|e]]|]; [eauto|done|done]. Qed.

Definition is_ok {A} (r : result A) : bool := match r with Ok _ => true | Err _ => false end.

Lemma ok_result {A} (r : result A) : is_ok r = true → ∃ a, r = Ok a.
Proof. destruct r; [eauto|done]. Qed.

Definition all_done : SnapEnv := mkSnapEnv true (inr tt) true true true.
Definition quiet : nat → machine → machine := λ _ m, m.
End RocksSmRuns.
Import RocksSmRuns.

(** The chunk of the file-based state machine's run: an insert, two swaps and a batch. *)
Lemma backends_agree_witness :
  ∃ f' m' r, Fsm.apply_chunk (FsmRuns.env_at 100 IoDone) FsmRuns.chunk1 FsmRuns.fresh = Some (f', Ok r)
    ∧ rs_apply_chunk (clock 100) FsmRuns.chunk1 fresh = Some (m', Ok r) ∧ plain (Fsm.data f') = rs_values m'.
Proof.
  destruct (Fsm.apply_chunk (FsmRuns.env_at 100 IoDone) FsmRuns.chunk1 FsmRuns.fresh) as [[f' [rf|e]]|] eqn:E1;
    [|vm_compute in E1; discriminate|vm_compute in E1; discriminate].
  destruct (ok_run (rs_apply_chunk (clock 100) FsmRuns.chunk1 fresh)) as (m' & rm & E2); [by vm_compute|].
  destruct (backends_agree (FsmRuns.env_at 100 IoDone) FsmRuns.chunk1 FsmRuns.fresh f' fresh m' rf rm) as (-> & Hv & _);
    [reflexivity|reflexivity|reflexivity|exact E1|exact E2|].
  exists f', m', rm. by split_and!.
Defined.

(** The keys [/a], [/a 255], [/a 255 1] and [/b]; the prefix ends in 255. *)
Definition four_keys : list ApplyEntry :=
  [mkApplyEntry 1 1 (Cmd.Batch [Cmd.BInsert [47; 97; 255; 1] [3]; Cmd.BInsert [47; 97] [1];
                                Cmd.BInsert [47; 97; 255] [2]; Cmd.BInsert [47; 98] [4]])].

Lemma scan_finds_the_prefix_witness :
  ∃ r, rs_scan_prefix [47; 97; 255] (apply four_keys fresh) (apply four_keys fresh) = Ok r
    ∧ sr_entries r = [([47; 97; 255], [2]); ([47; 97; 255; 1], [3])] ∧ sr_revision r = 1.
Proof.
  destruct (ok_result (rs_scan_prefix [47; 97; 255] (apply four_keys fresh) (apply four_keys fresh))) as (r & E);
    [by vm_compute|].
  exists r. split; [done|].
  destruct (scan_finds_the_prefix [47; 97; 255] (apply four_keys fresh) (apply four_keys fresh) r) as [-> ->];
    [done|exact E|]. split; vm_compute; reflexivity.
Defined.

Lemma reopened_machine_is_consistent_witness :
  ∃ m2, from_shared_db (default empty_db (rs_db (apply FsmRuns.chunk1 fresh))) = Ok m2
    ∧ rs_values m2 = rs_values (apply FsmRuns.chunk1 fresh) ∧ rs_last_applied_index m2 = 4.
Proof.
  destruct (ok_result (from_shared_db (default empty_db (rs_db (apply FsmRuns.chunk1 fresh))))) as (m2 & E);
    [by vm_compute|]. exists m2. split; [done|].
  destruct (ok_run (rs_apply_chunk (clock 100) FsmRuns.chunk1 fresh)) as (m' & r & Ea); [by vm_compute|].
  assert (apply FsmRuns.chunk1 fresh = m') as Em by (unfold apply; by rewrite Ea). rewrite Em in *.
  destruct (rs_apply_ok _ _ _ _ _ Ea) as (_ & _ & Ha). pose proof (ap_meta _ _ _ _ _ Ha ∅ eq_refl) as Hmeta.
  unfold rs_table in Hmeta. destruct (rs_db m') as [db|] eqn:Edb; [|discriminate].
  destruct (reopened_machine_is_consistent (clock 100) FsmRuns.chunk1 fresh m' r db db m2) as (Hv & _ & Hi);
    [done| |exact Ea|exact Edb|done|exact E|by split].
  repeat (constructor; [split; by vm_compute|]). constructor.
Defined.

(** A key with a lease until 140 s is carried over at 120 s. *)
Definition leased : list ApplyEntry := [mkApplyEntry 1 1 (Cmd.Insert [1] [10] (Some 40)); mkApplyEntry 2 1 (Cmd.Insert [2] [20] None)].

Definition snapshot_dir (m : machine) : RocksDir table * bytes :=
  match rs_generate_snapshot_data id all_done quiet "a" m with
  | Some (_, Ok p) => p
  | _ => (mkRocksDir "" None None None ∅ ∅, [])
  end.

Lemma rocks_snapshot_round_trip_witness :
  let dir := snapshot_dir (apply leased fresh) in
  ∃ f' l', rs_apply_snapshot_from_file id (120 * nanos) (mkSnapshotMetadata (Some (mkLogId 1 2)) dir.2) (moved "b" dir.1) fresh
           = Some (f', Ok (Applied (mkLogId 1 2)))
    ∧ rs_values f' = {[ [1] := [10]; [2] := [20] ]} ∧ rs_last_applied_index f' = 2
    ∧ rs_lease f' = Some l' ∧ key_to_expiry l' = {[ [1] := 140 * nanos ]}.
Proof.
  intros dir.
  destruct (ok_run (rs_generate_snapshot_data id all_done quiet "a" (apply leased fresh))) as (m1 & [d sum] & Eg); [by vm_compute|].
  assert (dir = (d, sum)) as Ed by (unfold dir, snapshot_dir; by rewrite Eg). rewrite Ed. cbn [fst snd].
  destruct (ok_run (rs_apply_snapshot_from_file id (120 * nanos) (mkSnapshotMetadata (Some (mkLogId 1 2)) sum) (moved "b" d) fresh))
    as (f' & r & Ea).
  { change sum with (d, sum).2. change d with (d, sum).1 at 2. rewrite <-Ed. by vm_compute. }
  destruct (rocks_snapshot_round_trip id all_done "a" "b" (120 * nanos) (apply leased fresh) m1 d sum
    (mkSnapshotMetadata (Some (mkLogId 1 2)) sum) (mkLogId 1 2) fresh f' r Eg) as (-> & _ & Hv & Hid & _ & _ & Hl);
    [done|by vm_compute|exact Ea|].
  destruct (rs_lease (apply leased fresh)) as [l|] eqn:El; [|vm_compute in El; discriminate].
  destruct (Hl l TtlLease.new) as (l' & Hl' & Hk); [done|done|]. exists f', l'. split; [done|].
  split; [rewrite Hv; vm_compute; reflexivity|]. split; [change (lid_index (rs_last_applied f') = 2); by rewrite Hid|].
  split; [done|]. rewrite Hk. vm_compute in El. injection El as <-. vm_compute. reflexivity.
Defined.

(** * RocksDB: where the code does not do what it means to

    Runs of the RocksDB adaptors on the small database of [RocksDb.v]: crashes, failed
    calls and interleavings that lose a vote, the log, or the agreement between replicas,
    and reads that do not give what the interface promises. *)

From S2P Require Import TermSegments BufferedLog LogInv LogSpec LogStore Roles FileStorage.
From S2P Require Import FileStorageSpec FileStorageProps LogProps RocksLogProps.

Import Rocks RocksRuns RocksSmRuns.

(** ** The log and the hard state *)

Definition small_hs_codec : HardStateCodec.
Proof.
  refine {| hs_serialize h := [num (current_term h, (λ v, (voted_for_id v, voted_for_term v, vf_committed v)) <$> voted_for h)];
            hs_deserialize b := match b with
                                | [n] => (λ x, mkHardState x.1 ((λ '(i, t, c), mkVotedFor i t c) <$> x.2)) <$> unnum n
                                | _ => None
                                end |}.
  intros [t [[]|]]; by rewrite unnum_num.
Defined.
#[local] Existing Instance small_hs_codec.

(** [save_hard_state] returns without a sync of the log of writes: a power loss forgets
    the vote, and the node can vote again in the same term. *)
Theorem saved_vote_is_lost_in_a_power_loss :
  let h := mkHardState 5 (Some (mkVotedFor 2 5 false)) in
  let saved := rm_save_hard_state h empty_db in
  saved.2 = Ok tt ∧ rm_load_hard_state saved.1 = Ok (Some h)
  ∧ crashed saved.1 (flushed_only saved.1) ∧ rm_load_hard_state (flushed_only saved.1) = Ok None.
Proof.
  split; [by vm_compute|]. split; [by vm_compute|]. split; [|by vm_compute].
  intros cf. exists ∅. split; [by left|done].
Qed.

(** An iterator that fails when the store is opened: the last index is 0, and the raft log
    starts empty although the database holds five entries. *)
Theorem unreadable_log_opens_empty :
  let db := rl_db rocks_b in
  let unreadable := mkRefDb (rd_tables db) (rd_stable db) [] true in
  rl_last_index (rl_new db) = 5 ∧ rl_last_index (rl_new unreadable) = 0
  ∧ last_entry_id (mem (log_open (rl_new unreadable))) = 0.
Proof. by vm_compute. Qed.

(** A truncation behind the end moves the last index up. *)
Theorem truncation_can_raise_the_last_index :
  let s := after_rocks (OpTruncate 10) rocks_b in
  rl_last_index rocks_b = 5 ∧ rl_last_index s = 9 ∧ rl_entry 6 s = Ok None ∧ rl_last_index (rl_new (rl_db s)) = 5.
Proof. by vm_compute. Qed.

(** An entry that is written again makes the last index smaller than the last key; the
    truncation that follows stops there and leaves the entries behind. *)
Theorem truncation_can_leave_entries :
  let s := after_rocks (OpTruncate 2) (after_rocks (OpPersist [ent 3 2]) rocks_b) in
  rl_entry 2 s = Ok None ∧ rl_entry 3 s = Ok None ∧ rl_entry 4 s = Ok (Some (ent 4 1)).
Proof. by vm_compute. Qed.

(** ** Crashes of the state machine *)

(** Key 1 is 3. Then a swap from 1 to 2 fails and a swap from 3 to 1 succeeds. *)
Definition set_three : list ApplyEntry := [mkApplyEntry 1 1 (Cmd.Insert [1] [3] None)].
Definition two_swaps : list ApplyEntry :=
  [mkApplyEntry 2 1 (Cmd.CompareAndSwap [1] (Some [1]) [2]); mkApplyEntry 3 1 (Cmd.CompareAndSwap [1] (Some [3]) [1])].

Definition db_of (m : machine) : RefDb := default empty_db (rs_db m).

(** The column families as two moments left them. *)
Definition mixed (data meta : RefDb) : RefDb :=
  mkRefDb (λ cf, if decide (cf = STATE_MACHINE_META_CF) then rd_tables meta cf else rd_tables data cf)
          (λ cf, if decide (cf = STATE_MACHINE_META_CF) then rd_tables meta cf else rd_tables data cf) [] false.

Definition reopened (db : RefDb) : machine := match rs_new db with Ok m => m | Err _ => fresh end.

Definition before_swaps : machine := state_of (rs_flush (apply set_three fresh)) fresh.
Definition after_swaps : machine := apply two_swaps before_swaps.

(** The state machine writes without the log of writes, and each column family is flushed
    on its own: a crash can leave the data of a chunk without its applied index. The chunk
    is then applied twice, and the node ends with another value than its peers. *)
Theorem replayed_swap_diverges :
  let db := mixed (db_of after_swaps) (db_of before_swaps) in
  crashed (db_of after_swaps) db
  ∧ rs_last_applied_index (reopened db) = 1
  ∧ rs_get [1] after_swaps = Ok (Some [1]) ∧ rs_get [1] (apply two_swaps (reopened db)) = Ok (Some [2]).
Proof.
  split; [|by vm_compute]. apply crash_check_sound. by vm_compute.
Qed.

(** Or the applied index without the data: the chunk is never applied again. *)
Theorem applied_chunk_is_lost :
  let db := mixed (db_of before_swaps) (db_of after_swaps) in
  crashed (db_of after_swaps) db
  ∧ rs_last_applied_index (reopened db) = 3 ∧ rs_get [1] (reopened db) = Ok (Some [3]).
Proof.
  split; [|by vm_compute]. apply crash_check_sound. by vm_compute.
Qed.

(** ** Snapshots *)

Definition md_at (index : N) (sum : bytes) : SnapshotMetadata := mkSnapshotMetadata (Some (mkLogId 1 index)) sum.

(** Both column families are dropped and the import fails: the error is logged as
    resuming with the state from before, but every read fails. After a restart the column
    families are created empty: the node has applied nothing and answers reads. *)
Definition failing_import : machine :=
  before_swaps <| rs_db := Some (mkRefDb (rd_tables (db_of before_swaps)) (rd_stable (db_of before_swaps))
                                         [false; false; true] false) |>.

Definition failed_install : machine :=
  let dir := snapshot_dir (apply leased fresh) in
  state_of (rs_apply_snapshot_from_file id 0 (md_at 2 dir.2) dir.1 failing_import) fresh.

Theorem failed_install_loses_the_data :
  rs_get [1] before_swaps = Ok (Some [3])
  ∧ rs_is_serving failed_install = true ∧ rs_last_applied_index failed_install = 1
  ∧ rs_get [1] failed_install = Err (DbError "State machine CF not found")
  ∧ rs_last_applied_index (reopened (db_of failed_install)) = 0
  ∧ rs_get [1] (reopened (db_of failed_install)) = Ok None.
Proof. by vm_compute. Qed.

(** The checksum of a snapshot does not cover the exported files. *)
Theorem checksum_misses_the_data (sha256 : bytes → bytes) (dir : RocksDir table) (sm sm_meta : table) :
  rocks_checksum sha256 (mkRocksDir (rd_path dir) (sm_meta_metadata_bin dir) (sm_metadata_bin dir) (ttl_state_bin dir) sm sm_meta)
  = rocks_checksum sha256 dir.
Proof. done. Qed.

Theorem corrupted_snapshot_is_installed :
  let dir := snapshot_dir (apply leased fresh) in
  let corrupted := mkRocksDir "b" (sm_meta_metadata_bin dir.1) (sm_metadata_bin dir.1) (ttl_state_bin dir.1)
                     {[ [1] := [99] ]} (rd_sm_meta dir.1) in
  let m := state_of (rs_apply_snapshot_from_file id 0 (md_at 2 dir.2) corrupted fresh) fresh in
  rs_last_applied_index m = 2 ∧ rs_get [1] m = Ok (Some [99]) ∧ rs_get [2] m = Ok None.
Proof. by vm_compute. Qed.

(** A chunk is applied between the two exports: the index of the snapshot is that of the
    chunk, the data is from before it. A node that installs it and restarts has applied
    the chunk without having its data. *)
Definition torn_dir : RocksDir table * bytes :=
  match rs_generate_snapshot_data id all_done (λ i m, if decide (i = 3%nat) then apply two_swaps m else m) "a" before_swaps with
  | Some (_, Ok p) => p
  | _ => (mkRocksDir "" None None None ∅ ∅, [])
  end.

Theorem snapshot_is_torn :
  let m := state_of (rs_apply_snapshot_from_file id 0 (md_at 1 torn_dir.2) torn_dir.1 fresh) fresh in
  rs_last_applied_index m = 1 ∧ rs_get [1] m = Ok (Some [3])
  ∧ rs_last_applied_index (reopened (db_of m)) = 3 ∧ rs_get [1] (reopened (db_of m)) = Ok (Some [3])
  ∧ rs_get [1] after_swaps = Ok (Some [1]).
Proof. by vm_compute. Qed.

(** ** Reset, scans, expiration *)

(** A reset does not remove the stored metadata of the last snapshot. *)
Theorem reset_keeps_snapshot_metadata :
  let m1 := state_of (persist_last_snapshot_metadata (md_at 1 [7]) (apply set_three fresh)) fresh in
  let m2 := state_of (rs_reset m1) fresh in
  rs_last_snapshot_metadata m2 = None ∧ rs_last_snapshot_metadata (reopened (db_of m2)) = Some (md_at 1 [7]).
Proof. by vm_compute. Qed.

(** A scan is answered while a snapshot is installed, when every other read is refused. *)
Theorem scans_are_not_refused :
  let m := (apply set_three fresh) <| rs_is_serving := false |> in
  rs_get [1] m = Err (NotServing "State machine is restoring from snapshot")
  ∧ rs_scan_prefix [1] m m = Ok (mkScanResult [([1], [3])] 1).
Proof. by vm_compute. Qed.

(** The empty prefix is a prefix of every key; its scan is empty, the scan of the
    file-based state machine is not. *)
Theorem empty_prefix_finds_nothing :
  rs_scan_prefix [] (apply set_three fresh) (apply set_three fresh) = Ok (mkScanResult [] 1)
  ∧ (Fsm.sm_scan_prefix [] (match Fsm.apply_chunk (FsmRuns.env_at 100 IoDone) set_three FsmRuns.fresh with
                            | Some (f, _) => f | None => FsmRuns.fresh end)).1 = [([1], [3])].
Proof. split; vm_compute; reflexivity. Qed.

(** The revision of a scan is read after its pairs: a chunk that is applied in between is
    taken to be in the scan, and its watch event is skipped. *)
Theorem scan_revision_is_ahead_of_its_data :
  rs_scan_prefix [1] before_swaps after_swaps = Ok (mkScanResult [([1], [3])] 3).
Proof. by vm_compute. Qed.

(** The deletion of expired keys fails: their leases are gone, and they stay. *)
Definition expired : machine :=
  let m := apply leased fresh in
  m <| rs_db := Some (mkRefDb (rd_tables (db_of m)) (rd_stable (db_of m)) [true] false) |>.

Theorem failed_cleanup_keeps_expired_keys :
  let m1 := state_of (rs_lease_background_cleanup (200 * nanos) expired) fresh in
  let m2 := state_of (rs_lease_background_cleanup (300 * nanos) m1) fresh in
  rs_get [1] m2 = Ok (Some [10]) ∧ (key_to_expiry <$> rs_lease m2) = Some ∅.
Proof. by vm_compute. Qed.
