(* ===== verification/ReplicationWorker.v ===== *)
(** * The replication worker

    [run_replication_worker] of [d-engine-core/src/raft_role/leader_state.rs]: the task
    that carries the requests of one peer over a persistent stream, reconnecting with a
    growing delay, and starts snapshot transfers. The worker, the task that reads the
    acknowledgements of its stream, the transfers and the leader at the other end of
    the queue interleave; a step of [worker_next] is one of them moving, and the
    outcome of a call to the transport is part of the step.

    The streams record what was pushed on them, for the theorems. *)

From stdpp Require Import base tactics numbers option list gmap strings.
From S2P Require Import Prelude Types Events LeaderState Config.

(** ** State *)

Record ReplicationStream := mkReplicationStream {
  pushed : list AppendEntriesRequest;
  (** the request whose [send] found the stream closed *)
  refused : option AppendEntriesRequest;
  (** the task that reads its acknowledgements has ended *)
  ended : bool;
}.

Definition broken (s : ReplicationStream) : bool :=
  ended s || match refused s with Some _ => true | None => false end.

(** A [send_snapshot] that runs: the term it was requested in and its boundary. *)
Record SnapshotTransfer := mkSnapshotTransfer {
  st_metadata : SnapshotMetadata;
  st_leader_term : N;
}.

Inductive WorkerPhase :=
  (** before the call that opens the stream *)
  | Opening (backoff_ms : N)
  (** in the main loop; whether the reading task has ended *)
  | Streaming (recv_ended : bool)
  | Exited
  (** an arithmetic overflow *)
  | Panicked.

Record ReplicationWorker := mkReplicationWorker {
  rw_phase : WorkerPhase;
  rw_tasks : list ReplicationTask;
  (** the leader dropped the handle *)
  rw_closed : bool;
  stream_broken : bool;
  rw_streams : list ReplicationStream;
  rw_current : ReplicationStream;
  (** a reading task was told to abort, and may not have noticed *)
  rw_aborted : bool;
  rw_transfers : list SnapshotTransfer;
  rw_events : list InternalEvent;
  rw_sleeps : list N;
}.

#[global] Instance ReplicationWorker_settable : Settable ReplicationWorker := λ r,
  mkReplicationWorker (rw_phase r) (rw_tasks r) (rw_closed r) (stream_broken r) (rw_streams r) (rw_current r)
    (rw_aborted r) (rw_transfers r) (rw_events r) (rw_sleeps r).

Inductive WorkerStep :=
  (** the leader sends a task, or drops the handle *)
  | LeaderSends (t : ReplicationTask)
  | LeaderDrops
  (** one attempt to open the stream *)
  | OpenStream (ok : bool)
  (** the reading task of the current stream, or of an aborted one *)
  | StreamYields (r : AppendEntriesResponse)
  | StreamEnds
  | AbortedYields (r : AppendEntriesResponse)
  (** one pass of the main loop; whether the stream takes a request *)
  | WorkerTurn (sent : bool)
  (** a transfer finishes *)
  | TransferEnds (k : nat) (success : bool).

(** ** Steps *)

Definition empty_stream : ReplicationStream := mkReplicationStream [] None false.

Section worker.
Context (peer_id : N) (policy : BackoffPolicy.t).

Definition spawn_worker : ReplicationWorker :=
  mkReplicationWorker (Opening (BackoffPolicy.base_delay_ms policy)) [] false false [] empty_stream false [] [] [].

Definition emit_event (ev : InternalEvent) (w : ReplicationWorker) : ReplicationWorker :=
  w <| rw_events ::= (λ l, l ++ [ev]) |>.

(** The main loop is left: the reading task is aborted, and the worker exits or reconnects. *)
Definition leave_stream (w : ReplicationWorker) : ReplicationWorker :=
  let running := match rw_phase w with Streaming ended => negb ended | _ => false end in
  w <| rw_aborted ::= orb running |>
    <| rw_streams ::= (λ l, l ++ [rw_current w]) |>
    <| rw_current := empty_stream |>
    <| rw_phase := if rw_closed w then Exited else Opening (BackoffPolicy.base_delay_ms policy) |>.

Definition open_stream (ok : bool) (backoff_ms : N) (w : ReplicationWorker) : ReplicationWorker :=
  if rw_closed w then w <| rw_phase := Exited |>
  else if ok then w <| rw_phase := Streaming false |> <| stream_broken := false |>
  else let slept := w <| rw_sleeps ::= (λ l, l ++ [backoff_ms]) |> in
       if u64_max <? backoff_ms * 2 then slept <| rw_phase := Panicked |>
       else slept <| rw_phase := Opening (N.min (backoff_ms * 2) (BackoffPolicy.max_delay_ms policy)) |>.

(** A task that was received. *)
Definition run_task (sent : bool) (t : ReplicationTask) (w : ReplicationWorker) : ReplicationWorker :=
  if stream_broken w then leave_stream w
  else match t with
       | TAppend request =>
           if sent
           then w <| rw_current ::= (λ s, mkReplicationStream (pushed s ++ [request]) (refused s) (ended s)) |>
           else leave_stream
                  (emit_event (PeerStreamError peer_id)
                     (w <| stream_broken := true |>
                        <| rw_current ::= (λ s, mkReplicationStream (pushed s) (Some request) (ended s)) |>))
       | TSnapshot metadata leader_term =>
           w <| rw_transfers ::= (λ l, l ++ [mkSnapshotTransfer metadata leader_term]) |>
       end.

(** One pass of the biased [select!]; [None] while it waits. *)
Definition worker_turn (sent recv_ended : bool) (w : ReplicationWorker) : option ReplicationWorker :=
  if recv_ended
  then Some (leave_stream (emit_event (PeerStreamError peer_id) (w <| stream_broken := true |>)))
  else match rw_tasks w with
       | t :: rest => Some (run_task sent t (w <| rw_tasks := rest |>))
       | [] => if rw_closed w then Some (leave_stream w) else None
       end.

Definition transfer_ends (success : bool) (tr : SnapshotTransfer) (w : ReplicationWorker) : ReplicationWorker :=
  emit_event (SnapshotPushCompleted peer_id success (st_leader_term tr) (lid_index <$> last_included (st_metadata tr))) w.

(** Whether a send of the leader finds the receiver. *)
Definition worker_alive (w : ReplicationWorker) : bool :=
  match rw_phase w with Exited | Panicked => false | _ => true end.

(** [None]: the step cannot be taken. *)
Definition worker_next (s : WorkerStep) (w : ReplicationWorker) : option ReplicationWorker :=
  match s with
  | LeaderSends t =>
      if worker_alive w && negb (rw_closed w) then Some (w <| rw_tasks ::= (λ l, l ++ [t]) |>) else None
  | LeaderDrops => Some (w <| rw_closed := true |>)
  | OpenStream ok =>
      match rw_phase w with Opening backoff_ms => Some (open_stream ok backoff_ms w) | _ => None end
  | StreamYields r =>
      match rw_phase w with Streaming false => Some (emit_event (AppendResult peer_id (Ok r)) w) | _ => None end
  | StreamEnds =>
      match rw_phase w with Streaming false =>
        Some (w <| rw_phase := Streaming true |>
                <| rw_current ::= (λ s, mkReplicationStream (pushed s) (refused s) true) |>) | _ => None end
  | AbortedYields r =>
      if rw_aborted w then Some (emit_event (AppendResult peer_id (Ok r)) w) else None
  | WorkerTurn sent =>
      match rw_phase w with Streaming recv_ended => worker_turn sent recv_ended w | _ => None end
  | TransferEnds k success =>
      match rw_transfers w !! k with
      | Some tr => Some (transfer_ends success tr (w <| rw_transfers ::= delete k |>))
      | None => None
      end
  end.

Fixpoint worker_run (ss : list WorkerStep) (w : ReplicationWorker) : option ReplicationWorker :=
  match ss with
  | [] => Some w
  | s :: ss' => worker_next s w ≫= worker_run ss'
  end.

End worker.

(** * The replication worker: what happens to the tasks

    Invariants of [worker_run] by induction on the steps, for the worker of
    [ReplicationWorker.v]: every task is accounted for, every stream that was left because
    it broke is reported, a worker whose handle is dropped exits, and a validated configuration
    keeps it alive until then. *)

(** ** What was sent, what came out *)

Definition sent_tasks (ss : list WorkerStep) : list ReplicationTask :=
  omap (λ s, match s with LeaderSends t => Some t | _ => None end) ss.

Definition appends (ts : list ReplicationTask) : list AppendEntriesRequest :=
  omap (λ t, match t with TAppend r => Some r | TSnapshot _ _ => None end) ts.

Definition snapshots (ts : list ReplicationTask) : list SnapshotTransfer :=
  omap (λ t, match t with TAppend _ => None | TSnapshot m term => Some (mkSnapshotTransfer m term) end) ts.

Definition yields (ss : list WorkerStep) : list AppendEntriesResponse :=
  omap (λ s, match s with StreamYields r | AbortedYields r => Some r | _ => None end) ss.

Definition stream_traffic (s : ReplicationStream) : list AppendEntriesRequest :=
  pushed s ++ option_list (refused s).

(** All requests handed to a stream, in order, those it refused included. *)
Definition traffic (w : ReplicationWorker) : list AppendEntriesRequest :=
  concat (stream_traffic <$> rw_streams w ++ [rw_current w]).

Definition completions (evs : list InternalEvent) : list InternalEvent :=
  omap (λ ev, match ev with SnapshotPushCompleted _ _ _ _ => Some ev | _ => None end) evs.

Definition acks (evs : list InternalEvent) : list AppendEntriesResponse :=
  omap (λ ev, match ev with AppendResult _ (Ok r) => Some r | _ => None end) evs.

Definition stream_errors (evs : list InternalEvent) : list N :=
  omap (λ ev, match ev with PeerStreamError id => Some id | _ => None end) evs.

Section props.
Context (peer_id : N) (policy : BackoffPolicy.t).

Definition completion (f : SnapshotTransfer * bool) : InternalEvent :=
  SnapshotPushCompleted peer_id f.2 (st_leader_term f.1) (lid_index <$> last_included (st_metadata f.1)).

(** Tasks are taken in the order they were sent, each append goes to a stream and
    each snapshot to a transfer. *)
Record accounted (ss : list WorkerStep) (w : ReplicationWorker)
    (taken : list ReplicationTask) (finished : list (SnapshotTransfer * bool)) : Prop := {
  acc_tasks : sent_tasks ss = taken ++ rw_tasks w;
  acc_appends : appends taken = traffic w;
  acc_snapshots : snapshots taken ≡ₚ rw_transfers w ++ finished.*1;
  acc_completions : completions (rw_events w) = completion <$> finished;
  acc_acks : acks (rw_events w) = yields ss;
}.

(** The streams left so far that broke; a stream that did not is the last one of a worker
    whose handle was dropped. *)
Definition broken_streams (w : ReplicationWorker) : list ReplicationStream :=
  filter (λ s, broken s = true) (rw_streams w).

Definition left_whole (w : ReplicationWorker) (i : nat) : Prop :=
  rw_phase w = Exited ∧ rw_closed w = true ∧ length (rw_streams w) = S i.

Record streams_ok (w : ReplicationWorker) : Prop := {
  so_errors : stream_errors (rw_events w) = replicate (length (broken_streams w)) peer_id;
  so_left : ∀ i s, rw_streams w !! i = Some s → broken s = false → left_whole w i;
  so_current : refused (rw_current w) = None;
  so_ended : ∀ b, rw_phase w = Streaming b → ended (rw_current w) = b;
  so_idle : (∀ b, rw_phase w ≠ Streaming b) → rw_current w = empty_stream;
  so_whole : ∀ b, rw_phase w = Streaming b → stream_broken w = false;
}.

Lemma leave_traffic w : traffic (leave_stream policy w) = traffic w.
Proof. unfold traffic, leave_stream; simpl. rewrite !fmap_app, !concat_app. simpl. by rewrite !app_nil_r. Qed.

Lemma traffic_push w r :
  refused (rw_current w) = None →
  traffic (w <| rw_current ::= (λ s, mkReplicationStream (pushed s ++ [r]) (refused s) (ended s)) |>) = traffic w ++ [r].
Proof.
  intros H. unfold traffic, stream_traffic; simpl. rewrite !fmap_app, !concat_app; simpl.
  rewrite H; simpl. by rewrite !app_nil_r, app_assoc.
Qed.

Lemma traffic_refuse w r :
  refused (rw_current w) = None →
  traffic (w <| rw_current ::= (λ s, mkReplicationStream (pushed s) (Some r) (ended s)) |>) = traffic w ++ [r].
Proof.
  intros H. unfold traffic, stream_traffic; simpl. rewrite !fmap_app, !concat_app; simpl.
  rewrite H; simpl. by rewrite !app_nil_r, app_assoc.
Qed.

Lemma accounted_task ss s w w' t taken finished :
  accounted ss w taken finished → sent_tasks [s] = [] → yields [s] = [] → rw_tasks w = t :: rw_tasks w' →
  traffic w' = traffic w ++ appends [t] → rw_transfers w' = rw_transfers w ++ snapshots [t] →
  completions (rw_events w') = completions (rw_events w) → acks (rw_events w') = acks (rw_events w) →
  accounted (ss ++ [s]) w' (taken ++ [t]) finished.
Proof.
  intros [T A S C K] E1 E2 Ht Htr Hs Hc Ha. split.
  - unfold sent_tasks in *. rewrite omap_app, T, E1, Ht, app_nil_r. by rewrite <- app_assoc.
  - unfold appends in *. by rewrite omap_app, A, Htr.
  - unfold snapshots in *. rewrite omap_app, S, Hs, <- !app_assoc.
    f_equiv. by rewrite (comm (++)).
  - by rewrite Hc.
  - unfold yields in *. by rewrite omap_app, E2, app_nil_r, Ha.
Qed.

Lemma accounted_same ss s w w' taken finished :
  accounted ss w taken finished → sent_tasks [s] = [] → yields [s] = [] → rw_tasks w' = rw_tasks w →
  traffic w' = traffic w → rw_transfers w' = rw_transfers w →
  completions (rw_events w') = completions (rw_events w) → acks (rw_events w') = acks (rw_events w) →
  accounted (ss ++ [s]) w' taken finished.
Proof.
  intros [T A S C K] E1 E2 Ht Htr Hs Hc Ha. split; try congruence.
  - unfold sent_tasks in *. by rewrite omap_app, T, E1, Ht, app_nil_r.
  - unfold yields in *. by rewrite omap_app, E2, app_nil_r, Ha.
Qed.

Lemma accounted_yield ss s r w taken finished :
  accounted ss w taken finished → sent_tasks [s] = [] → yields [s] = [r] →
  accounted (ss ++ [s]) (emit_event (AppendResult peer_id (Ok r)) w) taken finished.
Proof.
  intros [T A S C K] E1 E2. split; [|done|done| |].
  - unfold sent_tasks in *. by rewrite omap_app, T, E1, app_nil_r.
  - unfold completions in *; simpl. by rewrite omap_app, C, app_nil_r.
  - unfold acks, yields in *; simpl. by rewrite !omap_app, K, E2.
Qed.

Lemma accounted_completion ss k success tr w taken finished :
  accounted ss w taken finished → rw_transfers w !! k = Some tr →
  accounted (ss ++ [TransferEnds k success])
    (transfer_ends peer_id success tr (w <| rw_transfers ::= delete k |>)) taken (finished ++ [(tr, success)]).
Proof.
  intros [T A S C K] L. split; [|done| | |].
  - unfold sent_tasks in *. by rewrite omap_app, T, app_nil_r.
  - pose proof (delete_Permutation _ _ _ L) as D. rewrite S, fmap_app; simpl.
    rewrite app_assoc, <- Permutation_cons_append. by rewrite D at 1.
  - unfold completions in *; simpl. by rewrite omap_app, C, fmap_app.
  - unfold acks, yields in *; simpl. by rewrite !omap_app, K, !app_nil_r.
Qed.

(** ** One step *)

Lemma task_accounted ss sent t rest w taken finished :
  accounted ss w taken finished → streams_ok w → rw_tasks w = t :: rest → stream_broken w = false →
  accounted (ss ++ [WorkerTurn sent]) (run_task peer_id policy sent t (w <| rw_tasks := rest |>))
    (taken ++ [t]) finished.
Proof.
  intros A O Ht B. unfold run_task; simpl. rewrite B.
  destruct t as [r|m term]; [destruct sent|].
  - apply (accounted_task ss _ w); simpl; try done.
    + exact (traffic_push w r (so_current _ O)).
    + by rewrite app_nil_r.
  - apply (accounted_task ss _ w); try done.
    + rewrite leave_traffic. exact (traffic_refuse w r (so_current _ O)).
    + simpl. by rewrite app_nil_r.
    + unfold completions; simpl. by rewrite omap_app, app_nil_r.
    + unfold acks; simpl. by rewrite omap_app, app_nil_r.
  - apply (accounted_task ss _ w); simpl; try done. by rewrite app_nil_r.
Qed.

Lemma turn_accounted ss sent b w w' taken finished :
  accounted ss w taken finished → streams_ok w → rw_phase w = Streaming b →
  worker_turn peer_id policy sent b w = Some w' →
  ∃ taken', accounted (ss ++ [WorkerTurn sent]) w' taken' finished.
Proof.
  intros A O P. unfold worker_turn. destruct b.
  - intros [= <-]. exists taken. apply (accounted_same ss _ w); try done.
    + by rewrite leave_traffic.
    + unfold completions; simpl. by rewrite omap_app, app_nil_r.
    + unfold acks; simpl. by rewrite omap_app, app_nil_r.
  - destruct (rw_tasks w) as [|t rest] eqn:Ht.
    + destruct (rw_closed w); [|done]. intros [= <-]. exists taken.
      apply (accounted_same ss _ w); try done. by rewrite leave_traffic.
    + intros [= <-]. exists (taken ++ [t]). apply task_accounted; try done. by eapply so_whole.
Qed.

Lemma step_accounted ss s w w' taken finished :
  accounted ss w taken finished → streams_ok w → worker_next peer_id policy s w = Some w' →
  ∃ taken' finished', accounted (ss ++ [s]) w' taken' finished'.
Proof.
  intros A O H. destruct s as [t| |ok|r| |r|sent|k success]; simpl in H.
  - destruct (_ && _); [|done]. injection H as <-. exists taken, finished. destruct A as [T ? ? ? K].
    split; try done; simpl.
    + unfold sent_tasks in *. rewrite omap_app, T; simpl. by rewrite <- app_assoc.
    + unfold yields in *. by rewrite omap_app, app_nil_r.
  - injection H as <-. exists taken, finished. by apply (accounted_same ss _ w).
  - destruct (rw_phase w) as [d| | |]; try done. injection H as <-. exists taken, finished. unfold open_stream.
    destruct (rw_closed w), ok, (u64_max <? d * 2); by apply (accounted_same ss _ w).
  - destruct (rw_phase w) as [|[]| |]; try done. injection H as <-. exists taken, finished.
    by apply accounted_yield.
  - destruct (rw_phase w) as [|[]| |]; try done. injection H as <-. exists taken, finished.
    apply (accounted_same ss _ w); try done. unfold traffic; simpl. by rewrite !fmap_app.
  - destruct (rw_aborted w); [|done]. injection H as <-. exists taken, finished. by apply accounted_yield.
  - destruct (rw_phase w) as [|b| |] eqn:P; try done.
    destruct (turn_accounted _ _ _ _ _ _ _ A O P H) as [taken' ?]. by exists taken', finished.
  - destruct (rw_transfers w !! k) as [tr|] eqn:L; [|done]. injection H as <-.
    exists taken, (finished ++ [(tr, success)]). by apply accounted_completion.
Qed.

(** ** Streams *)

(** Steps that leave the streams alone. *)
Lemma streams_same w w' :
  streams_ok w → stream_errors (rw_events w') = stream_errors (rw_events w) → rw_streams w' = rw_streams w →
  rw_current w' = rw_current w → rw_phase w' = rw_phase w → stream_broken w' = stream_broken w →
  (rw_closed w = true → rw_closed w' = true) → streams_ok w'.
Proof.
  intros [] He Hs Hc Hp Hb Hd. split; unfold left_whole, broken_streams in *; rewrite ?He, ?Hs, ?Hc, ?Hp, ?Hb; try done.
  intros i s Hi Hn. destruct (so_left0 i s Hi Hn) as (? & ? & ?). auto.
Qed.

Lemma stream_errors_app l1 l2 : stream_errors (l1 ++ l2) = stream_errors l1 ++ stream_errors l2.
Proof. apply omap_app. Qed.

Lemma errors_emit ev w :
  stream_errors (rw_events (emit_event ev w)) = stream_errors (rw_events w) ++ stream_errors [ev].
Proof. apply stream_errors_app. Qed.

Lemma alive_all_broken w i s :
  streams_ok w → worker_alive w = true → rw_streams w !! i = Some s → broken s = true.
Proof.
  intros O L H. destruct (broken s) eqn:B; [done|]. destruct (so_left _ O i s H B) as (P & _).
  unfold worker_alive in L. by rewrite P in L.
Qed.

Lemma streams_reported w :
  streams_ok w → worker_alive w = true → ∀ c b, broken c = true →
  streams_ok (leave_stream policy (emit_event (PeerStreamError peer_id)
                (w <| stream_broken := b |> <| rw_current := c |>))).
Proof.
  intros O L c b B. pose proof (so_errors _ O) as E.
  unfold leave_stream. split; simpl; rewrite ?stream_errors_app; unfold broken_streams; simpl; try done.
  - rewrite filter_app, filter_cons_True, filter_nil, length_app, replicate_add, E by done. done.
  - intros i s [H|[_ H]]%lookup_app_Some Hn.
    + by rewrite (alive_all_broken w i s) in Hn.
    + apply list_lookup_singleton_Some in H as [_ <-]. congruence.
  - intros b'. by destruct (rw_closed w).
  - intros b'. by destruct (rw_closed w).
Qed.

Lemma streams_end w :
  streams_ok w → rw_phase w = Streaming false → rw_closed w = true → streams_ok (leave_stream policy w).
Proof.
  intros O P C. pose proof (so_errors _ O) as E. pose proof (so_current _ O) as R. pose proof (so_ended _ O _ P) as En.
  assert (worker_alive w = true) as L by (unfold worker_alive; by rewrite P).
  unfold leave_stream. split; simpl; unfold broken_streams, left_whole; simpl; rewrite ?C; try done.
  - rewrite filter_app, filter_cons_False, filter_nil, app_nil_r; [done|]. unfold broken. by rewrite R, En.
  - intros i s [H|[Hl H]]%lookup_app_Some Hn.
    + by rewrite (alive_all_broken w i s) in Hn.
    + apply list_lookup_singleton_Some in H as [Hi _]. rewrite length_app. simpl. split_and!; (done || lia).
Qed.

Lemma task_streams sent t w :
  streams_ok w → rw_phase w = Streaming false → streams_ok (run_task peer_id policy sent t w).
Proof.
  intros O P. unfold run_task. rewrite (so_whole _ O _ P). destruct t as [r|m term]; [destruct sent|].
  - destruct O as [E L C N I B]. split; try done. simpl. intros X. by destruct (X false).
  - apply (streams_reported w); [done|unfold worker_alive; by rewrite P|]. unfold broken; simpl. by rewrite orb_true_r.
  - by apply (streams_same w).
Qed.

Lemma turn_streams sent b w w' :
  streams_ok w → rw_phase w = Streaming b → worker_turn peer_id policy sent b w = Some w' → streams_ok w'.
Proof.
  intros O P. assert (worker_alive w = true) as L by (unfold worker_alive; by rewrite P).
  unfold worker_turn. destruct b.
  - intros [= <-]. apply (streams_reported w O L (rw_current w) true). unfold broken. by rewrite (so_ended _ O _ P).
  - destruct (rw_tasks w) as [|t rest].
    + destruct (rw_closed w) eqn:C; [|done]. intros [= <-]. by apply streams_end.
    + intros [= <-]. apply task_streams; [|done]. by apply (streams_same w).
Qed.

Lemma open_streams ok d w : streams_ok w → rw_phase w = Opening d → streams_ok (open_stream policy ok d w).
Proof.
  intros O P. assert (rw_current w = empty_stream) as Cu by (apply O; by rewrite P).
  assert (worker_alive w = true) as L by (unfold worker_alive; by rewrite P).
  assert (∀ i s, rw_streams w !! i = Some s → broken s = false → False) as Hl.
  { intros i s Hi. by rewrite (alive_all_broken w i s). }
  destruct O as [E _ C N I B]. unfold open_stream.
  destruct (rw_closed w), ok, (u64_max <? d * 2);
    (split; simpl; try done; try (intros i s Hi Hb; by destruct (Hl i s)); intros b; rewrite Cu; by intros [= <-]).
Qed.

Lemma step_streams s w w' : streams_ok w → worker_next peer_id policy s w = Some w' → streams_ok w'.
Proof.
  intros O H. destruct s as [t| |ok|r| |r|sent|k success]; simpl in H.
  - destruct (_ && _); [|done]. injection H as <-. by apply (streams_same w).
  - injection H as <-. by apply (streams_same w).
  - destruct (rw_phase w) eqn:P; try done. injection H as <-. by apply open_streams.
  - destruct (rw_phase w) as [|[]| |]; try done. injection H as <-.
    apply (streams_same w); try done. by rewrite errors_emit, app_nil_r.
  - destruct (rw_phase w) as [|[]| |] eqn:P; try done. injection H as <-.
    pose proof (so_whole _ O _ P) as B. pose proof (so_left _ O) as Hl. unfold left_whole in Hl. rewrite P in Hl.
    destruct O as [E _ C _ _ _]. split; try done; simpl.
    + intros i s Hi Hn. by destruct (Hl i s Hi Hn).
    + by intros b [= <-].
    + intros X. by destruct (X true).
  - destruct (rw_aborted w); [|done]. injection H as <-.
    apply (streams_same w); try done. by rewrite errors_emit, app_nil_r.
  - destruct (rw_phase w) as [|b| |] eqn:P; try done. by apply (turn_streams sent b w w').
  - destruct (rw_transfers w !! k); [|done]. injection H as <-.
    apply (streams_same w); try done. unfold transfer_ends. by rewrite errors_emit, app_nil_r.
Qed.

(** ** Runs *)

Lemma worker_run_app ss1 ss2 w :
  worker_run peer_id policy (ss1 ++ ss2) w = worker_run peer_id policy ss1 w ≫= worker_run peer_id policy ss2.
Proof.
  revert w. induction ss1 as [|s ss1 IH]; [done|]. intros w. simpl.
  destruct (worker_next peer_id policy s w); [apply IH|done].
Qed.

Lemma worker_run_snoc ss s w0 w :
  worker_run peer_id policy (ss ++ [s]) w0 = Some w →
  ∃ w1, worker_run peer_id policy ss w0 = Some w1 ∧ worker_next peer_id policy s w1 = Some w.
Proof.
  rewrite worker_run_app. destruct (worker_run peer_id policy ss w0) as [w1|]; [|done]. simpl.
  intros H. exists w1. by destruct (worker_next peer_id policy s w1).
Qed.

Lemma run_ind (P : list WorkerStep → ReplicationWorker → Prop) :
  P [] (spawn_worker policy) →
  (∀ ss s w w', P ss w → worker_next peer_id policy s w = Some w' → P (ss ++ [s]) w') →
  ∀ ss w, worker_run peer_id policy ss (spawn_worker policy) = Some w → P ss w.
Proof.
  intros P0 PS ss. induction ss as [|s ss IH] using rev_ind; intros w.
  - by intros [= <-].
  - intros (w1&H1&H2)%worker_run_snoc. eauto.
Qed.

Lemma run_invariant ss w :
  worker_run peer_id policy ss (spawn_worker policy) = Some w →
  (∃ taken finished, accounted ss w taken finished) ∧ streams_ok w.
Proof.
  revert ss w. apply run_ind.
  - split; [by exists [], []|]. split; simpl; try done; lia.
  - intros ss s w w' [(taken&finished&A) O] H. split; [|by eapply step_streams].
    by eapply step_accounted.
Qed.


(** While no stream has broken, the stream carries the appends exactly as they were sent. *)
Theorem healthy_worker_forwards_in_order ss w :
  worker_run peer_id policy ss (spawn_worker policy) = Some w →
  worker_alive w = true → stream_errors (rw_events w) = [] →
  appends (sent_tasks ss) = pushed (rw_current w) ++ appends (rw_tasks w).
Proof.
  intros [(taken&finished&[T A _ _ _]) O]%run_invariant Al E.
  assert (rw_streams w = []) as L.
  { pose proof (so_errors _ O) as R. rewrite E in R. destruct (rw_streams w) as [|s l] eqn:Hs; [done|].
    unfold broken_streams in R. rewrite Hs, filter_cons_True in R; [done|].
    apply (alive_all_broken w 0 s); [done|done|by rewrite Hs]. }
  unfold appends in *. rewrite T, omap_app, A. f_equal.
  unfold traffic, stream_traffic. rewrite L; simpl. by rewrite (so_current _ O), !app_nil_r.
Qed.

(** ** Exit *)

(** Steps of the worker itself. *)
Definition own_step (s : WorkerStep) : bool := match s with OpenStream _ | WorkerTurn _ => true | _ => false end.

Definition exit_bound (w : ReplicationWorker) : nat :=
  match rw_phase w with Opening _ => 1 | Streaming _ => S (length (rw_tasks w)) | _ => 0 end.

Lemma leave_bound w : rw_closed w = true → exit_bound (leave_stream policy w) = 0%nat.
Proof. intros C. unfold exit_bound, leave_stream; simpl. by rewrite C. Qed.

Lemma task_bound sent t w b :
  rw_closed w = true → rw_phase w = Streaming b →
  rw_closed (run_task peer_id policy sent t w) = true
  ∧ (exit_bound (run_task peer_id policy sent t w) <= S (length (rw_tasks w)))%nat.
Proof.
  intros C P. unfold run_task. destruct (stream_broken w); [|destruct t as [r|m term]; [destruct sent|]].
  - split; [done|]. rewrite leave_bound by done. lia.
  - split; [done|]. unfold exit_bound; simpl. rewrite P. lia.
  - split; [done|]. rewrite leave_bound by done. lia.
  - split; [done|]. unfold exit_bound; simpl. rewrite P. lia.
Qed.

Lemma closed_step s w w' :
  rw_closed w = true → worker_next peer_id policy s w = Some w' →
  rw_closed w' = true ∧ ((if own_step s then 1 else 0) + exit_bound w' <= exit_bound w)%nat.
Proof.
  intros C H. destruct s as [t| |ok|r| |r|sent|k success]; simpl in H; rewrite ?C, ?andb_false_r in H.
  - done.
  - by injection H as <-.
  - destruct (rw_phase w) as [d| | |] eqn:P; try done. injection H as <-. unfold open_stream. rewrite C.
    unfold exit_bound. by rewrite P.
  - destruct (rw_phase w) as [|[]| |] eqn:P; try done. by injection H as <-.
  - destruct (rw_phase w) as [|[]| |] eqn:P; try done. injection H as <-. unfold exit_bound. by rewrite P.
  - destruct (rw_aborted w); [|done]. by injection H as <-.
  - destruct (rw_phase w) as [|b| |] eqn:P; try done. unfold worker_turn in H.
    unfold exit_bound at 2. rewrite P. destruct b; [|destruct (rw_tasks w) as [|t rest] eqn:Ht].
    + injection H as <-. split; [done|]. rewrite leave_bound by done. simpl. lia.
    + rewrite C in H. injection H as <-. split; [done|]. by rewrite leave_bound.
    + injection H as <-.
      pose proof (task_bound sent t (w <| rw_tasks := rest |>) false) as B.
      destruct (B C P) as [C' B']. split; [exact C'|]. apply le_n_S, B'.
  - destruct (rw_transfers w !! k); [|done]. by injection H as <-.
Qed.

Lemma exit_step w : rw_closed w = true → worker_alive w = true →
  ∃ s, own_step s = true ∧ is_Some (worker_next peer_id policy s w).
Proof.
  intros C. unfold worker_alive. destruct (rw_phase w) as [d|b| |] eqn:P; try done; intros _.
  - exists (OpenStream true). simpl. rewrite P. eauto.
  - exists (WorkerTurn true). simpl. rewrite P. split; [done|]. unfold worker_turn. rewrite C.
    destruct b, (rw_tasks w); eauto.
Qed.

Lemma alive_bound w : worker_alive w = false ↔ exit_bound w = 0%nat.
Proof. unfold worker_alive, exit_bound. by destruct (rw_phase w). Qed.

Lemma closed_run ss w w' :
  rw_closed w = true → worker_run peer_id policy ss w = Some w' →
  rw_closed w' = true ∧ (length (filter (λ s, own_step s = true) ss) + exit_bound w' <= exit_bound w)%nat.
Proof.
  revert w. induction ss as [|s ss IH]; intros w C H; simpl in H.
  - by injection H as <-.
  - destruct (worker_next peer_id policy s w) as [w1|] eqn:E; [|done].
    destruct (closed_step _ _ _ C E) as [C1 B1]. destruct (IH w1 C1 H) as [C2 B2]. split; [done|].
    rewrite filter_cons. destruct (own_step s); simpl in *; lia.
Qed.

(** Once its handle is dropped, the worker can take at most [exit_bound] steps of its
    own, whatever the streams and the transfers do in between, and always can
    take one until it has ended: it exits. *)
Theorem dropped_worker_exits ss w w' :
  rw_closed w = true → worker_run peer_id policy ss w = Some w' →
  (length (filter (λ s, own_step s = true) ss) <= exit_bound w)%nat
  ∧ (length (filter (λ s, own_step s = true) ss) = exit_bound w → worker_alive w' = false)
  ∧ (worker_alive w' = true → ∃ s, own_step s = true ∧ is_Some (worker_next peer_id policy s w')).
Proof.
  intros C H. destruct (closed_run ss w w' C H) as [C' B]. split_and!; [lia| |by apply exit_step].
  intros E. apply alive_bound. lia.
Qed.

(** ** Reconnection *)

Lemma validated_policy :
  BackoffPolicy.validate policy = Ok tt →
  BackoffPolicy.base_delay_ms policy < BackoffPolicy.max_delay_ms policy
  ∧ BackoffPolicy.max_delay_ms policy <= 120000.
Proof. unfold BackoffPolicy.validate, reject_if. repeat case_bool; try done. Qed.

Definition patient (w : ReplicationWorker) : Prop :=
  Forall (λ d, d <= BackoffPolicy.max_delay_ms policy) (rw_sleeps w)
  ∧ match rw_phase w with
    | Opening d => d <= BackoffPolicy.max_delay_ms policy
    | Streaming _ => True
    | Exited => rw_closed w = true
    | Panicked => False
    end.

Lemma leave_patient w :
  BackoffPolicy.base_delay_ms policy < BackoffPolicy.max_delay_ms policy →
  patient w → patient (leave_stream policy w).
Proof.
  intros B [F _]. split; [done|]. unfold leave_stream; simpl. destruct (rw_closed w); simpl; [done|lia].
Qed.

Lemma open_patient ok d w :
  BackoffPolicy.validate policy = Ok tt → rw_phase w = Opening d → patient w →
  patient (open_stream policy ok d w).
Proof.
  intros [B M]%validated_policy P [F D]. rewrite P in D. unfold open_stream.
  destruct (rw_closed w) eqn:C; [by split|]. destruct ok; [by split|].
  assert (Forall (λ d, d <= BackoffPolicy.max_delay_ms policy) (rw_sleeps w ++ [d])) as F'
    by (apply Forall_app; by repeat constructor).
  case_bool; [unfold u64_max in *; lia|]. split; [done|]. simpl. lia.
Qed.

Lemma step_patient s w w' :
  BackoffPolicy.validate policy = Ok tt → patient w → worker_next peer_id policy s w = Some w' → patient w'.
Proof.
  intros V I H. destruct (validated_policy V) as [B _]. destruct s as [t| |ok|r| |r|sent|k success]; simpl in H.
  - destruct (_ && _); [|done]. by injection H as <-.
  - injection H as <-. destruct I as [F I]. split; [done|]. simpl. by destruct (rw_phase w).
  - destruct (rw_phase w) eqn:P; try done. injection H as <-. by apply open_patient.
  - destruct (rw_phase w) as [|[]| |]; try done. by injection H as <-.
  - destruct (rw_phase w) as [|[]| |]; try done. injection H as <-. by destruct I.
  - destruct (rw_aborted w); [|done]. by injection H as <-.
  - destruct (rw_phase w) as [|b| |] eqn:P; try done. unfold worker_turn, run_task in H.
    destruct b; [injection H as <-; by apply leave_patient|].
    destruct (rw_tasks w) as [|[]]; simpl in H; repeat case_match; simplify_eq; try done; by apply leave_patient.
  - destruct (rw_transfers w !! k); [|done]. by injection H as <-.
Qed.

(** Under a validated retry policy the worker never dies while the leader holds its
    handle, and never waits longer than the configured maximum between two attempts. *)
Theorem validated_worker_survives ss w :
  BackoffPolicy.validate policy = Ok tt →
  worker_run peer_id policy ss (spawn_worker policy) = Some w →
  (rw_closed w = false → worker_alive w = true)
  ∧ Forall (λ d, d <= BackoffPolicy.max_delay_ms policy) (rw_sleeps w).
Proof.
  intros V H. assert (patient w) as [F I].
  { revert ss w H. apply (run_ind (λ _, patient)).
    - split; [done|]. simpl. destruct (validated_policy V). lia.
    - intros _ s w w' I H. by eapply step_patient. }
  split; [|done]. intros C. unfold worker_alive. destruct (rw_phase w); try done. congruence.
Qed.

(** The delay before attempt [i + 1]. *)
Definition backoff_delay (i : nat) : N :=
  match i with
  | O => BackoffPolicy.base_delay_ms policy
  | _ => N.min (BackoffPolicy.base_delay_ms policy * 2 ^ N.of_nat i) (BackoffPolicy.max_delay_ms policy)
  end.

Lemma backoff_delay_step i :
  N.min (backoff_delay i * 2) (BackoffPolicy.max_delay_ms policy) = backoff_delay (S i).
Proof.
  unfold backoff_delay. rewrite Nat2N.inj_succ, N.pow_succ_r'. destruct i as [|i].
  - change (N.of_nat 0) with 0. rewrite N.pow_0_r. lia.
  - generalize (2 ^ N.of_nat (S i)). intros p. replace (_ * (2 * p)) with (BackoffPolicy.base_delay_ms policy * p * 2) by lia.
    generalize (BackoffPolicy.base_delay_ms policy * p). lia.
Qed.

(** The delays double from the base delay up to the maximum. *)
Theorem reconnection_delays k :
  BackoffPolicy.validate policy = Ok tt →
  ∃ w, worker_run peer_id policy (replicate k (OpenStream false)) (spawn_worker policy) = Some w
       ∧ rw_sleeps w = backoff_delay <$> seq 0 k
       ∧ rw_phase w = Opening (backoff_delay k) ∧ rw_closed w = false.
Proof.
  intros V. destruct (validated_policy V) as [B M]. induction k as [|k (w&R&Hs&P&C)].
  - by exists (spawn_worker policy).
  - rewrite replicate_S_end, worker_run_app, R, seq_S, fmap_app, <- Hs; simpl. rewrite P; simpl. unfold open_stream. rewrite C.
    assert (backoff_delay k <= BackoffPolicy.max_delay_ms policy) by (unfold backoff_delay; destruct k; lia).
    case_bool; [unfold u64_max in *; lia|]. eexists. split; [done|]. split_and!; [| |done].
    + done.
    + simpl. by rewrite backoff_delay_step.
Qed.

End props.

(** ** A run with a broken stream *)

Definition test_policy : BackoffPolicy.t := BackoffPolicy.mk 1 100 50 1000.
Definition test_append (k : N) : AppendEntriesRequest := mkAppendEntriesRequest 1 1 k 1 [] 0.
Definition test_snapshot : SnapshotMetadata := mkSnapshotMetadata (Some (mkLogId 1 5)) [].

(** The second append is refused, the third goes over the next stream while a snapshot
    transfer runs. *)
Definition test_run : list WorkerStep :=
  [LeaderSends (TAppend (test_append 0)); OpenStream false; OpenStream true; WorkerTurn true;
   LeaderSends (TAppend (test_append 1)); LeaderSends (TSnapshot test_snapshot 1);
   StreamYields (response_success 2 1 None); WorkerTurn false; OpenStream true; WorkerTurn true;
   LeaderSends (TAppend (test_append 2)); WorkerTurn true; AbortedYields (response_success 2 1 None);
   TransferEnds 0 true; LeaderSends (TAppend (test_append 3))].

Definition test_worker : ReplicationWorker :=
  default (spawn_worker test_policy) (worker_run 2 test_policy test_run (spawn_worker test_policy)).


(** ** The worker does not look at transfers in progress *)

(** A second snapshot task starts a second transfer to the same peer, and an append goes
    out while both run. *)
Theorem worker_starts_duplicate_transfers :
  ∃ ss w, worker_run 2 test_policy ss (spawn_worker test_policy) = Some w
          ∧ rw_transfers w = [mkSnapshotTransfer test_snapshot 1; mkSnapshotTransfer test_snapshot 1]
          ∧ pushed (rw_current w) = [test_append 0].
Proof.
  exists [LeaderSends (TSnapshot test_snapshot 1); LeaderSends (TSnapshot test_snapshot 1);
          LeaderSends (TAppend (test_append 0)); OpenStream true; WorkerTurn true; WorkerTurn true; WorkerTurn true].
  eexists. split; [vm_compute; reflexivity|]. by split.
Qed.

(** A base delay of zero passes the validation; doubling it gives zero again, so the
    worker of an unreachable peer never waits. *)
Theorem zero_base_delay_never_backs_off k :
  let policy := BackoffPolicy.mk 1 100 0 1000 in
  BackoffPolicy.validate policy = Ok tt
  ∧ ∃ w, worker_run 2 policy (replicate k (OpenStream false)) (spawn_worker policy) = Some w
         ∧ rw_sleeps w = replicate k 0.
Proof.
  intros policy. split; [done|].
  destruct (reconnection_delays 2 policy k) as (w&R&Hs&_); [done|]. exists w. split; [done|].
  rewrite Hs. clear. generalize 0%nat. induction k as [|k IH]; [done|]. intros i. csimpl. rewrite IH.
  f_equal. by destruct i.
Qed.
