(* ===== verification/ClientWire.v ===== *)
(** * Client messages

    What crosses the boundary between a client and a node: the messages generated from
    the protocol definition ([d-engine-proto/src/generated/d_engine.{client,error}.rs],
    module [Proto]) with their extensions ([d-engine-proto/src/exts/client_ext.rs],
    [d-engine-client/src/proto/client_ext.rs]), the errors a client sees
    ([d-engine-core/src/client/client_api_error.rs]), and the conversions of the server
    ([d-engine-server/src/{proto_convert,api/types}.rs]).

    An [i32] of the wire is a [Z]. [None] of a conversion to an error is the panic of
    [unreachable!]. *)

From Stdlib Require Import Ascii.
From stdpp Require Import base tactics numbers option list strings pretty.
From S2P Require Import Prelude Types Events Commands SnapshotFiles.

(** ** Fallible results with an error type of their own *)

Definition sum_bind {A B E : Type} (c : A + E) (k : A → B + E) : B + E :=
  match c with inl a => k a | inr e => inr e end.

Notation "'let+' x := c 'in' k" := (sum_bind c (λ x, k)) (at level 10, x pattern, k at level 200).

(** ** Generated messages *)

Module Proto.
Inductive ErrorCode :=
  | Success
  | ConnectionTimeout | InvalidAddress | LeaderChanged | JoinError
  | InvalidResponse | VersionMismatch
  | DiskFull | DataCorruption | StorageIoError | StoragePermissionDenied | KeyNotExist
  | NotLeader | StaleOperation | InvalidRequest | RateLimited | ClusterUnavailable
  | ProposeFailed | TermOutdated | RetryRequired
  | WatchBufferOverflow
  | General | Uncategorized.

(** [as i32]. *)
Definition code_number (e : ErrorCode) : Z :=
  match e with
  | Success => 0
  | ConnectionTimeout => 1001 | InvalidAddress => 1002 | LeaderChanged => 1003 | JoinError => 1004
  | InvalidResponse => 2001 | VersionMismatch => 2002
  | DiskFull => 3001 | DataCorruption => 3002 | StorageIoError => 3003 | StoragePermissionDenied => 3004
  | KeyNotExist => 3005
  | NotLeader => 4001 | StaleOperation => 4002 | InvalidRequest => 4003 | RateLimited => 4004
  | ClusterUnavailable => 4005 | ProposeFailed => 4006 | TermOutdated => 4007 | RetryRequired => 4008
  | WatchBufferOverflow => 5001
  | General => 8888 | Uncategorized => 9999
  end.

Definition all_codes : list ErrorCode :=
  [Success; ConnectionTimeout; InvalidAddress; LeaderChanged; JoinError; InvalidResponse; VersionMismatch;
   DiskFull; DataCorruption; StorageIoError; StoragePermissionDenied; KeyNotExist; NotLeader; StaleOperation;
   InvalidRequest; RateLimited; ClusterUnavailable; ProposeFailed; TermOutdated; RetryRequired;
   WatchBufferOverflow; General; Uncategorized].

(** The [TryFrom<i32>] that prost derives. *)
Definition code_try_from (n : Z) : option ErrorCode := find (λ e, Z.eqb (code_number e) n) all_codes.

(** [ReadConsistencyPolicy as i32] and back. *)
Definition policy_number (p : ReadConsistencyPolicy) : Z :=
  match p with LeaseRead => 0 | LinearizableRead => 1 | EventualConsistency => 2 end.

Definition policy_try_from (n : Z) : option ReadConsistencyPolicy :=
  find (λ p, Z.eqb (policy_number p) n) [LeaseRead; LinearizableRead; EventualConsistency].

Record ErrorMetadata := mkErrorMetadata {
  em_retry_after_ms : option N;
  em_leader_id : option string;
  em_leader_address : option string;
  em_debug_message : option string;
}.

Inductive SuccessResult :=
  | WriteResult (succeeded : bool)
  | ReadData (results : list (bytes * bytes))
  | ScanData (entries : list (bytes * bytes)) (revision : N).

Record ClientResponse := mkClientResponse {
  error : Z;
  metadata : option ErrorMetadata;
  success_result : option SuccessResult;
}.

Record ClientWriteRequest := mkClientWriteRequest {
  w_client_id : N;
  w_command : option Wire.WriteCommand;
}.

Record ClientReadRequest := mkClientReadRequest {
  r_client_id : N;
  r_keys : list bytes;
  r_consistency_policy : option Z;
}.

Record ScanRequest := mkScanRequest { s_client_id : N; s_prefix : bytes }.
End Proto.

(** ** Commands *)

(** [WriteCommand::{insert, insert_with_ttl, batch, delete, compare_and_swap}]. *)
Definition wire_insert (key value : bytes) : Wire.WriteCommand :=
  Wire.mkWriteCommand (Some (Wire.OInsert (Wire.mkInsert key value 0))).
Definition wire_insert_with_ttl (key value : bytes) (ttl_secs : N) : Wire.WriteCommand :=
  Wire.mkWriteCommand (Some (Wire.OInsert (Wire.mkInsert key value ttl_secs))).
Definition wire_batch (ops : list Wire.BatchOp) : Wire.WriteCommand :=
  Wire.mkWriteCommand (Some (Wire.OBatch (Wire.mkBatch ops))).
Definition wire_delete (key : bytes) : Wire.WriteCommand :=
  Wire.mkWriteCommand (Some (Wire.ODelete (Wire.mkDelete key))).
Definition wire_compare_and_swap (key : bytes) (expected : option bytes) (new_value : bytes) : Wire.WriteCommand :=
  Wire.mkWriteCommand (Some (Wire.OCompareAndSwap (Wire.mkCompareAndSwap key expected new_value))).

Inductive WriteOperation :=
  | WInsert (key value : bytes) (ttl_secs : option N)
  | WDelete (key : bytes)
  | WCompareAndSwap (key : bytes) (expected : option bytes) (new_value : bytes)
  | WBatch (ops : list Cmd.BatchOp).

Definition batch_op_to_wire (o : Cmd.BatchOp) : Wire.BatchOp :=
  match o with
  | Cmd.BInsert key value => Wire.mkBatchOp (Some (Wire.OpInsert (Wire.mkInsert key value 0)))
  | Cmd.BDelete key => Wire.mkBatchOp (Some (Wire.OpDelete (Wire.mkDelete key)))
  end.

(** [From<WriteOperation> for WriteCommand]. *)
Definition write_command_from (o : WriteOperation) : Wire.WriteCommand :=
  Wire.mkWriteCommand (Some
    match o with
    | WInsert key value ttl_secs => Wire.OInsert (Wire.mkInsert key value (default 0 ttl_secs))
    | WDelete key => Wire.ODelete (Wire.mkDelete key)
    | WCompareAndSwap key expected new_value => Wire.OCompareAndSwap (Wire.mkCompareAndSwap key expected new_value)
    | WBatch ops => Wire.OBatch (Wire.mkBatch (batch_op_to_wire <$> ops))
    end).

(** ** Error codes *)

Definition core_error_to_proto (e : ErrorCode) : Proto.ErrorCode :=
  match e with
  | EC_Success => Proto.Success
  | EC_ConnectionTimeout => Proto.ConnectionTimeout
  | EC_InvalidAddress => Proto.InvalidAddress
  | EC_LeaderChanged => Proto.LeaderChanged
  | EC_JoinError => Proto.JoinError
  | EC_InvalidResponse => Proto.InvalidResponse
  | EC_VersionMismatch => Proto.VersionMismatch
  | EC_DiskFull => Proto.DiskFull
  | EC_DataCorruption => Proto.DataCorruption
  | EC_StorageIoError => Proto.StorageIoError
  | EC_StoragePermissionDenied => Proto.StoragePermissionDenied
  | EC_KeyNotExist => Proto.KeyNotExist
  | EC_NotLeader => Proto.NotLeader
  | EC_StaleOperation => Proto.StaleOperation
  | EC_InvalidRequest => Proto.InvalidRequest
  | EC_RateLimited => Proto.RateLimited
  | EC_ClusterUnavailable => Proto.ClusterUnavailable
  | EC_ProposeFailed => Proto.ProposeFailed
  | EC_TermOutdated => Proto.TermOutdated
  | EC_RetryRequired => Proto.RetryRequired
  | EC_WatchBufferOverflow => Proto.WatchBufferOverflow
  | EC_General => Proto.General
  | EC_Uncategorized => Proto.Uncategorized
  end.

Definition proto_error_to_core (e : Proto.ErrorCode) : ErrorCode :=
  match e with
  | Proto.Success => EC_Success
  | Proto.ConnectionTimeout => EC_ConnectionTimeout
  | Proto.InvalidAddress => EC_InvalidAddress
  | Proto.LeaderChanged => EC_LeaderChanged
  | Proto.JoinError => EC_JoinError
  | Proto.InvalidResponse => EC_InvalidResponse
  | Proto.VersionMismatch => EC_VersionMismatch
  | Proto.DiskFull => EC_DiskFull
  | Proto.DataCorruption => EC_DataCorruption
  | Proto.StorageIoError => EC_StorageIoError
  | Proto.StoragePermissionDenied => EC_StoragePermissionDenied
  | Proto.KeyNotExist => EC_KeyNotExist
  | Proto.NotLeader => EC_NotLeader
  | Proto.StaleOperation => EC_StaleOperation
  | Proto.InvalidRequest => EC_InvalidRequest
  | Proto.RateLimited => EC_RateLimited
  | Proto.ClusterUnavailable => EC_ClusterUnavailable
  | Proto.ProposeFailed => EC_ProposeFailed
  | Proto.TermOutdated => EC_TermOutdated
  | Proto.RetryRequired => EC_RetryRequired
  | Proto.WatchBufferOverflow => EC_WatchBufferOverflow
  | Proto.General => EC_General
  | Proto.Uncategorized => EC_Uncategorized
  end.

(** [TryFrom<i32> for ErrorCode] of the core. *)
Definition error_code_try_from (n : Z) : option ErrorCode :=
  match n with
  | 0 => Some EC_Success
  | 1001 => Some EC_ConnectionTimeout | 1002 => Some EC_InvalidAddress
  | 1003 => Some EC_LeaderChanged | 1004 => Some EC_JoinError
  | 2001 => Some EC_InvalidResponse | 2002 => Some EC_VersionMismatch
  | 3001 => Some EC_DiskFull | 3002 => Some EC_DataCorruption | 3003 => Some EC_StorageIoError
  | 3004 => Some EC_StoragePermissionDenied | 3005 => Some EC_KeyNotExist
  | 4001 => Some EC_NotLeader | 4002 => Some EC_StaleOperation | 4003 => Some EC_InvalidRequest
  | 4004 => Some EC_RateLimited | 4005 => Some EC_ClusterUnavailable | 4006 => Some EC_ProposeFailed
  | 4007 => Some EC_TermOutdated | 4008 => Some EC_RetryRequired
  | 5001 => Some EC_WatchBufferOverflow
  | 8888 => Some EC_General | 9999 => Some EC_Uncategorized
  | _ => None
  end%Z.

(** ** The errors a client sees *)

Inductive ClientApiError :=
  | NetworkError (code : ErrorCode) (message : string) (retry_after_ms : option N) (leader_hint : option LeaderHint)
  | ProtocolError (code : ErrorCode) (message : string) (supported_versions : option (list string))
  | StorageError (code : ErrorCode) (message : string)
  | BusinessError (code : ErrorCode) (message : string) (required_action : option string)
  | GeneralError (code : ErrorCode) (message : string) (required_action : option string).

Abbreviation ClientApiResult A := (A + ClientApiError)%type.

Definition api_error_code (e : ClientApiError) : ErrorCode :=
  match e with
  | NetworkError c _ _ _ | ProtocolError c _ _ | StorageError c _ | BusinessError c _ _ | GeneralError c _ _ => c
  end.

Definition api_error_message (e : ClientApiError) : string :=
  match e with
  | NetworkError _ m _ _ | ProtocolError _ m _ | StorageError _ m | BusinessError _ m _ | GeneralError _ m _ => m
  end.

(** [From<ErrorCode> for ClientApiError]. *)
Definition api_error_from_code (code : ErrorCode) : option ClientApiError :=
  match code with
  | EC_ConnectionTimeout => Some (NetworkError code "Connection timeout" None None)
  | EC_InvalidAddress => Some (NetworkError code "Invalid address" None None)
  | EC_LeaderChanged => Some (NetworkError code "Leader changed" (Some 100) None)
  | EC_JoinError => Some (NetworkError code "Task Join Error" (Some 100) None)
  | EC_InvalidResponse => Some (ProtocolError code "Invalid response format" None)
  | EC_VersionMismatch => Some (ProtocolError code "Version mismatch" None)
  | EC_DiskFull => Some (StorageError code "Disk full")
  | EC_DataCorruption => Some (StorageError code "Data corruption detected")
  | EC_StorageIoError => Some (StorageError code "Storage I/O error")
  | EC_StoragePermissionDenied => Some (StorageError code "Storage permission denied")
  | EC_KeyNotExist => Some (StorageError code "Key not exist in storage")
  | EC_NotLeader => Some (NetworkError code "Not leader" (Some 100) None)
  | EC_StaleOperation => Some (BusinessError code "Stale operation" (Some "refresh state and retry"%string))
  | EC_InvalidRequest => Some (BusinessError code "Invalid request" (Some "check request parameters"%string))
  | EC_RateLimited => Some (BusinessError code "Rate limited" (Some "wait and retry"%string))
  | EC_ClusterUnavailable => Some (BusinessError code "Cluster unavailable" (Some "try again later"%string))
  | EC_ProposeFailed => Some (BusinessError code "Propose failed" (Some "try again later"%string))
  | EC_Uncategorized => Some (BusinessError code "Uncategorized error" None)
  | EC_TermOutdated => Some (BusinessError code "Stale term error" None)
  | EC_RetryRequired => Some (BusinessError code "Retry required. Please try again." None)
  | EC_WatchBufferOverflow =>
      Some (BusinessError code "Watch buffer overflow; watcher canceled"
              (Some "re-sync via Read API and re-register watch"%string))
  | EC_General => Some (GeneralError code "General Client Api error" None)
  | EC_Success => None
  end.

Definition general_client_error (message : string) : ClientApiError := GeneralError EC_General message None.

(** [From<tonic::transport::Error>]: whether the source is an I/O timeout, and how the
    error is displayed. *)
Definition api_error_from_transport (timed_out : bool) (display : string) : ClientApiError :=
  if timed_out then NetworkError EC_ConnectionTimeout ("Connection timeout: " +:+ display) (Some 3000) None
  else NetworkError EC_Uncategorized ("Transport error: " +:+ display) (Some 5000) None.

(** The [Debug] form of [Status::code]. *)
Definition debug_status_code (s : Status) : string :=
  match s with
  | Unavailable _ => "Unavailable"
  | Cancelled _ => "Cancelled"
  | FailedPrecondition _ => "FailedPrecondition"
  | DeadlineExceeded _ => "DeadlineExceeded"
  | ResourceExhausted _ => "ResourceExhausted"
  | InvalidArgument _ => "InvalidArgument"
  | PermissionDenied _ => "PermissionDenied"
  | NotFound _ => "NotFound"
  | Internal _ => "Internal"
  end.

Definition status_message (s : Status) : string :=
  match s with
  | Unavailable m | Cancelled m | FailedPrecondition m | DeadlineExceeded m | ResourceExhausted m
  | InvalidArgument m | PermissionDenied m | NotFound m | Internal m => m
  end.

(** *** The leader in a header *)

Fixpoint rev_string (s : string) : string :=
  match s with "" => "" | String c s' => rev_string s' +:+ String c "" end.

Fixpoint trim_start (p : ascii → bool) (s : string) : string :=
  match s with
  | "" => ""
  | String c s' => if p c then trim_start p s' else s
  end.

Definition trim_end (p : ascii → bool) (s : string) : string := rev_string (trim_start p (rev_string s)).
Definition trim_both (p : ascii → bool) (s : string) : string := trim_end p (trim_start p s).

(** The blanks a header value can hold. *)
Definition blank (c : ascii) : bool := Ascii.eqb c " " || Ascii.eqb c (ascii_of_N 9).
Definition quote (c : ascii) : bool := Ascii.eqb c (ascii_of_N 34).

(** [str::parse::<u32>]. *)
Definition parse_u32 (s : string) : option N :=
  n ← parse_u64 s; if n <=? u32_max then Some n else None.

(** One pair of the list: the later one wins, also when it does not parse. *)
Definition leader_pair (acc : option N * option string) (pair : string) : option N * option string :=
  match split_once ":" (trim_both blank pair) with
  | None => acc
  | Some (key, value) =>
      let key := trim_both quote (trim_both blank key) in
      let value := trim_both quote (trim_both blank value) in
      if String.eqb key "leader_id" then (parse_u32 value, acc.2)
      else if String.eqb key "address" then (acc.1, Some value)
      else acc
  end.

(** [header]: the value of [x-raft-leader], if the status has one. *)
Definition parse_leader_from_metadata (header : option string) : option LeaderHint :=
  s ← header;
  let s := trim_end (Ascii.eqb "}") (trim_start (Ascii.eqb "{") (trim_both blank s)) in
  let '(leader_id, address) := foldl leader_pair (None, None) (split "," s) in
  id ← leader_id; addr ← address; Some (mkLeaderHint id addr).

(** [From<Status> for ClientApiError]. *)
Definition api_error_from_status (header : option string) (s : Status) : ClientApiError :=
  match s with
  | Unavailable m => BusinessError EC_ClusterUnavailable m (Some "Retry after cluster recovery"%string)
  | Cancelled m => NetworkError EC_ConnectionTimeout m (Some 1000) None
  | FailedPrecondition m =>
      match parse_leader_from_metadata header with
      | Some leader => NetworkError EC_LeaderChanged "Leadership changed" (Some 1000) (Some leader)
      | None => BusinessError EC_StaleOperation m (Some "Refresh cluster state"%string)
      end
  | InvalidArgument m => BusinessError EC_InvalidRequest m None
  | PermissionDenied m => BusinessError EC_NotLeader m (Some "Refresh cluster state"%string)
  | ResourceExhausted m => BusinessError EC_RateLimited m (Some "Retry with backoff"%string)
  | DeadlineExceeded _ | NotFound _ | Internal _ =>
      BusinessError EC_Uncategorized ("Unhandled status code: " +:+ debug_status_code s) None
  end.

(** ** Requests and responses on the wire *)

Section convert.
(** prost's [encode_to_vec]. *)
Context (encode_write_command : Wire.WriteCommand → bytes).

Definition write_op_to_bytes (o : WriteOperation) : bytes := encode_write_command (write_command_from o).

Definition to_core_write_req (r : Proto.ClientWriteRequest) : ClientWriteRequest :=
  mkClientWriteRequest (Proto.w_client_id r) (encode_write_command <$> Proto.w_command r).
End convert.

Definition to_core_read_req (r : Proto.ClientReadRequest) : ClientReadRequest :=
  mkClientReadRequest (Proto.r_client_id r) (Proto.r_keys r) (Proto.r_consistency_policy r ≫= Proto.policy_try_from).

Definition build_error_metadata (hint : option LeaderHint) (retry_after_ms : option N) : option Proto.ErrorMetadata :=
  match hint, retry_after_ms with
  | None, None => None
  | _, _ => Some (Proto.mkErrorMetadata retry_after_ms ((λ h, pretty (lh_leader_id h)) <$> hint)
                    (lh_address <$> hint) None)
  end.

Definition parse_leader_hint (m : Proto.ErrorMetadata) : option LeaderHint :=
  id ← Proto.em_leader_id m ≫= parse_u32;
  address ← Proto.em_leader_address m;
  Some (mkLeaderHint id address).

Definition to_proto_response (r : ClientResponse) : Proto.ClientResponse :=
  Proto.mkClientResponse (Proto.code_number (core_error_to_proto (cresp_error r)))
    (build_error_metadata (cresp_leader_hint r) (cresp_retry_after_ms r))
    ((λ p, match p with
           | WriteResult b => Proto.WriteResult b
           | ReadResults kvs => Proto.ReadData kvs
           | ScanResults kvs rev => Proto.ScanData kvs rev
           end) <$> cresp_result r).

Definition to_core_response (r : Proto.ClientResponse) : ClientResponse :=
  let error := match Proto.code_try_from (Proto.error r) with
               | Some e => proto_error_to_core e
               | None => EC_Uncategorized
               end in
  mkClientResponse error (Proto.metadata r ≫= parse_leader_hint) (Proto.metadata r ≫= Proto.em_retry_after_ms)
    ((λ p, match p with
           | Proto.WriteResult b => WriteResult b
           | Proto.ReadData kvs => ReadResults kvs
           | Proto.ScanData kvs rev => ScanResults kvs rev
           end) <$> Proto.success_result r).

(** The pairs of keys that have a value. *)
Definition sparse (keys : list bytes) (values : list (option bytes)) : list (bytes * bytes) :=
  omap (λ kv, match kv.2 with Some v => Some (kv.1, v) | None => None end) (zip keys values).

Definition fast_path_batch_read_response (keys : list bytes) (values : list (option bytes)) : Proto.ClientResponse :=
  Proto.mkClientResponse 0 None (Some (Proto.ReadData (sparse keys values))).

(** ** A client reading a response ([ClientResponseExt]) *)

Definition validate_error (r : Proto.ClientResponse) : option (ClientApiResult unit) :=
  let code := default EC_Uncategorized (error_code_try_from (Proto.error r)) in
  if bool_decide (code = EC_Success) then Some (inl tt)
  else if bool_decide (code = EC_NotLeader)
  then let retry_after_ms := Proto.metadata r ≫= Proto.em_retry_after_ms in
       Some (inr (NetworkError code "Not leader"
                    (match retry_after_ms with Some _ => retry_after_ms | None => Some 100 end)
                    (Proto.metadata r ≫= parse_leader_hint)))
  else e ← api_error_from_code code; Some (inr e).

Definition unexpected (expected found : string) : ClientApiError :=
  ProtocolError EC_InvalidResponse ("Unexpected response type: expected " +:+ expected +:+ ", found " +:+ found) None.

Definition into_write_result (r : Proto.ClientResponse) : option (ClientApiResult bool) :=
  v ← validate_error r;
  Some (let+ _ := v in
        match Proto.success_result r with
        | Some (Proto.WriteResult succeeded) => inl succeeded
        | Some (Proto.ReadData _) => inr (unexpected "WriteResult" "ReadData")
        | Some (Proto.ScanData _ _) => inr (unexpected "WriteResult" "Unknown")
        | None => inr (unexpected "WriteResult" "None")
        end).

Definition into_read_results (r : Proto.ClientResponse) : option (ClientApiResult (list (option (bytes * bytes)))) :=
  v ← validate_error r;
  Some (let+ _ := v in
        match Proto.success_result r with
        | Some (Proto.ReadData results) => inl (Some <$> results)
        | Some (Proto.WriteResult _) => inr (unexpected "ReadData" "WriteResult")
        | Some (Proto.ScanData _ _) => inr (unexpected "ReadData" "Unknown")
        | None => inr (unexpected "ReadData" "None")
        end).

Definition into_scan_results (r : Proto.ClientResponse) : option (ClientApiResult (list (bytes * bytes) * N)) :=
  v ← validate_error r;
  Some (let+ _ := v in
        match Proto.success_result r with
        | Some (Proto.ScanData entries revision) => inl (entries, revision)
        | Some (Proto.WriteResult _) => inr (unexpected "ScanData" "WriteResult")
        | Some (Proto.ReadData _) => inr (unexpected "ScanData" "ReadData")
        | None => inr (unexpected "ScanData" "None")
        end).

Definition response_is_write_success (r : Proto.ClientResponse) : bool :=
  Z.eqb (Proto.error r) (Proto.code_number Proto.Success)
  && match Proto.success_result r with Some (Proto.WriteResult true) => true | _ => false end.
