(* ===== verification/ClientApi.v ===== *)
(** * Reads of a client, up to the raft loop

    [d-engine-server/src/read_actor.rs] and
    [d-engine-server/src/api/{standalone,embedded}_read_handle.rs]: how a read is served
    from the state machine or handed to the raft loop as a command, and how the
    answer of the loop becomes the result of the call.

    A call that sends a command and waits for the reply has an [Outcome]; the raft loop
    (the roles, [RaftLoop.v]) is a function [serve] from the command to its outcome. The
    lease and the clock are read when the lease is checked, the state machine
    ([get_multi]) after that. *)

From stdpp Require Import base tactics numbers option list gmap strings pretty.
From S2P Require Import Prelude Types Events Commands ReadLease SmWorker Watch ClientWire.

(** ** Waiting for a reply *)

Inductive Outcome (A : Type) :=
  (** the queue is closed *)
  | SendFailed
  | ReplyTimeout
  (** the other end dropped the reply channel *)
  | ReplyDropped
  | Replied (r : A + Status).
Arguments SendFailed {A}.
Arguments ReplyTimeout {A}.
Arguments ReplyDropped {A}.
Arguments Replied {A}.

(** A [ClientCmd] without its reply channel. *)
Inductive ClientCall :=
  | CallPropose (req : ClientWriteRequest)
  | CallRead (req : ClientReadRequest)
  | CallScan (prefix : bytes).

(** ** Errors *)

Definition channel_closed_error : ClientApiError :=
  NetworkError EC_ConnectionTimeout "Channel closed, node may be shutting down" None None.

(** The [Debug] form of a [Duration] of whole milliseconds. *)
Definition debug_duration (ms : N) : string :=
  if ms =? 0 then "0ns"
  else if ms <? 1000 then pretty ms +:+ "ms"
  else
    let f := ms mod 1000 in
    let pad (width : N) (x : N) :=
      (if (width =? 3) && (x <? 100) then "0" else "") +:+ (if (2 <=? width) && (x <? 10) then "0" else "") +:+ pretty x in
    let fraction := if f =? 0 then ""
                    else if f mod 100 =? 0 then "." +:+ pretty (f / 100)
                    else if f mod 10 =? 0 then "." +:+ pad 2 (f / 10)
                    else "." +:+ pad 3 f in
    pretty (ms / 1000) +:+ fraction +:+ "s".

Definition timeout_error (ms : N) : ClientApiError :=
  NetworkError EC_ConnectionTimeout ("Operation timed out after " +:+ debug_duration ms) (Some 1000) None.

Definition server_error (msg : string) : ClientApiError := BusinessError EC_Uncategorized msg None.

Definition not_leader_error (leader_id leader_address : option string) (retry_after_ms : option N) : ClientApiError :=
  let message := match leader_address, leader_id with
                 | Some addr, _ => "Not leader, try leader at: " +:+ addr
                 | None, Some id => "Not leader, leader_id: " +:+ id
                 | None, None => "Not leader"
                 end in
  let leader_hint := match leader_id, leader_address with
                     | Some id, Some addr => (λ id, mkLeaderHint id addr) <$> parse_u32 id
                     | _, _ => None
                     end in
  NetworkError EC_NotLeader message (match retry_after_ms with Some _ => retry_after_ms | None => Some 100 end)
    leader_hint.

(** The [Debug] form of an [ErrorCode]. *)
Definition debug_error_code (e : ErrorCode) : string :=
  match e with
  | EC_Success => "Success"
  | EC_ConnectionTimeout => "ConnectionTimeout"
  | EC_InvalidAddress => "InvalidAddress"
  | EC_LeaderChanged => "LeaderChanged"
  | EC_JoinError => "JoinError"
  | EC_InvalidResponse => "InvalidResponse"
  | EC_VersionMismatch => "VersionMismatch"
  | EC_DiskFull => "DiskFull"
  | EC_DataCorruption => "DataCorruption"
  | EC_StorageIoError => "StorageIoError"
  | EC_StoragePermissionDenied => "StoragePermissionDenied"
  | EC_KeyNotExist => "KeyNotExist"
  | EC_NotLeader => "NotLeader"
  | EC_StaleOperation => "StaleOperation"
  | EC_InvalidRequest => "InvalidRequest"
  | EC_RateLimited => "RateLimited"
  | EC_ClusterUnavailable => "ClusterUnavailable"
  | EC_ProposeFailed => "ProposeFailed"
  | EC_TermOutdated => "TermOutdated"
  | EC_RetryRequired => "RetryRequired"
  | EC_WatchBufferOverflow => "WatchBufferOverflow"
  | EC_General => "General"
  | EC_Uncategorized => "Uncategorized"
  end.

Definition map_error_response (error : ErrorCode) (leader_hint : option LeaderHint) (retry_after_ms : option N)
    : ClientApiError :=
  match error with
  | EC_NotLeader =>
      not_leader_error ((λ h, pretty (lh_leader_id h)) <$> leader_hint) (lh_address <$> leader_hint) retry_after_ms
  | _ => server_error ("Error code: " +:+ debug_error_code error)
  end.

(** Waiting for the answer of the raft loop and checking it. *)
Definition await_response (timeout_ms : N) (o : Outcome ClientResponse) : ClientApiResult ClientResponse :=
  match o with
  | SendFailed | ReplyDropped => inr channel_closed_error
  | ReplyTimeout => inr (timeout_error timeout_ms)
  | Replied (inr status) => inr (server_error ("RPC error: " +:+ status_message status))
  | Replied (inl r) =>
      if bool_decide (cresp_error r = EC_Success) then inl r
      else inr (map_error_response (cresp_error r) (cresp_leader_hint r) (cresp_retry_after_ms r))
  end.

Definition extract_read_payload (p : option ClientResponsePayload) : ClientApiResult (list (bytes * bytes)) :=
  match p with
  | Some (ReadResults kvs) => inl kvs
  | Some (WriteResult _) => inr (ProtocolError EC_InvalidResponse "expected ReadData payload, got WriteResult" None)
  | Some (ScanResults _ _) => inr (ProtocolError EC_InvalidResponse "expected ReadData payload, got ScanResults" None)
  | None => inr (ProtocolError EC_InvalidResponse "expected ReadData payload, got None" None)
  end.

(** The values of [keys], collecting the pairs in a [HashMap]: the last one of a key stays. *)
Definition align (keys : list bytes) (kvs : list (bytes * bytes)) : list (option bytes) :=
  let entry_map := foldl (λ m kv, <[kv.1 := kv.2]> m) (∅ : gmap bytes bytes) kvs in
  (λ k, entry_map !! k) <$> keys.

(** [results.pop().flatten()]. *)
Definition pop_flatten {A} (l : list (option A)) : option A := mjoin (last l).

(** ** The read actor *)

Inductive ReadActorError := LeaseInvalid | SmStopped | SmError (msg : string).

Record ReadCmd := mkReadCmd { rc_keys : list bytes; rc_consistency : ReadConsistencyPolicy }.

(** The state machine as a reader sees it. [display]: how an error is shown. *)
Record Readable := mkReadable {
  is_running : bool;
  get_multi : list bytes → result (list (option bytes));
  display : error → string;
}.

Definition serve_read (cmd : ReadCmd) (lease : ReadLease.t) (now_ms : N) (sm : Readable)
    : list (option bytes) + ReadActorError :=
  let read := match get_multi sm (rc_keys cmd) with
              | Ok values => inl values
              | Err e => inr (SmError (display sm e))
              end in
  match rc_consistency cmd with
  | EventualConsistency => if is_running sm then read else inr SmStopped
  | LeaseRead => if negb (ReadLease.is_valid lease now_ms) || negb (is_running sm) then inr LeaseInvalid else read
  | LinearizableRead => inr LeaseInvalid
  end.

(** One wake-up of [run_read_actor]: the commands it serves, and those left in the queue. *)
Fixpoint drain_reads {A} (count max_drain : nat) (queue : list A) : list A * list A :=
  match queue with
  | [] => ([], [])
  | c :: queue' =>
      if (count <? max_drain)%nat
      then let '(served, rest) := drain_reads (S count) max_drain queue' in (c :: served, rest)
      else ([], queue)
  end.

Definition actor_wake {A} (max_drain : nat) (queue : list A) : list A * list A :=
  match queue with
  | [] => ([], [])
  | c :: queue' =>
      let '(served, rest) := drain_reads 1 max_drain queue' in (c :: served, rest)
  end.

(** What a handle gets back from the actor. *)
Inductive ActorOutcome :=
  | ActorGone
  | ActorDropped
  | ActorStalled
  | ActorReplied (r : list (option bytes) + ReadActorError).

(** ** The read handles *)

Section handles.
Context (serve : ClientCall → Outcome ClientResponse).

Definition cmd_tx_path (keys : list bytes) (consistency : ReadConsistencyPolicy) (client_id timeout_ms : N)
    : ClientApiResult (list (option bytes)) :=
  let request := mkClientReadRequest client_id keys (Some consistency) in
  let+ response := await_response timeout_ms (serve (CallRead request)) in
  let+ entries := extract_read_payload (cresp_result response) in
  inl (align keys entries).

(** [actor]: the queue of the read actor, if the node has one. *)
Definition standalone_get_batch (actor : option (ReadCmd → ActorOutcome)) (keys : list bytes)
    (consistency : ReadConsistencyPolicy) (client_id timeout_ms : N) : ClientApiResult (list (option bytes)) :=
  let fallback := cmd_tx_path keys consistency client_id timeout_ms in
  match actor, consistency with
  | Some read_tx, (EventualConsistency | LeaseRead) =>
      match read_tx (mkReadCmd keys consistency) with
      | ActorReplied (inl values) => inl values
      | ActorReplied (inr (SmError e)) => inr (server_error e)
      | ActorReplied (inr (LeaseInvalid | SmStopped)) | ActorGone | ActorDropped | ActorStalled => fallback
      end
  | _, _ => fallback
  end.

Definition standalone_get (actor : option (ReadCmd → ActorOutcome)) (key : bytes) (consistency : ReadConsistencyPolicy)
    (client_id timeout_ms : N) : ClientApiResult (option bytes) :=
  let+ results := standalone_get_batch actor [key] consistency client_id timeout_ms in inl (pop_flatten results).

Definition embedded_get_batch (lease : ReadLease.t) (now_ms : N) (sm : Readable) (keys : list bytes)
    (consistency : ReadConsistencyPolicy) (client_id timeout_ms : N) : ClientApiResult (list (option bytes)) :=
  let fallback := cmd_tx_path keys consistency client_id timeout_ms in
  match consistency with
  | EventualConsistency => match get_multi sm keys with Ok values => inl values | Err _ => fallback end
  | LeaseRead =>
      if ReadLease.is_valid lease now_ms
      then match get_multi sm keys with Ok values => inl values | Err _ => fallback end
      else fallback
  | LinearizableRead => fallback
  end.

Definition embedded_get (lease : ReadLease.t) (now_ms : N) (sm : Readable) (key : bytes)
    (consistency : ReadConsistencyPolicy) (client_id timeout_ms : N) : ClientApiResult (option bytes) :=
  let+ results := embedded_get_batch lease now_ms sm [key] consistency client_id timeout_ms in inl (pop_flatten results).
End handles.

(** * The client interfaces

    The node's service for clients ([handle_client_*] and [handle_rpc_timeout] of
    [d-engine-server/src/network/grpc/grpc_raft_service.rs]) and the two clients: the
    embedded one ([d-engine-server/src/api/embedded_client.rs]), which talks to the raft
    loop of its own process, and the gRPC one ([d-engine-client/src/grpc_client.rs]),
    which talks to the service of a node.

    [serve] is the raft loop as for the read paths above. To the gRPC client a remote call is a
    function from the request to the response or to a status with its leader
    header. The [Debug] forms that only appear in messages are parameters. *)

(** ** The service of a node *)

Definition handle_rpc_timeout {A} (o : Outcome A) (closed : string) : A + Status :=
  match o with
  | SendFailed => inr (Internal closed)
  | Replied (inl r) => inl r
  | Replied (inr status) => inr status
  | ReplyDropped => inr (DeadlineExceeded "RPC channel closed")
  | ReplyTimeout => inr (DeadlineExceeded "RPC timeout exceeded")
  end.

Section service.
Context (encode_write_command : Wire.WriteCommand → bytes) (debug_api_error : ClientApiError → string).
Context (serve : ClientCall → Outcome ClientResponse).

(** A call that forwards an event to the raft loop; [event_loop] is the loop. *)
Definition forward_event {B} (ready : bool) (ev : InboundEvent) (event_loop : InboundEvent → Outcome B) : B + Status :=
  if negb ready then inr (Unavailable "Service is not ready")
  else handle_rpc_timeout (event_loop ev) "Event channel closed".

Definition rpc_request_vote (ready : bool) (event_loop : InboundEvent → Outcome VoteResponse) (req : VoteRequest)
    (sender : N) : VoteResponse + Status :=
  forward_event ready (ReceiveVoteRequest req sender) event_loop.

Definition rpc_append_entries (ready : bool) (event_loop : InboundEvent → Outcome AppendEntriesResponse)
    (req : AppendEntriesRequest) (sender : N) : AppendEntriesResponse + Status :=
  forward_event ready (AppendEntries req [sender]) event_loop.

(** The chunks up to the first error of the stream. *)
Fixpoint forwarded_chunks (stream : list (SnapshotChunk + Status)) : list SnapshotChunk :=
  match stream with
  | inl c :: stream' => c :: forwarded_chunks stream'
  | _ => []
  end.

Definition rpc_install_snapshot (ready : bool) (event_loop : InboundEvent → Outcome SnapshotResponse)
    (stream : list (SnapshotChunk + Status)) (sender : N) : SnapshotResponse + Status :=
  forward_event ready (InstallSnapshotChunk (forwarded_chunks stream) sender) event_loop.

Definition rpc_update_cluster_conf (ready : bool) (event_loop : InboundEvent → Outcome ClusterConfUpdateResponse)
    (req : ClusterConfChangeRequest) (sender : N) : ClusterConfUpdateResponse + Status :=
  forward_event ready (ClusterConfUpdate req sender) event_loop.

Definition rpc_get_cluster_metadata (ready : bool) (event_loop : InboundEvent → Outcome ClusterMembership)
    (sender : N) : ClusterMembership + Status :=
  forward_event ready (ClusterConf sender) event_loop.

Definition rpc_join_cluster (ready : bool) (event_loop : InboundEvent → Outcome JoinResponse) (req : JoinRequest)
    (sender : N) : JoinResponse + Status :=
  forward_event ready (JoinCluster req sender) event_loop.

Definition rpc_discover_leader (ready : bool) (event_loop : InboundEvent → Outcome LeaderDiscoveryResponse)
    (sender : N) : LeaderDiscoveryResponse + Status :=
  forward_event ready (DiscoverLeader sender) event_loop.

Definition reply_proto (o : Outcome ClientResponse) : Proto.ClientResponse + Status :=
  let+ r := handle_rpc_timeout o "Command channel closed" in inl (to_proto_response r).

Definition handle_client_write (ready : bool) (req : Proto.ClientWriteRequest) : Proto.ClientResponse + Status :=
  if negb ready then inr (Unavailable "Service is not ready")
  else match Proto.w_command req ≫= Wire.operation with
       | None => inr (InvalidArgument "WriteCommand must contain an operation")
       | Some _ => reply_proto (serve (CallPropose (to_core_write_req encode_write_command req)))
       end.

Definition handle_client_read (ready : bool) (timeout_ms : N) (actor : option (ReadCmd → ActorOutcome))
    (req : Proto.ClientReadRequest) : Proto.ClientResponse + Status :=
  if negb ready then inr (Unavailable "Service is not ready")
  else
    let core_req := to_core_read_req req in
    match consistency_policy core_req with
    | Some ((EventualConsistency | LeaseRead) as policy) =>
        match standalone_get_batch serve actor (cr_keys core_req) policy (cr_client_id core_req) timeout_ms with
        | inl values => inl (fast_path_batch_read_response (cr_keys core_req) values)
        | inr (BusinessError _ message _) => inr (Internal message)
        | inr (NetworkError _ message _ _) => inr (Unavailable message)
        | inr other => inr (Internal (debug_api_error other))
        end
    | _ => reply_proto (serve (CallRead core_req))
    end.

Definition handle_client_scan (ready : bool) (req : Proto.ScanRequest) : Proto.ClientResponse + Status :=
  if negb ready then inr (Unavailable "Service is not ready")
  else reply_proto (serve (CallScan (Proto.s_prefix req))).
End service.

(** ** The embedded client *)

Definition empty_batch_error : ClientApiError :=
  BusinessError EC_InvalidRequest "batch ops must not be empty" None.

Section embedded.
Context (encode_write_command : Wire.WriteCommand → bytes).
Context (debug_payload : option ClientResponsePayload → string).
Context (serve : ClientCall → Outcome ClientResponse).
Context (client_id timeout_ms : N).

Definition propose (op : WriteOperation) : ClientApiResult ClientResponse :=
  await_response timeout_ms
    (serve (CallPropose (mkClientWriteRequest client_id (Some (write_op_to_bytes encode_write_command op))))).

Definition embedded_put (key value : bytes) : ClientApiResult unit :=
  let+ _ := propose (WInsert key value None) in inl tt.

Definition embedded_put_with_ttl (key value : bytes) (ttl_secs : N) : ClientApiResult unit :=
  let+ _ := propose (WInsert key value (Some ttl_secs)) in inl tt.

Definition embedded_delete (key : bytes) : ClientApiResult unit :=
  let+ _ := propose (WDelete key) in inl tt.

Definition embedded_batch (ops : list Cmd.BatchOp) : ClientApiResult unit :=
  match ops with
  | [] => inr empty_batch_error
  | _ => let+ _ := propose (WBatch ops) in inl tt
  end.

Definition embedded_compare_and_swap (key : bytes) (expected : option bytes) (new_value : bytes)
    : ClientApiResult bool :=
  let+ response := propose (WCompareAndSwap key expected new_value) in
  match cresp_result response with
  | Some (WriteResult succeeded) => inl succeeded
  | _ => inr (server_error "Invalid CAS response")
  end.

Definition embedded_scan_prefix (prefix : bytes) : ClientApiResult (list (bytes * bytes) * N) :=
  let+ response := await_response timeout_ms (serve (CallScan prefix)) in
  match cresp_result response with
  | Some (ScanResults entries revision) => inl (entries, revision)
  | other => inr (server_error ("Unexpected response type for scan operation: expected Scan, found "
                                +:+ debug_payload other))
  end.

(** [get_multi_with_policy]; the other reads fix the policy or a single key. *)
Definition embedded_get_multi_with_policy (lease : ReadLease.t) (now_ms : N) (sm : Readable) (keys : list bytes)
    (policy : option ReadConsistencyPolicy) : ClientApiResult (list (option bytes)) :=
  embedded_get_batch serve lease now_ms sm keys (default LinearizableRead policy) client_id timeout_ms.

Definition embedded_get_with_consistency (lease : ReadLease.t) (now_ms : N) (sm : Readable) (key : bytes)
    (consistency : ReadConsistencyPolicy) : ClientApiResult (option bytes) :=
  embedded_get serve lease now_ms sm key consistency client_id timeout_ms.

(** [get_cluster_membership], [list_members], [get_leader_id]. *)
Definition get_cluster_membership (o : Outcome ClusterMembership) : ClientApiResult ClusterMembership :=
  match o with
  | SendFailed | ReplyDropped => inr channel_closed_error
  | ReplyTimeout => inr (timeout_error timeout_ms)
  | Replied (inl m) => inl m
  | Replied (inr status) => inr (server_error ("ClusterConf error: " +:+ status_message status))
  end.

Definition embedded_list_members (o : Outcome ClusterMembership) : ClientApiResult (list NodeMeta) :=
  let+ m := get_cluster_membership o in inl (cms_nodes m).

Definition embedded_get_leader_id (o : Outcome ClusterMembership) : ClientApiResult (option N) :=
  let+ m := get_cluster_membership o in inl (cms_current_leader_id m).
End embedded.

(** ** The gRPC client *)

(** A remote call: the response, or a status with its [x-raft-leader] header. *)
Definition Rpc (A : Type) : Type := A → Proto.ClientResponse + (Status * option string).

Section grpc.
Context (client_id : N).

(** [write]: the call on the leader's channel. The outer [option] is a panic. *)
Definition grpc_write (write : Rpc Proto.ClientWriteRequest) (command : Wire.WriteCommand)
    : option (ClientApiResult Proto.ClientResponse) :=
  match write (Proto.mkClientWriteRequest client_id (Some command)) with
  | inl response => v ← validate_error response; Some (let+ _ := v in inl response)
  | inr (status, header) => Some (inr (api_error_from_status header status))
  end.

Definition grpc_put (write : Rpc Proto.ClientWriteRequest) (key value : bytes) : option (ClientApiResult unit) :=
  r ← grpc_write write (wire_insert key value); Some (let+ _ := r in inl tt).

Definition grpc_put_with_ttl (write : Rpc Proto.ClientWriteRequest) (key value : bytes) (ttl_secs : N)
    : option (ClientApiResult unit) :=
  r ← grpc_write write (wire_insert_with_ttl key value ttl_secs); Some (let+ _ := r in inl tt).

Definition grpc_delete (write : Rpc Proto.ClientWriteRequest) (key : bytes) : option (ClientApiResult unit) :=
  r ← grpc_write write (wire_delete key); Some (let+ _ := r in inl tt).

Definition grpc_batch (write : Rpc Proto.ClientWriteRequest) (ops : list Cmd.BatchOp)
    : option (ClientApiResult unit) :=
  match ops with
  | [] => Some (inr empty_batch_error)
  | _ => r ← grpc_write write (wire_batch (batch_op_to_wire <$> ops)); Some (let+ _ := r in inl tt)
  end.

Definition grpc_compare_and_swap (write : Rpc Proto.ClientWriteRequest) (key : bytes) (expected : option bytes)
    (new_value : bytes) : option (ClientApiResult bool) :=
  r ← grpc_write write (wire_compare_and_swap key expected new_value);
  Some (let+ response := r in inl (response_is_write_success response)).

(** [leader], [any]: the call on the leader's channel and on a channel chosen at random. *)
Definition grpc_get_multi_entries (leader any : Rpc Proto.ClientReadRequest) (keys : list bytes)
    (policy : option ReadConsistencyPolicy) : option (ClientApiResult (list (option (bytes * bytes)))) :=
  match keys with
  | [] => e ← api_error_from_code EC_InvalidRequest; Some (inr e)
  | _ =>
      let request := Proto.mkClientReadRequest client_id keys (Proto.policy_number <$> policy) in
      let call := match policy with
                  | Some LinearizableRead | Some LeaseRead | None => leader
                  | Some EventualConsistency => any
                  end in
      match call request with
      | inl response =>
          sparse ← into_read_results response;
          Some (let+ sparse := sparse in
                let by_key := foldl (λ m kv, <[kv.1 := kv]> m) (∅ : gmap bytes (bytes * bytes)) (omap id sparse) in
                inl ((λ k, by_key !! k) <$> keys))
      | inr (status, header) => Some (inr (api_error_from_status header status))
      end
  end.

Definition grpc_get_multi_with_policy (leader any : Rpc Proto.ClientReadRequest) (keys : list bytes)
    (policy : option ReadConsistencyPolicy) : option (ClientApiResult (list (option bytes))) :=
  r ← grpc_get_multi_entries leader any keys policy;
  Some (let+ entries := r in inl (option_map snd <$> entries : list (option bytes))).

Definition grpc_get_with_policy (leader any : Rpc Proto.ClientReadRequest) (key : bytes)
    (policy : option ReadConsistencyPolicy) : option (ClientApiResult (option bytes)) :=
  r ← grpc_get_multi_entries leader any [key] policy; Some (let+ entries := r in inl (snd <$> pop_flatten entries)).

Definition grpc_scan_prefix (scan : Rpc Proto.ScanRequest) (prefix : bytes)
    : option (ClientApiResult (list (bytes * bytes) * N)) :=
  match scan (Proto.mkScanRequest client_id prefix) with
  | inl response => into_scan_results response
  | inr (status, header) => Some (inr (api_error_from_status header status))
  end.
End grpc.

(** ** Watching *)

Definition watch_error_message (e : WatchError) : string :=
  match e with
  | LimitExceeded n => "watcher limit (" +:+ pretty n +:+ ") exceeded"
  | InvalidPrefix => "prefix must start with '/' and end with '/'"
  end.

Definition watch_status (is_prefix : bool) (e : WatchError) : Status :=
  match is_prefix, e with
  | true, InvalidPrefix => InvalidArgument (watch_error_message e)
  | _, _ => ResourceExhausted (watch_error_message e)
  end.

(** [watch] of the service: the registry after the call and the id of the watcher whose
    receiver the stream reads. [None]: a panic. *)
Definition service_watch (registry : option WatchSystem) (key : bytes) (is_prefix prev_kv : bool)
    : option (option WatchSystem * (N + Status)) :=
  match registry with
  | None => Some (None, inr (Unavailable "Watch feature is disabled in server configuration"))
  | Some s =>
      let! r := (if is_prefix then register_prefix key prev_kv s else register key prev_kv s) in
      match r with
      | (s, inl id) => let! s := into_receiver id s in Some (Some s, inl id)
      | (s, inr e) => Some (Some s, inr (watch_status is_prefix e))
      end
  end.

(** What the stream carries once the receiver has ended. *)
Definition watch_stream (events : list WatchResponse) : list (WatchResponse + Status) :=
  (inl <$> events)
  ++ [inr (Unavailable "Watch stream closed: server may have shut down or restarted. Please reconnect and re-register the watcher.")].

(** [watch_with_options] and [watch_prefix_with_options] of the embedded client. *)
Definition embedded_watch (registry : option WatchSystem) (register_op : WatchSystem → option (WatchSystem * (N + WatchError)))
    : option (option WatchSystem * ClientApiResult N) :=
  match registry with
  | None => Some (None, inr (BusinessError EC_Uncategorized "Watch feature disabled (WatchRegistry not initialized)" None))
  | Some s =>
      let! r := register_op s in
      Some (Some r.1, match r.2 with
                      | inl id => inl id
                      | inr e => inr (BusinessError EC_Uncategorized (watch_error_message e) None)
                      end)
  end.

Definition embedded_watch_with_options (registry : option WatchSystem) (key : bytes) (prev_kv : bool)
    : option (option WatchSystem * ClientApiResult N) := embedded_watch registry (register key prev_kv).

Definition embedded_watch_prefix_with_options (registry : option WatchSystem) (prefix : bytes) (prev_kv : bool)
    : option (option WatchSystem * ClientApiResult N) := embedded_watch registry (register_prefix prefix prev_kv).
