(* ===== verification/ClientProps.v ===== *)
(** * Client messages: conversions are lossless

    Round trips of [ClientWire.v] and the alignment of sparse read results with the keys
    that were asked for ([ClientApi.v]). *)

From stdpp Require Import base tactics numbers option list gmap strings pretty.
From S2P Require Import Prelude Types Events Commands ReadLease SnapshotFiles SmWorker.
From S2P Require Import FileStateMachine RocksDb RocksSm ClientWire ClientApi.

(** ** Error codes *)

Lemma code_try_from_number e : Proto.code_try_from (Proto.code_number e) = Some e.
Proof. by destruct e. Qed.

Lemma error_code_round_trip e : proto_error_to_core (core_error_to_proto e) = e.
Proof. by destruct e. Qed.

(** The numbers of the core and of the protocol are the same. *)
Lemma error_code_try_from_number e : error_code_try_from (Proto.code_number (core_error_to_proto e)) = Some e.
Proof. by destruct e. Qed.

Lemma policy_round_trip p : Proto.policy_try_from (Proto.policy_number p) = Some p.
Proof. by destruct p. Qed.

Lemma parse_u32_pretty n : n <= u32_max → parse_u32 (pretty n) = Some n.
Proof.
  intros H. unfold parse_u32. rewrite parse_u64_pretty by (unfold u32_max, u64_max in *; lia). simpl.
  by rewrite (proj2 (N.leb_le _ _) H).
Qed.

(** ** Responses *)

(** Node ids are [u32]. *)
Definition hint_ok (r : ClientResponse) : Prop :=
  match cresp_leader_hint r with Some h => lh_leader_id h <= u32_max | None => True end.

Lemma metadata_hint hint retry :
  match hint with Some h => lh_leader_id h <= u32_max | None => True end →
  build_error_metadata hint retry ≫= parse_leader_hint = hint.
Proof.
  destruct hint as [[id addr]|], retry; simpl; intros H; try done; unfold parse_leader_hint; simpl;
    by rewrite parse_u32_pretty.
Qed.

Lemma metadata_retry hint retry : build_error_metadata hint retry ≫= Proto.em_retry_after_ms = retry.
Proof. by destruct hint, retry. Qed.

Lemma response_round_trip r : hint_ok r → to_core_response (to_proto_response r) = r.
Proof.
  intros H. destruct r as [e hint retry res]. unfold to_core_response, to_proto_response; simpl.
  rewrite code_try_from_number, error_code_round_trip, metadata_hint, metadata_retry by done.
  f_equal. by destruct res as [[]|].
Qed.

(** ** A response as the gRPC client reads it *)

(** The error both clients report for a refusal by a node that is not the leader. *)
Definition refusal (r : ClientResponse) (message : string) : ClientApiError :=
  NetworkError EC_NotLeader message
    (match cresp_retry_after_ms r with Some t => Some t | None => Some 100 end) (cresp_leader_hint r).

Lemma validate_error_success r :
  cresp_error r = EC_Success → validate_error (to_proto_response r) = Some (inl tt).
Proof.
  intros H. unfold validate_error, to_proto_response; simpl. by rewrite error_code_try_from_number, H.
Qed.

Lemma validate_error_refusal r :
  hint_ok r → cresp_error r = EC_NotLeader →
  validate_error (to_proto_response r) = Some (inr (refusal r "Not leader")).
Proof.
  intros Hh H. unfold validate_error, to_proto_response, refusal; simpl.
  rewrite error_code_try_from_number, H, metadata_hint, metadata_retry by done. simpl.
  by destruct (cresp_retry_after_ms r).
Qed.

(** The conversion of a code to an error does not panic where it is used. *)
Lemma validate_error_total p : ∃ v, validate_error p = Some v.
Proof.
  unfold validate_error. destruct (default _ _); simpl; eauto.
Qed.

Lemma validate_error_failure r :
  cresp_error r ≠ EC_Success → ∃ e, validate_error (to_proto_response r) = Some (inr e)
                                    ∧ api_error_code e = cresp_error r.
Proof.
  intros H. unfold validate_error, to_proto_response; simpl. rewrite error_code_try_from_number; simpl.
  by destruct (cresp_error r); simpl; eauto.
Qed.

Lemma refusal_mapped r :
  hint_ok r → ∃ message,
  map_error_response EC_NotLeader (cresp_leader_hint r) (cresp_retry_after_ms r) = refusal r message.
Proof.
  intros H. unfold hint_ok in H. unfold map_error_response, not_leader_error, refusal.
  destruct (cresp_leader_hint r) as [[id addr]|]; simpl in *.
  - eexists. rewrite parse_u32_pretty by done. simpl. by destruct (cresp_retry_after_ms r).
  - eexists. by destruct (cresp_retry_after_ms r).
Qed.

(** ** Commands *)

(** What the state machine executes for an operation of a client. *)
Definition operation_command (o : WriteOperation) : Cmd.Command :=
  match o with
  | WInsert key value ttl => Cmd.Insert key value (if bool_decide (ttl = Some 0) then None else ttl)
  | WDelete key => Cmd.Delete key
  | WCompareAndSwap key expected new_value => Cmd.CompareAndSwap key expected new_value
  | WBatch ops => Cmd.Batch ops
  end.

Lemma collect_batch ops : collect batch_op_of_wire (batch_op_to_wire <$> ops) = Ok ops.
Proof. induction ops as [|[] ops IH]; [done|..]; csimpl; by rewrite IH. Qed.

Lemma command_round_trip o : command_try_from (write_command_from o) = Ok (operation_command o).
Proof.
  destruct o as [key value ttl|key|key expected v|ops]; try done.
  - unfold command_try_from; simpl. destruct ttl as [ttl|]; [|done]. simpl.
    destruct (N.eqb_spec ttl 0) as [->|]; [done|]. rewrite bool_decide_eq_false_2; [done|congruence].
  - unfold command_try_from; simpl. by rewrite collect_batch.
Qed.

(** ** Alignment *)

Lemma foldl_insert_lookup (kvs : list (bytes * bytes)) (m0 : gmap bytes bytes) (get : bytes → option bytes) k :
  (∀ k v, (k, v) ∈ kvs → get k = Some v) →
  (foldl (λ m kv, <[kv.1 := kv.2]> m) m0 kvs) !! k = if bool_decide (k ∈ kvs.*1) then get k else m0 !! k.
Proof.
  revert m0. induction kvs as [|[k' v'] kvs IH]; intros m0 H; [done|]. simpl.
  rewrite IH by (intros ?? ?; apply H; by right).
  destruct (decide (k ∈ kvs.*1)) as [Hk|Hk].
  - rewrite !bool_decide_eq_true_2; [done|csimpl; by right|done].
  - rewrite bool_decide_eq_false_2 by done. destruct (decide (k = k')) as [->|Hne].
    + rewrite lookup_insert_eq, bool_decide_eq_true_2 by (csimpl; by left). symmetry. apply H. by left.
    + rewrite lookup_insert_ne by done. rewrite bool_decide_eq_false_2; [done|].
      csimpl. by intros [?|?]%elem_of_cons.
Qed.

(** Pairs that are exactly the values of the keys asked for give those values back. *)
Lemma align_values keys kvs (get : bytes → option bytes) :
  (∀ k v, (k, v) ∈ kvs ↔ k ∈ keys ∧ get k = Some v) → align keys kvs = get <$> keys.
Proof.
  intros H. unfold align. apply list_fmap_ext. intros i k Hk%list_elem_of_lookup_2.
  rewrite (foldl_insert_lookup _ _ get) by (intros ?? ?%H; naive_solver).
  case_bool_decide as D; [done|]. rewrite lookup_empty. destruct (get k) as [v|] eqn:E; [|done].
  destruct D. apply list_elem_of_fmap. exists (k, v). split; [done|]. by apply H.
Qed.

Lemma elem_of_present (keys : list bytes) (get : bytes → option bytes) k v :
  (k, v) ∈ omap (λ key, (λ value, (key, value)) <$> get key) keys ↔ k ∈ keys ∧ get k = Some v.
Proof.
  rewrite list_elem_of_omap. split.
  - intros (key & Hk & H). destruct (get key) eqn:E; simplify_eq/=. done.
  - intros [Hk E]. exists k. by rewrite E.
Qed.

Lemma sparse_fmap (keys : list bytes) (get : bytes → option bytes) :
  sparse keys (get <$> keys) = omap (λ key, (λ value, (key, value)) <$> get key) keys.
Proof.
  unfold sparse. induction keys as [|k keys IH]; [done|]. csimpl. rewrite IH. by destruct (get k).
Qed.

(** The gRPC client keeps the pairs in its map and takes the values at the end. *)
Lemma align_entries keys kvs :
  option_map snd <$> ((λ k, foldl (λ m kv, <[kv.1 := kv]> m) (∅ : gmap bytes (bytes * bytes)) kvs !! k) <$> keys)
  = align keys kvs.
Proof.
  unfold align. rewrite <- list_fmap_compose. apply list_fmap_ext. intros _ k _. simpl.
  assert (∀ (m1 : gmap bytes (bytes * bytes)) (m2 : gmap bytes bytes), (∀ k, option_map snd (m1 !! k) = m2 !! k) →
    option_map snd (foldl (λ m kv, <[kv.1 := kv]> m) m1 kvs !! k) = foldl (λ m kv, <[kv.1 := kv.2]> m) m2 kvs !! k)
    as G; [|by apply G].
  induction kvs as [|[k1 v1] kvs IH]; intros m1 m2 H; [apply H|]. simpl. apply IH. intros k'.
  destruct (decide (k' = k1)) as [->|]; [by rewrite !lookup_insert_eq|by rewrite !lookup_insert_ne].
Qed.

Lemma omap_id_some {A} (l : list A) : omap id (Some <$> l) = l.
Proof. induction l as [|x l IH]; [done|]. csimpl. by rewrite IH. Qed.

(** ** The read actor *)

Lemma drain_reads_split {A} count max_drain (q served rest : list A) :
  drain_reads count max_drain q = (served, rest) →
  q = served ++ rest ∧ length served = Nat.min (max_drain - count) (length q).
Proof.
  revert count served. induction q as [|c q IH]; intros count served; simpl.
  { intros [= <- <-]. split; [done|simpl; lia]. }
  destruct (Nat.ltb_spec count max_drain).
  - destruct (drain_reads (S count) max_drain q) as [served' rest'] eqn:E. intros [= <- <-].
    destruct (IH _ _ E) as [-> L]. split; [done|]. simpl. lia.
  - intros [= <- <-]. split; [done|]. simpl. lia.
Qed.

(** A wake-up serves the commands at the front of the queue, at least one and at most
    [max_drain] of them. *)
Lemma actor_wake_split {A} max_drain (q served rest : list A) :
  actor_wake max_drain q = (served, rest) →
  q = served ++ rest ∧ length served = Nat.min (Nat.max 1 max_drain) (length q).
Proof.
  unfold actor_wake. destruct q as [|c q]; [intros [= <- <-]; split; [done|simpl; lia]|].
  destruct (drain_reads 1 max_drain q) as [served' rest'] eqn:E. intros [= <- <-].
  destruct (drain_reads_split _ _ _ _ _ E) as [-> L]. split; [done|]. simpl. lia.
Qed.

(** * Correctness of the client interfaces

    The embedded client and the gRPC client, over the same raft loop, send the same
    commands and give the same answers; a read returns the values of the state machine
    that may serve it, aligned with the keys ([ClientApi.v]). *)

From S2P Require Import SnapshotHandler Watch.

(** Two errors redirect the client alike: both or none to the same leader after the same time. *)
Definition same_redirect (e1 e2 : ClientApiError) : Prop :=
  ∀ retry hint, (∃ m, e1 = NetworkError EC_NotLeader m retry hint) ↔ (∃ m, e2 = NetworkError EC_NotLeader m retry hint).

(** The embedded and the gRPC call have results related by [R], or both fail and
    redirect alike; the gRPC call does not panic. *)
Definition agree {A B} (R : A → B → Prop) (embedded : ClientApiResult A) (grpc : option (ClientApiResult B)) : Prop :=
  match embedded, grpc with
  | inl a, Some (inl b) => R a b
  | inr e, Some (inr e') => same_redirect e e'
  | _, _ => False
  end.

Lemma agree_bind {A B A' B'} (R : A → B → Prop) (R' : A' → B' → Prop) e g f1 f2 :
  agree R e g → (∀ a b, R a b → R' (f1 a) (f2 b)) →
  agree R' (let+ a := e in inl (f1 a)) (r ← g; Some (let+ b := r in inl (f2 b))).
Proof. intros H HR. destruct e, g as [[]|]; simpl in *; auto. Qed.

Lemma no_redirect e1 e2 :
  api_error_code e1 ≠ EC_NotLeader → api_error_code e2 ≠ EC_NotLeader → same_redirect e1 e2.
Proof. intros H1 H2 retry hint. split; intros [m ->]; by simpl in *. Qed.

Section clients.
Context (encode_write_command : Wire.WriteCommand → bytes) (debug_api_error : ClientApiError → string).
Context (serve : ClientCall → Outcome ClientResponse) (client_id timeout_ms : N).

(** What the raft loop answers: leader ids are [u32], a status is not a role violation
    of the peer protocol, and a proposal that succeeded has a write result. *)
Record well_behaved : Prop := {
  wb_hint : ∀ c r, serve c = Replied (inl r) → hint_ok r;
  wb_status : ∀ c s, serve c = Replied (inr s) → api_error_code (api_error_from_status None s) ≠ EC_NotLeader;
  wb_write : ∀ q r, serve (CallPropose q) = Replied (inl r) → cresp_error r = EC_Success →
             ∃ b, cresp_result r = Some (WriteResult b);
}.

(** A call to a node that is ready, on a connection that works. *)
Definition call {A} (handler : A → Proto.ClientResponse + Status) : Rpc A := λ req,
  match handler req with inl r => inl r | inr status => inr (status, None) end.

Definition rpc_write : Rpc Proto.ClientWriteRequest := call (handle_client_write encode_write_command serve true).

Definition delivered (r : ClientResponse) (p : Proto.ClientResponse) : Prop :=
  p = to_proto_response r ∧ cresp_error r = EC_Success ∧ ∃ b, cresp_result r = Some (WriteResult b).

Lemma errors_agree r e :
  hint_ok r → cresp_error r ≠ EC_Success → validate_error (to_proto_response r) = Some (inr e) →
  same_redirect (map_error_response (cresp_error r) (cresp_leader_hint r) (cresp_retry_after_ms r)) e.
Proof.
  intros Hh Hr Hv. destruct (decide (cresp_error r = EC_NotLeader)) as [E|E].
  - rewrite (validate_error_refusal r Hh E) in Hv. injection Hv as <-. rewrite E.
    destruct (refusal_mapped r Hh) as [m ->]. intros retry hint. unfold refusal.
    split; intros [m' [= <- <- <-]]; eauto.
  - destruct (validate_error_failure r Hr) as (e' & Hv' & Hc). rewrite Hv in Hv'. injection Hv' as <-.
    apply no_redirect; [|by rewrite Hc]. by destruct (cresp_error r).
Qed.

Lemma write_agree op :
  well_behaved →
  agree delivered (propose encode_write_command serve client_id timeout_ms op)
    (grpc_write client_id rpc_write (write_command_from op)).
Proof.
  intros W. unfold propose, write_op_to_bytes, grpc_write, rpc_write, call, handle_client_write, reply_proto; simpl.
  set (q := mkClientWriteRequest _ _). change (serve (CallPropose (to_core_write_req _ _))) with (serve (CallPropose q)).
  destruct (serve (CallPropose q)) as [| | |[r|s]] eqn:E; simpl; try (by apply no_redirect).
  - case_bool_decide as Hr.
    + rewrite validate_error_success by done. simpl. by split_and!; [..|eapply wb_write].
    + destruct (validate_error_failure r Hr) as (e & Hv & _). rewrite Hv. simpl.
      apply errors_agree; [by eapply wb_hint|done|done].
  - apply no_redirect; [done|]. by eapply wb_status.
Qed.

Lemma delivered_cas r p succeeded :
  delivered r p → cresp_result r = Some (WriteResult succeeded) → response_is_write_success p = succeeded.
Proof.
  intros (-> & E & _) H. unfold response_is_write_success, to_proto_response; simpl. rewrite E, H. by destruct succeeded.
Qed.

(** C27: Over the same raft loop the embedded client and the gRPC client of a ready node answer
    every write alike: the same result, or an error in both that redirects to the
    same leader, if any. *)
Theorem clients_agree_on_writes :
  well_behaved →
  (∀ key value, agree eq (embedded_put encode_write_command serve client_id timeout_ms key value)
                  (grpc_put client_id rpc_write key value))
  ∧ (∀ key value ttl, agree eq (embedded_put_with_ttl encode_write_command serve client_id timeout_ms key value ttl)
                        (grpc_put_with_ttl client_id rpc_write key value ttl))
  ∧ (∀ key, agree eq (embedded_delete encode_write_command serve client_id timeout_ms key)
              (grpc_delete client_id rpc_write key))
  ∧ (∀ ops, agree eq (embedded_batch encode_write_command serve client_id timeout_ms ops)
              (grpc_batch client_id rpc_write ops))
  ∧ (∀ key expected value,
      agree eq (embedded_compare_and_swap encode_write_command serve client_id timeout_ms key expected value)
        (grpc_compare_and_swap client_id rpc_write key expected value)).
Proof.
  intros W. split_and!.
  - intros key value. by apply (agree_bind delivered); [apply (write_agree (WInsert key value None))|].
  - intros key value ttl. by apply (agree_bind delivered); [apply (write_agree (WInsert key value (Some ttl)))|].
  - intros key. by apply (agree_bind delivered); [apply (write_agree (WDelete key))|].
  - intros [|o ops]; [by intros retry hint|].
    by apply (agree_bind delivered); [apply (write_agree (WBatch (o :: ops)))|].
  - intros key expected value. pose proof (write_agree (WCompareAndSwap key expected value) W) as H.
    unfold embedded_compare_and_swap, grpc_compare_and_swap. change (wire_compare_and_swap _ _ _) with
      (write_command_from (WCompareAndSwap key expected value)).
    destruct (propose _ _ _ _ _) as [r|], (grpc_write _ _ _) as [[p|]|]; simpl in *; try done.
    pose proof H as (_ & _ & b & Hb). rewrite Hb. simpl. symmetry. by eapply delivered_cas.
Qed.

(** ** Reads *)

Context {S D : Type} `{!StateMachine S D}.

(** The reader's answers, when it gives any, are the values of the state [m]. A reader that
    is stopped may answer or fail. *)
Definition reads_from (sm : Readable) (m : S) : Prop :=
  ∀ keys values, get_multi sm keys = Ok values → values = (λ k, sm_read k m) <$> keys.

(** Whether a read may be served without the raft loop. *)
Definition served_locally (lease : ReadLease.t) (now : N) (p : ReadConsistencyPolicy) : bool :=
  match p with
  | LinearizableRead => false
  | LeaseRead => ReadLease.is_valid lease now
  | EventualConsistency => true
  end.

Definition answered {A} (r : result A) : bool := match r with Ok _ => true | Err _ => false end.

(** The raft loop answers the reads of [keys] from the state [m], as the leader does. *)
Definition answers_reads (m : S) (keys : list bytes) : Prop :=
  ∀ policy, serve (CallRead (mkClientReadRequest client_id keys policy))
            = Replied (inl (read_results (default [] (read_from_state_machine keys m)))).

Lemma read_from_present keys (m : S) :
  default [] (read_from_state_machine keys m) = omap (λ k, (λ v, (k, v)) <$> sm_read k m) keys.
Proof. unfold read_from_state_machine. by destruct (omap _ keys). Qed.

Lemma align_present keys (m : S) :
  align keys (omap (λ k, (λ v, (k, v)) <$> sm_read k m) keys) = (λ k, sm_read k m) <$> keys.
Proof. apply align_values. intros k v. apply (elem_of_present keys (λ k, sm_read k m)). Qed.

Lemma cmd_tx_path_reads keys (m : S) p :
  answers_reads m keys → cmd_tx_path serve keys p client_id timeout_ms = inl ((λ k, sm_read k m) <$> keys).
Proof. intros H. unfold cmd_tx_path. rewrite H. simpl. by rewrite read_from_present, align_present. Qed.

(** The node's handler, with a read actor that answers. *)
Definition rpc_read (lease : ReadLease.t) (now : N) (sm : Readable) : Rpc Proto.ClientReadRequest :=
  call (handle_client_read debug_api_error serve true timeout_ms
          (Some (λ cmd, ActorReplied (serve_read cmd lease now sm)))).

(** A call of the gRPC client at one node. *)
Lemma grpc_read_call (remote : Rpc Proto.ClientReadRequest) keys p :
  keys ≠ [] →
  grpc_get_multi_with_policy client_id remote remote keys (Some p)
  = (r ← match remote (Proto.mkClientReadRequest client_id keys (Proto.policy_number <$> Some p)) with
         | inl response =>
             sparse ← into_read_results response;
             Some (let+ sparse := sparse in
                   inl ((λ k, foldl (λ m kv, <[kv.1 := kv]> m) (∅ : gmap bytes (bytes * bytes)) (omap id sparse) !! k) <$> keys))
         | inr (status, header) => Some (inr (api_error_from_status header status))
         end;
     Some (let+ entries := r in inl (option_map snd <$> entries : list (option bytes)))).
Proof. intros Hk. by destruct keys, p. Qed.

Section node_reads.
Context (lease : ReadLease.t) (now : N) (sm : Readable) (keys : list bytes) (p : ReadConsistencyPolicy)
  (local raft : S).
Hypothesis Hraft : answers_reads raft keys.
Hypothesis Hlocal : reads_from sm local.

Definition values_in (m : S) : list (option bytes) := (λ k, sm_read k m) <$> keys.

(** The read handle of the service, whose actor does not ask a stopped machine. *)
Lemma standalone_reads :
  standalone_get_batch serve (Some (λ cmd, ActorReplied (serve_read cmd lease now sm))) keys p client_id timeout_ms
  = if served_locally lease now p && is_running sm
    then match get_multi sm keys with
         | Ok _ => inl (values_in local)
         | Err e => inr (server_error (display sm e))
         end
    else inl (values_in raft).
Proof using Hraft Hlocal.
  unfold standalone_get_batch. rewrite (cmd_tx_path_reads keys raft p Hraft). pose proof (Hlocal keys) as Hl.
  destruct p; unfold serve_read; simpl; try done; try destruct (ReadLease.is_valid lease now);
    destruct (is_running sm); try done; simpl; destruct (get_multi sm keys) as [vs|e]; try done;
    by rewrite (Hl vs).
Qed.

(** The read handle of the embedded client, which asks the machine whether or not it runs. *)
Lemma embedded_reads :
  embedded_get_batch serve lease now sm keys p client_id timeout_ms
  = inl (values_in (if served_locally lease now p && answered (get_multi sm keys) then local else raft)).
Proof using Hraft Hlocal.
  unfold embedded_get_batch. rewrite (cmd_tx_path_reads keys raft p Hraft). pose proof (Hlocal keys) as Hl.
  destruct p; simpl; try done; try destruct (ReadLease.is_valid lease now); try done; simpl;
    destruct (get_multi sm keys) as [vs|e]; try done; by rewrite (Hl vs).
Qed.

#[local] Arguments standalone_get_batch : simpl never.

(** A successful answer of the service that carries the values of [m]. *)
Definition carries (r : Proto.ClientResponse + (Status * option string)) (m : S) : Prop :=
  ∃ q, r = inl q ∧
    into_read_results q = Some (inl (Some <$> omap (λ k, (λ v, (k, v)) <$> sm_read k m) keys)).

Lemma rpc_read_response :
  let r := rpc_read lease now sm (Proto.mkClientReadRequest client_id keys (Proto.policy_number <$> Some p)) in
  if served_locally lease now p && is_running sm
  then match get_multi sm keys with Ok _ => carries r local | Err _ => ∃ e, r = inr e end
  else carries r raft.
Proof using Hraft Hlocal.
  unfold rpc_read, call, handle_client_read. simpl. unfold to_core_read_req; simpl.
  rewrite policy_round_trip. pose proof standalone_reads as Hs.
  assert (∀ m, carries (inl (fast_path_batch_read_response keys (values_in m))) m) as Hc.
  { intros m. eexists. split; [done|]. unfold fast_path_batch_read_response, values_in. by rewrite sparse_fmap. }
  destruct p; simpl in *.
  2: { rewrite Hraft. simpl. eexists. split; [done|]. unfold into_read_results. rewrite validate_error_success by done.
       simpl. by rewrite read_from_present. }
  all: rewrite Hs; case_match; [destruct (get_multi sm keys); [apply Hc|by eexists]|apply Hc].
Qed.

Lemma grpc_returns m :
  keys ≠ [] → carries (rpc_read lease now sm (Proto.mkClientReadRequest client_id keys (Proto.policy_number <$> Some p))) m →
  grpc_get_multi_with_policy client_id (rpc_read lease now sm) (rpc_read lease now sm) keys (Some p)
  = Some (inl (values_in m)).
Proof.
  intros Hk (r & Hr & Hs). rewrite grpc_read_call, Hr by done. simpl. rewrite Hs. simpl. by rewrite omap_id_some, align_entries, align_present.
Qed.

Lemma grpc_fails e :
  keys ≠ [] → rpc_read lease now sm (Proto.mkClientReadRequest client_id keys (Proto.policy_number <$> Some p)) = inr e →
  ∃ err, grpc_get_multi_with_policy client_id (rpc_read lease now sm) (rpc_read lease now sm) keys (Some p)
         = Some (inr err).
Proof.
  intros Hk Hr. rewrite grpc_read_call, Hr by done. destruct e. simpl. eauto.
Qed.
End node_reads.


End clients.

(** ** Writes reach the state machine *)

(** Whichever client sends an operation, the bytes that the raft loop is asked to
    replicate decode, in any entry, to the command the operation stands for. *)
Theorem written_operations_are_executed encode decode client_id op index term :
  (∀ c, decode (encode c) = Some c) →
  let bytes := write_op_to_bytes encode op in
  decode_entry decode (mkEntry index term (Some (mkEntryPayload (Some (Command bytes)))))
  = Ok (mkApplyEntry index term (operation_command op))
  ∧ to_core_write_req encode (Proto.mkClientWriteRequest client_id (Some (write_command_from op)))
    = mkClientWriteRequest client_id (Some bytes).
Proof.
  intros H bytes. split; [|done]. unfold decode_entry; simpl. unfold bytes, write_op_to_bytes.
  by rewrite H, command_round_trip.
Qed.

(** ** Watching *)

(** A call to watch leaves the registry as it was and reports the reason, or registers one
    more watcher: its channel has the key and the options that were asked for, and
    is read by the stream. *)
Theorem watch_call_registers s key is_prefix prev_kv r :
  service_watch (Some s) key is_prefix prev_kv = Some r →
  match r with
  | (registry, inr status) => registry = Some s
  | (None, inl _) => False
  | (Some s', inl id) =>
      ∃ ch, ws_channels s' !! id = Some ch ∧ ch_key ch = key ∧ ch_is_prefix ch = is_prefix
            ∧ ch_prev_kv ch = prev_kv ∧ ch_receiving ch = Detached ∧ ws_total_count s' = ws_total_count s + 1
  end.
Proof.
  unfold service_watch. destruct (if is_prefix then _ else _) as [[s1 [id|e]]|] eqn:R; simpl; [| |done].
  - assert (do_register key is_prefix prev_kv s = Some (s1, inl id)) as D.
    { destruct is_prefix; [|done]. unfold register_prefix in R. by destruct (negb _ || negb _). }
    unfold do_register in D. destruct (_ <=? _); [done|]. destruct (max_permits <? _); [done|]. injection D as <- <-.
    unfold into_receiver. destruct is_prefix; simpl; rewrite lookup_insert_eq; simpl; intros [= <-]; simpl;
      (eexists; split; [by rewrite lookup_insert_eq|]; split_and!; (done || lia)).
  - intros [= <-]. f_equal. destruct is_prefix; unfold register_prefix, register, do_register in R;
      repeat case_match; by simplify_eq.
Qed.

(** ** A raft loop to run *)

Definition test_encode (c : Wire.WriteCommand) : bytes :=
  match Wire.operation c with
  | Some (Wire.OInsert i) => Wire.i_key i ++ Wire.i_value i
  | _ => []
  end.

(** A follower that knows its leader, and a leader that answers reads from a map. *)
Definition test_hint : LeaderHint := mkLeaderHint 3 "10.0.0.3:9081".
Definition refusing (c : ClientCall) : Outcome ClientResponse := Replied (inl (not_leader (Some test_hint))).

Lemma clients_agree_on_writes_witness :
  agree eq (embedded_put test_encode refusing 7 1000 [1] [2]) (grpc_put 7 (rpc_write test_encode refusing) [1] [2])
  ∧ embedded_put test_encode refusing 7 1000 [1] [2]
    = inr (NetworkError EC_NotLeader "Not leader, try leader at: 10.0.0.3:9081" (Some 100) (Some test_hint)).
Proof.
  split; [|by vm_compute].
  destruct (clients_agree_on_writes test_encode refusing 7 1000) as [H _]; [|exact (H [1] [2])].
  split; [|done|by intros q r [= <-]]. intros c r [= <-]. unfold hint_ok, u32_max. simpl. lia.
Defined.

Definition map_machine : StateMachine (gmap bytes bytes) unit := {|
  sm_apply := λ _ m, Some (m, Ok []);
  sm_applied_id := λ _, mkLogId 0 0;
  sm_read := λ k m, m !! k;
  sm_install := λ _ _ m, Some (m, Err IoError);
  sm_generate := λ _ m, (m, Err IoError);
|}.

Definition test_state : gmap bytes bytes := {[ [1] := [10]; [3] := [30] ]}.

Definition leading (c : ClientCall) : Outcome ClientResponse :=
  match c with
  | CallRead req => Replied (inl (read_results (default []
      (@read_from_state_machine (gmap bytes bytes) unit map_machine (cr_keys req) test_state))))
  | _ => ReplyTimeout
  end.

(** A machine that holds [m], runs and answers. *)
Definition map_reader (m : gmap bytes bytes) : Readable :=
  mkReadable true (λ keys, Ok ((m !!.) <$> keys)) (λ _, "error"%string).


(** ** The readers of the two state machines *)

(** The file machine answers whether or not it runs. *)
Definition file_reader (show : error → string) (m : Fsm.FileStateMachine) : Readable :=
  mkReadable (Fsm.running m) (λ keys, Ok (Fsm.sm_get_multi keys m)) show.

Lemma file_reader_reads `{!StateMachine Fsm.FileStateMachine D} show m :
  (∀ k, sm_read k m = Fsm.sm_get k m) → reads_from (file_reader show m) m.
Proof.
  intros H keys values [= <-]. unfold Fsm.sm_get_multi. apply list_fmap_ext. intros i k _. by rewrite H.
Qed.

(** The RocksDB machine answers while it is serving, has a database and the reads of the
    database succeed. *)
Definition rocks_reader `{!RocksDB DB Sst} (show : error → string) (m : RocksDBStateMachine DB) : Readable :=
  mkReadable (rs_is_serving m) (λ keys, Rocks.rs_get_multi keys m) show.

Lemma rocks_reader_reads `{!RocksDB DB Sst, !StateMachine (RocksDBStateMachine DB) D} show m :
  (∀ k v, Rocks.rs_get k m = Ok v → sm_read k m = v) → reads_from (rocks_reader show m) m.
Proof.
  intros H keys values. simpl. unfold Rocks.rs_get_multi, Rocks.rs_get in *. destruct (rs_is_serving m); [|done]. simpl in *.
  destruct (rs_db m) as [db|]; [|done]. unfold Rocks.need_cf in *. destruct (db_cf_handle STATE_MACHINE_CF db); [|done].
  simpl in *. revert values. induction keys as [|key keys IH]; intros values; [by intros [= <-]|]. csimpl.
  destruct (db_get STATE_MACHINE_CF key db) as [e|v] eqn:E; [done|]. simpl.
  destruct (Rocks.get_all keys db) as [vs|]; [|done]. intros [= <-]. f_equal; [|by apply IH].
  symmetry. apply H. by rewrite E.
Qed.

(** * The client interfaces: where the code departs from its documentation

    Runs of the clients of [ClientApi.v] against small raft loops. *)

(** A time-to-live of zero seconds means no expiration, in both clients. *)
Theorem zero_ttl_never_expires key value :
  operation_command (WInsert key value (Some 0)) = Cmd.Insert key value None
  ∧ wire_insert_with_ttl key value 0 = write_command_from (WInsert key value None).
Proof. done. Qed.

(** A command whose answer does not come in time: the embedded client reports a network
    error with a time to retry after, the gRPC client an uncategorized business error. *)
Theorem grpc_timeout_is_a_business_error key value :
  let silent : ClientCall → Outcome ClientResponse := λ _, ReplyTimeout in
  embedded_put test_encode silent 7 1000 key value
  = inr (NetworkError EC_ConnectionTimeout "Operation timed out after 1s" (Some 1000) None)
  ∧ grpc_put 7 (rpc_write test_encode silent) key value
    = Some (inr (BusinessError EC_Uncategorized "Unhandled status code: DeadlineExceeded" None)).
Proof. by split. Qed.

(** A lease read at a node that is not the leader: the embedded client is told the leader,
    the gRPC client only that the cluster is unavailable. *)
Theorem grpc_lease_read_loses_the_leader :
  let sm := map_reader ∅ in
  let remote := rpc_read (λ _, "error"%string) refusing 1000 0 5 sm in
  embedded_get_multi_with_policy refusing 7 1000 0 5 sm [[1]] (Some LeaseRead)
  = inr (NetworkError EC_NotLeader "Not leader, try leader at: 10.0.0.3:9081" (Some 100) (Some test_hint))
  ∧ grpc_get_multi_with_policy 7 remote remote [[1]] (Some LeaseRead)
    = Some (inr (BusinessError EC_ClusterUnavailable "Not leader, try leader at: 10.0.0.3:9081"
                   (Some "Retry after cluster recovery"%string))).
Proof. by split; vm_compute. Qed.

(** [get] asks for no policy over gRPC, so the node applies its default, which need not be
    linearizable. *)
Theorem grpc_get_has_no_policy key (reply : Proto.ClientResponse + (Status * option string)) :
  ∃ req, grpc_get_with_policy 7 (λ r, if bool_decide (Proto.r_consistency_policy r = None) then reply
                                      else inr (Cancelled "unexpected", None)) (λ _, inr (Cancelled "unexpected", None))
           key None
         = (r ← grpc_get_multi_entries 7 (λ _, reply) (λ _, reply) [key] None;
            Some (let+ entries := r in inl (snd <$> pop_flatten entries)))
         ∧ req = Proto.mkClientReadRequest 7 [key] None ∧ consistency_policy (to_core_read_req req) = None.
Proof. by eexists. Qed.

(** The result for no keys differs: an empty list from the embedded client, an error from
    the gRPC client. *)
Theorem clients_differ_on_no_keys :
  let sm := map_reader ∅ in
  let remote := rpc_read (λ _, "error"%string) leading 1000 0 5 sm in
  embedded_get_multi_with_policy leading 7 1000 0 5 sm [] (Some LinearizableRead) = inl []
  ∧ grpc_get_multi_with_policy 7 remote remote [] (Some LinearizableRead)
    = Some (inr (BusinessError EC_InvalidRequest "Invalid request" (Some "check request parameters"%string))).
Proof. by split; vm_compute. Qed.

(** The codes of failures other than a refusal reach a gRPC client, but not an embedded one. *)
Theorem embedded_client_hides_the_code key value :
  let failing : ClientCall → Outcome ClientResponse := λ _, Replied (inl (client_error EC_ProposeFailed)) in
  embedded_put test_encode failing 7 1000 key value
  = inr (BusinessError EC_Uncategorized "Error code: ProposeFailed" None)
  ∧ grpc_put 7 (rpc_write test_encode failing) key value
    = Some (inr (BusinessError EC_ProposeFailed "Propose failed" (Some "try again later"%string))).
Proof. by split. Qed.

(** A read the node may answer by itself, when its file machine has been stopped: the
    embedded client is answered from the stopped machine, the gRPC client from the raft
    loop. *)
Theorem stopped_file_machine_still_answers (m : Fsm.FileStateMachine) show :
  Fsm.running m = false →
  let sm := file_reader show m in
  let remote := rpc_read (λ _, "error"%string) leading 1000 0 5 sm in
  embedded_get_multi_with_policy leading 7 1000 0 5 sm [[1]] (Some EventualConsistency) = inl [Fsm.sm_get [1] m]
  ∧ grpc_get_multi_with_policy 7 remote remote [[1]] (Some EventualConsistency) = Some (inl [Some [10]]).
Proof.
  intros H sm remote. split; [done|]. unfold remote, rpc_read, sm, file_reader. rewrite H. by vm_compute.
Qed.
