(* ===== verification/ConnectionPool.v ===== *)
(** * The connections of a gRPC client

    [d-engine-client/src/pool.rs] and [address_str] of [d-engine-client/src/utils.rs]:
    finding the leader among the endpoints, with retries until a deadline, and the
    channels a client keeps.

    A channel is the address it leads to. The network is a pair of functions of the
    time: the answer of an endpoint to a probe and whether a connection to an address
    succeeds, each with the time it took. *)

From stdpp Require Import base tactics numbers option list strings.
From S2P Require Import Prelude Types Events SnapshotFiles ClientWire.

(** ** Data *)

Record ClientConfig := mkClientConfig {
  cc_id : N;
  connect_timeout : N;
  request_timeout : N;
  tcp_keepalive : N;
  http2_keepalive_interval : N;
  http2_keepalive_timeout : N;
  max_frame_size : N;
  enable_compression : bool;
  cluster_ready_timeout : N;
}.

(** [ClientConfig::default], in milliseconds; the id is the time in seconds, as a [u32]. *)
Definition default_client_config (now_secs : N) : ClientConfig :=
  mkClientConfig (now_secs mod (u32_max + 1)) 1000 3000 300000 60000 20000 1048576 false 5000.

Record ConnectionPool := mkConnectionPool {
  leader_conn : string;
  follower_conns : list string;
  pool_config : ClientConfig;
  pool_members : list NodeMeta;
  endpoints : list string;
  current_leader_id : option N;
}.

Definition get_all_channels (p : ConnectionPool) : list string := follower_conns p ++ [leader_conn p].

(** ** Addresses *)

Definition address_str (addr : string) : string :=
  if starts_with "https://" addr then addr
  else if starts_with "http://" addr then addr
  else "http://" +:+ addr.

Definition cluster_unavailable : ClientApiError :=
  BusinessError EC_ClusterUnavailable "Cluster unavailable" (Some "try again later"%string).

(** The last node with the leader's id, and the others in order. *)
Fixpoint split_leader (leader_id : N) (nodes : list NodeMeta) (leader : option string) (followers : list string)
    : option string * list string :=
  match nodes with
  | [] => (leader, followers)
  | n :: nodes' =>
      if nm_id n =? leader_id then split_leader leader_id nodes' (Some (address_str (nm_address n))) followers
      else split_leader leader_id nodes' leader (followers ++ [address_str (nm_address n)])
  end.

Definition parse_cluster_metadata (m : ClusterMembership) : ClientApiResult (string * list string) :=
  match cms_current_leader_id m with
  | None => inr cluster_unavailable
  | Some leader_id =>
      match split_leader leader_id (cms_nodes m) None [] with
      | (Some addr, followers) => inl (addr, followers)
      | (None, _) => inr cluster_unavailable
      end
  end.

(** ** Finding the leader *)

Definition RETRY_BACKOFF_MS : N := 200.

Section network.
(** What an endpoint answers to a metadata request at a time, if it is reached, and how
    long that takes; whether a connection succeeds, and how long. *)
Context (probe : N → string → option ClusterMembership * N).
Context (connect : N → string → bool * N).

(** [probe_endpoint]: [Some (Some m)] ready, [Some None] not ready, [None] unreachable. *)
Definition probe_endpoint (now : N) (addr : string) : option (option ClusterMembership) * N :=
  let '(answer, took) := probe now addr in
  (match answer with
   | None => None
   | Some m =>
       let ready := match cms_current_leader_id m with
                    | Some leader_id => existsb (λ n, nm_id n =? leader_id) (cms_nodes m)
                    | None => false
                    end in
       if ready then Some (Some m) else Some None
   end, took).

Definition create_channel (now : N) (addr : string) : bool * N := connect now addr.

(** The end of a pass over the endpoints: an answer, or the time to go on. *)
Inductive Pass :=
  | Found (m : ClusterMembership) (leader : string) (now : N)
  | Expired (now : N)
  | Exhausted (now : N).

Fixpoint probe_round (deadline now : N) (eps : list string) : Pass :=
  match eps with
  | [] => Exhausted now
  | addr :: eps' =>
      if deadline <=? now then Expired now
      else
        let '(answer, took) := probe_endpoint now addr in
        let now := now + took in
        match answer with
        | Some (Some m) =>
            if deadline <=? now then Expired now
            else match parse_cluster_metadata m with
                 | inr _ => probe_round deadline now eps'
                 | inl (leader_addr, _) =>
                     let '(ok, took) := create_channel now leader_addr in
                     if ok then Found m leader_addr (now + took) else probe_round deadline (now + took) eps'
                 end
        | Some None | None => probe_round deadline now eps'
        end
  end.

(** The retry loop. [None]: out of fuel. The last component is the time at the end. *)
Fixpoint load_cluster_metadata (fuel : nat) (deadline now : N) (eps : list string)
    : option (ClientApiResult (ClusterMembership * string) * N) :=
  match fuel with
  | O => None
  | S fuel =>
      match probe_round deadline now eps with
      | Found m leader now => Some (inl (m, leader), now)
      | Expired now => Some (inr cluster_unavailable, now)
      | Exhausted now =>
          let remaining := deadline - now in
          if remaining =? 0 then Some (inr cluster_unavailable, now)
          else load_cluster_metadata fuel deadline (now + N.min RETRY_BACKOFF_MS remaining) eps
      end
  end.

(** Connections to the followers are made in parallel; those that fail are left out. *)
Definition build_connections (fuel : nat) (now : N) (eps : list string) (config : ClientConfig)
    : option (ClientApiResult (string * list string * list NodeMeta * option N)) :=
  let! r := load_cluster_metadata fuel (now + cluster_ready_timeout config) now eps in
  let '(found, now) := r in
  Some (let+ p := found in
        let+ addrs := parse_cluster_metadata p.1 in
        inl (p.2, filter (λ a, (create_channel now a).1 = true) addrs.2, cms_nodes p.1, cms_current_leader_id p.1)).

Definition create (fuel : nat) (now : N) (eps : list string) (config : ClientConfig)
    : option (ClientApiResult ConnectionPool) :=
  let! r := build_connections fuel now eps config in
  Some (let+ c := r in
        let '(leader, followers, members, leader_id) := c in
        inl (mkConnectionPool leader followers config members eps leader_id)).

(** The pool after the call, and its result. *)
Definition refresh (fuel : nat) (now : N) (new_endpoints : option (list string)) (p : ConnectionPool)
    : option (ConnectionPool * ClientApiResult unit) :=
  let eps := default (endpoints p) new_endpoints in
  let! r := build_connections fuel now eps (pool_config p) in
  Some match r with
       | inl (leader, followers, members, leader_id) =>
           (mkConnectionPool leader followers (pool_config p) members eps leader_id, inl tt)
       | inr e => (p, inr e)
       end.

(** ** The client *)

Record ClientInner := mkClientInner {
  ci_pool : ConnectionPool;
  ci_client_id : N;
  ci_config : ClientConfig;
  ci_endpoints : list string;
}.

(** [Client::builder] and [ClientBuilder::build] with a configuration; an empty list of
    endpoints panics. *)
Definition build (fuel : nat) (now : N) (eps : list string) (config : ClientConfig)
    : option (ClientApiResult ClientInner) :=
  match eps with
  | [] => None
  | _ => let! r := create fuel now eps config in
         Some (let+ pool := r in inl (mkClientInner pool (cc_id config) config eps))
  end.

(** [Client::refresh]: the client after the call, and its result. *)
Definition client_refresh (fuel : nat) (now : N) (new_endpoints : option (list string)) (c : ClientInner)
    : option (ClientInner * ClientApiResult unit) :=
  let eps := default (ci_endpoints c) new_endpoints in
  let! r := create fuel now eps (ci_config c) in
  Some match r with
       | inl pool => (mkClientInner pool (ci_client_id c) (ci_config c) eps, inl tt)
       | inr e => (c, inr e)
       end.
End network.

(** ** What is found *)

Lemma split_leader_found id nodes leader followers addr fs :
  split_leader id nodes leader followers = (Some addr, fs) →
  leader = Some addr ∨ ∃ n, n ∈ nodes ∧ nm_id n = id ∧ addr = address_str (nm_address n).
Proof.
  revert leader followers. induction nodes as [|n nodes IH]; intros leader followers; simpl.
  { intros [= -> _]. by left. }
  case_bool.
  - intros [[= <-]|(n' & ? & ? & ?)]%IH; right; [exists n|exists n']; split_and!; try done; [by left|by right].
  - intros [->|(n' & ? & ? & ?)]%IH; [by left|right; exists n'; split_and!; try done; by right].
Qed.

Lemma split_leader_some id nodes leader followers :
  is_Some leader ∨ existsb (λ n, nm_id n =? id) nodes = true → is_Some (split_leader id nodes leader followers).1.
Proof.
  revert leader followers. induction nodes as [|n nodes IH]; intros leader followers; simpl.
  { by intros [?|?]. }
  destruct (nm_id n =? id); simpl; intros H; apply IH; [eauto|done].
Qed.

(** The address of the leader in a membership. *)
Definition leads (m : ClusterMembership) (addr : string) : Prop :=
  ∃ id n, cms_current_leader_id m = Some id ∧ n ∈ cms_nodes m ∧ nm_id n = id ∧ addr = address_str (nm_address n).

Lemma parse_found m addr fs : parse_cluster_metadata m = inl (addr, fs) → leads m addr.
Proof.
  unfold parse_cluster_metadata. destruct (cms_current_leader_id m) as [id|] eqn:E; [|done].
  destruct (split_leader id (cms_nodes m) None []) as [[a|] fs'] eqn:Hs; [|done]. intros [= <- <-].
  destruct (split_leader_found _ _ _ _ _ _ Hs) as [|(n & ? & ? & ?)]; [done|]. by exists id, n.
Qed.

Section found.
Context (probe : N → string → option ClusterMembership * N).
Context (connect : N → string → bool * N).

(** The branch of [load_cluster_metadata] that calls itself a bug is not reached. *)
Lemma ready_parses now addr m took :
  probe_endpoint probe now addr = (Some (Some m), took) → ∃ leader fs, parse_cluster_metadata m = inl (leader, fs).
Proof.
  unfold probe_endpoint, parse_cluster_metadata. destruct (probe now addr) as [[m'|] t]; [|done].
  destruct (cms_current_leader_id m') as [id|] eqn:E; [|done].
  destruct (existsb _ _) eqn:R; [|done]. intros [= -> ->]. rewrite E.
  destruct (split_leader_some id (cms_nodes m) None []) as [a Ha]; [by right|].
  destruct (split_leader id (cms_nodes m) None []) as [? fs]. simpl in Ha. subst. eauto.
Qed.

Lemma round_found deadline now eps m leader now' :
  probe_round probe connect deadline now eps = Found m leader now' →
  leads m leader ∧ ∃ addr t t', addr ∈ eps ∧ (probe t addr).1 = Some m ∧ (connect t' leader).1 = true ∧ t' < deadline.
Proof.
  revert now. induction eps as [|addr eps IH]; intros now; simpl; [done|]. case_bool; [done|].
  assert (∀ now, probe_round probe connect deadline now eps = Found m leader now' →
    leads m leader ∧ ∃ a t t', a ∈ addr :: eps ∧ (probe t a).1 = Some m ∧ (connect t' leader).1 = true ∧ t' < deadline)
    as Next.
  { intros t Ht. destruct (IH t Ht) as (? & a & t1 & t2 & ? & ?). split; [done|]. exists a, t1, t2.
    split; [by right|done]. }
  destruct (probe_endpoint probe now addr) as [[[m1|]|] took] eqn:P; try apply Next.
  case_bool; [done|]. destruct (parse_cluster_metadata m1) as [[la fs]|] eqn:Pm; [|apply Next].
  unfold create_channel. destruct (connect (now + took) la) as [[] took'] eqn:Cn; [|apply Next].
  intros [= -> -> _]. split; [by eapply parse_found|]. exists addr, now, (now + took).
  split_and!; [by left| |by rewrite Cn|lia].
  unfold probe_endpoint in P. destruct (probe now addr) as [[m2|] t2]; [|done]. simpl.
  destruct (match cms_current_leader_id m2 with Some _ => _ | None => _ end); by simplify_eq.
Qed.

(** ** The loop ends *)

Lemma round_time deadline now eps now' :
  probe_round probe connect deadline now eps = Exhausted now' → now <= now'.
Proof.
  revert now. induction eps as [|addr eps IH]; intros now; simpl; [intros [= ->]; lia|]. case_bool; [done|].
  destruct (probe_endpoint probe now addr) as [[[m1|]|] took]; try (intros Ht%IH; lia).
  case_bool; [done|]. destruct (parse_cluster_metadata m1) as [[la fs]|]; [|intros Ht%IH; lia].
  destruct (create_channel connect (now + took) la) as [[] took']; [done|intros Ht%IH; lia].
Qed.

Lemma expired_late deadline now eps now' :
  probe_round probe connect deadline now eps = Expired now' → deadline <= now'.
Proof.
  revert now. induction eps as [|addr eps IH]; intros now; simpl; [done|]. case_bool; [by intros [= <-]|].
  destruct (probe_endpoint probe now addr) as [[[m1|]|] took]; try apply IH.
  case_bool; [by intros [= <-]|]. destruct (parse_cluster_metadata m1) as [[la fs]|]; [|apply IH].
  destruct (create_channel connect (now + took) la) as [[] took']; [done|apply IH].
Qed.

(** The passes that fit before the deadline: each but the last one sleeps the full backoff. *)
Definition enough_fuel (deadline now : N) : nat := (2 + N.to_nat ((deadline - now) / RETRY_BACKOFF_MS))%nat.

Lemma load_terminates fuel deadline now eps :
  (enough_fuel deadline now <= fuel)%nat →
  is_Some (load_cluster_metadata probe connect fuel deadline now eps).
Proof.
  revert now. induction fuel as [|fuel IH]; intros now Hf; [by apply Nat.nle_succ_0 in Hf|]. simpl.
  destruct (probe_round probe connect deadline now eps) as [m l t|t|t] eqn:R; [eauto..|].
  apply round_time in R. case_bool; [eauto|]. destruct (N.le_gt_cases RETRY_BACKOFF_MS (deadline - t)) as [L|L].
  - apply IH. rewrite N.min_l by done. unfold enough_fuel, RETRY_BACKOFF_MS in *.
    assert ((deadline - (t + 200)) / 200 + 1 <= (deadline - now) / 200) as D.
    { rewrite <- (N.div_add _ 1 200) by done. apply N.Div0.div_le_mono. lia. }
    revert D Hf. generalize ((deadline - (t + 200)) / 200), ((deadline - now) / 200). lia.
  - rewrite N.min_r by lia. destruct fuel as [|fuel]; [by apply le_S_n, Nat.nle_succ_0 in Hf|]. simpl.
    replace (t + (deadline - t)) with deadline by lia.
    destruct eps as [|addr eps]; simpl; [rewrite N.sub_diag; simpl; eauto|].
    rewrite N.leb_refl. eauto.
Qed.

(** C36: With the fuel for its deadline the search ends. It either returns a membership that
    one of the endpoints reported, with a connection, made before the deadline, to the
    node this membership names as leader; or it reports that the cluster is
    unavailable, and then the deadline has passed. *)
Theorem leader_search_ends deadline now eps :
  ∃ r now', load_cluster_metadata probe connect (enough_fuel deadline now) deadline now eps = Some (r, now')
  ∧ match r with
    | inl (m, leader) =>
        leads m leader
        ∧ ∃ addr t t', addr ∈ eps ∧ (probe t addr).1 = Some m ∧ (connect t' leader).1 = true ∧ t' < deadline
    | inr e => e = cluster_unavailable ∧ deadline <= now'
    end.
Proof.
  destruct (load_terminates (enough_fuel deadline now) deadline now eps) as [[r now'] H]; [done|].
  exists r, now'. split; [done|]. revert now H. generalize (enough_fuel deadline) as fuel. intros fuel now.
  generalize (fuel now). clear fuel. intros fuel. revert now. induction fuel as [|fuel IH]; intros now; simpl; [done|].
  destruct (probe_round probe connect deadline now eps) as [m l t|t|t] eqn:R.
  - intros [= <- <-]. by eapply round_found.
  - intros [= <- <-]. split; [done|]. by apply expired_late in R.
  - case_bool; [intros [= <- <-]; split; [done|lia]|]. apply IH.
Qed.

Lemma search_found fuel deadline now eps m leader now' :
  load_cluster_metadata probe connect fuel deadline now eps = Some (inl (m, leader), now') → leads m leader.
Proof.
  revert now. induction fuel as [|fuel IH]; intros now; simpl; [done|].
  destruct (probe_round probe connect deadline now eps) as [m1 l t|t|t] eqn:R; [|done|].
  - intros [= -> -> _]. by eapply round_found.
  - case_bool; [done|]. apply IH.
Qed.

(** After a refresh that succeeds, the client's leader connection leads to the node
    that its member list has under the leader id it reports; one that fails leaves
    the client as it was. *)
Theorem refreshed_client_follows_the_leader fuel now eps c c' r :
  client_refresh probe connect fuel now eps c = Some (c', r) →
  match r with
  | inl _ => ∃ id n, current_leader_id (ci_pool c') = Some id ∧ n ∈ pool_members (ci_pool c') ∧ nm_id n = id
                     ∧ leader_conn (ci_pool c') = address_str (nm_address n)
  | inr _ => c' = c
  end.
Proof.
  unfold client_refresh, create, build_connections.
  destruct (load_cluster_metadata _ _ _ _ _ _) as [[[[m leader]|e] t]|] eqn:L; simpl; [..|done].
  - destruct (parse_cluster_metadata m) as [[a fs]|]; simpl; intros [= <- <-]; [|done]. simpl.
    by apply search_found in L.
  - by intros [= <- <-].
Qed.

End found.
