(* ===== verification/AppendStream.v ===== *)
(** * The append stream of a node

    [stream_append_entries] of [d-engine-server/src/network/grpc/grpc_raft_service.rs]: the
    other end of the stream of [ReplicationWorker.v]. One task reads requests and hands each
    to the raft loop with a reply channel; another sends the replies back in the order
    of the requests, whatever the order in which the loop answers. The two tasks, the
    raft loop and the leader interleave; a step of [stream_next] is one of them moving.

    The reply channel of the [i]-th request that was handed over is the number [i]. *)

From stdpp Require Import base tactics numbers option list gmap strings.
From S2P Require Import Prelude Types Events.

Definition StreamItem : Type := AppendEntriesResponse + Status.

Record AppendStream := mkAppendStream {
  (** whether the reading and the forwarding task run *)
  receiving : bool;
  forwarding : bool;
  (** requests handed to the raft loop, oldest first *)
  dispatched : list AppendEntriesRequest;
  (** a reply channel that waits for room in the ordered queue *)
  waiting : option nat;
  ordered : list nat;
  (** what became of the reply channels: an answer, or dropped *)
  replies : gmap nat (option StreamItem);
  sent_back : list StreamItem;
}.

#[global] Instance AppendStream_settable : Settable AppendStream := λ r,
  mkAppendStream (receiving r) (forwarding r) (dispatched r) (waiting r) (ordered r) (replies r) (sent_back r).

Definition open_append_stream : AppendStream := mkAppendStream true true [] None [] ∅ [].

Inductive StreamStep :=
  (** a request arrives; whether the queue of the raft loop is open *)
  | RequestArrives (req : AppendEntriesRequest) (loop_open : bool)
  (** the reading task puts the reply channel in the ordered queue *)
  | ReplyQueued
  (** shutdown, the end of the stream, or an error on it *)
  | ReadingEnds
  (** the raft loop answers a request or drops its reply channel *)
  | LoopAnswers (i : nat) (r : option StreamItem)
  (** the forwarding task sends the next answer; whether the leader still listens *)
  | Forwards (listening : bool).

(** What the forwarding task makes of a reply. *)
Definition forwarded (r : option StreamItem) : StreamItem :=
  match r with
  | Some item => item
  | None => inr (Internal "Response channel closed")
  end.

Section stream.
Context (ordered_channel_capacity : nat).

Definition stream_next (s : StreamStep) (st : AppendStream) : option AppendStream :=
  match s with
  | RequestArrives req loop_open =>
      if receiving st && bool_decide (waiting st = None)
      then Some (if loop_open
                 then st <| dispatched ::= (λ l, l ++ [req]) |> <| waiting := Some (length (dispatched st)) |>
                 else st <| receiving := false |>)
      else None
  | ReplyQueued =>
      match waiting st with
      | None => None
      | Some i =>
          if negb (receiving st) then None
          else if negb (forwarding st) then Some (st <| waiting := None |> <| receiving := false |>)
          else if (length (ordered st) <? ordered_channel_capacity)%nat
          then Some (st <| waiting := None |> <| ordered ::= (λ l, l ++ [i]) |>)
          else None
      end
  | ReadingEnds =>
      if receiving st && bool_decide (waiting st = None) then Some (st <| receiving := false |>) else None
  | LoopAnswers i r =>
      if (i <? length (dispatched st))%nat && bool_decide (replies st !! i = None)
      then Some (st <| replies ::= <[i := r]> |>) else None
  | Forwards listening =>
      if negb (forwarding st) then None
      else match ordered st with
           | [] => if receiving st then None else Some (st <| forwarding := false |>)
           | i :: rest =>
               match replies st !! i with
               | None => None
               | Some r =>
                   let st := st <| ordered := rest |> in
                   Some (if listening then st <| sent_back ::= (λ l, l ++ [forwarded r]) |>
                         else st <| forwarding := false |>)
               end
           end
  end.

Fixpoint stream_run (ss : list StreamStep) (st : AppendStream) : option AppendStream :=
  match ss with
  | [] => Some st
  | s :: ss' => stream_next s st ≫= stream_run ss'
  end.

(** ** Order *)

Definition arrivals (ss : list StreamStep) : list AppendEntriesRequest :=
  omap (λ s, match s with RequestArrives req true => Some req | _ => None end) ss.

(** While the forwarding task runs, the reply channels that are queued are those of the
    requests after the ones that were answered. *)
Record stream_inv (st : AppendStream) : Prop := {
  si_sent : ∀ i item, sent_back st !! i = Some item → ∃ r, replies st !! i = Some r ∧ item = forwarded r;
  si_bound : (length (sent_back st) <= length (dispatched st))%nat;
  si_queue : forwarding st = true →
    ∃ k, ordered st = seq (length (sent_back st)) k
         ∧ (length (sent_back st) + k + from_option (λ _, 1) 0 (waiting st) = length (dispatched st))%nat;
  si_waiting : ∀ i, waiting st = Some i → S i = length (dispatched st);
}.

Lemma answer_inv i r st :
  stream_inv st → replies st !! i = None → stream_inv (st <| replies ::= <[i := r]> |>).
Proof.
  intros [S B Q W] N. split; try done. intros j item Hj. simpl in *. destruct (S j item Hj) as (r' & Hr & ->).
  exists r'. split; [|done]. rewrite lookup_insert_ne; [done|]. intros <-. by rewrite N in Hr.
Qed.

Lemma forward_inv listening st st' :
  stream_inv st → stream_next (Forwards listening) st = Some st' → stream_inv st'.
Proof.
  intros [S B Q W]. simpl. destruct (forwarding st) eqn:F; [|done]. destruct (Q eq_refl) as (k & Ho & Hk). simpl.
  destruct (ordered st) as [|i rest] eqn:O; [destruct (receiving st); [done|]; intros [= <-]; by split|].
  destruct (replies st !! i) as [r|] eqn:R; [|done]. intros [= <-].
  destruct k as [|k]; [done|]. simpl in Ho. injection Ho as -> ->.
  destruct listening; [|by split]. split; simpl.
  - intros j item [[_ Hj]|[-> <-]]%lookup_snoc_Some; [by apply S|eauto].
  - rewrite length_app; simpl. lia.
  - intros _. exists k. rewrite length_app; simpl. rewrite Nat.add_1_r. split; [done|lia].
  - done.
Qed.

Lemma step_inv s st st' : stream_inv st → stream_next s st = Some st' → stream_inv st'.
Proof.
  intros I H. destruct s as [req b| | |i r|listening]; [..|by eapply forward_inv]; simpl in H.
  - destruct (receiving st) eqn:Rc; [|done]. simpl in H. case_bool_decide as Wt; [|done]. injection H as <-.
    destruct I as [S B Q W]. destruct b; [|by split]. split; simpl.
    + done.
    + rewrite length_app; simpl. lia.
    + intros F. destruct (Q F) as (k & ? & Hk). exists k. split; [done|]. rewrite Wt in Hk. rewrite length_app.
      simpl in *. lia.
    + intros i [= <-]. rewrite length_app; simpl. lia.
  - destruct (waiting st) as [i|] eqn:Wt; [|done]. destruct I as [S B Q W]. destruct (receiving st); [|done]. simpl in H.
    destruct (forwarding st) eqn:F; simpl in H; [|injection H as <-; split; simpl; try done; by rewrite F].
    destruct (_ <? _)%nat; [|done]. injection H as <-. split; simpl; try done.
    intros _. destruct (Q eq_refl) as (k & Ho & Hk). rewrite Wt in Hk. simpl in Hk. specialize (W i Wt).
    exists (Datatypes.S k). rewrite seq_S, Ho. split; [f_equal; f_equal; lia|lia].
  - destruct (receiving st && _); [|done]. injection H as <-. by destruct I.
  - destruct (_ <? _)%nat; [|done]. simpl in H. case_bool_decide; [|done]. injection H as <-. by apply answer_inv.
Qed.

Lemma run_dispatched ss st st' : stream_run ss st = Some st' → dispatched st' = dispatched st ++ arrivals ss.
Proof.
  revert st. induction ss as [|s ss IH]; intros st; simpl; [intros [= ->]; by rewrite app_nil_r|].
  destruct (stream_next s st) as [st1|] eqn:H; [|done]. simpl. intros ->%IH.
  destruct s as [req b| | |i r|listening]; simpl in H.
  - destruct (_ && _); [|done]. injection H as <-. destruct b; simpl; [|done]. by rewrite <- app_assoc.
  - repeat case_match; by simplify_eq.
  - repeat case_match; by simplify_eq.
  - repeat case_match; by simplify_eq.
  - repeat case_match; by simplify_eq.
Qed.

(** C29: The [i]-th message on the stream back to the leader is the answer to the [i]-th
    request that came in on it, in whatever order the raft loop answered; a reply
    channel the loop dropped shows as an error in its place. *)
Theorem stream_answers_in_order ss st :
  stream_run ss open_append_stream = Some st →
  dispatched st = arrivals ss
  ∧ (length (sent_back st) <= length (arrivals ss))%nat
  ∧ ∀ i item, sent_back st !! i = Some item → ∃ r, replies st !! i = Some r ∧ item = forwarded r.
Proof.
  intros H. pose proof (run_dispatched _ _ _ H) as D. simpl in D.
  assert (stream_inv st) as [S B _ _].
  { assert (stream_inv open_append_stream) as I by (split; simpl; [done|lia|by exists 0%nat|done]).
    revert H I. generalize open_append_stream. clear D. induction ss as [|s ss IH]; intros st0; simpl.
    { by intros [= ->]. }
    destruct (stream_next s st0) as [st1|] eqn:E; [|done]. intros H I. apply (IH st1 H). by eapply step_inv. }
  rewrite <- D. by split_and!.
Qed.

End stream.

(** Two requests, answered in the other order. *)
Lemma stream_answers_in_order_witness :
  let req := mkAppendEntriesRequest 1 1 0 0 [] 0 in
  let a n := response_success n 1 None in
  let ss := [RequestArrives req true; ReplyQueued; RequestArrives req true; ReplyQueued;
             LoopAnswers 1 (Some (inl (a 2))); LoopAnswers 0 (Some (inl (a 1))); Forwards true; Forwards true] in
  ∃ st, stream_run 4 ss open_append_stream = Some st ∧ sent_back st = [inl (a 1); inl (a 2)]
        ∧ dispatched st = arrivals ss.
Proof.
  intros req a ss. eexists. split; [vm_compute; reflexivity|]. split; [done|].
  apply (stream_answers_in_order 4 ss). by vm_compute.
Defined.
