(* ===== verification/Transport.v ===== *)
(** * Connections to peers

    The calls a node makes to its peers
    ([d-engine-server/src/network/grpc/grpc_transport.rs]) and what they rest on: the
    cache of connections ([network/connection_cache.rs]), the count of failures per
    peer ([network/health_monitor.rs]), the retries ([d-engine-core/src/network/mod.rs],
    [d-engine-server/src/utils/async_task.rs]), the connection methods of
    [d-engine-server/src/membership/raft_membership.rs], and the start of a node
    ([d-engine-server/src/node/mod.rs]).

    tonic opens connections and carries calls: the outcome of a connection, of a call
    and of the attempts of a task are arguments. Times are milliseconds. *)

From stdpp Require Import base tactics numbers option list gmap strings.
From S2P Require Import Prelude Types Events CommitHandler Membership Config SnapshotFiles.

(** ** Errors *)

(** The variants of [NetworkError] that these calls return. *)
Inductive NetworkError :=
  | ServiceUnavailable (msg : string)
  | ConnectError (msg : string)
  | RetryTimeoutAfter (timeout_ms : N)
  | EmptyPeerList (request_type : string)
  | PeerConnectionNotFound (peer_id : N)
  | TonicStatusError (s : Status)
  | TaskFailed
  | TaskBackoffFailed (msg : string).

(** ** Addresses *)

(** [str::trim_start_matches]; each match shortens the string. *)
Fixpoint trim_start_matches_loop (fuel : nat) (pat s : string) : string :=
  match fuel with
  | O => s
  | S fuel => match strip_prefix pat s with
              | Some s' => trim_start_matches_loop fuel pat s'
              | None => s
              end
  end.

Definition trim_start_matches (pat s : string) : string := trim_start_matches_loop (String.length s) pat s.

Definition node_address_str (addr : string) : string :=
  "http://" +:+ trim_start_matches "https://" (trim_start_matches "http://" addr).

(** ** The connection cache *)

Inductive ConnectionType := Control | Data | Bulk.

#[global] Instance ConnectionType_eq_dec : EqDecision ConnectionType.
Proof. solve_decision. Defined.

#[global] Instance ConnectionType_countable : Countable ConnectionType.
Proof.
  refine (inj_countable' (λ c, match c with Control => 0 | Data => 1 | Bulk => 2 end)
            (λ n : N, match n with 0 => Control | 1 => Data | _ => Bulk end) _).
  by intros [].
Defined.

Definition all_connection_types : list ConnectionType := [Control; Data; Bulk].

(** A connection leads to an address and was opened with the parameters of its type. *)
Record PeerChannel := mkPeerChannel { ch_address : string; ch_params : ConnectionParams.t }.

Record CachedChannel := mkCachedChannel {
  cached_channel : PeerChannel;
  cached_address : string;
  last_used : N;
}.

Abbreviation ConnectionCache := (gmap (N * ConnectionType) CachedChannel).

Section cache.
Context (config : NetworkConfig.t).

Definition conn_params (conn_type : ConnectionType) : ConnectionParams.t :=
  match conn_type with
  | Control => NetworkConfig.control config
  | Data => NetworkConfig.data config
  | Bulk => NetworkConfig.bulk config
  end.

(** [dial] is the failure of the connection, if it fails. *)
Definition cache_create_channel (address : string) (conn_type : ConnectionType) (dial : option string)
    : PeerChannel + NetworkError :=
  match dial with
  | None => inl (mkPeerChannel address (conn_params conn_type))
  | Some e => inr (ConnectError e)
  end.

Definition get_channel (now node_id : N) (conn_type : ConnectionType) (current_address : string)
    (dial : option string) (cache : ConnectionCache) : ConnectionCache * (PeerChannel + NetworkError) :=
  let slow :=
    match cache_create_channel current_address conn_type dial with
    | inr e => (cache, inr e)
    | inl channel =>
        (<[(node_id, conn_type) := mkCachedChannel channel current_address now]> cache, inl channel)
    end in
  match cache !! (node_id, conn_type) with
  | Some cached =>
      if bool_decide (cached_address cached = current_address)
      then (<[(node_id, conn_type) := mkCachedChannel (cached_channel cached) (cached_address cached) now]> cache,
            inl (cached_channel cached))
      else slow
  | None => slow
  end.

Definition cache_remove_node (node_id : N) (cache : ConnectionCache) : ConnectionCache :=
  filter (λ '((id, _), _), id ≠ node_id) cache.

(** A connection that fails is evicted, with every other one of the node. *)
Definition get_or_create_channel (now node_id : N) (conn_type : ConnectionType) (addr : string)
    (dial : option string) (cache : ConnectionCache) : ConnectionCache * (PeerChannel + NetworkError) :=
  match get_channel now node_id conn_type addr dial cache with
  | (cache, inl channel) => (cache, inl channel)
  | (cache, inr e) => (cache_remove_node node_id cache, inr e)
  end.

Definition get_address (m : RaftMembership) (node_id : N) : option string :=
  (λ n, node_address_str (nm_address n)) <$> rm_nodes m !! node_id.

(** One connection of each type per replication peer, as far as they can be opened; the
    connections are opened concurrently, here one after the other. *)
Definition pre_warm_connections (m : RaftMembership) `{!MapIter N NodeMeta} (now : N)
    (dial : N → ConnectionType → option string) (cache : ConnectionCache) : ConnectionCache :=
  foldl (λ cache '(id, conn_type),
           match get_address m id with
           | None => cache
           | Some addr => (get_or_create_channel now id conn_type addr (dial id conn_type) cache).1
           end) cache
    (p ← replication_peers m; conn_type ← all_connection_types; [(nm_id p, conn_type)]).

End cache.

(** ** Failure counts *)

(** [zombie_tx] is the channel to the task that forwards the signals. *)
Record RaftHealthMonitor := mkRaftHealthMonitor {
  failure_counts : gmap N N;
  zombie_threshold : N;
  zombie_tx : list N;
  zombie_rx_closed : bool;
  started_at : N;
  startup_grace : N;
}.

#[global] Instance RaftHealthMonitor_settable : Settable RaftHealthMonitor := λ h,
  mkRaftHealthMonitor (failure_counts h) (zombie_threshold h) (zombie_tx h) (zombie_rx_closed h) (started_at h)
    (startup_grace h).

Definition ZOMBIE_CAPACITY : nat := 64.

Definition new_with_grace (zombie_threshold startup_grace now : N) : RaftHealthMonitor :=
  mkRaftHealthMonitor ∅ zombie_threshold [] false now startup_grace.

(** The first half of [record_failure], under the lock of the entry: the new count.
    [None]: the [u32] overflows. *)
Definition count_failure (node_id : N) (h : RaftHealthMonitor) : option (RaftHealthMonitor * N) :=
  let new_count := default 0 (failure_counts h !! node_id) + 1 in
  if u32_max <? new_count then None
  else Some (h <| failure_counts ::= <[node_id := new_count]> |>, new_count).

(** The second half, which other tasks can precede. *)
Definition signal_zombie (now node_id new_count : N) (h : RaftHealthMonitor) : RaftHealthMonitor :=
  if zombie_threshold h <=? new_count then
    if now - started_at h <? startup_grace h then h
    else if zombie_rx_closed h then h
    else if (ZOMBIE_CAPACITY <=? length (zombie_tx h))%nat then h
    else h <| zombie_tx ::= (λ q, q ++ [node_id]) |> <| failure_counts ::= alter (λ _, 0) node_id |>
  else h.

Definition record_failure (now node_id : N) (h : RaftHealthMonitor) : option RaftHealthMonitor :=
  '(h, new_count) ← count_failure node_id h; Some (signal_zombie now node_id new_count h).

Definition record_success (node_id : N) (h : RaftHealthMonitor) : RaftHealthMonitor :=
  h <| failure_counts ::= delete node_id |>.

Definition is_zombie_valid (node_id : N) (h : RaftHealthMonitor) : bool :=
  bool_decide (is_Some (failure_counts h !! node_id)).

(** ** Peers of a node *)

(** The connections and failure counts of a node, the reports of the streams on their
    way to them, the counted failures that are about to be signalled, and the
    [ZombieDetected] events sent to the raft loop. [recorded] lists what the monitor
    counted, [true] for a success, for the theorems. *)
Record PeerLinks := mkPeerLinks {
  pl_cache : ConnectionCache;
  pl_health : RaftHealthMonitor;
  pl_failure_rx : list N;
  pl_success_rx : list N;
  pl_signalling : list (N * N);
  pl_zombies : list N;
  recorded : list (N * bool);
}.

#[global] Instance PeerLinks_settable : Settable PeerLinks := λ l,
  mkPeerLinks (pl_cache l) (pl_health l) (pl_failure_rx l) (pl_success_rx l) (pl_signalling l) (pl_zombies l)
    (recorded l).

Definition REPORT_CAPACITY : nat := 64.

Definition fresh_links (zombie_threshold startup_grace now : N) : PeerLinks :=
  mkPeerLinks ∅ (new_with_grace zombie_threshold startup_grace now) [] [] [] [] [].

Definition begin_failure (node_id : N) (l : PeerLinks) : option PeerLinks :=
  '(h, new_count) ← count_failure node_id (pl_health l);
  Some (l <| pl_health := h |> <| pl_signalling ::= (λ q, q ++ [(node_id, new_count)]) |>
          <| recorded ::= (λ q, q ++ [(node_id, false)]) |>).

(** [get_peer_channel] up to the signal of a failure. *)
Definition get_peer_channel (config : NetworkConfig.t) (m : RaftMembership) (now node_id : N)
    (conn_type : ConnectionType) (dial : option string) (l : PeerLinks) : option (PeerLinks * option PeerChannel) :=
  match get_address m node_id with
  | None => l ← begin_failure node_id l; Some (l, None)
  | Some addr =>
      match get_or_create_channel config now node_id conn_type addr dial (pl_cache l) with
      | (cache, inl channel) => Some (l <| pl_cache := cache |>, Some channel)
      | (cache, inr _) => l ← begin_failure node_id (l <| pl_cache := cache |>); Some (l, None)
      end
  end.

Definition on_peer_stream_success (node_id : N) (l : PeerLinks) : PeerLinks :=
  l <| pl_health ::= record_success node_id |> <| recorded ::= (λ q, q ++ [(node_id, true)]) |>.

Definition on_peer_stream_failed (node_id : N) (l : PeerLinks) : option PeerLinks :=
  begin_failure node_id (l <| pl_cache ::= cache_remove_node node_id |>).

(** [try_send] on a channel of [REPORT_CAPACITY]: a full channel loses the report. *)
Definition try_report (node_id : N) (q : list N) : list N :=
  if (length q <? REPORT_CAPACITY)%nat then q ++ [node_id] else q.

(** What the tasks of a node do to its links: a call fetches a connection, a stream was
    opened or refused, the three tasks of the builder take one element of their
    channels, a counted failure is signalled. *)
Inductive LinkStep :=
  | Fetches (m : RaftMembership) (now node_id : N) (conn_type : ConnectionType) (dial : option string)
  | StreamAnswers (node_id : N) (opened : bool)
  | FailureTaken
  | SuccessTaken
  | Signals (i : nat) (now : N)
  | ZombieTaken.

Definition link_next (config : NetworkConfig.t) (s : LinkStep) (l : PeerLinks) : option PeerLinks :=
  match s with
  | Fetches m now id conn_type dial => fst <$> get_peer_channel config m now id conn_type dial l
  | StreamAnswers id opened =>
      Some (if opened then l <| pl_success_rx ::= try_report id |> else l <| pl_failure_rx ::= try_report id |>)
  | FailureTaken =>
      match pl_failure_rx l with
      | [] => None
      | id :: q => on_peer_stream_failed id (l <| pl_failure_rx := q |>)
      end
  | SuccessTaken =>
      match pl_success_rx l with
      | [] => None
      | id :: q => Some (on_peer_stream_success id (l <| pl_success_rx := q |>))
      end
  | Signals i now =>
      '(id, new_count) ← pl_signalling l !! i;
      Some (l <| pl_signalling := delete i (pl_signalling l) |> <| pl_health ::= signal_zombie now id new_count |>)
  | ZombieTaken =>
      match zombie_tx (pl_health l) with
      | [] => None
      | id :: q =>
          let l := l <| pl_health ::= (λ h, h <| zombie_tx := q |>) |> in
          Some (if is_zombie_valid id (pl_health l) then l <| pl_zombies ::= (λ z, z ++ [id]) |> else l)
      end
  end.

Fixpoint link_run (config : NetworkConfig.t) (ss : list LinkStep) (l : PeerLinks) : option PeerLinks :=
  match ss with
  | [] => Some l
  | s :: ss => l ← link_next config s l; link_run config ss l
  end.

(** ** Retries *)

(** The outcome of an attempt of a task with a timeout. *)
Inductive Attempt (A E : Type) :=
  | Answered (r : A + E)
  | AttemptTimeout.
Arguments Answered {A E} r.
Arguments AttemptTimeout {A E}.

Section retries.
Context {A E : Type} (failed : E → NetworkError) (policy : BackoffPolicy.t) (attempt : nat → Attempt A E).

(** The loop of both retrying functions. [left] attempts are left, the next one is number [k]; the
    list has the delays that were slept. *)
Fixpoint retry_loop (left k : nat) (current_delay : N) (last_error : NetworkError)
    : (A + NetworkError) * list N :=
  match left with
  | O => (inr last_error, [])
  | S left' =>
      let next e :=
        if (left' =? 0)%nat then retry_loop left' (S k) current_delay e
        else
          let '(r, sleeps) :=
            retry_loop left' (S k) (N.min (current_delay * 2) (BackoffPolicy.max_delay_ms policy)) e in
          (r, current_delay :: sleeps) in
      match attempt k with
      | Answered (inl r) => (inl r, [])
      | Answered (inr e) => next (failed e)
      | AttemptTimeout => next (RetryTimeoutAfter (BackoffPolicy.timeout_ms policy))
      end
  end.

Definition retried : (A + NetworkError) * list N :=
  retry_loop (N.to_nat (BackoffPolicy.max_retries policy)) 0 (BackoffPolicy.base_delay_ms policy)
    (TaskBackoffFailed "Task failed after max retries").

End retries.

(** A gRPC call is retried on every status. *)
Definition grpc_error (s : Status) : NetworkError :=
  match s with
  | Unavailable msg => ServiceUnavailable ("Service unavailable: " +:+ msg)
  | _ => TonicStatusError s
  end.

Definition grpc_task_with_timeout_and_exponential_backoff {A} (policy : BackoffPolicy.t)
    (attempt : nat → Attempt A Status) : (A + NetworkError) * list N := retried grpc_error policy attempt.

(** The error of an attempt is the text of its [Debug] form. *)
Definition task_with_timeout_and_exponential_backoff {A} (policy : BackoffPolicy.t)
    (attempt : nat → Attempt A string) : (A + NetworkError) * list N :=
  retried (λ e, TaskBackoffFailed ("failed with error: " +:+ e)) policy attempt.

(** ** The calls of the transport

    A call fetches a connection and runs the attempts of the remote call; what the
    attempts return is an argument. *)

Section calls.
Context `{!MapIter N NodeMeta} (config : NetworkConfig.t) (my_id : N).

Definition send_vote_request (m : RaftMembership) (now peer_id : N) (retry : RetryPolicies.t)
    (dial : option string) (attempt : nat → Attempt VoteResponse Status) (l : PeerLinks)
    : option (PeerLinks * (VoteResponse + NetworkError)) :=
  '(l, channel) ← get_peer_channel config m now peer_id Control dial l;
  Some (l, match channel with
           | None => inr (PeerConnectionNotFound peer_id)
           | Some _ => (grpc_task_with_timeout_and_exponential_backoff (RetryPolicies.election retry) attempt).1
           end).

Definition transport_join_cluster (m : RaftMembership) (now leader_id : N) (retry : BackoffPolicy.t)
    (dial : option string) (attempt : nat → Attempt JoinResponse Status) (l : PeerLinks)
    : option (PeerLinks * (JoinResponse + NetworkError)) :=
  '(l, channel) ← get_peer_channel config m now leader_id Control dial l;
  Some (l, match channel with
           | None => inr (PeerConnectionNotFound leader_id)
           | Some _ => (grpc_task_with_timeout_and_exponential_backoff retry attempt).1
           end).

(** [load] gives the chunks of the snapshot, [push] runs the transfer. *)
Definition send_snapshot {D} (m : RaftMembership) (now peer_id : N) (dial : option string)
    (load : D + NetworkError) (push : PeerChannel → D → unit + NetworkError) (l : PeerLinks)
    : option (PeerLinks * (unit + NetworkError)) :=
  '(l, channel) ← get_peer_channel config m now peer_id Bulk dial l;
  Some (l, match channel with
           | None => inr (PeerConnectionNotFound peer_id)
           | Some channel => match load with
                             | inr e => inr e
                             | inl data_stream => push channel data_stream
                             end
           end).

(** [answer] is the failure of the call that opens the stream, if it fails. *)
Definition open_replication_stream (m : RaftMembership) (now peer_id : N) (dial : option string)
    (answer : option Status) (l : PeerLinks) : option (PeerLinks * (PeerChannel + NetworkError)) :=
  '(l, channel) ← get_peer_channel config m now peer_id Data dial l;
  Some match channel with
       | None => (l, inr (PeerConnectionNotFound peer_id))
       | Some channel =>
           match answer with
           | None => (l <| pl_success_rx ::= try_report peer_id |>, inl channel)
           | Some e => (l <| pl_failure_rx ::= try_report peer_id |>, inr (TonicStatusError e))
           end
       end.

(** Calls to several peers at once: [completes] is the order in which the tasks that were
    started end. *)
Context (completes : ∀ B, list B → list B).

Record ClusterUpdateResult := mkClusterUpdateResult {
  cur_peer_ids : gset N;
  cur_responses : list (ClusterConfUpdateResponse + NetworkError);
}.

(** The loop over the voters: the peers that are called, each once and without this
    node, and among them those with a connection. *)
Fixpoint start_calls (m : RaftMembership) (now : N) (dial : N → option string) (peers : list NodeMeta)
    (peer_ids : gset N) (tasks : list N) (l : PeerLinks) : option (PeerLinks * gset N * list N) :=
  match peers with
  | [] => Some (l, peer_ids, tasks)
  | peer :: peers =>
      let peer_id := nm_id peer in
      if (peer_id =? my_id) || bool_decide (peer_id ∈ peer_ids) then start_calls m now dial peers peer_ids tasks l
      else
        let peer_ids := {[peer_id]} ∪ peer_ids in
        '(l, channel) ← get_peer_channel config m now peer_id Control (dial peer_id) l;
        match channel with
        | None => start_calls m now dial peers peer_ids tasks l
        | Some _ => start_calls m now dial peers peer_ids (tasks ++ [peer_id]) l
        end
  end.

(** [attempt id] has the attempts of the call to node [id], or is [None] if its task
    panics. *)
Definition send_cluster_update (m : RaftMembership) (now : N) (retry : RetryPolicies.t) (dial : N → option string)
    (attempt : N → option (nat → Attempt ClusterConfUpdateResponse Status)) (l : PeerLinks)
    : option (PeerLinks * (ClusterUpdateResult + NetworkError)) :=
  match voters m with
  | [] => Some (l, inr (EmptyPeerList "send_cluster_update"))
  | peers =>
      '(l, peer_ids, tasks) ← start_calls m now dial peers ∅ [] l;
      let response id :=
        match attempt id with
        | None => inr TaskFailed
        | Some attempt => (grpc_task_with_timeout_and_exponential_backoff (RetryPolicies.membership retry) attempt).1
        end in
      Some (l, inl (mkClusterUpdateResult peer_ids (completes _ (response <$> tasks))))
  end.

(** [answer id] is what node [id] answers to the call, if it does. *)
Definition process_member (m : RaftMembership) (now member_id : N) (dial : option string)
    (answer : option LeaderDiscoveryResponse) (l : PeerLinks)
    : option (PeerLinks * option LeaderDiscoveryResponse) :=
  '(l, channel) ← get_peer_channel config m now member_id Control dial l;
  Some (l, _ ← channel; answer).

Fixpoint process_members (m : RaftMembership) (now : N) (ids : list N) (dial : N → option string)
    (answer : N → option LeaderDiscoveryResponse) (l : PeerLinks)
    : option (PeerLinks * list (option LeaderDiscoveryResponse)) :=
  match ids with
  | [] => Some (l, [])
  | id :: ids =>
      '(l, r) ← process_member m now id (dial id) (answer id) l;
      '(l, rs) ← process_members m now ids dial answer l;
      Some (l, r :: rs)
  end.

Definition transport_discover_leader (m : RaftMembership) (now : N) (dial : N → option string)
    (answer : N → option LeaderDiscoveryResponse) (l : PeerLinks)
    : option (PeerLinks * list LeaderDiscoveryResponse) :=
  '(l, results) ← process_members m now (nm_id <$> voters m) dial answer l;
  Some (l, omap id (completes _ results)).

End calls.

(** ** Start of a node *)

(** [check_peer_is_ready]: a connection, and the answer of the health service. *)
Definition check_peer_is_ready (dial : option string) (serving : bool + string) : unit + NetworkError :=
  match dial with
  | Some e => inr (ConnectError e)
  | None => match serving with
            | inr e => inr (ConnectError e)
            | inl true => inl tt
            | inl false => inr (ServiceUnavailable "RPC service is not ready yet")
            end
  end.

Inductive StartError := ClusterIsNotReady | QuorumUnreachable | StepFailed (e : error).

Definition check_passed (r : option (unit + NetworkError)) : bool :=
  match r with Some (inl _) => true | _ => false end.

(** [checks] are the results of the checks of the voters in the order they end, [None]
    for a task that panicked; [None] if the time is over before all of them ended. *)
Definition check_cluster_is_ready (peers : list NodeMeta)
    (checks : option (list (option (unit + NetworkError)))) : unit + StartError :=
  match checks with
  | None => inr ClusterIsNotReady
  | Some results =>
      let success_count := length (filter (λ r, check_passed r = true) results) in
      if (length peers =? success_count)%nat then inl tt else inr ClusterIsNotReady
  end.

(** How a step of the start ends: it is done, the time around it is over, or the node is
    told to shut down first. *)
Inductive Race (A : Type) := RaceDone (r : A) | RaceTimeout | RaceShutdown.
Arguments RaceDone {A} r.
Arguments RaceTimeout {A}.
Arguments RaceShutdown {A}.

(** The flag of the RPC server after the start, and its result. Warming up the
    connections succeeds ([pre_warm_connections]) or is interrupted. *)
Definition run_as_voter (ready_check : Race (unit + StartError)) : bool * (unit + StartError) :=
  match ready_check with
  | RaceDone (inr e) => (false, inr e)
  | RaceTimeout => (false, inr QuorumUnreachable)
  | RaceShutdown => (false, inl tt)
  | RaceDone (inl _) => (true, inl tt)
  end.

Definition run_as_learner (join : result unit) : bool * (unit + StartError) :=
  (true, match join with Ok _ => inl tt | Err e => inr (StepFailed e) end).

(** The raft loop runs if the start succeeds. *)
Definition node_run (is_learner : bool) (ready_check : Race (unit + StartError)) (join raft_loop : result unit)
    : bool * (unit + StartError) :=
  let '(ready, r) := if is_learner then run_as_learner join else run_as_voter ready_check in
  (ready, match r with
          | inr e => inr e
          | inl _ => match raft_loop with Ok _ => inl tt | Err e => inr (StepFailed e) end
          end).
