(* ===== verification/TransportProps.v ===== *)
(** * Connections to peers: properties

    What the calls of [Transport.v] promise the raft code: a cached connection is one a
    new connection would replace by an equal one, a peer that is reported has failed
    often enough, retries stop, and a call to all voters reaches each of them once; then
    the executions in which they depart from their documentation. *)

From stdpp Require Import base tactics numbers option list gmap strings.
From S2P Require Import Prelude Types Events CommitHandler Membership Config SnapshotFiles ReplicationWorker Transport.

(** ** Failures of a peer *)

(** How often the monitor counted a failure of [id] since it last counted a success. *)
Definition failures_since (id : N) (h : list (N * bool)) : N :=
  foldl (λ c '(i, success), if i =? id then if success : bool then 0 else c + 1 else c) 0 h.

Lemma failures_since_snoc id h i success :
  failures_since id (h ++ [(i, success)])
  = if i =? id then if success : bool then 0 else failures_since id h + 1 else failures_since id h.
Proof. unfold failures_since. by rewrite foldl_app. Qed.

(** At some time [id] had failed [t] times in a row. *)
Definition had_failed (t : N) (h : list (N * bool)) (id : N) : Prop :=
  ∃ h1 h2, h = h1 ++ h2 ∧ t <= failures_since id h1.

(** A report reached the raft loop: at some time [id] had failed [t] times in a row,
    and later, when the report was forwarded, its last record was a failure. *)
Definition had_failed_and_fails (t : N) (h : list (N * bool)) (id : N) : Prop :=
  ∃ h1 h2 h3, h = h1 ++ h2 ++ h3 ∧ t <= failures_since id h1 ∧ 1 <= failures_since id (h1 ++ h2).

Lemma had_failed_app t h h' id : had_failed t h id → had_failed t (h ++ h') id.
Proof. intros (h1 & h2 & -> & H). exists h1, (h2 ++ h'). by rewrite <- app_assoc. Qed.

Lemma had_failed_and_fails_app t h h' id : had_failed_and_fails t h id → had_failed_and_fails t (h ++ h') id.
Proof. intros (h1 & h2 & h3 & -> & H). exists h1, h2, (h3 ++ h'). by rewrite <- !app_assoc. Qed.

Record health_inv (t : N) (l : PeerLinks) : Prop := {
  hi_threshold : zombie_threshold (pl_health l) = t;
  hi_counts : ∀ id c, failure_counts (pl_health l) !! id = Some c →
                c <= failures_since id (recorded l) ∧ 1 <= failures_since id (recorded l);
  hi_signalling : Forall (λ p, had_failed p.2 (recorded l) p.1) (pl_signalling l);
  hi_queued : Forall (had_failed t (recorded l)) (zombie_tx (pl_health l));
  hi_sent : Forall (had_failed_and_fails t (recorded l)) (pl_zombies l);
}.

Section run.
Context (config : NetworkConfig.t) (t : N).

(** The invariant does not look at the connections and the report channels. *)
Lemma health_inv_frame cache f s l l' :
  health_inv t l →
  l' = mkPeerLinks cache (pl_health l) f s (pl_signalling l) (pl_zombies l) (recorded l) → health_inv t l'.
Proof. intros [] ->. by split. Qed.

Lemma begin_failure_inv id l l' : health_inv t l → begin_failure id l = Some l' → health_inv t l'.
Proof.
  intros [Ht Hc Hs Hq Hz]. unfold begin_failure, count_failure. case_bool; [done|]. intros [= <-].
  assert (default 0 (failure_counts (pl_health l) !! id) <= failures_since id (recorded l)) as Hd.
  { destruct (_ !! id) as [c|] eqn:E; simpl; [by apply (Hc id)|lia]. }
  split; simpl; [done| | | |].
  - intros i c. rewrite failures_since_snoc. destruct (N.eqb_spec id i) as [->|Hi].
    + rewrite lookup_insert_eq. intros [= <-]. lia.
    + rewrite lookup_insert_ne by done. apply Hc.
  - apply Forall_app. split; [eapply Forall_impl; [exact Hs|]; intros p; apply had_failed_app|].
    constructor; [|done]. exists (recorded l ++ [(id, false)]), []. rewrite app_nil_r, failures_since_snoc, N.eqb_refl.
    split; [done|]. simpl. lia.
  - eapply Forall_impl; [exact Hq|]. intros i; apply had_failed_app.
  - eapply Forall_impl; [exact Hz|]. intros i; apply had_failed_and_fails_app.
Qed.

Lemma success_inv id l : health_inv t l → health_inv t (on_peer_stream_success id l).
Proof.
  intros [Ht Hc Hs Hq Hz]. split; simpl; [done| | | |].
  - intros i c [Hi H]%lookup_delete_Some. rewrite failures_since_snoc. case_bool; [done|by apply Hc].
  - eapply Forall_impl; [exact Hs|]. intros i; apply had_failed_app.
  - eapply Forall_impl; [exact Hq|]. intros i; apply had_failed_app.
  - eapply Forall_impl; [exact Hz|]. intros i; apply had_failed_and_fails_app.
Qed.

Lemma signal_zombie_cases now id c h :
  signal_zombie now id c h = h
  ∨ zombie_threshold h <= c
    ∧ signal_zombie now id c h = h <| zombie_tx ::= (λ q, q ++ [id]) |> <| failure_counts ::= alter (λ _, 0) id |>.
Proof.
  unfold signal_zombie. destruct (N.leb_spec (zombie_threshold h) c); [|by left].
  destruct (_ <? _); [by left|]. destruct (zombie_rx_closed h); [by left|]. destruct (_ <=? _)%nat; [by left|by right].
Qed.

Lemma signals_inv i now id c l :
  health_inv t l → pl_signalling l !! i = Some (id, c) →
  health_inv t (l <| pl_signalling := delete i (pl_signalling l) |> <| pl_health ::= signal_zombie now id c |>).
Proof.
  intros [Ht Hc Hs Hq Hz] Hi. pose proof (Forall_lookup_1 _ _ _ _ Hs Hi) as He. simpl in He.
  assert (Forall (λ p, had_failed p.2 (recorded l) p.1) (delete i (pl_signalling l))) as Hs'
    by (by apply Forall_delete).
  simpl. destruct (signal_zombie_cases now id c (pl_health l)) as [->|[Hle ->]]; [by split|].
  split; simpl; [done| |done| |done].
  - intros j d [(Hj & d' & Hl & ->)|[Hj Hl]]%lookup_alter_Some; [|by apply Hc].
    subst. destruct (Hc _ _ Hl). lia.
  - apply Forall_app. split; [done|]. constructor; [|done].
    destruct He as (h1 & h2 & -> & He). exists h1, h2. split; [done|lia].
Qed.

Lemma link_next_inv s l l' : health_inv t l → link_next config s l = Some l' → health_inv t l'.
Proof.
  intros Hi. destruct s as [m now id ct dial|id opened| | |i now|]; simpl.
  - unfold get_peer_channel. intros ([l1 ch] & H & ->)%fmap_Some. simpl. destruct (get_address m id) as [addr|].
    + destruct (get_or_create_channel _ _ _ _ _ _ _) as [cache [channel|e]].
      * injection H as <- _. by eapply health_inv_frame.
      * apply bind_Some in H as (l2 & H & [= <- _]). eapply begin_failure_inv; [|exact H]. by eapply health_inv_frame.
    + apply bind_Some in H as (l2 & H & [= <- _]). by eapply begin_failure_inv.
  - intros [= <-]. destruct opened; by eapply health_inv_frame.
  - destruct (pl_failure_rx l) as [|id q]; [done|]. unfold on_peer_stream_failed. intros H.
    eapply begin_failure_inv; [|exact H]. by eapply health_inv_frame.
  - destruct (pl_success_rx l) as [|id q]; [done|]. intros [= <-]. apply success_inv. by eapply health_inv_frame.
  - intros ([id c] & Hl & [= <-])%bind_Some. by apply signals_inv.
  - destruct (zombie_tx (pl_health l)) as [|id q] eqn:E; [done|]. intros [= <-].
    destruct Hi as [Ht Hc Hs Hq Hz]. rewrite E in Hq. inversion Hq as [|? ? Hid Hq']; subst.
    unfold is_zombie_valid; simpl. case_bool_decide as V; split; simpl; try done.
    apply Forall_app. split; [done|]. constructor; [|done]. destruct V as [c [_ V]%Hc].
    destruct Hid as (h1 & h2 & Hr & Hid). exists h1, h2, []. by rewrite app_nil_r, <- Hr.
Qed.

Lemma link_run_inv ss l l' : health_inv t l → link_run config ss l = Some l' → health_inv t l'.
Proof.
  revert l. induction ss as [|s ss IH]; intros l Hi; simpl; [by intros [= <-]|].
  intros (l1 & H & Hr)%bind_Some. eapply IH; [|exact Hr]. by eapply link_next_inv.
Qed.

End run.

(** C34: However the calls, the streams and the tasks between them interleave, every node that
    is reported to the raft loop as a zombie had failed at least [zombie_threshold]
    times in a row at some time, and its last record was a failure when it was reported. *)
Theorem zombies_have_failed config threshold grace now ss l :
  link_run config ss (fresh_links threshold grace now) = Some l →
  ∀ id, id ∈ pl_zombies l → had_failed_and_fails threshold (recorded l) id.
Proof.
  intros H id Hid. apply (link_run_inv config threshold) in H.
  - by eapply Forall_forall; [apply (hi_sent _ _ H)|].
  - by split; simpl.
Qed.

Lemma signal_sends now id c h :
  zombie_threshold h <= c → startup_grace h <= now - started_at h → zombie_rx_closed h = false →
  (length (zombie_tx h) < ZOMBIE_CAPACITY)%nat →
  signal_zombie now id c h = h <| zombie_tx ::= (λ q, q ++ [id]) |> <| failure_counts ::= alter (λ _, 0) id |>.
Proof.
  intros Hc Hg Hx Hl. unfold signal_zombie. rewrite (proj2 (N.leb_le _ _) Hc), (proj2 (N.ltb_ge _ _) Hg), Hx.
  by rewrite (proj2 (Nat.leb_gt _ _) Hl).
Qed.

(** Failures of [id] one after the other, nothing in between. *)
Fixpoint record_failures (n : nat) (now id : N) (h : RaftHealthMonitor) : option RaftHealthMonitor :=
  match n with
  | O => Some h
  | S n => h ← record_failures n now id h; record_failure now id h
  end.

(** A peer that keeps failing after the grace period is reported once every
    [zombie_threshold] failures while the channel has room, and the remaining failures
    stay counted. *)
Theorem failing_peer_is_reported threshold grace started now id n :
  0 < threshold → threshold <= u32_max → grace <= now - started →
  (n <= N.to_nat threshold * ZOMBIE_CAPACITY)%nat →
  ∃ h, record_failures n now id (new_with_grace threshold grace started) = Some h
  ∧ zombie_tx h = replicate (N.to_nat (N.of_nat n / threshold)) id
  ∧ default 0 (failure_counts h !! id) = N.of_nat n mod threshold
  ∧ zombie_threshold h = threshold ∧ startup_grace h = grace ∧ started_at h = started ∧ zombie_rx_closed h = false.
Proof.
  intros Hp Hm Hg. induction n as [|n IH]; intros Hn.
  { eexists. split; [done|]. rewrite N.Div0.div_0_l, N.Div0.mod_0_l. done. }
  destruct IH as (h & Hr & Hq & Hc & Ht & Hgr & Hst & Hx); [lia|]. simpl. rewrite Hr. simpl.
  unfold record_failure, count_failure. rewrite Hc.
  pose proof (N.mod_lt (N.of_nat n) threshold ltac:(lia)) as Hlt.
  rewrite (proj2 (N.ltb_ge u32_max _)) by lia. simpl.
  assert (N.of_nat (S n) = threshold * (N.of_nat n / threshold) + (N.of_nat n mod threshold + 1)) as E.
  { rewrite Nat2N.inj_succ, (N.div_mod' (N.of_nat n) threshold) at 1. lia. }
  destruct (N.eq_dec (N.of_nat n mod threshold + 1) threshold) as [Hf|Hf].
  - assert (N.of_nat (S n) / threshold = N.of_nat n / threshold + 1) as Ed
      by (symmetry; apply (N.div_unique _ _ _ 0); lia).
    assert (N.of_nat (S n) mod threshold = 0) as Em
      by (symmetry; apply (N.mod_unique _ _ (N.of_nat n / threshold + 1)); lia).
    eexists. split; [done|]. rewrite signal_sends; simpl; [|lia|lia|done|].
    + rewrite lookup_alter_eq, lookup_insert_eq; simpl. split_and!; try done.
      rewrite Hq, Ed, N.add_1_r, N2Nat.inj_succ. by rewrite replicate_S_end.
    + rewrite Hq, length_replicate. assert (N.of_nat n / threshold < 64); [|unfold ZOMBIE_CAPACITY; lia].
      apply N.Div0.div_lt_upper_bound. unfold ZOMBIE_CAPACITY in Hn. lia.
  - assert (N.of_nat (S n) / threshold = N.of_nat n / threshold) as Ed
      by (symmetry; apply (N.div_unique _ _ _ (N.of_nat n mod threshold + 1)); lia).
    assert (N.of_nat (S n) mod threshold = N.of_nat n mod threshold + 1) as Em
      by (symmetry; apply (N.mod_unique _ _ (N.of_nat n / threshold)); lia).
    eexists. split; [done|]. unfold signal_zombie; simpl. rewrite (proj2 (N.leb_gt _ _)) by lia. simpl.
    rewrite lookup_insert_eq, Ed, Em, Hq. done.
Qed.

(** ** Connections *)

Section connections.
Context (config : NetworkConfig.t).

(** A cached connection is what a new one to its address would be. *)
Definition cache_ok (cache : ConnectionCache) : Prop :=
  ∀ id ct c, cache !! (id, ct) = Some c → cached_channel c = mkPeerChannel (cached_address c) (conn_params config ct).

Lemma cache_ok_insert id ct c cache :
  cache_ok cache → cached_channel c = mkPeerChannel (cached_address c) (conn_params config ct) →
  cache_ok (<[(id, ct) := c]> cache).
Proof.
  intros H Hc id' ct' c'. destruct (decide ((id, ct) = (id', ct'))) as [[= <- <-]|Hne].
  - rewrite lookup_insert_eq. by intros [= <-].
  - rewrite lookup_insert_ne by done. apply H.
Qed.

Lemma cache_ok_remove id cache : cache_ok cache → cache_ok (cache_remove_node id cache).
Proof. intros H id' ct c [Hc _]%map_lookup_filter_Some. by eapply H. Qed.

Lemma get_or_create_channel_spec now id ct addr dial cache :
  cache_ok cache →
  let '(cache', r) := get_or_create_channel config now id ct addr dial cache in
  cache_ok cache' ∧ match r with inl ch => ch = mkPeerChannel addr (conn_params config ct) | inr _ => is_Some dial end.
Proof.
  intros H. unfold get_or_create_channel, get_channel, cache_create_channel.
  destruct (cache !! (id, ct)) as [c|] eqn:E; [case_bool_decide as Ha|].
  - pose proof (H _ _ _ E) as Hc. rewrite Hc, Ha. split; [|done]. apply cache_ok_insert; [done|]. by simpl; rewrite ?Ha.
  - destruct dial; simpl; split; try done; [by apply cache_ok_remove|by apply cache_ok_insert].
  - destruct dial; simpl; split; try done; [by apply cache_ok_remove|by apply cache_ok_insert].
Qed.

Lemma begin_failure_cache id l l' : begin_failure id l = Some l' → pl_cache l' = pl_cache l.
Proof. unfold begin_failure. by intros ([h c] & _ & [= <-])%bind_Some. Qed.

Lemma get_peer_channel_spec m now id ct dial l l' r :
  cache_ok (pl_cache l) → get_peer_channel config m now id ct dial l = Some (l', r) →
  cache_ok (pl_cache l')
  ∧ match r with
    | Some ch => ∃ n, rm_nodes m !! id = Some n
                      ∧ ch = mkPeerChannel (node_address_str (nm_address n)) (conn_params config ct)
    | None => rm_nodes m !! id = None ∨ is_Some dial
    end.
Proof.
  intros H. unfold get_peer_channel, get_address. destruct (rm_nodes m !! id) as [n|]; simpl.
  - pose proof (get_or_create_channel_spec now id ct (node_address_str (nm_address n)) dial (pl_cache l) H) as S.
    destruct (get_or_create_channel _ _ _ _ _ _ _) as [cache [ch|e]], S as [Hc S].
    + intros [= <- <-]. split; [done|]. by exists n.
    + intros (l1 & B%begin_failure_cache & [= <- <-])%bind_Some. rewrite B. split; [done|by right].
  - intros (l1 & B%begin_failure_cache & [= <- <-])%bind_Some. rewrite B. split; [done|by left].
Qed.

Lemma link_next_cache s l l' : cache_ok (pl_cache l) → link_next config s l = Some l' → cache_ok (pl_cache l').
Proof.
  intros H. destruct s as [m now id ct dial|id opened| | |i now|]; simpl.
  - intros ([l1 ch] & Hg & ->)%fmap_Some. by eapply get_peer_channel_spec.
  - intros [= <-]. by destruct opened.
  - destruct (pl_failure_rx l) as [|id q]; [done|]. intros B%begin_failure_cache. rewrite B. by apply cache_ok_remove.
  - destruct (pl_success_rx l) as [|id q]; [done|]. by intros [= <-].
  - by intros ([id c] & _ & [= <-])%bind_Some.
  - destruct (zombie_tx (pl_health l)) as [|id q]; [done|]. intros [= <-]. by destruct (is_zombie_valid _ _).
Qed.

(** Whatever happened to the links before, the connection that a call gets leads to the
    address the membership has for the peer now, with the parameters of its type; and a
    call gets one unless the peer is unknown or a new connection fails. *)
Theorem connections_are_current threshold grace start ss l m now id ct dial l' r :
  link_run config ss (fresh_links threshold grace start) = Some l →
  get_peer_channel config m now id ct dial l = Some (l', r) →
  match r with
  | Some ch => ∃ n, rm_nodes m !! id = Some n
                    ∧ ch = mkPeerChannel (node_address_str (nm_address n)) (conn_params config ct)
  | None => rm_nodes m !! id = None ∨ is_Some dial
  end.
Proof.
  intros Hr. apply get_peer_channel_spec.
  assert (cache_ok (pl_cache (fresh_links threshold grace start))) as H by (by intros ? ? ? ?).
  revert H Hr. generalize (fresh_links threshold grace start). induction ss as [|s ss IH]; intros l0 H; simpl.
  - by intros [= <-].
  - intros (l1 & Hn & Hr)%bind_Some. eapply IH; [|exact Hr]. by eapply link_next_cache.
Qed.

End connections.

(** ** Retries *)

Section retries.
Context {A E : Type} (failed : E → NetworkError) (policy : BackoffPolicy.t) (attempt : nat → Attempt A E).

Definition attempt_error (k : nat) : option NetworkError :=
  match attempt k with
  | Answered (inl _) => None
  | Answered (inr e) => Some (failed e)
  | AttemptTimeout => Some (RetryTimeoutAfter (BackoffPolicy.timeout_ms policy))
  end.

Lemma retry_loop_success left k d last a :
  attempt k = Answered (inl a) → retry_loop failed policy attempt (S left) k d last = (inl a, []).
Proof. simpl. by intros ->. Qed.

Lemma retry_loop_failure left k last e :
  attempt_error k = Some e →
  retry_loop failed policy attempt (S left) k (backoff_delay policy k) last
  = match left with
    | O => (inr e, [])
    | S _ => let '(r, sleeps) := retry_loop failed policy attempt left (S k) (backoff_delay policy (S k)) e in
             (r, backoff_delay policy k :: sleeps)
    end.
Proof.
  unfold attempt_error. rewrite <- backoff_delay_step.
  simpl. destruct (attempt k) as [[?|?]|]; intros [= <-]; by destruct left.
Qed.

Lemma retry_loop_fails left k last :
  (∀ j, (k <= j <= k + left)%nat → is_Some (attempt_error j)) →
  retry_loop failed policy attempt (S left) k (backoff_delay policy k) last
  = (inr (default last (attempt_error (k + left))), backoff_delay policy <$> seq k left).
Proof.
  revert k last. induction left as [|left IH]; intros k last H; (destruct (H k) as [e He]; [lia|]).
  - rewrite (retry_loop_failure _ _ _ e), Nat.add_0_r, He by done. done.
  - rewrite (retry_loop_failure _ _ _ e), IH by (done || (intros j Hj; apply H; lia)).
    rewrite Nat.add_succ_r. simpl. by destruct (H (S (k + left))) as [? ->]; [lia|].
Qed.

Lemma retry_loop_succeeds left k i last a :
  (i <= left)%nat → attempt (k + i)%nat = Answered (inl a) →
  (∀ j, (k <= j < k + i)%nat → is_Some (attempt_error j)) →
  retry_loop failed policy attempt (S left) k (backoff_delay policy k) last
  = (inl a, backoff_delay policy <$> seq k i).
Proof.
  revert left k last. induction i as [|i IH]; intros left k last Hi Ha H.
  { rewrite Nat.add_0_r in Ha. by apply retry_loop_success. }
  destruct (H k) as [e He]; [lia|]. rewrite (retry_loop_failure _ _ _ e) by done.
  destruct left as [|left]; [lia|]. rewrite IH; [done|lia|by rewrite Nat.add_succ_comm|].
  intros j Hj. apply H. lia.
Qed.

(** A task is attempted at most [max_retries] times. The result is the first success, or
    the error of the last attempt; between two attempts it sleeps for the base delay,
    doubled every time up to the maximum. *)
Theorem retries_are_bounded :
  let n := N.to_nat (BackoffPolicy.max_retries policy) in
  (∀ i a, (i < n)%nat → attempt i = Answered (inl a) → (∀ j, (j < i)%nat → is_Some (attempt_error j)) →
     retried failed policy attempt = (inl a, backoff_delay policy <$> seq 0 i))
  ∧ ((∀ j, (j < n)%nat → is_Some (attempt_error j)) →
     retried failed policy attempt
     = (inr (default (TaskBackoffFailed "Task failed after max retries")
               (if (n =? 0)%nat then None else attempt_error (n - 1))),
        backoff_delay policy <$> seq 0 (n - 1))).
Proof.
  intros n. unfold retried. fold n.
  change (BackoffPolicy.base_delay_ms policy) with (backoff_delay policy 0). destruct n as [|n].
  - split; [lia|done].
  - split.
    + intros i a Hi Ha H. apply retry_loop_succeeds; [lia|done|]. intros j Hj. apply H. lia.
    + intros H. rewrite retry_loop_fails; [|intros j Hj; apply H; lia]. simpl. by rewrite Nat.sub_0_r.
Qed.

End retries.

(** ** Calls to all voters *)

Section cluster_update.
Context `{!MapIter N NodeMeta} (config : NetworkConfig.t) (my_id : N).
Context (completes : ∀ B, list B → list B) (completes_all : ∀ B (l : list B), completes B l ≡ₚ l).

Lemma start_calls_spec m now dial peers ids tasks l l' ids' tasks' :
  (∀ p, p ∈ peers → is_Some (rm_nodes m !! nm_id p) ∧ dial (nm_id p) = None) → cache_ok config (pl_cache l) →
  start_calls config my_id m now dial peers ids tasks l = Some (l', ids', tasks') →
  NoDup tasks → (∀ i, i ∈ tasks ↔ i ∈ ids) →
  NoDup tasks' ∧ (∀ i, i ∈ tasks' ↔ i ∈ ids') ∧ (∀ i, i ∈ ids' ↔ i ∈ ids ∨ i ≠ my_id ∧ i ∈ nm_id <$> peers).
Proof.
  revert ids tasks l. induction peers as [|p peers IH]; intros ids tasks l Hp Hc; simpl.
  { intros [= <- <- <-] Hn Ht. set_solver. }
  destruct (Hp p) as [[n Hm] Hd]; [by left|].
  assert (∀ p, p ∈ peers → is_Some (rm_nodes m !! nm_id p) ∧ dial (nm_id p) = None) as Hp'
    by (intros q Hq; apply Hp; by right).
  destruct (N.eqb_spec (nm_id p) my_id) as [Heq|Hne]; simpl.
  { intros H Hn Ht. destruct (IH _ _ _ Hp' Hc H Hn Ht) as (? & ? & Hi). split_and!; try done.
    intros i. rewrite Hi. set_solver. }
  case_bool_decide as Hin.
  { intros H Hn Ht. destruct (IH _ _ _ Hp' Hc H Hn Ht) as (? & ? & Hi). split_and!; try done.
    intros i. rewrite Hi. set_solver. }
  intros ([l1 r] & Hg & H)%bind_Some Hn Ht. apply get_peer_channel_spec in Hg as [Hc1 Hr]; [|done].
  destruct r as [ch|]; [|destruct Hr as [?|[]]; congruence].
  apply IH in H as (? & ? & Hi); [|done|done| |].
  - split_and!; try done. intros i. rewrite Hi. set_solver.
  - apply NoDup_app. split_and!; [done| |apply NoDup_singleton]. set_solver.
  - set_solver.
Qed.

(** With a connection to every voter, a cluster update is sent to each voter other than
    this node once, and there is one response for each of them. *)
Theorem cluster_update_reaches_the_voters m now retry dial attempt l l' u :
  (∀ p, p ∈ voters m → is_Some (rm_nodes m !! nm_id p) ∧ dial (nm_id p) = None) → cache_ok config (pl_cache l) →
  send_cluster_update config my_id completes m now retry dial attempt l = Some (l', inl u) →
  ∃ ids, NoDup ids ∧ (∀ i, i ∈ ids ↔ i ≠ my_id ∧ i ∈ nm_id <$> voters m) ∧ cur_peer_ids u = list_to_set ids
  ∧ cur_responses u ≡ₚ (λ id, match attempt id with
      | None => inr TaskFailed
      | Some attempt => (grpc_task_with_timeout_and_exponential_backoff (RetryPolicies.membership retry) attempt).1
      end) <$> ids.
Proof.
  intros Hv Hc. unfold send_cluster_update. destruct (voters m) as [|p peers] eqn:E; [done|]. rewrite <- E in *.
  intros ([[l1 ids] tasks] & Hs & [= <- <-])%bind_Some.
  apply start_calls_spec in Hs as (Hn & Ht & Hi); [|done|done|constructor|set_solver].
  exists tasks. split_and!; [done|set_solver|simpl; set_solver|simpl; apply completes_all].
Qed.

End cluster_update.

(** ** Start *)

(** A voter whose RPC server answers has seen every other voter ready, in time. *)
Theorem ready_voter_saw_its_peers peers checks ready_check join raft_loop r :
  (∀ c, ready_check = RaceDone c → c = check_cluster_is_ready peers checks) →
  (∀ results, checks = Some results → length results = length peers) →
  node_run false ready_check join raft_loop = (true, r) →
  ∃ results, checks = Some results ∧ Forall (λ c, check_passed c = true) results.
Proof.
  intros Hr Hl. unfold node_run, run_as_voter. destruct ready_check as [[[]|e]| |]; try done. intros _.
  specialize (Hr _ eq_refl). unfold check_cluster_is_ready in Hr. destruct checks as [results|]; [|done].
  exists results. split; [done|]. destruct (_ =? _)%nat eqn:Hf; [apply Nat.eqb_eq in Hf|done].
  rewrite <- (Hl results eq_refl) in Hf. clear -Hf. induction results as [|c results IH]; [constructor|].
  rewrite filter_cons in Hf. simpl in Hf. destruct (decide (check_passed c = true)).
  - constructor; [done|]. apply IH. simpl in Hf. lia.
  - pose proof (length_filter (λ c, check_passed c = true) results). lia.
Qed.

(** ** Concrete runs *)

Import MembershipRuns.

Definition test_network : NetworkConfig.t := NetworkConfig.default.

(** Two refused streams, counted and signalled. *)
Definition two_failures : list LinkStep :=
  [StreamAnswers 2 false; StreamAnswers 2 false; FailureTaken; Signals 0 5; FailureTaken; Signals 0 6].

Lemma zombies_have_failed_witness :
  ∃ l, link_run test_network (two_failures ++ [ZombieTaken]) (fresh_links 2 0 0) = Some l
       ∧ pl_zombies l = [2] ∧ had_failed_and_fails 2 (recorded l) 2.
Proof.
  eexists. split; [vm_compute; reflexivity|]. split; [done|].
  eapply (zombies_have_failed test_network 2 0 0 (two_failures ++ [ZombieTaken])); [vm_compute; reflexivity|].
  simpl. set_solver.
Defined.

(** The node moves after the first connection. *)
Definition before_move : RaftMembership := rm_new 1 [voter 1; voter 2].
Definition after_move : RaftMembership :=
  rm_new 1 [voter 1; mkNodeMeta 2 "moved" (role_i32 NR_Follower) (status_i32 NS_Active)].

Lemma connections_are_current_witness :
  ∃ l l', link_run test_network [Fetches before_move 1 2 Data None] (fresh_links 2 0 0) = Some l
    ∧ get_peer_channel test_network after_move 9 2 Data None l
      = Some (l', Some (mkPeerChannel "http://moved" ConnectionParams.default_data_params))
    ∧ ∃ n, rm_nodes after_move !! 2 = Some n
        ∧ mkPeerChannel "http://moved" ConnectionParams.default_data_params
          = mkPeerChannel (node_address_str (nm_address n)) (conn_params test_network Data).
Proof.
  do 2 eexists. split; [vm_compute; reflexivity|]. split; [vm_compute; reflexivity|].
  eapply (connections_are_current test_network 2 0 0 [Fetches before_move 1 2 Data None] _ after_move 9 2 Data None _
            (Some (mkPeerChannel "http://moved" ConnectionParams.default_data_params))); vm_compute; reflexivity.
Defined.

(** ** Where the code departs from its documentation *)

(** A report is meant to be dropped when the peer recovered after it was queued. One more
    failure after the recovery makes it count again: the peer is reported with fewer
    failures in a row than the threshold. *)
Theorem stale_zombie_is_reported :
  ∃ l, link_run test_network
         (two_failures ++ [StreamAnswers 2 true; SuccessTaken; StreamAnswers 2 false; FailureTaken; ZombieTaken])
         (fresh_links 2 0 0) = Some l
       ∧ pl_zombies l = [2] ∧ failures_since 2 (recorded l) = 1.
Proof. eexists. split; [vm_compute; reflexivity|]. by vm_compute. Qed.

(** The validation of a policy refuses [max_retries = 0] as infinite retries; with it, a task
    is not attempted at all. *)
Theorem zero_retries_never_attempt A (policy : BackoffPolicy.t) (attempt : nat → Attempt A Status) :
  BackoffPolicy.max_retries policy = 0 →
  grpc_task_with_timeout_and_exponential_backoff policy attempt
  = (inr (TaskBackoffFailed "Task failed after max retries"), []).
Proof. intros H. unfold grpc_task_with_timeout_and_exponential_backoff, retried. by rewrite H. Qed.

(** The start waits for a quorum, says its setting; one voter of five that is not ready
    stops it. *)
Theorem one_unready_voter_stops_the_start :
  node_run false (RaceDone (check_cluster_is_ready [voter 2; voter 3; voter 4; voter 5]
    (Some [Some (inl tt); Some (inl tt); Some (inr (ConnectError "refused")); Some (inl tt)]))) (Ok tt) (Ok tt)
  = (false, inr ClusterIsNotReady).
Proof. done. Qed.

(** Responses to a cluster update are documented to be in the order of the peers; they
    come in the order in which the calls end. *)
Theorem cluster_update_responses_are_unordered :
  let attempt (id : N) := Some (λ _ : nat, Answered (inl (conf_success id 1 1))) in
  ∃ l u, @send_cluster_update node_iter test_network 1 (λ _, reverse) (rm_new 1 [voter 1; voter 2; voter 3]) 0
           RetryPolicies.default (λ _, None) attempt (fresh_links 2 0 0) = Some (l, inl u)
         ∧ cur_responses u = [inl (conf_success 3 1 1); inl (conf_success 2 1 1)].
Proof. do 2 eexists. split; [vm_compute; reflexivity|]. done. Qed.

(** A peer is always reached without TLS, also at an address that is given with [https]. *)
Theorem https_addresses_are_downgraded :
  node_address_str "https://node1:9081" = "http://node1:9081"%string.
Proof. by vm_compute. Qed.
